(* ===== verification/_CoqProject ===== *)
-Q . S2P
Prelude.v
Backoff.v
Futex.v
Memory.v
Conqueue.v
BqSlot.v
BqRing.v
BqTokens.v
BqTickets.v
BqChannel.v
BqRefine.v
BqTheorems.v
BqCalls.v
BqWake.v
BqTrace.v
BqProgress.v
BqExamples.v
BqDefects.v
BqClasses.v
BqOrder.v
BqOrdered.v
BqRaces.v
Lock.v
Spinlock.v
LockOrder.v
TicketOrder.v
LockGuard.v
SharedTicket.v
SharedOrder.v
FutexLock.v
FutexOrder.v
OrderTheorems.v
LockTests.v
CondVar.v
SynchQueue.v
SqExamples.v
FutexQueue.v
FqRefine.v
FqSim.v
FqTheorems.v
FqExamples.v
SharedQueue.v
QueueIter.v
QueueStream.v
QsExamples.v
QueueBench.v
QbExamples.v
Task.v
Basic.v
Posix.v
ThreadPool.v
PoolQueue.v
PqExamples.v
PoolTask.v
