(* ===== verification/Prelude.v ===== *)
(** * Evenk: a verification library

    Evenk (src/evenk) is a header-only C++ library for concurrent programming:
    back-off policies, futex wrappers, locks, a condition variable, two
    concurrent queues with iterators, type-erased tasks, threads with affinity
    and a thread pool.  This library models its code and proves it correct.

    ** Parts of the program and where they are

    - backoff.h: [Backoff].  Functors as state machines with 32-bit counters.
    - futex.h: [Futex].  Result decoding; what the kernel does to its queues is
      the documented behaviour, with the kernel's choice in the label.
    - spinlock.h: [Spinlock] (spin_lock, tatas_lock, ticket_lock) and
      [SharedTicket] (shared_ticket_lock, for any half width); with the memory
      orders of the source, [LockOrder] (spin_lock, tatas_lock), [TicketOrder]
      and [SharedOrder].
    - synch.h: [FutexLock] (futex_lock; with memory orders, [FutexOrder]),
      [LockGuard] (lock_guard over any lock), [CondVar] (futex_cond_var with its
      lock), [Posix] (posix_mutex and posix_cond_var over a pthread library that
      is a parameter).
    - bounded_queue.h: [BqSlot] (the slot classes spin, yield, futex, synch),
      [BqRing] (class ring: every operation, the constructor, the destructor),
      [BqClasses] (spsc, spmc, mpsc, mpmc, with plain counters whose fetch_add is
      three accesses), [BqOrder] (the memory orders of its accesses).
    - synch_queue.h: [SynchQueue], over any lock and a condition variable with
      its documented behaviour; [FutexQueue], over futex_lock and futex_cond_var
      (futex_synch, the default_synch of synch.h), down to the system calls.
    - conqueue.h: [Conqueue] (queue_op_status), [QueueIter] (queue_base,
      queue_wrapper, the two handles and the two iterators) and [QueueStream]
      (the iterators of several threads over one concurrent queue).
    - task.h: [Task].  basic.h and thread.h: [Basic].
    - thread_pool.h: [ThreadPool], with the queue as a sequential object, and
      [PoolQueue], over a concurrent queue whose operations interleave, both for
      any task type; [PoolTask], with the task class of task.h.
    - tests: [LockTests] (lock-bench.cc and shared-lock-test.cc over any lock) and
      [QueueBench] (queue-bench.cc over any concurrent queue).

    ** How the code is modelled

    Concurrent code is a pool of threads over a shared state (section "Thread
    pools" below): a program counter stands between two accesses to shared
    memory, its arguments are the local variables, and [pool_exec] lets one
    thread take one step.  The label of a step names the thread and resolves
    what the source leaves open: the operation a client calls, what a back-off
    returns, whom the kernel wakes, whether a compare-exchange fails or a
    sleeper wakes without reason, whether an assignment throws.  All step
    functions are executable.  Unsigned words are integers followed by [wrap];
    history variables, which no step reads and which are marked in each file,
    let statements speak of unbounded tickets.  Sequential code is functions
    returning [result]: a value, an exception, undefined behaviour or a call
    that does not return.

    Memory is sequentially consistent unless a file says otherwise.  [Memory] is
    the memory of the C++ standard as far as the locks need it: a location is the
    list of its stores, a thread has a view of what it must have seen, a load may
    return any store the view allows, and stores carry the views of the release
    sequences they are part of, which changed in C++20.  The locks over it are
    instances of the same interface.  The ring stays sequentially consistent,
    and [BqOrder] adds a clock to every thread, token and mutex, which tells the
    accesses to values that happen before from those that only came before.

    Components meet at interfaces: [Slot] and [SlotLaws] between the ring and
    its slots, with [SlotWake] for sleeping and [SlotBound] for the number of
    steps; [Lock] and [LockLaws] between the
    locks and their users, [LockUser] for components that have a lock as a
    member (the guard and synch_queue are proved for every lock with the laws);
    [MemoryLock] and [OrderedLock] for what a lock promises to data; [SlotOrder],
    [ReleaseSlot] and [AcquireSlot] for the orders of a slot class;
    [Queue] and [QueueLaws] between queues and iterators; [SharedQueue],
    [SharedQueueLaws], [QueueProgress] and [QueueAssigns] ([SharedQueue]) between
    a concurrent queue and the thread pool, the iterators of several threads or
    queue-bench, with synch_queue over any lock and in its default configuration as instances.

    ** What is proved

    - The ring: the history of every run is a run of the channel specification
      of [BqChannel] (ring_refines_channel), through the ticket machine of
      [BqTickets] and the simulation of [BqRefine]; first-in first-out delivery,
      exactly once ([BqTrace]); capacity, conservation, closing,
      exclusive access to the values, blocking only when due ([BqTheorems]); what
      each slot and its token hold ([BqCalls]); no lost wake-up and no deadlock in any slot class ([BqWake]);
      termination of an undisturbed operation and the round trip, for every slot
      class ([BqProgress]).  [BqDefects] has the behaviours that contradict the intent
      of the source; [BqExamples] concrete runs.
    - The ring and memory orders: the accesses to a value are in order as long as
      nobody got at its slot with a relaxed load, and would always be if wait
      acquired; reads of the closing position are in order ([BqOrdered]).  As
      written, every slot class has runs in which they race ([BqRaces]).
    - The locks: mutual exclusion of every lock class; first come first served
      for the ticket lock; no lost hand-over; no lost wake-up for futex_lock,
      also with threads moved to it by the condition variable; what the
      notifications promise.  The guard owns the lock when it says so.
    - The locks and memory orders: whoever enters knows of all accesses to the
      data by those inside before ([OrderTheorems]), a writer of the shared lock
      of all accesses and a reader of all writes ([SharedOrder]).  With the
      release sequences of C++20 futex_lock does not promise it ([FutexOrder]).
    - The ring classes with plain counters reach the states of the atomic one and
      no others, under the use their names ask for ([BqClasses]); with two
      producers a plain counter gives out a ticket twice.
    - synch_queue: linearizability against a sequential queue, exclusive access
      to its members, no lost wake-up but for pops that throw ([SqExamples] shows
      what such a pop does).
    - synch_queue over futex_synch: a forward simulation ([FqRefine], [FqSim])
      shows that it refines the queue over a mutex and a condition variable with
      their documented behaviour; so it is linearizable, and when no thread can
      go on, nobody sleeps on the lock and the sleepers in wait_pop have an open
      and empty queue ([FqTheorems]; runs in [FqExamples]).
    - Iterators: what is written is what is visited; with several threads and a
      concurrent queue, exactly once and in order, and a reader that finds the
      end knows that all is visited ([QueueStream]; a run in [QsExamples]).
    - Tasks: a task is a box for its target wherever the target is stored; what
      is undefined is a move from an empty task and the release of a block to
      another allocator than its own.  A block of the heap has one owner, or was
      left by a constructor that threw.  Move assignment and swap never return.
    - Thread pool, whatever the move assignment of its tasks does: the tasks
      accepted are those run, taken or queued, each once; wait completes the work,
      shutdown happens once, a closed pool drains; destroying it is safe after a
      wait, and ends the program if neither stop nor wait was called.  A task
      that throws, or whose move assignment does not return, ends the program.
      Over a concurrent queue it is simulated by the pool over a sequential one,
      so the same holds, and it stops only when nothing is left to do
      ([PoolQueue]; a run over futex_synch in [PqExamples]).  With the task class
      of task.h the pool ends the program at its first task ([PoolTask]).
    - The test programs: lock-bench counts every increment and shared-lock-test
      passes, in every run ([LockTests]); queue-bench stops only at its end, with
      the right total ([QueueBench]; a run in [QbExamples]).
    - Affinity: what the getter returns after the setter.
    - Back-off policies: their waits and flags in closed form.

    ** Bounds, windows and fuel

    - The theorems on the ring are about runs that stay [within] a window
      ([BqRefine]): a thread in a waiting loop is less than [2^32] tickets from
      the ticket of its slot and less than [2^31] from the closing position, so
      that no comparison of words is fooled, and head_ does not come full circle
      inside one try_pop; at most one call of close; no try_push, which corrupts
      the counters ([BqDefects]).  The sizes are [2^4] to [2^31].
    - The ticket locks are covered with up to [2^16] (or [2^h]) threads while the
      words do not come full circle inside one try method; the theorem
      ticket_try_lock_aba shows what happens otherwise.  With memory orders the
      words must not come full circle either between the store of head_ a thread
      knew of when it took its ticket and the ticket.
    - [deadlock_only_when_due] and the notifications need at most [2^31 - 1]
      threads, the number a wake can rouse.  The queue over futex_synch is covered
      with that many threads, and while fewer than [2^32] notifications pass
      between the read of a waiter and its system call ([FutexQueue.window]).
    - Fuel: [destroy_from], [cpu_fill] and [cpu_read] get as much as their loops
      can need (the size of the ring, CPU_SETSIZE); [visit] and [task_assign]
      have it as an argument, and their theorems say what happens with enough of
      it, or with any amount.  The pause loops of [Backoff] get one more than
      their count, which cpu_pause_count shows to be enough.

    ** Not modelled

    - The memory orders of futex_cond_var and of the flags and counters of the
      thread pool; loads of old values in the ring, whose clocks follow the order
      of the run; the placement of fields on cache lines.
    - Allocation failure in the ring, and construction and destruction of values
      other than the order of the destructors of the slots.
    - Locks whose lock method throws as members of synch_queue and of the guard
      (posix_mutex has its own theorem); values that throw in the iterators over
      a concurrent queue; tasks whose move assignment throws (that of task.h is
      noexcept) and targets that throw when they are moved; the destruction of a
      pool over a concurrent queue.
    - begin and cbegin of the queue handles and the const operators of the output
      iterator, which do not compile; std_synch and posix_synch, which name
      classes of the standard library and the wrappers of [Posix]; std::swap of
      plain members and native_handle.
    - The condition variable with more than one lock (the source terminates).
    - std::thread, the pthread library, the allocator and the kernel, which are
      parameters or documented behaviour; the test programs that print what fixed
      calls return (task-test, thread-test, thread_pool-test). *)

From stdpp Require Import functions.
From stdpp Require Export prelude list.
From Stdlib Require Export ZArith Lia.

(** ** Machine integers

    An unsigned integer of [w] bits is a [Z] in [[0, 2^w)]; every arithmetic
    operation of the source is followed by [wrap w]. *)

Definition wrap (w z : Z) : Z := z mod 2 ^ w.

(** Two's complement reading of a [w]-bit word ([std::make_signed_t]). *)
Definition to_signed (w z : Z) : Z :=
  if decide (z < 2 ^ (w - 1))%Z then z else (z - 2 ^ w)%Z.

Declare Scope evenk_scope.
Delimit Scope evenk_scope with evenk.
Open Scope evenk_scope.

Notation "'u8' z" := (wrap 8 z) (at level 9, z at level 9) : evenk_scope.
Notation "'u16' z" := (wrap 16 z) (at level 9, z at level 9) : evenk_scope.
Notation "'u32' z" := (wrap 32 z) (at level 9, z at level 9) : evenk_scope.

Section words.
Local Open Scope Z_scope.
Context (w : Z) (Hw : 0 <= w).

Lemma pow2_pos : 0 < 2 ^ w.
Proof. apply Z.pow_pos_nonneg; lia. Qed.

Lemma wrap_range z : 0 <= wrap w z < 2 ^ w.
Proof. apply Z.mod_pos_bound, pow2_pos. Qed.

Lemma wrap_small z : 0 <= z < 2 ^ w -> wrap w z = z.
Proof. apply Z.mod_small. Qed.

Lemma wrap_wrap z : wrap w (wrap w z) = wrap w z.
Proof. apply wrap_small, wrap_range. Qed.

Lemma wrap_add_l a b : wrap w (wrap w a + b) = wrap w (a + b).
Proof. apply Zplus_mod_idemp_l. Qed.

Lemma wrap_add_r a b : wrap w (a + wrap w b) = wrap w (a + b).
Proof. apply Zplus_mod_idemp_r. Qed.

Lemma wrap_sub_l a b : wrap w (wrap w a - b) = wrap w (a - b).
Proof. apply Zminus_mod_idemp_l. Qed.

Lemma wrap_sub_r a b : wrap w (a - wrap w b) = wrap w (a - b).
Proof. apply Zminus_mod_idemp_r. Qed.

(** Two words are equal exactly when their preimages are congruent. *)
Lemma wrap_eq_iff a b : wrap w a = wrap w b <-> exists k, a = b + k * 2 ^ w.
Proof.
  pose proof pow2_pos as Hp. unfold wrap. split.
  - intros H. exists (a / 2 ^ w - b / 2 ^ w).
    pose proof (Z.div_mod a (2 ^ w)). pose proof (Z.div_mod b (2 ^ w)). nia.
  - intros [k ->]. apply Z_mod_plus_full.
Qed.

(** Inside a window of [2^w] consecutive integers [wrap] is injective. *)
Lemma wrap_inj a b : Z.abs (a - b) < 2 ^ w -> wrap w a = wrap w b -> a = b.
Proof.
  intros Hab [k ->]%wrap_eq_iff. pose proof pow2_pos.
  assert (k = 0) by nia. lia.
Qed.

Lemma wrap_zero a : 0 <= a < 2 ^ w -> wrap w a = 0 -> a = 0.
Proof. intros H1 H2. by rewrite wrap_small in H2. Qed.

Lemma to_signed_wrap z :
  0 < w -> - 2 ^ (w - 1) <= z < 2 ^ (w - 1) -> to_signed w (wrap w z) = z.
Proof.
  intros H0 Hz. assert (2 ^ w = 2 * 2 ^ (w - 1)) as Hp.
  { rewrite <- Z.pow_succ_r by lia. f_equal. lia. }
  unfold to_signed. destruct (Z.le_gt_cases 0 z).
  - rewrite wrap_small by lia. case_decide; lia.
  - replace (wrap w z) with (z + 2 ^ w).
    + case_decide; lia.
    + unfold wrap. rewrite <- (Z_mod_plus_full z 1).
      rewrite Z.mod_small; lia.
Qed.
End words.

(** Normalises nested [wrap]s: the inner ones go. *)
Create Rewrite HintDb words.
Create HintDb words.
#[export] Hint Rewrite wrap_wrap wrap_add_l wrap_add_r wrap_sub_l wrap_sub_r using lia : words.
#[export] Hint Resolve pow2_pos wrap_range : words.

(** ** Executable transition systems

    A component that runs concurrently is a deterministic function of a state
    and a label; the label says which thread moves and resolves whatever the
    source leaves open (which operation a client calls, which sleeper the
    kernel wakes, whether a value's assignment throws).  [run] replays a
    schedule; [reachable_in W] is reachability through states that satisfy
    [W]. *)

Section lts.
Context {St Lb : Type} (exec : St -> Lb -> option St) (init : St -> Prop).

Fixpoint run (s : St) (ls : list Lb) : option St :=
  match ls with
  | [] => Some s
  | l :: ls => s' ← exec s l; run s' ls
  end.

Inductive reachable_in (W : St -> Prop) : St -> Prop :=
| reach_init s : init s -> W s -> reachable_in W s
| reach_step s l s' :
    reachable_in W s -> exec s l = Some s' -> W s' -> reachable_in W s'.

Definition reachable : St -> Prop := reachable_in (fun _ => True).

(** [I] is inductive relative to [W]. *)
Record invariant_in (W I : St -> Prop) : Prop := {
  inv_start : forall s, init s -> W s -> I s;
  inv_next : forall s l s', W s -> I s -> exec s l = Some s' -> W s' -> I s';
}.

Lemma invariant_in_reachable W I s :
  invariant_in W I -> reachable_in W s -> I s.
Proof.
  intros [Hs Hn]. induction 1 as [s Hi HW|s l s' Hr IH He HW]; [by apply Hs|].
  eapply Hn; [|exact IH|exact He|exact HW]. by destruct Hr.
Qed.

Lemma reachable_in_weaken (W W' : St -> Prop) s :
  (forall s, W s -> W' s) -> reachable_in W s -> reachable_in W' s.
Proof.
  intros HW. induction 1; [apply reach_init|eapply reach_step]; eauto.
Qed.

Lemma reachable_in_end W s : reachable_in W s -> W s.
Proof. by destruct 1. Qed.

Lemma run_app s ls1 ls2 :
  run s (ls1 ++ ls2) = s' ← run s ls1; run s' ls2.
Proof.
  revert s. induction ls1 as [|l ls1 IH]; intros s; simpl; [done|].
  destruct (exec s l); simpl; auto.
Qed.

(** A schedule replayed with every intermediate state tested by [Wb]. *)
Fixpoint run_in (Wb : St -> bool) (s : St) (ls : list Lb) : option St :=
  if Wb s then
    match ls with
    | [] => Some s
    | l :: ls => s' ← exec s l; run_in Wb s' ls
    end
  else None.

Lemma run_in_cons (Wb : St -> bool) s l s' ls s'' :
  Wb s = true -> exec s l = Some s' -> run_in Wb s' ls = Some s'' ->
  run_in Wb s (l :: ls) = Some s''.
Proof. intros H1 H2 H3. simpl. by rewrite H1, H2. Qed.

Lemma run_in_nil (Wb : St -> bool) s : Wb s = true -> run_in Wb s [] = Some s.
Proof. intros H. simpl. by rewrite H. Qed.

Lemma run_in_app (Wb : St -> bool) s ls1 s' ls2 s'' :
  run_in Wb s ls1 = Some s' -> run_in Wb s' ls2 = Some s'' ->
  run_in Wb s (ls1 ++ ls2) = Some s''.
Proof.
  revert s. induction ls1 as [|l ls1 IH]; intros s H1 H2; simpl in *; destruct (Wb s); try done.
  - by injection H1 as ->.
  - destruct (exec s l) as [s1|]; simpl in *; [|done]. by apply IH.
Qed.

Lemma run_in_reachable_from (W : St -> Prop) (Wb : St -> bool) s ls s' :
  (forall s, Wb s = true -> W s) ->
  reachable_in W s -> run_in Wb s ls = Some s' -> reachable_in W s'.
Proof.
  intros HW. revert s. induction ls as [|l ls IH]; intros s Hs Hr; simpl in Hr.
  - destruct (Wb s); simplify_eq. done.
  - destruct (Wb s); [|done].
    destruct (exec s l) as [s1|] eqn:He; simpl in Hr; [|done].
    apply (IH s1); [|done]. apply (reach_step W s l s1); [done..|].
    apply HW. destruct ls; simpl in Hr; by destruct (Wb s1).
Qed.

Lemma run_in_reachable (W : St -> Prop) (Wb : St -> bool) s ls s' :
  (forall s, Wb s = true -> W s) ->
  init s -> run_in Wb s ls = Some s' -> reachable_in W s'.
Proof.
  intros HW Hi Hr. eapply run_in_reachable_from; [done| |done]. apply reach_init; [done|].
  apply HW. destruct ls; simpl in Hr; by destruct (Wb s).
Qed.

Lemma run_reachable s ls s' : init s -> run s ls = Some s' -> reachable s'.
Proof.
  intros Hi Hr. apply (run_in_reachable _ (fun _ => true) s ls); [done..|].
  clear Hi. revert s Hr. induction ls as [|l ls IH]; intros s Hr; simpl in *.
  - done.
  - destruct (exec s l); simpl in *; auto.
Qed.
End lts.

(** ** Thread pools

    The threads of a program share [Sh]; the state of thread [t] is the
    program counter [pcs !! t] with its local variables. *)

Record pool (Sh Pc : Type) : Type := Pool { shared : Sh; pcs : list Pc }.
Arguments Pool {Sh Pc} _ _.
Arguments shared {Sh Pc} _.
Arguments pcs {Sh Pc} _.

Section pools.
Context {Sh Pc Ch : Type}.
Context (tstep : nat -> Sh -> Pc -> Ch -> option (Sh * Pc)).

Definition pool_exec (s : pool Sh Pc) (l : nat * Ch) : option (pool Sh Pc) :=
  p ← pcs s !! l.1;
  r ← tstep l.1 (shared s) p l.2;
  Some (Pool r.1 (<[l.1 := r.2]> (pcs s))).

Lemma pool_exec_Some s t c s' :
  pool_exec s (t, c) = Some s' <->
  exists p sh' p', pcs s !! t = Some p /\
    tstep t (shared s) p c = Some (sh', p') /\
    s' = Pool sh' (<[t := p']> (pcs s)).
Proof.
  unfold pool_exec. simpl. destruct (pcs s !! t) as [p|]; simpl.
  - split.
    + destruct (tstep t (shared s) p c) as [[sh' p']|] eqn:E; simpl; [|done].
      intros [= <-]. exists p, sh', p'. auto.
    + intros (?&?&?&[= <-]&->&->). done.
  - split; [done|]. by intros (?&?&?&?&_).
Qed.

Lemma pool_exec_at sh ps t c p sh' p' :
  ps !! t = Some p -> tstep t sh p c = Some (sh', p') ->
  pool_exec (Pool sh ps) (t, c) = Some (Pool sh' (<[t := p']> ps)).
Proof. intros Hp Ht. apply pool_exec_Some. eauto 7. Qed.

(** Thread [t] of [ps] steps on, wherever it was. *)
Lemma pool_exec_again sh ps t c p sh' p' :
  t < length ps -> tstep t sh p c = Some (sh', p') ->
  pool_exec (Pool sh (<[t := p]> ps)) (t, c) = Some (Pool sh' (<[t := p']> ps)).
Proof.
  intros Hp Ht. rewrite <- (list_insert_insert_eq ps t p' p).
  apply (pool_exec_at _ _ _ _ p); [|done]. by apply list_lookup_insert_eq.
Qed.

Lemma pool_exec_length s l s' :
  pool_exec s l = Some s' -> length (pcs s') = length (pcs s).
Proof.
  destruct l. intros (?&?&?&_&_&->)%pool_exec_Some. apply length_insert.
Qed.
End pools.

(** After a step of thread [t], a thread is either [t] itself or unchanged. *)
Lemma insert_lookup_cases {A} (l : list A) t u (p q : A) :
  <[t := p]> l !! u = Some q ->
  (u = t /\ q = p /\ t < length l) \/ (u <> t /\ l !! u = Some q).
Proof.
  rewrite list_lookup_insert_Some. intros [(<-&<-&?)|[??]]; auto.
Qed.

Lemma insert_lookup_self {A} (l : list A) t (p q : A) :
  l !! t = Some q -> <[t := p]> l !! t = Some p.
Proof. intros H. apply list_lookup_insert_eq. by eapply lookup_lt_Some. Qed.

(** Facts about the list of threads that proofs of steps need all the time. *)
Create HintDb pools.
#[export] Hint Resolve insert_lookup_self lookup_lt_Some : pools.

(** What the threads contribute to a collection, when one of them moves. *)
Lemma bind_insert {A B} (f : A -> list B) (ps : list A) u p p' :
  ps !! u = Some p -> (<[u := p']> ps ≫= f) ++ f p ≡ₚ (ps ≫= f) ++ f p'.
Proof.
  revert u. induction ps as [|q ps IH]; intros u Hp; [done|]. destruct u as [|u]; simpl in *.
  - injection Hp as ->. solve_Permutation.
  - rewrite <- !app_assoc. by rewrite (IH u Hp).
Qed.

(** Where an element of a list extended at its end can be. *)
Lemma snoc_split {A} (l : list A) e l1 x l2 :
  l ++ [e] = l1 ++ x :: l2 ->
  (x = e /\ l1 = l /\ l2 = []) \/ exists l2', l2 = l2' ++ [e] /\ l = l1 ++ x :: l2'.
Proof.
  destruct l2 as [|y l2 _] using rev_ind; intros H.
  - apply app_inj_tail in H as [-> ->]. auto.
  - right. rewrite app_comm_cons, app_assoc in H. apply app_inj_tail in H as [-> ->]. eauto.
Qed.

(** ** Sums over the threads of a pool *)

Section total.
Local Open Scope Z_scope.
Context {P : Type}.

Fixpoint total (g : nat -> P -> Z) (i : nat) (ps : list P) : Z :=
  match ps with [] => 0 | p :: ps => g i p + total g (S i) ps end.

Lemma total_insert g i ps u p p' :
  ps !! u = Some p -> total g i (<[u := p']> ps) = total g i ps - g (i + u)%nat p + g (i + u)%nat p'.
Proof.
  revert i u. induction ps as [|q ps IH]; intros i u Hp; [done|]. destruct u as [|u]; simpl in *.
  - injection Hp as ->. rewrite Nat.add_0_r. lia.
  - rewrite (IH (S i) u Hp). replace (S i + u)%nat with (i + S u)%nat by lia. lia.
Qed.

Lemma total_le g g' i ps :
  (forall u p, ps !! u = Some p -> g (i + u)%nat p <= g' (i + u)%nat p) -> total g i ps <= total g' i ps.
Proof.
  revert i. induction ps as [|q ps IH]; intros i H; simpl; [lia|].
  pose proof (H 0%nat q eq_refl) as H0. rewrite Nat.add_0_r in H0.
  assert (total g (S i) ps <= total g' (S i) ps); [|lia]. apply IH. intros u p Hp.
  specialize (H (S u) p Hp). by replace (S i + u)%nat with (i + S u)%nat by lia.
Qed.

Lemma total_zero g i ps :
  (forall u p, ps !! u = Some p -> g (i + u)%nat p = 0) -> total g i ps = 0.
Proof.
  revert i. induction ps as [|q ps IH]; intros i H; simpl; [done|].
  pose proof (H 0%nat q eq_refl) as H0. rewrite Nat.add_0_r in H0. rewrite H0, IH; [done|].
  intros u p Hp. specialize (H (S u) p Hp). by replace (S i + u)%nat with (i + S u)%nat by lia.
Qed.

(** One thread counts for more, none for less. *)
Lemma total_lt g g' i ps v p :
  ps !! v = Some p -> g (i + v)%nat p + 1 <= g' (i + v)%nat p ->
  (forall u q, ps !! u = Some q -> g (i + u)%nat q <= g' (i + u)%nat q) ->
  total g i ps + 1 <= total g' i ps.
Proof.
  revert i v. induction ps as [|q ps IH]; intros i v Hv Hg H; [done|].
  pose proof (H 0%nat q eq_refl) as H0. rewrite Nat.add_0_r in H0.
  assert (forall u p, ps !! u = Some p -> g (S i + u)%nat p <= g' (S i + u)%nat p) as H'.
  { intros u p' Hp'. specialize (H (S u) p' Hp'). by replace (S i + u)%nat with (i + S u)%nat by lia. }
  destruct v as [|v]; simpl in *.
  - injection Hv as ->. rewrite Nat.add_0_r in Hg. pose proof (total_le g g' (S i) ps H'). lia.
  - replace (i + S v)%nat with (S i + v)%nat in Hg by lia. pose proof (IH (S i) v Hv Hg H'). lia.
Qed.

(** A positive total has a thread that counts. *)
Lemma total_pos g i ps :
  (forall u p, ps !! u = Some p -> 0 <= g (i + u)%nat p) -> 0 < total g i ps ->
  exists u p, ps !! u = Some p /\ 0 < g (i + u)%nat p.
Proof.
  revert i. induction ps as [|q ps IH]; intros i H0 H; simpl in H; [lia|].
  destruct (Z.lt_ge_cases 0 (g i q)) as [Hq|Hq].
  - exists 0%nat, q. rewrite Nat.add_0_r. done.
  - destruct (IH (S i)) as (u & p & Hp & Hg).
    + intros u p Hp. specialize (H0 (S u) p Hp). by replace (S i + u)%nat with (i + S u)%nat by lia.
    + pose proof (H0 0%nat q eq_refl) as Hq'. rewrite Nat.add_0_r in Hq'. lia.
    + exists (S u), p. split; [done|]. by replace (i + S u)%nat with (S i + u)%nat by lia.
Qed.
End total.

(** Case analysis on one step of a pool: [H : pool_exec f s l = Some s']. *)
Ltac pool_step H :=
  let p := fresh "p" in let sh' := fresh "sh'" in let p' := fresh "p'" in
  let Hp := fresh "Hp" in let Ht := fresh "Ht" in
  apply pool_exec_Some in H; destruct H as (p & sh' & p' & Hp & Ht & ->).

(** Case analysis on whose entry of an updated function the goal looks up. *)
Ltac fn_split :=
  match goal with
  | |- context [(<[?u := _]> _) ?v] =>
      destruct (decide (v = u)) as [->|];
      [rewrite fn_lookup_insert|rewrite fn_lookup_insert_ne by done]
  end.

(** Split every [match] and [if] in the hypotheses and simplify. *)
Ltac break :=
  repeat (simplify_option_eq || case_match || case_decide).

(** ** Results of calls

    A call returns, raises, does something the language leaves undefined (such
    as a call through a null pointer), or never returns. *)

Inductive result (E A : Type) : Type :=
| Ok (a : A)
| Raise (e : E)
| Undefined
| Blocked.
Arguments Ok {E A} _.
Arguments Raise {E A} _.
Arguments Undefined {E A}.
Arguments Blocked {E A}.

#[global] Instance result_ret E : MRet (result E) := fun A a => Ok a.
#[global] Instance result_bind E : MBind (result E) := fun A B f m =>
  match m with
  | Ok a => f a
  | Raise e => Raise e
  | Undefined => Undefined
  | Blocked => Blocked
  end.
