(* ===== verification/Backoff.v ===== *)
(** * Back-off policies for busy waiting (evenk/backoff.h)

    Pause routines as the list of processor hints they issue, and the back-off
    functors as state machines: one call of [operator()] takes the functor's
    state to the new state, the pauses it made and the returned flag ("true if
    backoff ceiling is reached").  Counters are 32-bit words. *)

From S2P Require Import Prelude.
Local Open Scope Z_scope.

(** ** Pause routines *)

(** What a pause does to the processor. *)
Inductive pause : Type :=
| signal_fence
| mm_pause
| thread_yield
| sleep (tv_sec tv_nsec : Z).

(** [while (n--) body], with [n] a 32-bit word; [fuel] bounds the iterations. *)
Fixpoint while_dec (fuel : nat) (n : Z) (body : pause) : option (list pause) :=
  match fuel with
  | O => None
  | S fuel =>
      if decide (n = 0) then Some []
      else l ← while_dec fuel (u32 (n - 1)) body; Some (body :: l)
  end.

(** A pause routine maps its argument to the hints it issues. *)
Definition pause_fn : Type := Z -> option (list pause).

Definition cpu_cycle : pause_fn :=
  fun n => while_dec (S (Z.to_nat n)) n signal_fence.

Definition cpu_relax : pause_fn :=
  fun n => while_dec (S (Z.to_nat n)) n mm_pause.

Definition nanosleep : pause_fn := fun n => Some [sleep 0 n].

(** ** Back-off functors *)

(** One call: new state, pauses, returned flag. *)
Definition call (B : Type) : Type := B -> B * option (list pause) * bool.

Definition no_backoff : call unit := fun _ => (tt, Some [], true).

Definition yield_backoff : call unit := fun _ => (tt, Some [thread_yield], false).

Definition const_backoff (Pause : pause_fn) (count : Z) : call unit :=
  fun _ => (tt, Pause count, false).

Definition linear_backoff (Pause : pause_fn) (ceiling step : Z) : call Z :=
  fun count_ =>
    let ps := Pause count_ in
    let count_ := u32 (count_ + step) in
    if decide (ceiling < count_) then (ceiling, ps, true) else (count_, ps, false).

Definition exponential_backoff (Pause : pause_fn) (ceiling : Z) : call Z :=
  fun count_ =>
    let ps := Pause count_ in
    let count_ := u32 (count_ + u32 (count_ + 1)) in
    if decide (ceiling < count_) then (ceiling, ps, true) else (count_, ps, false).

Definition proportional_backoff (Pause : pause_fn) (count : Z) (factor : Z) : call unit :=
  fun _ => (tt, Pause (u32 (count * factor)), false).

(** [proportional_adapter] picks its overload from the functor's type. *)
Inductive adaptable (B : Type) : Type :=
| plain (f : call B)
| proportional (f : Z -> call B).
Arguments plain {B} _.
Arguments proportional {B} _.

Definition proportional_adapter {B} (backoff : adaptable B) (factor : Z) : call B :=
  match backoff with
  | plain f => f
  | proportional f => f factor
  end.

Record composite (A B : Type) : Type :=
  Composite { first : A; second : B; use_second_ : bool }.
Arguments Composite {A B} _ _ _.
Arguments first {A B} _.
Arguments second {A B} _.
Arguments use_second_ {A B} _.

Definition composite_init {A B} (a : A) (b : B) : composite A B := Composite a b false.

Definition composite_backoff {A B} (f : call A) (g : call B) : call (composite A B) :=
  fun c =>
    if use_second_ c then
      let '(b, ps, r) := g (second c) in (Composite (first c) b true, ps, r)
    else
      let '(a, ps, r) := f (first c) in (Composite a (second c) r, ps, false).

(** The state after [n] calls and the flag returned by call number [n + 1]. *)
Definition next {B} (f : call B) (b : B) : B := (f b).1.1.
Definition flag {B} (f : call B) (b : B) : bool := (f b).2.
Definition pauses {B} (f : call B) (b : B) : option (list pause) := (f b).1.2.

Fixpoint after {B} (f : call B) (n : nat) (b : B) : B :=
  match n with
  | O => b
  | S n => after f n (next f b)
  end.

Definition flag_at {B} (f : call B) (b : B) (n : nat) : bool := flag f (after f n b).

(** ** Lemmas *)

Lemma after_S {B} (f : call B) n b : after f (S n) b = next f (after f n b).
Proof. revert b. induction n as [|n IH]; intros b; [done|]. simpl in *. by rewrite IH. Qed.

Lemma while_dec_replicate k n body :
  0 <= n < 2 ^ 32 -> (Z.to_nat n < k)%nat ->
  while_dec k n body = Some (replicate (Z.to_nat n) body).
Proof.
  revert n. induction k as [|k IH]; intros n Hn Hk; simpl; [lia|].
  case_decide as E; [by subst|].
  rewrite wrap_small, IH by lia. simpl.
  replace (Z.to_nat n) with (S (Z.to_nat (n - 1))) by lia. done.
Qed.

(** The busy-wait loops terminate: a pause of [n] issues exactly [n]
    hints, for every 32-bit argument. *)
Theorem cpu_pause_count n :
  0 <= n < 2 ^ 32 ->
  cpu_cycle n = Some (replicate (Z.to_nat n) signal_fence) /\
  cpu_relax n = Some (replicate (Z.to_nat n) mm_pause).
Proof. intros Hn. split; apply while_dec_replicate; lia. Qed.

Lemma cpu_pause_count_witness :
  0 <= 3 < 2 ^ 32 /\ cpu_relax 3 = Some [mm_pause; mm_pause; mm_pause].
Proof. split; [lia|]. apply (cpu_pause_count 3). lia. Defined.

Section linear.
Context (Pause : pause_fn) (ceiling step : Z).
Context (Hstep : 0 < step) (Hceil : 0 <= ceiling) (Hmax : ceiling + step < 2 ^ 32).

Lemma linear_next count :
  0 <= count <= ceiling ->
  next (linear_backoff Pause ceiling step) count = Z.min (count + step) ceiling /\
  flag (linear_backoff Pause ceiling step) count = bool_decide (ceiling < count + step).
Proof.
  intros Hc. unfold next, flag, linear_backoff. rewrite wrap_small by lia.
  case_decide; case_bool_decide; simpl; lia.
Qed.

Lemma linear_after n :
  after (linear_backoff Pause ceiling step) n 0 = Z.min (Z.of_nat n * step) ceiling.
Proof.
  induction n as [|n IH]; [simpl; lia|].
  assert (0 <= Z.of_nat n * step) by nia.
  rewrite after_S, IH, (proj1 (linear_next (Z.min (Z.of_nat n * step) ceiling) ltac:(lia))).
  lia.
Qed.
End linear.

(** A linear back-off whose ceiling leaves room for one step in a 32-bit
    counter waits [min (n * step, ceiling)] before its call number [n + 1], and
    that call reports the ceiling exactly when [(n + 1) * step] exceeds it. *)
Theorem linear_backoff_spec Pause ceiling step n :
  0 < step -> 0 <= ceiling -> ceiling + step < 2 ^ 32 ->
  let f := linear_backoff Pause ceiling step in
  pauses f (after f n 0) = Pause (Z.min (Z.of_nat n * step) ceiling) /\
  flag_at f 0 n = bool_decide (ceiling < Z.of_nat (S n) * step).
Proof.
  intros H1 H2 H3 f. unfold flag_at, pauses, f. rewrite linear_after by done. split.
  - unfold linear_backoff. by case_decide.
  - assert (0 <= Z.of_nat n * step) by nia.
    rewrite (proj2 (linear_next Pause ceiling step H1 H3 (Z.min (Z.of_nat n * step) ceiling) ltac:(lia))).
    apply bool_decide_ext. lia.
Qed.

Lemma linear_backoff_spec_witness :
  flag_at (linear_backoff cpu_relax 1000 1) 0 999 = false /\
  flag_at (linear_backoff cpu_relax 1000 1) 0 1000 = true.
Proof.
  split.
  - apply (linear_backoff_spec cpu_relax 1000 1 999); lia.
  - apply (linear_backoff_spec cpu_relax 1000 1 1000); lia.
Defined.

Section exponential.
Context (Pause : pause_fn) (ceiling : Z).
Context (Hceil : 0 <= ceiling) (Hmax : ceiling < 2 ^ 31).

Lemma exponential_next count :
  0 <= count <= ceiling ->
  next (exponential_backoff Pause ceiling) count = Z.min (2 * count + 1) ceiling /\
  flag (exponential_backoff Pause ceiling) count = bool_decide (ceiling < 2 * count + 1).
Proof.
  intros Hc. unfold next, flag, exponential_backoff.
  rewrite wrap_add_r, wrap_small by lia.
  case_decide; case_bool_decide; simpl; lia.
Qed.

Lemma exponential_after n :
  after (exponential_backoff Pause ceiling) n 0 = Z.min (2 ^ Z.of_nat n - 1) ceiling.
Proof.
  induction n as [|n IH]; [simpl; lia|].
  assert (0 < 2 ^ Z.of_nat n) by (apply Z.pow_pos_nonneg; lia).
  rewrite after_S, IH, (proj1 (exponential_next (Z.min (2 ^ Z.of_nat n - 1) ceiling) ltac:(lia))).
  rewrite Nat2Z.inj_succ, Z.pow_succ_r by lia. lia.
Qed.
End exponential.

(** An exponential back-off with a ceiling below [2^31] waits
    [min (2^n - 1, ceiling)] before call number [n + 1], which reports the
    ceiling exactly when [2^(n+1) - 1] exceeds it. *)
Theorem exponential_backoff_spec Pause ceiling n :
  0 <= ceiling -> ceiling < 2 ^ 31 ->
  let f := exponential_backoff Pause ceiling in
  pauses f (after f n 0) = Pause (Z.min (2 ^ Z.of_nat n - 1) ceiling) /\
  flag_at f 0 n = bool_decide (ceiling < 2 ^ Z.of_nat (S n) - 1).
Proof.
  intros H1 H2 f. unfold flag_at, pauses, f. rewrite exponential_after by done.
  assert (0 < 2 ^ Z.of_nat n) by (apply Z.pow_pos_nonneg; lia).
  split.
  - unfold exponential_backoff. by case_decide.
  - rewrite (proj2 (exponential_next Pause ceiling H2 (Z.min (2 ^ Z.of_nat n - 1) ceiling) ltac:(lia))).
    apply bool_decide_ext. rewrite Nat2Z.inj_succ, Z.pow_succ_r by lia. lia.
Qed.

Lemma exponential_backoff_spec_witness :
  flag_at (exponential_backoff cpu_relax 1000) 0 8 = false /\
  flag_at (exponential_backoff cpu_relax 1000) 0 9 = true.
Proof.
  split.
  - apply (exponential_backoff_spec cpu_relax 1000 8); lia.
  - apply (exponential_backoff_spec cpu_relax 1000 9); lia.
Defined.

Lemma flag_never_max (f : call Z) (Hf : forall c, flag f c = false) b n :
  flag_at f b n = false.
Proof. apply Hf. Qed.

(** With the largest 32-bit ceiling the counter can never exceed it: a
    linear or exponential back-off then never reports that the ceiling is
    reached, whatever its step and however often it is called. *)
Theorem backoff_max_ceiling_never_reached Pause step n :
  flag_at (linear_backoff Pause (2 ^ 32 - 1) step) 0 n = false /\
  flag_at (exponential_backoff Pause (2 ^ 32 - 1)) 0 n = false.
Proof.
  split; apply flag_never_max; intros c.
  - unfold flag, linear_backoff. pose proof (wrap_range 32 ltac:(lia) (c + step)).
    case_decide; [lia|done].
  - unfold flag, exponential_backoff.
    pose proof (wrap_range 32 ltac:(lia) (c + u32 (c + 1))).
    case_decide; [lia|done].
Qed.

Section composite.
Context {A B : Type} (f : call A) (g : call B).

Lemma composite_before a b n :
  (forall i, (i < n)%nat -> flag_at f a i = false) ->
  after (composite_backoff f g) n (Composite a b false) = Composite (after f n a) b false.
Proof.
  induction n as [|n IH]; intros Hi; [done|].
  rewrite !after_S, IH by (intros; apply Hi; lia).
  unfold next at 1, composite_backoff. simpl.
  pose proof (Hi n ltac:(lia)) as Hn. unfold flag_at, flag, next in *.
  destruct (f (after f n a)) as [[a' ps] r]. simpl in *. by subst.
Qed.

Lemma composite_switch a b :
  flag f a = true ->
  next (composite_backoff f g) (Composite a b false) = Composite (next f a) b true.
Proof.
  unfold flag, next, composite_backoff. simpl.
  destruct (f a) as [[a' ps] r]. simpl. by intros ->.
Qed.

Lemma composite_after_switch a b m :
  after (composite_backoff f g) m (Composite a b true) = Composite a (after g m b) true.
Proof.
  induction m as [|m IH]; [done|].
  rewrite !after_S, IH. unfold next, composite_backoff. simpl.
  by destruct (g (after g m b)) as [[b' ps] r].
Qed.

Lemma after_add {C} (h : call C) n m c : after h (n + m) c = after h m (after h n c).
Proof. revert c. induction n as [|n IH]; intros c; [done|]. simpl. apply IH. Qed.
End composite.

(** The composite back-off runs the first policy, hiding its flag, up to
    and including the call (number [k + 1]) on which that policy reports its
    ceiling, and from then on behaves exactly as the second policy. *)
Theorem composite_backoff_spec {A B} (f : call A) (g : call B) a b k :
  (forall i, (i < k)%nat -> flag_at f a i = false) -> flag_at f a k = true ->
  (forall i, (i <= k)%nat ->
     flag_at (composite_backoff f g) (composite_init a b) i = false) /\
  (forall m, flag_at (composite_backoff f g) (composite_init a b) (S k + m) = flag_at g b m).
Proof.
  intros Hk Ht. unfold composite_init. split.
  - intros i Hi. unfold flag_at.
    rewrite composite_before by (intros; apply Hk; lia).
    unfold flag, composite_backoff. simpl. by destruct (f (after f i a)) as [[??]?].
  - intros m. unfold flag_at. rewrite after_add, after_S.
    rewrite composite_before, composite_switch, composite_after_switch by done.
    unfold flag, composite_backoff. simpl. by destruct (g (after g m b)) as [[??]?].
Qed.

Lemma composite_backoff_spec_witness :
  flag_at (composite_backoff (linear_backoff cpu_relax 2 1) no_backoff)
    (composite_init 0 tt) 8 = flag_at no_backoff tt 5.
Proof.
  apply (composite_backoff_spec (linear_backoff cpu_relax 2 1) no_backoff 0 tt 2).
  - intros i Hi. destruct i as [|[|i]]; [reflexivity..|lia].
  - reflexivity.
Defined.
