(* ===== verification/Futex.v ===== *)
(** * Futex support (evenk/futex.h)

    The three system-call wrappers.  The kernel itself is not part of the
    repository: what it does to the set of sleepers is left to the label of a
    step, restricted to what the futex manual page promises.  A wake removes at
    most [n] sleepers, exactly [min n] of them when fewer sleep, and nothing
    says which; a requeue does the same and moves up to [m] of the remaining
    ones to another futex; a wait queues the caller only if the word still has
    the expected value, and may return early. *)

From S2P Require Import Prelude.
Local Open Scope Z_scope.

(** ** The value the wrappers return

    The system call leaves an [unsigned] in the accumulator: a count, or a
    negated error number in the last page of the address space. *)

Definition futex_result (result : Z) : Z :=
  if decide (u32 (-4096) < result) then to_signed 32 result else 0.

(** The portable path: [syscall] returned -1 and set [errno]. *)
Definition futex_result_portable (rc errno : Z) : Z :=
  if decide (rc = -1) then - errno else 0.

(** Outside Linux the wrappers only report that the call is missing. *)
Definition ENOSYS : Z := 38.
Definition futex_result_missing : Z := - ENOSYS.

(** ** Documented behaviour of the kernel

    [q] is the list of threads that sleep on a futex word. *)

(** FUTEX_WAIT: sleep if the word still holds the expected value. *)
Definition futex_wait (t : nat) (word value : Z) (q : list nat) : option (list nat) :=
  if decide (word = value) then Some (t :: q) else None.

(** [woken] is a possible set of threads for a wake of at most [n]. *)
Definition can_wake (n : Z) (q woken : list nat) : Prop :=
  NoDup woken /\ woken ⊆ q /\ Z.of_nat (length woken) = Z.min n (Z.of_nat (length q)).

#[global] Instance can_wake_dec n q woken : Decision (can_wake n q woken).
Proof. unfold can_wake. apply _. Defined.

Definition without (woken q : list nat) : list nat := filter (fun x => x ∉ woken) q.

(** FUTEX_WAKE. *)
Definition futex_wake (n : Z) (q woken : list nat) : option (list nat) :=
  if decide (can_wake n q woken) then Some (without woken q) else None.

(** FUTEX_REQUEUE: wake up to [n], then move up to [m] to the queue [q2]. *)
Definition futex_requeue (n m : Z) (q q2 woken moved : list nat) : option (list nat * list nat) :=
  q' ← futex_wake n q woken;
  q'' ← futex_wake m q' moved;
  Some (q'', moved ++ q2).

(** FUTEX_CMP_REQUEUE: the same, provided the word holds [futex_value]. *)
Definition futex_cmp_requeue (n m word futex_value : Z) (q q2 woken moved : list nat) :
    option (list nat * list nat) :=
  if decide (word = futex_value) then futex_requeue n m q q2 woken moved else None.

(** ** Lemmas *)

(** The wrappers keep error numbers apart from counts: a result in the
    error range comes back as the negative error number, every other result
    (the number of woken threads) as 0. *)
Theorem futex_result_spec (errno count : Z) :
  1 <= errno < 4096 -> 0 <= count <= 2 ^ 32 - 4096 ->
  futex_result (u32 (- errno)) = - errno /\ futex_result count = 0.
Proof.
  intros He Hc. unfold futex_result. change (u32 (-4096)) with (2 ^ 32 - 4096).
  assert (u32 (- errno) = 2 ^ 32 - errno) as E.
  { unfold wrap. rewrite <- (Z_mod_plus_full (- errno) 1). rewrite Z.mod_small; lia. }
  split.
  - rewrite decide_True by lia. apply to_signed_wrap; lia.
  - rewrite decide_False by lia. done.
Qed.

Lemma futex_result_spec_witness :
  1 <= 11 < 4096 /\ futex_result (u32 (- 11)) = - 11.
Proof. split; [lia|]. apply (futex_result_spec 11 0); lia. Defined.

Lemma elem_of_without x woken q : x ∈ without woken q <-> x ∈ q /\ x ∉ woken.
Proof. unfold without. rewrite list_elem_of_filter. tauto. Qed.

Lemma without_none woken q : (forall x, x ∈ woken -> x ∉ q) -> without woken q = q.
Proof.
  intros H. unfold without. induction q as [|y q IH]; [done|]. rewrite filter_cons, decide_True.
  - f_equal. apply IH. intros x Hx Hq. apply (H x Hx). by right.
  - intros Hy. apply (H y Hy). by left.
Qed.

Lemma NoDup_without woken q : NoDup q -> NoDup (without woken q).
Proof. apply NoDup_filter. Qed.

Lemma futex_wake_Some n q woken q' :
  futex_wake n q woken = Some q' <-> can_wake n q woken /\ q' = without woken q.
Proof.
  unfold futex_wake. case_decide; split; [by intros [= <-]|by intros [_ ->]|done|by intros [? _]].
Qed.

(** If somebody sleeps, a wake of a positive number wakes somebody. *)
Lemma can_wake_nonempty n q woken :
  0 < n -> q <> [] -> can_wake n q woken -> woken <> [].
Proof.
  intros Hn Hq (_ & _ & Hl) ->. destruct q; [done|]. simpl in Hl. lia.
Qed.

Lemma woken_leaves n q woken :
  0 < n -> q <> [] -> can_wake n q woken -> exists v, v ∈ q /\ v ∉ without woken q.
Proof.
  intros Hn Hq Hw. pose proof (can_wake_nonempty n q woken Hn Hq Hw) as Hne.
  destruct woken as [|v woken]; [done|]. destruct Hw as (_ & Hs & _). exists v.
  split; [apply Hs; by left|]. rewrite elem_of_without. intros [_ Hv]. apply Hv. by left.
Qed.

(** A wake of at least as many threads as sleep leaves nobody asleep. *)
Lemma can_wake_all n q woken :
  Z.of_nat (length q) <= n -> can_wake n q woken -> without woken q = [].
Proof.
  intros Hn (Hd & Hs & Hl). rewrite Z.min_r in Hl by done.
  assert (woken ≡ₚ q) as Hp.
  { apply submseteq_length_Permutation; [|lia]. by apply NoDup_submseteq. }
  apply elem_of_nil_inv. intros x. rewrite elem_of_without, Hp. tauto.
Qed.

(** There is always a set of threads to wake. *)
Lemma can_wake_take n q : 0 <= n -> NoDup q -> can_wake n q (take (Z.to_nat n) q).
Proof.
  intros Hn Hq. split_and!.
  - by apply (NoDup_app (take (Z.to_nat n) q) (drop (Z.to_nat n) q)); rewrite take_drop.
  - intros x Hx. rewrite <- (take_drop (Z.to_nat n) q). apply elem_of_app. by left.
  - rewrite length_take. lia.
Qed.

Lemma futex_wake_exists n q : 0 <= n -> NoDup q -> exists l, futex_wake n q l = Some (without l q).
Proof. intros Hn Hq. exists (take (Z.to_nat n) q). apply futex_wake_Some. split; [by apply can_wake_take|done]. Qed.
