(* ===== verification/Memory.v ===== *)
(** * Memory orders

    The other files interleave the accesses of the threads, and a load returns
    what was last stored.  Here is the memory of C++ with the orders the source
    names: every location has its stores in modification order, every thread has
    a view, the stores it has to know of, and a load may return any store that
    is not older than the view.  A release store carries the view of its thread,
    and a load with acquire takes it over; read-modify-write operations read the
    last store, and a release sequence goes on through them.  Loads do not see
    the stores of the future, and a store comes last in the modification order.

    Other locations stand for what a client accesses without atomics: an access
    races unless the thread knows of all accesses before. *)

From stdpp Require Import prelude functions.
From S2P Require Import Prelude.

(** The standards differ in the release sequence: up to C++17 it goes on through
    later stores of the thread that heads it. *)
Inductive standard : Type := cxx14 | cxx20.

Inductive order : Type := relaxed | acquire | release.

(** The number of the last store of each location a thread has to know of. *)
Abbreviation view := (nat -> nat).

Definition view_join (a b : view) : view := fun l => a l `max` b l.
Definition view_le (a b : view) : Prop := forall l, a l <= b l.

Infix "⊑v" := view_le (at level 70) : evenk_scope.

#[export] Instance view_le_preorder : PreOrder view_le.
Proof. split; [by intros a l|]. intros a b c H1 H2 l. etrans; [apply H1|apply H2]. Qed.

Lemma view_join_l a b : a ⊑v view_join a b.
Proof. intros l. unfold view_join. lia. Qed.
Lemma view_join_r a b : b ⊑v view_join a b.
Proof. intros l. unfold view_join. lia. Qed.
Lemma view_join_least a b c : a ⊑v c -> b ⊑v c -> view_join a b ⊑v c.
Proof. intros H1 H2 l. specialize (H1 l). specialize (H2 l). unfold view_join. lia. Qed.

(** A store, with the views of the release operations whose release sequences it
    is in, and the threads that head them. *)
Record message : Type := Message { m_value : Z; m_heads : list (nat * view) }.

Record memory : Type := Memory { m_log : nat -> list message; m_view : nat -> view }.

(** Everything is stored once, and known to all. *)
Definition memory_init : memory := Memory (fun _ => [Message 0 [(0, fun _ => 0)]]) (fun _ _ => 0).

Definition latest (m : memory) (l : nat) : nat := pred (length (m_log m l)).
Definition last_msg (m : memory) (l : nat) : message := default (Message 0 []) (last (m_log m l)).
Definition value_of (m : memory) (l : nat) : Z := m_value (last_msg m l).

(** The views a thread takes over from the release operations. *)
Definition take_over (o : order) (heads : list (nat * view)) (v : view) : view :=
  match o with acquire => foldr (fun h v => view_join h.2 v) v heads | _ => v end.

(** A load of the store with number [t]. *)
Definition load (o : order) (u l t : nat) (m : memory) : option (Z * memory) :=
  if decide (m_view m u l <= t) then
    x ← m_log m l !! t;
    Some (m_value x, Memory (m_log m) (<[u := take_over o (m_heads x) (<[l := t]> (m_view m u))]> (m_view m)))
  else None.

(** The thread [u] adds the value [v], with view [w] and in the release sequences
    [heads], to the stores of [l]. *)
Definition append (o : order) (u l : nat) (v : Z) (w : view) (heads : list (nat * view)) (m : memory) : memory :=
  let w := <[l := S (latest m l)]> w in
  Memory (<[l := m_log m l ++ [Message v (match o with release => (u, w) :: heads | _ => heads end)]]> (m_log m))
    (<[u := w]> (m_view m)).

Definition store (std : standard) (o : order) (u l : nat) (v : Z) (m : memory) : memory :=
  append o u l v (m_view m u)
    (match std with cxx14 => filter (fun h => h.1 = u) (m_heads (last_msg m l)) | cxx20 => [] end) m.

(** A read-modify-write operation: the old value and the memory. *)
Definition rmw (o : order) (u l : nat) (f : Z -> Z) (m : memory) : Z * memory :=
  let x := last_msg m l in
  (m_value x, append o u l (f (m_value x)) (take_over o (m_heads x) (m_view m u)) (m_heads x) m).

(** compare_exchange_strong: it finds the expected value in the last store, or
    another one in any store the thread may see ([t]), relaxed. *)
Definition compare_exchange (o : order) (u l : nat) (expected desired : Z) (t : option nat) (m : memory) :
    option (Z * bool * memory) :=
  match t with
  | None => if (value_of m l =? expected)%Z then let x := rmw o u l (fun _ => desired) m in Some (x.1, true, x.2) else None
  | Some t =>
      x ← load relaxed u l t m;
      if (x.1 =? expected)%Z then None else Some (x.1, false, x.2)
  end.

(** ** Data *)

(** The locations of the atomic variables of a lock are below 2; [data] is one
    variable that is accessed under it. *)
Definition atomic (l : nat) : bool := l <? 2.
Definition data : nat := 2.

(** An access to the location [d], which is not atomic. *)
Definition touch (u d : nat) (m : memory) : memory := append relaxed u d 0 (m_view m u) [] m.

(** The thread knows of all accesses to [d], so its own does not race. *)
Definition synced (d : nat) (m : memory) (u : nat) : Prop := m_view m u d = latest m d.

(** Whoever acquires this store knows of all accesses to [d]. *)
Definition handed (d : nat) (m : memory) (x : message) : Prop := exists h, h ∈ m_heads x /\ h.2 d = latest m d.

(** ** Well-formed memories: views point to stores that exist *)

Definition known (m : memory) (v : view) : Prop := forall l, v l <= latest m l.

Record wf (m : memory) : Prop := {
  wf_log l : m_log m l <> [];
  wf_view u : known m (m_view m u);
  wf_heads l x h : x ∈ m_log m l -> h ∈ m_heads x -> known m h.2;
}.

Lemma wf_init : wf memory_init.
Proof.
  split; [done|by intros u l|]. intros l x h ->%list_elem_of_singleton ->%list_elem_of_singleton. by intros l'.
Qed.

Section lemmas.
Implicit Types (m : memory) (o : order) (u l t : nat) (v : view).

Lemma log_last m l : wf m -> m_log m l !! latest m l = Some (last_msg m l).
Proof.
  intros H. unfold last_msg, latest. rewrite last_lookup. destruct (m_log m l !! _) eqn:E; [done|].
  apply lookup_ge_None in E. pose proof (wf_log m H l). destruct (m_log m l); [done|]. simpl in *. lia.
Qed.

Lemma last_in m l : wf m -> last_msg m l ∈ m_log m l.
Proof. intros H. eapply list_elem_of_lookup_2. by apply log_last. Qed.

Lemma log_latest m l t x : wf m -> m_log m l !! t = Some x -> t <= latest m l.
Proof. intros H Hx%lookup_lt_Some. unfold latest. lia. Qed.

Lemma latest_msg m l x : wf m -> m_log m l !! latest m l = Some x -> x = last_msg m l.
Proof. intros H. rewrite log_last by done. congruence. Qed.

Lemma take_over_ge o heads v : v ⊑v take_over o heads v.
Proof.
  destruct o; simpl; try done. induction heads as [|h heads IH]; simpl; [done|].
  etrans; [exact IH|apply view_join_r].
Qed.

Lemma take_over_acquire heads h v : h ∈ heads -> h.2 ⊑v take_over acquire heads v.
Proof.
  induction 1 as [|h x heads _ IH]; simpl; [apply view_join_l|]. etrans; [exact IH|apply view_join_r].
Qed.

Lemma known_insert m v l t : known m v -> t <= latest m l -> known m (<[l := t]> v).
Proof. intros H Ht l'. fn_split; auto. Qed.

Lemma known_take_over m o heads v :
  known m v -> (forall h, h ∈ heads -> known m h.2) -> known m (take_over o heads v).
Proof.
  intros Hv Hh. destruct o; simpl; try done. induction heads as [|h heads IH]; simpl; [done|].
  assert (view_join h.2 (foldr (fun h v => view_join h.2 v) v heads) ⊑v latest m) as H; [|exact H].
  apply view_join_least; [apply (Hh h); by left|]. apply IH. intros h' ?. apply Hh. by right.
Qed.

(** ** Loads *)

Lemma load_Some o u l t m z m' :
  load o u l t m = Some (z, m') <->
  exists x, m_view m u l <= t /\ m_log m l !! t = Some x /\ z = m_value x /\
    m' = Memory (m_log m) (<[u := take_over o (m_heads x) (<[l := t]> (m_view m u))]> (m_view m)).
Proof.
  unfold load. case_decide; [|split; [done|]; by intros (x & ? & _)].
  destruct (m_log m l !! t) as [x|] eqn:E; simpl; [|split; [done|]; by intros (x & _ & ? & _)].
  split; [intros [= <- <-]; eauto 6|]. by intros (x' & _ & [= <-] & -> & ->).
Qed.

Lemma load_wf o u l t m z m' : wf m -> load o u l t m = Some (z, m') -> wf m'.
Proof.
  intros [H1 H2 H3] (x & _ & Hx & _ & ->)%load_Some. split; try done. intros w. simpl. fn_split; [|apply H2].
  apply (known_take_over m); [apply known_insert; [apply H2|]|].
  - eapply log_latest; [by split|done].
  - intros h Hh. eapply H3; [|done]. by eapply list_elem_of_lookup_2.
Qed.

(** The view of a thread only grows. *)
Lemma load_view o u l t m z m' w : load o u l t m = Some (z, m') -> m_view m w ⊑v m_view m' w.
Proof.
  intros (x & Ht & _ & _ & ->)%load_Some. simpl. fn_split; [|done]. etrans; [|apply take_over_ge].
  intros l'. by fn_split.
Qed.

(** ** Stores *)

Section append.
Context (o : order) (u l : nat) (z : Z) (w : view) (heads : list (nat * view)) (m : memory).
Hypothesis H : wf m.

Lemma append_latest l' :
  latest (append o u l z w heads m) l' = if decide (l' = l) then S (latest m l) else latest m l'.
Proof.
  unfold latest, append. simpl. case_decide as E; [subst l'; rewrite fn_lookup_insert|by rewrite fn_lookup_insert_ne].
  rewrite length_app. pose proof (wf_log m H l). destruct (m_log m l); [done|]. simpl. lia.
Qed.

Lemma append_last l' :
  last_msg (append o u l z w heads m) l'
  = if decide (l' = l)
    then Message z (match o with release => (u, <[l := S (latest m l)]> w) :: heads | _ => heads end)
    else last_msg m l'.
Proof.
  unfold last_msg, append. simpl. case_decide as E; [subst l'; rewrite fn_lookup_insert|by rewrite fn_lookup_insert_ne].
  by rewrite last_snoc.
Qed.

(** The stores before stay. *)
Lemma append_log l' i x : m_log m l' !! i = Some x -> m_log (append o u l z w heads m) l' !! i = Some x.
Proof.
  intros Hx. unfold append. simpl. destruct (decide (l' = l)) as [->|]; [|by rewrite fn_lookup_insert_ne].
  rewrite fn_lookup_insert. by apply lookup_app_l_Some.
Qed.

Lemma append_value : value_of (append o u l z w heads m) l = z.
Proof. unfold value_of. by rewrite append_last, decide_True. Qed.

Lemma append_known v : known m v -> known (append o u l z w heads m) v.
Proof. intros Hv l'. rewrite append_latest. case_decide; [subst|done]. specialize (Hv l). lia. Qed.

Lemma append_wf : known m w -> (forall h, h ∈ heads -> known m h.2) -> wf (append o u l z w heads m).
Proof.
  intros Hw Hh. assert (known (append o u l z w heads m) (<[l := S (latest m l)]> w)) as Hn.
  { intros l'. rewrite append_latest. destruct (decide (l' = l)) as [->|]; [by rewrite fn_lookup_insert|].
    rewrite fn_lookup_insert_ne by done. apply Hw. }
  split.
  - intros l'. unfold append. simpl. fn_split; [by destruct (m_log m l)|apply H].
  - intros v. simpl. fn_split; [exact Hn|apply append_known, H].
  - intros l' x h Hx Hhx.
    assert (x ∈ m_log m l' \/ x = Message z (match o with release => (u, <[l := S (latest m l)]> w) :: heads | _ => heads end))
      as [Hx' | ->].
    { unfold append in Hx. simpl in Hx. destruct (decide (l' = l)) as [->|]; [|rewrite fn_lookup_insert_ne in Hx by done; auto].
      rewrite fn_lookup_insert in Hx. apply elem_of_app in Hx as [?|?%list_elem_of_singleton]; auto. }
    + apply append_known. by eapply (wf_heads m H).
    + assert (h = (u, <[l := S (latest m l)]> w) \/ h ∈ heads) as [-> | Hin]; [|exact Hn|by apply append_known, Hh].
      destruct o; simpl in Hhx; try (by right). apply elem_of_cons in Hhx. tauto.
Qed.

(** The threads keep what they know. *)
Lemma append_view x : m_view m u ⊑v w -> known m w -> m_view m x ⊑v m_view (append o u l z w heads m) x.
Proof.
  intros Hw Hk. simpl. fn_split; [|done]. intros l'. specialize (Hw l'). specialize (Hk l'). fn_split; lia.
Qed.
End append.

Lemma heads_known m l h : wf m -> h ∈ m_heads (last_msg m l) -> known m h.2.
Proof. intros H Hh. eapply (wf_heads m H); [by apply last_in|done]. Qed.

Lemma store_wf std o u l z m : wf m -> wf (store std o u l z m).
Proof.
  intros H. unfold store. apply append_wf; [done|apply H|]. intros h Hh. destruct std; [|by apply elem_of_nil in Hh].
  apply list_elem_of_filter in Hh as [_ Hh]. by eapply heads_known.
Qed.

Lemma rmw_wf o u l f m : wf m -> wf (rmw o u l f m).2.
Proof.
  intros H. unfold rmw. simpl. apply append_wf; [done| |intros; by eapply heads_known].
  apply known_take_over; [apply H|]. intros; by eapply heads_known.
Qed.

Lemma touch_wf u d m : wf m -> wf (touch u d m).
Proof. intros H. apply append_wf; [done|apply H|]. by intros h ?%elem_of_nil. Qed.

(** ** What threads know of the data *)

(** [m'] has the same accesses to the data, and the threads know what they knew. *)
Record extends (m m' : memory) : Prop := {
  ex_wf : wf m';
  ex_data d : atomic d = false -> latest m' d = latest m d;
  ex_view u : m_view m u ⊑v m_view m' u;
  ex_log l i x : m_log m l !! i = Some x -> m_log m' l !! i = Some x;
}.

Lemma extends_refl m : wf m -> extends m m.
Proof. by split. Qed.

Lemma extends_trans m1 m2 m3 : extends m1 m2 -> extends m2 m3 -> extends m1 m3.
Proof.
  intros [_ D1 V1 L1] [W D2 V2 L2]. split; [done| | |auto]; [intros d Hd; rewrite D2 by done; auto|]. intros u. etrans; [apply V1|apply V2].
Qed.

Lemma extends_load o u l t m z m' : wf m -> load o u l t m = Some (z, m') -> extends m m'.
Proof.
  intros H Hl. split; [by eapply load_wf| |intros; by eapply load_view|]; by apply load_Some in Hl as (x & _ & _ & _ & ->).
Qed.

Lemma extends_store std o u l z m : wf m -> atomic l = true -> extends m (store std o u l z m).
Proof.
  intros H Hl. split; [by apply store_wf|intros d Hd; unfold store; rewrite append_latest, decide_False by (done || congruence); done| |apply append_log].
  intros v. apply append_view; [done|apply H].
Qed.

Lemma extends_rmw o u l f m : wf m -> atomic l = true -> extends m (rmw o u l f m).2.
Proof.
  intros H Hl. split; [by apply rmw_wf|intros d Hd; unfold rmw; simpl; rewrite append_latest, decide_False by (done || congruence); done| |apply append_log].
  intros v. apply append_view; [apply take_over_ge|].
  apply known_take_over; [apply H|]. intros; by eapply heads_known.
Qed.

Lemma extends_synced d m m' u : atomic d = false -> extends m m' -> synced d m u -> synced d m' u.
Proof.
  intros Hd [W D V _] H. specialize (D d Hd). unfold synced in *. pose proof (wf_view m' W u d). specialize (V u d). lia.
Qed.

Lemma extends_handed d m m' x : atomic d = false -> extends m m' -> handed d m x -> handed d m' x.
Proof. intros Hd [_ D _ _] (h & ? & ?). exists h. by rewrite D. Qed.

(** A thread that acquires a store that was handed over knows all accesses. *)
Lemma load_synced d u l t m z m' x :
  wf m -> load acquire u l t m = Some (z, m') -> m_log m l !! t = Some x -> handed d m x -> synced d m' u.
Proof.
  intros H Hl Hx (h & Hh & Hd). pose proof (load_wf _ _ _ _ _ _ _ H Hl) as W.
  apply load_Some in Hl as (x' & _ & Hx' & _ & ->). rewrite Hx in Hx'. injection Hx' as <-. unfold synced.
  pose proof (wf_view _ W u d) as Hk. simpl in *. rewrite fn_lookup_insert in *.
  pose proof (take_over_acquire (m_heads x) h (<[l := t]> (m_view m u)) Hh d).
  unfold latest in *. simpl in *. lia.
Qed.

Lemma rmw_synced d u l f m : wf m -> d <> l -> handed d m (last_msg m l) -> synced d (rmw acquire u l f m).2 u.
Proof.
  intros H Hl (h & Hh & Hd). pose proof (wf_view _ (rmw_wf acquire u l f m H) u d) as Hk. unfold synced.
  unfold rmw in *. simpl in *. rewrite append_latest, decide_False in * by done.
  rewrite fn_lookup_insert, fn_lookup_insert_ne in * by done.
  pose proof (take_over_acquire (m_heads (last_msg m l)) h (m_view m u) Hh d). simpl in *. lia.
Qed.

(** A release hands over what its thread knows. *)
Lemma append_handed d u l z w heads m :
  wf m -> d <> l -> w d = latest m d ->
  handed d (append release u l z w heads m) (last_msg (append release u l z w heads m) l).
Proof.
  intros H Hl Hd. exists (u, <[l := S (latest m l)]> w).
  rewrite append_last, decide_True, append_latest, decide_False by done. simpl.
  rewrite fn_lookup_insert_ne by done. split; [by left|done].
Qed.

Lemma store_handed d std u l z m :
  wf m -> d <> l -> synced d m u -> handed d (store std release u l z m) (last_msg (store std release u l z m) l).
Proof. intros. by apply append_handed. Qed.

Lemma rmw_handed d u l f m :
  wf m -> d <> l -> synced d m u -> handed d (rmw release u l f m).2 (last_msg (rmw release u l f m).2 l).
Proof. intros. by apply append_handed. Qed.

Lemma touch_synced d u m : wf m -> synced d (touch u d m) u.
Proof. intros H. unfold synced, touch. rewrite append_latest, decide_True by done. simpl. by rewrite fn_lookup_insert, fn_lookup_insert. Qed.

(** Other variables. *)
Lemma touch_synced_ne d d' u (v : nat) m : wf m -> d' <> d -> synced d' m v -> synced d' (touch u d m) v.
Proof.
  intros H Hd. unfold synced, touch. rewrite append_latest, decide_False by done. simpl.
  destruct (decide (v = u)) as [->|]; [|by rewrite fn_lookup_insert_ne].
  by rewrite fn_lookup_insert, fn_lookup_insert_ne.
Qed.

Lemma touch_handed_ne d d' u m x : wf m -> d' <> d -> handed d' m x -> handed d' (touch u d m) x.
Proof. intros H Hd (h & Hh & E). exists h. unfold touch. by rewrite append_latest, decide_False. Qed.

Lemma touch_log d u m l : l <> d -> m_log (touch u d m) l = m_log m l.
Proof. intros Hl. simpl. by rewrite fn_lookup_insert_ne. Qed.

Lemma touch_view d u m (v : nat) l : l <> d -> m_view (touch u d m) v l = m_view m v l.
Proof.
  intros Hl. simpl. destruct (decide (v = u)) as [->|]; [|by rewrite fn_lookup_insert_ne].
  by rewrite fn_lookup_insert, fn_lookup_insert_ne.
Qed.

(** Release sequences go on through read-modify-write operations. *)
Lemma rmw_heads o u l f m : wf m -> m_heads (last_msg m l) ⊆ m_heads (last_msg (rmw o u l f m).2 l).
Proof.
  intros H h Hh. unfold rmw. simpl. rewrite append_last, decide_True by done. destruct o; simpl; try done. by right.
Qed.

Lemma handed_heads d m x y : m_heads x ⊆ m_heads y -> handed d m x -> handed d m y.
Proof. intros Hs (h & Hh & Hd). exists h. auto. Qed.

(** ** Stores that were acquired *)

(** The thread has acquired the store [i] of [l]. *)
Definition acquired (l : nat) (m : memory) (u i : nat) : Prop :=
  exists x, m_log m l !! i = Some x /\ forall h, h ∈ m_heads x -> h.2 ⊑v m_view m u.

Lemma extends_acquired l m m' u i : extends m m' -> acquired l m u i -> acquired l m' u i.
Proof.
  intros Hx (y & Hy & Hh). exists y. split; [by apply (ex_log _ _ Hx)|]. intros h ?.
  etrans; [by apply Hh|apply (ex_view _ _ Hx)].
Qed.

Lemma load_acquired u l t m z m' :
  load acquire u l t m = Some (z, m') -> acquired l m' u t /\ t <= m_view m' u l.
Proof.
  intros (x & _ & Hx & _ & ->)%load_Some. simpl. rewrite fn_lookup_insert. split.
  - exists x. split; [done|]. intros h Hh. simpl. rewrite fn_lookup_insert. by apply take_over_acquire.
  - pose proof (take_over_ge acquire (m_heads x) (<[l := t]> (m_view m u)) l) as Hge.
    by rewrite fn_lookup_insert in Hge.
Qed.

Lemma touch_acquired d u m l (v : nat) i : wf m -> l <> d -> acquired l m v i -> acquired l (touch u d m) v i.
Proof.
  intros H Hl (x & Hx & Hh). exists x. rewrite touch_log by done. split; [done|]. intros h Hin.
  etrans; [by apply Hh|]. apply append_view; [done|apply H].
Qed.

Lemma acquired_synced d l m u i x :
  wf m -> acquired l m u i -> m_log m l !! i = Some x -> handed d m x -> synced d m u.
Proof.
  intros W (y & Hy & Hh) Hx (h & Hin & Hd). rewrite Hx in Hy. injection Hy as <-.
  specialize (Hh h Hin d). pose proof (wf_view _ W u d). unfold synced. lia.
Qed.
End lemmas.
