(* ===== verification/Conqueue.v ===== *)
(** * Concurrent queue basics (evenk/conqueue.h) *)

From S2P Require Import Prelude.

Inductive queue_op_status : Type := success | empty | full | closed | busy.

#[global] Instance queue_op_status_eq_dec : EqDecision queue_op_status.
Proof. solve_decision. Defined.
