(* ===== verification/BqSlot.v ===== *)
(** * Ring slots (evenk/bounded_queue.h: spin, yield, futex, synch)

    A slot is a 32-bit token that packs a ticket number with status flags.
    [Slot] is the interface the ring is written against: the state of a slot
    and the small steps of a call of [wait], [wake] or [close] on it.
    [SlotLaws] states what the ring relies on; the four slot classes of the
    source are instances of both. *)

From S2P Require Import Prelude Futex.
Local Open Scope Z_scope.

(** ** Token layout *)

Definition status_valid : Z := 1.
Definition status_invalid : Z := 2.
Definition status_waiting : Z := 4.
Definition status_closed : Z := 8.

Definition status_mask : Z := Z.lor status_valid status_invalid.

Definition ticket_mask : Z :=
  u32 (Z.lnot (Z.lor (Z.lor status_mask status_waiting) status_closed)).

Definition min_size : Z := 16.

Inductive close_t : Type := cl_open | cl_closing | cl_closed.

#[global] Instance close_t_eq_dec : EqDecision close_t.
Proof. solve_decision. Defined.

(** ** The interface *)

Inductive slot_call : Type :=
| call_wait (t : Z)
| call_wake (t : Z)
| call_close.

Class Slot : Type := {
  slot_state : Type;
  slot_init : Z -> slot_state;
  slot_load : slot_state -> Z;
  (** a call in progress *)
  slot_pc : Type;
  slot_choice : Type;
  slot_enter : slot_call -> slot_pc;
  (** one step of a call made by the given thread; [inr r] returns [r] *)
  slot_step : nat -> slot_state -> slot_pc -> slot_choice ->
              option (slot_state * (slot_pc + Z));
}.

(** How far a call has got, seen from its effect on the token. *)
Inductive progress : Type :=
| waiting                (* inside [wait] *)
| waking (t : Z)         (* inside [wake t], the token is not written yet *)
| closing                (* inside [close] *)
| over.                  (* only clean-up is left *)

Definition progress_of_call (c : slot_call) : progress :=
  match c with
  | call_wait _ => waiting
  | call_wake t => waking t
  | call_close => closing
  end.

(** The effect on the token ([tok] before, [tok'] after) that a step from phase
    [ph] may have, and where it may lead.  A [wait] returns the token as it is
    when it returns. *)
Definition step_allowed (ph : progress) (tok tok' : Z) (next : progress + Z) : Prop :=
  match ph with
  | waiting =>
      (tok' = tok \/ tok' = Z.lor tok status_waiting) /\
      (next = inl waiting \/ next = inr tok')
  | waking t =>
      (tok' = tok /\ next = inl (waking t)) \/
      (tok' = t /\ (next = inl over \/ exists r, next = inr r))
  | closing =>
      (tok' = tok \/ tok' = Z.lor tok status_closed) /\
      (next = inl closing \/ next = inl over \/ exists r, next = inr r)
  | over => tok' = tok /\ (next = inl over \/ exists r, next = inr r)
  end.

(** [slot_ok s u p]: what thread [u] may assume of the slot while it is at [p];
    the steps of the other threads must not break it. *)
Class SlotLaws (S : Slot) : Type := {
  slot_phase : slot_pc -> progress;
  slot_ok : slot_state -> nat -> slot_pc -> Prop;
  slot_init_load t : slot_load (slot_init t) = t;
  slot_enter_phase c : slot_phase (slot_enter c) = progress_of_call c;
  slot_enter_ok s u c : slot_ok s u (slot_enter c);
  slot_step_allowed u s p c s' r :
    slot_ok s u p -> slot_step u s p c = Some (s', r) ->
    step_allowed (slot_phase p) (slot_load s) (slot_load s') (sum_map slot_phase id r);
  slot_step_ok u s p c s' p' :
    slot_ok s u p -> slot_step u s p c = Some (s', inl p') -> slot_ok s' u p';
  slot_step_other u u' s p c s' r p' :
    u <> u' -> slot_ok s u p -> slot_ok s u' p' ->
    slot_step u s p c = Some (s', r) -> slot_ok s' u' p';
}.

(** ** spin and yield *)

Module Spin.
Inductive pc : Type :=
| WaitLoad
| WakeStore (t : Z)
| CloseReturn.

Definition enter (c : slot_call) : pc :=
  match c with
  | call_wait _ => WaitLoad
  | call_wake t => WakeStore t
  | call_close => CloseReturn
  end.

Definition step (u : nat) (s : Z) (p : pc) (_ : unit) : option (Z * (pc + Z)) :=
  match p with
  | WaitLoad => Some (s, inr s)
  | WakeStore t => Some (t, inr 0)
  | CloseReturn => Some (s, inr 0)
  end.

Definition phase (p : pc) : progress :=
  match p with
  | WaitLoad => waiting
  | WakeStore t => waking t
  | CloseReturn => closing
  end.
End Spin.

#[export] Instance spin : Slot := {|
  slot_state := Z; slot_init := fun t => t; slot_load := fun s => s;
  slot_pc := Spin.pc; slot_choice := unit;
  slot_enter := Spin.enter; slot_step := Spin.step |}.

Module Yield.
Inductive pc : Type :=
| WaitYield
| WaitLoad
| Base (p : Spin.pc).

Definition enter (c : slot_call) : pc :=
  match c with
  | call_wait _ => WaitYield
  | c => Base (Spin.enter c)
  end.

Definition step (u : nat) (s : Z) (p : pc) (c : unit) : option (Z * (pc + Z)) :=
  match p with
  | WaitYield => Some (s, inl WaitLoad)
  | WaitLoad => Some (s, inr s)
  | Base p => r ← Spin.step u s p c; Some (r.1, sum_map Base id r.2)
  end.

Definition phase (p : pc) : progress :=
  match p with
  | WaitYield | WaitLoad => waiting
  | Base p => Spin.phase p
  end.
End Yield.

Definition yield : Slot := {|
  slot_state := Z; slot_init := fun t => t; slot_load := fun s => s;
  slot_pc := Yield.pc; slot_choice := unit;
  slot_enter := Yield.enter; slot_step := Yield.step |}.

(** ** futex *)

Module FutexSlot.
Record state : Type := State { word : Z; sleepers : list nat }.

Inductive pc : Type :=
(* close *)
| CloseLoad
| CloseCas (t : Z)
| CloseWake
(* wait *)
| WaitCas (t : Z)
| WaitEnter (x : Z)
| WaitSleep (x : Z)
| WaitLoad
(* wake *)
| WakeExchange (t : Z)
| WakeWake.

(** What the environment decides: whether a weak compare-exchange fails
    without reason, whether a sleeper is woken without reason, and whom the
    kernel wakes. *)
Inductive choice : Type :=
| Go
| Spurious
| Woken (l : list nat).

Definition enter (c : slot_call) : pc :=
  match c with
  | call_wait t => WaitCas t
  | call_wake t => WakeExchange t
  | call_close => CloseLoad
  end.

Definition INT32_MAX : Z := 2 ^ 31 - 1.

Definition has_waiting (t : Z) : bool := negb (Z.land t status_waiting =? 0).

Definition wake_all (s : state) (c : choice) : option state :=
  match c with
  | Woken l => q ← futex_wake INT32_MAX (sleepers s) l; Some (State (word s) q)
  | _ => None
  end.

Definition step (u : nat) (s : state) (p : pc) (c : choice) : option (state * (pc + Z)) :=
  match p with
  | CloseLoad => Some (s, inl (CloseCas (word s)))
  | CloseCas t =>
      let x := Z.lor t status_closed in
      match c with
      | Go =>
          if decide (word s = t)
          then Some (State x (sleepers s), if has_waiting t then inl CloseWake else inr 0)
          else Some (s, inl (CloseCas (word s)))
      | Spurious => Some (s, inl (CloseCas (word s)))
      | Woken _ => None
      end
  | CloseWake => s' ← wake_all s c; Some (s', inr 0)
  | WaitCas t =>
      let x := Z.lor t status_waiting in
      if decide (word s = t) then Some (State x (sleepers s), inl (WaitEnter x))
      else if decide (word s = x) then Some (s, inl (WaitEnter x))
      else Some (s, inr (word s))
  | WaitEnter x =>
      match futex_wait u (word s) x (sleepers s) with
      | Some q => Some (State (word s) q, inl (WaitSleep x))
      | None => Some (s, inl WaitLoad)
      end
  | WaitSleep x =>
      match c with
      | Go => if decide (u ∈ sleepers s) then None else Some (s, inl WaitLoad)
      | Spurious => Some (State (word s) (without [u] (sleepers s)), inl WaitLoad)
      | Woken _ => None
      end
  | WaitLoad => Some (s, inr (word s))
  | WakeExchange t =>
      Some (State t (sleepers s), if has_waiting (word s) then inl WakeWake else inr 0)
  | WakeWake => s' ← wake_all s c; Some (s', inr 0)
  end.

Definition phase (p : pc) : progress :=
  match p with
  | CloseLoad | CloseCas _ => closing
  | CloseWake | WakeWake => over
  | WaitCas _ | WaitEnter _ | WaitSleep _ | WaitLoad => waiting
  | WakeExchange t => waking t
  end.
End FutexSlot.

Definition futex_slot : Slot := {|
  slot_state := FutexSlot.state; slot_init := fun t => FutexSlot.State t [];
  slot_load := FutexSlot.word;
  slot_pc := FutexSlot.pc; slot_choice := FutexSlot.choice;
  slot_enter := FutexSlot.enter; slot_step := FutexSlot.step |}.

(** ** synch

    [lock_] and [cond_] are a mutex and a condition variable of the synch
    traits: a mutex has at most one owner and blocks the others; waiting on the
    condition releases the mutex and falls asleep in one step, and a sleeper
    that is notified (or wakes without reason) takes the mutex again. *)

Module SynchSlot.
Record state : Type :=
  State { word : Z; owner : option nat; cond_waiters : list nat }.

Inductive pc : Type :=
(* close *)
| CloseLock
| CloseLoad
| CloseStore (t : Z)
| CloseNotify
(* wait *)
| WaitLock (t : Z)
| WaitLoad (t : Z)
| WaitCond (t : Z)
| WaitSleep (t : Z)
| WaitReload
| WaitUnlock (v : Z)
(* wake *)
| WakeLock (t : Z)
| WakeStore (t : Z)
| WakeNotify
(* guard destructor of close and wake *)
| Unlock.

Inductive choice : Type := Go | Spurious.

Definition enter (c : slot_call) : pc :=
  match c with
  | call_wait t => WaitLock t
  | call_wake t => WakeLock t
  | call_close => CloseLock
  end.

Definition lock (u : nat) (s : state) : option state :=
  match owner s with
  | None => Some (State (word s) (Some u) (cond_waiters s))
  | Some _ => None
  end.

Definition unlock (s : state) : state := State (word s) None (cond_waiters s).
Definition store (t : Z) (s : state) : state := State t (owner s) (cond_waiters s).
Definition notify_all (s : state) : state := State (word s) (owner s) [].

Definition step (u : nat) (s : state) (p : pc) (c : choice) : option (state * (pc + Z)) :=
  match p with
  | CloseLock => s' ← lock u s; Some (s', inl CloseLoad)
  | CloseLoad => Some (s, inl (CloseStore (word s)))
  | CloseStore t => Some (store (Z.lor t status_closed) s, inl CloseNotify)
  | CloseNotify => Some (notify_all s, inl Unlock)
  | WaitLock t => s' ← lock u s; Some (s', inl (WaitLoad t))
  | WaitLoad t =>
      if decide (t = word s) then Some (s, inl (WaitCond t))
      else Some (s, inl (WaitUnlock (word s)))
  | WaitCond t =>
      Some (State (word s) None (u :: cond_waiters s), inl (WaitSleep t))
  | WaitSleep t =>
      match c with
      | Go =>
          if decide (u ∈ cond_waiters s) then None
          else s' ← lock u s; Some (s', inl WaitReload)
      | Spurious =>
          s' ← lock u s;
          Some (State (word s') (owner s') (without [u] (cond_waiters s')), inl WaitReload)
      end
  | WaitReload => Some (s, inl (WaitUnlock (word s)))
  | WaitUnlock v => Some (unlock s, inr v)
  | WakeLock t => s' ← lock u s; Some (s', inl (WakeStore t))
  | WakeStore t => Some (store t s, inl WakeNotify)
  | WakeNotify => Some (notify_all s, inl Unlock)
  | Unlock => Some (unlock s, inr 0)
  end.

Definition phase (p : pc) : progress :=
  match p with
  | CloseLock | CloseLoad | CloseStore _ => closing
  | CloseNotify | WakeNotify | Unlock => over
  | WaitLock _ | WaitLoad _ | WaitCond _ | WaitSleep _ | WaitReload | WaitUnlock _ => waiting
  | WakeLock t | WakeStore t => waking t
  end.

(** A thread between [lock] and [unlock] owns the mutex, and the token it read
    there is still the current one. *)
Definition ok (s : state) (u : nat) (p : pc) : Prop :=
  match p with
  | CloseLock | WaitLock _ | WaitSleep _ | WakeLock _ => True
  | CloseStore t => owner s = Some u /\ word s = t
  | WaitCond t => owner s = Some u /\ word s = t
  | WaitUnlock v => owner s = Some u /\ word s = v
  | _ => owner s = Some u
  end.
End SynchSlot.

Definition synch_slot : Slot := {|
  slot_state := SynchSlot.state; slot_init := fun t => SynchSlot.State t None [];
  slot_load := SynchSlot.word;
  slot_pc := SynchSlot.pc; slot_choice := SynchSlot.choice;
  slot_enter := SynchSlot.enter; slot_step := SynchSlot.step |}.

(** ** The instances satisfy the laws *)

#[export] Instance spin_laws : SlotLaws spin.
Proof.
  refine {| slot_phase := Spin.phase : @slot_pc spin -> _; slot_ok _ _ _ := True |}; try done.
  - by intros [].
  - intros u s [] c s' r _ [= <- <-]; simpl; eauto 6.
Defined.

#[export] Instance yield_laws : SlotLaws yield.
Proof.
  refine {| slot_phase := Yield.phase : @slot_pc yield -> _; slot_ok _ _ _ := True |}; try done.
  - by intros [].
  - intros u s [| |[]] c s' r _ [= <- <-]; simpl; eauto 6.
Defined.

Section futex_laws.
Import FutexSlot.

Lemma wake_all_word s c s' : wake_all s c = Some s' -> word s' = word s.
Proof. intros H. unfold wake_all in H. by destruct c; simplify_option_eq. Qed.

Lemma futex_step_allowed u s p c s' r :
  step u s p c = Some (s', r) ->
  step_allowed (phase p) (word s) (word s') (sum_map phase id r).
Proof.
  intros H. destruct p; simpl in H |- *.
  3, 9: destruct (wake_all s c) eqn:E; simplify_eq/=; apply wake_all_word in E; eauto.
  all: unfold futex_wait in H; repeat case_match; simplify_eq/=; eauto 8.
Qed.
End futex_laws.

#[export] Instance futex_laws : SlotLaws futex_slot.
Proof.
  refine {| slot_phase := FutexSlot.phase : @slot_pc futex_slot -> _; slot_ok _ _ _ := True |};
    try done.
  - by intros [].
  - intros u s p c s' r _. apply futex_step_allowed.
Defined.

Section synch_laws.
Import SynchSlot.

Lemma lock_Some u s s' :
  lock u s = Some s' ->
  owner s = None /\ s' = State (word s) (Some u) (cond_waiters s).
Proof. unfold lock. destruct (owner s); intros; by simplify_eq. Qed.

(** Splits a step of the slot and replaces the state after [lock]. *)
Ltac synch_step H :=
  simpl in H; repeat case_match; simplify_option_eq;
  repeat match goal with
  | E : lock _ _ = Some _ |- _ => apply lock_Some in E as [? ->]
  end; simpl in *; destruct_and?.

Lemma synch_step_allowed u s p c s' r :
  ok s u p -> step u s p c = Some (s', r) ->
  step_allowed (phase p) (word s) (word s') (sum_map phase id r).
Proof.
  intros Hok H. destruct p; synch_step H; subst; simpl; eauto 8.
Qed.

Lemma synch_step_ok u s p c s' p' :
  ok s u p -> step u s p c = Some (s', inl p') -> ok s' u p'.
Proof. intros Hok H. destruct p; synch_step H; subst; simpl; auto. Qed.

Lemma synch_step_other u u' s p c s' r p' :
  u <> u' -> ok s u p -> ok s u' p' -> step u s p c = Some (s', r) -> ok s' u' p'.
Proof.
  intros Hu Hok Hok' H.
  destruct p; synch_step H; destruct p'; simpl in *; destruct_and?; simplify_eq/=; auto.
Qed.
End synch_laws.

#[export] Instance synch_laws : SlotLaws synch_slot.
Proof.
  refine {| slot_phase := SynchSlot.phase : @slot_pc synch_slot -> _;
            slot_ok := SynchSlot.ok : @slot_state synch_slot -> _ |}.
  - done.
  - by intros [].
  - by intros s u [].
  - apply synch_step_allowed.
  - apply synch_step_ok.
  - apply synch_step_other.
Defined.
