(* ===== verification/BqRing.v ===== *)
(** * The bounded ring (evenk/bounded_queue.h: class ring)

    The ring as a pool of threads over shared memory.  A program counter is a
    point between two shared-memory accesses; the local variables of the
    function are its arguments.  Besides the fields of the source the state has
    history variables, which no step reads: the number of tickets handed out
    ([g_head], [g_tail]), the ticket a slot serves ([g_pos]), the fate of every
    ticket ([g_cells]), the ticket at which the ring was closed ([g_limit]) and
    the number of calls of [close].  They let statements speak of tickets as
    unbounded integers while the code works modulo [2^32]. *)

From stdpp Require Import gmap.
From S2P Require Import Prelude Conqueue BqSlot.
Local Open Scope Z_scope.

(** ** Counters (detail::counter and detail::atomic_counter) *)

Inductive counter_kind : Type := counter | atomic_counter.

(** atomic_counter::fetch_add: the value returned and the new count.  The one of
    [counter] is more than one access; the classes that use it are in BqClasses.v. *)
Definition fetch_add (count_ addend : Z) : Z * Z := (count_, u32 (count_ + addend)).

(** New counter value and success flag. *)
Definition try_increment (k : counter_kind) (count_ count : Z) : Z * bool :=
  match k with
  | counter => (u32 (count + 1), true)
  | atomic_counter =>
      if decide (count_ = count) then (u32 (count + 1), true) else (count_, false)
  end.

(** ** Arithmetic of positions *)

Definition token_of (count : Z) : Z := Z.land count ticket_mask.

Definition slot_index (mask count : Z) : nat := Z.to_nat (Z.land count mask).

(** The token that opens a slot to the next round. *)
Definition next_token (mask token : Z) : Z := u32 (u32 (token + mask) + 1).

(** ** Data *)

(** What has become of a ticket. *)
Inductive cell (V : Type) : Type :=
| Full (v : V)      (* a value was put *)
| Void              (* the producer's assignment threw *)
| Taken (v : V)     (* the value was taken *)
| Dropped.          (* the consumer skipped it *)
Arguments Full {V} _.
Arguments Void {V}.
Arguments Taken {V} _.
Arguments Dropped {V}.

(** Overloads of put_value and get_value, chosen by the value's type. *)
Inductive push_kind : Type := by_copy | by_move.

Record traits : Type := Traits { nothrow_copy : bool; nothrow_move : bool }.

Definition can_throw (tr : traits) (k : push_kind) : bool :=
  match k with
  | by_copy => negb (nothrow_copy tr)
  | by_move => negb (nothrow_move tr)
  end.

(** The token put_value publishes; only the noexcept copy overload adds. *)
Definition put_token (tr : traits) (k : push_kind) (token : Z) : Z :=
  match k with
  | by_copy =>
      if nothrow_copy tr then u32 (token + status_valid) else Z.lor token status_valid
  | by_move => Z.lor token status_valid
  end.

Definition invalid_token (token : Z) : Z := Z.lor token status_invalid.

(** Whether the call was given a Backoff, and its local [waiting]. *)
Inductive wait_mode : Type :=
| no_bo
| bo (waiting : bool).

Section ring.
Context {V : Type} {S : Slot}.
(** the traits of V, and what a move leaves behind in a moved-from V *)
Context (tr : traits) (moved_from : V -> V).

Record ring_slot : Type :=
  RingSlot { base : slot_state; value : V; g_pos : Z }.

Record ring : Type := Ring {
  mask_ : Z;
  ring_ : list ring_slot;
  closed_ : close_t;
  last_ : Z;
  head_ : Z;
  tail_ : Z;
  g_head : Z;
  g_tail : Z;
  g_cells : gmap Z (cell V);
  g_limit : option Z;
  g_closes : nat;
}.

Definition set_ring (r : ring) (l : list ring_slot) : ring :=
  Ring (mask_ r) l (closed_ r) (last_ r) (head_ r) (tail_ r)
    (g_head r) (g_tail r) (g_cells r) (g_limit r) (g_closes r).
Definition set_slot (r : ring) (i : nat) (sl : ring_slot) : ring :=
  set_ring r (<[i := sl]> (ring_ r)).

(** A slot is in its next round as soon as the ticket of its token changes. *)
Definition new_pos (mask : Z) (sl : ring_slot) (b : slot_state) : Z :=
  if Z.land (slot_load b) ticket_mask =? Z.land (slot_load (base sl)) ticket_mask
  then g_pos sl else g_pos sl + mask + 1.
Definition set_base (r : ring) (i : nat) (sl : ring_slot) (b : slot_state) : ring :=
  set_slot r i (RingSlot b (value sl) (new_pos (mask_ r) sl b)).
Definition set_cell (r : ring) (g : Z) (c : cell V) : ring :=
  Ring (mask_ r) (ring_ r) (closed_ r) (last_ r) (head_ r) (tail_ r)
    (g_head r) (g_tail r) (<[g := c]> (g_cells r)) (g_limit r) (g_closes r).
Definition set_head (r : ring) (h : Z) : ring :=
  Ring (mask_ r) (ring_ r) (closed_ r) (last_ r) h (tail_ r)
    (g_head r + 1) (g_tail r) (g_cells r) (g_limit r) (g_closes r).
Definition set_tail (r : ring) (t : Z) : ring :=
  Ring (mask_ r) (ring_ r) (closed_ r) (last_ r) (head_ r) t
    (g_head r) (g_tail r + 1) (g_cells r) (g_limit r) (g_closes r).

(** A producer: mode, overload, value, count (and its ticket). *)
Record producer : Type := Producer {
  p_mode : wait_mode; p_kind : push_kind; p_value : V; p_count : Z; p_ticket : Z }.

Record consumer : Type := Consumer { c_mode : wait_mode; c_count : Z; c_ticket : Z }.

Definition p_with_mode (p : producer) (m : wait_mode) : producer :=
  Producer m (p_kind p) (p_value p) (p_count p) (p_ticket p).
Definition c_with_mode (c : consumer) (m : wait_mode) : consumer :=
  Consumer m (c_count c) (c_ticket c).

Inductive outcome : Type :=
| Returned (st : queue_op_status)
| Popped (v : V)
| Threw.

(** Which loop of wait_head a consumer is in. *)
Inductive head_loop : Type := ticket_loop | status_loop.

(** Who runs the slot's [wake], and what follows it. *)
Inductive after_wake : Type :=
| put_done (p : producer) (ok : bool)
| get_done (c : consumer) (v : option V)
| skip_done (c : consumer)
| try_skip_done (c : consumer).

Inductive pc : Type :=
| Idle (o : option outcome)
(* wait_push *)
| PushFetch (m : wait_mode) (k : push_kind) (v : V)
(* wait_tail *)
| TailLoad (p : producer)
| TailClosed (p : producer) (t : Z)
| TailLast (p : producer) (t : Z)
| TailBackoff (p : producer)
| TailWait (p : producer) (w : slot_pc)
(* put_value *)
| PutValue (p : producer)
(* wait_pop *)
| PopFetch (m : wait_mode)
(* wait_head *)
| HeadLoad (c : consumer)
| HeadClosed (l : head_loop) (c : consumer) (t : Z)
| HeadLast (l : head_loop) (c : consumer) (t : Z)
| HeadBackoff (l : head_loop) (c : consumer) (t : Z)
| HeadWait (l : head_loop) (c : consumer) (w : slot_pc)
(* get_value *)
| GetValue (c : consumer)
(* the slot holds no valid value: wait_pop line 405, try_pop line 477 *)
| Skip (c : consumer) (trying : bool)
(* slot.wake *)
| Waking (a : after_wake) (w : slot_pc)
(* try_pop *)
| TryPopHead
| TryPopSlot (c : consumer)
| TryPopClosed (c : consumer)
| TryPopLast (c : consumer)
| TryPopIncrement (c : consumer) (t : Z)
(* try_push *)
| TryPushTail (k : push_kind) (v : V)
| TryPushSlot (p : producer)
| TryPushClosed (p : producer)
| TryPushLast (p : producer)
| TryPushIncrement (p : producer)
(* close *)
| CloseGuard
| CloseFetch
| CloseLast (last : Z)
| CloseStore
| CloseLoop (i : Z)
| CloseSlot (i : Z) (slot : nat) (w : slot_pc).

Inductive operation : Type :=
| op_wait_push (backoff : bool) (k : push_kind) (v : V)
| op_wait_pop (backoff : bool)
| op_try_push (k : push_kind) (v : V)
| op_try_pop
| op_close.

(** What the label of a step decides: the operation an idle thread calls,
    whether (and leaving what) an assignment throws, what a Backoff functor
    returns, and the choices inside a slot call. *)
Inductive choice : Type :=
| Call (op : operation)
| Go
| Assign (throws : option V)
| Backoff (r : bool)
| InSlot (c : slot_choice).

Definition start_mode (backoff : bool) : wait_mode := if backoff then bo false else no_bo.

(** A call of wait_head starts with [waiting = false]. *)
Definition fresh_mode (m : wait_mode) : wait_mode :=
  match m with no_bo => no_bo | bo _ => bo false end.

Definition start (op : operation) : pc :=
  match op with
  | op_wait_push b k v => PushFetch (start_mode b) k v
  | op_wait_pop b => PopFetch (start_mode b)
  | op_try_push k v => TryPushTail k v
  | op_try_pop => TryPopHead
  | op_close => CloseGuard
  end.

Definition p_token (p : producer) : Z := token_of (p_count p).
Definition c_token (c : consumer) : Z := token_of (c_count c).
Definition p_slot (r : ring) (p : producer) : nat := slot_index (mask_ r) (p_count p).
Definition c_slot (r : ring) (c : consumer) : nat := slot_index (mask_ r) (c_count c).
Definition close_slot (r : ring) (i : Z) : nat := slot_index (mask_ r) (u32 (last_ r + i)).

Definition ticket_matches (t token : Z) : bool := Z.land t ticket_mask =? token.

(** The second half of is_past_last. *)
Definition past_last (r : ring) (count : Z) : bool :=
  to_signed 32 (u32 (last_ r - count)) <=? 0.

(** wait_tail: the loop condition, after a token [t] was read *)
Definition tail_test (p : producer) (t : Z) : pc :=
  if ticket_matches t (p_token p) then PutValue p else TailClosed p t.

(** wait_tail: the rest of the body, when is_past_last is false *)
Definition tail_body (p : producer) (t : Z) : pc :=
  match p_mode p with
  | bo false => TailBackoff p
  | _ => TailWait p (slot_enter (call_wait t))
  end.

(** wait_head: after its loops *)
Definition head_exit (c : consumer) (t : Z) : pc :=
  if Z.land t status_valid =? 0 then Skip c false else GetValue c.

(** wait_head: the condition of the second loop *)
Definition status_test (c : consumer) (t : Z) : pc :=
  if Z.land t status_mask =? 0 then HeadClosed status_loop c t else head_exit c t.

Definition head_test (l : head_loop) (c : consumer) (t : Z) : pc :=
  match l with
  | ticket_loop =>
      if ticket_matches t (c_token c) then status_test c t
      else HeadClosed ticket_loop c t
  | status_loop => status_test c t
  end.

Definition head_body (l : head_loop) (c : consumer) (t : Z) : pc :=
  match c_mode c with
  | bo false => HeadBackoff l c t
  | _ => HeadWait l c (slot_enter (call_wait t))
  end.

(** A step of a slot call on slot [i]; [k] continues after the return. *)
Definition in_slot (u : nat) (r : ring) (i : nat) (w : slot_pc) (c : slot_choice)
    (again : slot_pc -> pc) (k : Z -> pc) : option (ring * pc) :=
  sl ← ring_ r !! i;
  x ← slot_step u (base sl) w c;
  Some (set_base r i sl x.1, match x.2 with inl w' => again w' | inr t => k t end).

Definition wake_slot (r : ring) (a : after_wake) : nat :=
  match a with
  | put_done p _ => p_slot r p
  | get_done c _ | skip_done c | try_skip_done c => c_slot r c
  end.

Definition after (a : after_wake) : pc :=
  match a with
  | put_done _ ok => Idle (Some (if ok then Returned success else Threw))
  | get_done _ (Some v) => Idle (Some (Popped v))
  | get_done _ None => Idle (Some Threw)
  | skip_done c => PopFetch (fresh_mode (c_mode c))
  | try_skip_done _ => Idle (Some (Returned empty))
  end.

(** put_value: the assignment, then the wake *)
Definition put_value (r : ring) (p : producer) (throws : option V) : option (ring * pc) :=
  sl ← ring_ r !! p_slot r p;
  match throws with
  | None =>
      Some (set_cell (set_slot r (p_slot r p) (RingSlot (base sl) (p_value p) (g_pos sl)))
              (p_ticket p) (Full (p_value p)),
            Waking (put_done p true)
              (slot_enter (call_wake (put_token tr (p_kind p) (p_token p)))))
  | Some junk =>
      if can_throw tr (p_kind p) then
        Some (set_cell (set_slot r (p_slot r p) (RingSlot (base sl) junk (g_pos sl)))
                (p_ticket p) Void,
              Waking (put_done p false)
                (slot_enter (call_wake (invalid_token (p_token p)))))
      else None
  end.

(** get_value: the move out of the slot, then the wake *)
Definition get_value (r : ring) (c : consumer) (throws : option V) : option (ring * pc) :=
  sl ← ring_ r !! c_slot r c;
  let wake := slot_enter (call_wake (next_token (mask_ r) (c_token c))) in
  match throws with
  | None =>
      Some (set_cell (set_slot r (c_slot r c) (RingSlot (base sl) (moved_from (value sl)) (g_pos sl)))
              (c_ticket c) (Taken (value sl)),
            Waking (get_done c (Some (value sl))) wake)
  | Some junk =>
      if nothrow_move tr then None
      else
        Some (set_cell (set_slot r (c_slot r c) (RingSlot (base sl) junk (g_pos sl)))
                (c_ticket c) Dropped,
              Waking (get_done c None) wake)
  end.

Definition skip (r : ring) (c : consumer) (trying : bool) : ring * pc :=
  (set_cell r (c_ticket c) Dropped,
   Waking (if trying then try_skip_done c else skip_done c)
     (slot_enter (call_wake (next_token (mask_ r) (c_token c))))).

Definition refused : pc := Idle (Some (Returned closed)).

(** wait_push, wait_pop and what they call *)
Definition step_wait (u : nat) (r : ring) (p : pc) (c : choice) : option (ring * pc) :=
  match p, c with
  | PushFetch m k v, Go =>
      let '(count, tail) := fetch_add (tail_ r) 1 in
      Some (set_tail r tail, TailLoad (Producer m k v count (g_tail r)))
  | TailLoad p, Go =>
      sl ← ring_ r !! p_slot r p;
      Some (r, tail_test p (slot_load (base sl)))
  | TailClosed p t, Go =>
      Some (r, if decide (closed_ r = cl_closed) then TailLast p t else tail_body p t)
  | TailLast p t, Go =>
      Some (r, if past_last r (p_count p) then refused else tail_body p t)
  | TailBackoff p, Backoff b => Some (r, TailLoad (p_with_mode p (bo b)))
  | TailWait p w, InSlot c =>
      in_slot u r (p_slot r p) w c (TailWait p) (tail_test p)
  | PutValue p, Assign th => put_value r p th
  | PopFetch m, Go =>
      let '(count, head) := fetch_add (head_ r) 1 in
      Some (set_head r head, HeadLoad (Consumer m count (g_head r)))
  | HeadLoad c, Go =>
      sl ← ring_ r !! c_slot r c;
      Some (r, head_test ticket_loop c (slot_load (base sl)))
  | HeadClosed l c t, Go =>
      Some (r, if decide (closed_ r = cl_closed) then HeadLast l c t else head_body l c t)
  | HeadLast l c t, Go =>
      Some (r, if past_last r (c_count c) then refused else head_body l c t)
  | HeadBackoff l c t, Backoff b =>
      Some (r, HeadWait l (c_with_mode c (bo b)) (slot_enter (call_wait t)))
  | HeadWait l c w, InSlot ch =>
      in_slot u r (c_slot r c) w ch (HeadWait l c) (head_test l c)
  | GetValue c, Assign th => get_value r c th
  | Skip c trying, Go => Some (skip r c trying)
  | Waking a w, InSlot ch =>
      in_slot u r (wake_slot r a) w ch (Waking a) (fun _ => after a)
  | _, _ => None
  end.

(** try_pop; [head_] is a counter of kind [kh] *)
Definition step_try_pop (kh : counter_kind) (r : ring) (p : pc) (c : choice) :
    option (ring * pc) :=
  match p, c with
  | TryPopHead, Go => Some (r, TryPopSlot (Consumer no_bo (head_ r) (g_head r)))
  | TryPopSlot c, Go =>
      sl ← ring_ r !! c_slot r c;
      let t := slot_load (base sl) in
      Some (r, if negb (ticket_matches t (c_token c)) || (Z.land t status_mask =? 0)
               then TryPopClosed c else TryPopIncrement c t)
  | TryPopClosed c, Go =>
      Some (r, if decide (closed_ r = cl_closed) then TryPopLast c
               else Idle (Some (Returned empty)))
  | TryPopLast c, Go =>
      Some (r, Idle (Some (Returned (if past_last r (c_count c) then closed else empty))))
  | TryPopIncrement c t, Go =>
      let '(head, ok) := try_increment kh (head_ r) (c_count c) in
      if ok then Some (set_head r head, if Z.land t status_valid =? 0 then Skip c true else GetValue c)
      else Some (r, Idle (Some (Returned empty)))
  | _, _ => None
  end.

(** try_push; it increments [head_], as the source does *)
Definition step_try_push (kh : counter_kind) (r : ring) (p : pc) (c : choice) :
    option (ring * pc) :=
  match p, c with
  | TryPushTail k v, Go => Some (r, TryPushSlot (Producer no_bo k v (tail_ r) (g_tail r)))
  | TryPushSlot p, Go =>
      sl ← ring_ r !! p_slot r p;
      Some (r, if negb (ticket_matches (slot_load (base sl)) (p_token p))
               then TryPushClosed p else TryPushIncrement p)
  | TryPushClosed p, Go =>
      Some (r, if decide (closed_ r = cl_closed) then TryPushLast p
               else Idle (Some (Returned empty)))
  | TryPushLast p, Go =>
      Some (r, Idle (Some (Returned (if past_last r (p_count p) then closed else empty))))
  | TryPushIncrement p, Go =>
      let '(head, ok) := try_increment kh (head_ r) (p_count p) in
      if ok then Some (set_head r head, PutValue p)
      else Some (r, Idle (Some (Returned full)))
  | _, _ => None
  end.

(** close *)
Definition step_close (u : nat) (r : ring) (p : pc) (c : choice) : option (ring * pc) :=
  match p, c with
  | CloseGuard, Go =>
      if decide (closed_ r = cl_closing)
      then Some (Ring (mask_ r) (ring_ r) cl_open (last_ r) (head_ r) (tail_ r)
                   (g_head r) (g_tail r) (g_cells r) (g_limit r) (g_closes r),
                 Idle None)
      else Some (r, CloseFetch)
  | CloseFetch, Go =>
      let '(last, tail) := fetch_add (tail_ r) (u32 (mask_ r + 1)) in
      Some (Ring (mask_ r) (ring_ r) (closed_ r) (last_ r) (head_ r) tail
              (g_head r) (g_tail r + mask_ r + 1) (g_cells r) (Some (g_tail r)) (g_closes r + 1)%nat,
            CloseLast last)
  | CloseLast last, Go =>
      Some (Ring (mask_ r) (ring_ r) (closed_ r) last (head_ r) (tail_ r)
              (g_head r) (g_tail r) (g_cells r) (g_limit r) (g_closes r),
            CloseStore)
  | CloseStore, Go =>
      Some (Ring (mask_ r) (ring_ r) cl_closed (last_ r) (head_ r) (tail_ r)
              (g_head r) (g_tail r) (g_cells r) (g_limit r) (g_closes r),
            CloseLoop 0)
  | CloseLoop i, Go =>
      Some (r, if i <? u32 (mask_ r + 1) then CloseSlot i (close_slot r i) (slot_enter call_close)
               else Idle None)
  | CloseSlot i slot w, InSlot ch =>
      in_slot u r slot w ch (CloseSlot i slot) (fun _ => CloseLoop (u32 (i + 1)))
  | _, _ => None
  end.

(** A step of a thread of the ring with consumer counter kind [kh]. *)
Definition ring_step (kh : counter_kind) (u : nat) (r : ring) (p : pc) (c : choice) :
    option (ring * pc) :=
  match p with
  | Idle _ => match c with Call op => Some (r, start op) | _ => None end
  | TryPopHead | TryPopSlot _ | TryPopClosed _ | TryPopLast _ | TryPopIncrement _ _ =>
      step_try_pop kh r p c
  | TryPushTail _ _ | TryPushSlot _ | TryPushClosed _ | TryPushLast _ | TryPushIncrement _ =>
      step_try_push kh r p c
  | CloseGuard | CloseFetch | CloseLast _ | CloseStore | CloseLoop _ | CloseSlot _ _ _ =>
      step_close u r p c
  | _ => step_wait u r p c
  end.

Definition ring_exec (kh : counter_kind) : pool ring pc -> nat * choice -> option (pool ring pc) :=
  pool_exec (ring_step kh).

(** ** Construction *)

Inductive error : Type := invalid_argument_min_size | invalid_argument_power_of_two.

Definition create (size : Z) : option error :=
  if decide (size < min_size) then Some invalid_argument_min_size
  else if decide (Z.land size (size - 1) <> 0) then Some invalid_argument_power_of_two
  else None.

(** The constructor: [v0] is a value-initialised V, [last0] the
    indeterminate initial content of [last_]. *)
Definition make_ring (v0 : V) (last0 : Z) (size : Z) : error + ring :=
  match create size with
  | Some e => inl e
  | None =>
      inr (Ring (size - 1)
             ((fun i => RingSlot (slot_init (Z.land i ticket_mask)) v0 i) <$> seqZ 0 size)
             cl_open last0 0 0 0 0 ∅ None 0)
  end.

(** The destructor: the slots in the order their destructors run. *)
Fixpoint destroy_from (fuel : nat) (i size : Z) : list Z :=
  match fuel with
  | O => []
  | Datatypes.S fuel => if i <? size then i :: destroy_from fuel (u32 (i + 1)) size else []
  end.

Definition destroy (r : ring) : list Z :=
  let size := u32 (mask_ r + 1) in destroy_from (Z.to_nat size) 0 size.

(** ** State operations *)

Definition is_closed (r : ring) : bool :=
  match closed_ r with cl_open => false | _ => true end.

Definition is_empty (r : ring) : bool :=
  to_signed 32 (u32 (tail_ r - head_ r)) <=? 0.

(** the signed difference is converted back to unsigned by the comparison *)
Definition is_full (r : ring) : bool :=
  mask_ r <? u32 (to_signed 32 (u32 (tail_ r - head_ r))).

Definition is_lock_free : bool := false.

(** ** Basic operations: a status other than success is thrown *)

Definition push (status : queue_op_status) : queue_op_status + unit :=
  if decide (status = success) then inr tt else inl status.

Definition value_pop (status : queue_op_status) (v : V) : queue_op_status + V :=
  if decide (status = success) then inr v else inl status.
End ring.

Arguments ring V {S}.
Arguments pc V {S}.
Arguments choice V {S}.
Arguments ring_slot V {S}.
