(* ===== verification/BqTokens.v ===== *)
(** * Tokens as tickets (evenk/bounded_queue.h, lines 50-76)

    Arithmetic of the token encoding: the upper 28 bits of a token are the
    upper bits of the ticket it serves, the two low bits tell what the slot
    holds, and the flags between them do not disturb either. *)

From S2P Require Import Prelude BqSlot BqRing.
Local Open Scope Z_scope.

(** The ticket part of the token of a slot that serves ticket [g]. *)
Definition tick (g : Z) : Z := 16 * ((g / 16) mod 2 ^ 28).

(** What a token says the slot holds: 0 nothing, 1 a value, 2 no valid value. *)
Definition status_of (t : Z) : Z := Z.land t status_mask.

Lemma ticket_mask_shift : ticket_mask = Z.shiftl (Z.ones 28) 4.
Proof. reflexivity. Qed.

Lemma land_ticket_mask x : Z.land x ticket_mask = tick x.
Proof.
  rewrite ticket_mask_shift. unfold tick.
  transitivity (Z.shiftl (Z.land (Z.shiftr x 4) (Z.ones 28)) 4).
  - apply Z.bits_inj'. intros n Hn.
    rewrite Z.land_spec, !Z.shiftl_spec by done.
    destruct (Z.lt_ge_cases n 4).
    + rewrite !(Z.testbit_neg_r _ (n - 4)) by lia. apply andb_false_r.
    + rewrite Z.land_spec, Z.shiftr_spec by lia. by replace (n - 4 + 4) with n by lia.
  - rewrite Z.land_ones, Z.shiftl_mul_pow2, Z.shiftr_div_pow2 by lia. apply Z.mul_comm.
Qed.

Lemma tick_wrap g : tick (u32 g) = tick g.
Proof.
  unfold tick, wrap. f_equal.
  change (2 ^ 32) with (16 * 2 ^ 28).
  rewrite Z.rem_mul_r by lia.
  rewrite (Z.add_comm (g mod 16)), Z.mul_comm, Z.div_add_l by lia.
  rewrite (Z.div_small (g mod 16)) by (apply Z.mod_pos_bound; lia).
  rewrite Z.add_0_r. apply Z.mod_mod. lia.
Qed.

Lemma token_of_wrap g : token_of (u32 g) = tick g.
Proof. unfold token_of. by rewrite land_ticket_mask, tick_wrap. Qed.

Lemma tick_range g : 0 <= tick g <= 2 ^ 32 - 16.
Proof. unfold tick. pose proof (Z.mod_pos_bound (g / 16) (2 ^ 28)). lia. Qed.

(** Two tickets served by one slot have different tokens while they are less
    than [2^32] apart. *)
Lemma tick_inj size g h :
  (16 | size) -> g mod size = h mod size -> 0 < size -> Z.abs (g - h) < 2 ^ 32 ->
  tick g = tick h -> g = h.
Proof.
  intros [q ->] Hm Hs Hd Ht. unfold tick in Ht.
  assert (g mod 16 = h mod 16) as H16.
  { rewrite Z.mul_comm in Hm. rewrite !Z.rem_mul_r in Hm by lia.
    pose proof (Z.mod_pos_bound g 16). pose proof (Z.mod_pos_bound h 16). lia. }
  pose proof (Z.div_mod g 16 ltac:(lia)). pose proof (Z.div_mod h 16 ltac:(lia)).
  assert (g / 16 = h / 16); [|lia].
  apply (wrap_inj 28); [lia|lia|]. unfold wrap. lia.
Qed.

Lemma tick_next size g : (16 | size) -> tick (g + size) = u32 (tick g + size).
Proof.
  intros [q ->]. unfold tick, wrap. rewrite Z.div_add by lia.
  change (2 ^ 32) with (16 * 2 ^ 28).
  replace (16 * ((g / 16) mod 2 ^ 28) + q * 16) with (16 * ((g / 16) mod 2 ^ 28 + q)) by ring.
  by rewrite Z.mul_mod_distr_l, Zplus_mod_idemp_l by lia.
Qed.

Lemma next_token_tick mask g :
  (16 | mask + 1) -> next_token mask (tick g) = tick (g + (mask + 1)).
Proof.
  intros H. unfold next_token. rewrite tick_next by done.
  rewrite wrap_add_l. f_equal. lia.
Qed.

(** The next round has another token: a ring holds fewer than [2^32] slots. *)
Lemma tick_next_neq size g :
  (16 | size) -> 0 < size < 2 ^ 32 -> tick (g + size) <> tick g.
Proof.
  intros Hd Hs E. apply (tick_inj size) in E; [lia|done| |lia|lia].
  rewrite <- (Z.mul_1_l size) at 1. apply Z_mod_plus_full.
Qed.

(** ** Flags do not disturb tickets and statuses *)

Lemma tick_lor t f : Z.land f ticket_mask = 0 -> tick (Z.lor t f) = tick t.
Proof.
  intros Hf. rewrite <- !land_ticket_mask, Z.land_lor_distr_l, Hf. apply Z.lor_0_r.
Qed.

Lemma status_lor t f : Z.land f status_mask = 0 -> status_of (Z.lor t f) = status_of t.
Proof.
  intros Hf. unfold status_of. rewrite Z.land_lor_distr_l, Hf. apply Z.lor_0_r.
Qed.

Lemma tick_tick g : tick (tick g) = tick g.
Proof. by rewrite <- !land_ticket_mask, <- Z.land_assoc, Z.land_diag. Qed.

Lemma land_tick g f : Z.land ticket_mask f = 0 -> Z.land (tick g) f = 0.
Proof.
  intros Hf. rewrite <- land_ticket_mask, <- Z.land_assoc, Hf. apply Z.land_0_r.
Qed.

Lemma status_tick g : status_of (tick g) = 0.
Proof. by apply land_tick. Qed.

Lemma status_lor_tick g s :
  status_of (Z.lor (tick g) s) = Z.land s status_mask.
Proof.
  unfold status_of. rewrite Z.land_lor_distr_l.
  change (Z.land (tick g) status_mask) with (status_of (tick g)).
  by rewrite status_tick, Z.lor_0_l.
Qed.

Lemma add_valid_lor g : u32 (tick g + status_valid) = Z.lor (tick g) status_valid.
Proof.
  pose proof (tick_range g). rewrite wrap_small by (unfold status_valid; lia).
  assert (Z.land (tick g) status_valid = 0) as Hl by by apply land_tick.
  rewrite Z.add_nocarry_lxor by done. by apply Z.lxor_lor.
Qed.

Lemma put_token_tick tr k g : put_token tr k (tick g) = Z.lor (tick g) status_valid.
Proof.
  unfold put_token. destruct k; [|done].
  destruct (nothrow_copy tr); [apply add_valid_lor|done].
Qed.

(** All overloads of put_value publish the same token: the noexcept copy
    overload, which adds the valid flag to the ticket, agrees with the others,
    which or it in. *)
Theorem put_token_uniform tr k g :
  put_token tr k (token_of (u32 g)) = Z.lor (token_of (u32 g)) status_valid.
Proof. rewrite token_of_wrap. apply put_token_tick. Qed.

(** The status of a token is 0, 1, 2 or 3, and its valid bit is its parity. *)
Lemma valid_bit t : Z.land t status_valid = status_of t mod 2.
Proof.
  unfold status_of. change status_valid with (Z.ones 1). change status_mask with (Z.ones 2).
  rewrite !Z.land_ones by lia. change (2 ^ 2) with (2 * 2).
  rewrite Z.rem_mul_r by lia. change (2 ^ 1) with 2.
  rewrite Z.mul_comm, Z_mod_plus_full. symmetry. apply Z.mod_mod. lia.
Qed.
