(* ===== verification/BqTickets.v ===== *)
(** * The ring as a machine on tickets

    An abstract machine between the channel specification and the ring: slots
    know the (unbounded) ticket they serve and what they hold, threads are in
    the role of a producer or consumer of one ticket, and every step of the
    protocol is one rule.  Words, tokens, flags and blocking are gone.  The
    invariant of the protocol is proved here. *)

From stdpp Require Import gmap functions.
From S2P Require Import Prelude BqRing.
Local Open Scope Z_scope.

Inductive holds : Type := h_none | h_valid | h_invalid.

#[global] Instance holds_eq_dec : EqDecision holds.
Proof. solve_decision. Defined.

Definition held (ok : bool) : holds := if ok then h_valid else h_invalid.

Section tickets.
Context {V : Type} (size : Z).

Record aslot : Type := ASlot { a_pos : Z; a_st : holds; a_val : V }.

Inductive pstage : Type := p_searching | p_writing | p_publishing (ok : bool).

Inductive cstage : Type :=
| c_searching | c_matched | c_reading (ok : bool) | c_releasing (o : option V).

Inductive role : Type :=
| r_none
| r_prod (g : Z) (v : V) (st : pstage)
| r_cons (g : Z) (st : cstage).

Record astate : Type := AState {
  a_slots : Z -> aslot;
  a_head : Z;
  a_tail : Z;
  a_cells : gmap Z (cell V);
  a_limit : option Z;
  a_roles : nat -> role;
}.

(** The index of the slot of ticket [g]. *)
Definition res (g : Z) : Z := g mod size.

Definition slot_of (a : astate) (g : Z) : aslot := a_slots a (res g).

Definition with_role (a : astate) (t : nat) (r : role) : astate :=
  AState (a_slots a) (a_head a) (a_tail a) (a_cells a) (a_limit a) (<[t := r]> (a_roles a)).
Definition with_slot (a : astate) (g : Z) (sl : aslot) : astate :=
  AState (<[res g := sl]> (a_slots a)) (a_head a) (a_tail a) (a_cells a) (a_limit a) (a_roles a).
Definition with_cell (a : astate) (g : Z) (c : cell V) : astate :=
  AState (a_slots a) (a_head a) (a_tail a) (<[g := c]> (a_cells a)) (a_limit a) (a_roles a).

Definition put_cell (ok : bool) (v : V) : cell V := if ok then Full v else Void.
Definition got_cell (o : option V) : cell V :=
  match o with Some v => Taken v | None => Dropped end.

Inductive astep (a : astate) : astate -> Prop :=
| as_push_ticket t v :
    a_roles a t = r_none ->
    astep a (with_role (AState (a_slots a) (a_head a) (a_tail a + 1) (a_cells a) (a_limit a) (a_roles a))
               t (r_prod (a_tail a) v p_searching))
| as_push_match t g v :
    a_roles a t = r_prod g v p_searching -> a_pos (slot_of a g) = g ->
    astep a (with_role a t (r_prod g v p_writing))
| as_put t g v ok v' :
    a_roles a t = r_prod g v p_writing -> (ok = true -> v' = v) ->
    astep a (with_role (with_cell (with_slot a g (ASlot g (a_st (slot_of a g)) v')) g (put_cell ok v))
               t (r_prod g v (p_publishing ok)))
| as_publish t g v ok :
    a_roles a t = r_prod g v (p_publishing ok) ->
    astep a (with_role (with_slot a g (ASlot g (held ok) (a_val (slot_of a g)))) t r_none)
| as_push_refused t g v l :
    a_roles a t = r_prod g v p_searching -> a_limit a = Some l -> l <= g ->
    astep a (with_role a t r_none)
| as_pop_ticket t :
    a_roles a t = r_none ->
    astep a (with_role (AState (a_slots a) (a_head a + 1) (a_tail a) (a_cells a) (a_limit a) (a_roles a))
               t (r_cons (a_head a) c_searching))
| as_pop_match t g :
    a_roles a t = r_cons g c_searching -> a_pos (slot_of a g) = g ->
    astep a (with_role a t (r_cons g c_matched))
| as_pop_ready t g ok :
    a_roles a t = r_cons g c_matched -> a_st (slot_of a g) = held ok ->
    astep a (with_role a t (r_cons g (c_reading ok)))
| as_get t g ok o v' :
    a_roles a t = r_cons g (c_reading ok) ->
    (forall v, o = Some v -> ok = true /\ v = a_val (slot_of a g)) ->
    astep a (with_role (with_cell (with_slot a g (ASlot g (a_st (slot_of a g)) v')) g (got_cell o))
               t (r_cons g (c_releasing o)))
| as_release t g o :
    a_roles a t = r_cons g (c_releasing o) ->
    astep a (with_role (with_slot a g (ASlot (g + size) h_none (a_val (slot_of a g)))) t r_none)
| as_pop_refused t g st l :
    a_roles a t = r_cons g st -> st = c_searching \/ st = c_matched ->
    a_limit a = Some l -> l <= g ->
    astep a (with_role a t r_none)
| as_try_pop t ok :
    a_roles a t = r_none -> a_pos (slot_of a (a_head a)) = a_head a ->
    a_st (slot_of a (a_head a)) = held ok ->
    astep a (with_role (AState (a_slots a) (a_head a + 1) (a_tail a) (a_cells a) (a_limit a) (a_roles a))
               t (r_cons (a_head a) (c_reading ok)))
| as_close :
    a_limit a = None ->
    astep a (AState (a_slots a) (a_head a) (a_tail a + size) (a_cells a) (Some (a_tail a)) (a_roles a)).

(** ** The invariant *)

(** The ticket is finished with. *)
Definition settled (o : option (cell V)) : Prop :=
  match o with Some (Taken _) | Some Dropped => True | _ => False end.

(** What a slot holds agrees with the fate of the ticket it serves. *)
Definition st_ok (h : holds) (o : option (cell V)) (v : V) : Prop :=
  match h with
  | h_none => ~ settled o
  | h_valid => o = Some (Full v) \/ settled o
  | h_invalid => o = Some Void \/ settled o
  end.

(** Tickets from the limit on will never be served. *)
Definition below (limit : option Z) (c : Z) : Prop := forall l, limit = Some l -> c < l.

Definition bound (a : astate) : Z := default (a_tail a) (a_limit a).

Record inv_slots (a : astate) : Prop := {
  is_res i : 0 <= i < size -> res (a_pos (a_slots a i)) = i /\ 0 <= a_pos (a_slots a i);
  is_past c : 0 <= c < a_pos (slot_of a c) -> settled (a_cells a !! c);
  is_future c : a_pos (slot_of a c) < c -> a_cells a !! c = None;
  is_now c : 0 <= c -> a_pos (slot_of a c) = c ->
             st_ok (a_st (slot_of a c)) (a_cells a !! c) (a_val (slot_of a c));
  is_bound i : 0 <= i < size -> a_pos (a_slots a i) < bound a + size;
}.

Record inv_counts (a : astate) : Prop := {
  ic_head : 0 <= a_head a;
  ic_tail : 0 <= a_tail a;
  ic_limit l : a_limit a = Some l -> 0 <= l /\ l + size <= a_tail a;
  ic_cells c x : a_cells a !! c = Some x -> 0 <= c < a_tail a /\ below (a_limit a) c;
  ic_settled c : settled (a_cells a !! c) -> c < a_head a;
}.

Definition producer_ok (a : astate) (g : Z) (v : V) (st : pstage) : Prop :=
  0 <= g < a_tail a /\
  (forall l, a_limit a = Some l -> g < l \/ l + size <= g) /\
  match st with
  | p_searching => a_cells a !! g = None
  | p_writing => a_cells a !! g = None /\ a_pos (slot_of a g) = g
  | p_publishing ok =>
      a_cells a !! g = Some (put_cell ok v) /\ a_pos (slot_of a g) = g /\
      a_st (slot_of a g) = h_none /\ (ok = true -> a_val (slot_of a g) = v)
  end.

Definition consumer_ok (a : astate) (g : Z) (st : cstage) : Prop :=
  0 <= g < a_head a /\
  match st with
  | c_searching => ~ settled (a_cells a !! g)
  | c_matched => ~ settled (a_cells a !! g) /\ a_pos (slot_of a g) = g
  | c_reading ok =>
      ~ settled (a_cells a !! g) /\ a_pos (slot_of a g) = g /\ a_st (slot_of a g) = held ok
  | c_releasing o =>
      a_cells a !! g = Some (got_cell o) /\ a_pos (slot_of a g) = g /\
      a_st (slot_of a g) <> h_none
  end.

Definition produces (a : astate) (t : nat) (g : Z) : Prop :=
  exists v st, a_roles a t = r_prod g v st.
Definition consumes (a : astate) (t : nat) (g : Z) : Prop :=
  exists st, a_roles a t = r_cons g st.

Record inv_roles (a : astate) : Prop := {
  ir_prod t g v st : a_roles a t = r_prod g v st -> producer_ok a g v st;
  ir_cons t g st : a_roles a t = r_cons g st -> consumer_ok a g st;
  ir_prod_inj t u g : produces a t g -> produces a u g -> t = u;
  ir_cons_inj t u g : consumes a t g -> consumes a u g -> t = u;
}.

(** Nothing has been published for the ticket yet. *)
Definition unfilled (a : astate) (c : Z) : Prop :=
  a_pos (slot_of a c) < c \/ (a_pos (slot_of a c) = c /\ a_st (slot_of a c) = h_none).
(** The slot of the ticket has not been released to the next round yet. *)
Definition unreleased (a : astate) (c : Z) : Prop := a_pos (slot_of a c) <= c.

(** Every ticket that is neither finished nor refused has its thread. *)
Record inv_served (a : astate) : Prop := {
  iv_prod c : 0 <= c < a_tail a -> below (a_limit a) c -> unfilled a c ->
              exists t, produces a t c;
  iv_cons c : 0 <= c < a_head a -> below (a_limit a) c -> unreleased a c ->
              exists t, consumes a t c;
}.

Record ainv (a : astate) : Prop := {
  ai_slots : inv_slots a;
  ai_counts : inv_counts a;
  ai_roles : inv_roles a;
  ai_served : inv_served a;
}.

(** ** Preservation *)

Context (Hsize : 0 < size).

Lemma res_range g : 0 <= res g < size.
Proof. apply Z.mod_pos_bound. lia. Qed.

Lemma res_res g : res (res g) = res g.
Proof. apply Z.mod_mod. lia. Qed.

Lemma res_next g : res (g + size) = res g.
Proof. unfold res. rewrite <- (Z.mul_1_l size) at 1. apply Z_mod_plus_full. Qed.

(** Two tickets of one slot differ by at least the size of the ring. *)
Lemma res_gap c g : res c = res g -> c < g + size -> c <= g.
Proof.
  unfold res. intros E H.
  pose proof (Z.div_mod c size ltac:(lia)). pose proof (Z.div_mod g size ltac:(lia)).
  assert (c / size <= g / size) by nia. nia.
Qed.

Lemma slot_of_with_slot a g sl c :
  slot_of (with_slot a g sl) c = if decide (res c = res g) then sl else slot_of a c.
Proof.
  unfold slot_of, with_slot. simpl. case_decide as E.
  - rewrite E. apply fn_lookup_insert.
  - by apply fn_lookup_insert_ne.
Qed.

Lemma roles_insert (f : nat -> role) t r u :
  (<[t := r]> f) u = if decide (u = t) then r else f u.
Proof.
  case_decide; [subst; apply fn_lookup_insert|]. by apply fn_lookup_insert_ne.
Qed.

Lemma slot_res a c : inv_slots a -> res (a_pos (slot_of a c)) = res c.
Proof. intros H. apply (is_res _ H), res_range. Qed.

(** A slot whose ticket has no fate yet holds nothing. *)
Lemma fresh_holds_none a g :
  inv_slots a -> 0 <= g -> a_pos (slot_of a g) = g -> a_cells a !! g = None ->
  a_st (slot_of a g) = h_none.
Proof.
  intros H Hg Hp Hc. pose proof (is_now _ H g Hg Hp) as Hn. rewrite Hc in Hn.
  destruct (a_st (slot_of a g)); simpl in Hn; [done|destruct Hn; done..].
Qed.

(** Replacing the slot of [g], and the fate of [g], where the slot served
    [g] and serves it still. *)
Lemma inv_slots_update a g sl (x : option (cell V)) a' :
  inv_slots a -> 0 <= g -> a_pos (slot_of a g) = g -> a_pos sl = g ->
  (forall c, slot_of a' c = if decide (res c = res g) then sl else slot_of a c) ->
  (forall i, 0 <= i < size -> a_slots a' i = slot_of a' i) ->
  (forall c, a_cells a' !! c = if decide (c = g) then x else a_cells a !! c) ->
  st_ok (a_st sl) x (a_val sl) ->
  bound a <= bound a' ->
  inv_slots a'.
Proof.
  intros H Hg Hp Hsl Hs Hi Hc Hok Hb.
  assert (forall c, a_pos (slot_of a' c) = a_pos (slot_of a c)) as Hpos.
  { intros c. rewrite Hs. case_decide as E; [|done].
    rewrite Hsl. unfold slot_of. rewrite E. by symmetry. }
  assert (forall i, 0 <= i < size -> slot_of a i = a_slots a i) as Hi'.
  { intros i Hr. unfold slot_of, res. by rewrite Z.mod_small. }
  split.
  - intros i Hr. rewrite Hi, Hpos, Hi' by done. by apply (is_res _ H).
  - intros c. rewrite Hpos, Hc. case_decide; [subst c; lia|]. apply (is_past _ H).
  - intros c. rewrite Hpos, Hc. case_decide; [subst c; lia|]. apply (is_future _ H).
  - intros c H0. rewrite Hpos, Hc, Hs. intros E. destruct (decide (c = g)) as [E1|E1].
    + rewrite E1, decide_True; done.
    + rewrite decide_False; [by apply (is_now _ H)|].
      intros E2. apply E1. rewrite <- E. unfold slot_of. by rewrite E2.
  - intros i Hr. rewrite Hi, Hpos, Hi' by done. pose proof (is_bound _ H i Hr). lia.
Qed.

(** The slot moves on to the next round. *)
Lemma inv_slots_release a g v :
  inv_slots a -> inv_counts a -> 0 <= g -> a_pos (slot_of a g) = g ->
  settled (a_cells a !! g) ->
  inv_slots (with_slot a g (ASlot (g + size) h_none v)).
Proof.
  intros H Hcnt Hg Hp Hset.
  assert (forall c, res c = res g -> a_pos (slot_of a c) = g) as Hpos.
  { intros c E. unfold slot_of. by rewrite E. }
  split.
  - intros i Hr. unfold with_slot. simpl.
    destruct (decide (i = res g)) as [->|]; [rewrite fn_lookup_insert|
      rewrite fn_lookup_insert_ne by done; by apply (is_res _ H)].
    simpl. rewrite res_next. lia.
  - intros c. rewrite slot_of_with_slot. case_decide as E; simpl; [|apply (is_past _ H)].
    intros Hc. apply res_gap in E as Hle; [|lia].
    destruct (decide (c = g)) as [->|]; [done|].
    apply (is_past _ H). rewrite (Hpos c E). lia.
  - intros c. rewrite slot_of_with_slot. case_decide as E; simpl; [|apply (is_future _ H)].
    intros Hc. apply (is_future _ H). rewrite (Hpos c E). lia.
  - intros c H0. rewrite slot_of_with_slot. case_decide as E; simpl; [|by apply (is_now _ H)].
    intros <-. rewrite (is_future _ H); [tauto|]. rewrite (Hpos _ E). lia.
  - intros i Hr. unfold with_slot, bound. simpl.
    destruct (decide (i = res g)) as [->|]; [rewrite fn_lookup_insert|
      rewrite fn_lookup_insert_ne by done; by apply (is_bound _ H)].
    simpl. destruct (a_cells a !! g) as [x|] eqn:E; [|done].
    destruct (ic_cells _ Hcnt _ _ E) as [? Hl]. unfold below in Hl.
    destruct (a_limit a); simpl; [|lia]. specialize (Hl _ eq_refl). lia.
Qed.

(** *** Roles *)

Lemma inv_roles_update a a' t r :
  inv_roles a ->
  (forall u, a_roles a' u = if decide (u = t) then r else a_roles a u) ->
  (forall u g v st, u <> t -> a_roles a u = r_prod g v st ->
     producer_ok a g v st -> producer_ok a' g v st) ->
  (forall u g st, u <> t -> a_roles a u = r_cons g st ->
     consumer_ok a g st -> consumer_ok a' g st) ->
  (forall g v st, r = r_prod g v st ->
     producer_ok a' g v st /\ forall u, u <> t -> ~ produces a u g) ->
  (forall g st, r = r_cons g st ->
     consumer_ok a' g st /\ forall u, u <> t -> ~ consumes a u g) ->
  inv_roles a'.
Proof.
  intros H Hr Hp Hc Hnp Hnc. split.
  - intros u g v st. rewrite Hr. case_decide; [intros; by apply Hnp|].
    intros E. eapply Hp; eauto. by eapply ir_prod.
  - intros u g st. rewrite Hr. case_decide; [intros; by apply Hnc|].
    intros E. eapply Hc; eauto. by eapply ir_cons.
  - intros u1 u2 g [v1 [st1 E1]] [v2 [st2 E2]]. rewrite Hr in E1, E2.
    destruct (decide (u1 = t)), (decide (u2 = t)); subst; try done.
    + destruct (Hnp _ _ _ eq_refl) as [_ Hd]. edestruct Hd; [done|]. by do 2 eexists.
    + destruct (Hnp _ _ _ eq_refl) as [_ Hd]. edestruct Hd; [done|]. by do 2 eexists.
    + eapply (ir_prod_inj _ H); by do 2 eexists.
  - intros u1 u2 g [st1 E1] [st2 E2]. rewrite Hr in E1, E2.
    destruct (decide (u1 = t)), (decide (u2 = t)); subst; try done.
    + destruct (Hnc _ _ eq_refl) as [_ Hd]. edestruct Hd; [done|]. by eexists.
    + destruct (Hnc _ _ eq_refl) as [_ Hd]. edestruct Hd; [done|]. by eexists.
    + eapply (ir_cons_inj _ H); by eexists.
Qed.

Lemma inv_served_update a a' t r :
  inv_served a ->
  (forall u, a_roles a' u = if decide (u = t) then r else a_roles a u) ->
  (forall c, 0 <= c < a_tail a' -> below (a_limit a') c -> unfilled a' c ->
     (exists v st, r = r_prod c v st) \/
     (0 <= c < a_tail a /\ below (a_limit a) c /\ unfilled a c /\ ~ produces a t c)) ->
  (forall c, 0 <= c < a_head a' -> below (a_limit a') c -> unreleased a' c ->
     (exists st, r = r_cons c st) \/
     (0 <= c < a_head a /\ below (a_limit a) c /\ unreleased a c /\ ~ consumes a t c)) ->
  inv_served a'.
Proof.
  intros H Hr Hp Hc. split; intros c H1 H2 H3.
  - destruct (Hp c H1 H2 H3) as [(v & st & ->)|(A & B & C & D)].
    + exists t. exists v, st. by rewrite Hr, decide_True.
    + destruct (iv_prod _ H c A B C) as [u Hu]. exists u.
      unfold produces. rewrite Hr, decide_False; [done|]. by intros ->.
  - destruct (Hc c H1 H2 H3) as [(st & ->)|(A & B & C & D)].
    + exists t. exists st. by rewrite Hr, decide_True.
    + destruct (iv_cons _ H c A B C) as [u Hu]. exists u.
      unfold consumes. rewrite Hr, decide_False; [done|]. by intros ->.
Qed.

(** Other tickets do not notice an update of the slot and the fate of [g]. *)
Section frame.
Context (a a' : astate) (g : Z) (sl : aslot) (x : option (cell V)).
Context (Hg : a_pos (slot_of a g) = g).
Context (Hs : forall c, slot_of a' c = if decide (res c = res g) then sl else slot_of a c).
Context (Hx : forall c, a_cells a' !! c = if decide (c = g) then x else a_cells a !! c).

Lemma frame_slot g' : g' <> g -> a_pos (slot_of a g') = g' -> slot_of a' g' = slot_of a g'.
Proof.
  intros Hne Hp. rewrite Hs. case_decide as E; [|done].
  destruct Hne. rewrite <- Hp, <- Hg. unfold slot_of. by rewrite E.
Qed.

Lemma frame_pos c : a_pos sl = g -> a_pos (slot_of a' c) = a_pos (slot_of a c).
Proof.
  intros Hsl. rewrite Hs. case_decide as E; [|done].
  rewrite Hsl, <- Hg at 1. unfold slot_of. by rewrite E.
Qed.

(** The slot serves [g] as before. *)
Lemma unfilled_frame c : a_pos sl = g -> c <> g -> unfilled a' c -> unfilled a c.
Proof.
  intros Hsl Hne. unfold unfilled. rewrite frame_pos by done.
  intros [?|[Hp ?]]; [by left|right]. by rewrite frame_slot in * by done.
Qed.

Lemma unreleased_frame c : a_pos sl = g -> unreleased a' c -> unreleased a c.
Proof. intros Hsl. unfold unreleased. by rewrite frame_pos. Qed.

(** The slot moves on to a later round. *)
Lemma frame_later c : 0 <= g -> g < a_pos sl -> a_pos (slot_of a' c) <= c -> c <> g /\
  (a_pos (slot_of a c) < c \/ slot_of a' c = slot_of a c).
Proof.
  intros H0 Hsl. rewrite Hs. case_decide as E; [|intros Hle].
  - intros Hle. split; [lia|]. left. unfold slot_of in *. rewrite E, Hg. lia.
  - split; [|by right]. by intros ->.
Qed.

Lemma producer_frame g' v st :
  g' <> g -> a_tail a' = a_tail a -> a_limit a' = a_limit a ->
  producer_ok a g' v st -> producer_ok a' g' v st.
Proof.
  unfold producer_ok. intros Hne -> -> (Hr & Hl & Hst). do 2 (split; [done|]).
  rewrite Hx, decide_False by done.
  destruct st; [done| |]; destruct_and!; rewrite frame_slot by done; auto.
Qed.

Lemma consumer_frame g' st :
  g' <> g -> a_head a' = a_head a -> consumer_ok a g' st -> consumer_ok a' g' st.
Proof.
  unfold consumer_ok. intros Hne -> (Hr & Hst). split; [done|].
  rewrite Hx, decide_False by done.
  destruct st; [done| | |]; destruct_and!; rewrite frame_slot by done; auto.
Qed.
End frame.

(** A thread keeps its ticket to itself. *)
Lemma prod_exclusive a t u g v st :
  inv_roles a -> a_roles a t = r_prod g v st -> u <> t -> ~ produces a u g.
Proof. intros H Ht Hu Hp. apply Hu. eapply (ir_prod_inj _ H); [done|]. by do 2 eexists. Qed.

Lemma cons_exclusive a t u g st :
  inv_roles a -> a_roles a t = r_cons g st -> u <> t -> ~ consumes a u g.
Proof. intros H Ht Hu Hp. apply Hu. eapply (ir_cons_inj _ H); [done|]. by eexists. Qed.

(** A ticket that the moving thread does not hold is served as before. *)
Ltac served_same :=
  right; split; [simpl in *; lia|]; do 2 (split; [done|]);
  first [intros (? & ? & ?); congruence | intros (? & ?); congruence].

(** *** The rules that only change a role *)

Lemma inv_slots_role a t r : inv_slots a -> inv_slots (with_role a t r).
Proof. by intros []; split. Qed.

Lemma inv_counts_role a t r : inv_counts a -> inv_counts (with_role a t r).
Proof. by intros []; split. Qed.

Lemma roles_with_role a t r u :
  a_roles (with_role a t r) u = if decide (u = t) then r else a_roles a u.
Proof. apply roles_insert. Qed.

(** A producer that keeps its ticket, or whose ticket is refused. *)
Lemma ainv_role_prod a t g v st r :
  ainv a -> a_roles a t = r_prod g v st ->
  (exists st', r = r_prod g v st' /\ producer_ok a g v st') \/
  (r = r_none /\ exists l, a_limit a = Some l /\ l <= g) ->
  ainv (with_role a t r).
Proof.
  intros [Hs Hc Hr Hv] Ht Hnew. split; [by apply inv_slots_role|by apply inv_counts_role| |].
  - apply (inv_roles_update a _ t r); [done|apply roles_with_role|done|done| |].
    + intros g' v' st' ->. destruct Hnew as [(st1 & [= -> -> ->] & Hok)|[? _]]; [|done].
      split; [done|]. intros u Hu. by eapply prod_exclusive.
    + intros g' st' ->. by destruct Hnew as [(? & ? & _)|[? _]].
  - apply (inv_served_update a _ t r); [done|apply roles_with_role| |].
    + intros c H1 H2 H3. destruct (decide (c = g)) as [->|Hne].
      * destruct Hnew as [(st' & -> & _)|(-> & l & Hl & Hle)]; [left; by do 2 eexists|].
        specialize (H2 l Hl). simpl in *. lia.
      * served_same.
    + intros c H1 H2 H3. served_same.
Qed.

Lemma ainv_role_cons a t g st r :
  ainv a -> a_roles a t = r_cons g st ->
  (exists st', r = r_cons g st' /\ consumer_ok a g st') \/
  (r = r_none /\ exists l, a_limit a = Some l /\ l <= g) ->
  ainv (with_role a t r).
Proof.
  intros [Hs Hc Hr Hv] Ht Hnew. split; [by apply inv_slots_role|by apply inv_counts_role| |].
  - apply (inv_roles_update a _ t r); [done|apply roles_with_role|done|done| |].
    + intros g' v' st' ->. by destruct Hnew as [(? & ? & _)|[? _]].
    + intros g' st' ->. destruct Hnew as [(st1 & [= -> ->] & Hok)|[? _]]; [|done].
      split; [done|]. intros u Hu. by eapply cons_exclusive.
  - apply (inv_served_update a _ t r); [done|apply roles_with_role| |].
    + intros c H1 H2 H3. served_same.
    + intros c H1 H2 H3. destruct (decide (c = g)) as [->|Hne].
      * destruct Hnew as [(st' & -> & _)|(-> & l & Hl & Hle)]; [left; by eexists|].
        specialize (H2 l Hl). simpl in *. lia.
      * served_same.
Qed.

(** *** The rules that hand out a ticket *)

Lemma ainv_push_ticket a t v :
  ainv a -> a_roles a t = r_none ->
  ainv (with_role (AState (a_slots a) (a_head a) (a_tail a + 1) (a_cells a) (a_limit a) (a_roles a))
          t (r_prod (a_tail a) v p_searching)).
Proof.
  intros [Hs Hc Hr Hv] Ht. split.
  - destruct Hs as [H1 H2 H3 H4 H5]. split; try done.
    intros i Hi. specialize (H5 i Hi). unfold bound in *. simpl.
    destruct (a_limit a); simpl in *; lia.
  - destruct Hc as [H1 H2 H3 H4 H5]. split; simpl; try done; try lia.
    + intros l Hl. specialize (H3 l Hl). lia.
    + intros c x Hx. destruct (H4 c x Hx). split; [lia|done].
  - eapply (inv_roles_update a _ t); [done|intros u; apply roles_insert| |done| |done].
    + intros u g v' st _ _ (? & ? & ?). split; [simpl; lia|done].
    + intros g v' st [= <- <- <-]. split.
      * split; [simpl; pose proof (ic_tail _ Hc); lia|]. split; simpl.
        { intros l Hl. right. apply (ic_limit _ Hc l Hl). }
        { destruct (a_cells a !! a_tail a) eqn:E; [|done].
          destruct (ic_cells _ Hc _ _ E). lia. }
      * intros u _ (v1 & st & E). apply (ir_prod _ Hr) in E as [? _]. lia.
  - eapply (inv_served_update a _ t); [done|intros u; apply roles_insert| |].
    + simpl. intros c H1 H2 H3. destruct (decide (c = a_tail a)) as [->|]; [left; by do 2 eexists|].
      served_same.
    + intros c H1 H2 H3. served_same.
Qed.

Lemma ainv_pop_ticket a t st :
  ainv a -> a_roles a t = r_none ->
  st = c_searching \/
    (exists ok, st = c_reading ok /\ a_pos (slot_of a (a_head a)) = a_head a /\
                a_st (slot_of a (a_head a)) = held ok) ->
  ainv (with_role (AState (a_slots a) (a_head a + 1) (a_tail a) (a_cells a) (a_limit a) (a_roles a))
          t (r_cons (a_head a) st)).
Proof.
  intros [Hs Hc Hr Hv] Ht Hst. split.
  - by destruct Hs; split.
  - destruct Hc as [H1 H2 H3 H4 H5]. split; simpl; try done; try lia.
    intros c Hset. specialize (H5 c Hset). lia.
  - eapply (inv_roles_update a _ t); [done|intros u; apply roles_insert|done| |done|].
    + intros u g st' _ _ (? & ?). split; [simpl; lia|done].
    + intros g st' [= <- <-].
      assert (~ settled (a_cells a !! a_head a)) as Hns.
      { intros Hset. apply (ic_settled _ Hc) in Hset. lia. }
      split.
      * split; [simpl; pose proof (ic_head _ Hc); lia|].
        by destruct Hst as [->|(ok & -> & ? & ?)].
      * intros u _ (st1 & E). apply (ir_cons _ Hr) in E as [? _]. lia.
  - eapply (inv_served_update a _ t); [done|intros u; apply roles_insert| |].
    + intros c H1 H2 H3. served_same.
    + simpl. intros c H1 H2 H3. destruct (decide (c = a_head a)) as [->|]; [left; by eexists|].
      served_same.
Qed.

(** *** The rules that change a slot *)

Lemma cells_insert (m : gmap Z (cell V)) g x c :
  <[g := x]> m !! c = if decide (c = g) then Some x else m !! c.
Proof. rewrite lookup_insert. repeat case_decide; congruence. Qed.

Lemma in_range_slot (a : astate) i : 0 <= i < size -> a_slots a i = slot_of a i.
Proof. intros Hi. unfold slot_of, res. by rewrite Z.mod_small. Qed.

(** Giving ticket [g] a fate. *)
Lemma inv_counts_cell a a' g x :
  inv_counts a -> 0 <= g < a_tail a -> below (a_limit a) g -> g < a_head a \/ ~ settled (Some x) ->
  a_head a' = a_head a -> a_tail a' = a_tail a -> a_limit a' = a_limit a ->
  a_cells a' = <[g := x]> (a_cells a) -> inv_counts a'.
Proof.
  intros [H1 H2 H3 H4 H5] Hg Hb Hset Eh Et El Ec.
  split; rewrite ?Eh, ?Et, ?El, ?Ec; try done.
  - intros c y. rewrite cells_insert. case_decide; [by intros _; subst c|apply H4].
  - intros c. rewrite cells_insert. case_decide; [|apply H5]. subst c. tauto.
Qed.

(** A producer that has found its slot is below the limit. *)
Lemma found_below a g v st :
  inv_slots a -> producer_ok a g v st -> a_pos (slot_of a g) = g -> below (a_limit a) g.
Proof.
  intros Hs (_ & Hl & _) Hp l E. destruct (Hl l E) as [|Hge]; [done|].
  pose proof (is_bound _ Hs (res g) (res_range g)) as Hb.
  unfold bound in Hb. rewrite E in Hb. simpl in Hb. unfold slot_of in Hp. lia.
Qed.

Lemma ainv_put a t g v ok v' :
  ainv a -> a_roles a t = r_prod g v p_writing -> (ok = true -> v' = v) ->
  ainv (with_role (with_cell (with_slot a g (ASlot g (a_st (slot_of a g)) v')) g (put_cell ok v))
          t (r_prod g v (p_publishing ok))).
Proof.
  intros [Hs Hc Hr Hv] Ht Hok. pose proof (ir_prod _ Hr _ _ _ _ Ht) as Hp.
  pose proof Hp as (Hg & Hl & Hcell & Hpos).
  assert (below (a_limit a) g) as Hbel by by eapply found_below.
  assert (a_st (slot_of a g) = h_none) as Hnone by (apply fresh_holds_none; [done|lia|done..]).
  assert (~ settled (Some (put_cell ok v))) as Hns by (destruct ok; simpl; tauto).
  rewrite Hnone. split.
  - apply (inv_slots_update a g (ASlot g h_none v') (Some (put_cell ok v))); try done; try lia.
    + intros c. apply slot_of_with_slot.
    + intros i Hi. by apply in_range_slot.
    + intros c. apply cells_insert.
  - by apply (inv_counts_cell a _ g (put_cell ok v)); auto.
  - eapply (inv_roles_update a _ t); [done|intros u; apply roles_insert| | | |done].
    + intros u g' w st Hu E. apply (producer_frame a _ g (ASlot g h_none v') (Some (put_cell ok v)));
        try done; [intros c; apply slot_of_with_slot|intros c; apply cells_insert|].
      intros ->. eapply prod_exclusive; eauto. by do 2 eexists.
    + intros u g' st Hu E (Hg' & Hst). destruct (decide (g' = g)) as [->|Hne].
      * split; [done|]. unfold slot_of. simpl. rewrite cells_insert, decide_True, fn_lookup_insert by done.
        rewrite Hcell in Hst. destruct st; destruct_and?; simpl; try done.
        by rewrite Hnone in *; destruct ok0.
      * apply (consumer_frame a _ g (ASlot g h_none v') (Some (put_cell ok v)));
          try done; [intros c; apply slot_of_with_slot|intros c; apply cells_insert].
    + intros g' w st [= <- <- <-]. split.
      * do 2 (split; [done|]). unfold slot_of. simpl.
        rewrite cells_insert, decide_True, fn_lookup_insert by done. auto.
      * intros u Hu. by eapply prod_exclusive.
  - eapply (inv_served_update a _ t); [done|intros u; apply roles_insert| |]; simpl.
    + intros c H1 H2 H3. destruct (decide (c = g)) as [->|Hne]; [left; by do 2 eexists|].
      eapply (unfilled_frame a) in H3; [served_same|done|intros c'; apply slot_of_with_slot|done..].
    + intros c H1 H2 H3.
      eapply (unreleased_frame a) in H3; [served_same|done|intros c'; apply slot_of_with_slot|done..].
Qed.

Lemma ainv_publish a t g v ok :
  ainv a -> a_roles a t = r_prod g v (p_publishing ok) ->
  ainv (with_role (with_slot a g (ASlot g (held ok) (a_val (slot_of a g)))) t r_none).
Proof.
  intros [Hs Hc Hr Hv] Ht. pose proof (ir_prod _ Hr _ _ _ _ Ht) as Hp.
  pose proof Hp as (Hg & Hl & Hcell & Hpos & Hst & Hval).
  assert (forall c, a_cells a !! c = if decide (c = g) then Some (put_cell ok v) else a_cells a !! c)
    as Hcells by (intros c; case_decide; by subst).
  split.
  - apply (inv_slots_update a g (ASlot g (held ok) (a_val (slot_of a g))) (Some (put_cell ok v)));
      try done; try lia.
    + intros c. apply slot_of_with_slot.
    + intros i Hi. by apply in_range_slot.
    + destruct ok; simpl; [rewrite Hval by done|]; auto.
  - by destruct Hc; split.
  - eapply (inv_roles_update a _ t); [done|intros u; apply roles_insert| | |done|done].
    + intros u g' w st Hu E.
      apply (producer_frame a _ g (ASlot g (held ok) (a_val (slot_of a g))) (Some (put_cell ok v)));
        try done; [intros c; apply slot_of_with_slot|].
      intros ->. eapply prod_exclusive; eauto. by do 2 eexists.
    + intros u g' st Hu E (Hg' & Hst'). destruct (decide (g' = g)) as [->|Hne].
      * split; [done|]. unfold slot_of. simpl. rewrite fn_lookup_insert.
        destruct st; destruct_and?; try done. rewrite Hst in *. by destruct ok0.
      * apply (consumer_frame a _ g (ASlot g (held ok) (a_val (slot_of a g))) (Some (put_cell ok v)));
          try done. intros c; apply slot_of_with_slot.
  - eapply (inv_served_update a _ t); [done|intros u; apply roles_insert| |]; simpl.
    + intros c H1 H2 H3. destruct (decide (c = g)) as [->|Hne].
      { unfold unfilled, slot_of in H3. simpl in H3. rewrite fn_lookup_insert in H3. simpl in H3.
        destruct H3 as [?|[_ ?]]; [lia|by destruct ok]. }
      eapply (unfilled_frame a) in H3; [served_same|done|intros c'; apply slot_of_with_slot|done..].
    + intros c H1 H2 H3.
      eapply (unreleased_frame a) in H3; [served_same|done|intros c'; apply slot_of_with_slot|done..].
Qed.

Lemma held_not_none ok : held ok <> h_none.
Proof. by destruct ok. Qed.

(** The fate of a ticket whose slot holds something that is not taken yet. *)
Lemma held_cell a g ok :
  inv_slots a -> 0 <= g -> a_pos (slot_of a g) = g -> a_st (slot_of a g) = held ok ->
  ~ settled (a_cells a !! g) ->
  a_cells a !! g = Some (put_cell ok (a_val (slot_of a g))).
Proof.
  intros Hs Hg Hp Hst Hns. pose proof (is_now _ Hs g Hg Hp) as Hn. rewrite Hst in Hn.
  destruct ok; simpl in *; tauto.
Qed.

(** No producer has the ticket of a slot that holds something. *)
Lemma held_no_producer a u g v st :
  inv_slots a -> inv_roles a -> a_roles a u = r_prod g v st ->
  a_pos (slot_of a g) = g -> a_st (slot_of a g) <> h_none -> False.
Proof.
  intros Hs Hr E Hp Hst. apply (ir_prod _ Hr) in E as (Hg & _ & Hc).
  destruct st; destruct_and?; try done; apply Hst;
    (apply fresh_holds_none; [done|lia|done|done]).
Qed.

Lemma ainv_get a t g ok o v' :
  ainv a -> a_roles a t = r_cons g (c_reading ok) ->
  ainv (with_role (with_cell (with_slot a g (ASlot g (a_st (slot_of a g)) v')) g (got_cell o))
          t (r_cons g (c_releasing o))).
Proof.
  intros [Hs Hc Hr Hv] Ht. pose proof (ir_cons _ Hr _ _ _ Ht) as (Hg & Hns & Hpos & Hst).
  pose proof (held_cell a g ok Hs (proj1 Hg) Hpos Hst Hns) as Hcell.
  destruct (ic_cells _ Hc _ _ Hcell) as [Hgt Hbel].
  assert (settled (Some (got_cell o))) as Hset by by destruct o.
  assert (a_st (slot_of a g) <> h_none) as Hnn by (rewrite Hst; apply held_not_none).
  split.
  - apply (inv_slots_update a g (ASlot g (a_st (slot_of a g)) v') (Some (got_cell o)));
      try done; try lia.
    + intros c. apply slot_of_with_slot.
    + intros i Hi. by apply in_range_slot.
    + intros c. apply cells_insert.
    + simpl. rewrite Hst. destruct ok; right; done.
  - apply (inv_counts_cell a _ g (got_cell o)); try done. left; lia.
  - eapply (inv_roles_update a _ t); [done|intros u; apply roles_insert| | |done|].
    + intros u g' w st Hu E. destruct (decide (g' = g)) as [->|Hne].
      { edestruct held_no_producer; eauto. }
      apply (producer_frame a _ g (ASlot g (a_st (slot_of a g)) v') (Some (got_cell o)));
        try done; [intros c; apply slot_of_with_slot|intros c; apply cells_insert].
    + intros u g' st Hu E.
      apply (consumer_frame a _ g (ASlot g (a_st (slot_of a g)) v') (Some (got_cell o)));
        try done; [intros c; apply slot_of_with_slot|intros c; apply cells_insert|].
      intros ->. eapply cons_exclusive; eauto. by eexists.
    + intros g' st [= <- <-]. split.
      * split; [done|]. unfold slot_of. simpl.
        by rewrite cells_insert, decide_True, fn_lookup_insert.
      * intros u Hu. by eapply cons_exclusive.
  - eapply (inv_served_update a _ t); [done|intros u; apply roles_insert| |]; simpl.
    + intros c H1 H2 H3. destruct (decide (c = g)) as [->|Hne].
      { unfold unfilled, slot_of in H3. simpl in H3. rewrite fn_lookup_insert in H3. simpl in H3.
        destruct H3 as [?|[_ ?]]; [lia|done]. }
      eapply (unfilled_frame a) in H3; [served_same|done|intros c'; apply slot_of_with_slot|done..].
    + intros c H1 H2 H3. destruct (decide (c = g)) as [->|Hne]; [left; by eexists|].
      eapply (unreleased_frame a) in H3; [served_same|done|intros c'; apply slot_of_with_slot|done..].
Qed.

Lemma unfilled_later a t r g v c :
  0 <= g -> a_pos (slot_of a g) = g ->
  unfilled (with_role (with_slot a g (ASlot (g + size) h_none v)) t r) c -> unfilled a c.
Proof.
  intros H0 Hp H.
  destruct (frame_later a (with_slot a g (ASlot (g + size) h_none v)) g
              (ASlot (g + size) h_none v) Hp (slot_of_with_slot a g _) c) as [_ [?|E]].
  - done.
  - simpl. lia.
  - unfold unfilled, slot_of in *. simpl in H. simpl. lia.
  - by left.
  - unfold unfilled in *. rewrite <- E. done.
Qed.

Lemma unreleased_later a g t r v c :
  0 <= g -> a_pos (slot_of a g) = g ->
  unreleased (with_role (with_slot a g (ASlot (g + size) h_none v)) t r) c ->
  unreleased a c /\ c <> g.
Proof.
  intros H0 Hp H.
  destruct (frame_later a (with_slot a g (ASlot (g + size) h_none v)) g
              (ASlot (g + size) h_none v) Hp (slot_of_with_slot a g _) c) as [? [?|E]];
    unfold unreleased in *; [done|simpl; lia|done|lia|].
  by rewrite <- E.
Qed.

Lemma ainv_release a t g o :
  ainv a -> a_roles a t = r_cons g (c_releasing o) ->
  ainv (with_role (with_slot a g (ASlot (g + size) h_none (a_val (slot_of a g)))) t r_none).
Proof.
  intros [Hs Hc Hr Hv] Ht. pose proof (ir_cons _ Hr _ _ _ Ht) as (Hg & Hcell & Hpos & Hst).
  assert (settled (a_cells a !! g)) as Hset by (rewrite Hcell; by destruct o).
  assert (forall c, a_cells a !! c = if decide (c = g) then Some (got_cell o) else a_cells a !! c)
    as Hcells by (intros c; case_decide; by subst).
  split.
  - apply inv_slots_role, inv_slots_release; try done; lia.
  - by destruct Hc; split.
  - eapply (inv_roles_update a _ t); [done|intros u; apply roles_insert| | |done|done].
    + intros u g' w st Hu E. destruct (decide (g' = g)) as [->|Hne].
      { edestruct held_no_producer; eauto. }
      apply (producer_frame a _ g (ASlot (g + size) h_none (a_val (slot_of a g))) (Some (got_cell o)));
        try done. intros c; apply slot_of_with_slot.
    + intros u g' st Hu E.
      apply (consumer_frame a _ g (ASlot (g + size) h_none (a_val (slot_of a g))) (Some (got_cell o)));
        try done; [intros c; apply slot_of_with_slot|].
      intros ->. eapply cons_exclusive; eauto. by eexists.
  - eapply (inv_served_update a _ t); [done|intros u; apply roles_insert| |]; simpl.
    + intros c H1 H2 H3. assert (unfilled a c) by (eapply unfilled_later; eauto; lia). served_same.
    + intros c H1 H2 H3. edestruct (unreleased_later a g) as [??]; eauto; [lia|]. served_same.
Qed.

Lemma ainv_close a :
  ainv a -> a_limit a = None ->
  ainv (AState (a_slots a) (a_head a) (a_tail a + size) (a_cells a) (Some (a_tail a)) (a_roles a)).
Proof.
  intros [Hs Hc Hr Hv] Hl. split.
  - destruct Hs as [H1 H2 H3 H4 H5]. split; try done.
    intros i Hi. specialize (H5 i Hi). unfold bound in *. by rewrite Hl in H5.
  - destruct Hc as [H1 H2 H3 H4 H5]. split; simpl; try done; try lia.
    + intros l [= <-]. lia.
    + intros c x Hx. destruct (H4 c x Hx). split; [lia|]. intros l [= <-]. simpl. lia.
  - destruct Hr as [H1 H2 H3 H4]. split; try done.
    intros t g v st E. destruct (H1 t g v st E) as (Hg & _ & Hst). split; [simpl; lia|].
    split; [|done]. simpl. intros l [= <-]. lia.
  - destruct Hv as [H1 H2]. split; simpl.
    + intros c Hc1 Hb. specialize (Hb _ eq_refl). apply H1; [lia|]. by rewrite Hl.
    + intros c Hc1 Hb. apply H2; [lia|]. by rewrite Hl.
Qed.

Lemma astep_ainv a a' : ainv a -> astep a a' -> ainv a'.
Proof.
  intros H. destruct 1.
  - by apply ainv_push_ticket.
  - eapply ainv_role_prod; eauto. left. eexists; split; [done|].
    destruct (ir_prod _ (ai_roles _ H) _ _ _ _ H0) as (? & ? & ?). done.
  - by eapply ainv_put.
  - by eapply ainv_publish.
  - eapply ainv_role_prod; eauto.
  - apply ainv_pop_ticket; auto.
  - eapply ainv_role_cons; eauto. left. eexists; split; [done|].
    destruct (ir_cons _ (ai_roles _ H) _ _ _ H0) as (? & ?). done.
  - eapply ainv_role_cons; eauto. left. eexists; split; [done|].
    destruct (ir_cons _ (ai_roles _ H) _ _ _ H0) as (? & ? & ?). done.
  - by eapply ainv_get.
  - by eapply ainv_release.
  - eapply ainv_role_cons; eauto.
  - apply ainv_pop_ticket; eauto 6.
  - by apply ainv_close.
Qed.

Lemma asteps_ainv a a' : ainv a -> rtc astep a a' -> ainv a'.
Proof. intros H. induction 1; eauto using astep_ainv. Qed.

(** The fresh ring: slot [i] serves ticket [i], nobody is inside. *)
Definition a_fresh (a : astate) : Prop :=
  (forall i, 0 <= i < size -> a_pos (a_slots a i) = i /\ a_st (a_slots a i) = h_none) /\
  a_head a = 0 /\ a_tail a = 0 /\ a_cells a = ∅ /\ a_limit a = None /\
  (forall t, a_roles a t = r_none).

Lemma ainv_fresh a : a_fresh a -> ainv a.
Proof.
  intros (Hs & Hh & Ht & Hc & Hl & Hr). split; split; rewrite ?Hh, ?Ht, ?Hl; try done; try lia.
  - intros i Hi. rewrite (proj1 (Hs i Hi)). unfold res. rewrite Z.mod_small; lia.
  - intros c Hlt. pose proof (res_range c). unfold slot_of in Hlt.
    rewrite (proj1 (Hs _ (res_range c))) in Hlt. unfold res in Hlt.
    pose proof (Z.mod_le c size). lia.
  - intros c _. by rewrite Hc.
  - intros c H0 E. rewrite Hc. unfold slot_of. rewrite (proj2 (Hs _ (res_range c))).
    simpl. rewrite lookup_empty. tauto.
  - intros i Hi. unfold bound. rewrite Hl, Ht, (proj1 (Hs i Hi)). simpl. lia.
  - intros c x. by rewrite Hc.
  - intros c. by rewrite Hc.
  - intros t g v st. by rewrite Hr.
  - intros t g st. by rewrite Hr.
  - intros t u g (? & ? & E). by rewrite Hr in E.
  - intros t u g (? & E). by rewrite Hr in E.
Qed.

(** *** Who serves a ticket *)

Lemma cell_None_unfilled a c :
  ainv a -> 0 <= c -> a_cells a !! c = None -> unfilled a c.
Proof.
  intros H Hc Hn. unfold unfilled. destruct (Z.lt_trichotomy (a_pos (slot_of a c)) c) as [?|[E|?]].
  - by left.
  - right. split; [done|]. by apply fresh_holds_none; [apply H|..].
  - exfalso. pose proof (is_past _ (ai_slots _ H) c) as Hp. rewrite Hn in Hp. apply Hp. lia.
Qed.

Lemma unsettled_unreleased a c :
  ainv a -> 0 <= c -> ~ settled (a_cells a !! c) -> unreleased a c.
Proof.
  intros H Hc Hn. unfold unreleased. destruct (Z.le_gt_cases (a_pos (slot_of a c)) c); [done|].
  destruct Hn. by apply (is_past _ (ai_slots _ H)).
Qed.

(** *** Blocked threads *)

(** A thread that cannot leave its waiting loop now. *)
Definition a_blocked (a : astate) (r : role) : Prop :=
  match r with
  | r_prod g _ p_searching => a_pos (slot_of a g) <> g
  | r_cons g c_searching | r_cons g c_matched =>
      ~ (a_pos (slot_of a g) = g /\ a_st (slot_of a g) <> h_none)
  | _ => False
  end.

Section all_blocked.
Context (a : astate) (Hinv : ainv a).
Context (Hall : forall t, a_roles a t = r_none \/ a_blocked a (a_roles a t)).

Lemma below_bound c : c < bound a -> c < a_tail a /\ below (a_limit a) c.
Proof.
  unfold bound, below. destruct (a_limit a) as [l|] eqn:E; simpl; intros H.
  - destruct (ic_limit _ (ai_counts _ Hinv) l E). split; [lia|]. by intros ? [= <-].
  - done.
Qed.

(** No slot serves a ticket both sides have reached. *)
Lemma all_blocked_slot q :
  0 <= q -> a_pos (slot_of a q) = q -> q < a_head a -> q < bound a -> False.
Proof.
  intros H0 Hq Hh [Ht Hb]%below_bound.
  destruct (iv_cons _ (ai_served _ Hinv) q) as (t & st & Et);
    [lia|done|unfold unreleased; lia|].
  destruct (Hall t) as [?|Hbl]; [congruence|]. rewrite Et in Hbl.
  assert (a_st (slot_of a q) = h_none) as Hst.
  { destruct (a_st (slot_of a q)) eqn:E; [done|..]; destruct st; simpl in Hbl; try done;
      destruct Hbl; rewrite E; done. }
  destruct (iv_prod _ (ai_served _ Hinv) q) as (u & v & pst & Eu); [lia|done|by right|].
  destruct (Hall u) as [?|Hbl']; [congruence|]. rewrite Eu in Hbl'.
  by destruct pst.
Qed.

Lemma slot_serves g : slot_of a (a_pos (slot_of a g)) = slot_of a g.
Proof. unfold slot_of at 1. by rewrite (slot_res a g (ai_slots _ Hinv)). Qed.

Lemma all_blocked_cons t g st : a_roles a t = r_cons g st -> bound a <= g.
Proof.
  intros Et. destruct (ir_cons _ (ai_roles _ Hinv) _ _ _ Et) as [Hg Hst].
  apply Z.nlt_ge. intros Hlt.
  assert (a_pos (slot_of a g) <= g) as Hle.
  { apply (unsettled_unreleased a g Hinv (proj1 Hg)).
    destruct (Hall t) as [?|Hbl]; [congruence|]. rewrite Et in Hbl. destruct st; tauto. }
  apply (all_blocked_slot (a_pos (slot_of a g))).
  - apply (is_res _ (ai_slots _ Hinv) (res g)), res_range.
  - by rewrite slot_serves.
  - lia.
  - lia.
Qed.

Lemma all_blocked_prod t g v st :
  a_roles a t = r_prod g v st -> below (a_limit a) g -> a_head a + size <= g.
Proof.
  intros Et Hb. destruct (ir_prod _ (ai_roles _ Hinv) _ _ _ _ Et) as (Hg & _ & Hst).
  apply Z.nlt_ge. intros Hlt.
  destruct (Hall t) as [?|Hbl]; [congruence|]. rewrite Et in Hbl. destruct st; try done.
  simpl in Hbl. destruct (cell_None_unfilled a g Hinv (proj1 Hg) Hst) as [Hp|[? _]]; [|done].
  assert (a_pos (slot_of a g) <= g - size) as Hle.
  { pose proof (slot_res a g (ai_slots _ Hinv)) as Hr.
    apply (res_gap (a_pos (slot_of a g)) (g - size)); [|lia].
    rewrite Hr. symmetry. rewrite <- (res_next (g - size)). f_equal. lia. }
  assert (g < bound a).
  { unfold bound, below in *. destruct (a_limit a); simpl; [by apply Hb|lia]. }
  apply (all_blocked_slot (a_pos (slot_of a g))).
  - apply (is_res _ (ai_slots _ Hinv) (res g)), res_range.
  - by rewrite slot_serves.
  - lia.
  - lia.
Qed.
End all_blocked.
End tickets.
