(* ===== verification/BqChannel.v ===== *)
(** * What a bounded queue promises: a channel of tickets

    The abstract specification of the ring.  A channel hands out push tickets
    and pop tickets in order.  The holder of a push ticket may fill its cell
    once the cell [size] places earlier has been settled; the holder of a pop
    ticket takes (or drops) what the push with the same number put there.
    Closing fixes a limit: tickets from the limit on are never filled.  The
    ticket machine of BqTickets implements it. *)

From stdpp Require Import gmap.
From S2P Require Import Prelude BqRing BqTickets.
Local Open Scope Z_scope.

Section channel.
Context {V : Type} (size : Z).

Record chan : Type := Chan {
  ch_head : Z;
  ch_tail : Z;
  ch_cells : gmap Z (cell V);
  ch_limit : option Z;
}.

Inductive chan_step (c : chan) : chan -> Prop :=
| ch_push_ticket :
    chan_step c (Chan (ch_head c) (ch_tail c + 1) (ch_cells c) (ch_limit c))
| ch_pop_ticket :
    chan_step c (Chan (ch_head c + 1) (ch_tail c) (ch_cells c) (ch_limit c))
| ch_fill g (ok : bool) v :
    0 <= g < ch_tail c -> below (ch_limit c) g -> ch_cells c !! g = None ->
    (size <= g -> settled (ch_cells c !! (g - size))) ->
    chan_step c (Chan (ch_head c) (ch_tail c) (<[g := put_cell ok v]> (ch_cells c)) (ch_limit c))
| ch_take g v :
    0 <= g < ch_head c -> ch_cells c !! g = Some (Full v) ->
    chan_step c (Chan (ch_head c) (ch_tail c) (<[g := Taken v]> (ch_cells c)) (ch_limit c))
| ch_drop g ok v :
    0 <= g < ch_head c -> ch_cells c !! g = Some (put_cell ok v) ->
    chan_step c (Chan (ch_head c) (ch_tail c) (<[g := Dropped]> (ch_cells c)) (ch_limit c))
| ch_close :
    ch_limit c = None ->
    chan_step c (Chan (ch_head c) (ch_tail c + size) (ch_cells c) (Some (ch_tail c))).

Definition chan_start : chan := Chan 0 0 ∅ None.

(** How the fate of a ticket may evolve. *)
Definition cell_le (x y : option (cell V)) : Prop :=
  match x, y with
  | None, _ => True
  | Some (Full v), Some (Full v') | Some (Full v), Some (Taken v') => v = v'
  | Some (Full _), Some Dropped => True
  | Some Void, Some Void | Some Void, Some Dropped => True
  | Some (Taken v), Some (Taken v') => v = v'
  | Some Dropped, Some Dropped => True
  | _, _ => False
  end.

#[global] Instance cell_le_preorder : PreOrder cell_le.
Proof.
  split.
  - by intros [[]|].
  - intros [[]|] [[]|] [[]|]; simpl; intros; by subst.
Qed.

Lemma chan_step_cell c c' g : chan_step c c' -> cell_le (ch_cells c !! g) (ch_cells c' !! g).
Proof.
  destruct 1; simpl; try reflexivity; rewrite cells_insert; case_decide as E;
    try reflexivity; subst g.
  - by rewrite H1.
  - by rewrite H0.
  - rewrite H0. by destruct ok.
Qed.

(** A ticket's value never changes, and a settled ticket stays settled. *)
Lemma chan_steps_cell c c' g :
  rtc chan_step c c' -> cell_le (ch_cells c !! g) (ch_cells c' !! g).
Proof.
  induction 1 as [|c1 c2 c3 H12 _ IH]; [reflexivity|].
  etrans; [by apply chan_step_cell|done].
Qed.

(** ** The ticket machine implements the channel *)

Definition chan_of (a : @astate V) : chan :=
  Chan (a_head a) (a_tail a) (a_cells a) (a_limit a).

Context (Hsize : 0 < size).

Lemma astep_chan a a' :
  ainv size a -> astep size a a' -> rtc chan_step (chan_of a) (chan_of a').
Proof.
  intros [Hs Hc Hr Hv] H. destruct H; try (by apply rtc_refl).
  - apply rtc_once, ch_push_ticket.
  - pose proof (ir_prod _ _ Hr _ _ _ _ H) as Hp. pose proof Hp as (Hg & Hl & Hcell & Hpos).
    apply rtc_once, ch_fill; try done; [by eapply found_below|].
    intros Hge. simpl. apply (is_past _ _ Hs).
    assert (res size (g - size) = res size g) as E.
    { rewrite <- (res_next size (g - size)). f_equal. lia. }
    unfold slot_of in *. rewrite E. lia.
  - apply rtc_once, ch_pop_ticket.
  - destruct (ir_cons _ _ Hr _ _ _ H) as (Hg & Hns & Hpos & Hst).
    pose proof (held_cell _ _ _ _ Hs (proj1 Hg) Hpos Hst Hns) as Hcell.
    apply rtc_once. destruct o as [v|].
    + destruct (H0 v eq_refl) as [-> ->]. by apply ch_take.
    + by eapply ch_drop.
  - apply rtc_once, ch_pop_ticket.
  - by apply rtc_once, ch_close.
Qed.

Lemma asteps_chan a a' :
  ainv size a -> rtc (astep size) a a' -> rtc chan_step (chan_of a) (chan_of a').
Proof.
  intros H Hs. induction Hs as [|a1 a2 a3 H12 _ IH]; [done|].
  etrans; [by apply astep_chan|]. apply IH. by eapply astep_ainv.
Qed.
End channel.
