(* ===== verification/BqRefine.v ===== *)
(** * The ring implements the ticket machine

    A forward simulation: as long as no ticket is compared across a window of
    [2^32] (and none with the closing position across [2^31]), a step of the
    ring with its 32-bit counters and tokens is a sequence of steps of the
    machine of BqTickets on unbounded tickets.  The simulation holds for every
    slot class that satisfies [SlotLaws]. *)

From stdpp Require Import gmap functions.
From S2P Require Import Prelude Conqueue BqSlot BqRing BqTokens BqTickets.
Local Open Scope Z_scope.

(** ** The window

    Executable, so that a concrete run can be tested. *)

Section window.
Context {V : Type} {S : Slot}.

(** The count and ticket a thread compares with tokens and limits. *)
Definition ticket_of (p : pc V) : option (Z * Z) :=
  match p with
  | TailLoad p | TailClosed p _ | TailLast p _ | TailBackoff p | TailWait p _
  | PutValue p | Waking (put_done p _) _ => Some (p_count p, p_ticket p)
  | HeadLoad c | HeadClosed _ c _ | HeadLast _ c _ | HeadBackoff _ c _ | HeadWait _ c _
  | GetValue c | Skip c _
  | Waking (get_done c _) _ | Waking (skip_done c) _ | Waking (try_skip_done c) _
  | TryPopSlot c | TryPopClosed c | TryPopLast c | TryPopIncrement c _ =>
      Some (c_count c, c_ticket c)
  | _ => None
  end.

(** [head_] has not wrapped around since try_pop read it. *)
Definition head_window (r : ring V) (p : pc V) : bool :=
  match p with
  | TryPopIncrement c _ => g_head r - c_ticket c <? 2 ^ 32
  | _ => true
  end.

Definition ticket_window (r : ring V) (p : pc V) : bool :=
  match ticket_of p with
  | None => true
  | Some (count, g) =>
      match ring_ r !! slot_index (mask_ r) count with
      | Some sl => Z.abs (g - g_pos sl) <? 2 ^ 32
      | None => true
      end &&
      match g_limit r with
      | Some l => (- 2 ^ 31 <=? l - g) && (l - g <? 2 ^ 31)
      | None => true
      end
  end.

(** No thread is inside try_push. *)
Definition no_try_push (p : pc V) : bool :=
  match p with
  | TryPushTail _ _ | TryPushSlot _ | TryPushClosed _ | TryPushLast _ | TryPushIncrement _ => false
  | _ => true
  end.

(** The runs the theorems speak of: tickets stay within their window, close
    is called at most once and try_push is not used. *)
Definition within (s : pool (ring V) (pc V)) : bool :=
  forallb (fun p => head_window (shared s) p && ticket_window (shared s) p && no_try_push p) (pcs s)
  && (g_closes (shared s) <=? 1)%nat.
End window.

Section refine.
Context {V : Type} {S : Slot} {L : SlotLaws S} (tr : traits) (moved_from : V -> V).
Context (k : Z) (Hk : 4 <= k < 32).

Definition size : Z := 2 ^ k.

Implicit Types (r : ring V) (s : pool (ring V) (pc V)) (ps : list (pc V)).

(** ** The simulation relation *)

Definition role_of (p : pc V) : @role V :=
  match p with
  | TailLoad p | TailClosed p _ | TailLast p _ | TailBackoff p | TailWait p _ =>
      r_prod (p_ticket p) (p_value p) p_searching
  | PutValue p => r_prod (p_ticket p) (p_value p) p_writing
  | HeadLoad c | HeadClosed ticket_loop c _ | HeadLast ticket_loop c _
  | HeadBackoff ticket_loop c _ | HeadWait ticket_loop c _ =>
      r_cons (c_ticket c) c_searching
  | HeadClosed status_loop c _ | HeadLast status_loop c _
  | HeadBackoff status_loop c _ | HeadWait status_loop c _ =>
      r_cons (c_ticket c) c_matched
  | GetValue c => r_cons (c_ticket c) (c_reading true)
  | Skip c _ => r_cons (c_ticket c) (c_reading false)
  | Waking a w =>
      match slot_phase w with
      | waking _ =>
          match a with
          | put_done p ok => r_prod (p_ticket p) (p_value p) (p_publishing ok)
          | get_done c o => r_cons (c_ticket c) (c_releasing o)
          | skip_done c | try_skip_done c => r_cons (c_ticket c) (c_releasing None)
          end
      | _ => r_none
      end
  | _ => r_none
  end.

Definition st_rel (t : Z) (h : holds) : Prop :=
  status_of t = match h with h_none => 0 | h_valid => 1 | h_invalid => 2 end.

Record slot_rel (sl : ring_slot V) (al : @aslot V) : Prop := {
  sr_pos : a_pos al = g_pos sl;
  sr_val : a_val al = value sl;
  sr_st : st_rel (slot_load (base sl)) (a_st al);
  sr_tick : tick (slot_load (base sl)) = tick (g_pos sl);
}.

Record ring_rel (r : ring V) (a : @astate V) : Prop := {
  rr_mask : mask_ r = size - 1;
  rr_len : length (ring_ r) = Z.to_nat size;
  rr_slot i sl : ring_ r !! i = Some sl -> slot_rel sl (a_slots a (Z.of_nat i));
  rr_head : a_head a = g_head r;
  rr_tail : a_tail a = g_tail r;
  rr_cells : a_cells a = g_cells r;
  rr_limit : a_limit a = g_limit r;
}.

Definition role_at (ps : list (pc V)) (t : nat) : @role V := from_option role_of r_none (ps !! t).

(** ** What the words say about the history variables *)

Record words (r : ring V) : Prop := {
  w_head : head_ r = u32 (g_head r);
  w_tail : tail_ r = u32 (g_tail r);
  w_closes : g_limit r = None <-> g_closes r = 0%nat;
  w_closing : closed_ r <> cl_closing;
  w_closed : closed_ r = cl_closed -> exists l, g_limit r = Some l /\ last_ r = u32 l;
}.

(** ** What a thread knows of the shared state at each point *)

Definition in_call (r : ring V) (u i : nat) (w : slot_pc) (P : progress -> Prop) : Prop :=
  exists sl, ring_ r !! i = Some sl /\ slot_ok (base sl) u w /\ P (slot_phase w).

Definition p_good (p : @producer V) : Prop := p_count p = u32 (p_ticket p).
Definition c_good (c : consumer) : Prop := c_count c = u32 (c_ticket c).

Definition after_good (a : @after_wake V) : Prop :=
  match a with
  | put_done p _ => p_good p
  | get_done c _ | skip_done c | try_skip_done c => c_good c
  end.

(** The token a wake writes. *)
Definition wake_token (a : @after_wake V) : Z :=
  match a with
  | put_done p ok => Z.lor (tick (p_ticket p)) (if ok then status_valid else status_invalid)
  | get_done c _ | skip_done c | try_skip_done c => tick (c_ticket c + size)
  end.

Definition local_ok (r : ring V) (u : nat) (p : pc V) : Prop :=
  match p with
  | TailLoad p | TailClosed p _ | TailBackoff p | PutValue p => p_good p
  | TailLast p _ => p_good p /\ closed_ r = cl_closed
  | TailWait p w => p_good p /\ in_call r u (p_slot r p) w (fun ph => ph = waiting)
  | HeadLoad c | HeadClosed _ c _ | HeadBackoff _ c _ | GetValue c | Skip c _ => c_good c
  | HeadLast _ c _ => c_good c /\ closed_ r = cl_closed
  | HeadWait _ c w => c_good c /\ in_call r u (c_slot r c) w (fun ph => ph = waiting)
  | Waking a w =>
      after_good a /\
      in_call r u (wake_slot r a) w (fun ph => ph = waking (wake_token a) \/ ph = over)
  | TryPopSlot c | TryPopClosed c => c_good c /\ 0 <= c_ticket c <= g_head r
  | TryPopLast c => c_good c /\ closed_ r = cl_closed
  | TryPopIncrement c t =>
      c_good c /\ 0 <= c_ticket c <= g_head r /\
      (g_head r = c_ticket c ->
       exists sl, ring_ r !! c_slot r c = Some sl /\ g_pos sl = c_ticket c /\
         status_of (slot_load (base sl)) = status_of t /\ status_of t <> 0)
  | CloseLast last => exists l, g_limit r = Some l /\ last = u32 l
  | CloseStore => exists l, g_limit r = Some l /\ last_ r = u32 l
  | CloseLoop _ => closed_ r = cl_closed
  | CloseSlot _ i w =>
      closed_ r = cl_closed /\ in_call r u i w (fun ph => ph = closing \/ ph = over)
  | _ => True
  end.

Record sim (s : pool (ring V) (pc V)) (a : @astate V) : Prop := {
  sim_ring : ring_rel (shared s) a;
  sim_roles t : a_roles a t = role_at (pcs s) t;
  sim_inv : ainv size a;
  sim_words : words (shared s);
  sim_local u p : pcs s !! u = Some p -> local_ok (shared s) u p;
}.

(** ** Framing: what a step of thread [u] leaves to the others *)

Record frame (u : nat) (r r' : ring V) : Prop := {
  fr_mask : mask_ r' = mask_ r;
  fr_head : g_head r <= g_head r';
  fr_limit l : g_limit r = Some l -> g_limit r' = Some l;
  fr_last l : g_limit r = Some l -> last_ r = u32 l -> last_ r' = u32 l;
  fr_closed : closed_ r = cl_closed -> closed_ r' = cl_closed;
  fr_slot i sl : ring_ r !! i = Some sl -> exists sl', ring_ r' !! i = Some sl' /\
    (forall u' w, u' <> u -> slot_ok (base sl) u' w -> slot_ok (base sl') u' w) /\
    (g_head r' = g_pos sl -> status_of (slot_load (base sl)) <> 0 ->
     g_pos sl' = g_pos sl /\ status_of (slot_load (base sl')) = status_of (slot_load (base sl)));
}.

Lemma in_call_frame u r r' u' i w P :
  frame u r r' -> u' <> u -> in_call r u' i w P -> in_call r' u' i w P.
Proof.
  intros F Hu (sl & Hsl & Hok & HP).
  destruct (fr_slot _ _ _ F i sl Hsl) as (sl' & Hsl' & Hok' & _).
  exists sl'. auto.
Qed.

Lemma local_ok_frame u r r' u' p :
  frame u r r' -> u' <> u -> local_ok r u' p -> local_ok r' u' p.
Proof.
  intros F Hu. pose proof (fr_head _ _ _ F) as Hh.
  destruct p; simpl; try done; unfold p_slot, c_slot; rewrite ?(fr_mask _ _ _ F).
  - intros [? ?]. split; [done|]. by eapply fr_closed.
  - intros [? ?]. split; [done|]. by eapply in_call_frame.
  - intros [? ?]. split; [done|]. by eapply fr_closed.
  - intros [? ?]. split; [done|]. by eapply in_call_frame.
  - intros [? ?]. split; [done|]. eapply in_call_frame; eauto.
    destruct a; simpl in *; unfold p_slot, c_slot in *; by rewrite (fr_mask _ _ _ F).
  - intros [? ?]. split; [done|lia].
  - intros [? ?]. split; [done|lia].
  - intros [? ?]. split; [done|]. by eapply fr_closed.
  - intros (? & Hr & Ht). split; [done|]. split; [lia|]. intros E.
    destruct Ht as (sl & Hsl & Hp & Hst & Hn); [lia|].
    destruct (fr_slot _ _ _ F _ sl Hsl) as (sl' & Hsl' & _ & Hk').
    destruct Hk' as [E1 E2]; [lia|congruence|]. exists sl'. split_and!; try done; congruence.
  - intros (l & Hl & ?). exists l. split; [|done]. by eapply fr_limit.
  - intros (l & Hl & ?). exists l. split; [by eapply fr_limit|by eapply fr_last].
  - intros. by eapply fr_closed.
  - intros [? ?]. split; [by eapply fr_closed|]. by eapply in_call_frame.
Qed.

(** Putting a step together. *)
Lemma sim_step r ps u p r' p' a a' :
  sim (Pool r ps) a -> ps !! u = Some p -> rtc (astep size) a a' ->
  ring_rel r' a' ->
  (forall t, a_roles a' t = if decide (t = u) then role_of p' else a_roles a t) ->
  words r' -> frame u r r' -> local_ok r' u p' ->
  sim (Pool r' (<[u := p']> ps)) a'.
Proof.
  intros [H1 H2 H3 H4 H5] Hp Hs Hr Ht Hw F Hl. split; simpl; try done.
  - intros t. rewrite Ht. unfold role_at. case_decide as E.
    + subst. by rewrite (insert_lookup_self _ _ _ _ Hp).
    + rewrite list_lookup_insert_ne by done. apply H2.
  - eapply asteps_ainv; [|done..]. apply Z.pow_pos_nonneg; lia.
  - intros u' q [(-> & -> & _)|[Hne Hq]]%insert_lookup_cases; [done|].
    eapply local_ok_frame; eauto.
Qed.

(** ** Sizes, indices and comparisons *)

Lemma size_range : 16 <= size < 2 ^ 32.
Proof.
  unfold size. split; [change 16 with (2 ^ 4); apply Z.pow_le_mono_r; lia|].
  apply Z.pow_lt_mono_r; lia.
Qed.

Lemma size_pos : 0 < size.
Proof. pose proof size_range. lia. Qed.

Lemma size_16 : (16 | size).
Proof.
  exists (2 ^ (k - 4)). unfold size. change 16 with (2 ^ 4).
  rewrite <- Z.pow_add_r by lia. f_equal. lia.
Qed.

Lemma slot_index_ticket g : slot_index (size - 1) (u32 g) = Z.to_nat (res size g).
Proof.
  unfold slot_index, size, res. f_equal.
  replace (2 ^ k - 1) with (Z.ones k) by (rewrite Z.ones_equiv; lia).
  rewrite Z.land_ones by lia. unfold wrap.
  replace (2 ^ 32) with (2 ^ k * 2 ^ (32 - k)) by (rewrite <- Z.pow_add_r by lia; f_equal; lia).
  assert (0 < 2 ^ k) by (apply Z.pow_pos_nonneg; lia).
  assert (0 < 2 ^ (32 - k)) by (apply Z.pow_pos_nonneg; lia).
  rewrite Z.rem_mul_r, Z.mul_comm, Z_mod_plus_full by lia. apply Z.mod_mod. lia.
Qed.

Lemma slot_at r a g :
  ring_rel r a ->
  exists sl, ring_ r !! slot_index (mask_ r) (u32 g) = Some sl /\ slot_rel sl (slot_of size a g).
Proof.
  intros H. rewrite (rr_mask _ _ H), slot_index_ticket.
  pose proof (res_range size size_pos g) as Hr.
  destruct (lookup_lt_is_Some_2 (ring_ r) (Z.to_nat (res size g))) as [sl Hsl].
  { rewrite (rr_len _ _ H). lia. }
  exists sl. split; [done|]. apply (rr_slot _ _ H) in Hsl.
  rewrite Z2Nat.id in Hsl by lia. done.
Qed.

(** A token that shows the ticket part of [g] is the token of [g] itself. *)
Lemma tick_match sl al g :
  slot_rel sl al -> res size (a_pos al) = res size g ->
  Z.abs (g - g_pos sl) < 2 ^ 32 ->
  ticket_matches (slot_load (base sl)) (tick g) = true -> a_pos al = g.
Proof.
  intros [H1 _ _ H4] Hr Hw Hm. unfold ticket_matches in Hm.
  apply Z.eqb_eq in Hm. rewrite land_ticket_mask, H4 in Hm.
  rewrite H1 in *. symmetry. apply (tick_inj size); [apply size_16|by symmetry|apply size_pos|lia|done].
Qed.

Lemma status_range t : 0 <= status_of t < 4.
Proof.
  unfold status_of. change status_mask with (Z.ones 2). rewrite Z.land_ones by lia.
  apply Z.mod_pos_bound. lia.
Qed.

(** The tests of a token against its flags. *)
Lemma st_rel_zero t h : st_rel t h -> (Z.land t status_mask =? 0) = bool_decide (h = h_none).
Proof.
  unfold st_rel, status_of. intros ->. by destruct h.
Qed.

Lemma st_rel_valid t h : st_rel t h -> h <> h_none -> h = held (negb (Z.land t status_valid =? 0)).
Proof. unfold st_rel. intros E. rewrite valid_bit, E. by destruct h. Qed.

(** [is_past_last] compares tickets while they are within [2^31]. *)
Lemma past_last_ticket (r : ring V) l g :
  last_ r = u32 l -> - 2 ^ 31 <= l - g < 2 ^ 31 ->
  past_last r (u32 g) = (l <=? g).
Proof.
  intros E Hw. unfold past_last. rewrite E. autorewrite with words.
  rewrite to_signed_wrap by lia.
  destruct (Z.leb_spec (l - g) 0), (Z.leb_spec l g); lia.
Qed.

(** ** Steps that leave the shared state alone *)

Lemma frame_refl u r : frame u r r.
Proof. split; try done; try lia. intros i sl Hsl. by exists sl. Qed.

Lemma sim_silent r ps u p p' a :
  sim (Pool r ps) a -> ps !! u = Some p -> role_of p' = role_of p -> local_ok r u p' ->
  sim (Pool r (<[u := p']> ps)) a.
Proof.
  intros H Hp Hrole Hl. eapply sim_step; eauto using rtc_refl, frame_refl.
  - apply (sim_ring _ _ H).
  - intros t. case_decide; [subst|done]. rewrite (sim_roles _ _ H). unfold role_at.
    simpl. by rewrite Hp.
  - apply (sim_words _ _ H).
Qed.

Lemma sim_role r ps u p p' a a' :
  sim (Pool r ps) a -> ps !! u = Some p -> rtc (astep size) a a' ->
  a' = with_role a u (role_of p') -> local_ok r u p' ->
  sim (Pool r (<[u := p']> ps)) a'.
Proof.
  intros H Hp Hs -> Hl. eapply sim_step; eauto using frame_refl.
  - by destruct (sim_ring _ _ H).
  - intros t. apply roles_insert.
  - apply (sim_words _ _ H).
Qed.

Lemma sim_role_of r ps u p a :
  sim (Pool r ps) a -> ps !! u = Some p -> a_roles a u = role_of p.
Proof. intros H Hp. rewrite (sim_roles _ _ H). unfold role_at. simpl. by rewrite Hp. Qed.

(** ** Steps inside a slot call that do not write the token's ticket *)

Lemma ring_rel_set_base r a i sl b :
  ring_rel r a -> ring_ r !! i = Some sl ->
  tick (slot_load b) = tick (slot_load (base sl)) ->
  status_of (slot_load b) = status_of (slot_load (base sl)) ->
  ring_rel (set_base r i sl b) a.
Proof.
  intros H Hsl Ht Hs. destruct H as [H1 H2 H3 H4 H5 H6 H7]. split; simpl; try done.
  - by rewrite length_insert.
  - intros j sl'. intros [(-> & -> & _)|[Hne Hj]]%insert_lookup_cases; [|by apply H3].
    destruct (H3 _ _ Hsl) as [A B C D]. unfold new_pos.
    rewrite !land_ticket_mask, Ht, Z.eqb_refl.
    split; simpl; try done; [|congruence]. unfold st_rel in *. congruence.
Qed.

Lemma frame_set_base u r i sl b :
  ring_ r !! i = Some sl ->
  (forall u' w, u' <> u -> slot_ok (base sl) u' w -> slot_ok b u' w) ->
  (g_head r = g_pos sl -> status_of (slot_load (base sl)) <> 0 ->
     tick (slot_load b) = tick (slot_load (base sl)) /\
     status_of (slot_load b) = status_of (slot_load (base sl))) ->
  frame u r (set_base r i sl b).
Proof.
  intros Hsl Hok Hst. split; simpl; try done; try lia.
  intros j sl' Hj. destruct (decide (j = i)) as [->|Hne].
  - simplify_eq. eexists. split; [by eapply insert_lookup_self|]. simpl. split; [done|].
    intros E1 E2. destruct (Hst E1 E2) as [Ht Hs]. unfold new_pos.
    by rewrite !land_ticket_mask, Ht, Z.eqb_refl.
  - exists sl'. by rewrite list_lookup_insert_ne.
Qed.

Lemma words_set_base r i sl b : words r -> words (set_base r i sl b).
Proof. by intros []; split. Qed.

Definition quiet (ph : progress) : Prop := ph = waiting \/ ph = closing \/ ph = over.

(** A step of a call that is not about to write: tokens keep ticket and status. *)
Lemma quiet_step ph tok tok' next :
  quiet ph -> step_allowed ph tok tok' next ->
  tick tok' = tick tok /\ status_of tok' = status_of tok.
Proof.
  intros [->|[->| ->]] H; simpl in H; destruct H as [Ht _].
  - destruct Ht as [->| ->]; [done|]. by rewrite tick_lor, status_lor.
  - destruct Ht as [->| ->]; [done|]. by rewrite tick_lor, status_lor.
  - by subst.
Qed.

Lemma in_slot_Some u (r : ring V) i w c again kont r' p' :
  in_slot u r i w c again kont = Some (r', p') ->
  exists sl b x, ring_ r !! i = Some sl /\ slot_step u (base sl) w c = Some (b, x) /\
    r' = set_base r i sl b /\
    p' = match x with inl w' => again w' | inr t => kont t end.
Proof.
  unfold in_slot. intros H.
  destruct (ring_ r !! i) as [sl|]; simpl in H; [|done].
  destruct (slot_step u (base sl) w c) as [[b x]|] eqn:E; simpl in H; [|done].
  simplify_eq. eauto 8.
Qed.

(** Such a step, for whatever the thread does next in the same role. *)
Lemma sim_quiet r ps u p a i w c sl b x q :
  sim (Pool r ps) a -> ps !! u = Some p ->
  ring_ r !! i = Some sl -> slot_ok (base sl) u w ->
  slot_step u (base sl) w c = Some (b, x) ->
  tick (slot_load b) = tick (slot_load (base sl)) ->
  status_of (slot_load b) = status_of (slot_load (base sl)) ->
  role_of q = role_of p -> local_ok (set_base r i sl b) u q ->
  sim (Pool (set_base r i sl b) (<[u := q]> ps)) a.
Proof.
  intros H Hp Hsl Hok Hst Ht Hs Hrole Hl. eapply sim_step; eauto using rtc_refl.
  - apply ring_rel_set_base; try done. apply (sim_ring _ _ H).
  - intros t. case_decide; [subst|done]. by rewrite (sim_role_of _ _ _ _ _ H Hp).
  - apply words_set_base, (sim_words _ _ H).
  - apply frame_set_base; try done. intros u' w' Hu Hw.
    by eapply (slot_step_other u u').
Qed.

(** The call goes on. *)
Lemma in_call_next r u i w c sl b w' (P : progress -> Prop) :
  ring_ r !! i = Some sl -> slot_ok (base sl) u w ->
  slot_step u (base sl) w c = Some (b, inl w') -> P (slot_phase w') ->
  in_call (set_base r i sl b) u i w' P.
Proof.
  intros Hsl Hok Hst HP. eexists. split; [by eapply insert_lookup_self|]. simpl.
  split; [|done]. by eapply slot_step_ok.
Qed.

Lemma in_call_enter r u i sl c (P : progress -> Prop) :
  ring_ r !! i = Some sl -> P (progress_of_call c) -> in_call r u i (slot_enter c) P.
Proof.
  intros Hsl HP. exists sl. split; [done|]. split; [apply slot_enter_ok|].
  by rewrite slot_enter_phase.
Qed.

(** ** The window, seen from one thread *)

Lemma within_at s u p :
  within s = true -> pcs s !! u = Some p ->
  head_window (shared s) p = true /\ ticket_window (shared s) p = true /\ no_try_push p = true.
Proof.
  intros H Hp. unfold within in H. apply andb_true_iff in H as [H _].
  rewrite forallb_forall in H. specialize (H p).
  destruct (andb_prop _ _ (H ltac:(apply list_elem_of_In; by eapply list_elem_of_lookup_2))) as [H1 H3].
  by apply andb_prop in H1 as [H1 H2].
Qed.

Lemma within_ticket s u p count g sl :
  within s = true -> pcs s !! u = Some p -> ticket_of p = Some (count, g) ->
  ring_ (shared s) !! slot_index (mask_ (shared s)) count = Some sl ->
  Z.abs (g - g_pos sl) < 2 ^ 32.
Proof.
  intros H Hp Ht Hsl. destruct (within_at _ _ _ H Hp) as (_ & Hw & _).
  unfold ticket_window in Hw. rewrite Ht, Hsl in Hw.
  apply andb_prop in Hw as [Hw _]. by apply Z.ltb_lt.
Qed.

Lemma within_limit s u p count g l :
  within s = true -> pcs s !! u = Some p -> ticket_of p = Some (count, g) ->
  g_limit (shared s) = Some l -> - 2 ^ 31 <= l - g < 2 ^ 31.
Proof.
  intros H Hp Ht Hl. destruct (within_at _ _ _ H Hp) as (_ & Hw & _).
  unfold ticket_window in Hw. rewrite Ht, Hl in Hw.
  apply andb_prop in Hw as [_ Hw]. apply andb_prop in Hw as [H1 H2].
  apply Z.leb_le in H1. apply Z.ltb_lt in H2. lia.
Qed.

(** ** Producers *)

Lemma slot_rel_res r a g sl :
  ring_rel r a -> ainv size a -> slot_rel sl (slot_of size a g) ->
  res size (a_pos (slot_of size a g)) = res size g.
Proof. intros _ H _. apply slot_res; [apply size_pos|apply H]. Qed.

Lemma sim_tail_test r ps u q a p sl :
  sim (Pool r ps) a -> ps !! u = Some q -> role_of q = role_of (TailLoad p) -> p_good p ->
  ring_ r !! p_slot r p = Some sl -> Z.abs (p_ticket p - g_pos sl) < 2 ^ 32 ->
  exists a', rtc (astep size) a a' /\
    sim (Pool r (<[u := tail_test p (slot_load (base sl))]> ps)) a'.
Proof.
  intros H Hq Hrole Hp Hsl Hw. unfold tail_test.
  case_match eqn:Hm; [|exists a; split; [done|by eapply sim_silent]].
  destruct (slot_at r a (p_ticket p) (sim_ring _ _ H)) as (sl' & Hsl' & Hrel).
  unfold p_slot in Hsl. rewrite Hp in Hsl. simplify_eq.
  assert (a_pos (slot_of size a (p_ticket p)) = p_ticket p) as Hpos.
  { eapply tick_match; eauto.
    - eapply slot_rel_res; eauto; apply H.
    - unfold p_token in Hm. by rewrite Hp, token_of_wrap in Hm. }
  assert (astep size a (with_role a u (role_of (PutValue p)))) as Hs.
  { eapply as_push_match; [|done]. rewrite (sim_role_of _ _ _ _ _ H Hq). exact Hrole. }
  eexists. split; [by apply rtc_once|]. eapply sim_role; eauto using rtc_once.
Qed.

Lemma sim_tail_body r ps u q a p t :
  sim (Pool r ps) a -> ps !! u = Some q -> role_of q = role_of (TailLoad p) -> p_good p ->
  sim (Pool r (<[u := tail_body p t]> ps)) a.
Proof.
  intros H Hq Hrole Hp. destruct (slot_at r a (p_ticket p) (sim_ring _ _ H)) as (sl & Hsl & _).
  assert (in_call r u (p_slot r p) (slot_enter (call_wait t)) (fun ph => ph = waiting)) as Hc.
  { eapply in_call_enter; [|done]. unfold p_slot. rewrite Hp. exact Hsl. }
  unfold tail_body. destruct (p_mode p) as [|[]]; by eapply sim_silent.
Qed.

(** ** Consumers *)

Definition sim_next r ps a : Prop :=
  exists a', rtc (astep size) a a' /\ sim (Pool r ps) a'.

Lemma sim_next_refl r ps a : sim (Pool r ps) a -> sim_next r ps a.
Proof. intros H. by exists a. Qed.

Lemma sim_next_role r ps u q p' a :
  sim (Pool r ps) a -> ps !! u = Some q -> astep size a (with_role a u (role_of p')) ->
  local_ok r u p' -> sim_next r (<[u := p']> ps) a.
Proof.
  intros H Hq Hs Hl. eexists. split; [by apply rtc_once|].
  eapply sim_role; eauto using rtc_once.
Qed.

(** The slot of a consumer that knows it serves its ticket. *)
Lemma matched_slot r ps u q a c sl :
  sim (Pool r ps) a -> ps !! u = Some q -> role_of q = r_cons (c_ticket c) c_matched -> c_good c ->
  ring_ r !! c_slot r c = Some sl ->
  slot_rel sl (slot_of size a (c_ticket c)) /\
  a_pos (slot_of size a (c_ticket c)) = c_ticket c.
Proof.
  intros H Hq Hrole Hc Hsl. unfold c_slot in Hsl. rewrite Hc in Hsl.
  destruct (slot_at r a (c_ticket c) (sim_ring _ _ H)) as (sl' & Hsl' & Hrel). simplify_eq.
  split; [done|]. rewrite <- (sim_role_of _ _ _ _ _ H Hq) in Hrole.
  by apply (ir_cons _ _ (ai_roles _ _ (sim_inv _ _ H))) in Hrole as (_ & _ & ?).
Qed.

Lemma sim_status_test r ps u q a c sl :
  sim (Pool r ps) a -> ps !! u = Some q -> role_of q = r_cons (c_ticket c) c_matched -> c_good c ->
  ring_ r !! c_slot r c = Some sl ->
  sim_next r (<[u := status_test c (slot_load (base sl))]> ps) a.
Proof.
  intros H Hq Hrole Hc Hsl. destruct (matched_slot r ps u q a c sl) as [Hrel Hpos]; try done.
  unfold status_test. rewrite (st_rel_zero _ _ (sr_st _ _ Hrel)).
  case_bool_decide as Hst; [by eapply sim_next_refl, sim_silent|].
  pose proof (st_rel_valid _ _ (sr_st _ _ Hrel) Hst) as Hh.
  unfold head_exit. destruct (Z.land _ _ =? 0); simpl in Hh.
  - eapply sim_next_role; [done|done| |done].
    eapply as_pop_ready; [|done]. by rewrite (sim_role_of _ _ _ _ _ H Hq).
  - eapply sim_next_role; [done|done| |done].
    eapply as_pop_ready; [|done]. by rewrite (sim_role_of _ _ _ _ _ H Hq).
Qed.

Lemma sim_next_trans r ps a a' : rtc (astep size) a a' -> sim_next r ps a' -> sim_next r ps a.
Proof. intros H (a2 & H2 & ?). exists a2. split; [by etrans|done]. Qed.

Lemma sim_head_test r ps u q a l c sl :
  sim (Pool r ps) a -> ps !! u = Some q ->
  role_of q = role_of (HeadClosed l c 0) -> c_good c ->
  ring_ r !! c_slot r c = Some sl -> Z.abs (c_ticket c - g_pos sl) < 2 ^ 32 ->
  sim_next r (<[u := head_test l c (slot_load (base sl))]> ps) a.
Proof.
  intros H Hq Hrole Hc Hsl Hw. destruct l; simpl in *; [|by eapply sim_status_test].
  case_match eqn:Hm; [|by eapply sim_next_refl, sim_silent].
  destruct (slot_at r a (c_ticket c) (sim_ring _ _ H)) as (sl' & Hsl' & Hrel).
  unfold c_slot in Hsl. rewrite Hc in Hsl. simplify_eq.
  assert (a_pos (slot_of size a (c_ticket c)) = c_ticket c) as Hpos.
  { eapply tick_match; eauto.
    - eapply slot_rel_res; eauto; apply H.
    - unfold c_token in Hm. by rewrite Hc, token_of_wrap in Hm. }
  assert (astep size a (with_role a u (role_of (HeadClosed status_loop c 0)))) as Hs.
  { eapply as_pop_match; [|done]. by rewrite (sim_role_of _ _ _ _ _ H Hq). }
  eapply sim_next_trans; [by apply rtc_once|].
  rewrite <- (list_insert_insert_eq ps u _ (HeadClosed status_loop c 0)).
  eapply (sim_status_test _ _ u (HeadClosed status_loop c 0)); try done.
  - eapply sim_role; eauto using rtc_once.
  - by eapply insert_lookup_self.
  - unfold c_slot. by rewrite Hc.
Qed.

Lemma sim_head_body r ps u q a l c t :
  sim (Pool r ps) a -> ps !! u = Some q -> role_of q = role_of (HeadClosed l c 0) -> c_good c ->
  sim (Pool r (<[u := head_body l c t]> ps)) a.
Proof.
  intros H Hq Hrole Hc. destruct (slot_at r a (c_ticket c) (sim_ring _ _ H)) as (sl & Hsl & _).
  assert (in_call r u (c_slot r c) (slot_enter (call_wait t)) (fun ph => ph = waiting)) as Hcall.
  { eapply in_call_enter; [|done]. unfold c_slot. rewrite Hc. exact Hsl. }
  unfold head_body. destruct l, (c_mode c) as [|[]]; by eapply sim_silent.
Qed.

(** ** Refusals *)

(** A ticket found past [last_] is past the limit. *)
Lemma past_last_limit s a u p count g :
  sim s a -> within s = true -> pcs s !! u = Some p -> ticket_of p = Some (count, g) ->
  count = u32 g -> closed_ (shared s) = cl_closed -> past_last (shared s) count = true ->
  exists l, a_limit a = Some l /\ l <= g.
Proof.
  intros H Hw Hp Ht -> Hcl Hpast. destruct (w_closed _ (sim_words _ _ H) Hcl) as (l & Hl & Hlast).
  exists l. split; [by rewrite (rr_limit _ _ (sim_ring _ _ H))|].
  rewrite (past_last_ticket _ l g Hlast) in Hpast; [by apply Z.leb_le|].
  by eapply within_limit.
Qed.

(** ** Steps that change a slot or a fate *)

Lemma ring_rel_role r a t ro : ring_rel r a -> ring_rel r (with_role a t ro).
Proof. by intros []; split. Qed.

Lemma ring_rel_slot r a g sl' al' :
  ring_rel r a -> slot_rel sl' al' ->
  ring_rel (set_slot r (slot_index (mask_ r) (u32 g)) sl') (with_slot size a g al').
Proof.
  intros H Hrel. pose proof (rr_mask _ _ H) as Hm. rewrite Hm, slot_index_ticket.
  pose proof (res_range size size_pos g) as Hr.
  destruct H as [H1 H2 H3 H4 H5 H6 H7]. split; simpl; try done.
  - by rewrite length_insert.
  - intros j sl [(-> & -> & _)|[Hne Hj]]%insert_lookup_cases.
    + rewrite Z2Nat.id by lia. by rewrite fn_lookup_insert.
    + rewrite fn_lookup_insert_ne by lia. by apply H3.
Qed.

Lemma ring_rel_cell r a g x : ring_rel r a -> ring_rel (set_cell r g x) (with_cell a g x).
Proof. intros [H1 H2 H3 H4 H5 H6 H7]. split; simpl; try done. by rewrite H6. Qed.

Lemma words_set_slot r i sl : words r -> words (set_slot r i sl).
Proof. by intros []; split. Qed.

Lemma words_set_cell r g x : words r -> words (set_cell r g x).
Proof. by intros []; split. Qed.

(** Writing the value of a slot and the fate of a ticket. *)
Lemma frame_write u r i sl v g x :
  ring_ r !! i = Some sl ->
  frame u r (set_cell (set_slot r i (RingSlot (base sl) v (g_pos sl))) g x).
Proof.
  intros Hsl. split; simpl; try done; try lia.
  intros j sl' Hj. destruct (decide (j = i)) as [->|Hne].
  - simplify_eq. eexists. split; [by eapply insert_lookup_self|]. by simpl.
  - exists sl'. by rewrite list_lookup_insert_ne.
Qed.

(** The state after a write to the slot of ticket [g], with the call of wake
    that follows. *)
Lemma sim_write r ps u q a g sl st' v x w p' :
  sim (Pool r ps) a -> ps !! u = Some q ->
  ring_ r !! slot_index (mask_ r) (u32 g) = Some sl ->
  slot_rel sl (slot_of size a g) -> a_pos (slot_of size a g) = g ->
  astep size a (with_role (with_cell (with_slot size a g (ASlot g (a_st (slot_of size a g)) v)) g x)
                  u st') ->
  st' = role_of p' -> p' = Waking w (slot_enter (call_wake (wake_token w))) ->
  after_good w -> wake_slot r w = slot_index (mask_ r) (u32 g) ->
  sim_next (set_cell (set_slot r (slot_index (mask_ r) (u32 g))
                        (RingSlot (base sl) v (g_pos sl))) g x)
    (<[u := p']> ps) a.
Proof.
  intros H Hq Hsl Hrel Hpos Hs -> Hp' Hgood Hws. eexists. split; [by apply rtc_once|].
  eapply sim_step; [exact H|exact Hq|by apply rtc_once|..].
  - apply ring_rel_role, ring_rel_cell, ring_rel_slot; [apply H|].
    destruct Hrel as [A B C D]. split; simpl; try done. congruence.
  - intros t. apply roles_insert.
  - apply words_set_cell, words_set_slot, H.
  - by apply frame_write.
  - rewrite Hp'. split; [done|]. eapply in_call_enter; [|by left].
    assert (wake_slot (set_cell (set_slot r (slot_index (mask_ r) (u32 g))
      (RingSlot (base sl) v (g_pos sl))) g x) w = wake_slot r w) as -> by by destruct w.
    rewrite Hws. simpl. by eapply insert_lookup_self.
Qed.

Lemma role_of_waking w t :
  role_of (Waking w (slot_enter (call_wake t))) =
  match w with
  | put_done p ok => r_prod (p_ticket p) (p_value p) (p_publishing ok)
  | get_done c o => r_cons (c_ticket c) (c_releasing o)
  | skip_done c | try_skip_done c => r_cons (c_ticket c) (c_releasing None)
  end.
Proof. simpl. by rewrite slot_enter_phase. Qed.

Lemma sim_put_value r ps u a p th r' p' :
  sim (Pool r ps) a -> ps !! u = Some (PutValue p) ->
  put_value tr r p th = Some (r', p') -> sim_next r' (<[u := p']> ps) a.
Proof.
  intros H Hp Hput. pose proof (sim_local _ _ H _ _ Hp) as Hgood. simpl in Hgood.
  destruct (slot_at r a (p_ticket p) (sim_ring _ _ H)) as (sl & Hsl & Hrel).
  pose proof (sim_role_of _ _ _ _ _ H Hp) as Hrole. simpl in Hrole.
  destruct (ir_prod _ _ (ai_roles _ _ (sim_inv _ _ H)) _ _ _ _ Hrole) as (_ & _ & _ & Hpos).
  unfold put_value, p_slot, p_token in Hput. rewrite Hgood, Hsl, token_of_wrap in Hput.
  simpl in Hput. destruct th as [junk|]; [destruct (can_throw tr (p_kind p)); [|done]|];
    injection Hput as <- <-.
  - eapply (sim_write _ _ _ _ _ _ _
      (r_prod (p_ticket p) (p_value p) (p_publishing false)) _ _ (put_done p false)); eauto.
    + apply (as_put size a u _ _ false junk); [done|by intros].
    + by rewrite role_of_waking.
    + simpl. unfold p_slot. by rewrite Hgood.
  - rewrite put_token_tick.
    eapply (sim_write _ _ _ _ _ _ _
      (r_prod (p_ticket p) (p_value p) (p_publishing true)) _ _ (put_done p true)); eauto.
    + by apply (as_put size a u _ _ true).
    + by rewrite role_of_waking.
    + simpl. unfold p_slot. by rewrite Hgood.
Qed.

Lemma next_token_size r a c :
  ring_rel r a -> c_good c -> next_token (mask_ r) (c_token c) = tick (c_ticket c + size).
Proof.
  intros H Hc. unfold c_token. rewrite Hc, token_of_wrap, (rr_mask _ _ H).
  rewrite next_token_tick; replace (size - 1 + 1) with size by lia; [done|apply size_16].
Qed.

Lemma sim_get_value r ps u a c th r' p' :
  sim (Pool r ps) a -> ps !! u = Some (GetValue c) ->
  get_value tr moved_from r c th = Some (r', p') -> sim_next r' (<[u := p']> ps) a.
Proof.
  intros H Hp Hget. pose proof (sim_local _ _ H _ _ Hp) as Hgood. simpl in Hgood.
  destruct (slot_at r a (c_ticket c) (sim_ring _ _ H)) as (sl & Hsl & Hrel).
  pose proof (sim_role_of _ _ _ _ _ H Hp) as Hrole. simpl in Hrole.
  destruct (ir_cons _ _ (ai_roles _ _ (sim_inv _ _ H)) _ _ _ Hrole) as (_ & _ & Hpos & _).
  unfold get_value in Hget. rewrite (next_token_size r a) in Hget by (try apply H; done).
  unfold c_slot in Hget. rewrite Hgood, Hsl in Hget.
  simpl in Hget. destruct th as [junk|]; [destruct (nothrow_move tr); [done|]|];
    injection Hget as <- <-.
  - eapply (sim_write _ _ _ _ _ _ _
      (r_cons (c_ticket c) (c_releasing None)) _ _ (get_done c None)); eauto.
    + by apply (as_get size a u _ true None junk).
    + by rewrite role_of_waking.
    + simpl. unfold c_slot. by rewrite Hgood.
  - eapply (sim_write _ _ _ _ _ _ _
      (r_cons (c_ticket c) (c_releasing (Some (value sl)))) _ _ (get_done c (Some (value sl)))); eauto.
    + apply (as_get size a u _ true (Some (value sl))); [done|].
      intros v [= <-]. split; [done|]. symmetry. apply Hrel.
    + by rewrite role_of_waking.
    + simpl. unfold c_slot. by rewrite Hgood.
Qed.

Lemma set_slot_same r i sl : ring_ r !! i = Some sl -> set_slot r i sl = r.
Proof. intros E. unfold set_slot, set_ring. rewrite list_insert_id by done. by destruct r. Qed.

Lemma sim_skip r ps u a c trying :
  sim (Pool r ps) a -> ps !! u = Some (Skip c trying) ->
  sim_next (skip r c trying).1 (<[u := (skip r c trying).2]> ps) a.
Proof.
  intros H Hp. pose proof (sim_local _ _ H _ _ Hp) as Hgood. simpl in Hgood.
  destruct (slot_at r a (c_ticket c) (sim_ring _ _ H)) as (sl & Hsl & Hrel).
  pose proof (sim_role_of _ _ _ _ _ H Hp) as Hrole. simpl in Hrole.
  destruct (ir_cons _ _ (ai_roles _ _ (sim_inv _ _ H)) _ _ _ Hrole) as (_ & _ & Hpos & _).
  unfold skip. simpl. rewrite (next_token_size r a) by (try apply H; done).
  assert (r = set_slot r (slot_index (mask_ r) (u32 (c_ticket c)))
                (RingSlot (base sl) (value sl) (g_pos sl))) as Hr.
  { symmetry. apply set_slot_same. by destruct sl. }
  rewrite Hr at 1. set (w := if trying then try_skip_done c else skip_done c).
  assert (wake_token w = tick (c_ticket c + size)) as Hw by by destruct trying.
  rewrite <- Hw.
  eapply (sim_write _ _ _ _ _ _ _
      (r_cons (c_ticket c) (c_releasing None)) _ _ w); eauto.
  - by apply (as_get size a u _ false None (value sl)).
  - rewrite role_of_waking. by destruct trying.
  - by destruct trying.
  - destruct trying; simpl; unfold c_slot; by rewrite Hgood.
Qed.

(** ** Writing the token *)

(** The ticket and the abstract rule behind the wake that a thread runs. *)
Definition wake_ticket (w : @after_wake V) : Z :=
  match w with
  | put_done p _ => p_ticket p
  | get_done c _ | skip_done c | try_skip_done c => c_ticket c
  end.

(** The slot after the write. *)
Definition woken_slot (w : @after_wake V) (al : @aslot V) : @aslot V :=
  match w with
  | put_done p ok => ASlot (p_ticket p) (held ok) (a_val al)
  | get_done c _ | skip_done c | try_skip_done c =>
      ASlot (c_ticket c + size) h_none (a_val al)
  end.

Lemma wake_slot_ticket r w :
  after_good w -> wake_slot r w = slot_index (mask_ r) (u32 (wake_ticket w)).
Proof. destruct w; simpl; unfold p_slot, c_slot; by intros ->. Qed.

Lemma wake_astep r ps u a w pc0 t :
  sim (Pool r ps) a -> ps !! u = Some (Waking w pc0) -> slot_phase pc0 = waking t ->
  astep size a (with_role (with_slot size a (wake_ticket w)
                  (woken_slot w (slot_of size a (wake_ticket w)))) u r_none) /\
  a_pos (slot_of size a (wake_ticket w)) = wake_ticket w.
Proof.
  intros H Hp Hph. pose proof (sim_role_of _ _ _ _ _ H Hp) as Hrole.
  simpl in Hrole. rewrite Hph in Hrole.
  pose proof (ai_roles _ _ (sim_inv _ _ H)) as Hr.
  destruct w; simpl.
  - split; [by eapply as_publish|].
    by destruct (ir_prod _ _ Hr _ _ _ _ Hrole) as (_ & _ & _ & ? & _).
  - split; [by eapply as_release|].
    by destruct (ir_cons _ _ Hr _ _ _ Hrole) as (_ & _ & ? & _).
  - split; [by eapply as_release|].
    by destruct (ir_cons _ _ Hr _ _ _ Hrole) as (_ & _ & ? & _).
  - split; [by eapply as_release|].
    by destruct (ir_cons _ _ Hr _ _ _ Hrole) as (_ & _ & ? & _).
Qed.

Lemma woken_slot_rel r w sl al b :
  mask_ r = size - 1 -> slot_rel sl al -> a_pos al = wake_ticket w ->
  slot_load b = wake_token w ->
  slot_rel (RingSlot b (value sl) (new_pos (mask_ r) sl b)) (woken_slot w al).
Proof.
  intros Hm [A B C D] Hpos Hb. unfold new_pos.
  rewrite !land_ticket_mask, D, Hb, Hm, <- A, Hpos.
  destruct w; simpl.
  { rewrite tick_lor, tick_tick, Z.eqb_refl by by destruct ok. split; simpl; try done.
    - unfold st_rel. rewrite Hb. simpl. rewrite status_lor_tick. by destruct ok.
    - rewrite Hb. simpl. rewrite tick_lor, tick_tick by by destruct ok. done. }
  all: rewrite tick_tick, (proj2 (Z.eqb_neq _ _)) by (apply tick_next_neq;
         [apply size_16|pose proof size_range; lia]).
  all: split; simpl; try done; [lia|unfold st_rel; rewrite Hb; apply status_tick|].
  all: rewrite Hb; simpl; rewrite tick_tick; f_equal; lia.
Qed.

(** Nobody waits in try_pop for the slot that is written. *)
Lemma wake_not_trying r ps u a w pc0 t sl :
  sim (Pool r ps) a -> ps !! u = Some (Waking w pc0) -> slot_phase pc0 = waking t ->
  slot_rel sl (slot_of size a (wake_ticket w)) ->
  g_head r = g_pos sl -> status_of (slot_load (base sl)) <> 0 -> False.
Proof.
  intros H Hp Hph Hrel Hh Hst. destruct (wake_astep r ps u a w pc0 t H Hp Hph) as [_ Hpos].
  pose proof (sim_role_of _ _ _ _ _ H Hp) as Hrole. simpl in Hrole. rewrite Hph in Hrole.
  pose proof (ai_roles _ _ (sim_inv _ _ H)) as Hr.
  pose proof (rr_head _ _ (sim_ring _ _ H)) as Hhead. simpl in Hhead.
  destruct Hrel as [A _ C _]. rewrite Hpos in A. destruct w; simpl in *.
  - destruct (ir_prod _ _ Hr _ _ _ _ Hrole) as (_ & _ & _ & _ & E & _).
    apply Hst. unfold st_rel in C. by rewrite E in C.
  - destruct (ir_cons _ _ Hr _ _ _ Hrole) as (? & _). lia.
  - destruct (ir_cons _ _ Hr _ _ _ Hrole) as (? & _). lia.
  - destruct (ir_cons _ _ Hr _ _ _ Hrole) as (? & _). lia.
Qed.

Lemma role_of_after (w : @after_wake V) : role_of (after w) = r_none.
Proof. by destruct w as [? []|? []|?|?]. Qed.

Lemma local_ok_after r u (w : @after_wake V) : local_ok r u (after w).
Proof. by destruct w as [? []|? []|?|?]. Qed.

Lemma sim_waking r ps u a w pc0 c r' p' :
  sim (Pool r ps) a -> ps !! u = Some (Waking w pc0) ->
  in_slot u r (wake_slot r w) pc0 c (Waking w) (fun _ => after w) = Some (r', p') ->
  sim_next r' (<[u := p']> ps) a.
Proof.
  intros H Hp Hin. destruct (in_slot_Some _ _ _ _ _ _ _ _ _ Hin) as (sl & b & x & Hsl & Hst & -> & ->).
  pose proof (sim_local _ _ H _ _ Hp) as (Hgood & sl0 & Hsl0 & Hok & Hph).
  simpl in Hsl0. rewrite Hsl in Hsl0. injection Hsl0 as <-.
  pose proof (slot_step_allowed _ _ _ _ _ _ Hok Hst) as Hall.
  destruct Hph as [Hph|Hph]; rewrite Hph in Hall; simpl in Hall.
  - destruct Hall as [[Htok Hnext]|[Htok Hnext]].
    + (* not written yet *)
      destruct x as [w'|]; simpl in Hnext; [|done]. injection Hnext as Hph'.
      eapply sim_next_refl, sim_quiet; eauto; [by rewrite Htok|by rewrite Htok| |].
      * simpl. by rewrite Hph, Hph'.
      * split; [done|]. eapply in_call_next; eauto.
    + (* the write *)
      destruct (wake_astep r ps u a w pc0 _ H Hp Hph) as [Hs Hpos].
      destruct (slot_at r a (wake_ticket w) (sim_ring _ _ H)) as (sl1 & Hsl1 & Hrel).
      pose proof Hsl as Hsl'. rewrite wake_slot_ticket, Hsl1 in Hsl' by done.
      injection Hsl' as ->.
      set (p' := match x with inl w' => Waking w w' | inr _ => after w end).
      assert (role_of p' = r_none /\ local_ok (set_base r (wake_slot r w) sl b) u p') as [Hro Hlo].
      { subst p'. destruct x as [w'|]; [|split; [apply role_of_after|apply local_ok_after]].
        destruct Hnext as [Hn|[? Hn]]; [|done]. injection Hn as Hph'. split.
        - simpl. by rewrite Hph'.
        - split; [done|]. eapply in_call_next; eauto. }
      eexists. split; [by apply rtc_once|].
      eapply sim_step; [exact H|exact Hp|by apply rtc_once|..].
      * rewrite wake_slot_ticket by done. apply ring_rel_role, ring_rel_slot; [apply H|].
        apply woken_slot_rel; try done. apply (rr_mask _ _ (sim_ring _ _ H)).
      * intros t. rewrite Hro. apply roles_insert.
      * apply words_set_base, H.
      * apply frame_set_base; [done| |].
        { intros u' w' Hu Hw. by eapply (slot_step_other u u'). }
        { intros E1 E2. edestruct wake_not_trying; eauto. }
      * done.
  - (* after the write *)
    destruct Hall as [Htok Hnext].
    eapply sim_next_refl, sim_quiet; eauto; [by rewrite Htok|by rewrite Htok| |].
    + simpl. rewrite Hph. destruct x as [w'|]; [|apply role_of_after].
      destruct Hnext as [Hn|[? Hn]]; [|done]. injection Hn as Hph'. simpl. by rewrite Hph'.
    + destruct x as [w'|]; [|apply local_ok_after].
      destruct Hnext as [Hn|[? Hn]]; [|done]. injection Hn as Hph'.
      split; [done|]. eapply in_call_next; eauto.
Qed.

(** ** Tickets *)

Lemma sim_push_fetch r ps u a m pk v :
  sim (Pool r ps) a -> ps !! u = Some (PushFetch m pk v) ->
  sim_next (set_tail r (u32 (tail_ r + 1)))
    (<[u := TailLoad (Producer m pk v (tail_ r) (g_tail r))]> ps) a.
Proof.
  intros H Hp. pose proof (sim_role_of _ _ _ _ _ H Hp) as Hrole. simpl in Hrole.
  pose proof (as_push_ticket size a u v Hrole) as Hs.
  destruct (sim_ring _ _ H) as [A B C D E F G]. destruct (sim_words _ _ H) as [I J K M N]. simpl in *.
  eexists. split; [by apply rtc_once|].
  eapply sim_step; [exact H|exact Hp|by apply rtc_once|..].
  - split; simpl; try done. congruence.
  - intros t. simpl. rewrite <- E. apply roles_insert.
  - split; simpl; try done. rewrite J. by autorewrite with words.
  - split; simpl; try done; try lia. intros i sl Hsl. by exists sl.
  - exact J.
Qed.

(** Taking a consumer ticket, in wait_pop or in try_pop. *)
Lemma sim_take_head r ps u q a st p' :
  sim (Pool r ps) a -> ps !! u = Some q ->
  astep size a (with_role (AState (a_slots a) (a_head a + 1) (a_tail a) (a_cells a) (a_limit a)
                   (a_roles a)) u (r_cons (a_head a) st)) ->
  role_of p' = r_cons (g_head r) st ->
  local_ok (set_head r (u32 (head_ r + 1))) u p' ->
  sim_next (set_head r (u32 (head_ r + 1))) (<[u := p']> ps) a.
Proof.
  intros H Hp Hs Hro Hl.
  destruct (sim_ring _ _ H) as [A B C D E F G]. destruct (sim_words _ _ H) as [I J K M N]. simpl in *.
  eexists. split; [by apply rtc_once|].
  eapply sim_step; [exact H|exact Hp|by apply rtc_once|..]; [| | | |done].
  - split; simpl; try done. congruence.
  - intros t. rewrite Hro. simpl. rewrite <- D. apply roles_insert.
  - split; simpl; try done. rewrite I. by autorewrite with words.
  - split; simpl; try done; try lia. intros i sl Hsl. by exists sl.
Qed.

Lemma sim_pop_fetch r ps u a m :
  sim (Pool r ps) a -> ps !! u = Some (PopFetch m) ->
  sim_next (set_head r (u32 (head_ r + 1)))
    (<[u := HeadLoad (Consumer m (head_ r) (g_head r))]> ps) a.
Proof.
  intros H Hp. pose proof (sim_role_of _ _ _ _ _ H Hp) as Hrole.
  eapply (sim_take_head _ _ _ _ _ c_searching); eauto.
  - by apply as_pop_ticket.
  - apply (sim_words _ _ H).
Qed.

(** ** try_pop *)

Lemma sim_try_pop_slot r ps u a c sl :
  sim (Pool r ps) a -> ps !! u = Some (TryPopSlot c) -> within (Pool r ps) = true ->
  ring_ r !! c_slot r c = Some sl ->
  sim (Pool r (<[u := if negb (ticket_matches (slot_load (base sl)) (c_token c))
                         || (Z.land (slot_load (base sl)) status_mask =? 0)
                      then TryPopClosed c else TryPopIncrement c (slot_load (base sl))]> ps)) a.
Proof.
  intros H Hp Hw Hsl. pose proof (sim_local _ _ H _ _ Hp) as [Hgood Hr]. simpl in Hr.
  pose proof (within_ticket _ _ _ _ _ _ Hw Hp eq_refl Hsl) as Hwin.
  destruct (ticket_matches _ _) eqn:Hm; simpl; [|by eapply sim_silent].
  case_match eqn:Hz; [by eapply sim_silent|].
  eapply sim_silent; eauto. split; [done|]. split; [done|]. intros _. exists sl.
  split; [done|]. split; [|split; [done|by apply Z.eqb_neq]].
  destruct (slot_at r a (c_ticket c) (sim_ring _ _ H)) as (sl' & Hsl' & Hrel).
  unfold c_slot in Hsl. rewrite Hgood, Hsl' in Hsl. injection Hsl as ->.
  rewrite <- (sr_pos _ _ Hrel). eapply tick_match; eauto.
  - eapply slot_rel_res; eauto; apply H.
  - unfold c_token in Hm. by rewrite Hgood, token_of_wrap in Hm.
Qed.

Lemma sim_try_pop_increment r ps u a c t :
  sim (Pool r ps) a -> ps !! u = Some (TryPopIncrement c t) -> within (Pool r ps) = true ->
  head_ r = c_count c ->
  sim_next (set_head r (u32 (c_count c + 1)))
    (<[u := if Z.land t status_valid =? 0 then Skip c true else GetValue c]> ps) a.
Proof.
  intros H Hp Hw Heq. pose proof (sim_local _ _ H _ _ Hp) as (Hgood & Hr & Hslot). simpl in Hr, Hslot.
  destruct (within_at _ _ _ Hw Hp) as (Hhw & _ & _). simpl in Hhw. apply Z.ltb_lt in Hhw.
  assert (g_head r = c_ticket c) as Hh.
  { apply (wrap_inj 32); [lia|lia|]. pose proof (w_head _ (sim_words _ _ H)) as E. simpl in E. congruence. }
  destruct (Hslot Hh) as (sl & Hsl & Hpos & Hst & Hn).
  destruct (slot_at r a (c_ticket c) (sim_ring _ _ H)) as (sl' & Hsl' & Hrel).
  unfold c_slot in Hsl. rewrite Hgood, Hsl' in Hsl. injection Hsl as ->.
  pose proof (sim_role_of _ _ _ _ _ H Hp) as Hrole.
  pose proof (rr_head _ _ (sim_ring _ _ H)) as Hah. simpl in Hah.
  assert (st_rel t (a_st (slot_of size a (c_ticket c)))) as Hrt.
  { unfold st_rel. rewrite <- Hst. apply Hrel. }
  assert (a_st (slot_of size a (c_ticket c)) <> h_none) as Hnn.
  { intros E. rewrite E in Hrt. done. }
  rewrite <- Heq.
  eapply (sim_take_head _ _ _ _ _ (c_reading (negb (Z.land t status_valid =? 0)))); eauto.
  - apply as_try_pop; [done| |]; rewrite Hah, Hh.
    + by rewrite (sr_pos _ _ Hrel).
    + by apply st_rel_valid.
  - rewrite Hh. by destruct (Z.land t status_valid =? 0).
  - by destruct (Z.land t status_valid =? 0).
Qed.

Lemma sim_try_pop r ps u a p c r' p' :
  sim (Pool r ps) a -> ps !! u = Some p -> within (Pool r ps) = true ->
  step_try_pop atomic_counter r p c = Some (r', p') -> sim_next r' (<[u := p']> ps) a.
Proof.
  intros H Hp Hw Hs. pose proof (sim_local _ _ H _ _ Hp) as Hl.
  unfold step_try_pop in Hs. destruct p, c; try done; simpl in Hl.
  - injection Hs as <- <-. eapply sim_next_refl, sim_silent; eauto. simpl.
    split; [apply (sim_words _ _ H)|].
    pose proof (ic_head _ _ (ai_counts _ _ (sim_inv _ _ H))) as Hh.
    rewrite (rr_head _ _ (sim_ring _ _ H)) in Hh. simpl in Hh. lia.
  - destruct (ring_ r !! c_slot r c0) as [sl|] eqn:Hsl; simpl in Hs; [|done].
    injection Hs as <- <-. by apply sim_next_refl, sim_try_pop_slot.
  - injection Hs as <- <-. apply sim_next_refl. destruct Hl.
    case_decide; by eapply sim_silent.
  - injection Hs as <- <-. by eapply sim_next_refl, sim_silent.
  - simpl in Hs. case_decide as E.
    + injection Hs as <- <-. by apply sim_try_pop_increment.
    + injection Hs as <- <-. by eapply sim_next_refl, sim_silent.
Qed.

(** ** close *)

Lemma sim_close_fetch r ps u a :
  sim (Pool r ps) a -> ps !! u = Some CloseFetch -> g_closes r = 0%nat ->
  sim_next (Ring (mask_ r) (ring_ r) (closed_ r) (last_ r) (head_ r)
              (u32 (tail_ r + u32 (mask_ r + 1)))
              (g_head r) (g_tail r + mask_ r + 1) (g_cells r) (Some (g_tail r)) (g_closes r + 1)%nat)
    (<[u := CloseLast (tail_ r)]> ps) a.
Proof.
  intros H Hp Hc. destruct (sim_ring _ _ H) as [A B C D E F G].
  destruct (sim_words _ _ H) as [I J K M N]. simpl in *.
  apply K in Hc as Hl. pose proof (as_close size a ltac:(congruence)) as Hs.
  eexists. split; [by apply rtc_once|].
  eapply sim_step; [exact H|exact Hp|by apply rtc_once|..].
  - split; simpl; try done; [|congruence]. lia.
  - intros t. simpl. case_decide; [subst|done]. by rewrite (sim_role_of _ _ _ _ _ H Hp).
  - split; simpl; try done.
    + rewrite J. autorewrite with words. f_equal. lia.
    + split; [done|lia].
    + intros E1. destruct (N E1) as (l & El & _). congruence.
  - split; simpl; try done; try lia; try congruence.
    intros i sl Hsl. by exists sl.
  - exists (g_tail r). by split.
Qed.

Lemma sim_close r ps u a p c r' p' :
  sim (Pool r ps) a -> ps !! u = Some p -> within (Pool r' (<[u := p']> ps)) = true ->
  step_close u r p c = Some (r', p') -> sim_next r' (<[u := p']> ps) a.
Proof.
  intros H Hp Hw Hs. pose proof (sim_local _ _ H _ _ Hp) as Hl.
  pose proof (sim_words _ _ H) as [I J K M N]. pose proof (sim_ring _ _ H) as HR.
  pose proof (sim_role_of _ _ _ _ _ H Hp) as Hrole.
  unfold step_close in Hs. destruct p, c; try done; simpl in *.
  - rewrite decide_False in Hs by done. injection Hs as <- <-.
    by eapply sim_next_refl, sim_silent.
  - injection Hs as <- <-. apply sim_close_fetch; try done.
    unfold within in Hw. apply andb_prop in Hw as [_ Hw]. simpl in Hw.
    apply Nat.leb_le in Hw. lia.
  - injection Hs as <- <-. destruct Hl as (l & El & ->).
    apply sim_next_refl. eapply sim_step; [exact H|exact Hp|done|..].
    + by destruct HR; split.
    + intros t. case_decide; [by subst|done].
    + split; simpl; try done. intros _. by exists l.
    + split; simpl; try done; try lia; [congruence|]. intros i sl Hsl. by exists sl.
    + by exists l.
  - injection Hs as <- <-. destruct Hl as (l & El & El2).
    apply sim_next_refl. eapply sim_step; [exact H|exact Hp|done|..].
    + by destruct HR; split.
    + intros t. case_decide; [by subst|done].
    + split; simpl; try done. intros _. by exists l.
    + split; simpl; try done; try lia. intros j sl Hsl. by exists sl.
    + done.
  - injection Hs as <- <-. apply sim_next_refl. case_match; [|by eapply sim_silent].
    destruct (slot_at r a (last_ r + i) HR) as (sl & Hsl & _).
    eapply sim_silent; eauto. split; [done|]. eapply in_call_enter; [exact Hsl|by left].
  - destruct (in_slot_Some _ _ _ _ _ _ _ _ _ Hs) as (sl & b & x & Hsl & Hst & -> & ->).
    destruct Hl as (Hcl & sl0 & Hsl0 & Hok & Hph). rewrite Hsl in Hsl0. injection Hsl0 as <-.
    pose proof (slot_step_allowed _ _ _ _ _ _ Hok Hst) as Hall.
    assert (quiet (slot_phase w)) as Hq by (destruct Hph; unfold quiet; tauto).
    destruct (quiet_step _ _ _ _ Hq Hall) as [Ht Hstat].
    eapply sim_next_refl, sim_quiet; eauto.
    + destruct x; [done|]. done.
    + destruct x as [w'|]; [|done]. split; [done|]. eapply in_call_next; eauto.
      destruct Hph as [Hph|Hph]; rewrite Hph in Hall; simpl in Hall; destruct Hall as [_ Hn].
      * destruct Hn as [Hn|[Hn|[? Hn]]]; [..|done]; injection Hn; auto.
      * destruct Hn as [Hn|[? Hn]]; [|done]; injection Hn; auto.
Qed.

(** ** wait_push and wait_pop *)

(** A step inside [slot.wait] during wait_tail. *)
Lemma sim_tail_wait r ps u a p w c r' p' :
  sim (Pool r ps) a -> ps !! u = Some (TailWait p w) -> within (Pool r ps) = true ->
  in_slot u r (p_slot r p) w c (TailWait p) (tail_test p) = Some (r', p') ->
  sim_next r' (<[u := p']> ps) a.
Proof.
  intros H Hp Hw Hs.
  destruct (in_slot_Some _ _ _ _ _ _ _ _ _ Hs) as (sl & b & x & Hsl & Hst & -> & ->).
  pose proof (sim_local _ _ H _ _ Hp) as (Hgood & sl0 & Hsl0 & Hok & Hph).
  simpl in Hsl0. rewrite Hsl in Hsl0. injection Hsl0 as <-.
  pose proof (slot_step_allowed _ _ _ _ _ _ Hok Hst) as Hall. rewrite Hph in Hall.
  destruct (quiet_step _ _ _ _ (or_introl eq_refl) Hall) as [Ht Hstat].
  destruct Hall as [_ Hn]. destruct x as [w'|t'].
  - destruct Hn as [Hn|]; [|done]. injection Hn as Hph'.
    eapply sim_next_refl, sim_quiet; eauto. split; [done|]. eapply in_call_next; eauto.
  - destruct Hn as [|Hn]; [done|]. injection Hn as ->.
    assert (sim (Pool (set_base r (p_slot r p) sl b) (<[u := TailLoad p]> ps)) a) as H1
      by by eapply sim_quiet.
    rewrite <- (list_insert_insert_eq ps u _ (TailLoad p)).
    eapply (sim_tail_test _ _ u (TailLoad p) a p
              (RingSlot b (value sl) (new_pos (mask_ r) sl b))); try done.
    + by eapply insert_lookup_self.
    + by eapply insert_lookup_self.
    + pose proof (within_ticket _ _ _ _ _ _ Hw Hp eq_refl Hsl) as Hwin.
      simpl. unfold new_pos. by rewrite !land_ticket_mask, Ht, Z.eqb_refl.
Qed.

(** A step inside [slot.wait] during wait_head. *)
Lemma sim_head_wait r ps u a l c w ch r' p' :
  sim (Pool r ps) a -> ps !! u = Some (HeadWait l c w) -> within (Pool r ps) = true ->
  in_slot u r (c_slot r c) w ch (HeadWait l c) (head_test l c) = Some (r', p') ->
  sim_next r' (<[u := p']> ps) a.
Proof.
  intros H Hp Hw Hs.
  destruct (in_slot_Some _ _ _ _ _ _ _ _ _ Hs) as (sl & b & x & Hsl & Hst & -> & ->).
  pose proof (sim_local _ _ H _ _ Hp) as (Hgood & sl0 & Hsl0 & Hok & Hph).
  simpl in Hsl0. rewrite Hsl in Hsl0. injection Hsl0 as <-.
  pose proof (slot_step_allowed _ _ _ _ _ _ Hok Hst) as Hall. rewrite Hph in Hall.
  destruct (quiet_step _ _ _ _ (or_introl eq_refl) Hall) as [Ht Hstat].
  destruct Hall as [_ Hn]. destruct x as [w'|t'].
  - destruct Hn as [Hn|]; [|done]. injection Hn as Hph'.
    eapply sim_next_refl, sim_quiet; eauto. split; [done|]. eapply in_call_next; eauto.
  - destruct Hn as [|Hn]; [done|]. injection Hn as ->.
    assert (sim (Pool (set_base r (c_slot r c) sl b) (<[u := HeadClosed l c 0]> ps)) a) as H1
      by by eapply sim_quiet.
    rewrite <- (list_insert_insert_eq ps u _ (HeadClosed l c 0)).
    eapply (sim_head_test _ _ u (HeadClosed l c 0) a l c
              (RingSlot b (value sl) (new_pos (mask_ r) sl b))); try done.
    + by eapply insert_lookup_self.
    + by eapply insert_lookup_self.
    + pose proof (within_ticket _ _ _ _ _ _ Hw Hp eq_refl Hsl) as Hwin.
      simpl. unfold new_pos. by rewrite !land_ticket_mask, Ht, Z.eqb_refl.
Qed.

Lemma sim_tail_last r ps u a p t :
  sim (Pool r ps) a -> ps !! u = Some (TailLast p t) -> within (Pool r ps) = true ->
  sim_next r (<[u := if past_last r (p_count p) then refused else tail_body p t]> ps) a.
Proof.
  intros H Hp Hw. pose proof (sim_local _ _ H _ _ Hp) as [Hgood Hcl].
  case_match eqn:E; [|by eapply sim_next_refl, sim_tail_body].
  destruct (past_last_limit _ _ _ _ _ _ H Hw Hp eq_refl Hgood Hcl E) as (l & Hl & Hle).
  eapply sim_next_role; [done|done| |done].
  eapply as_push_refused; eauto. by rewrite (sim_role_of _ _ _ _ _ H Hp).
Qed.

Lemma sim_head_last r ps u a lp c t :
  sim (Pool r ps) a -> ps !! u = Some (HeadLast lp c t) -> within (Pool r ps) = true ->
  sim_next r (<[u := if past_last r (c_count c) then refused else head_body lp c t]> ps) a.
Proof.
  intros H Hp Hw. pose proof (sim_local _ _ H _ _ Hp) as [Hgood Hcl].
  case_match eqn:E; [|eapply sim_next_refl, sim_head_body; eauto; by destruct lp].
  destruct (past_last_limit _ _ _ _ _ _ H Hw Hp eq_refl Hgood Hcl E) as (l & Hl & Hle).
  pose proof (sim_role_of _ _ _ _ _ H Hp) as Hrole.
  eapply sim_next_role; [done|done| |done].
  destruct lp; eapply as_pop_refused; eauto.
Qed.

Lemma sim_wait r ps u a p c r' p' :
  sim (Pool r ps) a -> ps !! u = Some p -> within (Pool r ps) = true ->
  step_wait tr moved_from u r p c = Some (r', p') -> sim_next r' (<[u := p']> ps) a.
Proof.
  intros H Hp Hw Hs. pose proof (sim_local _ _ H _ _ Hp) as Hl.
  unfold step_wait in Hs. destruct p, c; try done; simpl in Hl; simpl in Hs.
  - injection Hs as <- <-. by apply sim_push_fetch.
  - destruct (ring_ r !! p_slot r p) as [sl|] eqn:Hsl; simpl in Hs; [|done].
    injection Hs as <- <-. eapply sim_tail_test; eauto.
    by eapply (within_ticket (Pool r ps)).
  - injection Hs as <- <-. apply sim_next_refl.
    case_decide; [by eapply sim_silent|by eapply sim_tail_body].
  - injection Hs as <- <-. by apply sim_tail_last.
  - injection Hs as <- <-. by eapply sim_next_refl, sim_silent.
  - by eapply sim_tail_wait.
  - by eapply sim_put_value.
  - injection Hs as <- <-. by apply sim_pop_fetch.
  - destruct (ring_ r !! c_slot r c0) as [sl|] eqn:Hsl; simpl in Hs; [|done].
    injection Hs as <- <-. eapply (sim_head_test _ _ _ _ _ ticket_loop); eauto.
    by eapply (within_ticket (Pool r ps)).
  - injection Hs as <- <-. apply sim_next_refl.
    case_decide; [eapply sim_silent|eapply sim_head_body]; eauto; by destruct l.
  - injection Hs as <- <-. by apply sim_head_last.
  - injection Hs as <- <-. apply sim_next_refl.
    destruct (slot_at r a (c_ticket c0) (sim_ring _ _ H)) as (sl & Hsl & _).
    apply (sim_silent _ _ _ (HeadBackoff l c0 t)); [done|done|by destruct l|]. split; [done|].
    eapply in_call_enter; [|done]. unfold c_slot. simpl. rewrite Hl. exact Hsl.
  - by eapply sim_head_wait.
  - by eapply sim_get_value.
  - injection Hs as <- <-. by apply sim_skip.
  - by eapply sim_waking.
Qed.

(** ** The simulation *)

Lemma sim_exec s a l s' :
  sim s a -> within s = true -> ring_exec tr moved_from atomic_counter s l = Some s' ->
  within s' = true -> exists a', rtc (astep size) a a' /\ sim s' a'.
Proof.
  intros H Hw He Hw'. destruct l as [u c], s as [r ps]. pool_step He. simpl in Hp, Ht.
  destruct (within_at _ _ _ Hw Hp) as (_ & _ & Hn).
  destruct p; try done; simpl in Ht;
    try (by eapply sim_wait); try (by eapply sim_try_pop); try (by eapply sim_close).
  destruct c; try done. injection Ht as <- <-. exists a. split; [done|].
  eapply sim_silent; eauto; by destruct op.
Qed.
End refine.
