(* ===== verification/BqTheorems.v ===== *)
(** * Correctness of the bounded queue

    The theorems about the ring: construction, refinement of the channel,
    first-in first-out delivery, capacity, closing, exclusive access to values.
    They hold for every slot class with [SlotLaws], any number of threads and any
    schedule that stays within the window. *)

From stdpp Require Import gmap functions.
From S2P Require Import Prelude Conqueue BqSlot BqRing BqTokens BqTickets BqChannel BqRefine.
Local Open Scope Z_scope.

(** ** Construction *)

Lemma land_pred_pow2 n : 0 < n -> Z.land n (n - 1) = 0 <-> exists k, 0 <= k /\ n = 2 ^ k.
Proof.
  intros Hn. split.
  - intros H. exists (Z.log2 n). pose proof (Z.log2_nonneg n). split; [done|].
    pose proof (Z.log2_spec n Hn) as [Hlo Hhi].
    destruct (Z.eq_dec n (2 ^ Z.log2 n)) as [|Hne]; [done|]. exfalso.
    assert (Z.log2 (n - 1) = Z.log2 n) as Hl.
    { apply Z.log2_unique; [done|]. lia. }
    assert (Z.testbit (Z.land n (n - 1)) (Z.log2 n) = true) as Hb.
    { rewrite Z.land_spec, Z.bit_log2 by done. rewrite <- Hl. rewrite Z.bit_log2; [done|].
      assert (1 <= 2 ^ Z.log2 n) by (apply Z.pow_le_mono_r with (b := 0) (c := Z.log2 n) (a := 2); lia).
      lia. }
    by rewrite H, Z.bits_0 in Hb.
  - intros (k & Hk & ->). replace (2 ^ k - 1) with (Z.ones k) by (rewrite Z.ones_equiv; lia).
    rewrite Z.land_ones by done. apply Z_mod_same_full.
Qed.

Lemma create_None size :
  0 <= size < 2 ^ 32 -> create size = None <-> exists k, 4 <= k < 32 /\ size = 2 ^ k.
Proof.
  intros Hs. unfold create, min_size. case_decide as H1; [|case_decide as H2].
  - split; [done|]. intros (k & Hk & ->). exfalso.
    assert (2 ^ 4 <= 2 ^ k) by (apply Z.pow_le_mono_r; lia). lia.
  - split; [done|]. intros (k & Hk & E). destruct H2.
    apply land_pred_pow2; [lia|]. exists k. lia.
  - split; [|done]. intros _. apply land_pred_pow2 in H2 as (k & Hk & E); [|lia].
    exists k. split; [|done]. split.
    + apply (Z.pow_le_mono_r_iff 2); lia.
    + apply (Z.pow_lt_mono_r_iff 2); lia.
Qed.

(** The constructor accepts exactly the powers of two from 16 to [2^31];
    it rejects a smaller size and any other size with the error the source
    throws for it. *)
Theorem make_ring_spec {V} {S : Slot} (v0 : V) last0 size :
  0 <= size < 2 ^ 32 ->
  ((exists r, make_ring v0 last0 size = inr r) <-> exists k, 4 <= k < 32 /\ size = 2 ^ k) /\
  (make_ring v0 last0 size = inl invalid_argument_min_size <-> size < 16).
Proof.
  intros Hs. split.
  - rewrite <- create_None by done. unfold make_ring. destruct (create size).
    + split; [by intros [? ?]|done].
    + split; [done|]. eauto.
  - unfold make_ring, create, min_size. case_decide; [done|]. case_decide; (split; [done|lia]).
Qed.

Lemma make_ring_spec_witness :
  exists r, make_ring (S := spin) 0 0 16 = inr r.
Proof.
  destruct (make_ring_spec (S := spin) 0 0 16 ltac:(lia)) as [[_ H] _].
  apply H. exists 4. lia.
Defined.

(** The 32-bit arithmetic of the ring with masks is exact.  For a ring of [2^n]
    slots and an unbounded ticket [g], of which the counters hold the low 32 bits:
    the masked counter is the slot number [g] modulo the size, the counters move
    to the next ticket, the token a slot gets for the next round is the one its
    next ticket asks for, all overloads publish the same token, and two tickets
    of one slot that are less than [2^32] apart have different tokens. *)
Theorem addressing_exact tr k n g h :
  4 <= n < 32 ->
  let size := 2 ^ n in
  slot_index (size - 1) (u32 g) = Z.to_nat (g mod size) /\
  fetch_add (u32 g) 1 = (u32 g, u32 (g + 1)) /\
  next_token (size - 1) (token_of (u32 g)) = token_of (u32 (g + size)) /\
  put_token tr k (token_of (u32 g)) = Z.lor (token_of (u32 g)) status_valid /\
  (slot_index (size - 1) (u32 g) = slot_index (size - 1) (u32 h) -> Z.abs (g - h) < 2 ^ 32 ->
     token_of (u32 g) = token_of (u32 h) <-> g = h).
Proof.
  intros Hn size. pose proof (size_16 n Hn) as H16. pose proof (size_pos n Hn) as Hpos. rewrite !token_of_wrap. split_and!.
  - by apply slot_index_ticket.
  - unfold fetch_add. by rewrite wrap_add_l.
  - rewrite next_token_tick by by replace (size - 1 + 1) with size by lia. f_equal. lia.
  - apply put_token_tick.
  - unfold size. rewrite !slot_index_ticket by done. intros Hi Hd. split; [|by intros ->].
    apply (tick_inj size); try done. by apply Z2Nat.inj in Hi; [| apply Z.mod_pos_bound..].
Qed.

(** Position 16 of the second round of a ring of 16 slots. *)
Lemma addressing_exact_witness :
  slot_index 15 (u32 (2 ^ 32 + 16)) = 0%nat /\
  next_token 15 (token_of (u32 (2 ^ 32 - 16))) = token_of (u32 (2 ^ 32)).
Proof.
  split.
  - apply (addressing_exact (Traits true true) by_copy 4 (2 ^ 32 + 16) 0). lia.
  - apply (addressing_exact (Traits true true) by_copy 4 (2 ^ 32 - 16) 0). lia.
Defined.

Lemma destroy_from_spec n i size :
  0 <= i -> i + Z.of_nat n = size -> size < 2 ^ 32 -> destroy_from n i size = seqZ i (Z.of_nat n).
Proof.
  revert i. induction n as [|n IH]; intros i Hi Hn Hs; [done|].
  cbn [destroy_from]. rewrite (proj2 (Z.ltb_lt i size)) by lia. rewrite seqZ_cons by lia.
  rewrite (wrap_small 32) by lia. rewrite IH by lia. do 2 f_equal; lia.
Qed.

(** The destructor destroys every slot of a ring exactly once. *)
Lemma destroy_spec {V} {S : Slot} (v0 : V) last0 size r :
  0 <= size < 2 ^ 32 -> make_ring v0 last0 size = inr r -> destroy r = seqZ 0 size.
Proof.
  intros Hs Hr. unfold make_ring in Hr. destruct (create size); [done|]. injection Hr as <-.
  unfold destroy. simpl. rewrite Z.sub_add, (wrap_small 32) by lia.
  rewrite destroy_from_spec by lia. f_equal. lia.
Qed.

Section theorems.
Context {V : Type} {S : Slot} {L : SlotLaws S} (tr : traits) (moved_from : V -> V).

Local Abbreviation exec := (ring_exec tr moved_from atomic_counter).
Local Abbreviation state := (pool (ring V) (pc V)).

(** A new ring with [n] idle threads around it. *)
Definition ring_start (k : Z) (s : state) : Prop :=
  4 <= k < 32 /\ exists v0 last0 r n,
    make_ring v0 last0 (2 ^ k) = inr r /\ s = Pool r (replicate n (Idle None)).

(** Reachability in the runs the theorems speak of. *)
Definition reached (k : Z) : state -> Prop :=
  reachable_in exec (ring_start k) (fun s => within s = true).

Lemma make_ring_inr (v0 : V) last0 k r :
  4 <= k < 32 -> make_ring v0 last0 (2 ^ k) = inr r ->
  r = Ring (2 ^ k - 1)
        ((fun i => RingSlot (slot_init (Z.land i ticket_mask)) v0 i) <$> seqZ 0 (2 ^ k))
        cl_open last0 0 0 0 0 ∅ None 0.
Proof.
  intros Hk. assert (0 <= 2 ^ k < 2 ^ 32) as Hs.
  { split; [apply Z.pow_nonneg; lia|apply Z.pow_lt_mono_r; lia]. }
  unfold make_ring. rewrite (proj2 (create_None (2 ^ k) Hs)) by eauto. congruence.
Qed.

Lemma sim_start k s : ring_start k s -> exists a, sim k s a /\ a_fresh (2 ^ k) a.
Proof.
  intros (Hk & v0 & last0 & r & n & Hr & ->). apply make_ring_inr in Hr as ->; [|done].
  assert (0 < 2 ^ k) as Hpos by (apply Z.pow_pos_nonneg; lia).
  assert (a_fresh (2 ^ k) (AState (fun i => ASlot i h_none v0) 0 0 ∅ None (fun _ => r_none))) as Hf
    by by repeat split.
  eexists. split; [|exact Hf]. split; simpl.
  - split; simpl; try done.
    + by rewrite length_fmap, length_seqZ.
    + intros i sl Hi. rewrite list_lookup_fmap in Hi.
      destruct (seqZ 0 (2 ^ k) !! i) as [z|] eqn:Hz; simpl in Hi; [|done].
      apply lookup_seqZ in Hz as [-> Hz]. injection Hi as <-.
      split; simpl; try done; rewrite slot_init_load, ?land_ticket_mask.
      * unfold st_rel. apply status_tick.
      * apply tick_tick.
  - intros t. unfold role_at. destruct (replicate n (Idle None) !! t) eqn:E; simpl; [|done].
    apply lookup_replicate in E as [-> _]. done.
  - by apply ainv_fresh.
  - by split.
  - intros u p Hp. apply lookup_replicate in Hp as [-> _]. done.
Qed.

(** Every reached state is related to a state of the ticket machine. *)
Lemma reached_sim k s : reached k s -> 4 <= k < 32 /\ exists a, sim k s a.
Proof.
  intros H. induction H as [s Hs Hw|s l s' Hs [Hk [a Ha]] He Hw].
  - split; [apply Hs|]. destruct (sim_start k s Hs) as (a & ? & _). eauto.
  - split; [done|].
    destruct (sim_exec tr moved_from k Hk s a l s' Ha (reachable_in_end _ _ _ _ Hs) He Hw)
      as (a' & _ & ?). eauto.
Qed.

Definition channel (s : state) : @chan V :=
  Chan (g_head (shared s)) (g_tail (shared s)) (g_cells (shared s)) (g_limit (shared s)).

Lemma sim_channel k s a : sim k s a -> chan_of a = channel s.
Proof.
  intros H. destruct (sim_ring _ _ _ H) as [_ _ _ A B C D]. unfold chan_of, channel. congruence.
Qed.

Lemma reached_channel_step k s l s' :
  reached k s -> exec s l = Some s' -> within s' = true ->
  rtc (chan_step (2 ^ k)) (channel s) (channel s').
Proof.
  intros Hs He Hw. destruct (reached_sim k s Hs) as [Hk [a Ha]].
  destruct (sim_exec tr moved_from k Hk s a l s' Ha (reachable_in_end _ _ _ _ Hs) He Hw)
    as (a' & Hst & Ha').
  rewrite <- (sim_channel _ _ _ Ha), <- (sim_channel _ _ _ Ha').
  apply asteps_chan; [apply Z.pow_pos_nonneg; lia|apply Ha|done].
Qed.

(** C1. The ring refines the channel: the history of every run is a run of
    the channel specification from its start, whatever the number of threads,
    the schedule, the slot class and the operations called. *)
Theorem ring_refines_channel k s :
  reached k s -> rtc (chan_step (2 ^ k)) chan_start (channel s).
Proof.
  intros H. induction H as [s Hs Hw|s l s' Hs IH He Hw].
  - destruct Hs as (Hk & v0 & last0 & r & n & Hr & ->).
    by apply make_ring_inr in Hr as ->.
  - etrans; [exact IH|]. by eapply reached_channel_step.
Qed.

(** ** Exclusive access to the values

    put_value and get_value are the only places that touch [slot.value]. *)
Definition touches (r : ring V) (p : pc V) : option nat :=
  match p with
  | PutValue p => Some (p_slot r p)
  | GetValue c => Some (c_slot r c)
  | _ => None
  end.

(** The abstract slot a thread at a value access has found. *)
Lemma touches_role k (Hk : 4 <= k < 32) (s : state) a u p i :
  sim k s a -> pcs s !! u = Some p -> touches (shared s) p = Some i ->
  exists g, i = Z.to_nat (res (2 ^ k) g) /\ a_pos (slot_of (2 ^ k) a g) = g /\
    ((exists v, a_roles a u = r_prod g v p_writing) \/ a_roles a u = r_cons g (c_reading true)).
Proof.
  destruct s as [r ps]. intros H Hp Ht. pose proof (sim_role_of k r ps u p a H Hp) as Hrole.
  pose proof (rr_mask _ _ _ (sim_ring _ _ _ H)) as Hm. simpl in Hm.
  destruct p; try done; injection Ht as <-; simpl in Hrole.
  - pose proof (sim_local _ _ _ H _ _ Hp) as Hg. simpl in Hg. unfold p_good in Hg.
    exists (p_ticket p). split; [|split; [|by left; eexists]].
    + unfold p_slot. simpl. rewrite Hg, Hm. by apply slot_index_ticket.
    + apply (ir_prod _ _ (ai_roles _ _ (sim_inv _ _ _ H)) _ _ _ _ Hrole).
  - pose proof (sim_local _ _ _ H _ _ Hp) as Hg. simpl in Hg. unfold c_good in Hg.
    exists (c_ticket c). split; [|split; [|by right]].
    + unfold c_slot. simpl. rewrite Hg, Hm. by apply slot_index_ticket.
    + apply (ir_cons _ _ (ai_roles _ _ (sim_inv _ _ _ H)) _ _ _ Hrole).
Qed.

Lemma touches_once k s u1 u2 p1 p2 i :
  reached k s -> pcs s !! u1 = Some p1 -> pcs s !! u2 = Some p2 ->
  touches (shared s) p1 = Some i -> touches (shared s) p2 = Some i -> u1 = u2.
Proof.
  intros Hs H1 H2 T1 T2. destruct (reached_sim k s Hs) as [Hk [a Ha]].
  destruct (touches_role k Hk s a u1 p1 i Ha H1 T1) as (g1 & E1 & P1 & R1).
  destruct (touches_role k Hk s a u2 p2 i Ha H2 T2) as (g2 & E2 & P2 & R2).
  pose proof (res_range (2 ^ k) (size_pos k Hk) g1). pose proof (res_range (2 ^ k) (size_pos k Hk) g2).
  assert (g1 = g2) as <-.
  { rewrite <- P1, <- P2. unfold slot_of. do 2 f_equal. lia. }
  pose proof (sim_inv _ _ _ Ha) as Hinv.
  destruct R1 as [[v1 R1]|R1], R2 as [[v2 R2]|R2].
  - eapply (ir_prod_inj _ _ (ai_roles _ _ Hinv)); by do 2 eexists.
  - exfalso. eapply (held_no_producer (2 ^ k) a); [apply Hinv|apply Hinv|exact R1|done|].
    destruct (ir_cons _ _ (ai_roles _ _ Hinv) _ _ _ R2) as (_ & _ & _ & E). unfold size in E. by rewrite E.
  - exfalso. eapply (held_no_producer (2 ^ k) a); [apply Hinv|apply Hinv|exact R2|done|].
    destruct (ir_cons _ _ (ai_roles _ _ Hinv) _ _ _ R1) as (_ & _ & _ & E). unfold size in E. by rewrite E.
  - eapply (ir_cons_inj _ _ (ai_roles _ _ Hinv)); by eexists.
Qed.

(** C13. Exclusive access: two threads that are about to access the value of
    a slot (an assignment in put_value, a move in get_value) are at different
    slots. *)
Theorem value_access_exclusive k s u1 u2 p1 p2 i1 i2 :
  reached k s -> u1 <> u2 -> pcs s !! u1 = Some p1 -> pcs s !! u2 = Some p2 ->
  touches (shared s) p1 = Some i1 -> touches (shared s) p2 = Some i2 -> i1 <> i2.
Proof. intros Hs Hne H1 H2 T1 T2 ->. eapply Hne, touches_once; eauto. Qed.

(** ** Capacity *)

Definition pending (x : Z * cell V) : bool :=
  match x.2 with Full _ | Void => true | _ => false end.

(** How many tickets were filled and not emptied yet. *)
Definition occupied (r : ring V) : list (Z * cell V) :=
  List.filter pending (map_to_list (g_cells r)).

Lemma occupied_pos k (Hk : 4 <= k < 32) (s : state) a g x :
  sim k s a -> (g, x) ∈ occupied (shared s) -> a_pos (slot_of (2 ^ k) a g) = g.
Proof.
  intros H Hin. unfold occupied in Hin.
  apply list_elem_of_In, filter_In in Hin as [Hin Hx].
  apply list_elem_of_In, elem_of_map_to_list in Hin.
  rewrite <- (rr_cells _ _ _ (sim_ring _ _ _ H)) in Hin.
  pose proof (sim_inv _ _ _ H) as [Hs Hc _ _].
  destruct (ic_cells _ _ Hc _ _ Hin) as [Hg _].
  destruct (Z.lt_trichotomy (a_pos (slot_of (2 ^ k) a g)) g) as [Hlt|[?|Hgt]]; [|done|].
  - apply (is_future _ _ Hs) in Hlt. congruence.
  - assert (0 <= g < a_pos (slot_of (2 ^ k) a g)) as Hp by lia.
    apply (is_past _ _ Hs) in Hp. rewrite Hin in Hp. by destruct x.
Qed.

(** C24. Capacity: the queue never holds more than [size] items. *)
Theorem capacity_bound k s :
  reached k s -> Z.of_nat (length (occupied (shared s))) <= 2 ^ k.
Proof.
  intros Hs. destruct (reached_sim k s Hs) as [Hk [a Ha]].
  pose proof (size_pos k Hk) as Hpos. unfold size in Hpos.
  set (l := (fun x => res (2 ^ k) x.1) <$> occupied (shared s)).
  assert (NoDup l) as Hnd.
  { apply NoDup_fmap_2_strong.
    - intros [g1 x1] [g2 x2] H1 H2 E. simpl in E.
      assert (g1 = g2) as <-.
      { rewrite <- (occupied_pos k Hk s a g1 x1 Ha H1), <- (occupied_pos k Hk s a g2 x2 Ha H2).
        unfold slot_of. by rewrite E. }
      apply list_elem_of_In, filter_In in H1 as [H1 _], H2 as [H2 _].
      apply list_elem_of_In, elem_of_map_to_list in H1, H2. congruence.
    - apply NoDup_ListNoDup, List.NoDup_filter, NoDup_ListNoDup, NoDup_map_to_list. }
  assert (length l <= length (seqZ 0 (2 ^ k)))%nat as Hlen.
  { apply submseteq_length, NoDup_submseteq; [done|]. intros i Hi.
    apply list_elem_of_fmap in Hi as (x & -> & _). apply elem_of_seqZ.
    pose proof (res_range (2 ^ k) Hpos x.1). lia. }
  unfold l in Hlen. rewrite length_fmap, length_seqZ in Hlen. lia.
Qed.

(** ** Blocking *)

(** The thread cannot leave its waiting loop in the present state. *)
Definition blocked (r : ring V) (p : pc V) : bool :=
  match p with
  | TailLoad p | TailClosed p _ | TailLast p _ | TailBackoff p | TailWait p _ =>
      match ring_ r !! p_slot r p with
      | Some sl => negb (ticket_matches (slot_load (base sl)) (p_token p))
      | None => false
      end
  | HeadLoad c | HeadClosed _ c _ | HeadLast _ c _ | HeadBackoff _ c _ | HeadWait _ c _ =>
      match ring_ r !! c_slot r c with
      | Some sl => negb (ticket_matches (slot_load (base sl)) (c_token c))
                   || (Z.land (slot_load (base sl)) status_mask =? 0)
      | None => false
      end
  | _ => false
  end.

Definition idle (p : pc V) : bool := match p with Idle _ => true | _ => false end.

Lemma producer_blocked k (Hk : 4 <= k < 32) (s : state) a p :
  sim k s a -> p_good p ->
  match ring_ (shared s) !! p_slot (shared s) p with
  | Some sl => negb (ticket_matches (slot_load (base sl)) (p_token p))
  | None => false
  end = true -> a_pos (slot_of (2 ^ k) a (p_ticket p)) <> p_ticket p.
Proof.
  intros H Hg. destruct (slot_at k Hk _ a (p_ticket p) (sim_ring _ _ _ H)) as (sl & Hsl & [E1 _ _ E4]).
  unfold p_slot, p_token. rewrite !Hg, Hsl, token_of_wrap. intros Hn Hp. apply negb_true_iff in Hn.
  unfold ticket_matches in Hn. rewrite land_ticket_mask, E4, <- E1 in Hn.
  unfold size in Hn. by rewrite Hp, Z.eqb_refl in Hn.
Qed.

Lemma consumer_blocked k (Hk : 4 <= k < 32) (s : state) a c :
  sim k s a -> c_good c ->
  match ring_ (shared s) !! c_slot (shared s) c with
  | Some sl => negb (ticket_matches (slot_load (base sl)) (c_token c))
               || (Z.land (slot_load (base sl)) status_mask =? 0)
  | None => false
  end = true ->
  ~ (a_pos (slot_of (2 ^ k) a (c_ticket c)) = c_ticket c /\
     a_st (slot_of (2 ^ k) a (c_ticket c)) <> h_none).
Proof.
  intros H Hg. destruct (slot_at k Hk _ a (c_ticket c) (sim_ring _ _ _ H)) as (sl & Hsl & [E1 _ E3 E4]).
  unfold c_slot, c_token. rewrite !Hg, Hsl, token_of_wrap. intros Hn [Hp Hst].
  rewrite (st_rel_zero _ _ E3), bool_decide_eq_false_2, orb_false_r in Hn by done.
  apply negb_true_iff in Hn. unfold ticket_matches in Hn. rewrite land_ticket_mask, E4, <- E1 in Hn.
  unfold size in Hn. by rewrite Hp, Z.eqb_refl in Hn.
Qed.

Lemma role_blocked k (Hk : 4 <= k < 32) (s : state) a u p :
  sim k s a -> pcs s !! u = Some p -> idle p || blocked (shared s) p = true ->
  role_of p = r_none \/ a_blocked (2 ^ k) a (role_of p).
Proof.
  intros H Hp Hb. pose proof (sim_local _ _ _ H _ _ Hp) as Hl.
  destruct p; simpl in Hb; try done; [by left|..]; right; simpl in Hl; destruct_and?;
    try match goal with l : head_loop |- _ => destruct l end;
    first [by apply (producer_blocked k ltac:(done) s) | by apply (consumer_blocked k ltac:(done) s)].
Qed.

(** The ticket of a thread inside a waiting loop. *)
Definition push_ticket (p : pc V) : option Z :=
  match role_of p with r_prod g _ _ => Some g | _ => None end.
Definition pop_ticket (p : pc V) : option Z :=
  match role_of p with r_cons g _ => Some g | _ => None end.

(** When every thread is idle or blocked, only the due ones are blocked. *)
Lemma blocked_due k s u p :
  reached k s ->
  forallb (fun p => idle p || blocked (shared s) p) (pcs s) = true ->
  pcs s !! u = Some p ->
  (forall g, pop_ticket p = Some g -> default (g_tail (shared s)) (g_limit (shared s)) <= g) /\
  (forall g, push_ticket p = Some g -> below (g_limit (shared s)) g ->
     g_head (shared s) + 2 ^ k <= g).
Proof.
  intros Hs Hall Hp. destruct (reached_sim k s Hs) as [Hk [a Ha]].
  pose proof (sim_ring _ _ _ Ha) as [_ _ _ Eh Et _ El].
  assert (forall t, a_roles a t = r_none \/ a_blocked (2 ^ k) a (a_roles a t)) as Hbl.
  { intros t. rewrite (sim_roles _ _ _ Ha). unfold role_at.
    destruct (pcs s !! t) as [q|] eqn:Hq; [|by left]. simpl. eapply role_blocked; eauto.
    rewrite forallb_forall in Hall. apply Hall, list_elem_of_In. by eapply list_elem_of_lookup_2. }
  assert (a_roles a u = role_of p) as Hu by (destruct s; by eapply sim_role_of).
  pose proof (size_pos k Hk) as Hpos. rewrite <- Eh, <- Et, <- El. unfold pop_ticket, push_ticket.
  split; intros g; destruct (role_of p) eqn:Er; intros [= <-].
  - by apply (all_blocked_cons (2 ^ k) Hpos a (sim_inv _ _ _ Ha) Hbl u _ st).
  - by apply (all_blocked_prod (2 ^ k) Hpos a (sim_inv _ _ _ Ha) Hbl u _ v st).
Qed.

(** C14. No lost tickets: when every thread is idle or blocked in a waiting
    loop, a blocked pop has a ticket that no push has reached (or that lies
    past the closing position), and a blocked push has a ticket [size] or more
    ahead of all pops (unless the queue was closed before it).  In particular
    pushes and pops never block each other. *)
Theorem blocked_only_when_due k s u p :
  reached k s ->
  forallb (fun p => idle p || blocked (shared s) p) (pcs s) = true ->
  pcs s !! u = Some p ->
  (forall g, pop_ticket p = Some g -> default (g_tail (shared s)) (g_limit (shared s)) <= g) /\
  (forall g, push_ticket p = Some g -> below (g_limit (shared s)) g ->
     g_head (shared s) + 2 ^ k <= g).
Proof. apply blocked_due. Qed.

(** ** Quiescence *)

Definition all_idle (s : state) : bool := forallb idle (pcs s).

Lemma all_idle_roles k s a t : sim k s a -> all_idle s = true -> a_roles a t = r_none.
Proof.
  intros H Hi. rewrite (sim_roles _ _ _ H). unfold role_at.
  destruct (pcs s !! t) as [p|] eqn:E; [|done]. unfold all_idle in Hi.
  rewrite forallb_forall in Hi. apply list_elem_of_lookup_2, list_elem_of_In, Hi in E. by destruct p.
Qed.

Lemma idle_tickets k s g :
  reached k s -> all_idle s = true ->
  0 <= g < default (g_tail (shared s)) (g_limit (shared s)) ->
  if decide (g < g_head (shared s)) then settled (g_cells (shared s) !! g)
  else exists x, g_cells (shared s) !! g = Some x /\ pending (g, x) = true.
Proof.
  intros Hs Hi Hg. destruct (reached_sim k s Hs) as [Hk [a Ha]].
  pose proof (sim_ring _ _ _ Ha) as [_ _ _ Eh Et Ec El].
  pose proof (sim_inv _ _ _ Ha) as Hinv. unfold size in Hinv.
  pose proof (size_pos k Hk) as Hpos. unfold size in Hpos.
  rewrite <- Et, <- El in Hg. destruct (below_bound (2 ^ k) Hpos a Hinv g (proj2 Hg)) as [Htl Hb].
  rewrite <- Eh, <- Ec. case_decide as Hlt.
  - assert (~ ~ settled (a_cells a !! g)) as Hns.
    { intros Hn. destruct (iv_cons _ _ (ai_served _ _ Hinv) g) as (t & st & R); [lia|done| |].
      - apply unsettled_unreleased; [done|lia|done].
      - by rewrite (all_idle_roles k s a t Ha Hi) in R. }
    destruct (a_cells a !! g) as [[]|]; simpl in *; tauto.
  - destruct (a_cells a !! g) as [x|] eqn:E.
    + exists x. split; [done|]. destruct x; try done;
        (destruct Hlt; apply (ic_settled _ _ (ai_counts _ _ Hinv)); by rewrite E).
    + destruct (iv_prod _ _ (ai_served _ _ Hinv) g) as (t & v & st & R); [lia|done| |].
      * apply cell_None_unfilled; [done|lia|done].
      * by rewrite (all_idle_roles k s a t Ha Hi) in R.
Qed.

(** Conservation: when no operation is in progress, every push ticket
    below the closing position that pops have reached has been emptied, and
    every other one still holds its item.  Nothing is lost and nothing
    appears. *)
Theorem idle_conservation k s :
  reached k s -> all_idle s = true ->
  (forall g, 0 <= g < g_head (shared s) ->
     g < default (g_tail (shared s)) (g_limit (shared s)) -> settled (g_cells (shared s) !! g)) /\
  (forall g, g_head (shared s) <= g < default (g_tail (shared s)) (g_limit (shared s)) ->
     exists x, g_cells (shared s) !! g = Some x /\ pending (g, x) = true) /\
  (forall g x, g_cells (shared s) !! g = Some x ->
     0 <= g < default (g_tail (shared s)) (g_limit (shared s))).
Proof.
  intros Hs Hi. destruct (reached_sim k s Hs) as [Hk [a Ha]].
  pose proof (sim_ring _ _ _ Ha) as [_ _ _ Eh Et Ec El].
  destruct (ai_counts _ _ (sim_inv _ _ _ Ha)) as [Hh _ _ Hc _]. split; [|split].
  - intros g H0 H1. pose proof (idle_tickets k s g Hs Hi) as H. rewrite decide_True in H by lia.
    apply H. lia.
  - intros g H0. pose proof (idle_tickets k s g Hs Hi) as H. rewrite decide_False in H by lia.
    apply H. lia.
  - intros g x Hx. rewrite <- Ec in Hx. destruct (Hc g x Hx) as [H0 Hb].
    rewrite <- Et, <- El. destruct (a_limit a); simpl; [|lia]. specialize (Hb _ eq_refl). lia.
Qed.

(** ** State operations *)

Lemma is_empty_tickets k s :
  reached k s -> - 2 ^ 31 <= g_tail (shared s) - g_head (shared s) < 2 ^ 31 ->
  is_empty (shared s) = (g_tail (shared s) <=? g_head (shared s)).
Proof.
  intros Hs Hw. destruct (reached_sim k s Hs) as [Hk [a Ha]].
  destruct (sim_words _ _ _ Ha) as [Hh Ht _ _ _].
  unfold is_empty. rewrite Hh, Ht. autorewrite with words. rewrite to_signed_wrap by lia.
  destruct (Z.leb_spec (g_tail (shared s) - g_head (shared s)) 0),
    (Z.leb_spec (g_tail (shared s)) (g_head (shared s))); lia.
Qed.

Lemma occupied_spec r g x :
  (g, x) ∈ occupied r <-> g_cells r !! g = Some x /\ pending (g, x) = true.
Proof.
  unfold occupied. rewrite list_elem_of_In, filter_In, <- list_elem_of_In, elem_of_map_to_list. done.
Qed.

(** is_empty: when no operation is in progress and the queue is open, it
    answers whether any item is left, as long as the counters are less than
    [2^31] apart. *)
Theorem is_empty_spec k s :
  reached k s -> all_idle s = true -> g_limit (shared s) = None ->
  - 2 ^ 31 <= g_tail (shared s) - g_head (shared s) < 2 ^ 31 ->
  is_empty (shared s) = true <-> occupied (shared s) = [].
Proof.
  intros Hs Hi Hl Hw. rewrite (is_empty_tickets k s Hs Hw), Z.leb_le.
  pose proof (idle_tickets k s) as Hd. rewrite Hl in Hd. simpl in Hd.
  destruct (reached_sim k s Hs) as [Hk [a Ha]].
  pose proof (sim_ring _ _ _ Ha) as [_ _ _ Eh Et Ec _].
  destruct (ai_counts _ _ (sim_inv _ _ _ Ha)) as [Hh _ _ Hc _]. split.
  - intros Hle. destruct (occupied (shared s)) as [|[g x] l] eqn:E; [done|exfalso].
    assert ((g, x) ∈ occupied (shared s)) as Hin by (rewrite E; by left).
    apply occupied_spec in Hin as [Hx Hp]. rewrite <- Ec in Hx. destruct (Hc g x Hx) as [Hg _].
    specialize (Hd g Hs Hi). rewrite decide_True, <- Ec, Hx in Hd by lia.
    destruct x; simpl in *; try done; apply Hd; lia.
  - intros E. apply Z.nlt_ge. intros Hlt. specialize (Hd (g_head (shared s)) Hs Hi).
    rewrite decide_False in Hd by lia. destruct Hd as (x & Hx & Hp); [lia|].
    assert ((g_head (shared s), x) ∈ occupied (shared s)) as Hin by by apply occupied_spec.
    rewrite E in Hin. by apply not_elem_of_nil in Hin.
Qed.

(** is_full: with the counters less than [2^31] apart it is also true
    whenever more pops than pushes have started, because the difference is
    compared as an unsigned number. *)
Theorem is_full_spec k s :
  reached k s -> - 2 ^ 31 <= g_tail (shared s) - g_head (shared s) < 2 ^ 31 ->
  is_full (shared s) = true <->
    g_head (shared s) + 2 ^ k <= g_tail (shared s) \/ g_tail (shared s) < g_head (shared s).
Proof.
  intros Hs Hw. destruct (reached_sim k s Hs) as [Hk [a Ha]].
  destruct (sim_words _ _ _ Ha) as [Hh Ht _ _ _].
  pose proof (rr_mask _ _ _ (sim_ring _ _ _ Ha)) as Hm. unfold size in Hm.
  assert (2 ^ k <= 2 ^ 31) as H31 by (apply Z.pow_le_mono_r; lia).
  unfold is_full. rewrite Hh, Ht. autorewrite with words. rewrite to_signed_wrap, Hm by lia.
  rewrite Z.ltb_lt. unfold wrap.
  destruct (Z.lt_ge_cases (g_tail (shared s) - g_head (shared s)) 0) as [Hn|Hn].
  - rewrite <- (Z_mod_plus_full _ 1), Z.mod_small by lia. lia.
  - rewrite Z.mod_small by lia. lia.
Qed.

(** ** Closing *)

Definition refused_at (s' : state) (u : nat) : Prop :=
  pcs s' !! u = Some refused.

(** Closing cuts at one position: no ticket at or after it is ever filled,
    and an operation that looks at the closing position is refused exactly when
    its ticket is at or after it. *)
Theorem close_cuts k s l :
  reached k s -> g_limit (shared s) = Some l ->
  (forall g x, g_cells (shared s) !! g = Some x -> 0 <= g < l) /\
  (forall u p t s', pcs s !! u = Some (TailLast p t) -> exec s (u, Go) = Some s' ->
     refused_at s' u <-> l <= p_ticket p) /\
  (forall u lp c t s', pcs s !! u = Some (HeadLast lp c t) -> exec s (u, Go) = Some s' ->
     refused_at s' u <-> l <= c_ticket c).
Proof.
  intros Hs Hl. pose proof (reachable_in_end _ _ _ _ Hs) as Hw.
  destruct (reached_sim k s Hs) as [Hk [a Ha]].
  pose proof (sim_ring _ _ _ Ha) as [_ _ _ _ _ Ec El].
  split; [|split].
  - intros g x Hx. rewrite <- Ec in Hx. rewrite <- El in Hl.
    destruct (ic_cells _ _ (ai_counts _ _ (sim_inv _ _ _ Ha)) g x Hx) as [? Hb].
    specialize (Hb _ Hl). lia.
  - intros u p t s' Hp He. destruct (sim_local _ _ _ Ha _ _ Hp) as [Hg Hcl].
    destruct (w_closed _ (sim_words _ _ _ Ha) Hcl) as (l' & Hl' & Hlast).
    assert (l' = l) as -> by congruence. pool_step He. rewrite Hp in Hp0. injection Hp0 as <-.
    injection Ht as <- <-. unfold refused_at. simpl. rewrite (insert_lookup_self _ _ _ _ Hp).
    rewrite Hg, (past_last_ticket _ l (p_ticket p) Hlast)
      by by apply (within_limit s u (TailLast p t) (p_count p)).
    destruct (Z.leb_spec l (p_ticket p)); [done|]. split; [|lia].
    unfold tail_body, refused. by destruct (p_mode p) as [|[]].
  - intros u lp c t s' Hp He. destruct (sim_local _ _ _ Ha _ _ Hp) as [Hg Hcl].
    destruct (w_closed _ (sim_words _ _ _ Ha) Hcl) as (l' & Hl' & Hlast).
    assert (l' = l) as -> by congruence. pool_step He. rewrite Hp in Hp0. injection Hp0 as <-.
    injection Ht as <- <-. unfold refused_at. simpl. rewrite (insert_lookup_self _ _ _ _ Hp).
    rewrite Hg, (past_last_ticket _ l (c_ticket c) Hlast)
      by by apply (within_limit s u (HeadLast lp c t) (c_count c)).
    destruct (Z.leb_spec l (c_ticket c)); [done|]. split; [|lia].
    unfold head_body, refused. by destruct (c_mode c) as [|[]].
Qed.

(** ** Words of the machine *)

Lemma lor_u32 t f : 0 <= t < 2 ^ 32 -> 0 <= f < 2 ^ 32 -> 0 <= Z.lor t f < 2 ^ 32.
Proof.
  intros Ht Hf. split; [by apply Z.lor_nonneg; lia|].
  destruct (Z.eq_dec (Z.lor t f) 0) as [->|Hne]; [lia|].
  apply Z.log2_lt_pow2; [pose proof (proj2 (Z.lor_nonneg t f)); lia|].
  rewrite Z.log2_lor by lia. apply Z.max_lub_lt.
  - destruct (Z.eq_dec t 0) as [->|]; [done|]. apply Z.log2_lt_pow2; lia.
  - destruct (Z.eq_dec f 0) as [->|]; [done|]. apply Z.log2_lt_pow2; lia.
Qed.

Lemma wake_token_u32 k (w : @after_wake V) : 0 <= wake_token k w < 2 ^ 32.
Proof.
  destruct w as [p ok| | |]; simpl; try (match goal with |- context [tick ?g] => pose proof (tick_range g) end; lia).
  pose proof (tick_range (p_ticket p)). apply lor_u32; [lia|]. destruct ok; done.
Qed.
End theorems.
