(* ===== verification/BqCalls.v ===== *)
(** * The ring and its slot calls (evenk/bounded_queue.h)

    Every step of the ring either leaves the tokens of the slots alone, and may
    enter a call of a slot, or is one step of the slot call its thread is in.
    This is what the ring owes to its slots; here it gives what a slot's token
    says of its tickets, in [BqWake] the absence of lost wake-ups. *)

From stdpp Require Import gmap functions.
From S2P Require Import Prelude Conqueue BqSlot BqRing BqTokens BqTickets BqChannel BqRefine BqTheorems.
Local Open Scope Z_scope.

Section ring_calls.
Context {V : Type} {S : Slot}.
Context (tr : traits) (moved_from : V -> V).

(** The slot call a thread of the ring is in. *)
Definition call_at (r : ring V) (p : pc V) : option (nat * slot_pc) :=
  match p with
  | TailWait p w => Some (p_slot r p, w)
  | HeadWait _ c w => Some (c_slot r c, w)
  | Waking a w => Some (wake_slot r a, w)
  | CloseSlot _ slot w => Some (slot, w)
  | _ => None
  end.

(** What a thread may enter next. *)
Definition enters (r : ring V) (p : pc V) : Prop :=
  call_at r p = None \/ exists i cl, call_at r p = Some (i, slot_enter cl).

Lemma call_at_tail_test (r : ring V) p t : call_at r (tail_test p t) = None.
Proof. unfold tail_test. by case_match. Qed.

Lemma call_at_head_test (r : ring V) l c t : call_at r (head_test l c t) = None.
Proof. unfold head_test, status_test, head_exit. by repeat case_match. Qed.

Lemma call_at_after (r : ring V) (a : @after_wake V) : call_at r (after a) = None.
Proof. by destruct a as [|? []| |]. Qed.

Lemma enters_tail_body (r : ring V) p t : enters r (tail_body p t).
Proof. unfold enters, tail_body. destruct (p_mode p) as [|[]]; simpl; eauto. Qed.

Lemma enters_head_body (r : ring V) l c t : enters r (head_body l c t).
Proof. unfold enters, head_body. destruct (c_mode c) as [|[]]; simpl; eauto. Qed.

Lemma base_write (r : ring V) i sl v g j :
  ring_ r !! i = Some sl ->
  base <$> <[i := RingSlot (base sl) v g]> (ring_ r) !! j = base <$> ring_ r !! j.
Proof.
  intros Hi. destruct (decide (i = j)) as [<-|]; [|by rewrite list_lookup_insert_ne].
  rewrite list_lookup_insert_eq, Hi; [done|]. eauto with pools.
Qed.

(** A step that leaves the slots' tokens alone. *)
Definition outside (r : ring V) (p : pc V) (r' : ring V) (p' : pc V) : Prop :=
  call_at r p = None /\ (forall i, base <$> ring_ r' !! i = base <$> ring_ r !! i) /\ enters r p'.

(** A step of the slot call the thread is in. *)
Definition inside (u : nat) (r : ring V) (p : pc V) (r' : ring V) (p' : pc V) : Prop :=
  exists i w ch sl b x,
    call_at r p = Some (i, w) /\ ring_ r !! i = Some sl /\
    slot_step u (base sl) w ch = Some (b, x) /\ r' = set_base r i sl b /\
    call_at r p' = match x with inl w' => Some (i, w') | inr _ => None end.

Lemma inside_slot u (r : ring V) p i w c again kont r' p' :
  call_at r p = Some (i, w) -> in_slot u r i w c again kont = Some (r', p') ->
  (forall w', call_at r (again w') = Some (i, w')) -> (forall t, call_at r (kont t) = None) ->
  mask_ r' = mask_ r /\ inside u r p r' p'.
Proof.
  intros Hp Hs Ha Hk. apply in_slot_Some in Hs as (sl & b & x & Hi & Hs & -> & ->).
  split; [done|]. exists i, w, c, sl, b, x. split_and!; try done. by destruct x.
Qed.

Lemma wait_calls u (r : ring V) p c r' p' :
  step_wait tr moved_from u r p c = Some (r', p') ->
  mask_ r' = mask_ r /\ (outside r p r' p' \/ inside u r p r' p').
Proof.
  intros H. destruct p, c; try done; simpl in H;
    try match goal with |- ?m /\ (_ \/ ?i) =>
      enough (m /\ i) by tauto;
      eapply inside_slot; [|exact H|done|]; [done|];
      intros; first [apply call_at_tail_test|apply call_at_head_test|apply call_at_after]
    end.
  all: unfold put_value, get_value, skip in H; repeat case_match; simplify_option_eq;
    (split; [done|]); left; (split; [done|]); (split; [intros; simpl; by rewrite ?base_write|]);
    try (apply enters_tail_body || apply enters_head_body);
    try (left; by rewrite ?call_at_tail_test);
    try (left; apply (call_at_head_test _ ticket_loop)); right; eauto.
Qed.

Lemma try_calls u (r : ring V) p c r' p' :
  step_try_pop atomic_counter r p c = Some (r', p') \/
  step_try_push atomic_counter r p c = Some (r', p') ->
  mask_ r' = mask_ r /\ (outside r p r' p' \/ inside u r p r' p').
Proof.
  intros [H|H]; destruct p, c; try done; simpl in H; repeat case_match; simplify_option_eq;
    (split; [done|]); left; (split; [done|]); (split; [done|]); left; simpl; by repeat case_match.
Qed.

Lemma close_calls u (r : ring V) p c r' p' :
  step_close u r p c = Some (r', p') ->
  mask_ r' = mask_ r /\ (outside r p r' p' \/ inside u r p r' p').
Proof.
  intros H. destruct p, c; try done; simpl in H;
    try (match goal with |- ?m /\ (_ \/ ?i) =>
      enough (m /\ i) by tauto; by eapply inside_slot; [|exact H|..] end).
  all: repeat case_match; simplify_option_eq;
    (split; [done|]); left; (split; [done|]); (split; [done|]); by (left + (right; eauto)).
Qed.

Lemma ring_calls u (r : ring V) p c r' p' :
  ring_step tr moved_from atomic_counter u r p c = Some (r', p') ->
  mask_ r' = mask_ r /\ (outside r p r' p' \/ inside u r p r' p').
Proof.
  intros H. destruct p; cbn [ring_step] in H;
    first [by apply wait_calls in H|by apply close_calls in H|by apply try_calls with c; auto|idtac].
  destruct c; try done. injection H as <- <-. split; [done|]. left. split; [done|].
  split; [done|]. left. by destruct op.
Qed.

End ring_calls.

(** ** Words of the machine *)

Section words.
Context {V : Type} {S : Slot} {L : SlotLaws S}.
Context (tr : traits) (moved_from : V -> V).

Definition tokens_u32 (r : ring V) : Prop :=
  forall i sl, ring_ r !! i = Some sl -> 0 <= slot_load (base sl) < 2 ^ 32.

(** What a step of a slot call may write. *)
Lemma allowed_u32 ph tok tok' next :
  0 <= tok < 2 ^ 32 -> (forall t, ph = waking t -> 0 <= t < 2 ^ 32) ->
  step_allowed ph tok tok' next -> 0 <= tok' < 2 ^ 32.
Proof.
  intros Ht Hw H. destruct ph as [|t| |]; simpl in H.
  - destruct H as [[->| ->] _]; [done|by apply lor_u32].
  - destruct H as [[-> _]|[-> _]]; [done|by apply Hw].
  - destruct H as [[->| ->] _]; [done|by apply lor_u32].
  - by destruct H as [-> _].
Qed.

Lemma call_phase k (s : pool (ring V) (pc V)) a u p i w :
  sim k s a -> pcs s !! u = Some p -> call_at (shared s) p = Some (i, w) ->
  in_call (shared s) u i w (fun ph => forall t, ph = waking t -> 0 <= t < 2 ^ 32).
Proof.
  intros H Hp Hc. pose proof (sim_local _ _ _ H _ _ Hp) as Hl.
  destruct p; try done; injection Hc as <- <-; simpl in Hl; destruct Hl as [_ (sl & Hsl & Hok & Hph)];
    exists sl; (split; [done|]); (split; [done|]); intros t' E; rewrite E in Hph.
  - done.
  - done.
  - destruct Hph as [[= ->]|Hph]; [apply wake_token_u32|done].
  - by destruct Hph.
Qed.

Lemma tokens_step k s a l s' :
  sim k s a -> tokens_u32 (shared s) -> ring_exec tr moved_from atomic_counter s l = Some s' ->
  tokens_u32 (shared s').
Proof.
  intros H Ht He. destruct l as [u c], s as [r ps]. pool_step He. simpl in Hp, Ht, Ht0 |- *.
  destruct (ring_calls _ _ _ _ _ _ _ _ Ht0) as [_ [(_ & Hb & _)|Hin]]; intros i sl Hi.
  - specialize (Hb i). rewrite Hi in Hb. destruct (ring_ r !! i) as [sl0|] eqn:Hsl; [|done].
    simpl in Hb. injection Hb as ->. by eapply Ht.
  - destruct Hin as (j & w & ch & sl0 & b & x & Hc & Hsl & Hs & -> & _). simpl in Hi.
    apply insert_lookup_cases in Hi as [(-> & -> & _)|[_ Hi]]; [|by eapply Ht]. simpl.
    destruct (call_phase k _ a u p j w H Hp Hc) as (sl1 & Hsl1 & Hok & Hph). simpl in Hsl1.
    rewrite Hsl in Hsl1. injection Hsl1 as <-.
    eapply allowed_u32; [by eapply Ht|exact Hph|by eapply slot_step_allowed].
Qed.

Lemma reached_tokens k s : reached tr moved_from k s -> tokens_u32 (shared s).
Proof.
  intros H. induction H as [s Hs Hw|s l s' Hs IH He Hw].
  - destruct Hs as (Hk & v0 & last0 & r & n & Hr & ->). apply make_ring_inr in Hr as ->; [|done].
    intros i sl Hi. simpl in Hi. rewrite list_lookup_fmap in Hi.
    destruct (seqZ 0 (2 ^ k) !! i) as [z|]; [|done]. injection Hi as <-. simpl.
    rewrite slot_init_load, land_ticket_mask. pose proof (tick_range z). lia.
  - destruct (reached_sim tr moved_from k s Hs) as [Hk [a Ha]]. by eapply tokens_step.
Qed.

(** The fate of the ticket a slot serves, as the token tells it: nothing yet
    published, a value, or no valid value; a ticket that is settled may still
    have to be released. *)
Definition token_tells (tok : Z) (o : option (cell V)) (v : V) : Prop :=
  (status_of tok = 0 /\ ~ settled o) \/
  (status_of tok = status_valid /\ (o = Some (Full v) \/ settled o)) \/
  (status_of tok = status_invalid /\ (o = Some Void \/ settled o)).

Lemma st_ok_tells h tok o v : st_rel tok h -> st_ok h o v -> token_tells tok o v.
Proof. unfold st_rel, token_tells. destruct h; simpl; auto. Qed.

Lemma slot_of_index k (a : @astate V) i c :
  4 <= k < 32 -> c mod 2 ^ k = Z.of_nat i -> slot_of (2 ^ k) a c = a_slots a (Z.of_nat i).
Proof. intros Hk E. unfold slot_of, res. by rewrite E. Qed.

(** C31. What every slot holds agrees with its token, in every state reached:
    slot [i] serves the ticket [g_pos], one of those congruent to [i] modulo the
    size; its token is a 32-bit word whose ticket bits are those of [g_pos] and
    whose status bits tell what became of that ticket (with the valid bit set,
    the slot's value is the one put, until the pop took it); the earlier tickets
    of the slot are all settled and nothing has been put for the later ones. *)
Theorem slot_serves_ticket k s i sl :
  reached tr moved_from k s -> ring_ (shared s) !! i = Some sl ->
  let cells := g_cells (shared s) in
  let tok := slot_load (base sl) in
  g_pos sl mod 2 ^ k = Z.of_nat i /\ 0 <= tok < 2 ^ 32 /\
  Z.land tok ticket_mask = token_of (u32 (g_pos sl)) /\
  token_tells tok (cells !! g_pos sl) (value sl) /\
  (forall c, 0 <= c < g_pos sl -> c mod 2 ^ k = Z.of_nat i -> settled (cells !! c)) /\
  (forall c, g_pos sl < c -> c mod 2 ^ k = Z.of_nat i -> cells !! c = None).
Proof.
  intros Hs Hi cells tok. destruct (reached_sim tr moved_from k s Hs) as [Hk [a Ha]].
  pose proof (sim_ring _ _ _ Ha) as Hr. pose proof (rr_slot _ _ _ Hr i sl Hi) as [E1 E2 E3 E4].
  pose proof (sim_inv _ _ _ Ha) as [Hsl _ _ _]. unfold size in *.
  assert (0 <= Z.of_nat i < 2 ^ k) as Hik.
  { apply lookup_lt_Some in Hi. rewrite (rr_len _ _ _ Hr) in Hi. unfold size in Hi. lia. }
  destruct (is_res _ _ Hsl _ Hik) as [Hres H0]. rewrite E1 in Hres, H0. unfold res in Hres.
  assert (forall c, c mod 2 ^ k = Z.of_nat i -> a_pos (slot_of (2 ^ k) a c) = g_pos sl) as Hof
    by (intros c Hc; by rewrite (slot_of_index k a i c Hk Hc)).
  unfold cells, tok. rewrite <- (rr_cells _ _ _ Hr).
  split; [done|]. split; [by eapply reached_tokens|].
  split; [by rewrite land_ticket_mask, E4, token_of_wrap|]. split.
  - apply st_ok_tells with (a_st (a_slots a (Z.of_nat i))); [done|]. rewrite <- E2.
    rewrite <- (slot_of_index k a i (g_pos sl) Hk Hres). by apply (is_now _ _ Hsl), Hof.
  - split; intros c Hc Hm.
    + apply (is_past _ _ Hsl). by rewrite Hof.
    + apply (is_future _ _ Hsl). by rewrite Hof.
Qed.
End words.
