(* ===== verification/BqWake.v ===== *)
(** * No lost wake-ups in the ring (evenk/bounded_queue.h)

    [BqTheorems] shows that a thread whose token does not come is due to wait.
    This file shows that the slots put nobody to sleep for another reason: when
    the pool is stuck, every thread inside a call waits for a token that is not
    there.  [SlotWake] is what a slot class promises about its sleepers; the
    futex slot keeps it with the waiting flag and a wake of everybody, the
    synch slot with its mutex. *)

From stdpp Require Import gmap functions.
From S2P Require Import Prelude Conqueue Futex BqSlot BqRing BqTokens BqTickets BqChannel BqRefine.
From S2P Require Import BqTheorems BqCalls.
Local Open Scope Z_scope.

(** ** The interface

    A group of threads calls the operations of one slot; [f u] is the call
    that thread [u] is in.  [slot_stuck s u p] says that thread [u] has to be
    woken or let in by somebody else before it can go on from [p], and
    [slot_awaited] is the token a call of [wait] was given. *)

Class SlotWake (S : Slot) : Type := {
  slot_stuck : slot_state -> nat -> slot_pc -> bool;
  slot_awaited : slot_pc -> option Z;
  wake_inv : slot_state -> (nat -> option slot_pc) -> Prop;
  wake_inv_init t : wake_inv (slot_init t) (fun _ => None);
  wake_inv_call s f u c :
    wake_inv s f -> f u = None -> wake_inv s (<[u := Some (slot_enter c)]> f);
  (** a wake rouses at most INT32_MAX threads *)
  wake_inv_step s f u p c s' r :
    (forall v, is_Some (f v) -> Z.of_nat v < FutexSlot.INT32_MAX) ->
    wake_inv s f -> f u = Some p -> slot_step u s p c = Some (s', r) ->
    wake_inv s' (<[u := match r with inl q => Some q | inr _ => None end]> f);
  (** a call is stuck only on the present token, or because of a call that is not *)
  wake_inv_stuck s f u p :
    wake_inv s f -> f u = Some p -> slot_stuck s u p = true ->
    slot_awaited p = Some (slot_load s) \/
    exists v q, f v = Some q /\ slot_stuck s v q = false;
  awaited_enter c t : slot_awaited (slot_enter c) = Some t -> c = call_wait t;
  awaited_step u s p c s' q t :
    slot_step u s p c = Some (s', inl q) -> slot_awaited q = Some t ->
    exists t0, slot_awaited p = Some t0 /\ (t = t0 \/ t = Z.lor t0 status_waiting);
  (** a wake-up without reason *)
  slot_spurious : slot_choice -> bool;
  (** a call that is not stuck can take a step, without such a wake-up *)
  unstuck_step s f u p :
    wake_inv s f -> slot_stuck s u p = false ->
    exists c s' r, slot_spurious c = false /\ slot_step u s p c = Some (s', r);
}.

(** ** spin and yield: nobody sleeps *)

#[export] Instance spin_wake : SlotWake spin.
Proof.
  refine {| slot_stuck := (fun _ _ _ => false) : @slot_state spin -> _;
            slot_awaited := (fun _ => None) : @slot_pc spin -> _;
            slot_spurious := (fun _ => false) : @slot_choice spin -> _;
            wake_inv _ _ := True |}; try done.
  intros s f u p _ _. exists tt. destruct p; simpl; eauto 6.
Defined.

#[export] Instance yield_wake : SlotWake yield.
Proof.
  refine {| slot_stuck := (fun _ _ _ => false) : @slot_state yield -> _;
            slot_awaited := (fun _ => None) : @slot_pc yield -> _;
            slot_spurious := (fun _ => false) : @slot_choice yield -> _;
            wake_inv _ _ := True |}; try done.
  intros s f u p _ _. exists tt. destruct p as [| |[]]; simpl; eauto 6.
Defined.

(** ** futex *)

Section futex.
Import FutexSlot.

Definition futex_stuck (s : state) (u : nat) (p : pc) : bool :=
  match p with
  | WaitSleep _ => bool_decide (u ∈ sleepers s)
  | _ => false
  end.

Definition futex_awaited (p : pc) : option Z :=
  match p with
  | WaitCas t | WaitEnter t | WaitSleep t => Some t
  | _ => None
  end.

Definition futex_spurious (c : choice) : bool := match c with Spurious => true | _ => false end.

(** A call that has changed a token with the waiting flag. *)
Definition futex_waker (p : pc) : bool :=
  match p with CloseWake | WakeWake => true | _ => false end.

Definition flagged (p : pc) : bool :=
  match p with WaitEnter x | WaitSleep x => has_waiting x | _ => true end.

Record futex_wake_inv (s : state) (f : nat -> option pc) : Prop := {
  fw_nodup : NoDup (sleepers s);
  fw_flag u p : f u = Some p -> flagged p = true;
  fw_asleep u : u ∈ sleepers s ->
    exists x, f u = Some (WaitSleep x) /\
      (word s = x \/ exists v q, f v = Some q /\ futex_waker q = true);
}.

Lemma futex_sleepers_bound s f n :
  futex_wake_inv s f -> (forall v, is_Some (f v) -> Z.of_nat v < n) ->
  Z.of_nat (length (sleepers s)) <= Z.max 0 n.
Proof.
  intros H Hn. assert (length (sleepers s) <= length (seq 0 (Z.to_nat n)))%nat as Hl.
  { apply submseteq_length, NoDup_submseteq; [apply H|]. intros u Hu. apply elem_of_seq.
    destruct (fw_asleep _ _ H u Hu) as (x & E & _). specialize (Hn u). rewrite E in Hn.
    specialize (Hn ltac:(eauto)). lia. }
  rewrite length_seq in Hl. lia.
Qed.

(** A thread moves on; the token keeps its value, or had no sleepers, or the
    thread is going to wake them. *)
Lemma futex_wake_inv_move s f u x w :
  futex_wake_inv s f -> u ∉ sleepers s ->
  (forall p, x = Some p -> flagged p = true) ->
  w = word s \/ has_waiting (word s) = false \/ (exists q, x = Some q /\ futex_waker q = true) ->
  (forall q, f u = Some q -> futex_waker q = false \/ sleepers s = []) ->
  futex_wake_inv (State w (sleepers s)) (<[u := x]> f).
Proof.
  intros H Hu Hx Hw Hq. split; simpl; [apply H| |].
  - intros v p. fn_split; [apply Hx|apply H].
  - intros v Hv. destruct (fw_asleep _ _ H v Hv) as (y & E & Hy). exists y.
    assert (v <> u) as Hvu by (intros ->; done).
    rewrite fn_lookup_insert_ne by done. split; [done|].
    destruct Hy as [Hy|(v' & q & E' & Hwk)].
    + destruct Hw as [->|[Hf|(q & -> & Hwk)]]; [by left| |].
      * pose proof (fw_flag _ _ H _ _ E) as Hfl. simpl in Hfl. congruence.
      * right. exists u, q. by rewrite fn_lookup_insert.
    + right. exists v', q. rewrite fn_lookup_insert_ne; [done|]. intros ->.
      destruct (Hq q E') as [?|Hnil]; [congruence|]. rewrite Hnil in Hv. by apply not_elem_of_nil in Hv.
Qed.

(** Somebody leaves the sleepers. *)
Lemma futex_wake_inv_leave s f l :
  futex_wake_inv s f -> futex_wake_inv (State (word s) (without l (sleepers s))) f.
Proof.
  intros H. split; simpl; [apply NoDup_without, H|apply H|].
  intros v [Hv _]%elem_of_without. by apply H.
Qed.

Lemma futex_wake_inv_sleep s f u x :
  futex_wake_inv s f -> f u = Some (WaitEnter x) -> word s = x ->
  futex_wake_inv (State (word s) (u :: sleepers s)) (<[u := Some (WaitSleep x)]> f).
Proof.
  intros H Hu Hx. assert (u ∉ sleepers s) as Hn.
  { intros Hin. destruct (fw_asleep _ _ H u Hin) as (y & E & _). congruence. }
  pose proof (fw_flag _ _ H _ _ Hu) as Hfl.
  assert (futex_wake_inv s (<[u := Some (WaitSleep x)]> f)) as H'.
  { destruct s as [w q]. apply (futex_wake_inv_move (State w q)); auto.
    - by intros ? [= <-].
    - intros q' E. left. rewrite Hu in E. by injection E as <-. }
  split; simpl; [apply NoDup_cons_2; [done|apply H]|apply H'|].
  intros v [->|Hv]%elem_of_cons; [|by apply H'].
  exists x. rewrite fn_lookup_insert. auto.
Qed.

Lemma has_waiting_lor t : has_waiting (Z.lor t status_waiting) = true.
Proof.
  unfold has_waiting. apply negb_true_iff, Z.eqb_neq. intros E.
  assert (Z.testbit (Z.land (Z.lor t status_waiting) status_waiting) 2 = false) as Hb
    by by rewrite E, Z.bits_0.
  rewrite Z.land_spec, Z.lor_spec in Hb. change (Z.testbit status_waiting 2) with true in Hb.
  by rewrite orb_true_r in Hb.
Qed.

Lemma lor_waiting_same t : has_waiting t = true -> Z.lor t status_waiting = t.
Proof.
  intros H. unfold has_waiting in H. apply Z.bits_inj. intros i. rewrite Z.lor_spec.
  change status_waiting with (2 ^ 2) in *. destruct (Z.eq_dec i 2) as [->|Hi].
  - rewrite Z.pow2_bits_true, orb_true_r by lia. symmetry.
    destruct (Z.testbit t 2) eqn:E; [done|]. apply negb_true_iff, Z.eqb_neq in H. destruct H.
    apply Z.bits_inj_0. intros j. rewrite Z.land_spec. destruct (Z.eq_dec j 2) as [->|].
    + by rewrite E.
    + by rewrite Z.pow2_bits_false, andb_false_r by lia.
  - by rewrite Z.pow2_bits_false, orb_false_r by lia.
Qed.

Lemma futex_wake_inv_wake s f u p c s' :
  (forall v, is_Some (f v) -> Z.of_nat v < INT32_MAX) ->
  futex_wake_inv s f -> f u = Some p -> futex_waker p = true -> wake_all s c = Some s' ->
  futex_wake_inv s' (<[u := None]> f).
Proof.
  intros Hn H Hu Hp Hw. unfold wake_all in Hw. destruct c as [| |l]; try done.
  destruct (futex_wake INT32_MAX (sleepers s) l) as [q|] eqn:E; [|done]. injection Hw as <-.
  apply futex_wake_Some in E as [Hc ->]. pose proof (futex_sleepers_bound s f _ H Hn) as Hl.
  assert (without l (sleepers s) = []) as Hnil.
  { apply (can_wake_all INT32_MAX); [|done]. unfold INT32_MAX in *. lia. }
  pose proof (futex_wake_inv_leave s f l H) as H'. rewrite Hnil in H' |- *.
  apply (futex_wake_inv_move (State (word s) [])); simpl; auto; [apply not_elem_of_nil|done].
Qed.

Lemma futex_wake_inv_step s f u p c s' r :
  (forall v, is_Some (f v) -> Z.of_nat v < INT32_MAX) ->
  futex_wake_inv s f -> f u = Some p -> step u s p c = Some (s', r) ->
  futex_wake_inv s' (<[u := match r with inl q => Some q | inr _ => None end]> f).
Proof.
  intros Hn H Hu Hs. pose proof (fw_flag _ _ H _ _ Hu) as Hfl.
  assert ((forall x, p <> WaitSleep x) -> u ∉ sleepers s) as Hnot.
  { intros Hp Hin. destruct (fw_asleep _ _ H u Hin) as (y & E & _). rewrite Hu in E.
    injection E as E. by apply (Hp y). }
  assert (forall x w, u ∉ sleepers s -> futex_waker p = false ->
    (forall q, x = Some q -> flagged q = true) ->
    w = word s \/ has_waiting (word s) = false \/ (exists q, x = Some q /\ futex_waker q = true) ->
    futex_wake_inv (State w (sleepers s)) (<[u := x]> f)) as Hmove.
  { intros x w Hin Hp Hx Hw. apply futex_wake_inv_move; try done. intros q E.
    rewrite Hu in E. injection E as <-. by left. }
  destruct s as [w q]. destruct p; simpl in Hs, Hmove, Hfl; try specialize (Hnot ltac:(done)); simpl in Hnot.
  - injection Hs as <- <-. apply Hmove; auto. by intros ? [= <-].
  - destruct c; try done; [case_decide as E|]; injection Hs as <- <-;
      try (apply Hmove; auto; by intros ? [= <-]).
    subst t. destruct (has_waiting w) eqn:Ew; apply Hmove; auto; [by intros ? [= <-]| |done].
    right; right. by eexists.
  - destruct (wake_all _ c) eqn:E; [|done]. injection Hs as <- <-.
    by eapply futex_wake_inv_wake.
  - case_decide as E; [|case_decide as E']; injection Hs as <- <-.
    + subst t. apply Hmove; auto; [by intros ? [= <-]; apply has_waiting_lor|].
      destruct (has_waiting w) eqn:Ew; auto. left. by apply lor_waiting_same.
    + apply Hmove; auto. intros ? [= <-]. apply has_waiting_lor.
    + apply Hmove; auto. done.
  - unfold futex_wait in Hs. case_decide as E; injection Hs as <- <-.
    + by apply (futex_wake_inv_sleep (State w q)).
    + apply Hmove; auto. by intros ? [= <-].
  - destruct c; try done; [case_decide as E|]; try done; injection Hs as <- <-.
    + apply Hmove; auto. by intros ? [= <-].
    + pose proof (futex_wake_inv_leave _ _ [u] H) as H'. simpl in H'.
      apply (futex_wake_inv_move (State w (without [u] q))); simpl; auto.
      * rewrite elem_of_without. intros [_ Hx]. apply Hx. by left.
      * by intros ? [= <-].
      * intros ? E. rewrite Hu in E. injection E as <-. by left.
  - injection Hs as <- <-. by apply Hmove; auto.
  - injection Hs as <- <-. destruct (has_waiting w) eqn:Ew; apply Hmove; auto; [by intros ? [= <-]| |done].
    right; right. by eexists.
  - destruct (wake_all _ c) eqn:E; [|done]. injection Hs as <- <-.
    by eapply futex_wake_inv_wake.
Qed.

Lemma futex_unstuck_step s u p :
  NoDup (sleepers s) -> futex_stuck s u p = false ->
  exists c s' r, futex_spurious c = false /\ step u s p c = Some (s', r).
Proof.
  intros Hd Hs. destruct (decide (futex_waker p = true)) as [Hp|Hp].
  - set (l := take (Z.to_nat INT32_MAX) (sleepers s)). exists (Woken l).
    assert (wake_all s (Woken l) = Some (State (word s) (without l (sleepers s)))) as E.
    { unfold wake_all, futex_wake. rewrite decide_True; [done|]. unfold l. split; [|split].
      - rewrite <- (take_drop (Z.to_nat INT32_MAX)) in Hd. by apply NoDup_app in Hd as [? _].
      - intros x Hx. rewrite <- (take_drop (Z.to_nat INT32_MAX)). apply elem_of_app. by left.
      - rewrite length_take. unfold INT32_MAX. lia. }
    destruct p; try done; unfold step; rewrite E; simpl; eauto 6.
  - exists Go. destruct p; try done; unfold step, futex_wait; repeat case_decide; eauto 6.
    simpl in Hs. by apply bool_decide_eq_false in Hs.
Qed.
End futex.

#[export] Instance futex_slot_wake : SlotWake futex_slot.
Proof.
  refine {| slot_stuck := futex_stuck : @slot_state futex_slot -> _;
            slot_awaited := futex_awaited : @slot_pc futex_slot -> _;
            slot_spurious := futex_spurious : @slot_choice futex_slot -> _;
            wake_inv := futex_wake_inv : @slot_state futex_slot -> _ |}.
  - split; simpl; [apply NoDup_nil_2|done|]. by intros u Hu%not_elem_of_nil.
  - intros [w q] f u c H Hu. apply (futex_wake_inv_move (FutexSlot.State w q)); auto.
    + intros Hin. destruct (fw_asleep _ _ H u Hin) as (x & E & _). simpl in E. congruence.
    + by intros p [= <-]; destruct c.
    + intros q' E. simpl in E. congruence.
  - intros s f u p c s' r. apply futex_wake_inv_step.
  - intros s f u p H Hu Hs. destruct p; try done. apply bool_decide_eq_true in Hs.
    destruct (fw_asleep _ _ H u Hs) as (y & E & [Hy|(v & q & E' & Hq)]).
    + left. simpl in *. congruence.
    + right. exists v, q. split; [done|]. by destruct q.
  - intros c t E. destruct c; by simplify_eq/=.
  - intros u s p c s' q t Hs Hq. destruct p; simpl in Hs; unfold FutexSlot.wake_all, futex_wait in Hs;
      repeat case_match; simplify_option_eq; eauto.
  - intros s f u p H. apply futex_unstuck_step, H.
Defined.

(** ** synch *)

Section synch.
Import SynchSlot.

(** Whether the next step of the call takes the mutex. *)
Definition takes_lock (p : pc) : bool :=
  match p with CloseLock | WaitLock _ | WaitSleep _ | WakeLock _ => true | _ => false end.

Definition synch_stuck (s : state) (u : nat) (p : pc) : bool :=
  takes_lock p && bool_decide (is_Some (owner s)) ||
  match p with WaitSleep _ => bool_decide (u ∈ cond_waiters s) | _ => false end.

Definition synch_awaited (p : pc) : option Z :=
  match p with
  | WaitLock t | WaitLoad t | WaitCond t | WaitSleep t => Some t
  | _ => None
  end.

Definition synch_spurious (c : choice) : bool := match c with Spurious => true | Go => false end.

Definition synch_waker (p : pc) : bool :=
  match p with CloseNotify | WakeNotify => true | _ => false end.

Record synch_wake_inv (s : state) (f : nat -> option pc) : Prop := {
  sw_ok u p : f u = Some p -> ok s u p;
  sw_owner v : owner s = Some v -> exists q, f v = Some q /\ takes_lock q = false;
  sw_asleep u : u ∈ cond_waiters s ->
    exists t, f u = Some (WaitSleep t) /\
      (word s = t \/ exists v q, f v = Some q /\ synch_waker q = true);
}.

(** Splits a step of the slot and replaces the state after [lock]. *)
Ltac synch_cases H :=
  simpl in H; repeat case_match; simplify_option_eq;
  repeat match goal with
  | E : lock _ _ = Some _ |- _ => apply lock_Some in E as [? ->]
  end; simpl in *; destruct_and?.

(** The thread is the owner before and after, or the mutex changes hands. *)
Lemma synch_step_owner u s p c s' r :
  ok s u p -> step u s p c = Some (s', r) ->
  (owner s' = owner s \/ owner s' = None \/ owner s' = Some u) /\
  (owner s' = Some u -> exists q, r = inl q /\ takes_lock q = false).
Proof.
  intros Hok H. destruct p; synch_cases H; subst; simpl; split; auto; intros E; try congruence; eauto.
Qed.

(** Sleepers are added with the present token; the token changes only under a
    coming notification; a notification leaves no sleepers. *)
Lemma synch_step_sleepers u s p c s' r :
  ok s u p -> step u s p c = Some (s', r) ->
  cond_waiters s' = [] \/
  (synch_waker p = false /\
   (word s' = word s \/ exists q, r = inl q /\ synch_waker q = true) /\
   forall v, v ∈ cond_waiters s' ->
     v ∈ cond_waiters s /\ (forall t, p = WaitSleep t -> v <> u) \/
     v = u /\ r = inl (WaitSleep (word s))).
Proof.
  intros Hok H. destruct p; synch_cases H; subst; simpl; auto; right; split_and!; eauto;
    intros v Hv; try (left; split; [done|congruence]).
  - apply elem_of_cons in Hv as [->|Hv]; [by right|]. left. split; [done|congruence].
  - left. apply elem_of_without in Hv as [Hv Hn]. split; [done|]. intros t' _ ->. apply Hn. by left.
Qed.

Lemma synch_wake_inv_step s f u p c s' r :
  synch_wake_inv s f -> f u = Some p -> step u s p c = Some (s', r) ->
  synch_wake_inv s' (<[u := match r with inl q => Some q | inr _ => None end]> f).
Proof.
  intros H Hu Hs. pose proof (sw_ok _ _ H _ _ Hu) as Hok. split.
  - intros v q. fn_split.
    + destruct r as [q'|]; [|done]. intros [= <-]. by eapply synch_step_ok.
    + intros Hq. eapply synch_step_other; eauto. by eapply sw_ok.
  - intros v Hv. destruct (synch_step_owner u s p c s' r Hok Hs) as [Ho Ho'].
    destruct (decide (v = u)) as [->|Hvu].
    + destruct (Ho' Hv) as (q & -> & Hq). exists q. by rewrite fn_lookup_insert.
    + rewrite fn_lookup_insert_ne by done. apply H. destruct Ho as [Ho|[Ho|Ho]]; congruence.
  - intros v Hv. destruct (synch_step_sleepers u s p c s' r Hok Hs) as [E|(Hp & Hw & Hin)];
      [rewrite E in Hv; by apply not_elem_of_nil in Hv|].
    destruct (Hin v Hv) as [[Hv' Hne]|[-> ->]].
    + destruct (sw_asleep _ _ H v Hv') as (t & E & Ht).
      assert (v <> u) as Hvu by (intros ->; rewrite Hu in E; injection E as ->; by eapply Hne).
      exists t. rewrite fn_lookup_insert_ne by done. split; [done|].
      destruct Hw as [Hw|(q & -> & Hq)]; [|right; exists u, q; by rewrite fn_lookup_insert].
      destruct Ht as [Ht|(v' & q & E' & Hq)]; [left; congruence|].
      right. exists v', q. rewrite fn_lookup_insert_ne; [done|]. intros ->. congruence.
    + exists (word s). rewrite fn_lookup_insert. split; [done|].
      destruct Hw as [?|(q & [= <-] & ?)]; [by left|done].
Qed.

Lemma synch_unstuck_step s u p :
  synch_stuck s u p = false ->
  exists c s' r, synch_spurious c = false /\ step u s p c = Some (s', r).
Proof.
  intros Hs. exists Go. unfold synch_stuck in Hs. apply orb_false_iff in Hs as [H1 H2].
  assert (takes_lock p = true -> exists s', lock u s = Some s') as Hl.
  { intros E. rewrite E in H1. apply bool_decide_eq_false in H1. unfold lock.
    destruct (owner s); [|eauto]. destruct H1. eauto. }
  destruct p; simpl in *; try (destruct (Hl eq_refl) as [s' E]; rewrite E); repeat case_decide; simpl; eauto 6.
  all: by apply bool_decide_eq_false in H2.
Qed.
End synch.

#[export] Instance synch_slot_wake : SlotWake synch_slot.
Proof.
  refine {| slot_stuck := synch_stuck : @slot_state synch_slot -> _;
            slot_awaited := synch_awaited : @slot_pc synch_slot -> _;
            slot_spurious := synch_spurious : @slot_choice synch_slot -> _;
            wake_inv := synch_wake_inv : @slot_state synch_slot -> _ |}.
  - split; simpl; [done..|]. by intros u Hu%not_elem_of_nil.
  - intros s f u c H Hu. split.
    + intros v p. fn_split; [by intros [= <-]; destruct c|apply H].
    + intros v Hv. destruct (sw_owner _ _ H v Hv) as (q & E & Hq). exists q.
      rewrite fn_lookup_insert_ne; [done|]. intros ->. simpl in *. congruence.
    + intros v Hv. destruct (sw_asleep _ _ H v Hv) as (t & E & Ht). exists t.
      rewrite fn_lookup_insert_ne by (intros ->; simpl in *; congruence). split; [done|].
      destruct Ht as [|(v' & q & E' & Hq)]; [by left|]. right. exists v', q.
      rewrite fn_lookup_insert_ne; [done|]. intros ->. simpl in *. congruence.
  - intros s f u p c s' r _. apply synch_wake_inv_step.
  - intros s f u p H Hu Hs. unfold synch_stuck in Hs. destruct (SynchSlot.owner s) as [v|] eqn:Ho.
    + right. destruct (sw_owner _ _ H v Ho) as (q & E & Hq). exists v, q. split; [done|].
      unfold synch_stuck. rewrite Hq. by destruct q.
    + rewrite andb_false_r in Hs. destruct p; try done. apply bool_decide_eq_true in Hs.
      destruct (sw_asleep _ _ H u Hs) as (t' & E & [Hy|(v & q & E' & Hq)]).
      * left. simpl in *. congruence.
      * right. exists v, q. split; [done|]. by destruct q.
  - intros c t E. destruct c; by simplify_eq/=.
  - intros u s p c s' q t Hs Hq. destruct p; simpl in Hs; repeat case_match; simplify_option_eq; eauto.
  - intros s f u p _. apply synch_unstuck_step.
Defined.

(** ** The ring *)

Section ring_wake.
Context {V : Type} {S : Slot} {L : SlotLaws S} {W : SlotWake S}.
Context (tr : traits) (moved_from : V -> V).

Local Abbreviation exec := (ring_exec tr moved_from atomic_counter).
Local Abbreviation state := (pool (ring V) (pc V)).

Definition call_in (r : ring V) (i : nat) (p : pc V) : option slot_pc :=
  x ← call_at r p; if decide (x.1 = i) then Some x.2 else None.

(** The calls in progress on slot [i]. *)
Definition calls_in (s : state) (i : nat) (u : nat) : option slot_pc :=
  pcs s !! u ≫= call_in (shared s) i.

(** A thread that cannot go on by itself. *)
Definition stuck (r : ring V) (u : nat) (p : pc V) : bool :=
  match call_at r p with
  | Some (i, w) =>
      match ring_ r !! i with
      | Some sl => slot_stuck (base sl) u w
      | None => false
      end
  | None => false
  end.

(** ** The sleepers of the ring *)

(** The tokens for which the thread has decided to wait. *)
Definition tail_unmet (p : @producer V) (t : Z) : Prop := ticket_matches t (p_token p) = false.
Definition head_unmet (c : consumer) (t : Z) : Prop :=
  negb (ticket_matches t (c_token c)) || (Z.land t status_mask =? 0) = true.

Definition waits_unmet (p : pc V) : Prop :=
  match p with
  | TailClosed p t | TailLast p t => tail_unmet p t
  | TailWait p w => forall t, slot_awaited w = Some t -> tail_unmet p t
  | HeadClosed _ c t | HeadLast _ c t | HeadBackoff _ c t => head_unmet c t
  | HeadWait _ c w => forall t, slot_awaited w = Some t -> head_unmet c t
  | Waking _ w | CloseSlot _ _ w => forall t, slot_awaited w = Some t -> False
  | _ => True
  end.

Lemma tail_unmet_waiting p t : tail_unmet p t -> tail_unmet p (Z.lor t status_waiting).
Proof. unfold tail_unmet, ticket_matches. by rewrite !land_ticket_mask, tick_lor. Qed.

Lemma head_unmet_waiting c t : head_unmet c t -> head_unmet c (Z.lor t status_waiting).
Proof.
  unfold head_unmet, ticket_matches. rewrite !land_ticket_mask, tick_lor by done.
  by rewrite (status_lor t status_waiting eq_refl : Z.land _ _ = _).
Qed.

(** The call goes on waiting for the token it was given. *)
Lemma awaited_next (P : Z -> Prop) u s w c s' w' :
  (forall t, P t -> P (Z.lor t status_waiting)) ->
  (forall t, slot_awaited w = Some t -> P t) -> slot_step u s w c = Some (s', inl w') ->
  forall t, slot_awaited w' = Some t -> P t.
Proof.
  intros HP Hw Hs t Ht. destruct (awaited_step u s w c s' w' t Hs Ht) as (t0 & E & [->| ->]); auto.
Qed.

Lemma awaited_first (P : Z -> Prop) t : P t -> forall t', slot_awaited (slot_enter (call_wait t)) = Some t' -> P t'.
Proof. intros HP t' Ht. apply awaited_enter in Ht. by injection Ht as ->. Qed.

Lemma awaited_wake t : forall t', slot_awaited (slot_enter (call_wake t)) = Some t' -> False.
Proof. by intros t' Ht%awaited_enter. Qed.

Lemma awaited_close : forall t', slot_awaited (slot_enter call_close) = Some t' -> False.
Proof. by intros t' Ht%awaited_enter. Qed.

Lemma waits_tail_test p t : waits_unmet (tail_test p t).
Proof. unfold tail_test. by destruct (ticket_matches t (p_token p)) eqn:E. Qed.

Lemma waits_head_test l c t : waits_unmet (head_test l c t).
Proof.
  assert (waits_unmet (status_test c t)) as Hs.
  { unfold status_test, head_exit. destruct (Z.land t status_mask =? 0) eqn:E; [|by case_match].
    simpl. unfold head_unmet. by rewrite E, orb_true_r. }
  destruct l; [|done]. simpl. destruct (ticket_matches t (c_token c)) eqn:E; [done|].
  simpl. unfold head_unmet. by rewrite E.
Qed.

Lemma waits_tail_body p t : tail_unmet p t -> waits_unmet (tail_body p t).
Proof.
  intros H. unfold tail_body. destruct (p_mode p) as [|[]]; try done;
    exact (awaited_first (tail_unmet p) t H).
Qed.

Lemma waits_head_body l c t : head_unmet c t -> waits_unmet (head_body l c t).
Proof.
  intros H. unfold head_body. destruct (c_mode c) as [|[]]; try done;
    exact (awaited_first (head_unmet c) t H).
Qed.

Lemma waits_in_slot u (r : ring V) i w c again kont r' p' :
  in_slot u r i w c again kont = Some (r', p') ->
  (forall s s' w', slot_step u s w c = Some (s', inl w') -> waits_unmet (again w')) ->
  (forall t, waits_unmet (kont t)) -> waits_unmet p'.
Proof.
  intros H Ha Hk. apply in_slot_Some in H as (sl & b & [w'|t] & _ & Hs & _ & ->); eauto.
Qed.

Lemma waits_step u (r : ring V) p c r' p' :
  waits_unmet p -> ring_step tr moved_from atomic_counter u r p c = Some (r', p') -> waits_unmet p'.
Proof.
  intros Hp H. destruct p, c; try done; cbn [ring_step step_wait step_close] in H.
  all: try (apply waits_in_slot in H; [done| |]).
  all: try (simpl in H; unfold put_value, get_value, skip in H;
    repeat case_match; simplify_option_eq; first [done|apply waits_tail_test|apply awaited_wake|apply awaited_close]).
  - injection H as <- <-. by destruct op.
  - injection H as <- <-. case_decide; [done|by apply waits_tail_body].
  - injection H as <- <-. case_match; [done|by apply waits_tail_body].
  - intros s s' w' Hs. exact (awaited_next (tail_unmet p) _ _ _ _ _ _ (tail_unmet_waiting p) Hp Hs).
  - destruct (ring_ r !! c_slot r c0); [|done]. injection H as <- <-.
    exact (waits_head_test ticket_loop c0 _).
  - injection H as <- <-. case_decide; [done|by apply waits_head_body].
  - injection H as <- <-. case_match; [done|by apply waits_head_body].
  - injection H as <- <-. exact (awaited_first (head_unmet c0) t Hp).
  - intros s s' w' Hs. exact (awaited_next (head_unmet c0) _ _ _ _ _ _ (head_unmet_waiting c0) Hp Hs).
  - intros t. apply waits_head_test.
  - intros s s' w' Hs. exact (awaited_next (fun _ => False) _ _ _ _ _ _ (fun _ F => F) Hp Hs).
  - intros _. by destruct a as [|? []| |].
  - simpl in H. destruct (ring_ r !! c_slot r c0); [|done]. simpl in H. injection H as <- <-. by case_match.
  - simpl in H. destruct (ring_ r !! p_slot r p); [|done]. simpl in H. injection H as <- <-. by case_match.
  - intros s s' w' Hs. exact (awaited_next (fun _ => False) _ _ _ _ _ _ (fun _ F => F) Hp Hs).
Qed.

(** Every slot keeps its invariant, and nobody waits for a token that was met. *)
Definition sleepers_inv (s : state) : Prop :=
  (forall i sl, ring_ (shared s) !! i = Some sl ->
     exists f, (forall u, f u = calls_in s i u) /\ wake_inv (base sl) f) /\
  (forall u p, pcs s !! u = Some p -> waits_unmet p).

Lemma calls_in_insert r ps u p r' p' i v :
  mask_ r' = mask_ r -> ps !! u = Some p ->
  calls_in (Pool r' (<[u := p']> ps)) i v =
  if decide (v = u) then call_in r i p' else calls_in (Pool r ps) i v.
Proof.
  intros Hm Hp. assert (forall q, call_in r' i q = call_in r i q) as Hr.
  { intros q. unfold call_in, call_at, wake_slot, p_slot, c_slot. 
    destruct q; try destruct a; by rewrite ?Hm. }
  unfold calls_in. simpl. case_decide as Hv.
  - subst. rewrite list_lookup_insert_eq by eauto with pools. apply Hr.
  - rewrite list_lookup_insert_ne by done. destruct (ps !! v); simpl; [apply Hr|done].
Qed.

(** The slots after a step outside them. *)
Lemma sleepers_outside r ps u p r' p' i sl' :
  mask_ r' = mask_ r -> outside r p r' p' -> ps !! u = Some p ->
  sleepers_inv (Pool r ps) -> ring_ r' !! i = Some sl' ->
  exists f, (forall v, f v = calls_in (Pool r' (<[u := p']> ps)) i v) /\ wake_inv (base sl') f.
Proof.
  intros Hm (Hc & Hb & He) Hp [H _] Hi. specialize (Hb i). rewrite Hi in Hb.
  destruct (ring_ r !! i) as [sl|] eqn:Hsl; [|done]. simpl in Hb. injection Hb as Hb.
  destruct (H i sl Hsl) as (f & Hf & Hinv). rewrite Hb.
  assert (f u = None) as Hu.
  { rewrite Hf. unfold calls_in, call_in. simpl. by rewrite Hp; simpl; rewrite Hc. }
  assert (call_in r i p' = None \/ exists cl, call_in r i p' = Some (slot_enter cl)) as [E|[cl E]].
  { unfold call_in. destruct He as [E|(j & cl & E)]; rewrite E; simpl; [by left|].
    case_decide; eauto. }
  - exists f. split; [|done]. intros v. rewrite (calls_in_insert r ps u p) by done.
    case_decide as Hv; [subst; by rewrite Hu, E|apply Hf].
  - exists (<[u := Some (slot_enter cl)]> f). split; [|by apply wake_inv_call].
    intros v. rewrite (calls_in_insert r ps u p) by done. case_decide as Hv.
    + subst. by rewrite fn_lookup_insert.
    + by rewrite fn_lookup_insert_ne.
Qed.

Lemma sleepers_inside r ps u p r' p' i sl' :
  Z.of_nat (length ps) <= FutexSlot.INT32_MAX -> inside u r p r' p' -> ps !! u = Some p ->
  sleepers_inv (Pool r ps) -> ring_ r' !! i = Some sl' ->
  exists f, (forall v, f v = calls_in (Pool r' (<[u := p']> ps)) i v) /\ wake_inv (base sl') f.
Proof.
  intros Hn (j & w & ch & sl & b & x & Hc & Hsl & Hs & -> & Hc') Hp [H _] Hi. simpl in Hi.
  assert (mask_ (set_base r j sl b) = mask_ r) as Hm by done.
  destruct (decide (j = i)) as [->|Hij].
  - rewrite list_lookup_insert_eq in Hi by eauto with pools. injection Hi as <-. simpl.
    destruct (H i sl Hsl) as (f & Hf & Hinv).
    assert (f u = Some w) as Hu.
    { rewrite Hf. unfold calls_in, call_in. simpl. rewrite Hp. simpl. rewrite Hc. simpl. by rewrite decide_True. }
    exists (<[u := match x with inl q => Some q | inr _ => None end]> f). split.
    + intros v. rewrite (calls_in_insert r ps u p) by done. case_decide as Hv; [|by rewrite fn_lookup_insert_ne].
      subst. rewrite fn_lookup_insert. unfold call_in. rewrite Hc'. destruct x; simpl; by rewrite ?decide_True.
    + apply (wake_inv_step (base sl) f u w ch); try done. intros v [q Hv]. rewrite Hf in Hv.
      unfold calls_in in Hv. simpl in Hv. destruct (ps !! v) eqn:E; [|done].
      apply lookup_lt_Some in E. lia.
  - rewrite list_lookup_insert_ne in Hi by done. destruct (H i sl' Hi) as (f & Hf & Hinv).
    exists f. split; [|done]. intros v. rewrite (calls_in_insert r ps u p) by done.
    case_decide as Hv; [|apply Hf]. subst. rewrite Hf. unfold calls_in, call_in. simpl. rewrite Hp. simpl.
    rewrite Hc, Hc'. destruct x; simpl; by rewrite ?decide_False.
Qed.

Lemma sleepers_step s l s' :
  Z.of_nat (length (pcs s)) <= FutexSlot.INT32_MAX ->
  sleepers_inv s -> exec s l = Some s' -> sleepers_inv s'.
Proof.
  intros Hn H He. destruct l as [u c], s as [r ps]. pool_step He. simpl in Hp, Ht, Hn.
  destruct (ring_calls _ _ _ _ _ _ _ _ Ht) as [Hm Hcalls]. split.
  - intros i sl Hi. simpl in Hi. destruct Hcalls; [by eapply sleepers_outside|by eapply sleepers_inside].
  - intros v q Hq. apply (insert_lookup_cases ps u v) in Hq.
    destruct Hq as [(-> & -> & _)|[_ Hq]]; [|by eapply H].
    eapply waits_step; [|exact Ht]. by eapply H.
Qed.

Lemma sleepers_start k s : ring_start k s -> sleepers_inv s.
Proof.
  intros (Hk & v0 & last0 & r & n & Hr & ->). apply make_ring_inr in Hr as ->; [|done].
  assert (forall u p, replicate n (Idle (S := S) (V := V) None) !! u = Some p -> p = Idle None) as Hidle
    by (intros u p Hp; by apply lookup_replicate in Hp as [-> _]).
  split; simpl; [|by intros u p ->%Hidle].
  intros i sl Hi. rewrite list_lookup_fmap in Hi. destruct (seqZ 0 (2 ^ k) !! i); [|done].
  injection Hi as <-. exists (fun _ => None). split; [|apply wake_inv_init].
  intros u. unfold calls_in. simpl. destruct (replicate _ _ !! u) as [p|] eqn:E; [|done].
  by apply Hidle in E as ->.
Qed.

Lemma reached_sleepers k s :
  reached tr moved_from k s -> Z.of_nat (length (pcs s)) <= FutexSlot.INT32_MAX -> sleepers_inv s.
Proof.
  intros H. induction H as [s Hs _|s l s' _ IH He _]; intros Hn; [by eapply sleepers_start|].
  pose proof (pool_exec_length _ _ _ _ He) as Hl.
  eapply sleepers_step; [| |exact He]; [|apply IH]; by rewrite <- Hl.
Qed.

(** ** Deadlocks *)

(** A thread that is neither idle nor stuck can take a step. *)
Definition spontaneous (c : choice V) : bool :=
  match c with InSlot c => slot_spurious c | _ => false end.

Lemma unstuck_slot u (r : ring V) i w sl f :
  ring_ r !! i = Some sl -> wake_inv (base sl) f -> slot_stuck (base sl) u w = false ->
  exists c, slot_spurious c = false /\ forall again kont, is_Some (in_slot u r i w c again kont).
Proof.
  intros Hi Hinv Hs. destruct (unstuck_step (base sl) f u w Hinv Hs) as (c & b & x & Hc & Hx).
  exists c. split; [done|]. intros again kont. unfold in_slot. rewrite Hi. simpl. rewrite Hx. simpl. eauto.
Qed.

Lemma unstuck_moves k (Hk : 4 <= k < 32) s a u p :
  sim k s a -> sleepers_inv s -> within s = true -> pcs s !! u = Some p ->
  idle p = false -> stuck (shared s) u p = false ->
  exists c x, spontaneous c = false /\
    ring_step tr moved_from atomic_counter u (shared s) p c = Some x.
Proof.
  intros H [Hs _] Hw Hp Hi Hst. pose proof (sim_local _ _ _ H _ _ Hp) as Hl.
  destruct (within_at _ _ _ Hw Hp) as (_ & _ & Hn).
  assert (forall i w, call_at (shared s) p = Some (i, w) ->
    (exists sl, ring_ (shared s) !! i = Some sl) ->
    exists c, slot_spurious c = false /\ forall again kont, is_Some (in_slot u (shared s) i w c again kont))
    as Hcall.
  { intros i w Hc [sl Hsl]. unfold stuck in Hst. rewrite Hc, Hsl in Hst.
    destruct (Hs i sl Hsl) as (f & _ & Hinv). by eapply unstuck_slot. }
  assert (forall p, p_good p -> exists sl, ring_ (shared s) !! p_slot (shared s) p = Some sl) as Hps.
  { intros q Hq. unfold p_slot. rewrite Hq.
    destruct (slot_at k Hk _ a (p_ticket q) (sim_ring _ _ _ H)) as (sl & Hsl & _). eauto. }
  assert (forall c, c_good c -> exists sl, ring_ (shared s) !! c_slot (shared s) c = Some sl) as Hcs.
  { intros q Hq. unfold c_slot. rewrite Hq.
    destruct (slot_at k Hk _ a (c_ticket q) (sim_ring _ _ _ H)) as (sl & Hsl & _). eauto. }
  destruct p; try done; simpl in Hl; cbn [ring_step].
  all: try (edestruct (Hcall _ _ eq_refl) as (c' & Hc & Hx);
    [destruct Hl as [_ (sl & Hsl & _)]; eauto|];
    exists (InSlot c'); edestruct Hx as [x Ex]; exists x; split; [exact Hc|exact Ex]).
  all: try (exists (Backoff false); by eauto).
  all: try (exists (Assign None); unfold step_wait, put_value, get_value;
    (destruct (Hps _ Hl) as [sl ->] || destruct (Hcs _ Hl) as [sl ->]); simpl; by eauto).
  all: exists Go; simpl; try (destruct (Hps _ Hl) as [sl ->]); try (destruct (Hcs _ Hl) as [sl ->]);
    try (destruct (Hcs _ (proj1 Hl)) as [sl ->]); simpl; repeat case_match; eauto.
Qed.

(** When everybody is idle or stuck, the stuck threads miss their token. *)
Lemma stuck_blocked s u p :
  sleepers_inv s ->
  (forall v q, pcs s !! v = Some q -> idle q || stuck (shared s) v q = true) ->
  pcs s !! u = Some p -> stuck (shared s) u p = true -> blocked (shared s) p = true.
Proof.
  intros [Hs Hw] Hall Hp Hst. unfold stuck in Hst.
  destruct (call_at (shared s) p) as [[i w]|] eqn:Hc; [|done].
  destruct (ring_ (shared s) !! i) as [sl|] eqn:Hi; [|done].
  destruct (Hs i sl Hi) as (f & Hf & Hinv).
  assert (f u = Some w) as Hu.
  { rewrite Hf. unfold calls_in, call_in. rewrite Hp. simpl. rewrite Hc. simpl. by rewrite decide_True. }
  destruct (wake_inv_stuck (base sl) f u w Hinv Hu Hst) as [Ha|(v & q & Hv & Hq)].
  - pose proof (Hw u p Hp) as Hun.
    destruct p; simpl in Hc; try done; injection Hc as <- <-; simpl in Hun |- *;
      try (by destruct (Hun _ Ha)); rewrite Hi; [|by apply (Hun _ Ha)].
    rewrite (Hun _ Ha). done.
  - rewrite Hf in Hv. unfold calls_in in Hv. destruct (pcs s !! v) as [p'|] eqn:Hp'; [|done].
    simpl in Hv. unfold call_in in Hv. destruct (call_at (shared s) p') as [[j w']|] eqn:Hc'; [|done].
    simpl in Hv. case_decide; [|done]. simplify_eq.
    specialize (Hall v p' Hp'). unfold stuck in Hall. rewrite Hc', Hi, Hq, orb_false_r in Hall.
    by destruct p'.
Qed.

(** C6. No deadlock but for want of items or room: when no thread inside an
    operation can take a step (wake-ups without reason apart), a pop that is
    stuck has a ticket that no push has reached (or that lies past the closing
    position), and a push that is stuck has a ticket [size] or more ahead of all
    pops (unless the queue was closed before it).  No wake-up is lost, whatever
    the slot class, and no thread waits for a mutex of a slot for ever. *)
Theorem deadlock_only_when_due k s u p :
  reached tr moved_from k s ->
  Z.of_nat (length (pcs s)) <= FutexSlot.INT32_MAX ->
  (forall v q c, pcs s !! v = Some q -> idle q = false -> spontaneous c = false ->
     exec s (v, c) = None) ->
  pcs s !! u = Some p ->
  (forall g, pop_ticket p = Some g -> default (g_tail (shared s)) (g_limit (shared s)) <= g) /\
  (forall g, push_ticket p = Some g -> below (g_limit (shared s)) g ->
     g_head (shared s) + 2 ^ k <= g).
Proof.
  intros Hr Hn Hdead Hp. destruct (reached_sim tr moved_from k s Hr) as [Hk [a Ha]].
  pose proof (reached_sleepers k s Hr Hn) as Hs.
  assert (forall v q, pcs s !! v = Some q -> idle q || stuck (shared s) v q = true) as Hall.
  { intros v q Hq. destruct (idle q) eqn:Hi; [done|]. simpl.
    destruct (stuck (shared s) v q) eqn:Hst; [done|].
    destruct (unstuck_moves k Hk s a v q Ha Hs (reachable_in_end _ _ _ _ Hr) Hq Hi Hst)
      as (c & [r' q'] & Hc & Hstep).
    specialize (Hdead v q c Hq Hi Hc). destruct s as [r ps]. simpl in Hq, Hstep.
    unfold ring_exec in Hdead. by rewrite (pool_exec_at _ _ _ _ _ _ _ _ Hq Hstep) in Hdead. }
  apply (blocked_due tr moved_from k s u p Hr); [|done].
  apply forallb_forall. intros q Hq. apply list_elem_of_In, list_elem_of_lookup in Hq as [v Hq].
  pose proof (Hall v q Hq) as Hiq. destruct (idle q); [done|]. by apply (stuck_blocked s v).
Qed.
End ring_wake.

(** ** A pop asleep on an empty ring of futex slots *)

Definition futex_ring : @ring Z futex_slot :=
  match make_ring (S := futex_slot) 0 0 16 with
  | inr r => r
  | inl _ => Ring (S := futex_slot) 0 [] cl_open 0 0 0 0 0 ∅ None 0
  end.

Definition asleep_run : list (nat * @choice Z futex_slot) :=
  (pair 0%nat <$> [Call (op_wait_pop false); Go; Go; Go; InSlot (S := futex_slot) FutexSlot.Go;
                   InSlot (S := futex_slot) FutexSlot.Go]).

Definition asleep_state : pool (@ring Z futex_slot) (@pc Z futex_slot) :=
  let s := Pool futex_ring [Idle None] in
  default s (run_in (ring_exec (Traits true true) (fun v => v) atomic_counter) within s asleep_run).

Lemma asleep_reached : reached (Traits true true) (fun v => v) 4 asleep_state.
Proof.
  eapply (run_in_reachable _ _ _ within (Pool futex_ring [Idle None]) asleep_run); [done| |].
  - split; [lia|]. exists 0, 0, futex_ring, 1%nat. split; reflexivity.
  - vm_compute. reflexivity.
Qed.

Lemma deadlock_only_when_due_witness :
  exists p, pcs asleep_state !! 0%nat = Some p /\ pop_ticket p = Some 0 /\ 0 <= 0.
Proof.
  eexists. split; [vm_compute; reflexivity|]. split; [vm_compute; reflexivity|].
  refine (proj1 (deadlock_only_when_due (Traits true true) (fun v => v) 4 asleep_state 0 _
                   asleep_reached _ _ _) 0 _).
  - vm_compute. done.
  - intros [|v] q c Hq _ Hc; [|done]. vm_compute in Hq. injection Hq as <-.
    destruct c as [| | | |[]]; try done; vm_compute; done.
  - vm_compute. reflexivity.
  - vm_compute. reflexivity.
Defined.
