(* ===== verification/BqTrace.v ===== *)
(** * What clients of the bounded queue observe

    A run of the ring leaves a trace of events: taking a push ticket, putting
    a value, taking a pop ticket, getting a value.  The trace is first-in
    first-out, each value is delivered at most once, and what an operation
    reports to its caller is the last event of the calling thread. *)

From stdpp Require Import gmap functions.
From S2P Require Import Prelude Conqueue BqSlot BqRing BqTokens BqTickets BqRefine BqTheorems.
Local Open Scope Z_scope.

Section trace.
Context {V : Type} {S : Slot} {L : SlotLaws S} (tr : traits) (moved_from : V -> V).

Local Abbreviation exec := (ring_exec tr moved_from atomic_counter).
Local Abbreviation state := (pool (ring V) (pc V)).

(** ** Events: thread, ticket and value *)

Inductive event : Type :=
| ev_push (u : nat) (g : Z) (v : V)
| ev_put (u : nat) (g : Z) (v : V)
| ev_pop (u : nat) (g : Z)
| ev_get (u : nat) (g : Z) (v : V).

Definition by_thread (e : event) : nat :=
  match e with ev_push u _ _ | ev_put u _ _ | ev_pop u _ | ev_get u _ _ => u end.

Definition event_at (u : nat) (r : ring V) (p : pc V) (c : choice V) : option event :=
  match p, c with
  | PushFetch _ _ v, Go => Some (ev_push u (g_tail r) v)
  | PutValue p, Assign None => Some (ev_put u (p_ticket p) (p_value p))
  | PopFetch _, Go => Some (ev_pop u (g_head r))
  | TryPopIncrement c _, Go =>
      if decide (head_ r = c_count c) then Some (ev_pop u (c_ticket c)) else None
  | GetValue c, Assign None =>
      (fun sl => ev_get u (c_ticket c) (value sl)) <$> ring_ r !! c_slot r c
  | _, _ => None
  end.

Definition event_of (s : state) (l : nat * choice V) : list event :=
  match pcs s !! l.1 with
  | Some p => option_list (event_at l.1 (shared s) p l.2)
  | None => []
  end.

Inductive traced (k : Z) : list event -> state -> Prop :=
| traced_start s : ring_start k s -> within s = true -> traced k [] s
| traced_step es s l s' :
    traced k es s -> exec s l = Some s' -> within s' = true ->
    traced k (es ++ event_of s l) s'.

Lemma traced_reached k es s : traced k es s -> reached tr moved_from k s.
Proof. induction 1; [by apply reach_init|by eapply reach_step]. Qed.

Definition pushes (es : list event) : list (Z * V) :=
  omap (fun e => match e with ev_push _ g v => Some (g, v) | _ => None end) es.
Definition puts (es : list event) : list Z :=
  omap (fun e => match e with ev_put _ g _ => Some g | _ => None end) es.
Definition pops (es : list event) : list (Z * nat) :=
  omap (fun e => match e with ev_pop u g => Some (g, u) | _ => None end) es.
Definition gets (es : list event) : list Z :=
  omap (fun e => match e with ev_get _ g _ => Some g | _ => None end) es.

(** The last event of a thread. *)
Definition last_by (u : nat) (es : list event) : option event :=
  last (List.filter (fun e => Nat.eqb (by_thread e) u) es).

Lemma last_by_self u es e : by_thread e = u -> last_by u (es ++ [e]) = Some e.
Proof.
  intros <-. unfold last_by. rewrite List.filter_app. simpl.
  by rewrite Nat.eqb_refl, last_snoc.
Qed.

Lemma last_by_other u es e : by_thread e <> u -> last_by u (es ++ [e]) = last_by u es.
Proof.
  intros Hne. unfold last_by. rewrite List.filter_app. simpl.
  apply Nat.eqb_neq in Hne. rewrite Hne. by rewrite app_nil_r.
Qed.

Lemma last_by_in u es e : last_by u es = Some e -> e ∈ es.
Proof.
  intros H. apply last_Some in H as [l H].
  assert (In e (List.filter (fun e => Nat.eqb (by_thread e) u) es)) as Hin.
  { rewrite H. apply in_or_app. right. by left. }
  apply filter_In in Hin as [Hin _]. by apply list_elem_of_In.
Qed.

Ltac event_cases p c := destruct p; try done; destruct c; try done; simpl in *; break.

Lemma event_at_thread u r p c e : event_at u r p c = Some e -> by_thread e = u.
Proof. intros H. event_cases p c; done. Qed.

Lemma event_at_pop u r p c u' g :
  event_at u r p c = Some (ev_pop u' g) ->
  (exists m, p = PopFetch m /\ g = g_head r) \/
  (exists c t, p = TryPopIncrement c t /\ head_ r = c_count c /\ g = c_ticket c).
Proof. intros H. event_cases p c; eauto 8. Qed.

Lemma event_at_put u r p c u' g v :
  event_at u r p c = Some (ev_put u' g v) ->
  exists p0, p = PutValue p0 /\ g = p_ticket p0 /\ v = p_value p0.
Proof. intros H. event_cases p c; eauto. Qed.

Lemma event_at_get u r p c u' g v :
  event_at u r p c = Some (ev_get u' g v) ->
  exists c0 sl, p = GetValue c0 /\ ring_ r !! c_slot r c0 = Some sl /\
    g = c_ticket c0 /\ v = value sl.
Proof. intros H. event_cases p c; eauto 8. Qed.

(** ** What the state of a thread says about its last event *)

Definition last_event (u : nat) (p : pc V) (es : list event) : Prop :=
  match p with
  | TailLoad p | TailClosed p _ | TailLast p _ | TailBackoff p | TailWait p _ | PutValue p
  | Waking (put_done p false) _ =>
      last_by u es = Some (ev_push u (p_ticket p) (p_value p))
  | Waking (put_done p true) _ => last_by u es = Some (ev_put u (p_ticket p) (p_value p))
  | HeadLoad c | HeadClosed _ c _ | HeadLast _ c _ | HeadBackoff _ c _ | HeadWait _ c _
  | GetValue c | Skip c _ | Waking (get_done c None) _ | Waking (skip_done c) _
  | Waking (try_skip_done c) _ => last_by u es = Some (ev_pop u (c_ticket c))
  | Waking (get_done c (Some v)) _ => last_by u es = Some (ev_get u (c_ticket c) v)
  | Idle (Some (Popped v)) => exists g, last_by u es = Some (ev_get u g v)
  | Idle (Some (Returned success)) => exists g v, last_by u es = Some (ev_put u g v)
  | _ => True
  end.

Lemma last_event_step u r p c r' p' es :
  no_try_push p = true -> last_event u p es ->
  ring_step tr moved_from atomic_counter u r p c = Some (r', p') ->
  last_event u p' (es ++ option_list (event_at u r p c)).
Proof.
  intros Hn He Hstep.
  destruct p; try done; destruct c; try done; simpl in *; 
    unfold in_slot, put_value, get_value, skip, start in *; break;
    rewrite ?app_nil_r, ?last_by_self by done;
    unfold tail_test, tail_body, head_test, head_body, status_test, head_exit, after;
    repeat case_match; simpl in *; rewrite ?last_by_self by done; simplify_eq; eauto.
Qed.

(** ** What a step does to the history *)

(** Head, tail, limit and cells. *)
Definition history (r : ring V) : Z * Z * option Z * gmap Z (cell V) :=
  (g_head r, g_tail r, g_limit r, g_cells r).

Definition history_step (r : ring V) (p : pc V) (o : option event) (r' : ring V) : Prop :=
  match o with
  | Some (ev_push _ g _) =>
      g = g_tail r /\ history r' = (g_head r, g_tail r + 1, g_limit r, g_cells r)
  | Some (ev_pop _ g) => history r' = (g_head r + 1, g_tail r, g_limit r, g_cells r)
  | Some (ev_put _ g v) =>
      history r' = (g_head r, g_tail r, g_limit r, <[g := Full v]> (g_cells r))
  | Some (ev_get _ g v) =>
      history r' = (g_head r, g_tail r, g_limit r, <[g := Taken v]> (g_cells r))
  | None =>
      history r' = history r \/
      (exists p0, p = PutValue p0 /\
         history r' = (g_head r, g_tail r, g_limit r, <[p_ticket p0 := Void]> (g_cells r))) \/
      (exists c, (p = GetValue c \/ exists b, p = Skip c b) /\
         history r' = (g_head r, g_tail r, g_limit r, <[c_ticket c := Dropped]> (g_cells r))) \/
      (g_closes r' = (g_closes r + 1)%nat /\
         history r' = (g_head r, g_tail r + mask_ r + 1, Some (g_tail r), g_cells r))
  end.

Lemma ring_step_history u r p c r' p' :
  no_try_push p = true ->
  ring_step tr moved_from atomic_counter u r p c = Some (r', p') ->
  history_step r p (event_at u r p c) r'.
Proof.
  intros Hn Hstep. unfold history_step, history.
  destruct p; try done; destruct c; try done; simpl in *;
    unfold in_slot, put_value, get_value, skip in *; break; simpl; try done;
    first [by left | by right; left; eauto | by right; right; left; eauto |
           by right; right; right; split; [simpl; lia|done] | idtac].
Qed.

(** ** Facts of the simulation used here *)

Section facts.
Context (k : Z) (Hk : 4 <= k < 32) (s : state) (a : @astate V) (Ha : sim k s a).

Lemma put_fresh u p : pcs s !! u = Some (PutValue p) -> g_cells (shared s) !! p_ticket p = None.
Proof.
  intros Hp. rewrite <- (rr_cells _ _ _ (sim_ring _ _ _ Ha)).
  assert (a_roles a u = r_prod (p_ticket p) (p_value p) p_writing) as R
    by (destruct s; exact (sim_role_of k _ _ _ _ _ Ha Hp)).
  apply (ir_prod _ _ (ai_roles _ _ (sim_inv _ _ _ Ha)) _ _ _ _ R).
Qed.

Lemma reading_cell u p g ok :
  pcs s !! u = Some p -> role_of p = r_cons g (c_reading ok) ->
  g_cells (shared s) !! g = Some (put_cell ok (a_val (slot_of (2 ^ k) a g))).
Proof.
  intros Hp Hr. rewrite <- (rr_cells _ _ _ (sim_ring _ _ _ Ha)).
  assert (a_roles a u = r_cons g (c_reading ok)) as R
    by (rewrite <- Hr; destruct s; exact (sim_role_of k _ _ _ _ _ Ha Hp)).
  destruct (ir_cons _ _ (ai_roles _ _ (sim_inv _ _ _ Ha)) _ _ _ R) as (Hg & Hns & Hpos & Hst).
  apply held_cell; try done; [apply (sim_inv _ _ _ Ha)|lia].
Qed.

Lemma get_full u c sl :
  pcs s !! u = Some (GetValue c) -> ring_ (shared s) !! c_slot (shared s) c = Some sl ->
  g_cells (shared s) !! c_ticket c = Some (Full (value sl)).
Proof.
  intros Hp Hsl. rewrite (reading_cell u _ _ true Hp eq_refl). simpl. do 2 f_equal.
  pose proof (sim_local _ _ _ Ha _ _ Hp) as Hg. simpl in Hg.
  destruct (slot_at k Hk _ a (c_ticket c) (sim_ring _ _ _ Ha)) as (sl' & Hsl' & [_ E2 _ _]).
  unfold c_slot in Hsl. rewrite Hg in Hsl. assert (sl' = sl) as -> by congruence. exact E2.
Qed.

Lemma try_pop_ticket u c t :
  within s = true -> pcs s !! u = Some (TryPopIncrement c t) ->
  head_ (shared s) = c_count c -> c_ticket c = g_head (shared s).
Proof.
  intros Hw Hp He. destruct (sim_local _ _ _ Ha _ _ Hp) as (Hg & Hr & _).
  destruct (within_at _ _ _ Hw Hp) as (Hhw & _ & _). simpl in Hhw. apply Z.ltb_lt in Hhw.
  symmetry. apply (wrap_inj 32); [lia|lia|]. pose proof (w_head _ (sim_words _ _ _ Ha)) as E. congruence.
Qed.

Lemma counts_nonneg : 0 <= g_head (shared s) /\ 0 <= g_tail (shared s) /\
  forall l, g_limit (shared s) = Some l -> 0 <= l /\ l + 2 ^ k <= g_tail (shared s).
Proof.
  pose proof (sim_ring _ _ _ Ha) as [_ _ _ Eh Et _ El]. rewrite <- Eh, <- Et, <- El.
  destruct (ai_counts _ _ (sim_inv _ _ _ Ha)) as [H1 H2 H3 _ _]. auto.
Qed.
End facts.

(** ** Tickets are handed out in order *)

Definition push_tickets (k : Z) (r : ring V) : list Z :=
  match g_limit r with
  | None => seqZ 0 (g_tail r)
  | Some l => seqZ 0 l ++ seqZ (l + 2 ^ k) (g_tail r - l - 2 ^ k)
  end.

Record tickets_ok (k : Z) (es : list event) (r : ring V) : Prop := {
  to_pops : (pops es).*1 = seqZ 0 (g_head r);
  to_pushes : (pushes es).*1 = push_tickets k r;
}.

Lemma seqZ_snoc m n : 0 <= n -> seqZ m (n + 1) = seqZ m n ++ [m + n].
Proof. intros H. rewrite seqZ_app by lia. done. Qed.

Lemma tickets_ok_step k es s a u c r' p p' :
  4 <= k < 32 -> sim k s a -> within s = true -> (g_closes r' <= 1)%nat ->
  pcs s !! u = Some p -> tickets_ok k es (shared s) ->
  ring_step tr moved_from atomic_counter u (shared s) p c = Some (r', p') ->
  tickets_ok k (es ++ option_list (event_at u (shared s) p c)) r'.
Proof.
  intros Hk Ha Hw Hcl Hp [Hpop Hpush] Hstep.
  pose proof (counts_nonneg k s a Ha) as (Hh & Ht & Hl).
  pose proof (ring_step_history u _ p c r' p'
    (proj2 (proj2 (within_at _ _ _ Hw Hp))) Hstep) as Hist.
  destruct (event_at u (shared s) p c) as [[u' g v|u' g v|u' g|u' g v]|] eqn:Ev;
    unfold history_step, history in Hist; simpl.
  - destruct Hist as [-> [= E1 E2 E3 E4]]. split; unfold pops, pushes in *; rewrite omap_app; simpl.
    + by rewrite app_nil_r, E1.
    + rewrite fmap_app, Hpush. unfold push_tickets. rewrite E2, E3. simpl.
      destruct (g_limit (shared s)) as [l|]; [|by rewrite seqZ_snoc].
      destruct (Hl l eq_refl). rewrite <- app_assoc. f_equal.
      replace (g_tail (shared s) + 1 - l - 2 ^ k) with (g_tail (shared s) - l - 2 ^ k + 1) by lia.
      rewrite seqZ_snoc by lia. do 2 f_equal. lia.
  - injection Hist as E1 E2 E3 E4. split; unfold pops, pushes, push_tickets in *; rewrite omap_app; simpl;
      by rewrite app_nil_r, ?E1, ?E2, ?E3.
  - injection Hist as E1 E2 E3 E4. split; unfold pops, pushes, push_tickets in *; rewrite omap_app; simpl.
    + rewrite fmap_app, Hpop, E1, seqZ_snoc, Z.add_0_l by done. simpl. do 2 f_equal.
      apply event_at_pop in Ev as [(m & -> & ->)|(c0 & t & -> & E & ->)]; [done|].
      by eapply try_pop_ticket.
    + by rewrite app_nil_r, E2, E3.
  - injection Hist as E1 E2 E3 E4. split; unfold pops, pushes, push_tickets in *; rewrite omap_app; simpl;
      by rewrite app_nil_r, ?E1, ?E2, ?E3.
  - rewrite app_nil_r. destruct Hist as [[= E1 E2 E3 E4]|[(? & _ & [= E1 E2 E3 E4])|[(? & _ & [= E1 E2 E3 E4])|(Ec & [= E1 E2 E3 E4])]]];
      split; unfold push_tickets in *; rewrite ?E1, ?E2, ?E3; try done.
    assert (g_limit (shared s) = None) as HN by (apply (w_closes _ (sim_words _ _ _ Ha)); lia).
    rewrite HN in Hpush. rewrite Hpush, (rr_mask _ _ _ (sim_ring _ _ _ Ha)). unfold size.
    replace (g_tail (shared s) + (2 ^ k - 1) + 1 - g_tail (shared s) - 2 ^ k) with 0 by lia.
    by rewrite app_nil_r.
Qed.

(** ** Values travel from their put to their get *)

Record values_ok (es : list event) (cells : gmap Z (cell V)) : Prop := {
  vo_cells g v :
    cells !! g = Some (Full v) \/ cells !! g = Some (Taken v) -> exists u, ev_put u g v ∈ es;
  vo_puts u g v : ev_put u g v ∈ es -> ev_push u g v ∈ es /\ cells !! g <> None;
  vo_gets u g v : ev_get u g v ∈ es -> cells !! g = Some (Taken v);
  vo_puts_once : NoDup (puts es);
  vo_gets_once : NoDup (gets es);
  vo_order es1 u g v es2 :
    es = es1 ++ ev_get u g v :: es2 ->
    (exists u', ev_push u' g v ∈ es1 /\ ev_put u' g v ∈ es1) /\ ev_pop u g ∈ es1;
}.

Lemma elem_of_snoc {A} (l : list A) e x : x ∈ l ++ [e] <-> x ∈ l \/ x = e.
Proof. by rewrite elem_of_app, list_elem_of_singleton. Qed.

Lemma elem_of_puts g es : g ∈ puts es -> exists u v, ev_put u g v ∈ es.
Proof.
  unfold puts. rewrite list_elem_of_omap. intros ([] & Hin & E); try done.
  injection E as ->. eauto.
Qed.

Lemma elem_of_gets g es : g ∈ gets es -> exists u v, ev_get u g v ∈ es.
Proof.
  unfold gets. rewrite list_elem_of_omap. intros ([] & Hin & E); try done.
  injection E as ->. eauto.
Qed.

Lemma NoDup_snoc {A} (l : list A) x : NoDup l -> x ∉ l -> NoDup (l ++ [x]).
Proof.
  intros H Hx. apply NoDup_app. split; [done|]. split; [|apply NoDup_singleton].
  intros y Hy ->%list_elem_of_singleton. done.
Qed.

(** Giving ticket [g] a fate that no event reports. *)
Lemma values_ok_cell es cells g x :
  values_ok es cells -> (forall v, cells !! g <> Some (Taken v)) ->
  x = Void \/ x = Dropped -> values_ok es (<[g := x]> cells).
Proof.
  intros [H1 H2 H3 H4 H5 H6] Hg Hx. split; try done.
  - intros g' v. rewrite cells_insert. case_decide; [|apply H1]. destruct Hx as [-> | ->]; by intros [|].
  - intros u g' v Hin. destruct (H2 u g' v Hin). split; [done|].
    rewrite cells_insert. by case_decide.
  - intros u g' v Hin. rewrite cells_insert. case_decide; [|by eapply H3].
    subst g'. by apply H3, Hg in Hin.
Qed.

Lemma values_ok_ticket es cells e :
  values_ok es cells ->
  match e with ev_push _ _ _ | ev_pop _ _ => True | _ => False end ->
  values_ok (es ++ [e]) cells.
Proof.
  intros [H1 H2 H3 H4 H5 H6] He. split.
  - intros g v Hc. destruct (H1 g v Hc) as [u ?]. exists u. apply elem_of_snoc. auto.
  - intros u g v [Hin|<-]%elem_of_snoc; [|done]. destruct (H2 u g v Hin).
    rewrite elem_of_snoc. auto.
  - intros u g v [Hin|<-]%elem_of_snoc; [|done]. by eapply H3.
  - unfold puts in *. rewrite omap_app. destruct e; try done; simpl; by rewrite app_nil_r.
  - unfold gets in *. rewrite omap_app. destruct e; try done; simpl; by rewrite app_nil_r.
  - intros es1 u g v es2 [(<- & _)|(es2' & -> & ->)]%snoc_split; [done|]. by eapply H6.
Qed.

Lemma values_ok_put es cells u g v :
  values_ok es cells -> cells !! g = None -> ev_push u g v ∈ es ->
  values_ok (es ++ [ev_put u g v]) (<[g := Full v]> cells).
Proof.
  intros [H1 H2 H3 H4 H5 H6] Hg Hp. split.
  - intros g' v'. rewrite cells_insert. case_decide as E.
    + subst g'. intros [[= <-]|?]; [|done]. exists u. apply elem_of_snoc. auto.
    + intros Hc. destruct (H1 g' v' Hc) as [u' ?]. exists u'. apply elem_of_snoc. auto.
  - intros u' g' v'. rewrite !elem_of_snoc, cells_insert. intros [Hin|[= -> -> ->]].
    + destruct (H2 _ _ _ Hin). split; [by left|]. by case_decide.
    + split; [by left|]. by rewrite decide_True.
  - intros u' g' v' [Hin|]%elem_of_snoc; [|done]. rewrite cells_insert.
    apply H3 in Hin as Hc. case_decide; [congruence|done].
  - unfold puts in *. rewrite omap_app. simpl. apply NoDup_snoc; [done|].
    intros (u' & v' & Hin)%elem_of_puts. by destruct (H2 _ _ _ Hin).
  - unfold gets in *. rewrite omap_app. simpl. by rewrite app_nil_r.
  - intros es1 u' g' v' es2 [(E & _)|(es2' & -> & ->)]%snoc_split; [done|]. by eapply H6.
Qed.

Lemma values_ok_get es cells u g v :
  values_ok es cells -> cells !! g = Some (Full v) -> ev_pop u g ∈ es ->
  values_ok (es ++ [ev_get u g v]) (<[g := Taken v]> cells).
Proof.
  intros [H1 H2 H3 H4 H5 H6] Hg Hp. split.
  - intros g' v'. rewrite cells_insert. intros Hc.
    assert (cells !! g' = Some (Full v') \/ cells !! g' = Some (Taken v')) as Hc'.
    { case_decide; [|done]. subst g'. destruct Hc as [|[= <-]]; [done|by left]. }
    destruct (H1 g' v' Hc') as [u' ?]. exists u'. apply elem_of_snoc. auto.
  - intros u' g' v'. rewrite !elem_of_snoc, cells_insert. intros [Hin|]; [|done].
    destruct (H2 _ _ _ Hin). split; [by left|]. by case_decide.
  - intros u' g' v' [Hin|[= -> -> ->]]%elem_of_snoc; rewrite cells_insert.
    + apply H3 in Hin as Hc. case_decide; [congruence|done].
    + by rewrite decide_True.
  - unfold puts in *. rewrite omap_app. simpl. by rewrite app_nil_r.
  - unfold gets in *. rewrite omap_app. simpl. apply NoDup_snoc; [done|].
    intros (u' & v' & Hin)%elem_of_gets. apply H3 in Hin. congruence.
  - intros es1 u' g' v' es2 [([= -> -> ->] & -> & ->)|(es2' & -> & ->)]%snoc_split; [|by eapply H6].
    split; [|done]. destruct (H1 g v (or_introl Hg)) as [u' Hin]. exists u'.
    split; [|done]. apply (H2 _ _ _ Hin).
Qed.

Lemma values_ok_step k es s a u c r' p p' :
  4 <= k < 32 -> sim k s a -> within s = true -> pcs s !! u = Some p ->
  last_event u p es -> values_ok es (g_cells (shared s)) ->
  ring_step tr moved_from atomic_counter u (shared s) p c = Some (r', p') ->
  values_ok (es ++ option_list (event_at u (shared s) p c)) (g_cells r').
Proof.
  intros Hk Ha Hw Hp Hlast Hok Hstep.
  pose proof (ring_step_history u _ p c r' p'
    (proj2 (proj2 (within_at _ _ _ Hw Hp))) Hstep) as Hist.
  destruct (event_at u (shared s) p c) as [[u' g v|u' g v|u' g|u' g v]|] eqn:Ev;
    unfold history_step, history in Hist; simpl.
  - destruct Hist as [_ [= _ _ _ ->]]. by apply values_ok_ticket.
  - injection Hist as _ _ _ ->. pose proof (event_at_thread _ _ _ _ _ Ev) as Eu. simpl in Eu. subst u'.
    apply event_at_put in Ev as (p0 & -> & -> & ->).
    apply values_ok_put; [done|by eapply put_fresh|]. by apply (last_by_in u).
  - injection Hist as _ _ _ ->. by apply values_ok_ticket.
  - injection Hist as _ _ _ ->. pose proof (event_at_thread _ _ _ _ _ Ev) as Eu. simpl in Eu. subst u'.
    apply event_at_get in Ev as (c0 & sl & -> & Hsl & -> & ->).
    apply values_ok_get; [done|by eapply get_full|]. by apply (last_by_in u).
  - rewrite app_nil_r.
    destruct Hist as [[= _ _ _ ->]|[(p0 & -> & [= _ _ _ ->])|[(c0 & Hc0 & [= _ _ _ ->])|(_ & [= _ _ _ ->])]]];
      try done.
    + apply values_ok_cell; [done| |by left]. intros v. by rewrite (put_fresh k s a Ha u p0 Hp).
    + apply values_ok_cell; [done| |by right]. intros v.
      destruct Hc0 as [-> |[b ->]].
      * by rewrite (reading_cell k s a Ha u _ _ true Hp eq_refl).
      * by rewrite (reading_cell k s a Ha u _ _ false Hp eq_refl).
Qed.

Lemma last_by_app u es (o : option event) :
  (forall e, o = Some e -> by_thread e <> u) -> last_by u (es ++ option_list o) = last_by u es.
Proof.
  intros H. destruct o as [e|]; simpl; [by apply last_by_other, H|by rewrite app_nil_r].
Qed.

Lemma last_event_other u u' r p c q es :
  u' <> u -> last_event u' q es -> last_event u' q (es ++ option_list (event_at u r p c)).
Proof.
  intros Hne. unfold last_event. rewrite last_by_app; [done|].
  intros e He. apply event_at_thread in He. congruence.
Qed.

Record trace_ok (k : Z) (es : list event) (s : state) : Prop := {
  tk_last u p : pcs s !! u = Some p -> last_event u p es;
  tk_tickets : tickets_ok k es (shared s);
  tk_values : values_ok es (g_cells (shared s));
}.

Lemma trace_ok_start k s : ring_start k s -> trace_ok k [] s.
Proof.
  intros (Hk & v0 & last0 & r & n & Hr & ->). apply make_ring_inr in Hr as ->; [|done]. split; simpl.
  - intros u p Hp. apply lookup_replicate in Hp as [-> _]. done.
  - done.
  - split; simpl; try (intros; by apply not_elem_of_nil in H); try apply NoDup_nil_2.
    + intros g v. rewrite lookup_empty. by intros [|].
    + intros es1 u g v es2 H. by destruct es1.
Qed.

Lemma traced_ok k es s : traced k es s -> trace_ok k es s.
Proof.
  intros H. induction H as [s Hs Hw|es s [u c] s' Ht IH He Hw]; [by apply trace_ok_start|].
  destruct (reached_sim tr moved_from k s (traced_reached k es s Ht)) as [Hk [a Ha]].
  pose proof (reachable_in_end _ _ _ _ (traced_reached k es s Ht)) as Hw0. simpl in Hw0.
  destruct IH as [Hl Htk Hv]. pool_step He. unfold event_of. simpl. rewrite Hp.
  assert (g_closes sh' <= 1)%nat as Hc.
  { unfold within in Hw. apply andb_prop in Hw as [_ Hw]. by apply Nat.leb_le in Hw. }
  split; simpl.
  - intros u' q [(-> & -> & _)|[Hne Hq]]%insert_lookup_cases.
    + eapply last_event_step; eauto. apply (within_at _ _ _ Hw0 Hp).
    + apply last_event_other; auto.
  - by eapply tickets_ok_step.
  - by eapply values_ok_step; eauto.
Qed.

(** ** Positions in the trace *)

Lemma lookup_pair {A B} (l : list (A * B)) x y :
  (x, y) ∈ l -> exists i, l.*1 !! i = Some x /\ l.*2 !! i = Some y.
Proof.
  intros [i Hi]%list_elem_of_lookup_1. exists i. by rewrite !list_lookup_fmap, Hi.
Qed.

Lemma push_tickets_lookup k r i g :
  0 < 2 ^ k -> push_tickets k r !! i = Some g -> below (g_limit r) g -> i = Z.to_nat g.
Proof.
  unfold push_tickets, below. intros Hpos H Hb. destruct (g_limit r) as [l|].
  - specialize (Hb l eq_refl). apply lookup_app_Some in H as [H|[_ H]]; apply lookup_seqZ in H; lia.
  - apply lookup_seqZ in H. lia.
Qed.

(** C4. First in, first out, exactly once: no ticket is put or got twice, and
    a get of [v] with ticket [g] comes after the put of [v] with the same
    ticket; [v] is the value of the [g]-th push in the order in which pushes
    took their tickets, and the thread that got it is the [g]-th pop in the
    order in which pops took theirs. *)
Theorem fifo k es s :
  traced k es s ->
  NoDup (puts es) /\ NoDup (gets es) /\
  forall es1 u g v es2, es = es1 ++ ev_get u g v :: es2 ->
    (exists u', ev_put u' g v ∈ es1) /\
    (pushes es1).*2 !! Z.to_nat g = Some v /\ (pops es1).*2 !! Z.to_nat g = Some u.
Proof.
  intros Ht. destruct (traced_ok k es s Ht) as [_ [Hpop Hpush] [_ _ Hget Hn1 Hn2 Hord]].
  split; [done|]. split; [done|]. intros es1 u g v es2 E.
  destruct (Hord es1 u g v es2 E) as [(u' & Hp1 & Hp2) Hp3]. split; [eauto|].
  destruct (reached_sim tr moved_from k s (traced_reached k es s Ht)) as [Hk [a Ha]].
  assert (g_cells (shared s) !! g = Some (Taken v)) as Hc.
  { apply (Hget u). subst es. apply elem_of_app. right. by left. }
  rewrite <- (rr_cells _ _ _ (sim_ring _ _ _ Ha)) in Hc.
  destruct (ic_cells _ _ (ai_counts _ _ (sim_inv _ _ _ Ha)) g _ Hc) as [Hg Hb].
  rewrite (rr_limit _ _ _ (sim_ring _ _ _ Ha)) in Hb. split.
  - destruct (lookup_pair (pushes es1) g v) as (i & Hi1 & Hi2).
    { unfold pushes. apply list_elem_of_omap. by exists (ev_push u' g v). }
    rewrite <- (push_tickets_lookup k (shared s) i g); [done|by apply (size_pos k)| |done].
    rewrite <- Hpush, E. unfold pushes. rewrite omap_app, fmap_app. by apply lookup_app_l_Some.
  - destruct (lookup_pair (pops es1) g u) as (i & Hi1 & Hi2).
    { unfold pops. apply list_elem_of_omap. by exists (ev_pop u g). }
    assert (seqZ 0 (g_head (shared s)) !! i = Some g) as Hi.
    { rewrite <- Hpop, E. unfold pops. rewrite omap_app, fmap_app. by apply lookup_app_l_Some. }
    apply lookup_seqZ in Hi as [-> _]. by rewrite Z.add_0_l, Nat2Z.id.
Qed.

(** What an operation reports is what its thread did last: a pop that
    returned [v] got [v], and a push that returned success put its value. *)
Theorem outcomes_report_events k es s u :
  traced k es s ->
  (forall v, pcs s !! u = Some (Idle (Some (Popped v))) ->
     exists g, last_by u es = Some (ev_get u g v)) /\
  (pcs s !! u = Some (Idle (Some (Returned success))) ->
     exists g v, last_by u es = Some (ev_put u g v)).
Proof.
  intros Ht. destruct (traced_ok k es s Ht) as [Hl _ _]. split.
  - intros v Hp. apply (Hl _ _ Hp).
  - intros Hp. apply (Hl _ _ Hp).
Qed.

(** ** Executable traces *)

Fixpoint trace (s : state) (ls : list (nat * choice V)) : option (list event * state) :=
  if within s then
    match ls with
    | [] => Some ([], s)
    | l :: ls =>
        s' ← exec s l;
        x ← trace s' ls;
        Some (event_of s l ++ x.1, x.2)
    end
  else None.

Lemma trace_traced_from k es s ls es' s' :
  traced k es s -> trace s ls = Some (es', s') -> traced k (es ++ es') s'.
Proof.
  revert es s es'. induction ls as [|l ls IH]; intros es s es' Ht H; simpl in H;
    destruct (within s); try done.
  - injection H as <- <-. by rewrite app_nil_r.
  - destruct (exec s l) as [s1|] eqn:He; [|done]. simpl in H.
    destruct (trace s1 ls) as [[es1 s2]|] eqn:Hs; [|done]. simpl in H. injection H as <- <-.
    rewrite app_assoc. eapply IH; [|done]. eapply traced_step; [done..|].
    destruct ls; simpl in Hs; by destruct (within s1).
Qed.

Lemma trace_traced k s ls es s' :
  ring_start k s -> trace s ls = Some (es, s') -> traced k es s'.
Proof.
  intros Hs H. apply (trace_traced_from k [] s ls es s'); [|done]. apply traced_start; [done|].
  destruct ls; simpl in H; by destruct (within s).
Qed.
End trace.
