(* ===== verification/BqProgress.v ===== *)
(** * Progress of the bounded queue

    Termination of the blocking operations when nobody interferes: whatever the
    slot class, a push into an open queue with room and a pop from an open queue
    with an item return within eight steps of the calling thread, with the result
    the queue's content dictates. *)

From stdpp Require Import gmap functions.
From S2P Require Import Prelude Conqueue BqSlot BqRing BqTokens BqTickets BqChannel.
From S2P Require Import BqRefine BqTheorems BqCalls BqWake.
Local Open Scope Z_scope.

(** ** The interface

    How many steps a call of [wake] may still take. *)
Class SlotBound (S : Slot) {L : SlotLaws S} : Type := {
  slot_left : slot_pc -> nat;
  left_enter t : (slot_left (slot_enter (call_wake t)) <= 4)%nat;
  left_step u s p c s' r :
    slot_phase p = over \/ (exists t, slot_phase p = waking t) ->
    slot_step u s p c = Some (s', r) ->
    match r with inl q => (slot_left q < slot_left p)%nat | inr _ => (0 < slot_left p)%nat end;
}.

#[export] Instance spin_bound : SlotBound spin.
Proof.
  refine {| slot_left := (fun _ => 1%nat) : @slot_pc spin -> _ |}; [simpl; lia|].
  intros u s p c s' r _ H. destruct p; injection H as <- <-; lia.
Defined.

#[export] Instance yield_bound : SlotBound yield.
Proof.
  refine {| slot_left := (fun _ => 1%nat) : @slot_pc yield -> _ |}; [simpl; lia|].
  intros u s p c s' r Hp H. destruct p as [| |[]]; injection H as <- <-; simpl in *; try lia.
  all: by destruct Hp as [|[]].
Defined.

#[export] Instance futex_bound : SlotBound futex_slot.
Proof.
  refine {| slot_left := (fun p => match p with FutexSlot.WakeExchange _ => 2 | _ => 1 end)%nat : @slot_pc futex_slot -> _ |};
    [simpl; lia|].
  intros u s p c s' r Hp H. destruct p; simpl in *; try (by destruct Hp as [|[]]).
  all: unfold FutexSlot.wake_all in H; repeat case_match; simplify_option_eq; lia.
Defined.

#[export] Instance synch_bound : SlotBound synch_slot.
Proof.
  refine {| slot_left := (fun p => match p with
      | SynchSlot.WakeLock _ => 4 | SynchSlot.WakeStore _ => 3
      | SynchSlot.WakeNotify | SynchSlot.CloseNotify => 2 | _ => 1 end)%nat : @slot_pc synch_slot -> _ |};
    [simpl; lia|].
  intros u s p c s' r Hp H. destruct p; simpl in *; try (by destruct Hp as [|[]]).
  all: repeat case_match; simplify_option_eq; lia.
Defined.

Section quiet.
Context {V : Type} {S : Slot} {L : SlotLaws S}.

(** In a quiescent open queue the slot of the next push serves it, if there
    is room, and the slot of the next pop serves that. *)
Lemma idle_slot_pos k (s : pool (ring V) (pc V)) a g :
  4 <= k < 32 -> sim k s a -> all_idle s = true -> g_limit (shared s) = None ->
  g_head (shared s) <= g < g_head (shared s) + 2 ^ k -> g <= g_tail (shared s) ->
  a_pos (slot_of (2 ^ k) a g) = g.
Proof.
  intros Hk Ha Hi Hl Hg Hgt. pose proof (size_pos k Hk) as Hpos. unfold size in Hpos.
  pose proof (sim_ring _ _ _ Ha) as [_ _ _ Eh Et _ El]. rewrite <- Eh, <- Et in *.
  rewrite <- El in Hl. pose proof (sim_inv _ _ _ Ha) as Hinv. unfold size in Hinv.
  pose proof (slot_res (2 ^ k) Hpos a g (ai_slots _ _ Hinv)) as Hr.
  assert (a_pos (slot_of (2 ^ k) a g) <= g) as Hle.
  { destruct (Z.le_gt_cases (a_pos (slot_of (2 ^ k) a g)) g) as [|Hgt']; [done|].
    assert (settled (a_cells a !! g)) as Hset.
    { apply (is_past _ _ (ai_slots _ _ Hinv)). pose proof (ic_head _ _ (ai_counts _ _ Hinv)). lia. }
    apply (ic_settled _ _ (ai_counts _ _ Hinv)) in Hset. lia. }
  destruct (Z.eq_dec (a_pos (slot_of (2 ^ k) a g)) g) as [|Hne]; [done|exfalso].
  assert (a_pos (slot_of (2 ^ k) a g) <= g - 2 ^ k) as Hlow.
  { apply (res_gap (2 ^ k) Hpos); [|lia]. rewrite Hr, <- (res_next (2 ^ k) (g - 2 ^ k)). f_equal. lia. }
  set (q := a_pos (slot_of (2 ^ k) a g)) in *.
  assert (slot_of (2 ^ k) a q = slot_of (2 ^ k) a g) as Hq by (by apply slot_serves).
  destruct (iv_cons _ _ (ai_served _ _ Hinv) q) as (t & st & R).
  - split; [|lia]. apply (is_res _ _ (ai_slots _ _ Hinv) (res (2 ^ k) g)). by apply res_range.
  - intros l. by rewrite Hl.
  - unfold unreleased. rewrite Hq. fold q. lia.
  - by rewrite (all_idle_roles k s a t Ha Hi) in R.
Qed.

Lemma within_closes (s : pool (ring V) (pc V)) : within s = true -> (g_closes (shared s) <= 1)%nat.
Proof. unfold within. intros [_ H]%andb_prop. by apply Nat.leb_le in H. Qed.

Lemma idle_all (ps : list (pc V)) : forallb idle ps = true -> forall v q, ps !! v = Some q -> idle q = true.
Proof. rewrite forallb_forall. intros H v q Hq. by apply H, list_elem_of_In, (list_elem_of_lookup_2 _ v). Qed.

(** A state in which only thread [u] is busy. *)
Lemma within_solo (r : ring V) (ps : list (pc V)) u p :
  (forall v q, v <> u -> ps !! v = Some q -> idle q = true) -> head_window r p = true -> ticket_window r p = true ->
  no_try_push p = true -> (g_closes r <= 1)%nat ->
  within (Pool r (<[u := p]> ps)) = true.
Proof.
  intros Hi H1 H2 H3 H4. unfold within. simpl. apply andb_true_intro.
  split; [|by apply Nat.leb_le]. apply forallb_forall. intros q Hq.
  apply list_elem_of_In, list_elem_of_lookup in Hq as [i Hi'].
  apply insert_lookup_cases in Hi' as [(_ & -> & _)|[Hne Hq]]; [by rewrite H1, H2, H3|].
  specialize (Hi i q Hne Hq). by destruct q.
Qed.

(** The slot of a ticket it serves, as the code finds it. *)
Lemma serving_slot k (r : ring V) a g :
  4 <= k < 32 -> ring_rel k r a -> a_pos (slot_of (2 ^ k) a g) = g ->
  exists sl, ring_ r !! slot_index (mask_ r) (u32 g) = Some sl /\ g_pos sl = g /\
    value sl = a_val (slot_of (2 ^ k) a g) /\
    ticket_matches (slot_load (base sl)) (token_of (u32 g)) = true /\
    st_rel (slot_load (base sl)) (a_st (slot_of (2 ^ k) a g)).
Proof.
  intros Hk H Hp. destruct (slot_at k Hk r a g H) as (sl & Hsl & [E1 E2 E3 E4]).
  unfold size in *. exists sl. split; [done|]. split; [congruence|]. split; [done|]. split; [|done].
  unfold ticket_matches. by rewrite land_ticket_mask, E4, token_of_wrap, <- E1, Hp, Z.eqb_refl.
Qed.
End quiet.

Section solo.
Context {V : Type} {S : Slot} {L : SlotLaws S} {W : SlotWake S} {B : SlotBound S}.
Context (tr : traits) (moved_from : V -> V).

Local Abbreviation exec := (ring_exec tr moved_from atomic_counter).
Local Abbreviation state := (pool (ring V) (pc V)).

Lemma idle_at (ps : list (pc V)) u :
  forallb idle ps = true -> (u < length ps)%nat -> exists o, ps !! u = Some (Idle o).
Proof.
  intros Hi Hu. destruct (lookup_lt_is_Some_2 ps u Hu) as [p Hp].
  rewrite forallb_forall in Hi. apply list_elem_of_lookup_2 in Hp as Hin.
  apply list_elem_of_In, Hi in Hin. destruct p; try done. eauto.
Qed.

(** The window of a thread whose slot serves its ticket or the next one, in an
    open ring. *)
Lemma ticket_window_at (r : ring V) p count g sl :
  ticket_of p = Some (count, g) -> ring_ r !! slot_index (mask_ r) count = Some sl ->
  Z.abs (g - g_pos sl) < 2 ^ 32 -> g_limit r = None -> ticket_window r p = true.
Proof.
  intros H1 H2 H3 H4. unfold ticket_window. rewrite H1, H2, H4, andb_true_r. by apply Z.ltb_lt.
Qed.

(** *** The wake of the slot *)

Local Abbreviation step := (ring_step tr moved_from atomic_counter).

(** A put or a get that is about to return. *)
Definition returns (a : @after_wake V) : Prop :=
  match a with put_done _ _ | get_done _ _ => True | _ => False end.

Lemma returns_idle a : returns a -> exists o, after a = Idle o.
Proof. destruct a as [? []|? []| |]; simpl; eauto; done. Qed.

(** The thread that wakes is not held up, since nobody else is in the slot. *)
Lemma solo_wake_moves k s u a w :
  reached tr moved_from k s -> Z.of_nat (length (pcs s)) <= FutexSlot.INT32_MAX ->
  pcs s !! u = Some (Waking a w) -> (forall v q, v <> u -> pcs s !! v = Some q -> idle q = true) ->
  exists c x, in_slot u (shared s) (wake_slot (shared s) a) w c (Waking a) (fun _ => after a) = Some x.
Proof.
  intros Hs Hn Hp Hidle. destruct (reached_sim tr moved_from k s Hs) as [Hk [a0 Ha]].
  pose proof (reached_sleepers tr moved_from k s Hs Hn) as Hsl.
  destruct (stuck (shared s) u (Waking a w)) eqn:Hst.
  - exfalso. assert (blocked (shared s) (Waking a w) = true) as Hb; [|done].
    apply (stuck_blocked s u); [done| |done|done]. intros v q Hq.
    destruct (decide (v = u)) as [->|Hv]; [|by rewrite (Hidle v q)].
    rewrite Hp in Hq. injection Hq as <-. by rewrite Hst, orb_true_r.
  - destruct (unstuck_moves tr moved_from k Hk s a0 u _ Ha Hsl (reachable_in_end _ _ _ _ Hs) Hp eq_refl Hst)
      as (c & x & _ & Hx). destruct c; try done. eauto.
Qed.

(** What the slot of a wake serves before and after one of its steps. *)
Lemma wake_step_pos k s u a w sl c b x :
  reached tr moved_from k s -> pcs s !! u = Some (Waking a w) ->
  ring_ (shared s) !! wake_slot (shared s) a = Some sl -> slot_step u (base sl) w c = Some (b, x) ->
  g_limit (shared s) = None ->
  ticket_window (set_base (shared s) (wake_slot (shared s) a) sl b) (Waking a w) = true /\
  (slot_phase w = over \/ exists t, slot_phase w = waking t).
Proof.
  intros Hs Hp Hsl Hst Hl. destruct (reached_sim tr moved_from k s Hs) as [Hk [a0 Ha]].
  pose proof (sim_local _ _ _ Ha _ _ Hp) as (Hgood & sl0 & Hsl0 & Hok & Hph).
  rewrite Hsl in Hsl0. injection Hsl0 as <-.
  pose proof (reachable_in_end _ _ _ _ Hs) as Hw. destruct (within_at _ _ _ Hw Hp) as (_ & Htw & _).
  pose proof (slot_step_allowed _ _ _ _ _ _ Hok Hst) as Hall.
  set (i := wake_slot (shared s) a) in *.
  assert (exists count, ticket_of (Waking a w) = Some (count, wake_ticket a) /\ slot_index (mask_ (shared s)) count = i)
    as (count & Ht & Hi) by (destruct a; by eexists).
  unfold ticket_window in Htw. rewrite Ht, Hi, Hsl, Hl, andb_true_r in Htw. apply Z.ltb_lt in Htw.
  assert (Z.abs (wake_ticket a - new_pos (mask_ (shared s)) sl b) < 2 ^ 32 ->
    ticket_window (set_base (shared s) i sl b) (Waking a w) = true) as Hwin.
  { intros H. apply ticket_window_at with count (wake_ticket a) (RingSlot b (value sl) (new_pos (mask_ (shared s)) sl b));
      try done. simpl. rewrite Hi. eauto with pools. }
  split; [|destruct Hph; eauto]. apply Hwin. unfold new_pos.
  destruct Hph as [Hph|Hph]; rewrite Hph in Hall; simpl in Hall.
  - assert (g_pos sl = wake_ticket a) as Hpos.
    { destruct s as [r ps]. destruct (wake_astep k r ps u a0 a w _ Ha Hp Hph) as [_ Hpos].
      destruct (slot_at k Hk r a0 (wake_ticket a) (sim_ring _ _ _ Ha)) as (sl' & Hsl' & [E _ _ _]).
      simpl in Hsl. unfold i in Hsl. simpl in Hsl. rewrite (wake_slot_ticket r a Hgood), Hsl' in Hsl.
      injection Hsl as <-. congruence. }
    rewrite (rr_mask _ _ _ (sim_ring _ _ _ Ha)), Hpos. unfold size.
    assert (2 ^ k < 2 ^ 32) by (apply Z.pow_lt_mono_r; lia). assert (0 < 2 ^ k) by (apply Z.pow_pos_nonneg; lia).
    case_match; lia.
  - destruct Hall as [-> _]. by rewrite Z.eqb_refl.
Qed.

(** The wake runs to its end, and the ring's history stays as it is. *)
Lemma solo_wake n : forall k s u a w,
  reached tr moved_from k s -> Z.of_nat (length (pcs s)) <= FutexSlot.INT32_MAX ->
  pcs s !! u = Some (Waking a w) -> (forall v q, v <> u -> pcs s !! v = Some q -> idle q = true) ->
  g_limit (shared s) = None -> returns a -> (slot_left w <= n)%nat ->
  exists cs r', (length cs <= n)%nat /\
    run_in exec within s (pair u <$> cs) = Some (Pool r' (<[u := after a]> (pcs s))) /\
    channel (Pool r' (pcs s)) = channel s.
Proof.
  induction n as [|n IH]; intros k s u a w Hs Hn Hp Hidle Hl Ha Hle;
    destruct (solo_wake_moves k s u a w Hs Hn Hp Hidle) as (c & [r' p'] & Hx);
    apply in_slot_Some in Hx as Hin; destruct Hin as (sl & b & x & Hsl & Hst & Er & Ep);
    destruct (wake_step_pos k s u a w sl c b x Hs Hp Hsl Hst Hl) as [Hwin Hph];
    pose proof (left_step _ _ _ _ _ _ Hph Hst) as Hleft.
  { destruct x; lia. }
  pose proof (reachable_in_end _ _ _ _ Hs) as Hw. destruct s as [r ps]. cbn [shared pcs] in *.
  assert (exec (Pool r ps) (u, InSlot c) = Some (Pool r' (<[u := p']> ps))) as He
    by (eapply pool_exec_at; [exact Hp|exact Hx]).
  assert (within (Pool r' (<[u := p']> ps)) = true) as Hw'.
  { unfold within in Hw. apply andb_prop in Hw as [_ Hw]. apply Nat.leb_le in Hw.
    rewrite Er. apply within_solo; [done|..|done]; destruct x as [w'|t]; subst p'; try done;
      by destruct (returns_idle a Ha) as [o ->]. }
  destruct x as [w'|t]; subst p'.
  - destruct (IH k (Pool r' (<[u := Waking a w']> ps)) u a w') as (cs & r2 & Hlen & Hrun & Hch); try done.
    + eapply reach_step; [exact Hs|exact He|exact Hw'].
    + simpl. by rewrite length_insert.
    + simpl. eauto with pools.
    + intros v q Hv Hq. simpl in Hq. rewrite list_lookup_insert_ne in Hq by done. by eapply Hidle.
    + by rewrite Er.
    + lia.
    + exists (InSlot c :: cs), r2. simpl in Hrun. rewrite list_insert_insert_eq in Hrun.
      split; [simpl; lia|]. split; [|by rewrite Er in Hch]. by eapply run_in_cons.
  - exists [InSlot c], r'. split; [simpl; lia|]. split; [|by rewrite Er].
    eapply run_in_cons; [exact Hw|exact He|by apply run_in_nil].
Qed.

(** *** Single steps *)

Lemma step_tail_load u (r : ring V) p sl :
  ring_ r !! p_slot r p = Some sl -> ticket_matches (slot_load (base sl)) (p_token p) = true ->
  step u r (TailLoad p) Go = Some (r, PutValue p).
Proof.
  intros H Hm. unfold ring_step, step_wait. rewrite H. cbn [mbind option_bind].
  unfold tail_test. by rewrite Hm.
Qed.

Lemma step_put_value u (r : ring V) p sl :
  ring_ r !! p_slot r p = Some sl ->
  step u r (PutValue p) (Assign None) =
    Some (set_cell (set_slot r (p_slot r p) (RingSlot (base sl) (p_value p) (g_pos sl)))
            (p_ticket p) (Full (p_value p)),
          Waking (put_done p true) (slot_enter (call_wake (put_token tr (p_kind p) (p_token p))))).
Proof. intros H. unfold ring_step, step_wait, put_value. by rewrite H. Qed.

Lemma step_head_load u (r : ring V) c sl :
  ring_ r !! c_slot r c = Some sl -> ticket_matches (slot_load (base sl)) (c_token c) = true ->
  st_rel (slot_load (base sl)) h_valid ->
  step u r (HeadLoad c) Go = Some (r, GetValue c).
Proof.
  intros H Hm Hst. unfold ring_step, step_wait. rewrite H. cbn [mbind option_bind].
  unfold head_test, status_test, head_exit.
  rewrite Hm, (st_rel_zero _ _ Hst), bool_decide_eq_false_2 by done.
  pose proof (st_rel_valid _ _ Hst ltac:(done)) as Hv. by destruct (_ =? 0).
Qed.

Lemma step_get_value u (r : ring V) c sl :
  ring_ r !! c_slot r c = Some sl ->
  step u r (GetValue c) (Assign None) =
    Some (set_cell (set_slot r (c_slot r c) (RingSlot (base sl) (moved_from (value sl)) (g_pos sl)))
            (c_ticket c) (Taken (value sl)),
          Waking (get_done c (Some (value sl)))
            (slot_enter (call_wake (next_token (mask_ r) (c_token c))))).
Proof. intros H. unfold ring_step, step_wait, get_value. by rewrite H. Qed.

(** A thread alone in the ring that has come to the wake of its slot returns. *)
Lemma solo_return k s u cs0 r2 a t :
  reached tr moved_from k s -> Z.of_nat (length (pcs s)) <= FutexSlot.INT32_MAX ->
  all_idle s = true -> (u < length (pcs s))%nat ->
  run_in exec within s (pair u <$> cs0) = Some (Pool r2 (<[u := Waking a (slot_enter (call_wake t))]> (pcs s))) ->
  g_limit r2 = None -> returns a ->
  exists cs r', (length cs <= 4)%nat /\
    run_in exec within s (pair u <$> cs0 ++ cs) = Some (Pool r' (<[u := after a]> (pcs s))) /\
    channel (Pool r' (pcs s)) = channel (Pool r2 (pcs s)).
Proof.
  intros Hs Hn Hi Hu Hrun Hl Ha. destruct s as [r ps]. cbn [shared pcs] in *.
  destruct (solo_wake 4 k (Pool r2 (<[u := Waking a (slot_enter (call_wake t))]> ps)) u a (slot_enter (call_wake t)))
    as (cs & r' & Hlen & Hrun2 & Hch); try done.
  - by eapply run_in_reachable_from.
  - simpl. by rewrite length_insert.
  - by apply list_lookup_insert_eq.
  - intros x q Hx Hq. simpl in Hq. rewrite list_lookup_insert_ne in Hq by done. by eapply idle_all.
  - apply left_enter.
  - exists cs, r'. simpl in Hrun2. rewrite list_insert_insert_eq in Hrun2.
    split; [done|]. split; [|done]. rewrite fmap_app. by eapply run_in_app.
Qed.

(** A push by a thread alone, up to the wake of its slot. *)
Lemma solo_put k s u bo pk v :
  reached tr moved_from k s -> all_idle s = true -> (u < length (pcs s))%nat -> g_limit (shared s) = None ->
  g_head (shared s) <= g_tail (shared s) < g_head (shared s) + 2 ^ k ->
  exists r2 p t,
    run_in exec within s (pair u <$> [Call (op_wait_push bo pk v); Go; Go; Assign None])
      = Some (Pool r2 (<[u := Waking (put_done p true) (slot_enter (call_wake t))]> (pcs s))) /\
    channel (Pool r2 (pcs s)) = Chan (g_head (shared s)) (g_tail (shared s) + 1)
                    (<[g_tail (shared s) := Full v]> (g_cells (shared s))) None.
Proof.
  intros Hs Hi Hu Hl Hroom. destruct (reached_sim tr moved_from k s Hs) as [Hk [a Ha]].
  pose proof (reachable_in_end _ _ _ _ Hs) as Hw. destruct s as [r ps]. cbn [shared pcs] in *.
  pose proof (idle_slot_pos k _ a (g_tail r) Hk Ha Hi Hl Hroom ltac:(simpl; lia)) as Hpos.
  destruct (serving_slot k r a (g_tail r) Hk (sim_ring _ _ _ Ha) Hpos) as (sl & Hsl & Hgp & _ & Hm & _).
  pose proof (w_tail _ (sim_words _ _ _ Ha)) as Ht. simpl in Ht. rewrite <- Ht in Hsl, Hm.
  pose proof (within_closes _ Hw) as Hc. pose proof (idle_all ps Hi) as Hia. destruct (idle_at ps u Hi Hu) as [o Ho].
  set (p := Producer (start_mode bo) pk v (tail_ r) (g_tail r)).
  set (r1 := set_tail r (u32 (tail_ r + 1))).
  set (i := slot_index (mask_ r) (tail_ r)) in *.
  set (sl2 := RingSlot (base sl) v (g_pos sl) : ring_slot V).
  set (r2 := set_cell (set_slot r1 i sl2) (g_tail r) (Full v)).
  exists r2, p, (put_token tr pk (p_token p)). split; [|unfold channel; simpl; by rewrite Hl].
  eapply run_in_cons; [done|by eapply pool_exec_at|].
  eapply run_in_cons; [apply within_solo; eauto|by apply pool_exec_again|].
  eapply run_in_cons; [apply within_solo; eauto; eapply (ticket_window_at _ _ _ _ sl); try done; simpl; lia|
    by apply pool_exec_again, (step_tail_load u r1 p sl)|].
  eapply run_in_cons; [apply within_solo; eauto; eapply (ticket_window_at _ _ _ _ sl); try done; simpl; lia|
    by apply pool_exec_again, (step_put_value u r1 p sl)|].
  apply run_in_nil, within_solo; eauto. eapply (ticket_window_at _ _ _ _ sl2); try done; [|simpl; lia].
  simpl. fold i. eauto with pools.
Qed.

(** In a quiescent queue a filled ticket is published. *)
Lemma idle_published k (s : state) a g v :
  4 <= k < 32 -> sim k s a -> all_idle s = true -> g_limit (shared s) = None ->
  a_pos (slot_of (2 ^ k) a g) = g -> g_cells (shared s) !! g = Some (Full v) ->
  a_st (slot_of (2 ^ k) a g) = h_valid /\ a_val (slot_of (2 ^ k) a g) = v.
Proof.
  intros Hk Ha Hi Hl Hpos Hc. pose proof (sim_ring _ _ _ Ha) as [_ _ _ Eh Et Ec El].
  rewrite <- Ec in Hc. rewrite <- El in Hl. pose proof (sim_inv _ _ _ Ha) as Hinv. unfold size in Hinv.
  destruct (ic_cells _ _ (ai_counts _ _ Hinv) g _ Hc) as [Hg Hb].
  pose proof (is_now _ _ (ai_slots _ _ Hinv) g (proj1 Hg) Hpos) as Hn. rewrite Hc in Hn.
  destruct (a_st (slot_of (2 ^ k) a g)) eqn:Hst; simpl in Hn.
  - exfalso. destruct (iv_prod _ _ (ai_served _ _ Hinv) g) as (t & v' & st & R); [lia|done|by right|].
    by rewrite (all_idle_roles k s a t Ha Hi) in R.
  - split; [done|]. destruct Hn as [[= ->]|[]]; done.
  - by destruct Hn.
Qed.

(** A pop by a thread alone, up to the wake of its slot. *)
Lemma solo_get k s u bo v :
  reached tr moved_from k s -> all_idle s = true -> (u < length (pcs s))%nat -> g_limit (shared s) = None ->
  g_cells (shared s) !! g_head (shared s) = Some (Full v) ->
  exists r2 c t,
    run_in exec within s (pair u <$> [Call (op_wait_pop bo); Go; Go; Assign None])
      = Some (Pool r2 (<[u := Waking (get_done c (Some v)) (slot_enter (call_wake t))]> (pcs s))) /\
    channel (Pool r2 (pcs s)) = Chan (g_head (shared s) + 1) (g_tail (shared s))
                    (<[g_head (shared s) := Taken v]> (g_cells (shared s))) None.
Proof.
  intros Hs Hi Hu Hl Hfull. destruct (reached_sim tr moved_from k s Hs) as [Hk [a Ha]].
  pose proof (reachable_in_end _ _ _ _ Hs) as Hw. destruct s as [r ps]. cbn [shared pcs] in *.
  assert (g_head r < g_tail r) as Hlt.
  { pose proof (sim_ring _ _ _ Ha) as [_ _ _ Eh Et Ec _]. simpl in Eh, Et, Ec. rewrite <- Ec in Hfull.
    destruct (ic_cells _ _ (ai_counts _ _ (sim_inv _ _ _ Ha)) _ _ Hfull). lia. }
  pose proof (size_pos k Hk) as Hsz. unfold size in Hsz.
  pose proof (idle_slot_pos k _ a (g_head r) Hk Ha Hi Hl ltac:(simpl; lia) ltac:(simpl; lia)) as Hpos.
  destruct (idle_published k _ a (g_head r) v Hk Ha Hi Hl Hpos Hfull) as [Hst <-].
  destruct (serving_slot k r a (g_head r) Hk (sim_ring _ _ _ Ha) Hpos)
    as (sl & Hsl & Hgp & <- & Hm & Hrel). rewrite Hst in Hrel.
  pose proof (w_head _ (sim_words _ _ _ Ha)) as Ht. simpl in Ht. rewrite <- Ht in Hsl, Hm.
  pose proof (within_closes _ Hw) as Hc. pose proof (idle_all ps Hi) as Hia. destruct (idle_at ps u Hi Hu) as [o Ho].
  set (c := Consumer (start_mode bo) (head_ r) (g_head r)).
  set (r1 := set_head r (u32 (head_ r + 1))).
  set (i := slot_index (mask_ r) (head_ r)) in *.
  set (sl2 := RingSlot (base sl) (moved_from (value sl)) (g_pos sl) : ring_slot V).
  set (r2 := set_cell (set_slot r1 i sl2) (g_head r) (Taken (value sl))).
  exists r2, c, (next_token (mask_ r) (c_token c)). split; [|unfold channel; simpl; by rewrite Hl].
  eapply run_in_cons; [done|by eapply pool_exec_at|].
  eapply run_in_cons; [apply within_solo; eauto|by apply pool_exec_again|].
  eapply run_in_cons; [apply within_solo; eauto; eapply (ticket_window_at _ _ _ _ sl); try done; simpl; lia|
    by apply pool_exec_again, (step_head_load u r1 c sl)|].
  eapply run_in_cons; [apply within_solo; eauto; eapply (ticket_window_at _ _ _ _ sl); try done; simpl; lia|
    by apply pool_exec_again, (step_get_value u r1 c sl)|].
  apply run_in_nil, within_solo; eauto. eapply (ticket_window_at _ _ _ _ sl2); try done; [|simpl; lia].
  simpl. fold i. eauto with pools.
Qed.

(** A push terminates: in a quiescent open queue with room, eight steps of the
    calling thread at most complete wait_push, which returns success and appends
    its value to the channel. *)
Lemma solo_push k s u bo pk v :
  reached tr moved_from k s -> Z.of_nat (length (pcs s)) <= FutexSlot.INT32_MAX ->
  all_idle s = true -> (u < length (pcs s))%nat -> g_limit (shared s) = None ->
  g_head (shared s) <= g_tail (shared s) < g_head (shared s) + 2 ^ k ->
  exists cs r', (length cs <= 7)%nat /\
    run_in exec within s (pair u <$> Call (op_wait_push bo pk v) :: cs)
      = Some (Pool r' (<[u := Idle (Some (Returned success))]> (pcs s))) /\
    channel (Pool r' (pcs s)) = Chan (g_head (shared s)) (g_tail (shared s) + 1)
                    (<[g_tail (shared s) := Full v]> (g_cells (shared s))) None.
Proof.
  intros Hs Hn Hi Hu Hl Hroom. destruct (solo_put k s u bo pk v) as (r2 & p & t & Hrun & Hch); try done.
  destruct (solo_return k s u _ r2 _ t Hs Hn Hi Hu Hrun) as (cs & r' & Hlen & Hrun2 & Hch2);
    [by injection Hch|done|].
  exists ([Go; Go; Assign None] ++ cs), r'. split; [simpl; lia|]. split; [done|]. by rewrite Hch2.
Qed.

(** A pop terminates: so does wait_pop, in a quiescent open queue whose first
    ticket has its value. *)
Lemma solo_pop k s u bo v :
  reached tr moved_from k s -> Z.of_nat (length (pcs s)) <= FutexSlot.INT32_MAX ->
  all_idle s = true -> (u < length (pcs s))%nat -> g_limit (shared s) = None ->
  g_cells (shared s) !! g_head (shared s) = Some (Full v) ->
  exists cs r', (length cs <= 7)%nat /\
    run_in exec within s (pair u <$> Call (op_wait_pop bo) :: cs)
      = Some (Pool r' (<[u := Idle (Some (Popped v))]> (pcs s))) /\
    channel (Pool r' (pcs s)) = Chan (g_head (shared s) + 1) (g_tail (shared s))
                    (<[g_head (shared s) := Taken v]> (g_cells (shared s))) None.
Proof.
  intros Hs Hn Hi Hu Hl Hfull. destruct (solo_get k s u bo v) as (r2 & c & t & Hrun & Hch); try done.
  destruct (solo_return k s u _ r2 _ t Hs Hn Hi Hu Hrun) as (cs & r' & Hlen & Hrun2 & Hch2);
    [by injection Hch|done|].
  exists ([Go; Go; Assign None] ++ cs), r'. split; [simpl; lia|]. split; [done|]. by rewrite Hch2.
Qed.

Lemma all_idle_insert r r' (ps : list (pc V)) u o :
  all_idle (Pool r ps) = true -> all_idle (Pool r' (<[u := Idle o]> ps)) = true.
Proof.
  unfold all_idle. simpl. rewrite !forallb_forall. intros H p Hp.
  apply list_elem_of_In, list_elem_of_lookup in Hp as [i Hi].
  apply insert_lookup_cases in Hi as [(_ & -> & _)|[_ Hi]]; [done|].
  apply H, list_elem_of_In. by eapply list_elem_of_lookup_2.
Qed.

(** C32. Round trip, and termination without interference: in an open queue that
    is empty and in which nobody is inside an operation, whatever its slot class,
    thread [u] can call wait_push (either overload, with or without a back-off)
    and complete it in at most seven further steps of its own, and then any thread
    [u'] can call wait_pop and complete it in at most seven steps of its own; the
    push returns success, the pop returns the value pushed, and the queue is again
    empty with nobody inside. *)
Theorem push_pop_roundtrip k s u u' bo bo' pk v :
  reached tr moved_from k s -> Z.of_nat (length (pcs s)) <= FutexSlot.INT32_MAX -> all_idle s = true ->
  (u < length (pcs s))%nat -> (u' < length (pcs s))%nat ->
  g_limit (shared s) = None -> g_head (shared s) = g_tail (shared s) ->
  exists cs cs' s1 s2, (length cs <= 7)%nat /\ (length cs' <= 7)%nat /\
    run_in exec within s (pair u <$> Call (op_wait_push bo pk v) :: cs) = Some s1 /\
    run_in exec within s1 (pair u' <$> Call (op_wait_pop bo') :: cs') = Some s2 /\
    pcs s1 !! u = Some (Idle (Some (Returned success))) /\
    pcs s2 !! u' = Some (Idle (Some (Popped v))) /\
    g_head (shared s2) = g_tail (shared s2) /\ all_idle s2 = true.
Proof.
  intros Hs Hn Hi Hu Hu' Hl Heq. destruct (reached_sim tr moved_from k s Hs) as [Hk _].
  pose proof (size_pos k Hk) as Hsz. unfold size in Hsz.
  destruct (solo_push k s u bo pk v) as (cs & r1 & Hlen & Hr & Hc); try done; [lia|].
  set (s1 := Pool r1 (<[u := Idle (Some (Returned success))]> (pcs s))) in *.
  assert (all_idle s1 = true) as Hi1 by (destruct s; by apply (all_idle_insert shared)).
  injection Hc as E1 E2 E3 E4.
  destruct (solo_pop k s1 u' bo' v) as (cs' & r2 & Hlen' & Hr2 & Hc2); try done.
  - by eapply run_in_reachable_from.
  - simpl. by rewrite length_insert.
  - simpl. by rewrite length_insert.
  - simpl. rewrite E1, E3, Heq. apply lookup_insert_eq.
  - do 4 eexists. split; [exact Hlen|]. split; [exact Hlen'|]. split; [exact Hr|]. split; [exact Hr2|].
    injection Hc2 as F1 F2 F3 F4. simpl in *. split; [by apply list_lookup_insert_eq|].
    split; [apply list_lookup_insert_eq; by rewrite length_insert|]. split; [lia|].
    by apply (all_idle_insert r1).
Qed.
End solo.
