(* ===== verification/BqExamples.v ===== *)
(** * Concrete runs of the bounded queue

    Runs of a ring of size 16 with spin slots, evaluated by the kernel.  They
    show that the hypotheses of the theorems about the ring can be met. *)

From stdpp Require Import gmap functions.
From S2P Require Import Prelude Conqueue BqSlot BqRing BqTokens BqTickets BqChannel.
From S2P Require Import BqRefine BqTheorems BqCalls BqWake BqTrace BqProgress.
Local Open Scope Z_scope.

Definition tr0 : traits := Traits true true.

Local Abbreviation exec := (ring_exec tr0 (fun v : Z => v) atomic_counter).
Local Abbreviation state := (pool (ring Z) (pc Z)).

Definition ring0 : ring Z :=
  match make_ring 0 0 16 with inr r => r | inl _ => Ring 0 [] cl_open 0 0 0 0 0 ∅ None 0 end.

(** [n] idle threads around a new ring. *)
Definition start0 (n : nat) : state := Pool ring0 (replicate n (Idle None)).

Lemma ring_start0 n : ring_start 4 (start0 n).
Proof. split; [lia|]. exists 0, 0, ring0, n. split; reflexivity. Qed.

Definition result (n : nat) (ls : list (nat * choice Z)) : list event * state :=
  default ([], start0 n) (trace tr0 (fun v => v) (start0 n) ls).

Lemma result_traced n ls :
  trace tr0 (fun v => v) (start0 n) ls = Some (result n ls) ->
  traced tr0 (fun v => v) 4 (result n ls).1 (result n ls).2.
Proof.
  intros H. apply (trace_traced _ _ 4 (start0 n) ls); [apply ring_start0|].
  rewrite H. by destruct (result n ls).
Qed.

(** Reaching a state by a schedule. *)
Definition after_run (n : nat) (ls : list (nat * choice Z)) : state :=
  default (start0 n) (run_in exec within (start0 n) ls).

Lemma after_run_reached n ls :
  run_in exec within (start0 n) ls = Some (after_run n ls) ->
  reached tr0 (fun v => v) 4 (after_run n ls).
Proof.
  intros H. eapply run_in_reachable; [|apply (ring_start0 n)|exact H]. done.
Qed.

(** The steps of one wait_push and of one wait_pop by thread [u], on spin slots. *)
Definition push_by (u : nat) (k : push_kind) (v : Z) : list (nat * choice Z) :=
  [(u, Call (op_wait_push false k v)); (u, Go); (u, Go); (u, Assign None); (u, InSlot tt)].
Definition pop_by (u : nat) : list (nat * choice Z) :=
  [(u, Call (op_wait_pop false)); (u, Go); (u, Go); (u, Assign None); (u, InSlot tt)].
Definition push0 (u : nat) (v : Z) : list (nat * choice Z) := push_by u by_move v.

(** Two pushes and two pops by different threads. *)
Definition run1 : list (nat * choice Z) := push0 0 7 ++ push0 1 8 ++ pop_by 2 ++ pop_by 0.

(** Threads 0 and 1 are inside put_value. *)
Definition run2 : list (nat * choice Z) :=
  [(0%nat, Call (op_wait_push false by_move 7)); (1%nat, Call (op_wait_push true by_copy 8));
   (0%nat, Go); (1%nat, Go); (1%nat, Go); (0%nat, Go)].

(** Sixteen pushes fill the ring; thread 0 blocks in a seventeenth. *)
Definition fill : list (nat * choice Z) := concat ((fun i => push0 0 i) <$> seqZ 0 16).
Definition run3 : list (nat * choice Z) :=
  fill ++ [(0%nat, Call (op_wait_push false by_move 16)); (0%nat, Go)].

(** One push, then closing, with a pop before and one after the limit. *)
Definition close_by (u : nat) (n : nat) : list (nat * choice Z) :=
  (u, Call op_close) :: replicate 4 (u, Go) ++
  concat (replicate n [(u, Go); (u, InSlot tt)]) ++ [(u, Go)].
Definition run4 : list (nat * choice Z) :=
  push0 0 7 ++ close_by 0 16 ++ pop_by 1 ++
  [(1%nat, Call (op_wait_pop false)); (1%nat, Go); (1%nat, Go); (1%nat, Go)].

Lemma run1_traced : traced tr0 (fun v => v) 4 (result 3 run1).1 (result 3 run1).2.
Proof. apply result_traced. vm_compute. reflexivity. Qed.

Ltac reached_by := apply after_run_reached; vm_compute; reflexivity.

Lemma run1_reached : reached tr0 (fun v => v) 4 (after_run 3 run1).
Proof. reached_by. Qed.
Lemma run2_reached : reached tr0 (fun v => v) 4 (after_run 2 run2).
Proof. reached_by. Qed.
Lemma run3_reached : reached tr0 (fun v => v) 4 (after_run 2 run3).
Proof. reached_by. Qed.
Lemma run4_reached : reached tr0 (fun v => v) 4 (after_run 2 run4).
Proof. reached_by. Qed.

(** ** Witnesses *)

Lemma ring_refines_channel_witness :
  rtc (chan_step (2 ^ 4)) chan_start (channel (after_run 3 run1)).
Proof. exact (ring_refines_channel tr0 (fun v => v) 4 (after_run 3 run1) run1_reached). Defined.

Lemma fifo_witness :
  gets (result 3 run1).1 = [0; 1] /\ NoDup (gets (result 3 run1).1).
Proof.
  split; [vm_compute; reflexivity|].
  apply (fifo tr0 (fun v => v) 4 (result 3 run1).1 (result 3 run1).2 run1_traced).
Defined.

Lemma outcomes_report_events_witness :
  exists g, last_by 2 (result 3 run1).1 = Some (ev_get 2 g 7).
Proof.
  apply (outcomes_report_events tr0 (fun v => v) 4 (result 3 run1).1 (result 3 run1).2 2 run1_traced).
  vm_compute. reflexivity.
Defined.

Lemma value_access_exclusive_witness :
  let s := after_run 2 run2 in
  pcs s !! 0%nat ≫= touches (shared s) = Some 0%nat /\ pcs s !! 1%nat ≫= touches (shared s) = Some 1%nat /\ 0%nat <> 1%nat.
Proof.
  split; [vm_compute; reflexivity|]. split; [vm_compute; reflexivity|].
  refine (value_access_exclusive tr0 (fun v => v) 4 (after_run 2 run2) 0 1 _ _ 0 1 run2_reached _ _ _ _ _);
    [done|vm_compute; reflexivity|vm_compute; reflexivity|vm_compute; reflexivity|vm_compute; reflexivity].
Defined.

Lemma blocked_only_when_due_witness :
  exists p, pcs (after_run 2 run3) !! 0%nat = Some p /\ push_ticket p = Some 16 /\ 0 + 16 <= 16.
Proof.
  eexists. split; [vm_compute; reflexivity|]. split; [vm_compute; reflexivity|].
  refine (proj2 (blocked_only_when_due tr0 (fun v => v) 4 (after_run 2 run3) 0 _ run3_reached _ _) 16 _ _);
    [vm_compute; reflexivity|vm_compute; reflexivity|vm_compute; reflexivity|].
  intros l. vm_compute. discriminate.
Defined.

Lemma capacity_bound_witness :
  length (occupied (shared (after_run 2 run3))) = 16%nat /\
  Z.of_nat (length (occupied (shared (after_run 2 run3)))) <= 2 ^ 4.
Proof.
  split; [vm_compute; reflexivity|].
  exact (capacity_bound tr0 (fun v => v) 4 (after_run 2 run3) run3_reached).
Defined.

(** A slot in its second round: its first ticket is settled. *)
Lemma slot_serves_ticket_witness :
  exists sl, ring_ (shared (after_run 3 run1)) !! 0%nat = Some sl /\ g_pos sl = 16 /\
    settled (g_cells (shared (after_run 3 run1)) !! 0).
Proof.
  eexists. split; [vm_compute; reflexivity|]. split; [reflexivity|].
  refine (proj1 (proj2 (proj2 (proj2 (proj2
    (slot_serves_ticket tr0 (fun v => v) 4 (after_run 3 run1) 0 _ run1_reached _))))) 0 _ _);
    vm_compute; [reflexivity|split; congruence|reflexivity].
Defined.

Lemma idle_conservation_witness :
  settled (g_cells (shared (after_run 3 run1)) !! 1).
Proof.
  refine (proj1 (idle_conservation tr0 (fun v => v) 4 (after_run 3 run1) run1_reached _) 1 _ _);
    vm_compute; try reflexivity; split; congruence.
Defined.

Lemma close_cuts_witness :
  g_cells (shared (after_run 2 run4)) !! 0 = Some (Taken 7) /\ 0 <= 0 < 1.
Proof.
  assert (g_cells (shared (after_run 2 run4)) !! 0 = Some (Taken 7)) as H by (vm_compute; reflexivity).
  split; [exact H|].
  refine (proj1 (close_cuts tr0 (fun v => v) 4 (after_run 2 run4) 1 run4_reached _) 0 _ H).
  vm_compute. reflexivity.
Defined.

Lemma is_empty_spec_witness :
  is_empty (shared (after_run 3 run1)) = true <-> occupied (shared (after_run 3 run1)) = [].
Proof.
  refine (is_empty_spec tr0 (fun v => v) 4 (after_run 3 run1) run1_reached _ _ _);
    vm_compute; try reflexivity; split; congruence.
Defined.

(** A waiting pop makes is_full true on an empty queue. *)
Lemma is_full_spec_witness :
  is_full (shared (after_run 1 [(0%nat, Call (op_wait_pop false)); (0%nat, Go)])) = true.
Proof.
  set (ls := [(0%nat, Call (op_wait_pop false)); (0%nat, Go)]).
  assert (reached tr0 (fun v => v) 4 (after_run 1 ls)) as H by reached_by.
  apply (is_full_spec tr0 (fun v => v) 4 (after_run 1 ls) H); vm_compute;
    [split; congruence|by right].
Defined.

(** A new ring of futex slots and two threads. *)
Lemma push_pop_roundtrip_witness :
  exists cs s1, run_in (ring_exec tr0 (fun v => v) atomic_counter) within
      (Pool futex_ring [Idle None; Idle None]) (pair 0%nat <$> Call (op_wait_push true by_copy 5) :: cs) = Some s1 /\
    pcs s1 !! 0%nat = Some (Idle (Some (Returned success))).
Proof.
  destruct (push_pop_roundtrip tr0 (fun v => v) 4 (Pool futex_ring [Idle None; Idle None]) 0 1 true false by_copy 5)
    as (cs & _ & s1 & _ & _ & _ & H1 & _ & H2 & _);
    [|vm_compute; congruence|vm_compute; reflexivity|simpl; lia|simpl; lia|reflexivity|reflexivity|by exists cs, s1].
  apply reach_init; [|vm_compute; reflexivity]. split; [lia|]. exists 0, 0, futex_ring, 2%nat. split; reflexivity.
Defined.
