(* ===== verification/BqDefects.v ===== *)
(** * Where the bounded queue departs from its intent

    Theorems about behaviour of the source that a caller would not expect: the
    guard of close never fires and closing twice strands waiting pops; try_push
    advances the wrong counter and reports the wrong status. *)

From stdpp Require Import gmap functions.
From S2P Require Import Prelude Conqueue BqSlot BqRing BqTokens BqTickets BqChannel.
From S2P Require Import BqRefine BqTheorems BqProgress BqExamples.
Local Open Scope Z_scope.

(** ** The guard of close *)

Section guard.
Context {V : Type} {S : Slot} (tr : traits) (moved_from : V -> V) (kh : counter_kind).

Definition open_start (s : pool (ring V) (pc V)) : Prop := closed_ (shared s) = cl_open.

Lemma closed_step u (r : ring V) p c r' p' :
  closed_ r <> cl_closing -> ring_step tr moved_from kh u r p c = Some (r', p') ->
  closed_ r' <> cl_closing.
Proof.
  intros H Hs. destruct p; try done; destruct c; try done; simpl in Hs;
    unfold in_slot, put_value, get_value, skip in Hs; break; try done.
Qed.

Lemma never_closing s :
  reachable (ring_exec tr moved_from kh) open_start s -> closed_ (shared s) <> cl_closing.
Proof.
  apply (invariant_in_reachable _ _ (fun _ => True) (fun s => closed_ (shared s) <> cl_closing)). split.
  - intros s0 Hs _. unfold open_start in Hs. by rewrite Hs.
  - intros s0 [u c] s1 _ IH He _. pool_step He. by eapply closed_step.
Qed.

(** The compare-and-exchange with which close means to detect that the
    queue is already being closed never succeeds: whatever happened before,
    close goes on to move the tail. *)
Theorem close_guard_never_fires s u s' :
  reachable (ring_exec tr moved_from kh) open_start s ->
  pcs s !! u = Some CloseGuard -> ring_exec tr moved_from kh s (u, Go) = Some s' ->
  s' = Pool (shared s) (<[u := CloseFetch]> (pcs s)).
Proof.
  intros Hs Hp He. apply never_closing in Hs. pool_step He.
  rewrite Hp in Hp0. injection Hp0 as <-. simpl in Ht. case_decide; [done|]. by injection Ht as <- <-.
Qed.
End guard.

Local Abbreviation exec := (ring_exec tr0 (fun v : Z => v) atomic_counter).

Lemma close_guard_never_fires_witness :
  exec (Pool ring0 [CloseGuard]) (0%nat, Go) = Some (Pool ring0 [CloseFetch]).
Proof.
  set (s := Pool ring0 [CloseGuard]).
  assert (exists s', exec s (0%nat, Go) = Some s') as [s' He] by (eexists; reflexivity).
  rewrite He. f_equal.
  refine (close_guard_never_fires tr0 (fun v => v) atomic_counter s 0 s' _ _ He); [|reflexivity].
  apply reach_init; [reflexivity|exact I].
Defined.

(** ** Closing twice *)

(** The states of a pop that waits in the ring left by two closes. *)
Definition stranded (r : ring Z) (s : pool (ring Z) (pc Z)) : Prop :=
  shared s = r /\ exists p q, pcs s = [p; q] /\
    let c := Consumer no_bo 0 0 in
    p = HeadLoad c \/ p = HeadClosed status_loop c 0 \/ p = HeadLast status_loop c 0 \/
    p = HeadWait status_loop c Spin.WaitLoad.

Lemma stranded_step r s c s' :
  closed_ r = cl_closed -> last_ r = 16 -> ring_ r !! slot_index (mask_ r) 0 = Some (RingSlot 0 0 0) ->
  mask_ r = 15 ->
  stranded r s -> exec s (0%nat, c) = Some s' -> stranded r s'.
Proof.
  intros Hc Hl Hr Hm (<- & p & q & Hps & Hp) He. pool_step He. rewrite Hps in *. injection Hp0 as <-.
  assert (sh' = shared s /\ (p' = HeadLoad (Consumer no_bo 0 0) \/
    p' = HeadClosed status_loop (Consumer no_bo 0 0) 0 \/
    p' = HeadLast status_loop (Consumer no_bo 0 0) 0 \/
    p' = HeadWait status_loop (Consumer no_bo 0 0) Spin.WaitLoad)) as [-> Hp'].
  { destruct Hp as [-> |[-> |[-> | ->]]]; destruct c; try done; simpl in Ht;
      unfold in_slot, c_slot in Ht; simpl in Ht.
    - rewrite Hr in Ht. injection Ht as <- <-. split; [done|]. right. left. reflexivity.
    - rewrite decide_True in Ht by done. injection Ht as <- <-. auto.
    - unfold past_last in Ht. rewrite Hl in Ht. injection Ht as <- <-. auto.
    - rewrite Hr in Ht. simpl in Ht. injection Ht as <- <-. split; [|by right; left].
      unfold set_base, set_slot, set_ring, new_pos. simpl. rewrite list_insert_id by done.
      by destruct (shared s). }
  split; [done|]. exists p', q. split; [by simpl|done].
Qed.

(** Close, close again, then a pop by thread 0. *)
Definition double_close (n : nat) : option (pool (ring Z) (pc Z)) :=
  run exec (start0 2)
    (concat (replicate n (close_by 1 16)) ++ [(0%nat, Call (op_wait_pop false)); (0%nat, Go)]).

(** C36. Closing an empty queue once makes wait_pop return closed; closing it
      twice makes a wait_pop that runs alone wait forever. *)
Theorem double_close_strands_pop :
  (exists s s', double_close 1 = Some s /\
     run exec s [(0%nat, Go); (0%nat, Go); (0%nat, Go)] = Some s' /\
     pcs s' !! 0%nat = Some (Idle (Some (Returned closed)))) /\
  (exists s, double_close 2 = Some s /\ closed_ (shared s) = cl_closed /\
     forall cs s', run exec s ((fun c => (0%nat, c)) <$> cs) = Some s' ->
       forall o, pcs s' !! 0%nat <> Some (Idle o)).
Proof.
  split; [do 2 eexists; split; [vm_compute; reflexivity|split; vm_compute; reflexivity]|].
  destruct (double_close 2) as [s|] eqn:E; [|exfalso; vm_compute in E; congruence].
  exists s. split; [done|].
  assert (closed_ (shared s) = cl_closed /\ last_ (shared s) = 16 /\
    ring_ (shared s) !! slot_index (mask_ (shared s)) 0 = Some (RingSlot 0 0 0) /\
    mask_ (shared s) = 15 /\ stranded (shared s) s) as (H1 & H2 & H3 & H4 & H5).
  { vm_compute in E. injection E as <-. do 4 (split; [reflexivity|]).
    split; [reflexivity|]. do 2 eexists. split; [reflexivity|]. left. reflexivity. }
  split; [done|]. intros cs s' Hr o.
  assert (stranded (shared s) s') as (_ & p & q & Hps & Hp).
  { clear E. revert H5 Hr. generalize s at 2 3 as s1. induction cs as [|c cs IH]; intros s1 Hs1 Hr; simpl in Hr.
    - by injection Hr as <-.
    - destruct (exec s1 (0%nat, c)) as [s2|] eqn:He; [|done]. simpl in Hr.
      apply (IH s2); [|done]. by eapply stranded_step. }
  rewrite Hps. simpl. intros [= ->]. by destruct Hp as [?|[?|[?|?]]].
Qed.

(** ** try_push *)

Definition try_push_by (u : nat) (v : Z) : list (nat * choice Z) :=
  [(u, Call (op_try_push by_move v)); (u, Go); (u, Go); (u, Go); (u, Assign None); (u, InSlot tt)].

(** try_push claims its position with the head counter instead of the tail
    counter: on a new queue it returns success, the next try_pop finds nothing,
    and the next wait_push overwrites the value. *)
Lemma try_push_loses_value v w :
  exists s s1 s2,
    run exec (start0 1) (try_push_by 0 v) = Some s /\
    pcs s = [Idle (Some (Returned success))] /\ head_ (shared s) = 1 /\ tail_ (shared s) = 0 /\
    run exec s [(0%nat, Call op_try_pop); (0%nat, Go); (0%nat, Go); (0%nat, Go)] = Some s1 /\
    pcs s1 = [Idle (Some (Returned empty))] /\
    run exec s (push0 0 w) = Some s2 /\
    pcs s2 = [Idle (Some (Returned success))] /\
    (value <$> ring_ (shared s) !! 0%nat) = Some v /\
    (value <$> ring_ (shared s2) !! 0%nat) = Some w.
Proof.
  do 3 eexists. split; [vm_compute; reflexivity|]. do 3 (split; [reflexivity|]).
  split; [vm_compute; reflexivity|]. split; [reflexivity|]. split; [vm_compute; reflexivity|].
  repeat split.
Qed.

(** try_push reports empty, not full, when the queue has no room. *)
Theorem try_push_full_reports_empty :
  exists s, run exec (start0 1)
    (fill ++ [(0%nat, Call (op_try_push by_move 16)); (0%nat, Go); (0%nat, Go); (0%nat, Go)]) = Some s /\
    pcs s = [Idle (Some (Returned empty))] /\ is_full (shared s) = true.
Proof. eexists. split; [vm_compute; reflexivity|]. split; reflexivity. Qed.
