(* ===== verification/BqClasses.v ===== *)
(** * The ring classes (evenk/bounded_queue.h: spsc, spmc, mpsc, mpmc)

    The ring with the counters that are not atomic.  The fetch_add of a plain
    [counter] is a load for the result, another load for the sum and a store,
    each a step of its own, and its try_increment stores without a test.  The
    theorems on the ring are about atomic counters; a ring with plain ones
    behaves the same as long as one thread does all the pushes, or pops, of
    the counter that is plain. *)

From stdpp Require Import gmap.
From S2P Require Import Prelude Conqueue BqSlot BqRing BqTokens BqTickets BqChannel BqRefine BqTheorems BqCalls BqTrace BqProgress BqExamples.
Local Open Scope Z_scope.

(** The kinds of the producer and the consumer counter. *)
Record ring_class : Type := RingClass { producer_counter : counter_kind; consumer_counter : counter_kind }.

Definition spsc : ring_class := RingClass counter counter.
Definition spmc : ring_class := RingClass counter atomic_counter.
Definition mpsc : ring_class := RingClass atomic_counter counter.
Definition mpmc : ring_class := RingClass atomic_counter atomic_counter.

Section classes.
Context {V : Type} {S : Slot} (tr : traits) (moved_from : V -> V).

Local Abbreviation state := (pool (ring V) (pc V)).

(** A thread of such a ring: at a point of the ring's own, or inside the
    fetch_add of a plain counter that it calls at [p]. *)
Inductive class_pc : Type :=
| At (p : pc V)
| Loaded (p : pc V) (count : Z)
| Summed (p : pc V) (count sum : Z).

Local Abbreviation class_state := (pool (ring V) class_pc).

(** The plain counter that is about to be added to, and the addend. *)
Definition plain_fetch (cl : ring_class) (r : ring V) (p : pc V) : option (Z * Z) :=
  match p with
  | PushFetch _ _ _ =>
      match producer_counter cl with counter => Some (tail_ r, 1) | atomic_counter => None end
  | CloseFetch =>
      match producer_counter cl with counter => Some (tail_ r, u32 (mask_ r + 1)) | atomic_counter => None end
  | PopFetch _ =>
      match consumer_counter cl with counter => Some (head_ r, 1) | atomic_counter => None end
  | _ => None
  end.

(** counter::fetch_add: the store of the sum, and what the caller does with the
    count returned. *)
Definition store_count (r : ring V) (p : pc V) (count sum : Z) : option (ring V * pc V) :=
  match p with
  | PushFetch m k v => Some (set_tail r sum, TailLoad (Producer m k v count (g_tail r)))
  | PopFetch m => Some (set_head r sum, HeadLoad (Consumer m count (g_head r)))
  | CloseFetch =>
      Some (Ring (mask_ r) (ring_ r) (closed_ r) (last_ r) (head_ r) sum
              (g_head r) (g_tail r + mask_ r + 1) (g_cells r) (Some (g_tail r)) (g_closes r + 1)%nat,
            CloseLast count)
  | _ => None
  end.

Definition class_step (cl : ring_class) (u : nat) (r : ring V) (p : class_pc) (c : choice V) :
    option (ring V * class_pc) :=
  match p with
  | At q =>
      match plain_fetch cl r q with
      | Some (count_, _) => match c with Go => Some (r, Loaded q count_) | _ => None end
      | None =>
          x ← ring_step tr moved_from (consumer_counter cl) u r q c;
          Some (x.1, At x.2)
      end
  | Loaded q count =>
      match plain_fetch cl r q, c with
      | Some (count_, addend), Go => Some (r, Summed q count (u32 (count_ + addend)))
      | _, _ => None
      end
  | Summed q count sum =>
      match c with
      | Go => x ← store_count r q count sum; Some (x.1, At x.2)
      | _ => None
      end
  end.

Definition class_exec (cl : ring_class) : class_state -> nat * choice V -> option class_state :=
  pool_exec (class_step cl).

(** The point of the ring a thread is at: inside a fetch_add, before it. *)
Definition erase (p : class_pc) : pc V :=
  match p with At q | Loaded q _ | Summed q _ _ => q end.

Definition ring_view (s : class_state) : state := Pool (shared s) (erase <$> pcs s).
Definition class_view (s : state) : class_state := Pool (shared s) (At <$> pcs s).

(** A thread in an operation that accesses [head_]. *)
Definition popping (p : pc V) : bool :=
  match p with
  | PopFetch _ | HeadLoad _ | HeadClosed _ _ _ | HeadLast _ _ _ | HeadBackoff _ _ _ | HeadWait _ _ _
  | GetValue _ | Skip _ _ | Waking (get_done _ _ | skip_done _ | try_skip_done _) _
  | TryPopHead | TryPopSlot _ | TryPopClosed _ | TryPopLast _ | TryPopIncrement _ _ => true
  | _ => false
  end.

(** A thread in an operation that accesses [tail_]. *)
Definition pushing (p : pc V) : bool :=
  match p with
  | PushFetch _ _ _ | TailLoad _ | TailClosed _ _ | TailLast _ _ | TailBackoff _ | TailWait _ _
  | PutValue _ | Waking (put_done _ _) _
  | CloseGuard | CloseFetch | CloseLast _ | CloseStore | CloseLoop _ | CloseSlot _ _ _ => true
  | _ => false
  end.

(** Nobody but thread [u] is in such an operation. *)
Definition only (f : pc V -> bool) (u : nat) (s : state) : bool :=
  forallb (fun x => implb (f x.2) (bool_decide (x.1 = u))) (imap pair (pcs s)).

Lemma only_spec f u s v p : only f u s = true -> pcs s !! v = Some p -> f p = true -> v = u.
Proof.
  intros H Hp Hf. unfold only in H. rewrite forallb_forall in H.
  specialize (H (v, p)). simpl in H. rewrite Hf in H. simpl in H. apply bool_decide_eq_true in H; [done|].
  apply list_elem_of_In, (list_elem_of_lookup_2 _ v). rewrite list_lookup_imap, Hp. done.
Qed.

(** The use each class is made for: [u] is the producer, [v] the consumer. *)
Definition permitted (cl : ring_class) (u v : nat) (s : state) : bool :=
  within s &&
  match producer_counter cl with counter => only pushing u s | atomic_counter => true end &&
  match consumer_counter cl with counter => only popping v s | atomic_counter => true end.

Definition class_start (k : Z) (s : class_state) : Prop := exists s0, ring_start k s0 /\ s = class_view s0.

Definition class_reached (cl : ring_class) (u v : nat) (k : Z) : class_state -> Prop :=
  reachable_in (class_exec cl) (class_start k) (fun s => permitted cl u v (ring_view s) = true).

Definition used_as (cl : ring_class) (u v : nat) (k : Z) : state -> Prop :=
  reachable_in (ring_exec tr moved_from atomic_counter) (ring_start k) (fun s => permitted cl u v s = true).

(** The count a try_pop holds is the counter. *)
Definition holds_head (r : ring V) (p : pc V) : Prop :=
  match p with
  | TryPopSlot c | TryPopClosed c | TryPopLast c | TryPopIncrement c _ => c_count c = head_ r
  | _ => True
  end.

Lemma in_slot_counts u r i w c again k r' p' :
  in_slot (V := V) u r i w c again k = Some (r', p') ->
  head_ r' = head_ r /\ tail_ r' = tail_ r /\ ((exists w', p' = again w') \/ exists t, p' = k t).
Proof.
  unfold in_slot. intros H. destruct (ring_ r !! i); [|done]. simpl in H.
  destruct (slot_step _ _ _ _) as [[b [w'|t]]|]; [| |done]; simpl in H; injection H as <- <-; eauto.
Qed.

(** [head_] only changes in a pop, [tail_] in a push or in close. *)
Lemma step_counts kh u r p c r' p' :
  ring_step tr moved_from kh u r p c = Some (r', p') -> no_try_push p = true ->
  (head_ r' = head_ r \/ popping p = true) /\ (tail_ r' = tail_ r \/ pushing p = true).
Proof.
  intros H Hn. destruct p; try done; destruct c; try done; simpl in H.
  all: try (apply in_slot_counts in H as (-> & -> & _); auto; fail).
  all: unfold put_value, get_value, skip in *; repeat (case_match || simplify_option_eq); auto.
Qed.

(** A try_pop reads [head_] before it uses it. *)
Lemma step_holds kh u r p c r' p' :
  ring_step tr moved_from kh u r p c = Some (r', p') -> holds_head r p -> holds_head r' p'.
Proof.
  intros H Hh. destruct p; try done; destruct c; try done; simpl in H.
  all: try (apply in_slot_counts in H as (_ & _ & [[? ->]|[? ->]])).
  all: unfold put_value, get_value, tail_test, tail_body, head_test, status_test, head_exit, head_body, skip, refused, start, after in *.
  all: repeat (case_match || simplify_option_eq); try done; by repeat case_match.
Qed.

(** What a thread inside fetch_add, or inside a try_pop, has read of a plain
    counter is still its value. *)
Definition thread_ok (cl : ring_class) (r : ring V) (p : class_pc) : Prop :=
  (consumer_counter cl = counter -> holds_head r (erase p)) /\
  match p with
  | At _ => True
  | Loaded q count => exists a, plain_fetch cl r q = Some (count, a)
  | Summed q count sum => exists a, plain_fetch cl r q = Some (count, a) /\ sum = u32 (count + a)
  end.

Definition threads_ok (cl : ring_class) (s : class_state) : Prop :=
  forall u p, pcs s !! u = Some p -> thread_ok cl (shared s) p.

Lemma thread_ok_frame cl r r' p :
  mask_ r' = mask_ r ->
  (consumer_counter cl = counter -> popping (erase p) = true -> head_ r' = head_ r) ->
  (producer_counter cl = counter -> pushing (erase p) = true -> tail_ r' = tail_ r) ->
  thread_ok cl r p -> thread_ok cl r' p.
Proof.
  intros Hm Hh Ht [H1 H2]. split.
  - intros E. specialize (H1 E). destruct (erase p); try done; simpl in *; by rewrite (Hh E eq_refl).
  - destruct p as [|q count|q count sum]; [done| |]; simpl in *; destruct H2 as [a H2]; exists a;
      destruct q; simpl in *; try by destruct H2.
    all: destruct (producer_counter cl), (consumer_counter cl); try by destruct H2.
    all: rewrite ?Hm, ?Hh, ?Ht by done; done.
Qed.

(** Where a try_pop holds the counter, the plain increment does what the atomic
    one does. *)
Lemma step_counter cl u r p c :
  no_try_push p = true -> (consumer_counter cl = counter -> holds_head r p) ->
  ring_step tr moved_from (consumer_counter cl) u r p c = ring_step tr moved_from atomic_counter u r p c.
Proof.
  intros Hn Hh. destruct (consumer_counter cl); [|done]. specialize (Hh eq_refl).
  destruct p; try done. destruct c; try done. simpl in *. by rewrite decide_True.
Qed.

(** The store ends a fetch_add that nobody disturbed as the atomic one would. *)
Lemma store_count_atomic cl u r p count a :
  plain_fetch cl r p = Some (count, a) ->
  store_count r p count (u32 (count + a)) = ring_step tr moved_from atomic_counter u r p Go.
Proof. destruct p; try done; simpl; case_match; intros [= <- <-]; done. Qed.

(** Inside fetch_add nothing of the ring changes; every other step, the store
    included, is a step of the atomic ring. *)
Lemma class_step_sim cl u r p c r' p' :
  class_step cl u r p c = Some (r', p') -> thread_ok cl r p -> no_try_push (erase p) = true ->
  (r' = r /\ erase p' = erase p /\ thread_ok cl r' p') \/
  (exists q, p' = At q /\ ring_step tr moved_from atomic_counter u r (erase p) c = Some (r', q)).
Proof.
  intros H [H1 H2] Hn. destruct p as [q|q count|q count sum]; simpl in H.
  - destruct (plain_fetch cl r q) as [[count a]|] eqn:E.
    + destruct c; try done. injection H as <- <-. left. do 2 (split; [done|]). split; [done|by exists a].
    + right. rewrite step_counter in H by done. simpl.
      destruct (ring_step _ _ _ _ _ _ _) as [[]|]; [|done]. injection H as <- <-. eauto.
  - destruct H2 as [a Ha]. rewrite Ha in H. destruct c; try done. injection H as <- <-. left.
    do 2 (split; [done|]). split; [done|by exists a].
  - destruct H2 as (a & Ha & ->), c; try done. rewrite (store_count_atomic cl u r q count a Ha) in H. right. simpl.
    destruct (ring_step _ _ _ _ _ _ _) as [[]|]; [|done]. injection H as <- <-. eauto.
Qed.

Lemma permitted_within cl u v s : permitted cl u v s = true -> within s = true.
Proof. unfold permitted. by intros [[? _]%andb_prop _]%andb_prop. Qed.

Lemma permitted_popping cl u v s w p :
  consumer_counter cl = counter -> permitted cl u v s = true -> pcs s !! w = Some p -> popping p = true -> w = v.
Proof. unfold permitted. intros -> [_ H]%andb_prop. by apply only_spec. Qed.

Lemma permitted_pushing cl u v s w p :
  producer_counter cl = counter -> permitted cl u v s = true -> pcs s !! w = Some p -> pushing p = true -> w = u.
Proof. unfold permitted. intros -> [[_ H]%andb_prop _]%andb_prop. by apply only_spec. Qed.

Lemma view_lookup s w p : pcs s !! w = Some p -> pcs (ring_view s) !! w = Some (erase p).
Proof. intros H. simpl. by rewrite list_lookup_fmap, H. Qed.

(** One step of the class is one step of the atomic ring, or none. *)
Lemma class_exec_sim cl u v s l s' :
  permitted cl u v (ring_view s) = true -> threads_ok cl s -> class_exec cl s l = Some s' ->
  (ring_view s' = ring_view s \/ ring_exec tr moved_from atomic_counter (ring_view s) l = Some (ring_view s')) /\
  threads_ok cl s'.
Proof.
  intros Hw H He. destruct s as [r ps], l as [w c]. pool_step He. cbn [shared pcs] in *.
  pose proof (view_lookup (Pool r ps) w p Hp) as Hv.
  destruct (within_at _ w _ (permitted_within _ _ _ _ Hw) Hv) as (_ & _ & Hn).
  pose proof (H w p Hp) as Hok.
  destruct (class_step_sim _ _ _ _ _ _ _ Ht Hok Hn) as [(-> & E & Hok')|(q & -> & Hs)].
  - split; [left|].
    + unfold ring_view. simpl. f_equal. rewrite list_fmap_insert, E. by apply list_insert_id.
    + by intros x y [(-> & -> & _)|[_ Hy]]%insert_lookup_cases; [|eapply H].
  - destruct (step_counts _ _ _ _ _ _ _ Hs Hn) as [Hh Htl]. pose proof (proj1 (ring_calls _ _ _ _ _ _ _ _ Hs)) as Hm.
    split; [right|].
    + unfold ring_view. simpl. rewrite list_fmap_insert. by apply pool_exec_at with (erase p).
    + intros x y [(-> & -> & _)|[Hx Hy]]%insert_lookup_cases.
      * split; [|done]. intros E. by eapply step_holds, Hok.
      * pose proof (view_lookup (Pool r ps) x y Hy) as Hvy. apply (thread_ok_frame cl r); [done| | |by eapply H].
        -- intros E Hpy. destruct Hh as [?|Hh]; [done|]. destruct Hx.
           by rewrite (permitted_popping cl u v _ x _ E Hw Hvy Hpy), (permitted_popping cl u v _ w _ E Hw Hv Hh).
        -- intros E Hpy. destruct Htl as [?|Htl]; [done|]. destruct Hx.
           by rewrite (permitted_pushing cl u v _ x _ E Hw Hvy Hpy), (permitted_pushing cl u v _ w _ E Hw Hv Htl).
Qed.

Lemma view_class_view s : ring_view (class_view s) = s.
Proof.
  destruct s as [r ps]. unfold ring_view, class_view. simpl. f_equal.
  rewrite <- list_fmap_compose. by apply list_fmap_id.
Qed.

Lemma class_reached_sim cl u v k s : class_reached cl u v k s -> used_as cl u v k (ring_view s) /\ threads_ok cl s.
Proof.
  induction 1 as [s (s0 & Hs & ->) Hw|s l s' Hs [IH Hok] He Hw].
  - rewrite view_class_view in *. split; [by apply reach_init|]. intros w p Hp. simpl in Hp.
    destruct Hs as (_ & v0 & last0 & r & n & _ & ->). simpl in Hp. rewrite list_lookup_fmap in Hp.
    destruct (replicate n _ !! w) eqn:E; [|done]. apply lookup_replicate in E as [-> _]. by injection Hp as <-.
  - destruct (class_exec_sim cl u v s l s' (reachable_in_end _ _ _ _ Hs) Hok He) as [[E|E] Hok']; (split; [|done]).
    + by rewrite E.
    + by eapply reach_step.
Qed.

Lemma class_view_insert r (ps : list (pc V)) w q : class_view (Pool r (<[w := q]> ps)) = Pool r (<[w := At q]> (At <$> ps)).
Proof. unfold class_view. simpl. by rewrite list_fmap_insert. Qed.

(** A thread inside fetch_add, seen as the ring. *)
Lemma view_inside r (ps : list (pc V)) w p x :
  ps !! w = Some p -> erase x = p -> ring_view (Pool r (<[w := x]> (At <$> ps))) = Pool r ps.
Proof.
  intros Hp <-. unfold ring_view. simpl. f_equal. rewrite list_fmap_insert, <- list_fmap_compose.
  change (erase ∘ At) with (@id (pc V)). rewrite list_fmap_id. by apply list_insert_id.
Qed.

(** A step of the atomic ring is one step of the class, or the three accesses of
    a fetch_add. *)
Lemma used_as_class cl u v k s : used_as cl u v k s -> class_reached cl u v k (class_view s).
Proof.
  induction 1 as [s Hs Hw|s l s' Hs IH He Hw].
  { apply reach_init; [by exists s|by rewrite view_class_view]. }
  pose proof (class_reached_sim _ _ _ _ _ IH) as [_ Hok]. pose proof (reachable_in_end _ _ _ _ Hs) as Hws.
  destruct s as [r ps], l as [w c]. pool_step He. cbn [shared pcs] in *.
  destruct (within_at _ w p (permitted_within _ _ _ _ Hws) Hp) as (_ & _ & Hn).
  assert ((At <$> ps) !! w = Some (At p)) as Ha by by rewrite list_lookup_fmap, Hp.
  assert (w < length (At <$> ps))%nat as Hlt by by eapply lookup_lt_Some.
  destruct (plain_fetch cl r p) as [[count a]|] eqn:E.
  - assert (c = Go) as -> by (destruct p; try done; by destruct c).
    assert (forall x, erase x = p -> permitted cl u v (ring_view (Pool r (<[w := x]> (At <$> ps)))) = true) as Hin
      by (intros x Hx; by rewrite (view_inside r ps w p x)).
    eapply (reach_step _ _ _ _ (w, Go)); [| |by rewrite view_class_view].
    + eapply (reach_step _ _ _ _ (w, Go)); [| |apply (Hin (Summed p count (u32 (count + a)))); done].
      * eapply (reach_step _ _ _ _ (w, Go)); [exact IH| |apply (Hin (Loaded p count)); done].
        eapply pool_exec_at; [exact Ha|]. simpl. by rewrite E.
      * apply pool_exec_again; [done|]. simpl. by rewrite E.
    + rewrite class_view_insert. apply pool_exec_again; [done|]. simpl.
      by rewrite (store_count_atomic cl w r p count a E), Ht.
  - eapply reach_step; [exact IH| |by rewrite view_class_view]. rewrite class_view_insert.
    eapply pool_exec_at; [exact Ha|]. simpl. rewrite E.
    rewrite step_counter; [by rewrite Ht|done|]. intros Ec. by apply (Hok w (At p)).
Qed.

(** C16. The rings with plain counters do what the ring with atomic ones does,
    used the way their names say.  The fetch_add of a plain counter is two loads
    and a store that other threads' steps may separate.  With one thread that
    pushes and closes where the producer counter is plain, and one that pops
    where the consumer counter is, every state of the class is one of the atomic
    ring, a thread inside fetch_add being before it; so it is among the [reached]
    states of the theorems on the ring.  And every state of the atomic ring used
    that way is one of the class. *)
Theorem ring_classes_equivalent cl u v k :
  (forall s, class_reached cl u v k s -> used_as cl u v k (ring_view s) /\ reached tr moved_from k (ring_view s)) /\
  (forall s, used_as cl u v k s -> class_reached cl u v k (class_view s)).
Proof.
  split; [|apply used_as_class]. intros s [Hs _]%class_reached_sim. split; [done|].
  revert Hs. apply reachable_in_weaken, permitted_within.
Qed.
End classes.
Arguments class_pc V {S}.
(** ** Runs of a ring of the class spsc *)

Local Abbreviation exec := (class_exec tr0 (fun v : Z => v) spsc).
Local Abbreviation view_permitted := (fun s => permitted spsc 0 1 (ring_view s)).

Definition class_start0 (n : nat) : pool (ring Z) (class_pc Z) := class_view (start0 n).

(** A push and a pop by two threads; the three accesses of each fetch_add are
    separated by those of the other. *)
Definition spsc_run : list (nat * choice Z) :=
  [(0%nat, Call (op_wait_push false by_move 7)); (1%nat, Call (op_wait_pop false));
   (0%nat, Go); (1%nat, Go); (0%nat, Go); (1%nat, Go); (0%nat, Go); (1%nat, Go)] ++
  [(0%nat, Go); (0%nat, Assign None); (0%nat, InSlot tt); (1%nat, Go); (1%nat, Assign None); (1%nat, InSlot tt)].

Definition spsc_end : pool (ring Z) (class_pc Z) :=
  default (class_start0 2) (run_in exec view_permitted (class_start0 2) spsc_run).

Lemma ring_classes_equivalent_witness :
  pcs spsc_end !! 1%nat = Some (At (Idle (Some (Popped 7)))) /\ reached tr0 (fun v => v) 4 (ring_view spsc_end).
Proof.
  split; [vm_compute; reflexivity|].
  apply (ring_classes_equivalent tr0 (fun v => v) spsc 0 1 4).
  apply (run_in_reachable exec (class_start 4) (fun s => view_permitted s = true) view_permitted (class_start0 2) spsc_run);
    [done|exists (start0 2); split; [apply ring_start0|done]|vm_compute; reflexivity].
Defined.

(** Two threads that push to such a ring can be given the same ticket: both are
    about to write the same slot, and the counter has moved by one. *)
Lemma two_producers_share_ticket :
  exists s p q, run exec (class_start0 2)
      ([(0%nat, Call (op_wait_push false by_move 7)); (1%nat, Call (op_wait_push false by_move 8));
        (0%nat, Go); (1%nat, Go); (0%nat, Go); (1%nat, Go)] ++
       [(0%nat, Go); (1%nat, Go); (0%nat, Go); (1%nat, Go)]) = Some s /\
    pcs s = [At (PutValue p); At (PutValue q)] /\ p_count p = p_count q /\ tail_ (shared s) = 1.
Proof. do 3 eexists. split; [vm_compute; reflexivity|]. split; [reflexivity|]. split; reflexivity. Qed.
