(* ===== verification/BqOrder.v ===== *)
(** * The ring and memory orders (evenk/bounded_queue.h)

    The threads of the ring take turns at the value of a slot, and hand it over
    through the token.  Here every step of the ring is accompanied by what it
    means for the order of the accesses: every thread has a clock, the accesses
    to each variable that happened before; a release store of a token leaves the
    clock of its thread there, and a load with acquire takes it over.  An access
    that does not know of all accesses before it races with one of them. *)

From stdpp Require Import gmap functions.
From S2P Require Import Prelude Conqueue Memory BqSlot BqRing BqTokens BqTickets BqRefine BqTheorems.
Local Open Scope Z_scope.

(** ** What a step of a slot call does to the token or the mutex *)

Inductive slot_event : Type :=
| ev_none
| ev_load (o : order)
| ev_store (o : order)
| ev_update (o : order)      (* read-modify-write *)
| ev_lock
| ev_unlock.

Class SlotOrder (S : Slot) : Type :=
  slot_event_of : slot_state -> slot_pc -> slot_choice -> slot_event.

(** The order [w] of the loads in wait is a parameter; in the source it is
    [relaxed]. *)

#[export] Instance spin_order (w : order) : SlotOrder spin := fun _ p _ =>
  match p with
  | Spin.WaitLoad => ev_load w
  | Spin.WakeStore _ => ev_store release
  | Spin.CloseReturn => ev_none
  end.

#[export] Instance yield_order (w : order) : SlotOrder yield := fun s p c =>
  match p with
  | Yield.WaitYield => ev_none
  | Yield.WaitLoad => ev_load w
  | Yield.Base p => spin_order w s p c
  end.

#[export] Instance futex_order (w : order) : SlotOrder futex_slot := fun s p c =>
  match p with
  | FutexSlot.CloseLoad => ev_load relaxed
  | FutexSlot.CloseCas t =>
      match c with
      | FutexSlot.Go => if decide (FutexSlot.word s = t) then ev_update relaxed else ev_load relaxed
      | _ => ev_load relaxed
      end
  | FutexSlot.WaitCas t => if decide (FutexSlot.word s = t) then ev_update relaxed else ev_load w
  | FutexSlot.WaitLoad => ev_load w
  | FutexSlot.WakeExchange _ => ev_update release
  | FutexSlot.CloseWake | FutexSlot.WaitEnter _ | FutexSlot.WaitSleep _ | FutexSlot.WakeWake => ev_none
  end.

#[export] Instance synch_order : SlotOrder synch_slot := fun _ p _ =>
  match p with
  | SynchSlot.CloseLock | SynchSlot.WaitLock _ | SynchSlot.WaitSleep _ | SynchSlot.WakeLock _ => ev_lock
  | SynchSlot.CloseLoad | SynchSlot.WaitLoad _ | SynchSlot.WaitReload => ev_load relaxed
  | SynchSlot.CloseStore _ | SynchSlot.WakeStore _ => ev_store relaxed
  | SynchSlot.WaitCond _ | SynchSlot.WaitUnlock _ | SynchSlot.Unlock => ev_unlock
  | SynchSlot.CloseNotify | SynchSlot.WakeNotify => ev_none
  end.

(** ** Clocks *)

(** Variables that are not atomic: [last_], and the value of each slot. *)
Definition at_last : nat := 0.
Definition at_value (i : nat) : nat := S i.

Record clocks : Type := Clocks {
  k_thread : nat -> view;
  k_token : nat -> view;       (* what a load of the token with acquire takes over *)
  k_mutex : nat -> view;
  k_closed : view;             (* the same for [closed_] *)
  k_count : view;              (* the accesses so far *)
  k_stale : nat -> bool;       (* a thread got at the slot with a relaxed load *)
}.

Definition clocks_init : clocks :=
  Clocks (fun _ _ => 0%nat) (fun _ _ => 0%nat) (fun _ _ => 0%nat) (fun _ => 0%nat) (fun _ => 0%nat) (fun _ => false).

Section clocks.
Implicit Types (x : clocks) (u i l : nat).

Definition learn u (v : view) x : clocks :=
  Clocks (<[u := view_join (k_thread x u) v]> (k_thread x)) (k_token x) (k_mutex x) (k_closed x) (k_count x) (k_stale x).
Definition set_token i (v : view) x : clocks :=
  Clocks (k_thread x) (<[i := v]> (k_token x)) (k_mutex x) (k_closed x) (k_count x) (k_stale x).
Definition set_mutex i (v : view) x : clocks :=
  Clocks (k_thread x) (k_token x) (<[i := v]> (k_mutex x)) (k_closed x) (k_count x) (k_stale x).
Definition set_closed (v : view) x : clocks :=
  Clocks (k_thread x) (k_token x) (k_mutex x) v (k_count x) (k_stale x).
Definition set_stale i x : clocks :=
  Clocks (k_thread x) (k_token x) (k_mutex x) (k_closed x) (k_count x) (<[i := true]> (k_stale x)).

Definition access u l x : clocks :=
  let n := Datatypes.S (k_count x l) in
  Clocks (<[u := <[l := n]> (k_thread x u)]> (k_thread x)) (k_token x) (k_mutex x) (k_closed x)
    (<[l := n]> (k_count x)) (k_stale x).

Definition acquires (e : slot_event) : bool :=
  match e with ev_load acquire | ev_update acquire => true | _ => false end.

(** An event at slot [i]. *)
Definition at_slot u i (e : slot_event) x : clocks :=
  match e with
  | ev_none | ev_load relaxed | ev_load release => x
  | ev_load acquire => learn u (k_token x i) x
  | ev_store release => set_token i (k_thread x u) x
  | ev_store _ => set_token i (fun _ => 0%nat) x
  | ev_update release => set_token i (view_join (k_token x i) (k_thread x u)) x
  | ev_update acquire => learn u (k_token x i) x
  | ev_update relaxed => x
  | ev_lock => learn u (k_mutex x i) x
  | ev_unlock => set_mutex i (k_thread x u) x
  end.

(** The thread knows of all accesses to [l]. *)
Definition ordered x u l : Prop := k_thread x u l = k_count x l.
End clocks.

(** ** The ring with clocks *)

Section ring.
Context {V : Type} {S : Slot} {O : SlotOrder S} (tr : traits) (moved_from : V -> V).

Inductive ring_event : Type :=
| re_none
| re_slot (i : nat) (e : slot_event)
| re_access (l : nat)
| re_load_closed
| re_store_closed.

Definition slot_call_event (r : ring V) (i : nat) (w : slot_pc) (c : choice V) : ring_event :=
  match c, ring_ r !! i with
  | InSlot ch, Some sl => re_slot i (slot_event_of (base sl) w ch)
  | _, _ => re_none
  end.

(** The counters are relaxed, and order nothing.  The reads of [last_] in
    is_past_last change no clock. *)
Definition ring_event_of (r : ring V) (p : pc V) (c : choice V) : ring_event :=
  match p with
  | TailLoad p | TryPushSlot p => re_slot (p_slot r p) (ev_load acquire)
  | HeadLoad c | TryPopSlot c => re_slot (c_slot r c) (ev_load acquire)
  | TailWait p w => slot_call_event r (p_slot r p) w c
  | HeadWait _ k w => slot_call_event r (c_slot r k) w c
  | Waking a w => slot_call_event r (wake_slot r a) w c
  | CloseSlot _ i w => slot_call_event r i w c
  | PutValue p => re_access (at_value (p_slot r p))
  | GetValue c => re_access (at_value (c_slot r c))
  | TailClosed _ _ | HeadClosed _ _ _ | TryPopClosed _ | TryPushClosed _ => re_load_closed
  | TailLast _ _ | HeadLast _ _ _ | TryPopLast _ | TryPushLast _ => re_none
  | CloseGuard => if decide (closed_ r = cl_closing) then re_load_closed else re_none
  | CloseLast _ => re_access at_last
  | CloseStore => re_store_closed
  | _ => re_none
  end.

(** The thread has got at a slot. *)
Definition arrives (p : pc V) : bool :=
  match p with PutValue _ | GetValue _ | Skip _ _ => true | _ => false end.

Definition tick_clocks (u : nat) (e : ring_event) (p' : pc V) (x : clocks) : clocks :=
  match e with
  | re_none => x
  | re_slot i e =>
      let x := at_slot u i e x in
      if arrives p' && negb (acquires e) then set_stale i x else x
  | re_access l => access u l x
  | re_load_closed => learn u (k_closed x) x
  | re_store_closed => set_closed (k_thread x u) x
  end.

Definition clocked_step (kh : counter_kind) (u : nat) (s : ring V * clocks) (p : pc V) (c : choice V) :
    option ((ring V * clocks) * pc V) :=
  '(r', p') ← ring_step tr moved_from kh u s.1 p c;
  Some ((r', tick_clocks u (ring_event_of s.1 p c) p' s.2), p').

Definition clocked_exec (kh : counter_kind) :
    pool (ring V * clocks) (pc V) -> nat * choice V -> option (pool (ring V * clocks) (pc V)) :=
  pool_exec (clocked_step kh).
End ring.

(** ** How clocks grow *)

(** Nobody knows of accesses that have not happened. *)
Record sane (x : clocks) : Prop := {
  sn_thread u l : (k_thread x u l <= k_count x l)%nat;
  sn_token i l : (k_token x i l <= k_count x l)%nat;
  sn_mutex i l : (k_mutex x i l <= k_count x l)%nat;
  sn_closed l : (k_closed x l <= k_count x l)%nat;
}.

Record grows (x x' : clocks) : Prop := {
  gr_sane : sane x';
  gr_count : k_count x' = k_count x;
  gr_thread u l : (k_thread x u l <= k_thread x' u l)%nat;
  gr_stale i : k_stale x' i = false -> k_stale x i = false;
}.

Lemma grows_ordered x x' u l : grows x x' -> ordered x u l -> ordered x' u l.
Proof.
  intros [H1 H2 H3 _]. unfold ordered. rewrite H2. specialize (H3 u l). pose proof (sn_thread _ H1 u l) as H.
  rewrite H2 in H. lia.
Qed.

Lemma sane_init : sane clocks_init.
Proof. by split. Qed.

Lemma grows_refl x : sane x -> grows x x.
Proof. by split. Qed.

Lemma grows_learn u v x : sane x -> (forall l, v l <= k_count x l)%nat -> grows x (learn u v x).
Proof.
  intros [H1 H2 H3 H4] Hv. split; [split|..]; simpl; try done; intros w l; destruct (decide (w = u)) as [->|Hw];
    rewrite ?fn_lookup_insert, ?fn_lookup_insert_ne by done; unfold view_join; auto; specialize (H1 u l); specialize (Hv l); lia.
Qed.

Lemma grows_set_token i v x : sane x -> (forall l, v l <= k_count x l)%nat -> grows x (set_token i v x).
Proof. intros [H1 H2 H3 H4] Hv. split; [split|..]; simpl; try done. intros j l. by fn_split. Qed.

Lemma grows_set_mutex i v x : sane x -> (forall l, v l <= k_count x l)%nat -> grows x (set_mutex i v x).
Proof. intros [H1 H2 H3 H4] Hv. split; [split|..]; simpl; try done. intros j l. by fn_split. Qed.

Lemma grows_set_closed v x : sane x -> (forall l, v l <= k_count x l)%nat -> grows x (set_closed v x).
Proof. intros [H1 H2 H3 H4] Hv. by split; [split|..]. Qed.

Lemma grows_set_stale i x : sane x -> grows x (set_stale i x).
Proof.
  intros [H1 H2 H3 H4]. split; [by split|done..|]. intros j. simpl. by fn_split.
Qed.

Lemma grows_trans x y z : grows x y -> grows y z -> grows x z.
Proof.
  intros [_ A2 A3 A4] [B1 B2 B3 B4]. split; [done|congruence| |auto]. intros u l. specialize (A3 u l). specialize (B3 u l). lia.
Qed.

Lemma grows_at_slot u i e x : sane x -> grows x (at_slot u i e x).
Proof.
  intros H. pose proof H as [H1 H2 H3 H4].
  destruct e as [|[]|[]|[]| |]; simpl; auto using grows_refl, grows_learn, grows_set_token, grows_set_mutex.
  - apply grows_set_token; [done|]. simpl. lia.
  - apply grows_set_token; [done|]. simpl. lia.
  - apply grows_set_token; [done|]. intros l. unfold view_join. specialize (H1 u l). specialize (H2 i l). lia.
Qed.

Lemma sane_access u l x : sane x -> sane (access u l x).
Proof.
  intros [H1 H2 H3 H4].
  assert (forall (a : view) l', (forall l', a l' <= k_count x l')%nat ->
    (a l' <= (<[l := Datatypes.S (k_count x l)]> (k_count x)) l')%nat) as Hle.
  { intros a l' Ha. specialize (Ha l'). destruct (decide (l' = l)) as [->|]; [rewrite fn_lookup_insert; lia|by rewrite fn_lookup_insert_ne]. }
  split; intros; simpl; auto. destruct (decide (u0 = u)) as [->|]; [|rewrite fn_lookup_insert_ne by done; auto].
  rewrite fn_lookup_insert. destruct (decide (l0 = l)) as [->|]; [by rewrite !fn_lookup_insert|].
  rewrite !fn_lookup_insert_ne by done. auto.
Qed.

Lemma ordered_access u l x : ordered (access u l x) u l.
Proof. unfold ordered. simpl. by rewrite !fn_lookup_insert. Qed.

(** Other threads and variables do not notice an access. *)
Lemma ordered_access_ne u l x v l' : l' <> l -> ordered x v l' -> ordered (access u l x) v l'.
Proof.
  intros Hl. unfold ordered. simpl. destruct (decide (v = u)) as [->|].
  - by rewrite fn_lookup_insert, !fn_lookup_insert_ne by done.
  - by rewrite !fn_lookup_insert_ne by done.
Qed.

(** ** Slots that hand over with a release *)

(** The event does not take away what the token hands over. *)
Definition keeps (e : slot_event) : bool :=
  match e with ev_none | ev_load _ | ev_update _ => true | _ => false end.

Definition releases (e : slot_event) : bool :=
  match e with ev_store release | ev_update release => true | _ => false end.

Class ReleaseSlot (S : Slot) {L : SlotLaws S} {O : SlotOrder S} : Prop := {
  rs_wake s p c t : slot_phase p = waking t -> releases (slot_event_of s p c) = true;
  rs_other s p c : (forall t, slot_phase p <> waking t) -> keeps (slot_event_of s p c) = true;
}.

#[export] Instance spin_release w : ReleaseSlot spin (O := spin_order w).
Proof. split; intros ? [] ?; naive_solver. Qed.
#[export] Instance yield_release w : ReleaseSlot yield (O := yield_order w).
Proof. split; intros ? [| |[]] ?; naive_solver. Qed.
#[export] Instance futex_release w : ReleaseSlot futex_slot (O := futex_order w).
Proof.
  split.
  - by intros ? [].
  - intros s p c H. unfold slot_event_of, futex_order. destruct p; by repeat case_match.
Qed.

(** ** Turns *)

Section turns.
Context {V : Type} {S : Slot} {L : SlotLaws S} {O : SlotOrder S} {R : ReleaseSlot S}.
Context (tr : traits) (moved_from : V -> V) (k : Z) (Hk : 4 <= k < 32).

(** The ticket whose slot the thread has to itself. *)
Definition owns (p : pc V) : option Z :=
  match role_of p with
  | r_prod g _ p_writing | r_prod g _ (p_publishing _)
  | r_cons g (c_reading _) | r_cons g (c_releasing _) => Some g
  | _ => None
  end.

Definition nslot (g : Z) : nat := Z.to_nat (res (2 ^ k) g).

(** What a step means for the turns. *)
Inductive turn (r : ring V) (p p' : pc V) : ring_event -> Prop :=
| t_quiet e :
    owns p' = owns p -> (forall c t, p' <> TryPopIncrement c t) ->
    match e with re_slot _ ev => keeps ev = true | re_access l => l = at_last | _ => True end ->
    turn r p p' e
| t_arrive g e :
    owns p = None -> owns p' = Some g -> arrives p' = true -> keeps e = true -> turn r p p' (re_slot (nslot g) e)
| t_look c t :
    owns p = None -> p' = TryPopIncrement c t -> turn r p p' (re_slot (nslot (c_ticket c)) (ev_load acquire))
| t_take c t :
    p = TryPopIncrement c t -> g_head r = c_ticket c -> owns p' = Some (c_ticket c) -> turn r p p' re_none
| t_access g :
    owns p = Some g -> owns p' = Some g -> turn r p p' (re_access (at_value (nslot g)))
| t_release g e :
    owns p = Some g -> owns p' = None \/ owns p' = Some g -> releases e = true ->
    (forall c t, p' <> TryPopIncrement c t) -> turn r p p' (re_slot (nslot g) e).

Lemma p_slot_ticket (r : ring V) (p : @producer V) : mask_ r = 2 ^ k - 1 -> p_good p -> p_slot r p = nslot (p_ticket p).
Proof. intros Hm Hg. unfold p_slot, p_good in *. rewrite Hg, Hm. by apply slot_index_ticket. Qed.

Lemma c_slot_ticket (r : ring V) c : mask_ r = 2 ^ k - 1 -> c_good c -> c_slot r c = nslot (c_ticket c).
Proof. intros Hm Hg. unfold c_slot, c_good in *. rewrite Hg, Hm. by apply slot_index_ticket. Qed.

Lemma turn_tail (r : ring V) p0 (p : @producer V) t e :
  owns p0 = None -> keeps e = true -> turn r p0 (tail_test p t) (re_slot (nslot (p_ticket p)) e).
Proof.
  intros H0 He. unfold tail_test. destruct (ticket_matches t (p_token p)).
  - by apply t_arrive.
  - by apply t_quiet.
Qed.

Lemma turn_head (r : ring V) p0 l c t e :
  owns p0 = None -> keeps e = true -> turn r p0 (head_test l c t) (re_slot (nslot (c_ticket c)) e).
Proof.
  intros H0 He.
  assert (turn r p0 (status_test c t) (re_slot (nslot (c_ticket c)) e)) as Hs.
  { unfold status_test, head_exit. repeat case_match; try (by apply t_arrive). by apply t_quiet. }
  destruct l; simpl; [|done]. destruct (ticket_matches t (c_token c)); [done|]. by apply t_quiet.
Qed.

Lemma slot_call_event_at (r : ring V) i w ch sl :
  ring_ r !! i = Some sl -> slot_call_event r i w (InSlot ch) = re_slot i (slot_event_of (base sl) w ch).
Proof. intros E. unfold slot_call_event. by rewrite E. Qed.

Lemma turn_take (r : ring V) c t head :
  words r -> c_good c -> head_window r (TryPopIncrement c t) = true -> c_ticket c <= g_head r ->
  try_increment atomic_counter (head_ r) (c_count c) = (head, true) ->
  g_head r = c_ticket c.
Proof.
  intros Hw Hg Hwin Hle Ht. simpl in *. apply Z.ltb_lt in Hwin. case_decide as E; [|done].
  rewrite (w_head _ Hw) in E. unfold c_good in Hg. rewrite Hg in E. apply (wrap_inj 32); [lia|lia|done].
Qed.

(** The ticket of the slot a wake is for. *)
Definition wake_ticket (a : @after_wake V) : Z :=
  match a with
  | put_done p _ => p_ticket p
  | get_done c _ | skip_done c | try_skip_done c => c_ticket c
  end.

Lemma owns_waking (a : @after_wake V) w :
  owns (Waking a w) = match slot_phase w with waking _ => Some (wake_ticket a) | _ => None end.
Proof. unfold owns, role_of. by destruct (slot_phase w), a. Qed.

Lemma owns_after (a : @after_wake V) : owns (after a) = None.
Proof. unfold owns. by destruct a as [? []|? []| |]. Qed.

Lemma turn_waking (r : ring V) u a w ch r' p' :
  mask_ r = 2 ^ k - 1 -> local_ok k r u (Waking a w) ->
  in_slot u r (wake_slot r a) w ch (Waking a) (fun _ => after a) = Some (r', p') ->
  turn r (Waking a w) p' (slot_call_event r (wake_slot r a) w (InSlot ch)).
Proof.
  intros Hm (Hg & sl0 & Hsl0 & Hok & Hph) (sl & b & x & Hsl & Hst & _ & ->)%in_slot_Some.
  rewrite Hsl in Hsl0. injection Hsl0 as <-. rewrite (slot_call_event_at _ _ _ _ _ Hsl).
  pose proof (owns_after a) as Ha.
  assert (wake_slot r a = nslot (wake_ticket a)) as ->
    by (destruct a; [by apply p_slot_ticket|by apply c_slot_ticket..]).
  assert (forall c t, match x with inl w' => Waking a w' | inr _ => after a end <> TryPopIncrement c t) as Hne
    by (intros; destruct x; [done|]; by destruct a as [? []|? []| |]).
  destruct Hph as [Hph|Hph].
  - apply t_release; [by rewrite owns_waking, Hph| |by eapply rs_wake|done].
    destruct x as [w'|]; [|by left]. rewrite owns_waking. destruct (slot_phase w'); auto.
  - pose proof (slot_step_allowed _ _ _ _ _ _ Hok Hst) as Hall. rewrite Hph in Hall. destruct Hall as [_ Hnext].
    apply t_quiet; [|done|].
    + rewrite owns_waking, Hph. destruct x as [w'|]; [|done]. rewrite owns_waking. simpl in Hnext.
      destruct Hnext as [Hnext|[? Hnext]]; [|done]. injection Hnext as ->. done.
    + apply rs_other. by rewrite Hph.
Qed.

Lemma turn_wait (r : ring V) u i w ch again cont r' p' p g :
  in_slot u r i w ch again cont = Some (r', p') -> i = nslot g ->
  in_call r u i w (fun ph => ph = waiting) -> owns p = None ->
  (forall w', owns (again w') = None /\ forall c t, again w' <> TryPopIncrement c t) ->
  (forall t e, keeps e = true -> turn r p (cont t) (re_slot (nslot g) e)) ->
  turn r p p' (slot_call_event r i w (InSlot ch)).
Proof.
  intros (sl & b & x & Hsl & Hst & _ & ->)%in_slot_Some -> (sl0 & Hsl0 & _ & Hph) Hp Hag Hc.
  rewrite Hsl in Hsl0. injection Hsl0 as <-. rewrite (slot_call_event_at _ _ _ _ _ Hsl).
  assert (keeps (slot_event_of (base sl) w ch) = true) as Hk' by (apply rs_other; by rewrite Hph).
  destruct x as [w'|t]; [|by apply Hc]. destruct (Hag w') as [? ?].
  apply t_quiet; [congruence|done|done].
Qed.

Lemma turn_try_pop (r : ring V) p c r' p' :
  mask_ r = 2 ^ k - 1 -> words r -> local_ok k r 0 p -> head_window r p = true ->
  step_try_pop atomic_counter r p c = Some (r', p') -> turn r p p' (ring_event_of r p c).
Proof.
  intros Hm Hwd Hl Hw Hs. destruct p; try discriminate Hs; destruct c; try discriminate Hs; cbn in Hs; cbn [ring_event_of].
  - injection Hs as <- <-. by apply t_quiet.
  - destruct (ring_ r !! c_slot r c0) as [sl|]; [|done]. injection Hs as <- <-.
    rewrite c_slot_ticket by (try done; apply Hl). case_match; [by apply t_quiet|]. by eapply t_look.
  - injection Hs as <- <-. case_decide; by apply t_quiet.
  - injection Hs as <- <-. by apply t_quiet.
  - destruct Hl as (Hg & Hr & _). case_decide as E; injection Hs as <- <-; [|by apply t_quiet].
    eapply t_take; [done| |by case_match]. eapply turn_take; [done|done|done|lia|]. cbn. by rewrite decide_True.
Qed.

Lemma turn_close (r : ring V) u p c r' p' :
  local_ok k r u p -> step_close u r p c = Some (r', p') -> turn r p p' (ring_event_of r p c).
Proof.
  intros Hl Hs. destruct p; try discriminate Hs; destruct c; try discriminate Hs; cbn [ring_event_of].
  1-5: cbn in Hs; repeat case_match; simplify_eq; by apply t_quiet.
  destruct Hl as (_ & sl0 & Hsl0 & Hok & Hph). apply in_slot_Some in Hs as (sl & b & x & Hsl & Hst & _ & ->).
  rewrite Hsl in Hsl0. injection Hsl0 as <-. rewrite (slot_call_event_at _ _ _ _ _ Hsl).
  apply t_quiet; [by destruct x..|]. apply rs_other. by destruct Hph as [-> | ->].
Qed.

Lemma turn_body (r : ring V) p e :
  owns p = None -> e = re_none \/ e = re_load_closed ->
  (forall (q : @producer V) t, turn r p (tail_body q t) e) /\
  (forall l c t, turn r p (head_body l c t) e).
Proof.
  intros Hp He. assert (match e with re_slot _ ev => keeps ev = true | re_access l => l = at_last | _ => True end) as He'
    by by destruct He as [-> | ->].
  split.
  - intros q t. unfold tail_body. apply t_quiet; try done; destruct (p_mode q) as [|[]]; by rewrite ?Hp.
  - intros l c t. unfold head_body. apply t_quiet; try done; destruct (c_mode c) as [|[]], l; by rewrite ?Hp.
Qed.

Lemma step_turn (r : ring V) ps u p c r' p' a :
  sim k (Pool r ps) a -> ps !! u = Some p -> head_window r p = true -> no_try_push p = true ->
  ring_step tr moved_from atomic_counter u r p c = Some (r', p') -> turn r p p' (ring_event_of r p c).
Proof.
  intros H Hp Hw Hn Hs. pose proof (rr_mask _ _ _ (sim_ring _ _ _ H)) as Hm. simpl in Hm. unfold size in Hm.
  pose proof (sim_local _ _ _ H _ _ Hp) as Hl. simpl in Hl.
  pose proof (sim_words _ _ _ H) as Hwd. clear H Hp.
  destruct p; try discriminate Hn.
  18-22: eapply turn_try_pop; by eauto.
  18-23: eapply turn_close; by eauto.
  all: destruct c; try discriminate Hs; cbn [ring_event_of].
  - injection Hs as <- <-. apply t_quiet; try done; by destruct op.
  - injection Hs as <- <-. by apply t_quiet.
  - cbn in Hs. destruct (ring_ r !! p_slot r p) as [sl|]; [|done]. injection Hs as <- <-.
    rewrite p_slot_ticket by done. by apply turn_tail.
  - injection Hs as <- <-. case_decide; [by apply t_quiet|]. apply turn_body; auto.
  - injection Hs as <- <-. case_match; [by apply t_quiet|]. apply turn_body; auto.
  - injection Hs as <- <-. by apply t_quiet.
  - destruct Hl as [Hg Hc]. eapply (turn_wait r u _ w); [exact Hs|by apply p_slot_ticket|done|done|done|].
    intros t e He. by apply turn_tail.
  - cbn in Hs. unfold put_value in Hs. destruct (ring_ r !! p_slot r p) as [sl|]; [|done]. simpl in Hs.
    rewrite p_slot_ticket by done. repeat case_match; simplify_eq; apply t_access; try done; rewrite owns_waking, slot_enter_phase; done.
  - injection Hs as <- <-. by apply t_quiet.
  - cbn in Hs. destruct (ring_ r !! c_slot r c0) as [sl|]; [|done]. injection Hs as <- <-.
    rewrite c_slot_ticket by done. by apply (turn_head r _ ticket_loop).
  - injection Hs as <- <-. case_decide; [apply t_quiet; by destruct l|]. apply turn_body; [by destruct l|auto].
  - injection Hs as <- <-. case_match; [apply t_quiet; by destruct l|]. apply turn_body; [by destruct l|auto].
  - injection Hs as <- <-. apply t_quiet; by destruct l.
  - destruct Hl as [Hg Hc]. eapply (turn_wait r u _ w); [exact Hs|by apply c_slot_ticket|done|by destruct l|by destruct l|].
    intros t e He. apply turn_head; [by destruct l|done].
  - cbn in Hs. unfold get_value in Hs. destruct (ring_ r !! c_slot r c0) as [sl|]; [|done]. simpl in Hs.
    rewrite c_slot_ticket by done. repeat case_match; simplify_eq; apply t_access; try done; rewrite owns_waking, slot_enter_phase; done.
  - injection Hs as <- <-. apply t_quiet; try done. rewrite owns_waking, slot_enter_phase. by destruct trying.
  - by eapply turn_waking.
Qed.

(** ** Owners are alone *)

Local Abbreviation state := (pool (ring V) (pc V)).

Lemma owns_state (s : state) a u p g :
  sim k s a -> pcs s !! u = Some p -> owns p = Some g ->
  a_pos (slot_of (2 ^ k) a g) = g /\
  ((produces a u g /\ a_st (slot_of (2 ^ k) a g) = h_none) \/
   (consumes a u g /\ a_st (slot_of (2 ^ k) a g) <> h_none /\ g < g_head (shared s))).
Proof.
  destruct s as [r ps]. intros H Hp Ho. pose proof (sim_role_of k r ps u p a H Hp) as Hrole.
  pose proof (sim_inv _ _ _ H) as Hinv. pose proof (rr_head _ _ _ (sim_ring _ _ _ H)) as Hh. simpl in Hh |- *.
  unfold owns in Ho. rewrite <- Hrole in Ho. destruct (a_roles a u) as [|h v st|h st] eqn:E; [done| |].
  - assert (h = g) as -> by (destruct st; congruence).
    destruct (ir_prod _ _ (ai_roles _ _ Hinv) _ _ _ _ E) as (Hg & _ & Hst).
    assert (produces a u g) by by do 2 eexists. destruct st; [done| |].
    + destruct Hst as [Hc Hpos]. split; [done|]. left. split; [done|].
      eapply fresh_holds_none; [apply Hinv|lia|done|done].
    + destruct Hst as (_ & Hpos & Hst & _). split; [done|]. by left.
  - assert (h = g) as -> by (destruct st; congruence).
    destruct (ir_cons _ _ (ai_roles _ _ Hinv) _ _ _ E) as (Hg & Hst).
    assert (consumes a u g) by by eexists. rewrite Hh in Hg.
    destruct st; try done; destruct Hst as (? & Hpos & Hst); (split; [done|]; right; split_and!; [done| |lia]).
    + unfold size in Hst. rewrite Hst. apply held_not_none.
    + done.
Qed.

Lemma nslot_inj g h : nslot g = nslot h -> res (2 ^ k) g = res (2 ^ k) h.
Proof.
  unfold nslot. pose proof (res_range (2 ^ k) (size_pos k Hk) g). pose proof (res_range (2 ^ k) (size_pos k Hk) h). lia.
Qed.

Lemma owns_once (s : state) a u v p q g h :
  sim k s a -> pcs s !! u = Some p -> pcs s !! v = Some q -> owns p = Some g -> owns q = Some h ->
  nslot g = nslot h -> u = v.
Proof.
  intros H Hu Hv Hg Hh E. pose proof (ai_roles _ _ (sim_inv _ _ _ H)) as Hi.
  destruct (owns_state s a u p g H Hu Hg) as [P1 R1]. destruct (owns_state s a v q h H Hv Hh) as [P2 R2].
  assert (g = h) as <-. { rewrite <- P1, <- P2. unfold slot_of. do 2 f_equal. by apply nslot_inj. }
  destruct R1 as [[R1 N1]|(R1 & N1 & _)], R2 as [[R2 N2]|(R2 & N2 & _)]; try done.
  - by eapply (ir_prod_inj _ _ Hi).
  - by eapply (ir_cons_inj _ _ Hi).
Qed.

(** While the head is where try_pop found it, nobody has its slot. *)
Lemma look_alone (s : state) a u v p g c t :
  sim k s a -> pcs s !! u = Some p -> owns p = Some g -> pcs s !! v = Some (TryPopIncrement c t) ->
  g_head (shared s) = c_ticket c -> nslot g <> nslot (c_ticket c).
Proof.
  intros H Hu Hg Hv Hh E%nslot_inj. destruct (owns_state s a u p g H Hu Hg) as [P1 R1].
  destruct (sim_local _ _ _ H _ _ Hv) as (Hgood & _ & Hsl). destruct (Hsl Hh) as (sl & Hs & Hpos & Hst & Hne).
  destruct (slot_at k Hk (shared s) a (c_ticket c) (sim_ring _ _ _ H)) as (sl' & Hs' & Hrel).
  unfold c_slot in Hs. unfold c_good in Hgood. rewrite Hgood, Hs' in Hs. injection Hs as ->.
  assert (slot_of (2 ^ k) a g = slot_of (2 ^ k) a (c_ticket c)) as Eg by (unfold slot_of; by rewrite E).
  assert (g = c_ticket c) as ->.
  { rewrite <- P1, Eg. unfold size in Hrel. rewrite (sr_pos _ _ Hrel). done. }
  destruct R1 as [[_ N]|(_ & _ & ?)]; [|lia]. pose proof (sr_st _ _ Hrel) as Hr. unfold size in Hr. rewrite N in Hr.
  unfold st_rel in Hr. congruence.
Qed.

(** ** The invariant of the clocks *)

Lemma grows_tick u e (p' : pc V) x :
  sane x -> (forall l, e <> re_access l) -> grows x (tick_clocks u e p' x).
Proof.
  intros H He. destruct e as [|i e|l| |]; simpl; [by apply grows_refl| |by destruct (He l)| |].
  - destruct (arrives p' && negb (acquires e)); [|by apply grows_at_slot].
    eapply grows_trans; [by apply grows_at_slot|]. apply grows_set_stale. by apply (grows_at_slot u i e x).
  - apply grows_learn; [done|apply H].
  - apply grows_set_closed; [done|apply H].
Qed.

(** What a token hands over stays. *)
Lemma token_tick u e (p' : pc V) x i :
  sane x -> match e with re_slot j ev => keeps ev = true \/ j <> i | re_access _ => False | _ => True end ->
  forall l, (k_token x i l <= k_token (tick_clocks u e p' x) i l)%nat.
Proof.
  intros H He l. destruct e as [|j e|l'| |]; simpl; try done.
  assert (k_token x i l <= k_token (at_slot u j e x) i l)%nat as Hle.
  { destruct e as [|[]|[]|[]| |]; simpl; try done; (destruct He as [He|He]; [try done|by rewrite fn_lookup_insert_ne]).
    destruct (decide (i = j)) as [->|]; [|by rewrite fn_lookup_insert_ne]. rewrite fn_lookup_insert. unfold view_join. lia. }
  by destruct (arrives p' && negb (acquires e)).
Qed.

Record clock_inv (r : ring V) (ps : list (pc V)) (x : clocks) : Prop := {
  ck_sane : sane x;
  (** the thread that has the slot knows of all accesses to the value *)
  ck_owner u p g :
    ps !! u = Some p -> owns p = Some g -> k_stale x (nslot g) = false -> ordered x u (at_value (nslot g));
  (** nobody has it: the token hands them over *)
  ck_free i :
    k_stale x i = false -> (forall u p g, ps !! u = Some p -> owns p = Some g -> nslot g <> i) ->
    k_token x i (at_value i) = k_count x (at_value i);
  ck_look u c t :
    ps !! u = Some (TryPopIncrement c t) -> g_head r = c_ticket c -> k_stale x (nslot (c_ticket c)) = false ->
    ordered x u (at_value (nslot (c_ticket c)));
}.

(** A step that is no access to a value. *)
Lemma clock_grow (r r' : ring V) ps u p p' x x' :
  clock_inv r ps x -> ps !! u = Some p -> grows x x' ->
  (forall v c t, ps !! v = Some (TryPopIncrement c t) -> g_head r' = c_ticket c -> g_head r = c_ticket c) ->
  (forall g, owns p' = Some g -> k_stale x' (nslot g) = false -> ordered x' u (at_value (nslot g))) ->
  (forall c t, p' = TryPopIncrement c t -> g_head r' = c_ticket c -> k_stale x' (nslot (c_ticket c)) = false ->
     ordered x' u (at_value (nslot (c_ticket c)))) ->
  (forall i, k_stale x' i = false ->
     (forall v q h, <[u := p']> ps !! v = Some q -> owns q = Some h -> nslot h <> i) ->
     (k_count x (at_value i) <= k_token x' i (at_value i))%nat) ->
  clock_inv r' (<[u := p']> ps) x'.
Proof.
  intros [H1 H2 H3 H4] Hp Hx Hh Ho Hl Hf. split; [apply Hx| | |].
  - intros v q g [(-> & -> & _)|[Hne Hq]]%insert_lookup_cases Hg Hst; [by apply Ho|].
    eapply grows_ordered; [done|]. eapply H2; [done|done|by eapply gr_stale].
  - intros i Hst Hn. pose proof (Hf i Hst Hn) as Hle. pose proof (sn_token _ (gr_sane _ _ Hx) i (at_value i)) as Hs.
    rewrite (gr_count _ _ Hx) in *. lia.
  - intros v c t [(-> & <- & _)|[Hne Hq]]%insert_lookup_cases Hg Hst; [by eapply Hl|].
    eapply grows_ordered; [done|]. eapply H4; [done|by eapply Hh|by eapply gr_stale].
Qed.

(** An access to [l]: the thread has the slot, if [l] is the value of one. *)
Lemma clock_access (r r' : ring V) ps u p p' x l :
  clock_inv r ps x -> ps !! u = Some p -> owns p' = owns p -> (forall c t, p' <> TryPopIncrement c t) ->
  (forall v c t, ps !! v = Some (TryPopIncrement c t) -> g_head r' = c_ticket c -> g_head r = c_ticket c) ->
  (forall i, at_value i = l -> exists g, owns p = Some g /\ nslot g = i) ->
  (forall v q g, ps !! v = Some q -> owns q = Some g -> at_value (nslot g) = l -> v = u) ->
  (forall v c t, ps !! v = Some (TryPopIncrement c t) -> g_head r = c_ticket c -> at_value (nslot (c_ticket c)) <> l) ->
  clock_inv r' (<[u := p']> ps) (access u l x).
Proof.
  intros [H1 H2 H3 H4] Hp Ho Hne Hh Hl Hown Hlook. split; [by apply sane_access| | |].
  - intros v q g Hq Hg Hst. destruct (decide (at_value (nslot g) = l)) as [El|El].
    + assert (v = u) as ->; [|rewrite El; apply ordered_access].
      apply insert_lookup_cases in Hq as [(-> & -> & _)|[_ Hq]]; [done|by eapply Hown].
    + apply ordered_access_ne; [done|].
      apply insert_lookup_cases in Hq as [(-> & -> & _)|[_ Hq]]; [|by eapply H2]. rewrite Ho in Hg. by eapply H2.
  - intros i Hst Hn. destruct (decide (at_value i = l)) as [El|El].
    + destruct (Hl i El) as (g & Hg & Ei). destruct (Hn u p' g); [by eapply insert_lookup_self|congruence|done].
    + simpl. rewrite fn_lookup_insert_ne by done. apply H3; [done|]. intros v q g Hv Hg.
      destruct (decide (v = u)) as [->|Hvu].
      * apply (Hn u p' g); [by eapply insert_lookup_self|congruence].
      * apply (Hn v q g); [by rewrite list_lookup_insert_ne|done].
  - intros v c t [(-> & <- & _)|[Hvu Hq]]%insert_lookup_cases Hg Hst; [by destruct (Hne c t)|].
    apply ordered_access_ne; [eapply Hlook; [done|by eapply Hh]|]. eapply H4; [done|by eapply Hh|done].
Qed.

(** Without an owner after the step there was none before, but for the thread. *)
Lemma free_before (ps : list (pc V)) u (p p' : pc V) i :
  ps !! u = Some p -> (forall v q h, <[u := p']> ps !! v = Some q -> owns q = Some h -> nslot h <> i) ->
  (forall g, owns p = Some g -> owns p' = Some g \/ nslot g <> i) ->
  forall v q h, ps !! v = Some q -> owns q = Some h -> nslot h <> i.
Proof.
  intros Hp Hn Hu v q h Hv Hh. destruct (decide (v = u)) as [->|Hvu].
  - assert (q = p) as -> by congruence. destruct (Hu h Hh) as [E|]; [|done].
    eapply Hn; [by eapply insert_lookup_self|done].
  - eapply Hn; [|done]. by rewrite list_lookup_insert_ne.
Qed.

(** A load with acquire of a token that hands over all accesses. *)
Lemma learn_ordered u i e (p' : pc V) x :
  sane x -> acquires e = true -> k_token x i (at_value i) = k_count x (at_value i) ->
  ordered (tick_clocks u (re_slot i e) p' x) u (at_value i).
Proof.
  intros H He Hk'. simpl. rewrite He, andb_false_r. pose proof (sn_thread _ H u (at_value i)).
  unfold ordered. destruct e as [|[]|[]|[]| |]; try done; simpl; rewrite fn_lookup_insert; unfold view_join; lia.
Qed.

Lemma release_token u i e (p' : pc V) x :
  releases e = true -> (k_thread x u (at_value i) <= k_token (tick_clocks u (re_slot i e) p' x) i (at_value i))%nat.
Proof.
  intros He. simpl. assert (k_thread x u (at_value i) <= k_token (at_slot u i e x) i (at_value i))%nat as H.
  { destruct e as [|[]|[]|[]| |]; try done; simpl; rewrite fn_lookup_insert; unfold view_join; lia. }
  by destruct (arrives p' && negb (acquires e)).
Qed.

(** *** A step of a thread *)

Section step.
Context (r r' : ring V) (ps : list (pc V)) (u : nat) (p p' : pc V) (x : clocks) (a a' : @astate V).
Hypotheses (Ha : sim k (Pool r ps) a) (Ha' : sim k (Pool r' (<[u := p']> ps)) a') (Hp : ps !! u = Some p).
Hypotheses (Hle : g_head r <= g_head r') (Hx : clock_inv r ps x).

Lemma look_before v c t : ps !! v = Some (TryPopIncrement c t) -> g_head r' = c_ticket c -> g_head r = c_ticket c.
Proof. intros Hv E. destruct (sim_local _ _ _ Ha v _ Hv) as (_ & ? & _). simpl in *. lia. Qed.

(** The slot of a ticket that nobody has. *)
Lemma clock_free i :
  k_stale x i = false -> (forall v q h, ps !! v = Some q -> owns q = Some h -> nslot h <> i) ->
  k_token x i (at_value i) = k_count x (at_value i).
Proof. apply (ck_free _ _ _ Hx). Qed.

Lemma clock_kept e i :
  match e with re_slot j ev => keeps ev = true \/ j <> i | re_access _ => False | _ => True end ->
  k_stale (tick_clocks u e p' x) i = false ->
  (forall v q h, ps !! v = Some q -> owns q = Some h -> nslot h <> i) ->
  (k_count x (at_value i) <= k_token (tick_clocks u e p' x) i (at_value i))%nat.
Proof.
  intros He Hst Hn. pose proof (ck_sane _ _ _ Hx) as Hs.
  rewrite <- (clock_free i); [by apply token_tick| |done].
  eapply gr_stale; [|exact Hst]. apply grows_tick; [done|]. intros l ->. done.
Qed.

Lemma clock_quiet e :
  owns p' = owns p -> (forall c t, p' <> TryPopIncrement c t) ->
  match e with re_slot _ ev => keeps ev = true | re_access _ => False | _ => True end ->
  clock_inv r' (<[u := p']> ps) (tick_clocks u e p' x).
Proof.
  intros Ho Hne He. assert (grows x (tick_clocks u e p' x)) as Hg.
  { apply grows_tick; [apply Hx|]. intros l ->. done. }
  eapply clock_grow; [exact Hx|exact Hp|done|exact look_before| | |].
  - intros g Hg' Hst. eapply grows_ordered; [done|]. eapply (ck_owner _ _ _ Hx); [done|congruence|by eapply gr_stale].
  - intros c t E. by destruct (Hne c t).
  - intros i Hst Hn. apply clock_kept; [destruct e; auto|done|].
    eapply free_before; [done|done|]. intros g Eg. left. congruence.
Qed.

Lemma clock_arrive g e :
  owns p = None -> owns p' = Some g -> arrives p' = true -> keeps e = true ->
  clock_inv r' (<[u := p']> ps) (tick_clocks u (re_slot (nslot g) e) p' x).
Proof.
  intros Ho Ho' Harr Hkeep. assert (grows x (tick_clocks u (re_slot (nslot g) e) p' x)) as Hg by (apply grows_tick; [apply Hx|done]).
  eapply clock_grow; [exact Hx|exact Hp|done|exact look_before| | |].
  - intros h Eh Hst. assert (h = g) as -> by congruence. destruct (acquires e) eqn:Ea.
    + apply learn_ordered; [apply Hx|done|]. apply clock_free; [by eapply gr_stale|]. intros v q h Hv Hh En.
      assert (v <> u) as Hvu by congruence. destruct Hvu.
      eapply (owns_once (Pool r' (<[u := p']> ps)) a'); [done| | |exact Hh|exact Ho'|done]; simpl.
      * rewrite list_lookup_insert_ne by congruence. done.
      * by eapply insert_lookup_self.
    + simpl in Hst. rewrite Harr, Ea in Hst. simpl in Hst. by rewrite fn_lookup_insert in Hst.
  - intros c t ->. done.
  - intros i Hst Hn. apply clock_kept; [by left|done|]. eapply free_before; [done|done|]. congruence.
Qed.

Lemma clock_look c t :
  owns p = None -> p' = TryPopIncrement c t ->
  clock_inv r' (<[u := p']> ps) (tick_clocks u (re_slot (nslot (c_ticket c)) (ev_load acquire)) p' x).
Proof.
  intros Ho Ep. set (e := re_slot (nslot (c_ticket c)) (ev_load acquire)).
  assert (grows x (tick_clocks u e p' x)) as Hg by (apply grows_tick; [apply Hx|done]).
  eapply clock_grow; [exact Hx|exact Hp|done|exact look_before|by rewrite Ep| |].
  - intros c' t' Ec Hhead Hst. rewrite Ep in Ec. injection Ec as <- <-.
    apply learn_ordered; [apply Hx|done|]. apply clock_free; [by eapply gr_stale|]. intros v q h Hv Hh.
    assert (v <> u) as Hvu by congruence.
    eapply (look_alone (Pool r' (<[u := p']> ps)) a' v u); [done| |done| |done]; simpl.
    + by rewrite list_lookup_insert_ne by congruence.
    + rewrite <- Ep. by eapply insert_lookup_self.
  - intros i Hst Hn. apply clock_kept; [by left|done|]. eapply free_before; [done|done|]. congruence.
Qed.

Lemma clock_take c t :
  p = TryPopIncrement c t -> g_head r = c_ticket c -> owns p' = Some (c_ticket c) ->
  clock_inv r' (<[u := p']> ps) x.
Proof.
  intros Ep Hhead Ho'. pose proof (ck_sane _ _ _ Hx) as Hs.
  eapply clock_grow; [exact Hx|exact Hp|by apply grows_refl|exact look_before| | |].
  - intros g Eg Hst. assert (g = c_ticket c) as -> by congruence. eapply (ck_look _ _ _ Hx); [by rewrite <- Ep|done|done].
  - intros c' t' ->. done.
  - intros i Hst Hn. apply (clock_kept re_none); [done|done|]. eapply free_before; [done|done|]. by rewrite Ep.
Qed.

Lemma clock_release g e :
  owns p = Some g -> owns p' = None \/ owns p' = Some g -> releases e = true -> (forall c t, p' <> TryPopIncrement c t) ->
  clock_inv r' (<[u := p']> ps) (tick_clocks u (re_slot (nslot g) e) p' x).
Proof.
  intros Ho Ho' Hrel Hne. assert (grows x (tick_clocks u (re_slot (nslot g) e) p' x)) as Hg by (apply grows_tick; [apply Hx|done]).
  eapply clock_grow; [exact Hx|exact Hp|done|exact look_before| | |].
  - intros h Eh Hst. assert (h = g) as -> by (destruct Ho'; congruence).
    eapply grows_ordered; [done|]. eapply (ck_owner _ _ _ Hx); [done|done|by eapply gr_stale].
  - intros c t E. by destruct (Hne c t).
  - intros i Hst Hn. destruct (decide (nslot g = i)) as [<-|Hi].
    + rewrite <- (ck_owner _ _ _ Hx u p g Hp Ho); [by apply release_token|by eapply gr_stale].
    + apply clock_kept; [by right|done|]. eapply free_before; [done|done|]. intros h Eh. right. congruence.
Qed.

Lemma clock_turn e : turn r p p' e -> clock_inv r' (<[u := p']> ps) (tick_clocks u e p' x).
Proof.
  intros [e' Ho Hne He|g e' Ho Ho' Harr Hkeep|c t Ho E|c t E Hhead Ho'|g Ho Ho'|g e' Ho Ho' Hrel Hne].
  - destruct e' as [|i e'|l| |]; try (by apply clock_quiet). subst l.
    eapply clock_access; [exact Hx|exact Hp|done|done|exact look_before|done..].
  - by apply clock_arrive.
  - by eapply clock_look.
  - by eapply clock_take.
  - eapply clock_access; [exact Hx|exact Hp|congruence| |exact look_before| | |].
    + intros c t ->. done.
    + intros i [= ->]. eauto.
    + intros v q h Hv Hh [= E]. by eapply (owns_once (Pool r ps) a).
    + intros v c t Hv Hhead [= E]. by eapply (look_alone (Pool r ps) a u v).
  - by eapply clock_release.
Qed.
End step.
End turns.
