(* ===== verification/BqOrdered.v ===== *)
(** * Ordered accesses to the ring (evenk/bounded_queue.h)

    The theorems on the order of the accesses: to the value of a slot, where the
    threads got at the slot with an acquire, and to the closing position. *)

From stdpp Require Import gmap functions.
From S2P Require Import Prelude Conqueue Memory BqSlot BqRing BqTokens BqTickets BqRefine BqTheorems BqOrder.
Local Open Scope Z_scope.

(** ** Runs *)

(** Every load in wait that a call returns is an acquire. *)
Class AcquireSlot (S : Slot) {L : SlotLaws S} {O : SlotOrder S} : Prop :=
  as_wait u s p c s' t :
    slot_phase p = waiting -> slot_step u s p c = Some (s', inr t) -> acquires (slot_event_of s p c) = true.

#[export] Instance spin_acquire : AcquireSlot spin (O := spin_order acquire).
Proof. by intros u s [] c s' z. Qed.
#[export] Instance yield_acquire : AcquireSlot yield (O := yield_order acquire).
Proof. by intros u s [| |[]] c s' z. Qed.
#[export] Instance futex_acquire : AcquireSlot futex_slot (O := futex_order acquire).
Proof.
  intros u s p c s' z Hp Hs. unfold slot_event_of, futex_order. destruct p; try done; simpl in Hs; repeat case_match; done.
Qed.

Section runs.
Context {V : Type} {S : Slot} {L : SlotLaws S} {O : SlotOrder S} {R : ReleaseSlot S} (tr : traits) (moved_from : V -> V).

Local Abbreviation cstate := (pool (ring V * clocks) (pc V)).
Local Abbreviation exec := (clocked_exec tr moved_from atomic_counter).

Definition unclock (s : cstate) : pool (ring V) (pc V) := Pool (shared s).1 (pcs s).
Definition clock_of (s : cstate) : clocks := (shared s).2.

Definition clocked_start (k : Z) (s : cstate) : Prop := ring_start k (unclock s) /\ clock_of s = clocks_init.

Definition clocked_reached (k : Z) : cstate -> Prop :=
  reachable_in exec (clocked_start k) (fun s => within (unclock s) = true).

Lemma clocked_exec_Some s u c s' :
  exec s (u, c) = Some s' ->
  exists p p', pcs s !! u = Some p /\ ring_step tr moved_from atomic_counter u (shared s).1 p c = Some ((shared s').1, p') /\
    pcs s' = <[u := p']> (pcs s) /\ clock_of s' = tick_clocks u (ring_event_of (shared s).1 p c) p' (clock_of s) /\
    ring_exec tr moved_from atomic_counter (unclock s) (u, c) = Some (unclock s').
Proof.
  intros He. pool_step He. unfold clocked_step in Ht.
  destruct (ring_step tr moved_from atomic_counter u (shared s).1 p c) as [[r' q]|] eqn:Es; [|done].
  simpl in Ht. injection Ht as <- <-. exists p, q. split_and!; try done.
  unfold ring_exec, pool_exec, unclock. simpl. rewrite Hp. simpl. by rewrite Es.
Qed.

Lemma head_grows (r : ring V) u p c r' p' :
  ring_step tr moved_from atomic_counter u r p c = Some (r', p') -> g_head r <= g_head r'.
Proof.
  intros Hs. destruct p; destruct c; try discriminate Hs; cbn in Hs; unfold put_value, get_value, skip, in_slot in Hs;
    repeat (case_match; try discriminate Hs); simplify_option_eq; simpl; lia.
Qed.

Lemma clocked_reached_inv k s :
  clocked_reached k s ->
  reached tr moved_from k (unclock s) /\ clock_inv k (shared s).1 (pcs s) (clock_of s).
Proof.
  intros H. induction H as [s [Hs Hc] Hw|s [u c] s' Hs [Hr Hi] He Hw].
  - split; [by apply reach_init|]. rewrite Hc. destruct Hs as (_ & v0 & last0 & r & n & _ & Es).
    assert (forall v q, pcs s !! v = Some q -> q = Idle None) as Hidle.
    { intros v q Hv. apply (f_equal pcs) in Es. simpl in Es. rewrite Es in Hv. by apply lookup_replicate in Hv as [-> _]. }
    split; [apply sane_init|by intros v q g ->%Hidle|done|by intros v c t Hv%Hidle].
  - apply clocked_exec_Some in He as (p & p' & Hp & Hst & Hps & Hck & Hex).
    assert (reached tr moved_from k (unclock s')) as Hr' by by eapply reach_step.
    split; [done|]. destruct (reached_sim tr moved_from k _ Hr) as [Hk [a Ha]].
    destruct (reached_sim tr moved_from k _ Hr') as [_ [a' Ha']].
    pose proof (reachable_in_end _ _ _ _ Hr) as Hwin. apply (within_at _ u p) in Hwin as (Hhw & _ & Hn); [|done].
    unfold unclock in Ha'. rewrite Hps in Ha' |- *. rewrite Hck.
    eapply clock_turn; [done|exact Ha|exact Ha'|done|by eapply head_grows|done|]. by eapply step_turn.
Qed.

Lemma touches_owns k (s : cstate) u p i a :
  4 <= k < 32 -> sim k (unclock s) a -> pcs s !! u = Some p -> touches (shared s).1 p = Some i ->
  exists g, owns p = Some g /\ i = nslot k g.
Proof.
  intros Hk Ha Hp Ht. pose proof (rr_mask _ _ _ (sim_ring _ _ _ Ha)) as Hm. simpl in Hm.
  pose proof (sim_local _ _ _ Ha u p Hp) as Hl.
  destruct p; try done; injection Ht as <-; (eexists; split; [done|]); [by apply p_slot_ticket|by apply c_slot_ticket].
Qed.

(** C9. The accesses to the value of a slot are in order as long as the threads that
    used the slot had got at it with an acquire: a thread that is about to put or
    get the value knows of all accesses before.  This holds for the slot classes
    whose wake is a release: spin, yield and futex. *)
Theorem value_access_ordered k s u p i :
  clocked_reached k s -> pcs s !! u = Some p -> touches (shared s).1 p = Some i ->
  k_stale (clock_of s) i = false -> ordered (clock_of s) u (at_value i).
Proof.
  intros Hs Hp Ht Hst. apply clocked_reached_inv in Hs as [Hr Hi].
  destruct (reached_sim tr moved_from k _ Hr) as [Hk [a Ha]].
  destruct (touches_owns k s u p i a Hk Ha Hp Ht) as (g & Hg & ->). by eapply ck_owner.
Qed.

(** With acquire in wait no thread gets at a slot with a relaxed load. *)
Lemma step_fresh k (r : ring V) u p c r' p' i e {A : AcquireSlot S} :
  local_ok k r u p -> ring_step tr moved_from atomic_counter u r p c = Some (r', p') ->
  ring_event_of r p c = re_slot i e -> arrives p' = true -> acquires e = true.
Proof.
  intros Hl Hs He Harr.
  assert (forall j w ch again cont, in_slot u r j w ch again cont = Some (r', p') ->
    (forall w', arrives (again w') = false) -> in_call r u j w (fun ph => ph = waiting) ->
    slot_call_event r j w (InSlot ch) = re_slot i e -> acquires e = true) as Hwait.
  { intros j w ch again cont (sl & b & x & Hsl & Hst & _ & ->)%in_slot_Some Hag (sl0 & Hsl0 & _ & Hph) Ec.
    rewrite (slot_call_event_at _ _ _ _ _ Hsl) in Ec. injection Ec as -> <-. rewrite Hsl in Hsl0. injection Hsl0 as <-.
    destruct x as [w'|t]; [by rewrite Hag in Harr|]. by eapply as_wait. }
  destruct p; destruct c; try discriminate Hs; try discriminate He; cbn [ring_event_of] in He;
    try (by injection He as <- <-); try (by case_decide).
  - eapply Hwait; [exact Hs|done|apply Hl|done].
  - eapply Hwait; [exact Hs|done|apply Hl|done].
  - apply in_slot_Some in Hs as (_ & _ & x & _ & _ & _ & ->). destruct x; [done|]. by destruct a as [? []|? []| |].
  - apply in_slot_Some in Hs as (_ & _ & x & _ & _ & _ & ->). by destruct x.
Qed.

Lemma never_stale k s {A : AcquireSlot S} : clocked_reached k s -> forall i, k_stale (clock_of s) i = false.
Proof.
  intros H. induction H as [s [Hs Hc] Hw|s [u c] s' Hs IH He Hw]; [by rewrite Hc|].
  intros i. apply clocked_reached_inv in Hs as [Hr _]. destruct (reached_sim tr moved_from k _ Hr) as [Hk [a Ha]].
  apply clocked_exec_Some in He as (p & p' & Hp & Hst & Hps & -> & _).
  pose proof (step_fresh k (shared s).1 u p c (shared s').1 p') as Hf. pose proof (sim_local _ _ _ Ha u p Hp) as Hl.
  destruct (ring_event_of (shared s).1 p c) as [|j e|l| |]; simpl; try apply IH.
  assert (forall x, k_stale (at_slot u j e x) i = k_stale x i) as Ea by (intros; by destruct e as [|[]|[]|[]| |]).
  destruct (arrives p') eqn:Earr; simpl; [|by rewrite Ea]. rewrite (Hf j e A Hl Hst eq_refl eq_refl). simpl. by rewrite Ea.
Qed.

(** If the loads in wait were acquires, no access to the value of a slot would
    race with another. *)
Theorem acquire_waits_race_free {A : AcquireSlot S} k s u p i :
  clocked_reached k s -> pcs s !! u = Some p -> touches (shared s).1 p = Some i ->
  ordered (clock_of s) u (at_value i).
Proof.
  intros Hs Hp Ht. pose proof (never_stale k s Hs i) as Hst. apply clocked_reached_inv in Hs as [Hr Hi].
  destruct (reached_sim tr moved_from k _ Hr) as [Hk [a Ha]].
  destruct (touches_owns k s u p i a Hk Ha Hp Ht) as (g & Hg & ->). by eapply ck_owner.
Qed.

(** ** The closing position *)

(** The runs have no try_push, which reads it too. *)
Definition reads_last (p : pc V) : bool :=
  match p with TailLast _ _ | HeadLast _ _ _ | TryPopLast _ => true | _ => false end.

(** Between the position the closer took and the flag it sets. *)
Definition closer (p : pc V) : bool := match p with CloseLast _ | CloseStore => true | _ => false end.

Local Abbreviation aside p := (closer p = false /\ reads_last p = false).

Inductive last_turn (r : ring V) (p : pc V) (r' : ring V) (p' : pc V) : ring_event -> Prop :=
| lt_fetch last :
    p' = CloseLast last -> closed_ r' = closed_ r -> g_closes r' = Datatypes.S (g_closes r) -> last_turn r p r' p' re_none
| lt_store last : p = CloseLast last -> p' = CloseStore -> closed_ r' = closed_ r -> last_turn r p r' p' (re_access at_last)
| lt_publish :
    p = CloseStore -> aside p' -> closed_ r' = cl_closed -> last_turn r p r' p' re_store_closed
| lt_check :
    aside p' \/ (closer p' = false /\ closed_ r = cl_closed) -> closed_ r' = closed_ r ->
    last_turn r p r' p' re_load_closed
| lt_other e :
    aside p' -> closed_ r' = closed_ r ->
    match e with re_none | re_slot _ _ => True | re_access l => exists i, l = at_value i | _ => False end ->
    last_turn r p r' p' e.

Lemma aside_tests :
  (forall (p : @producer V) t, aside (tail_test p t)) /\ (forall (p : @producer V) t, aside (tail_body p t)) /\
  (forall l c t, aside (head_test l c t)) /\ (forall l c t, aside (head_body l c t)) /\
  (forall op, aside (start op)) /\ (forall a : @after_wake V, aside (after a)).
Proof.
  unfold tail_test, tail_body, head_test, head_body, status_test, head_exit.
  split_and!; intros; repeat case_match; try done; by match goal with a : after_wake |- _ => destruct a as [? []|? []| |] | op : operation |- _ => destruct op end.
Qed.

Lemma step_last_turn (r : ring V) u p c r' p' :
  closed_ r <> cl_closing -> ring_step tr moved_from atomic_counter u r p c = Some (r', p') ->
  last_turn r p r' p' (ring_event_of r p c).
Proof.
  intros Hc Hs.
  assert (forall j w ch again cont, in_slot u r j w ch again cont = Some (r', p') ->
    (forall w', aside (again w')) -> (forall t, aside (cont t)) ->
    last_turn r p r' p' (slot_call_event r j w (InSlot ch))) as Hcall.
  { intros j w ch again cont (sl & b & x & Hsl & Hst & -> & ->)%in_slot_Some Ha Hk.
    rewrite (slot_call_event_at _ _ _ _ _ Hsl). destruct x as [w'|t]; by apply lt_other. }
  destruct aside_tests as (T1 & T2 & T3 & T4 & T5 & T6).
  destruct p; destruct c; try discriminate Hs; cbn [ring_event_of].
  all: try (eapply Hcall; [exact Hs|done|by intros; (apply T1 || apply T3 || apply T6 || done)]).
  all: cbn in Hs; unfold put_value, get_value, skip in Hs; repeat (case_match; try discriminate Hs); simplify_option_eq.
  all: try (by apply lt_other; eauto).
  all: try (by apply lt_check; auto).
  all: try (apply lt_other; [|done..]; first [apply (T3 ticket_loop)|by case_match]).
  - eapply lt_fetch; [done|done|simpl; lia].
  - by eapply lt_store.
  - by apply lt_publish.
Qed.

Record last_inv (r : ring V) (ps : list (pc V)) (x : clocks) : Prop := {
  la_open u p : ps !! u = Some p -> closer p = true -> closed_ r <> cl_closed;
  la_once u v p q : ps !! u = Some p -> ps !! v = Some q -> closer p = true -> closer q = true -> u = v;
  la_flag : closed_ r = cl_closed -> k_closed x at_last = k_count x at_last;
  la_store u : ps !! u = Some CloseStore -> ordered x u at_last;
  la_reader u p : ps !! u = Some p -> reads_last p = true -> ordered x u at_last;
}.

(** A step of a thread that is not the closer, or will not be. *)
Lemma last_aside (r r' : ring V) ps u p p' x x' :
  last_inv r ps x -> ps !! u = Some p -> closer p' = false -> closed_ r' = closed_ r ->
  (reads_last p' = true -> ordered x' u at_last) ->
  (forall v, ordered x v at_last -> ordered x' v at_last) ->
  k_closed x' at_last = k_closed x at_last -> k_count x' at_last = k_count x at_last ->
  last_inv r' (<[u := p']> ps) x'.
Proof.
  intros [H1 H2 H3 H4 H5] Hp Hc Er Hr Hx E1 E2. rewrite <- Er in *.
  split; rewrite ?Er in *.
  - intros v q [(-> & -> & _)|[_ Hq]]%insert_lookup_cases Hcl; [congruence|eauto].
  - intros v w q q' [(-> & -> & _)|[_ Hq]]%insert_lookup_cases [(-> & -> & _)|[_ Hq']]%insert_lookup_cases ??; try done; try congruence.
    eauto.
  - rewrite E1, E2. auto.
  - intros v [(-> & <- & _)|[_ Hq]]%insert_lookup_cases; [done|eauto].
  - intros v q [(-> & -> & _)|[_ Hq]]%insert_lookup_cases Hq'; eauto.
Qed.

Lemma last_fetch k (r r' : ring V) ps u p last x a :
  sim k (Pool r ps) a -> last_inv r ps x -> ps !! u = Some p -> closed_ r' = closed_ r -> g_closes r = 0%nat ->
  last_inv r' (<[u := CloseLast last]> ps) x.
Proof.
  intros Ha [H1 H2 H3 H4 H5] Hp Er Hg. pose proof (sim_words _ _ _ Ha) as Hw. simpl in Hw.
  pose proof (proj2 (w_closes _ Hw) Hg) as Hlim.
  assert (forall v q, ps !! v = Some q -> closer q = false) as Hno.
  { intros v q Hv. pose proof (sim_local _ _ _ Ha v q Hv) as Hl. destruct q; try done; destruct Hl as (l & Hl & _); simpl in Hl; congruence. }
  split; rewrite ?Er.
  - intros v q _ _ Hcl. destruct (w_closed _ Hw Hcl) as (l & Hl & _). congruence.
  - intros v w q q' [(-> & -> & _)|[_ Hq]]%insert_lookup_cases [(-> & -> & _)|[_ Hq']]%insert_lookup_cases ??; try done;
      by (rewrite (Hno _ _ Hq) in * || rewrite (Hno _ _ Hq') in * ).
  - done.
  - intros v [(_ & ? & _)|[_ Hq]]%insert_lookup_cases; [done|eauto].
  - intros v q [(-> & -> & _)|[_ Hq]]%insert_lookup_cases Hq'; [done|eauto].
Qed.

Lemma last_store k (r r' : ring V) ps u last x a :
  sim k (Pool r ps) a -> last_inv r ps x -> ps !! u = Some (CloseLast last) -> closed_ r' = closed_ r ->
  last_inv r' (<[u := CloseStore]> ps) (access u at_last x).
Proof.
  intros Ha [H1 H2 H3 H4 H5] Hp Er. assert (closed_ r <> cl_closed) as Hop by by eapply H1.
  assert (forall v q, ps !! v = Some q -> closer q = true -> v = u) as Hone by (intros; by eapply H2).
  split; rewrite ?Er; try done.
  - intros v w q q' [(-> & -> & _)|[_ Hq]]%insert_lookup_cases [(-> & -> & _)|[_ Hq']]%insert_lookup_cases ??; try done; eauto.
  - intros v [(-> & _ & _)|[Hne Hq]]%insert_lookup_cases; [apply ordered_access|]. destruct Hne. by eapply Hone.
  - intros v q [(-> & -> & _)|[_ Hq]]%insert_lookup_cases Hq'; [done|].
    pose proof (sim_local _ _ _ Ha v q Hq) as Hl. destruct q; try done; simpl in Hl; destruct_and?; done.
Qed.

Lemma last_publish (r r' : ring V) ps u p' x :
  last_inv r ps x -> ps !! u = Some CloseStore -> closer p' = false -> reads_last p' = false -> sane x ->
  last_inv r' (<[u := p']> ps) (set_closed (k_thread x u) x).
Proof.
  intros [H1 H2 H3 H4 H5] Hp Hc Hr Hs.
  assert (forall v q, <[u := p']> ps !! v = Some q -> closer q = false) as Hno.
  { intros v q [(-> & -> & _)|[Hne Hq]]%insert_lookup_cases; [done|]. destruct (closer q) eqn:E; [|done].
    destruct Hne. by eapply H2. }
  split; simpl.
  - intros v q Hv. by rewrite (Hno v q Hv).
  - intros v w q q' Hv Hw. by rewrite (Hno v q Hv).
  - intros _. by apply H4.
  - intros v Hv%Hno. done.
  - intros v q [(-> & -> & _)|[_ Hq]]%insert_lookup_cases Hq'; [congruence|]. unfold ordered. simpl. eapply H5; eauto.
Qed.

Lemma last_step k (r r' : ring V) ps u p p' e x a :
  sim k (Pool r ps) a -> ps !! u = Some p -> (g_closes r' <= 1)%nat -> sane x ->
  last_turn r p r' p' e -> last_inv r ps x -> last_inv r' (<[u := p']> ps) (tick_clocks u e p' x).
Proof.
  intros Ha Hp Hg Hs Ht Hx. destruct Ht as [last E Er Eg|last E E' Er|E [Hc Hr] _|Hc Er|e [Hc Hr] Er He]; try subst p; try subst p'.
  - eapply last_fetch; [done|done|done|done|lia].
  - by eapply last_store.
  - by apply (last_publish r).
  - assert (grows x (learn u (k_closed x) x)) as Hgr by (apply grows_learn; [done|apply Hs]).
    eapply last_aside; [done|done|by destruct Hc as [[? _]|[? _]]|done| |by intros; eapply grows_ordered|done|done].
    intros Hr. destruct Hc as [[_ Hc]|[_ Hc]]; [congruence|]. unfold ordered. simpl. rewrite fn_lookup_insert.
    unfold view_join. rewrite (la_flag _ _ _ Hx Hc). pose proof (sn_thread _ Hs u at_last). lia.
  - eapply last_aside; [done|done|done|done|by rewrite Hr| | |]; destruct e as [|i e|l| |]; try done.
    + intros v. apply grows_ordered, grows_tick; done.
    + destruct He as [i ->]. intros v. by apply ordered_access_ne.
    + simpl. destruct (arrives p' && negb (acquires e)), e as [|[]|[]|[]| |]; done.
    + rewrite (gr_count x); [done|]. by apply grows_tick.
    + destruct He as [i ->]. simpl. by rewrite fn_lookup_insert_ne.
Qed.

(** is_past_last reads [last_] after the closer has written it: a thread that
    found the queue closed, and is about to read the closing position, knows of
    the write. *)
Theorem last_read_ordered k s u p :
  clocked_reached k s -> pcs s !! u = Some p -> reads_last p = true -> ordered (clock_of s) u at_last.
Proof.
  intros Hs. revert u p. cut (last_inv (shared s).1 (pcs s) (clock_of s)); [intros H u p; apply (la_reader _ _ _ H)|].
  induction Hs as [s [Hs Hc] Hw|s [u c] s' Hs IH He Hw].
  - destruct Hs as (Hk & v0 & last0 & r & n & Hr & Es). apply make_ring_inr in Hr; [|done]. rewrite Hc.
    unfold unclock in Es. injection Es as E1 E2. rewrite E1, E2, Hr.
    split; try done; by intros v; intros; repeat match goal with Hq : replicate _ _ !! _ = Some _ |- _ =>
      apply lookup_replicate in Hq as [? _] end; subst.
  - destruct (clocked_reached_inv k s Hs) as [Hr Hi]. destruct (reached_sim tr moved_from k _ Hr) as [Hk [a Ha]].
    apply clocked_exec_Some in He as (p & p' & Hp & Hst & -> & -> & _).
    unfold within in Hw. apply andb_true_iff in Hw as [_ Hw%Nat.leb_le].
    eapply last_step; [exact Ha|done|done|apply Hi| |done].
    eapply step_last_turn; [apply (sim_words _ _ _ Ha)|done].
Qed.
End runs.
