(* ===== verification/BqRaces.v ===== *)
(** * Races in the ring (evenk/bounded_queue.h)

    Runs of a ring of size 16 in which a consumer is about to take a value out of
    a slot that the producer put there, and does not know of that.  With spin,
    yield and futex slots it waited for the value, and the load in wait is relaxed; with
    synch slots it did not wait, and the store in wake is relaxed. *)

From stdpp Require Import gmap functions.
From S2P Require Import Prelude Conqueue Memory BqSlot BqRing BqTokens BqTickets.
From S2P Require Import BqRefine BqTheorems BqExamples BqOrder BqOrdered.
Local Open Scope Z_scope.

Section races.
Context {S : Slot} {O : SlotOrder S}.

Definition clocked_ring0 : ring Z :=
  match make_ring 0 0 16 with inr r => r | inl _ => Ring 0 [] cl_open 0 0 0 0 0 ∅ None 0 end.

Definition clocked_run (ls : list (nat * choice Z)) : option (pool (ring Z * clocks) (pc Z)) :=
  run (clocked_exec tr0 (fun v => v) atomic_counter)
    (Pool (clocked_ring0, clocks_init) [Idle None; Idle None]) ls.

(** Thread 0 is about to take the value of slot 0: the accesses to it that the
    thread knows of, and those there were. *)
Definition taking (s : pool (ring Z * clocks) (pc Z)) : option (nat * nat) :=
  match pcs s !! 0%nat with
  | Some (GetValue c) =>
      if decide (c_slot (shared s).1 c = 0%nat)
      then Some (k_thread (clock_of s) 0 (at_value 0), k_count (clock_of s) (at_value 0)) else None
  | _ => None
  end.

(** The access of thread 0 races with one before. *)
Definition races (ls : list (nat * choice Z)) : Prop :=
  exists s c, clocked_run ls = Some s /\ pcs s !! 0%nat = Some (GetValue c) /\ c_slot (shared s).1 c = 0%nat /\
    ~ ordered (clock_of s) 0 (at_value 0).

Lemma taking_races ls n m : clocked_run ls ≫= taking = Some (n, m) -> n <> m -> races ls.
Proof.
  destruct (clocked_run ls) as [s|] eqn:E; simpl; [|done]. unfold taking.
  destruct (pcs s !! 0%nat) as [[]|] eqn:Ep; try done. case_decide as Ec; [|done]. intros [= Hn Hm] Hne.
  exists s, c. split_and!; [done..|]. unfold ordered. congruence.
Qed.
End races.

Definition inside {S : Slot} (u : nat) (cs : list slot_choice) : list (nat * choice Z) :=
  (fun c => (u, InSlot c)) <$> cs.

(** Thread 1 pushes; [wake] are the steps in the slot. *)
Definition pushes {S : Slot} (wake : list slot_choice) : list (nat * choice Z) :=
  [(1%nat, Call (op_wait_push false by_move 7)); (1%nat, Go); (1%nat, Go); (1%nat, Assign None)] ++
  inside 1 wake.

(** Thread 0 comes before the value, and waits. *)
Definition comes_first {S : Slot} : list (nat * choice Z) :=
  [(0%nat, Call (op_wait_pop false)); (0%nat, Go); (0%nat, Go); (0%nat, Go)].

Definition spin_race : list (nat * choice (S := spin) Z) :=
  comes_first (S := spin) ++ pushes (S := spin) [tt] ++ inside (S := spin) 0 [tt].

Definition yield_race : list (nat * choice (S := yield) Z) :=
  comes_first (S := yield) ++ pushes (S := yield) [tt] ++ inside (S := yield) 0 [tt; tt].

Definition futex_race : list (nat * choice (S := futex_slot) Z) :=
  comes_first (S := futex_slot) ++ inside (S := futex_slot) 0 [FutexSlot.Go; FutexSlot.Go] ++
  pushes (S := futex_slot) [FutexSlot.Go; FutexSlot.Woken [0%nat]] ++
  inside (S := futex_slot) 0 [FutexSlot.Go; FutexSlot.Go].

(** Thread 0 comes after the value, and loads the token once. *)
Definition synch_race : list (nat * choice (S := synch_slot) Z) :=
  pushes (S := synch_slot) [SynchSlot.Go; SynchSlot.Go; SynchSlot.Go; SynchSlot.Go] ++
  [(0%nat, Call (op_wait_pop false)); (0%nat, Go); (0%nat, Go)].

(** C34. With the memory orders of the source the accesses to the value of a slot
    race, whatever the slot class. *)
Theorem ring_value_races :
  races (O := spin_order relaxed) spin_race /\
  races (O := yield_order relaxed) yield_race /\
  races (O := futex_order relaxed) futex_race /\
  races (O := synch_order) synch_race.
Proof.
  split_and!.
  - by apply (taking_races (O := spin_order relaxed) _ 0 1).
  - by apply (taking_races (O := yield_order relaxed) _ 0 1).
  - by apply (taking_races (O := futex_order relaxed) _ 0 1).
  - by apply (taking_races (O := synch_order) _ 0 1).
Qed.

(** ** Runs in order *)

Section ordered_runs.
Context (O : SlotOrder spin).

Definition clocked_start0 : pool (ring Z * clocks) (pc Z) := Pool (ring0, clocks_init) [Idle None; Idle None].

Definition clocked_after (ls : list (nat * choice Z)) : pool (ring Z * clocks) (pc Z) :=
  default clocked_start0
    (run_in (clocked_exec tr0 (fun v => v) atomic_counter) (fun s => within (unclock s)) clocked_start0 ls).

Lemma clocked_after_reached ls :
  run_in (clocked_exec tr0 (fun v => v) atomic_counter) (fun s => within (unclock s)) clocked_start0 ls
    = Some (clocked_after ls) ->
  clocked_reached tr0 (fun v => v) 4 (clocked_after ls).
Proof.
  intros H. eapply run_in_reachable; [| |exact H]; [done|]. split; [apply (ring_start0 2)|reflexivity].
Qed.
End ordered_runs.

(** A pop that finds the value, and one that waits for it. *)
Definition spin_pop : list (nat * choice (S := spin) Z) :=
  pushes (S := spin) [tt] ++ [(0%nat, Call (op_wait_pop false)); (0%nat, Go); (0%nat, Go)].

(** Thread 1 closes the queue, and thread 0 finds it closed. *)
Definition spin_close : list (nat * choice (S := spin) Z) :=
  (1%nat, Call op_close) :: replicate 4 (1%nat, Go) ++
  (0%nat, Call (op_wait_pop false)) :: replicate 3 (0%nat, Go).

Definition consumer0 : consumer := Consumer no_bo 0 0.

Lemma value_access_ordered_witness :
  ordered (clock_of (clocked_after (spin_order relaxed) spin_pop)) 0 (at_value 0).
Proof.
  apply (value_access_ordered (O := spin_order relaxed) tr0 (fun v => v) 4 _ 0 (GetValue consumer0));
    [apply clocked_after_reached|..]; vm_compute; reflexivity.
Defined.

Lemma acquire_waits_race_free_witness :
  ordered (clock_of (clocked_after (spin_order acquire) spin_race)) 0 (at_value 0).
Proof.
  apply (acquire_waits_race_free (O := spin_order acquire) (A := spin_acquire) tr0 (fun v => v) 4 _ 0 (GetValue consumer0));
    [apply clocked_after_reached|..]; vm_compute; reflexivity.
Defined.

Lemma last_read_ordered_witness :
  ordered (clock_of (clocked_after (spin_order relaxed) spin_close)) 0 at_last.
Proof.
  apply (last_read_ordered (O := spin_order relaxed) tr0 (fun v => v) 4 _ 0 (HeadLast status_loop consumer0 0));
    [apply clocked_after_reached|..]; vm_compute; reflexivity.
Defined.
