(* ===== verification/Lock.v ===== *)
(** * What a lock promises

    The interface between the lock classes (spinlock.h, synch.h) and their
    clients.  A lock is shared state and a step function for the calls of its
    methods; [LockLaws] states what a client may rely on: an invariant over the
    state and over how every thread stands with the lock, kept by every call
    and every step, that excludes two holders.  The clients' theorems are
    proved against this interface. *)

From stdpp Require Import prelude functions.
From S2P Require Import Prelude.
Local Open Scope Z_scope.

Inductive lock_op : Type :=
| op_lock | op_try_lock | op_unlock
| op_lock_shared | op_try_lock_shared | op_unlock_shared.

#[global] Instance lock_op_eq_dec : EqDecision lock_op.
Proof. solve_decision. Defined.

Class Lock : Type := {
  lock_state : Type;
  lock_init : lock_state;
  lock_pc : Type;
  lock_choice : Type;
  (** the start of a method; [None] where the class has no such method *)
  lock_enter : lock_op -> option lock_pc;
  (** one step of a method run by the given thread; [inr b] returns [b], true
      for methods without a result *)
  lock_step : nat -> lock_state -> lock_pc -> lock_choice ->
              option (lock_state * (lock_pc + bool));
}.

(** How a thread stands with the lock. *)
Inductive standing {L : Lock} : Type :=
| l_out
| l_in                                   (* holds it *)
| l_shared                               (* holds it shared *)
| l_busy (op : lock_op) (p : lock_pc).   (* inside a method *)

Arguments standing : clear implicits.

Section standing.
Context {L : Lock}.

(** Which method a thread may call: locks are not recursive, and only a holder
    unlocks. *)
Definition callable (st : standing L) (op : lock_op) : bool :=
  match st, op with
  | l_out, (op_lock | op_try_lock | op_lock_shared | op_try_lock_shared) => true
  | l_in, op_unlock => true
  | l_shared, op_unlock_shared => true
  | _, _ => false
  end.

(** How the thread stands after a method has returned [b]. *)
Definition returned (op : lock_op) (b : bool) : standing L :=
  match op with
  | op_lock => l_in
  | op_try_lock => if b then l_in else l_out
  | op_lock_shared => l_shared
  | op_try_lock_shared => if b then l_shared else l_out
  | op_unlock | op_unlock_shared => l_out
  end.

Definition resumed (op : lock_op) (r : lock_pc + bool) : standing L :=
  match r with inl p => l_busy op p | inr b => returned op b end.
End standing.

Class LockLaws (L : Lock) : Type := {
  (** the calls the laws cover: which thread, which method *)
  lock_may : nat -> lock_op -> bool;
  (** the states of a method the laws cover *)
  lock_window : lock_state -> lock_pc -> bool;
  lock_inv : lock_state -> (nat -> standing L) -> Prop;
  lock_inv_init : lock_inv lock_init (fun _ => l_out);
  lock_inv_call s f u op p :
    lock_inv s f -> callable (f u) op = true -> lock_may u op = true ->
    lock_enter op = Some p -> lock_inv s (<[u := l_busy op p]> f);
  lock_inv_step s f u op p c s' r :
    lock_inv s f -> f u = l_busy op p -> lock_window s p = true ->
    lock_step u s p c = Some (s', r) -> lock_inv s' (<[u := resumed op r]> f);
  lock_excludes s f u v :
    lock_inv s f -> f u = l_in -> f v = l_in \/ f v = l_shared -> u = v;
}.

(** ** Threads that only use the lock *)

Section client.
Context (L : Lock).

Inductive client_choice : Type :=
| Call (op : lock_op)
| InLock (c : lock_choice).

Definition client_step (u : nat) (s : lock_state) (st : standing L) (c : client_choice) :
    option (lock_state * standing L) :=
  match st, c with
  | l_busy op p, InLock c => x ← lock_step u s p c; Some (x.1, resumed op x.2)
  | _, Call op =>
      if callable st op then p ← lock_enter op; Some (s, l_busy op p) else None
  | _, _ => None
  end.

(** A thread calls a method, or takes a step inside one. *)
Lemma client_step_cases u s st c s' st' :
  client_step u s st c = Some (s', st') ->
  (exists op p, callable st op = true /\ lock_enter op = Some p /\ s' = s /\ st' = l_busy op p) \/
  (exists op p c' r, st = l_busy op p /\ lock_step u s p c' = Some (s', r) /\ st' = resumed op r).
Proof.
  unfold client_step. intros H.
  destruct st as [| | |op p], c as [op'|c]; try done.
  1-3: left; destruct (callable _ op') eqn:Ec; [|done];
    destruct (lock_enter op') as [q|] eqn:Eq; simpl in H; [|done];
    injection H as <- <-; by exists op', q.
  right. destruct (lock_step u s p c) as [[s1 r]|] eqn:Es; simpl in H; [|done].
  injection H as <- <-. by exists op, p, c, r.
Qed.

Definition client_exec : pool lock_state (standing L) -> nat * client_choice ->
    option (pool lock_state (standing L)) :=
  pool_exec client_step.

Definition client_start (s : pool lock_state (standing L)) : Prop :=
  exists n, s = Pool lock_init (replicate n l_out).

(** How thread [u] of the pool stands; threads that do not exist are out. *)
Definition stand (ps : list (standing L)) (u : nat) : standing L := default l_out (ps !! u).

Lemma stand_insert ps u st v :
  (u < length ps)%nat -> stand (<[u := st]> ps) v = (<[u := st]> (stand ps)) v.
Proof.
  intros Hu. unfold stand. destruct (decide (u = v)) as [<-|Hne].
  - by rewrite list_lookup_insert_eq, fn_lookup_insert.
  - by rewrite list_lookup_insert_ne, fn_lookup_insert_ne.
Qed.

(** Mutual exclusion in every run. *)
Definition excludes : Prop :=
  forall s u v, reachable client_exec client_start s ->
    pcs s !! u = Some l_in -> pcs s !! v = Some l_in \/ pcs s !! v = Some l_shared -> u = v.

Context `{LL : !LockLaws L}.

(** The runs the laws cover. *)
Definition covered (s : pool lock_state (standing L)) : bool :=
  forallb (fun u => match pcs s !! u with
                    | Some (l_busy op p) => lock_may u op && lock_window (shared s) p
                    | _ => true
                    end) (seq 0 (length (pcs s))).

Lemma covered_at s u op p :
  covered s = true -> pcs s !! u = Some (l_busy op p) ->
  lock_may u op = true /\ lock_window (shared s) p = true.
Proof.
  intros H Hp. unfold covered in H. rewrite forallb_forall in H.
  specialize (H u). rewrite Hp in H. apply andb_prop, H, in_seq.
  apply lookup_lt_Some in Hp. lia.
Qed.

(** The invariant, up to pointwise equality of standings. *)
Definition client_inv (s : pool lock_state (standing L)) : Prop :=
  exists f, (forall u, f u = stand (pcs s) u) /\ lock_inv (shared s) f.

Lemma client_invariant :
  invariant_in client_exec client_start (fun s => covered s = true) client_inv.
Proof.
  split.
  - intros s [n ->] _. exists (fun _ => l_out). split; [|apply lock_inv_init].
    intros u. unfold stand. simpl. destruct (replicate n l_out !! u) eqn:E; [|done].
    by apply lookup_replicate in E as [-> _].
  - intros s [u c] s' Hw (f & Hf & Hi) He Hw'. pool_step He.
    assert (f u = p) as Hu by (rewrite Hf; unfold stand; by rewrite Hp).
    assert (u < length (pcs s))%nat as Hlen by by eapply lookup_lt_Some.
    exists (<[u := p']> f). split.
    { intros v. simpl. rewrite stand_insert by done.
      destruct (decide (u = v)) as [<-|]; [by rewrite !fn_lookup_insert|].
      by rewrite !fn_lookup_insert_ne. }
    simpl. apply client_step_cases in Ht as [(op & q & Hc & Hq & -> & ->)|(op & q & c' & r & -> & Hs & ->)].
    + eapply lock_inv_call; [done|by rewrite Hu| |done].
      eapply (covered_at (Pool (shared s) (<[u := l_busy op q]> (pcs s))) u); [done|].
      simpl. by apply list_lookup_insert_eq.
    + eapply lock_inv_step; eauto. by eapply covered_at.
Qed.

(** Mutual exclusion in every run the laws cover. *)
Lemma client_excludes s u v :
  reachable_in client_exec client_start (fun s => covered s = true) s ->
  pcs s !! u = Some l_in -> pcs s !! v = Some l_in \/ pcs s !! v = Some l_shared -> u = v.
Proof.
  intros Hs Hu Hv.
  destruct (invariant_in_reachable _ _ _ _ _ client_invariant Hs) as (f & Hf & Hi).
  apply (lock_excludes _ _ _ _ Hi); rewrite Hf; unfold stand; [by rewrite Hu|].
  by destruct Hv as [-> | ->]; auto.
Qed.

Lemma total_excludes :
  (forall u op, lock_may u op = true) -> (forall s p, lock_window s p = true) -> excludes.
Proof.
  intros Hm Hw s u v Hs. apply client_excludes. eapply reachable_in_weaken; [|exact Hs].
  intros t _. apply forallb_forall. intros w _. destruct (pcs t !! w) as [[]|]; try done.
  by rewrite Hm, Hw.
Qed.
End client.

(** ** Locks whose state tells whether they are held *)

Section flag.
Context {L : Lock} (holding : standing L -> bool).

Record flag_inv (b : bool) (f : nat -> standing L) : Prop := {
  fl_once u v : holding (f u) = true -> holding (f v) = true -> u = v;
  fl_flag : b = true <-> exists u, holding (f u) = true;
}.

Lemma flag_inv_update b b' f u st :
  flag_inv b f ->
  (b' = b /\ holding st = holding (f u)) \/
  (b = false /\ b' = true /\ holding st = true) \/
  (b' = false /\ holding (f u) = true /\ holding st = false) ->
  flag_inv b' (<[u := st]> f).
Proof.
  intros [H1 H2] Hc.
  assert (forall v, holding ((<[u := st]> f) v)
                    = if decide (v = u) then holding st else holding (f v)) as Hh.
  { intros v. case_decide; [subst; by rewrite fn_lookup_insert|by rewrite fn_lookup_insert_ne]. }
  destruct Hc as [[-> Hs]|[(-> & -> & Hs)|(-> & Hu & Hs)]].
  - assert (forall v, holding ((<[u := st]> f) v) = holding (f v)) as Hsame.
    { intros v. rewrite Hh. case_decide; by subst. }
    split; [intros v w; rewrite !Hsame; apply H1|]. rewrite H2. by setoid_rewrite Hsame.
  - assert (forall v, holding (f v) = false) as Hno.
    { intros v. apply not_true_is_false. intros E. by assert (false = true) by (apply H2; eauto). }
    split.
    + intros v w. rewrite !Hh. repeat case_decide; rewrite ?Hno; congruence.
    + split; [intros _; exists u; rewrite Hh; by rewrite decide_True|done].
  - split.
    + intros v w. rewrite !Hh. repeat case_decide; rewrite ?Hs; try congruence. apply H1.
    + split; [done|]. intros [v Hv]. rewrite Hh in Hv. case_decide; [congruence|].
      by rewrite (H1 v u Hv Hu) in *.
Qed.

Lemma flag_inv_init : holding l_out = false -> flag_inv false (fun _ => l_out).
Proof. intros H. split; [congruence|]. split; [done|]. intros [u E]. congruence. Qed.
End flag.

(** ** Components that use a lock

    What a component with a lock among its members promises: a step of a thread
    leaves the lock alone, calls a method the thread may call, or takes a step
    of the method the thread is in. *)

Class LockUser {L : Lock} {Sh Pc Ch : Type} (tstep : nat -> Sh -> Pc -> Ch -> option (Sh * Pc)) :
    Type := {
  lock_of : Sh -> lock_state;
  standing_of : Pc -> standing L;
  lock_use u s p c s' p' :
    tstep u s p c = Some (s', p') ->
    (lock_of s' = lock_of s /\ standing_of p' = standing_of p) \/
    (lock_of s' = lock_of s /\ exists op r, callable (standing_of p) op = true /\
       lock_enter op = Some r /\ standing_of p' = l_busy op r) \/
    (exists op r c' x, standing_of p = l_busy op r /\
       lock_step u (lock_of s) r c' = Some (lock_of s', x) /\ standing_of p' = resumed op x);
}.

Section user.
Context {L : Lock} {LL : LockLaws L} {Sh Pc Ch : Type}.
Context (tstep : nat -> Sh -> Pc -> Ch -> option (Sh * Pc)) {U : LockUser tstep}.

Definition user_stand (ps : list Pc) (u : nat) : standing L :=
  from_option standing_of l_out (ps !! u).

(** The runs the laws of the lock cover. *)
Definition user_covered (s : pool Sh Pc) : bool :=
  forallb (fun u => match user_stand (pcs s) u with
                    | l_busy op p => lock_may u op && lock_window (lock_of (shared s)) p
                    | _ => true
                    end) (seq 0 (length (pcs s))).

Lemma user_covered_at s u p op r :
  user_covered s = true -> pcs s !! u = Some p -> standing_of p = l_busy op r ->
  lock_may u op = true /\ lock_window (lock_of (shared s)) r = true.
Proof.
  intros H Hp E. unfold user_covered in H. rewrite forallb_forall in H.
  specialize (H u). unfold user_stand in H. rewrite Hp in H. simpl in H. rewrite E in H.
  apply andb_prop, H, in_seq. apply lookup_lt_Some in Hp. lia.
Qed.

(** The invariant of the lock, up to pointwise equality of standings. *)
Definition user_ok (s : pool Sh Pc) : Prop :=
  exists f, (forall u, f u = user_stand (pcs s) u) /\ lock_inv (lock_of (shared s)) f.

Lemma user_ok_start s :
  lock_of (shared s) = lock_init -> (forall u p, pcs s !! u = Some p -> standing_of p = l_out) ->
  user_ok s.
Proof.
  intros El Hout. exists (fun _ => l_out). rewrite El. split; [|apply lock_inv_init].
  intros u. unfold user_stand. destruct (pcs s !! u) as [p|] eqn:E; [|done]. simpl. by rewrite (Hout u p E).
Qed.

Lemma user_stand_insert ps u p v :
  (u < length ps)%nat -> user_stand (<[u := p]> ps) v = (<[u := standing_of p]> (user_stand ps)) v.
Proof.
  intros Hu. unfold user_stand. destruct (decide (u = v)) as [<-|Hne].
  - by rewrite list_lookup_insert_eq, fn_lookup_insert.
  - by rewrite list_lookup_insert_ne, fn_lookup_insert_ne.
Qed.

Lemma user_ok_move s ps u p s' p' c :
  user_ok (Pool s ps) -> ps !! u = Some p -> tstep u s p c = Some (s', p') ->
  (forall op r, standing_of p = l_busy op r -> lock_window (lock_of s) r = true) ->
  (forall op r, standing_of p' = l_busy op r -> lock_may u op = true) ->
  user_ok (Pool s' (<[u := p']> ps)).
Proof.
  intros (f & Hf & Hi) Hp Hs Hw Hm. simpl in *.
  assert (u < length ps)%nat as Hlen by by eapply lookup_lt_Some.
  assert (f u = standing_of p) as Hu by (rewrite Hf; unfold user_stand; by rewrite Hp).
  assert (forall g, (forall v, g v = (<[u := standing_of p']> f) v) ->
    forall v, g v = user_stand (<[u := p']> ps) v) as Hst.
  { intros g Hg v. rewrite user_stand_insert by done. rewrite Hg.
    destruct (decide (u = v)) as [<-|]; [by rewrite !fn_lookup_insert|by rewrite !fn_lookup_insert_ne]. }
  destruct (lock_use u s p c s' p' Hs) as
    [[El E]|[(El & op & r & Hc & Hr & E)|(op & r & c' & x & E0 & Hx & E)]].
  - exists f. split; [|simpl; by rewrite El]. apply Hst. intros v.
    destruct (decide (u = v)) as [<-|]; [by rewrite fn_lookup_insert, E|by rewrite fn_lookup_insert_ne].
  - exists (<[u := standing_of p']> f). split; [by apply Hst|]. simpl. rewrite El, E.
    apply lock_inv_call; rewrite ?Hu; try done. by eapply Hm.
  - exists (<[u := standing_of p']> f). split; [by apply Hst|]. simpl. rewrite E.
    eapply lock_inv_step; [done|by rewrite Hu|by eapply Hw|done].
Qed.

Lemma user_ok_step s ps u p s' p' c :
  user_ok (Pool s ps) -> ps !! u = Some p -> tstep u s p c = Some (s', p') ->
  user_covered (Pool s ps) = true -> user_covered (Pool s' (<[u := p']> ps)) = true ->
  user_ok (Pool s' (<[u := p']> ps)).
Proof.
  intros H Hp Hs Hw Hw'. eapply user_ok_move; [done..| |]; intros op r E.
  - by eapply (user_covered_at (Pool s ps) u p).
  - eapply (user_covered_at _ u p'); [exact Hw'|by eapply insert_lookup_self|done].
Qed.

(** Two threads that hold the lock are the same. *)
Lemma user_once s u v p p' :
  user_ok s -> pcs s !! u = Some p -> pcs s !! v = Some p' ->
  standing_of p = l_in -> standing_of p' = l_in \/ standing_of p' = l_shared -> u = v.
Proof.
  intros (f & Hf & Hi) Hu Hv E E'. apply (lock_excludes _ _ _ _ Hi); rewrite Hf; unfold user_stand.
  - by rewrite Hu.
  - by rewrite Hv.
Qed.

(** Users that call only methods whose windows nobody can leave: all runs of at
    most [n] threads are covered. *)
Section total.
Context (n : nat) (ops : lock_op -> bool).
Context (Hmay : forall u op, (u < n)%nat -> lock_may u op = true).
Context (Hwin : forall s f u op p, lock_inv s f -> f u = l_busy op p -> ops op = true -> lock_window s p = true).
Context (Hops : forall p op r, standing_of p = l_busy op r -> ops op = true).

Lemma user_ok_window s u p op r :
  user_ok s -> pcs s !! u = Some p -> standing_of p = l_busy op r -> lock_window (lock_of (shared s)) r = true.
Proof.
  intros (f & Hf & Hi) Hp E. eapply (Hwin _ f u op); [done| |by eapply Hops].
  rewrite Hf. unfold user_stand. by rewrite Hp.
Qed.

Lemma user_ok_covered s : user_ok s -> (length (pcs s) <= n)%nat -> user_covered s = true.
Proof.
  intros H Hn. apply forallb_forall. intros u [_ Hu]%in_seq. unfold user_stand.
  destruct (pcs s !! u) as [p|] eqn:Hp; [|done]. simpl. destruct (standing_of p) as [| | |op r] eqn:E; try done.
  rewrite Hmay by lia. by eapply user_ok_window.
Qed.

Lemma user_total_covered init s :
  (forall s, init s -> user_ok s /\ (length (pcs s) <= n)%nat) ->
  reachable (pool_exec tstep) init s ->
  reachable_in (pool_exec tstep) init (fun s => user_covered s = true) s.
Proof.
  intros Hinit Hs. cut (user_ok s /\ (length (pcs s) <= n)%nat /\
    reachable_in (pool_exec tstep) init (fun s => user_covered s = true) s); [by intros (_ & _ & H)|].
  induction Hs as [s Hi _|s [u c] s' Hs (Hok & Hn & IH) He _].
  - destruct (Hinit s Hi) as [Hok Hn]. split_and!; [done..|]. apply reach_init; [done|by apply user_ok_covered].
  - assert (length (pcs s') <= n)%nat as Hn' by by rewrite (pool_exec_length _ _ _ _ He).
    assert (user_ok s') as Hok'; [|split_and!; [done..|]; eapply reach_step; [done..|by apply user_ok_covered]].
    destruct s as [sh ps]. pool_step He. eapply user_ok_move; [done..| |].
    + intros op r E. by eapply (user_ok_window (Pool sh ps)).
    + intros op r E. apply Hmay. apply lookup_lt_Some in Hp. simpl in *. lia.
Qed.
End total.
End user.
