(* ===== verification/Spinlock.v ===== *)
(** * Spin locks (evenk/spinlock.h: spin_lock, tatas_lock, ticket_lock)

    Each lock class as an instance of the lock interface, one atomic access per
    step.  The ticket lock carries two history counters that no step reads,
    [g_head] and [g_tail]: the 16-bit words without the wrap-around. *)

From stdpp Require Import prelude functions.
From S2P Require Import Prelude Lock.
Local Open Scope Z_scope.

(** ** spin_lock *)

Module SpinLock.
Inductive pc : Type :=
| LockTestAndSet
| LockBackoff
| TryTestAndSet
| UnlockClear.

Definition enter (op : lock_op) : option pc :=
  match op with
  | op_lock => Some LockTestAndSet
  | op_try_lock => Some TryTestAndSet
  | op_unlock => Some UnlockClear
  | _ => None
  end.

(** The result of the back-off is ignored. *)
Definition step (u : nat) (lock_ : bool) (p : pc) (_ : unit) : option (bool * (pc + bool)) :=
  match p with
  | LockTestAndSet => Some (true, if lock_ then inl LockBackoff else inr true)
  | LockBackoff => Some (lock_, inl LockTestAndSet)
  | TryTestAndSet => Some (true, inr (negb lock_))
  | UnlockClear => Some (false, inr true)
  end.
End SpinLock.

Definition spin_lock : Lock := {|
  lock_state := bool; lock_init := false;
  lock_pc := SpinLock.pc; lock_choice := unit;
  lock_enter := SpinLock.enter; lock_step := SpinLock.step |}.

(** ** tatas_lock *)

Module TatasLock.
Inductive pc : Type :=
| LockExchange
| LockBackoff
| LockLoad
| TryExchange
| UnlockStore.

Definition enter (op : lock_op) : option pc :=
  match op with
  | op_lock => Some LockExchange
  | op_try_lock => Some TryExchange
  | op_unlock => Some UnlockStore
  | _ => None
  end.

Definition step (u : nat) (lock_ : bool) (p : pc) (_ : unit) : option (bool * (pc + bool)) :=
  match p with
  | LockExchange => Some (true, if lock_ then inl LockBackoff else inr true)
  | LockBackoff => Some (lock_, inl LockLoad)
  | LockLoad => Some (lock_, inl (if lock_ then LockBackoff else LockExchange))
  | TryExchange => Some (true, inr (negb lock_))
  | UnlockStore => Some (false, inr true)
  end.
End TatasLock.

Definition tatas_lock : Lock := {|
  lock_state := bool; lock_init := false;
  lock_pc := TatasLock.pc; lock_choice := unit;
  lock_enter := TatasLock.enter; lock_step := TatasLock.step |}.

(** A thread holds these locks until its unlock has taken its only step. *)
Definition holding {L : Lock} (st : standing L) : bool :=
  match st with l_in | l_busy op_unlock _ => true | _ => false end.

(** The invariant of a lock that is one flag: the flag is set while a thread
    holds the lock, methods are inside a state of their own, and nobody holds it
    shared. *)
Definition flag_lock_inv {L : Lock} (good : lock_op -> lock_pc -> bool)
    (b : bool) (f : nat -> standing L) : Prop :=
  flag_inv holding b f /\
  forall u, match f u with l_shared => False | l_busy op p => good op p = true | _ => True end.

Definition spin_good (op : lock_op) (p : SpinLock.pc) : bool :=
  match op, p with
  | op_lock, (SpinLock.LockTestAndSet | SpinLock.LockBackoff) => true
  | op_try_lock, SpinLock.TryTestAndSet | op_unlock, SpinLock.UnlockClear => true
  | _, _ => false
  end.

Definition tatas_good (op : lock_op) (p : TatasLock.pc) : bool :=
  match op, p with
  | op_lock, (TatasLock.LockExchange | TatasLock.LockBackoff | TatasLock.LockLoad) => true
  | op_try_lock, TatasLock.TryExchange | op_unlock, TatasLock.UnlockStore => true
  | _, _ => false
  end.

Section flag_locks.
Context {L : Lock} (good : lock_op -> lock_pc -> bool).

Lemma flag_lock_inv_update b b' f u st :
  flag_lock_inv good b f ->
  match st with l_shared => False | l_busy op p => good op p = true | _ => True end ->
  (b' = b /\ holding st = holding (f u)) \/
  (b = false /\ b' = true /\ holding st = true) \/
  (b' = false /\ holding (f u) = true /\ holding st = false) ->
  flag_lock_inv good b' (<[u := st]> f).
Proof.
  intros [H1 H2] Hst Hc. split; [by eapply flag_inv_update|]. intros v.
  fn_split; [done|]. apply H2.
Qed.

Lemma flag_lock_excludes b f u v :
  flag_lock_inv good b f -> f u = l_in -> f v = l_in \/ f v = l_shared -> u = v.
Proof.
  intros [[H1 _] H2] Hu Hv. specialize (H2 v). destruct Hv as [Hv|Hv]; rewrite Hv in H2; [|done].
  apply H1; by rewrite ?Hu, ?Hv.
Qed.

Lemma flag_lock_init : flag_lock_inv good false (fun _ => l_out).
Proof. split; [by apply flag_inv_init|done]. Qed.
End flag_locks.

(** One step of a flag lock, in the form the update lemma wants. *)
Ltac flag_step Hinv u :=
  let Hg := fresh in
  pose proof (proj2 Hinv u) as Hg; eapply flag_lock_inv_update; [exact Hinv| |];
  rewrite ?fn_lookup_insert in *;
  match goal with H : _ = l_busy _ _ |- _ => rewrite H in * end; simpl in *.

#[export] Instance spin_lock_laws : LockLaws spin_lock.
Proof.
  refine (Build_LockLaws spin_lock (fun _ _ => true) (fun _ _ => true)
            (flag_lock_inv (L := spin_lock) spin_good) _ _ _ _).
  - apply flag_lock_init.
  - intros s f u op p H Hc _ He. eapply flag_lock_inv_update; [exact H| |left; split; [done|]].
    + destruct op; simpl in He; by simplify_eq.
    + destruct (f u), op; simpl in *; by simplify_eq.
  - intros s f u op p c s' r H Hu _ Hs. flag_step H u;
      destruct p, op; simpl in *; try done; destruct s; simplify_eq; simpl; auto.
  - intros s f u v. apply flag_lock_excludes.
Defined.

#[export] Instance tatas_lock_laws : LockLaws tatas_lock.
Proof.
  refine (Build_LockLaws tatas_lock (fun _ _ => true) (fun _ _ => true)
            (flag_lock_inv (L := tatas_lock) tatas_good) _ _ _ _).
  - apply flag_lock_init.
  - intros s f u op p H Hc _ He. eapply flag_lock_inv_update; [exact H| |left; split; [done|]].
    + destruct op; simpl in He; by simplify_eq.
    + destruct (f u), op; simpl in *; by simplify_eq.
  - intros s f u op p c s' r H Hu _ Hs. flag_step H u;
      destruct p, op; simpl in *; try done; destruct s; simplify_eq; simpl; auto.
  - intros s f u v. apply flag_lock_excludes.
Defined.

(** ** ticket_lock *)

Module TicketLock.
Record state : Type := State { head_ : Z; tail_ : Z; g_head : Z; g_tail : Z }.

(** The arguments [g] are history: the ticket without wrap-around. *)
Inductive pc : Type :=
| LockFetchAdd
| LockLoad (tail g : Z)
| LockBackoff (tail factor g : Z)
| TryHead
| TryTail (head g : Z)
| TryCas (tail g : Z)
| UnlockLoad
| UnlockStore (head : Z).

Definition enter (op : lock_op) : option pc :=
  match op with
  | op_lock => Some LockFetchAdd
  | op_try_lock => Some TryHead
  | op_unlock => Some UnlockLoad
  | _ => None
  end.

Definition take (s : state) : state :=
  State (head_ s) (u16 (tail_ s + 1)) (g_head s) (g_tail s + 1).

Definition step (u : nat) (s : state) (p : pc) (_ : unit) : option (state * (pc + bool)) :=
  match p with
  | LockFetchAdd => Some (take s, inl (LockLoad (tail_ s) (g_tail s)))
  | LockLoad tail g =>
      Some (s, if tail =? head_ s then inr true
               else inl (LockBackoff tail (u16 (tail - head_ s)) g))
  | LockBackoff tail _ g => Some (s, inl (LockLoad tail g))
  | TryHead => Some (s, inl (TryTail (head_ s) (g_head s)))
  | TryTail head _ =>
      Some (s, if head =? tail_ s then inl (TryCas (tail_ s) (g_tail s)) else inr false)
  | TryCas tail _ =>
      Some (if tail_ s =? tail then (take s, inr true) else (s, inr false))
  | UnlockLoad => Some (s, inl (UnlockStore (head_ s)))
  | UnlockStore head =>
      Some (State (u16 (head + 1)) (tail_ s) (g_head s + 1) (g_tail s), inr true)
  end.

(** Between the loads of try_lock fewer than [2^16] tickets are taken. *)
Definition window (s : state) (p : pc) : bool :=
  match p with
  | TryTail _ g | TryCas _ g => g_tail s - g <? 2 ^ 16
  | _ => true
  end.
End TicketLock.

Definition ticket_lock : Lock := {|
  lock_state := TicketLock.state; lock_init := TicketLock.State 0 0 0 0;
  lock_pc := TicketLock.pc; lock_choice := unit;
  lock_enter := TicketLock.enter; lock_step := TicketLock.step |}.

Section ticket.
Import TicketLock.

Local Abbreviation st := (standing ticket_lock).

(** [q] is the line: the holder, then the waiting threads by ticket. *)
Definition in_line (s : state) (q : list nat) (u : nat) (x : st) : Prop :=
  match x with
  | l_out | l_busy op_lock LockFetchAdd | l_busy op_try_lock TryHead => u ∉ q
  | l_busy op_lock (LockLoad t g) | l_busy op_lock (LockBackoff t _ g) =>
      t = u16 g /\ g_head s <= g /\ q !! Z.to_nat (g - g_head s) = Some u
  | l_busy op_try_lock (TryTail h g) => (u ∉ q) /\ h = u16 g /\ g <= g_head s
  | l_busy op_try_lock (TryCas t g) => (u ∉ q) /\ t = u16 g /\ g <= g_head s
  | l_in | l_busy op_unlock UnlockLoad => q !! 0%nat = Some u
  | l_busy op_unlock (UnlockStore h) => q !! 0%nat = Some u /\ h = head_ s
  | _ => False
  end.

Record line (s : state) (f : nat -> st) (q : list nat) : Prop := {
  ln_head : head_ s = u16 (g_head s);
  ln_tail : tail_ s = u16 (g_tail s);
  ln_length : g_tail s = g_head s + Z.of_nat (length q);
  ln_nodup : NoDup q;
  ln_ids u : f u <> l_out -> Z.of_nat u < 2 ^ 16;
  ln_line u : in_line s q u (f u);
}.

Definition ticket_inv (s : state) (f : nat -> st) : Prop := exists q, line s f q.

Lemma line_busy s f q u : line s f q -> u ∈ q -> f u <> l_out.
Proof. intros H Hu E. pose proof (ln_line _ _ _ H u) as Hl. by rewrite E in Hl. Qed.

Lemma bounded_length (q : list nat) n :
  NoDup q -> (forall u, u ∈ q -> Z.of_nat u < n) -> Z.of_nat (length q) <= Z.max 0 n.
Proof.
  intros Hn Hb. assert (length q <= length (seq 0 (Z.to_nat n)))%nat as Hl.
  { apply submseteq_length, NoDup_submseteq; [done|]. intros u Hu. apply elem_of_seq.
    specialize (Hb u Hu). lia. }
  rewrite length_seq in Hl. lia.
Qed.

Lemma line_length s f q : line s f q -> Z.of_nat (length q) <= 2 ^ 16.
Proof.
  intros H. pose proof (bounded_length q (2 ^ 16) (ln_nodup _ _ _ H)) as Hb.
  rewrite Z.max_r in Hb by lia. apply Hb. intros u Hu.
  eapply ln_ids; [done|]. by eapply line_busy.
Qed.

(** Only the standing of [u] changes. *)
Lemma line_same s f q u x :
  line s f q -> in_line s q u x -> (x <> l_out -> Z.of_nat u < 2 ^ 16) ->
  line s (<[u := x]> f) q.
Proof.
  intros [H1 H2 H3 H4 H5 H6] Hx Hu. split; try done; intros v;
    (destruct (decide (v = u)) as [->|]; [by rewrite fn_lookup_insert|
      rewrite fn_lookup_insert_ne by done; auto]).
Qed.

(** Thread [u] joins the line. *)
Lemma line_take s f q u x :
  line s f q -> u ∉ q -> Z.of_nat u < 2 ^ 16 -> in_line (take s) (q ++ [u]) u x ->
  line (take s) (<[u := x]> f) (q ++ [u]).
Proof.
  intros [H1 H2 H3 H4 H5 H6] Hq Hu Hx. split; simpl; try done.
  - rewrite H2. by autorewrite with words.
  - rewrite length_app. simpl. lia.
  - apply NoDup_app. split; [done|]. split; [|apply NoDup_singleton].
    by intros v Hv ->%list_elem_of_singleton.
  - intros v. destruct (decide (v = u)) as [->|]; [done|]. rewrite fn_lookup_insert_ne by done. auto.
  - intros v. destruct (decide (v = u)) as [->|Hne]; [by rewrite fn_lookup_insert|].
    rewrite fn_lookup_insert_ne by done. specialize (H6 v).
    assert (v ∉ q -> v ∉ q ++ [u]) as Hnot.
    { intros Hv [?|?%list_elem_of_singleton]%elem_of_app; done. }
    assert (forall i, q !! i = Some v -> (q ++ [u]) !! i = Some v) as Happ
      by (intros; by apply lookup_app_l_Some).
    destruct (f v) as [| | |[] []]; simpl in *; try done; destruct_and?; auto.
Qed.

(** The holder leaves the line. *)
Lemma line_leave s f q u :
  line s f (u :: q) ->
  line (State (u16 (head_ s + 1)) (tail_ s) (g_head s + 1) (g_tail s)) (<[u := l_out]> f) q.
Proof.
  intros [H1 H2 H3 H4 H5 H6]. apply NoDup_cons in H4 as [Hu H4]. split; simpl in *; try done.
  - rewrite H1. by autorewrite with words.
  - lia.
  - intros v. fn_split; [done|]. auto.
  - intros v. destruct (decide (v = u)) as [->|Hne]; [by rewrite fn_lookup_insert|].
    rewrite fn_lookup_insert_ne by done. specialize (H6 v).
    assert (v ∉ u :: q -> v ∉ q) as Hnot by (intros Hv ?; apply Hv; by right).
    assert (forall g, g_head s <= g -> (u :: q) !! Z.to_nat (g - g_head s) = Some v ->
      g_head s + 1 <= g /\ q !! Z.to_nat (g - (g_head s + 1)) = Some v) as Hpos.
    { intros g Hg Hl. destruct (Z.eq_dec g (g_head s)) as [->|].
      - rewrite Z.sub_diag in Hl. simpl in Hl. congruence.
      - split; [lia|]. replace (Z.to_nat (g - g_head s)) with (S (Z.to_nat (g - (g_head s + 1)))) in Hl by lia.
        done. }
    destruct (f v) as [| | |[] []]; simpl in *; try done; destruct_and?; try congruence;
      try (split; [by auto|]; split; [done|lia]); auto;
      (split; [done|]; by apply Hpos).
Qed.

(** The lines of two tickets whose words agree coincide, while they are less
    than [2^16] apart. *)
Lemma ticket_eq g g' : u16 g = u16 g' -> 0 <= g' - g < 2 ^ 16 -> g' = g.
Proof. intros E H. symmetry. apply (wrap_inj 16); [lia|lia|done]. Qed.

Lemma line_first s f q u t g :
  line s f q -> t = u16 g -> g_head s <= g -> q !! Z.to_nat (g - g_head s) = Some u ->
  t = head_ s -> q !! 0%nat = Some u.
Proof.
  intros H -> Hg Hq E. rewrite (ln_head _ _ _ H) in E.
  pose proof (line_length _ _ _ H). pose proof (lookup_lt_Some _ _ _ Hq).
  assert (g = g_head s) as -> by (apply ticket_eq; [done|lia]).
  by rewrite Z.sub_diag in Hq.
Qed.

(** A ticket seen by try_lock that is the tail still: the line is empty. *)
Lemma line_empty s f q g :
  line s f q -> g <= g_head s -> g_tail s - g < 2 ^ 16 -> tail_ s = u16 g -> q = [].
Proof.
  intros H Hg Hw E. rewrite (ln_tail _ _ _ H) in E. pose proof (ln_length _ _ _ H) as Hl.
  assert (g_tail s = g) by (apply ticket_eq; [done|lia]).
  destruct q; [done|]. simpl in Hl. lia.
Qed.

(** The line after a step of [u]. *)
Definition line_next (u : nat) (s : state) (p : pc) (q : list nat) : list nat :=
  match p with
  | LockFetchAdd => q ++ [u]
  | TryCas tail _ => if tail_ s =? tail then q ++ [u] else q
  | UnlockStore _ => drop 1 q
  | _ => q
  end.

Lemma ticket_step s f q u op p c s' r :
  line s f q -> f u = l_busy op p -> window s p = true -> step u s p c = Some (s', r) ->
  line s' (<[u := resumed (L := ticket_lock) op r]> f) (line_next u s p q).
Proof.
  intros H Hu Hw Hs. pose proof (ln_line _ _ _ H u) as Hl. rewrite Hu in Hl.
  assert (Z.of_nat u < 2 ^ 16) as Hid by (apply (ln_ids _ _ _ H); by rewrite Hu).
  destruct op, p; simpl in Hl; try done; simpl in Hs, Hw; destruct_and?.
  - injection Hs as <- <-. apply line_take; try done. simpl.
    split; [apply H|]. rewrite (ln_length _ _ _ H). split; [lia|].
    replace (_ - _) with (Z.of_nat (length q)) by lia. by rewrite Nat2Z.id, list_lookup_middle.
  - destruct (Z.eqb_spec tail (head_ s)) as [E|E]; injection Hs as <- <-;
      apply line_same; try done; simpl. by eapply line_first.
  - injection Hs as <- <-. by apply line_same.
  - injection Hs as <- <-. apply line_same; try done. simpl.
    split; [done|]. split; [apply H|lia].
  - apply Z.ltb_lt in Hw. destruct (Z.eqb_spec head (tail_ s)) as [E|E]; injection Hs as <- <-;
      apply line_same; try done; simpl. split; [done|]. split; [apply H|].
    assert (q = []) as -> by (eapply (line_empty s f q g); [done|done|lia|congruence]).
    pose proof (ln_length _ _ _ H) as Hlen. simpl in Hlen. lia.
  - apply Z.ltb_lt in Hw. simpl. destruct (Z.eqb_spec (tail_ s) tail) as [E|E]; injection Hs as <- <-.
    + assert (q = []) as -> by (eapply (line_empty s f q g); [done|done|lia|congruence]).
      by apply line_take.
    + by apply line_same.
  - injection Hs as <- <-. by apply line_same.
  - injection Hs as <- <-. destruct q as [|v q]; [done|]. simpl in *. simplify_eq.
    by apply line_leave.
Qed.

Lemma ticket_call s f q u op p :
  line s f q -> callable (f u) op = true -> Z.of_nat u < 2 ^ 16 -> enter op = Some p ->
  line s (<[u := l_busy (L := ticket_lock) op p]> f) q.
Proof.
  intros H Hc Hm He. apply line_same; try done. pose proof (ln_line _ _ _ H u) as Hl.
  destruct (f u), op; simpl in *; by simplify_eq.
Qed.

Lemma line_start : line (State 0 0 0 0) (fun _ => l_out) [].
Proof. split; simpl; try done; [apply NoDup_nil_2|]. intros u. apply not_elem_of_nil. Qed.

End ticket.

#[export] Instance ticket_lock_laws : LockLaws ticket_lock.
Proof.
  refine (Build_LockLaws ticket_lock (fun u _ => Z.of_nat u <? 2 ^ 16) TicketLock.window
            ticket_inv _ _ _ _).
  - exists []. apply line_start.
  - intros s f u op p [q H] Hc Hm He. exists q. apply Z.ltb_lt in Hm. by apply ticket_call.
  - intros s f u op p c s' r [q H] Hu Hw Hs. eexists. by eapply ticket_step.
  - intros s f u v [q H] Hu Hv. pose proof (ln_line _ _ _ H u) as H1. pose proof (ln_line _ _ _ H v) as H2.
    rewrite Hu in H1. destruct Hv as [Hv|Hv]; rewrite Hv in H2; simpl in *; [congruence|done].
Defined.

(** ** Order of entry *)

Section order.
Import TicketLock.

Local Abbreviation exec := (client_exec ticket_lock).
Local Abbreviation cstate := (pool (@lock_state ticket_lock) (standing ticket_lock)).

(** The thread that takes a ticket in a step, and the one that enters. *)
Definition taken (s : cstate) (u : nat) : list nat :=
  match pcs s !! u with
  | Some (l_busy _ LockFetchAdd) => [u]
  | Some (l_busy _ (TryCas tail _)) => if tail_ (shared s) =? tail then [u] else []
  | _ => []
  end.

Definition entered (s s' : cstate) (u : nat) : list nat :=
  match pcs s !! u, pcs s' !! u with
  | Some (l_busy _ _), Some l_in => [u]
  | _, _ => []
  end.

(** A run with the order in which tickets were taken and in which threads
    entered. *)
Inductive ticket_run : list nat -> list nat -> cstate -> Prop :=
| run_start s : client_start ticket_lock s -> covered ticket_lock s = true -> ticket_run [] [] s
| run_next ts es s u c s' :
    ticket_run ts es s -> exec s (u, c) = Some s' -> covered ticket_lock s' = true ->
    ticket_run (ts ++ taken s u) (es ++ entered s s' u) s'.

(** The part of the line that has entered. *)
Definition front (f : nat -> standing ticket_lock) (q : list nat) : list nat :=
  match q with u :: _ => if holding (f u) then [u] else [] | [] => [] end.

Lemma front_prefix f q : front f q `prefix_of` q.
Proof.
  destruct q as [|u q]; simpl; [done|]. destruct (holding (f u)); [by exists q|apply prefix_nil].
Qed.

Lemma front_insert f q u (x : standing ticket_lock) :
  holding x = holding (f u) -> front (<[u := x]> f) q = front f q.
Proof.
  intros E. destruct q as [|v q]; [done|]. simpl. destruct (decide (v = u)) as [->|].
  - by rewrite fn_lookup_insert, E.
  - by rewrite fn_lookup_insert_ne.
Qed.

Record order_ok (ts es : list nat) (s : cstate) (f : nat -> standing ticket_lock)
    (q left : list nat) : Prop := {
  oo_stand u : f u = stand ticket_lock (pcs s) u;
  oo_line : line (shared s) f q;
  oo_taken : ts = left ++ q;
  oo_entered : es = left ++ front f q;
}.

Lemma holding_first s f q u : line s f q -> holding (f u) = true -> q !! 0%nat = Some u.
Proof.
  intros H Hh. pose proof (ln_line _ _ _ H u) as Hl.
  destruct (f u) as [| | |[] []]; simpl in *; try done. by destruct Hl.
Qed.

Lemma order_step s f q left ts u op p c s' r :
  line s f q -> f u = l_busy op p -> window s p = true -> step u s p c = Some (s', r) ->
  ts = left ++ q ->
  let f' := <[u := resumed (L := ticket_lock) op r]> f in
  exists left',
    ts ++ match p with
          | LockFetchAdd => [u] | TryCas tail _ => if tail_ s =? tail then [u] else [] | _ => []
          end = left' ++ line_next u s p q /\
    left ++ front f q ++ match resumed (L := ticket_lock) op r with l_in => [u] | _ => [] end
      = left' ++ front f' (line_next u s p q).
Proof.
  intros H Hu Hw Hs -> f'. pose proof (ticket_step s f q u op p c s' r H Hu Hw Hs) as H'.
  pose proof (ln_line _ _ _ H u) as Hl. rewrite Hu in Hl.
  assert (holding (resumed (L := ticket_lock) op r) = holding (f u) ->
          front f' q = front f q) as Hsame by apply front_insert.
  rewrite Hu in Hsame.
  destruct op, p; simpl in Hl; try done; simpl in Hs, Hw, Hsame; unfold line_next in *; destruct_and?.
  - injection Hs as <- <-. exists left. rewrite <- app_assoc. split; [done|]. simpl. rewrite app_nil_r.
    f_equal. destruct q as [|v q]; simpl; [by unfold f'; rewrite fn_lookup_insert|].
    symmetry. by apply (front_insert f (v :: q) u); rewrite Hu.
  - exists left. rewrite app_nil_r. split; [done|].
    destruct (Z.eqb_spec tail (head_ s)) as [E|E]; injection Hs as <- <-; simpl in *.
    + assert (q !! 0%nat = Some u) as Hq by by eapply line_first.
      destruct q as [|v q]; [done|]. simpl in Hq. injection Hq as ->. simpl. unfold f'.
      by rewrite Hu, fn_lookup_insert.
    + by rewrite app_nil_r, Hsame.
  - exists left. injection Hs as <- <-. simpl. by rewrite !app_nil_r, Hsame.
  - exists left. injection Hs as <- <-. simpl. by rewrite !app_nil_r, Hsame.
  - exists left. rewrite app_nil_r. split; [done|].
    destruct (head =? tail_ s); injection Hs as <- <-; simpl; by rewrite app_nil_r, Hsame.
  - apply Z.ltb_lt in Hw. exists left.
    destruct (Z.eqb_spec (tail_ s) tail) as [E|E]; injection Hs as <- <-; simpl in *.
    + assert (q = []) as -> by (eapply (line_empty s f q g); [done|done|lia|congruence]).
      rewrite app_nil_r. split; [done|]. simpl. unfold f'. by rewrite fn_lookup_insert.
    + by rewrite !app_nil_r, Hsame.
  - exists left. injection Hs as <- <-. simpl. by rewrite !app_nil_r, Hsame.
  - injection Hs as <- <-. destruct q as [|v q]; [done|]. simpl in *. simplify_eq.
    exists (left ++ [u]). rewrite app_nil_r, Hu, <- !app_assoc. split; [done|]. simpl. f_equal. f_equal.
    destruct q as [|w q]; [done|]. simpl. destruct (holding (f' w)) eqn:Eh; [|done].
    unfold f' in Eh. exfalso.
    apply (holding_first _ _ _ _ H') in Eh as Ef. simpl in Ef.
    pose proof (ln_nodup _ _ _ H) as Hn. apply NoDup_cons in Hn as [Hn _].
    destruct (decide (w = u)) as [->|Hne]; [apply Hn; by left|].
    rewrite fn_lookup_insert_ne in Eh by done. apply (holding_first _ _ _ _ H) in Eh. simpl in Eh. congruence.
Qed.

Lemma run_order ts es s : ticket_run ts es s -> exists f q left, order_ok ts es s f q left.
Proof.
  induction 1 as [s [n ->] _|ts es s u c s' Hr (f & q & left & [Ho Hl -> ->]) He Hw].
  - exists (fun _ => l_out), [], []. split; try done; [|apply line_start].
    intros u. unfold stand. simpl. destruct (replicate n l_out !! u) eqn:E; [|done].
    by apply lookup_replicate in E as [-> _].
  - assert (covered ticket_lock s = true) as Hw0 by by destruct Hr.
    pool_step He.
    assert (f u = p) as Hu by (rewrite Ho; exact (f_equal (default l_out) Hp)).
    assert (u < length (pcs s))%nat as Hlen by by eapply lookup_lt_Some.
    assert (forall v, (<[u := p']> f) v = stand ticket_lock (<[u := p']> (pcs s)) v) as Hst.
    { intros v. rewrite stand_insert by done. destruct (decide (u = v)) as [<-|].
      - by rewrite !fn_lookup_insert.
      - by rewrite !fn_lookup_insert_ne. }
    unfold taken, entered. cbn [pcs]. rewrite Hp, (list_lookup_insert_eq (pcs s)) by done.
    apply client_step_cases in Ht as [(op & p0 & Hc & Hq & -> & ->)|(op & p0 & c' & r & -> & Hs & ->)].
    + destruct (covered_at ticket_lock _ u op p0 Hw) as [Hm _]; [by apply list_lookup_insert_eq|].
      exists (<[u := l_busy op p0]> f), q, left. split; try done.
      * apply ticket_call; rewrite ?Hu; try done. exact (proj1 (Z.ltb_lt _ _) Hm).
      * destruct p; try done; by rewrite app_nil_r.
      * rewrite front_insert by (rewrite Hu; by destruct p, op). destruct p; by rewrite app_nil_r.
    + destruct (covered_at ticket_lock s u op p0 Hw0 Hp) as [_ Hwin].
      destruct (order_step (shared s) f q left (left ++ q) u op p0 c' sh' r Hl Hu Hwin Hs eq_refl)
        as (left' & E1 & E2).
      exists (<[u := resumed (L := ticket_lock) op r]> f), (line_next u (shared s) p0 q), left'. split; try done.
      * by eapply ticket_step.
      * by rewrite <- app_assoc, <- E2.
Qed.

(** C25. The ticket lock is first come, first served: the order in which threads
    enter is the order in which they took their tickets (a successful try_lock
    does both at once). *)
Theorem ticket_lock_fifo ts es s : ticket_run ts es s -> es `prefix_of` ts.
Proof.
  intros H. destruct (run_order ts es s H) as (f & q & left & [_ _ -> ->]).
  apply prefix_app, front_prefix.
Qed.

Definition waits (st : standing ticket_lock) : bool :=
  match st with l_busy op_lock (LockLoad _ _) | l_busy op_lock (LockBackoff _ _ _) => true | _ => false end.

(** The ticket a thread compares with [head_]. *)
Definition ticket_word (st : standing ticket_lock) : option Z :=
  match st with
  | l_busy op_lock (LockLoad t _) | l_busy op_lock (LockBackoff t _ _) => Some t
  | _ => None
  end.

(** No hand-over is lost: whenever nobody holds the ticket lock and some
    thread waits, one of the waiting threads has the ticket [head_] shows. *)
Theorem ticket_lock_handover ts es s u x :
  ticket_run ts es s -> forallb (fun x => negb (holding x)) (pcs s) = true ->
  pcs s !! u = Some x -> waits x = true ->
  exists v y, pcs s !! v = Some y /\ ticket_word y = Some (head_ (shared s)).
Proof.
  intros H Hno Hu Hx. destruct (run_order ts es s H) as (f & q & left & [Ho Hl _ _]).
  assert (f u = x) as Hfu by (rewrite Ho; unfold stand; by rewrite Hu).
  assert (exists v q', q = v :: q') as (v & q' & ->).
  { pose proof (ln_line _ _ _ Hl u) as Hin. rewrite Hfu in Hin.
    destruct q; [|eauto]. destruct x as [| | |[] []]; simpl in *; by destruct_and?. }
  pose proof (ln_line _ _ _ Hl v) as Hin.
  assert (f v <> l_out) as Hv by (eapply line_busy; [done|by left]).
  rewrite Ho in Hv. unfold stand in Hv. destruct (pcs s !! v) as [y|] eqn:Ey; [|done].
  exists v, y. split; [done|]. rewrite Ho in Hin. unfold stand in Hin. rewrite Ey in Hin. simpl in Hin.
  assert (holding y = false) as Hh.
  { rewrite forallb_forall in Hno. apply negb_true_iff, Hno, list_elem_of_In. by eapply list_elem_of_lookup_2. }
  assert (v ∈ v :: q') as Hvq by by left.
  assert (forall g, g_head (shared s) <= g -> (v :: q') !! Z.to_nat (g - g_head (shared s)) = Some v ->
    u16 g = head_ (shared s)) as Hg.
  { intros g Hge Hq. rewrite (ln_head _ _ _ Hl). f_equal.
    assert (Z.to_nat (g - g_head (shared s)) = 0%nat); [|lia].
    eapply (NoDup_lookup _ _ _ v (ln_nodup _ _ _ Hl)); [exact Hq|done]. }
  destruct y as [| | |[] []]; simpl in *; try done; destruct_and?; try done; f_equal; subst; auto.
Qed.

(** The factor handed to the back-off of a waiting thread, computed from
    16-bit words, is the true distance from the ticket being served to its own,
    and is positive. *)
Theorem ticket_backoff_factor ts es s u t g s' factor :
  ticket_run ts es s -> pcs s !! u = Some (l_busy (L := ticket_lock) op_lock (LockLoad t g)) ->
  exec s (u, InLock ticket_lock tt) = Some s' ->
  pcs s' !! u = Some (l_busy (L := ticket_lock) op_lock (LockBackoff t factor g)) ->
  factor = g - g_head (shared s) /\ 0 < factor < 2 ^ 16.
Proof.
  intros H Hu He Hu'. destruct (run_order ts es s H) as (f & q & left & [Ho Hl _ _]).
  pose proof (ln_line _ _ _ Hl u) as Hin. rewrite Ho in Hin. unfold stand in Hin. rewrite Hu in Hin.
  destruct Hin as (-> & Hg & Hq). pose proof (lookup_lt_Some _ _ _ Hq).
  pose proof (line_length _ _ _ Hl). pool_step He. rewrite Hu in Hp. injection Hp as <-.
  cbn [pcs] in Hu'. rewrite list_lookup_insert_eq in Hu' by by eapply lookup_lt_Some.
  simpl in Ht. pose proof (ln_head _ _ _ Hl) as Hh. injection Ht as <- <-. injection Hu' as Hf.
  assert (u16 g <> u16 (g_head (shared s)) /\ factor = u16 (u16 g - u16 (g_head (shared s)))) as [Hne ->].
  { rewrite <- Hh. revert Hf. case_match eqn:E; [done|]. intros [= <-]. split; [by apply Z.eqb_neq|done]. }
  autorewrite with words. rewrite wrap_small by lia. split; [done|].
  destruct (Z.eq_dec g (g_head (shared s))) as [->|]; [done|]. lia.
Qed.
End order.

(** ** Mutual exclusion *)

(** spin_lock and tatas_lock exclude: whatever the threads do, no two hold
    the lock at once. *)
Theorem flag_locks_exclude : excludes spin_lock /\ excludes tatas_lock.
Proof. split; [by apply (total_excludes spin_lock)|by apply (total_excludes tatas_lock)]. Qed.

(** ticket_lock excludes, with up to [2^16] threads, as long as fewer than
    [2^16] tickets are taken between the loads of one try_lock. *)
Theorem ticket_lock_excludes s u v :
  reachable_in (client_exec ticket_lock) (client_start ticket_lock)
    (fun s => covered ticket_lock s = true) s ->
  pcs s !! u = Some l_in -> pcs s !! v = Some l_in -> u = v.
Proof. intros Hs Hu Hv. apply (client_excludes ticket_lock s u v Hs Hu). by left. Qed.

(** ** Concrete runs of the ticket lock *)

Definition go (u : nat) : nat * client_choice ticket_lock := (u, InLock ticket_lock tt).
Definition ask (u : nat) (op : lock_op) : nat * client_choice ticket_lock := (u, Call ticket_lock op).

Definition locks2 : pool (@lock_state ticket_lock) (standing ticket_lock) :=
  Pool (@lock_init ticket_lock) [l_out; l_out].

Definition after_locks (ls : list (nat * client_choice ticket_lock)) :
    pool (@lock_state ticket_lock) (standing ticket_lock) :=
  default locks2 (run_in (client_exec ticket_lock) (covered ticket_lock) locks2 ls).

Lemma after_locks_reached ls :
  run_in (client_exec ticket_lock) (covered ticket_lock) locks2 ls = Some (after_locks ls) ->
  reachable_in (client_exec ticket_lock) (client_start ticket_lock)
    (fun s => covered ticket_lock s = true) (after_locks ls).
Proof. intros H. eapply run_in_reachable; [|by exists 2%nat|exact H]. done. Qed.

(** Thread 0 enters, thread 1 waits behind it. *)
Definition wait_behind : list (nat * client_choice ticket_lock) :=
  [ask 0 op_lock; ask 1 op_lock; go 0; go 1; go 0].

Lemma ticket_lock_excludes_witness :
  pcs (after_locks wait_behind) !! 0%nat = Some l_in /\ 0%nat = 0%nat.
Proof.
  assert (pcs (after_locks wait_behind) !! 0%nat = Some l_in) as H by (reflexivity).
  split; [exact H|].
  apply (ticket_lock_excludes (after_locks wait_behind) 0 0); [|exact H|exact H].
  apply after_locks_reached. reflexivity.
Defined.

Fixpoint order_of (s : pool (@lock_state ticket_lock) (standing ticket_lock))
    (ls : list (nat * client_choice ticket_lock)) (ts es : list nat) :
    option (list nat * list nat * pool (@lock_state ticket_lock) (standing ticket_lock)) :=
  if covered ticket_lock s then
    match ls with
    | [] => Some (ts, es, s)
    | l :: ls =>
        s' ← client_exec ticket_lock s l;
        order_of s' ls (ts ++ taken s l.1) (es ++ entered s s' l.1)
    end
  else None.

Lemma order_of_run s ls ts es ts' es' s' :
  ticket_run ts es s -> order_of s ls ts es = Some (ts', es', s') -> ticket_run ts' es' s'.
Proof.
  revert s ts es. induction ls as [|[u c] ls IH]; intros s ts es H E; simpl in E;
    destruct (covered ticket_lock s); try done.
  - by injection E as <- <- <-.
  - destruct (client_exec ticket_lock s (u, c)) as [s1|] eqn:He; [|done]. simpl in E.
    eapply IH; [|exact E]. eapply run_next; [done|exact He|].
    destruct ls; simpl in E; by destruct (covered ticket_lock s1).
Qed.

Lemma wait_behind_run : ticket_run [0; 1]%nat [0]%nat (after_locks wait_behind).
Proof.
  apply (order_of_run locks2 wait_behind [] []); [apply run_start; [by exists 2%nat|done]|].
  reflexivity.
Qed.

Lemma ticket_lock_fifo_witness : [0]%nat `prefix_of` [0; 1]%nat.
Proof. exact (ticket_lock_fifo _ _ (after_locks wait_behind) wait_behind_run). Defined.

(** Thread 0 has left, thread 1 has not looked yet. *)
Definition handed_over : list (nat * client_choice ticket_lock) :=
  wait_behind ++ [ask 0 op_unlock; go 0; go 0].

Lemma handed_over_run : ticket_run [0; 1]%nat [0]%nat (after_locks handed_over).
Proof.
  apply (order_of_run locks2 handed_over [] []); [apply run_start; [by exists 2%nat|done]|].
  reflexivity.
Qed.

Lemma ticket_lock_handover_witness :
  exists v y, pcs (after_locks handed_over) !! v = Some y /\ ticket_word y = Some 1.
Proof.
  eapply (ticket_lock_handover _ _ (after_locks handed_over) 1 _ handed_over_run);
    reflexivity.
Defined.

Lemma ticket_backoff_factor_witness : 1 = 1 - 0 /\ 0 < 1 < 2 ^ 16.
Proof.
  refine (ticket_backoff_factor _ _ (after_locks wait_behind) 1 1 1
    (after_locks (wait_behind ++ [go 1])) 1 wait_behind_run _ _ _); reflexivity.
Defined.

(** Thread 1 locks and unlocks once while thread 0 stands at [p]. *)
Definition cycle : list (nat * client_choice ticket_lock) :=
  [ask 1 op_lock; go 1; go 1; ask 1 op_unlock; go 1; go 1].

Definition cycled (p : standing ticket_lock) (n : Z) :
    pool (@lock_state ticket_lock) (standing ticket_lock) :=
  Pool (TicketLock.State (u16 n) (u16 n) n n) [p; l_out].

Lemma cycle_once p n :
  run (client_exec ticket_lock) (cycled p n) cycle = Some (cycled p (n + 1)).
Proof.
  unfold cycled, cycle. simpl. rewrite Z.eqb_refl. simpl. by rewrite wrap_add_l.
Qed.

Lemma cycle_many p m :
  run (client_exec ticket_lock) (cycled p 0) (concat (replicate m cycle))
  = Some (cycled p (Z.of_nat m)).
Proof.
  replace (Z.of_nat m) with (0 + Z.of_nat m) by lia. generalize 0 as n.
  induction m as [|m IH]; intros n; [by rewrite Z.add_0_r|].
  change (concat (replicate (S m) cycle)) with (cycle ++ concat (replicate m cycle)).
  rewrite run_app, cycle_once. cbn [mbind option_bind]. rewrite IH. do 2 f_equal. lia.
Qed.

(** C39. Without that bound try_lock is unsound: after exactly [2^16] tickets
    have been taken between its load of the tail and its compare-and-exchange,
    it enters although another thread is inside. *)
Theorem ticket_try_lock_aba :
  exists s, run (client_exec ticket_lock) locks2
    ([ask 0 op_try_lock; go 0; go 0] ++
     concat (replicate (Z.to_nat (2 ^ 16 - 1)) cycle) ++
     [ask 1 op_lock; go 1; go 1; go 0]) = Some s /\
    pcs s = [l_in; l_in].
Proof.
  generalize (Z2Nat.id (2 ^ 16 - 1) ltac:(lia)). generalize (Z.to_nat (2 ^ 16 - 1)) as m.
  intros m Hm. eexists. split.
  - rewrite run_app.
    replace (run (client_exec ticket_lock) locks2 [ask 0 op_try_lock; go 0; go 0])
      with (Some (cycled (l_busy (L := ticket_lock) op_try_lock (TicketLock.TryCas 0 0)) 0)) by reflexivity.
    cbn [mbind option_bind]. rewrite run_app, cycle_many, Hm. reflexivity.
  - reflexivity.
Qed.
