(* ===== verification/LockOrder.v ===== *)
(** * Locks and memory orders (evenk/spinlock.h: spin_lock, tatas_lock)

    What a lock promises beyond mutual exclusion: whoever enters knows of all
    accesses to the data by those who were inside before, so that data accessed
    under the lock needs no atomics.  The locks are here again over [Memory],
    with the orders of the source, so that a load can return an old value; they
    keep the laws of the lock interface, and with them the theorems on its
    clients hold. *)

From stdpp Require Import prelude functions.
From S2P Require Import Prelude Memory Lock Spinlock.
Local Open Scope Z_scope.

(** ** Locks over a memory *)

Class MemoryLock (L : Lock) : Type := {
  ml_memory : lock_state -> memory;
  ml_touch : nat -> lock_state -> lock_state;   (* an access to the data *)
}.

Class OrderedLock (L : Lock) {LL : LockLaws L} {ML : MemoryLock L} : Type := {
  ol_touch u s : ml_memory (ml_touch u s) = touch u data (ml_memory s);
  ol_inv_touch s f u : lock_inv s f -> f u = l_in -> lock_inv (ml_touch u s) f;
  ol_synced s f u : lock_inv s f -> f u = l_in -> synced data (ml_memory s) u;
}.

(** ** Threads that access the data under the lock *)

Section guarded.
Context (L : Lock) {LL : LockLaws L} {ML : MemoryLock L}.

Inductive guarded_choice : Type :=
| Client (c : client_choice L)
| Touch.

Definition guarded_step (u : nat) (s : lock_state) (st : standing L) (c : guarded_choice) :
    option (lock_state * standing L) :=
  match c, st with
  | Client c, _ => client_step L u s st c
  | Touch, l_in => Some (ml_touch u s, l_in)
  | Touch, _ => None
  end.

Definition guarded_exec : pool lock_state (standing L) -> nat * guarded_choice ->
    option (pool lock_state (standing L)) := pool_exec guarded_step.

Definition guarded_reached : pool lock_state (standing L) -> Prop :=
  reachable_in guarded_exec (client_start L) (fun s => covered L s = true).

(** In every run the laws cover, a thread inside is alone and its accesses to the
    data do not race. *)
Definition protects : Prop :=
  forall s u, guarded_reached s -> pcs s !! u = Some l_in ->
    synced data (ml_memory (shared s)) u /\ forall v, pcs s !! v = Some l_in -> v = u.

Context {OL : OrderedLock L}.

Lemma guarded_inv s : guarded_reached s -> client_inv L s.
Proof.
  apply (invariant_in_reachable _ _ _ (client_inv L)). destruct (client_invariant L) as [H0 H1].
  split; [done|]. intros s0 [u c] s1 Hw Hi He Hw'. destruct c as [c|].
  - by eapply (H1 s0 (u, c)).
  - pool_step He. destruct p; try done. injection Ht as <- <-. destruct Hi as (f & Hf & Hi).
    exists f. simpl. rewrite list_insert_id by done. split; [done|]. apply ol_inv_touch; [done|].
    rewrite Hf. unfold stand. by rewrite Hp.
Qed.

Lemma ordered_protects : protects.
Proof.
  intros s u (f & Hf & Hi)%guarded_inv Hu. assert (f u = l_in) as Eu by (rewrite Hf; unfold stand; by rewrite Hu).
  split; [by eapply ol_synced|]. intros v Hv. apply (lock_excludes (shared s) f v u); [done| |auto].
  rewrite Hf. unfold stand. by rewrite Hv.
Qed.
End guarded.

(** ** A lock and the same lock without orders *)

(** Standings of two locks whose methods have corresponding states. *)
Section map_standing.
Context {L L' : Lock} (h : lock_pc (Lock := L) -> lock_pc (Lock := L')).

Definition map_standing (x : standing L) : standing L' :=
  match x with
  | l_out => l_out
  | l_in => l_in
  | l_shared => l_shared
  | l_busy op p => l_busy op (h p)
  end.

Lemma map_standing_insert (f : nat -> standing L) u x v :
  map_standing ((<[u := x]> f) v) = (<[u := map_standing x]> (fun v => map_standing (f v))) v.
Proof. destruct (decide (v = u)) as [->|]; [by rewrite !fn_lookup_insert|by rewrite !fn_lookup_insert_ne]. Qed.

Lemma map_standing_resumed op r :
  map_standing (resumed op r) = resumed op (match r with inl p => inl (h p) | inr b => inr b end).
Proof. destruct r as [p|b]; [done|]. by destruct op, b. Qed.

Lemma map_standing_holding x : holding (map_standing x) = holding x.
Proof. by destruct x as [| | |[] ?]. Qed.
End map_standing.

(** ** Locks that are one flag *)

(** The location of [lock_]. *)
Definition flag : nat := 0.

Section flag_locks.
Context {L : Lock} (good : lock_op -> lock_pc -> bool).

(** The holder knows the data, and a free lock hands it over. *)
Record weak_flag_inv (m : memory) (f : nat -> standing L) : Prop := {
  wi_wf : wf m;
  wi_flag : flag_lock_inv good (negb (value_of m flag =? 0)) f;
  wi_synced u : holding (f u) = true -> synced data m u;
  wi_handed : value_of m flag = 0 -> handed data m (last_msg m flag);
}.

Lemma weak_flag_init : weak_flag_inv memory_init (fun _ => l_out).
Proof.
  split; [apply wf_init|apply flag_lock_init|done|]. intros _. exists (0%nat, fun _ => 0%nat). split; [by left|done].
Qed.

Lemma weak_flag_update m m' f u st :
  weak_flag_inv m f -> extends m m' ->
  match st with l_shared => False | l_busy op p => good op p = true | _ => True end ->
  (value_of m' flag = value_of m flag /\ holding st = holding (f u)) \/
  (value_of m' flag <> 0 /\ value_of m flag <> 0 /\ holding st = holding (f u)) \/
  (value_of m flag = 0 /\ value_of m' flag <> 0 /\ holding st = true) \/
  (value_of m' flag = 0 /\ holding (f u) = true /\ holding st = false) ->
  (holding st = true -> synced data m' u) -> (value_of m' flag = 0 -> handed data m' (last_msg m' flag)) ->
  weak_flag_inv m' (<[u := st]> f).
Proof.
  intros [H1 H2 H3 H4] Hx Hg Hc Hs Hh. split; [apply Hx| | |done].
  - apply (flag_lock_inv_update good (negb (value_of m flag =? 0))); [done|done|].
    destruct (Z.eqb_spec (value_of m flag) 0), (Z.eqb_spec (value_of m' flag) 0); simpl; intuition congruence.
  - intros v. destruct (decide (v = u)) as [->|Hv]; [by rewrite fn_lookup_insert|].
    rewrite fn_lookup_insert_ne by done. intros Hv'. eapply extends_synced; [done|done|auto].
Qed.

(** The state of a method changes, and the lock is not touched. *)
Lemma weak_flag_stay m f u st :
  weak_flag_inv m f ->
  match st with l_shared => False | l_busy op p => good op p = true | _ => True end ->
  holding st = holding (f u) -> weak_flag_inv m (<[u := st]> f).
Proof.
  intros H Hg Hh. eapply weak_flag_update; [done|apply extends_refl, H|done|by left| |apply H].
  rewrite Hh. apply H.
Qed.

(** The flag is read, perhaps an old value. *)
Lemma weak_flag_load m f u st t z m' :
  weak_flag_inv m f -> load relaxed u flag t m = Some (z, m') ->
  match st with l_shared => False | l_busy op p => good op p = true | _ => True end ->
  holding st = holding (f u) -> weak_flag_inv m' (<[u := st]> f).
Proof.
  intros H Hl Hg Hh. pose proof (extends_load _ _ _ _ _ _ _ (wi_wf _ _ H) Hl) as Hx.
  assert (last_msg m' flag = last_msg m flag) as E by (by apply load_Some in Hl as (? & _ & _ & _ & ->)).
  eapply weak_flag_update; [done|done|done|left; unfold value_of; by rewrite E| |].
  - rewrite Hh. intros ?. eapply extends_synced; [done|done|by apply (wi_synced _ _ H)].
  - unfold value_of. rewrite E. intros ?. eapply extends_handed; [done|done|by apply (wi_handed _ _ H)].
Qed.

(** The flag is set. *)
Lemma weak_flag_set m f u st :
  let x := rmw acquire u flag (fun _ => 1) m in
  weak_flag_inv m f ->
  match st with l_shared => False | l_busy op p => good op p = true | _ => True end ->
  holding (f u) = false -> holding st = (x.1 =? 0) -> weak_flag_inv x.2 (<[u := st]> f).
Proof.
  intros x H Hg Hu Hh. assert (value_of x.2 flag = 1) as Ev.
  { apply append_value. }
  assert (x.1 = value_of m flag) as Ex by done. rewrite Ex in Hh.
  eapply weak_flag_update; [done|apply extends_rmw; [apply H|done]|done| | |by rewrite Ev].
  - rewrite Ev, Hh, Hu. destruct (Z.eqb_spec (value_of m flag) 0); [right; right; left|right; left]; done.
  - rewrite Hh. intros E%Z.eqb_eq. apply rmw_synced; [apply H|done|by apply (wi_handed _ _ H)].
Qed.

(** The flag is cleared. *)
Lemma weak_flag_clear std m f u st :
  weak_flag_inv m f ->
  match st with l_shared => False | l_busy op p => good op p = true | _ => True end ->
  holding (f u) = true -> holding st = false -> weak_flag_inv (store std release u flag 0 m) (<[u := st]> f).
Proof.
  intros H Hg Hu Hh. eapply weak_flag_update; [done|apply extends_store; [apply H|done]|done| |by rewrite Hh|].
  - right; right; right. split; [|done]. apply append_value.
  - intros _. apply store_handed; [apply H|done|by apply (wi_synced _ _ H)].
Qed.

Lemma weak_flag_touch m f u : weak_flag_inv m f -> f u = l_in -> weak_flag_inv (touch u data m) f.
Proof.
  intros [H1 H2 H3 H4] Hu.
  assert (last_msg (touch u data m) flag = last_msg m flag) as E by (unfold touch; by rewrite append_last, decide_False).
  assert (value_of m flag <> 0) as Hv.
  { intros Ev. destruct H2 as [[_ H2] _]. rewrite Ev in H2. simpl in H2.
    assert (false = true); [|done]. apply H2. exists u. by rewrite Hu. }
  split; [by apply touch_wf|unfold value_of; by rewrite E| |].
  - intros v Hh. assert (v = u) as -> by (apply H2; [done|by rewrite Hu]). by apply touch_synced.
  - unfold value_of. rewrite E. by intros ?%Hv.
Qed.
End flag_locks.

(** ** spin_lock *)

Module WeakSpin.
Import SpinLock.

Definition step (std : standard) (u : nat) (m : memory) (p : pc) (_ : unit) : option (memory * (pc + bool)) :=
  match p with
  | LockTestAndSet =>
      let x := rmw acquire u flag (fun _ => 1) m in
      Some (x.2, if x.1 =? 0 then inr true else inl LockBackoff)
  | LockBackoff => Some (m, inl LockTestAndSet)
  | TryTestAndSet => let x := rmw acquire u flag (fun _ => 1) m in Some (x.2, inr (x.1 =? 0))
  | UnlockClear => Some (store std release u flag 0 m, inr true)
  end.
End WeakSpin.

Definition weak_spin_lock (std : standard) : Lock := {|
  lock_state := memory; lock_init := memory_init;
  lock_pc := SpinLock.pc; lock_choice := unit;
  lock_enter := SpinLock.enter; lock_step := WeakSpin.step std |}.

(** ** tatas_lock *)

Module WeakTatas.
Import TatasLock.

(** The choice is the store the inner load returns. *)
Definition step (std : standard) (u : nat) (m : memory) (p : pc) (t : nat) : option (memory * (pc + bool)) :=
  match p with
  | LockExchange =>
      let x := rmw acquire u flag (fun _ => 1) m in
      Some (x.2, if x.1 =? 0 then inr true else inl LockBackoff)
  | LockBackoff => Some (m, inl LockLoad)
  | LockLoad =>
      x ← load relaxed u flag t m;
      Some (x.2, inl (if x.1 =? 0 then LockExchange else LockBackoff))
  | TryExchange => let x := rmw acquire u flag (fun _ => 1) m in Some (x.2, inr (x.1 =? 0))
  | UnlockStore => Some (store std release u flag 0 m, inr true)
  end.
End WeakTatas.

Definition weak_tatas_lock (std : standard) : Lock := {|
  lock_state := memory; lock_init := memory_init;
  lock_pc := TatasLock.pc; lock_choice := nat;
  lock_enter := TatasLock.enter; lock_step := WeakTatas.step std |}.

(** A call of a method of a flag lock. *)
Ltac weak_flag_call H :=
  apply weak_flag_stay; [exact H| |];
  match goal with Hc : callable (?f ?u) ?op = true, He : _ = Some _ |- _ =>
    destruct (f u), op; simpl in *; by simplify_eq end.

#[export] Instance weak_spin_laws std : LockLaws (weak_spin_lock std).
Proof.
  refine (Build_LockLaws (weak_spin_lock std) (fun _ _ => true) (fun _ _ => true)
            (weak_flag_inv (L := weak_spin_lock std) spin_good) _ _ _ _).
  - apply weak_flag_init.
  - intros s f u op p H Hc _ He. weak_flag_call H.
  - intros s f u op p c s' r H Hu _ Hs. pose proof (proj2 (wi_flag _ _ _ H) u) as Hg. rewrite Hu in Hg.
    destruct op, p; simpl in *; try done; injection Hs as <- <-.
    + apply weak_flag_set; rewrite ?Hu; try done; by destruct (_ =? _).
    + apply weak_flag_stay; by rewrite ?Hu.
    + apply weak_flag_set; rewrite ?Hu; try done; by destruct (_ =? _).
    + apply weak_flag_clear; by rewrite ?Hu.
  - intros s f u v H. apply (flag_lock_excludes _ _ _ _ _ (wi_flag _ _ _ H)).
Defined.

#[export] Instance weak_tatas_laws std : LockLaws (weak_tatas_lock std).
Proof.
  refine (Build_LockLaws (weak_tatas_lock std) (fun _ _ => true) (fun _ _ => true)
            (weak_flag_inv (L := weak_tatas_lock std) tatas_good) _ _ _ _).
  - apply weak_flag_init.
  - intros s f u op p H Hc _ He. weak_flag_call H.
  - intros s f u op p c s' r H Hu _ Hs. pose proof (proj2 (wi_flag _ _ _ H) u) as Hg. rewrite Hu in Hg.
    destruct op, p; simpl in *; try done; try injection Hs as <- <-.
    + apply weak_flag_set; rewrite ?Hu; try done; by destruct (_ =? _).
    + apply weak_flag_stay; by rewrite ?Hu.
    + destruct (load relaxed u flag c s) as [[z m']|] eqn:El; [|done]. injection Hs as <- <-.
      eapply weak_flag_load; [done|done| |by rewrite Hu]. simpl. by destruct (_ =? _).
    + apply weak_flag_set; rewrite ?Hu; try done; by destruct (_ =? _).
    + apply weak_flag_clear; by rewrite ?Hu.
  - intros s f u v H. apply (flag_lock_excludes _ _ _ _ _ (wi_flag _ _ _ H)).
Defined.

#[export] Instance weak_spin_memory std : MemoryLock (weak_spin_lock std) :=
  Build_MemoryLock (weak_spin_lock std) (fun m => m) (fun u => touch u data).
#[export] Instance weak_tatas_memory std : MemoryLock (weak_tatas_lock std) :=
  Build_MemoryLock (weak_tatas_lock std) (fun m => m) (fun u => touch u data).

#[export] Instance weak_spin_ordered std : OrderedLock (weak_spin_lock std).
Proof.
  split; [done|by intros; eapply weak_flag_touch|]. intros s f u H Hu. apply (wi_synced _ _ _ H). by rewrite Hu.
Qed.
#[export] Instance weak_tatas_ordered std : OrderedLock (weak_tatas_lock std).
Proof.
  split; [done|by intros; eapply weak_flag_touch|]. intros s f u H Hu. apply (wi_synced _ _ _ H). by rewrite Hu.
Qed.
