(* ===== verification/TicketOrder.v ===== *)
(** * ticket_lock and memory orders (evenk/spinlock.h: class ticket_lock)

    ticket_lock over [Memory], with the orders of the source.  The stores of
    [head_] and [tail_] count up by one, so the number of a store is the ticket
    it shows without wrap-around.  A thread may read an old [head_], and the laws
    cover the runs in which it is not 2^16 tickets old. *)

From stdpp Require Import prelude functions.
From S2P Require Import Prelude Memory Lock Spinlock LockOrder.
Local Open Scope Z_scope.

Module WeakTicket.
(** The locations of [head_] and [tail_]. *)
Definition hd : nat := 0.
Definition tl : nat := 1.

(** The arguments [g] and [v] are history: the number of the ticket, or of the
    store of [head_] that try_lock read, and the store of [head_] the thread knew
    of when it took the ticket. *)
Inductive pc : Type :=
| LockFetchAdd
| LockLoad (tail : Z) (g v : nat)
| LockBackoff (tail factor : Z) (g v : nat)
| TryHead
| TryTail (head : Z) (g : nat)
| TryCas (tail : Z) (g : nat)
| UnlockLoad
| UnlockStore (head : Z).

Definition enter (op : lock_op) : option pc :=
  match op with
  | op_lock => Some LockFetchAdd
  | op_try_lock => Some TryHead
  | op_unlock => Some UnlockLoad
  | _ => None
  end.

(** The choice is the store a load returns, also the one of a compare-exchange
    that fails. *)
Definition step (std : standard) (u : nat) (m : memory) (p : pc) (c : option nat) : option (memory * (pc + bool)) :=
  match p, c with
  | LockFetchAdd, None =>
      let x := rmw relaxed u tl (fun z => u16 (z + 1)) m in
      Some (x.2, inl (LockLoad x.1 (latest m tl) (m_view m u hd)))
  | LockLoad tail g v, Some t =>
      x ← load acquire u hd t m;
      Some (x.2, if tail =? x.1 then inr true else inl (LockBackoff tail (u16 (tail - x.1)) g v))
  | LockBackoff tail _ g v, None => Some (m, inl (LockLoad tail g v))
  | TryHead, Some t => x ← load acquire u hd t m; Some (x.2, inl (TryTail x.1 t))
  | TryTail head g, Some t =>
      x ← load relaxed u tl t m;
      Some (x.2, if head =? x.1 then inl (TryCas x.1 g) else inr false)
  | TryCas tail g, _ =>
      '(_, ok, m') ← compare_exchange relaxed u tl tail (u16 (tail + 1)) c m;
      Some (m', inr ok)
  | UnlockLoad, Some t => x ← load relaxed u hd t m; Some (x.2, inl (UnlockStore x.1))
  | UnlockStore head, None => Some (store std release u hd (u16 (head + 1)) m, inr true)
  | _, _ => None
  end.

(** A thread that waits knew of one of the last [2^16] tickets when it took its
    own, and between the first load and the compare-exchange of try_lock fewer
    are taken. *)
Definition window (m : memory) (p : pc) : bool :=
  match p with
  | LockLoad _ g v => Z.of_nat g - Z.of_nat v <? 2 ^ 16
  | TryCas _ g => Z.of_nat (latest m tl) - Z.of_nat g <? 2 ^ 16
  | _ => true
  end.
End WeakTicket.

Definition weak_ticket_lock (std : standard) : Lock := {|
  lock_state := memory; lock_init := memory_init;
  lock_pc := WeakTicket.pc; lock_choice := option nat;
  lock_enter := WeakTicket.enter; lock_step := WeakTicket.step std |}.

#[export] Instance weak_ticket_memory std : MemoryLock (weak_ticket_lock std) :=
  Build_MemoryLock (weak_ticket_lock std) (fun m => m) (fun u => touch u data).

Section invariant.
Import WeakTicket.
Context {std : standard}.

Local Abbreviation st := (standing (weak_ticket_lock std)).
Local Abbreviation busy := (l_busy (L := weak_ticket_lock std)).

(** ** The lock without the orders *)

Definition newest (m : memory) : TicketLock.state :=
  TicketLock.State (value_of m hd) (value_of m tl) (Z.of_nat (latest m hd)) (Z.of_nat (latest m tl)).

Definition plain_pc (p : pc) : TicketLock.pc :=
  match p with
  | LockFetchAdd => TicketLock.LockFetchAdd
  | LockLoad tail g _ => TicketLock.LockLoad tail (Z.of_nat g)
  | LockBackoff tail factor g _ => TicketLock.LockBackoff tail factor (Z.of_nat g)
  | TryHead => TicketLock.TryHead
  | TryTail head g => TicketLock.TryTail head (Z.of_nat g)
  | TryCas tail g => TicketLock.TryCas tail (Z.of_nat g)
  | UnlockLoad => TicketLock.UnlockLoad
  | UnlockStore head => TicketLock.UnlockStore head
  end.

Local Abbreviation plain := (map_standing (L := weak_ticket_lock std) (L' := ticket_lock) plain_pc).

(** The stores show their numbers. *)
Definition numbered (m : memory) : Prop :=
  forall l i x, l = hd \/ l = tl -> m_log m l !! i = Some x -> m_value x = u16 (Z.of_nat i).

Lemma numbered_value m l : wf m -> numbered m -> l = hd \/ l = tl -> value_of m l = u16 (Z.of_nat (latest m l)).
Proof. intros H Hn Hl. apply (Hn l _ _ Hl), log_last, H. Qed.

Lemma numbered_append o u l z w heads m :
  wf m -> numbered m -> (l = hd \/ l = tl -> z = u16 (Z.of_nat (S (latest m l)))) -> numbered (append o u l z w heads m).
Proof.
  intros W H Hz l' i x Hl Hx. unfold append in Hx. simpl in Hx.
  destruct (decide (l' = l)) as [->|]; [|rewrite fn_lookup_insert_ne in Hx by done; by eapply H].
  rewrite fn_lookup_insert in Hx. apply lookup_snoc_Some in Hx as [[_ Hx]|[-> <-]]; [by eapply H|].
  simpl. rewrite Hz by done. pose proof (wf_log m W l). unfold latest. by destruct (m_log m l).
Qed.

(** ** What the threads know *)

Definition know (m : memory) (u : nat) (x : st) : Prop :=
  match x with
  | l_in | l_busy op_unlock _ => synced data m u /\ m_view m u hd = latest m hd
  | l_busy op_lock (LockLoad _ g v) | l_busy op_lock (LockBackoff _ _ g v) => (v <= m_view m u hd)%nat
  | l_busy op_try_lock (TryTail _ g) | l_busy op_try_lock (TryCas _ g) =>
      acquired hd m u g /\ (g <= m_view m u hd)%nat
  | _ => True
  end.

Record weak_ticket_inv (m : memory) (f : nat -> st) : Prop := {
  wt_wf : wf m;
  wt_line : exists q, line (newest m) (fun u => plain (f u)) q;
  wt_numbered : numbered m;
  wt_know u : know m u (f u);
  wt_free : (forall u, holding (f u) = false) -> handed data m (last_msg m hd);
}.

Lemma weak_ticket_init : weak_ticket_inv memory_init (fun _ => l_out).
Proof.
  split; [apply wf_init|exists []; apply line_start| |done|].
  - intros l i x _ Hx. simpl in Hx. apply list_lookup_singleton_Some in Hx as [-> <-]. done.
  - intros _. exists (0%nat, fun _ => 0%nat). split; [by left|done].
Qed.

Lemma know_extends m m' u x :
  extends m m' -> latest m' hd = latest m hd \/ holding x = false -> know m u x -> know m' u x.
Proof.
  intros Hx Hl. pose proof (ex_view _ _ Hx u hd) as Hv. pose proof (wf_view _ (ex_wf _ _ Hx) u hd) as Hk.
  assert (forall g, acquired hd m u g -> acquired hd m' u g) as Ha by (intros; by eapply extends_acquired).
  assert (holding x = true -> synced data m u /\ m_view m u hd = latest m hd -> synced data m' u /\ m_view m' u hd = latest m' hd) as Hs.
  { intros Ex [? E]. split; [by eapply extends_synced|]. destruct Hl as [Hl|Hl]; [lia|congruence]. }
  destruct x as [| | |[] []]; simpl; try done; auto; try lia; intros [? ?]; split; auto; lia.
Qed.

Lemma line_ext s (f g : nat -> standing ticket_lock) q : (forall u, f u = g u) -> line s f q -> line s g q.
Proof. intros E [H1 H2 H3 H4 H5 H6]. split; try done; intros u; rewrite <- E; auto. Qed.

Lemma weak_ticket_update m m' (f : nat -> st) u x q :
  weak_ticket_inv m f -> extends m m' -> numbered m' ->
  line (newest m') (<[u := plain x]> (fun v => plain (f v))) q -> know m' u x ->
  latest m' hd = latest m hd \/ (forall v, v <> u -> holding (f v) = false) ->
  ((forall v, holding ((<[u := x]> f) v) = false) -> handed data m' (last_msg m' hd)) ->
  weak_ticket_inv m' (<[u := x]> f).
Proof.
  intros H Hx Hn Hl Hk Ho Hf. split; [apply Hx| |done| |done].
  - exists q. eapply line_ext; [|exact Hl]. intros v. symmetry. apply map_standing_insert.
  - intros v. destruct (decide (v = u)) as [->|Hv]; [by rewrite fn_lookup_insert|].
    rewrite fn_lookup_insert_ne by done. eapply know_extends; [done| |apply H].
    destruct Ho as [?|Ho]; [by left|right; by apply Ho].
Qed.

(** Nobody is inside: that a thread that stays outside moves does not matter. *)
Lemma free_insert (f : nat -> st) u (x : st) :
  (holding (f u) = true -> holding x = true) -> (forall v, holding ((<[u := x]> f) v) = false) ->
  forall v, holding (f v) = false.
Proof.
  intros Hx H v. specialize (H v). destruct (decide (v = u)) as [->|]; [|by rewrite fn_lookup_insert_ne in H].
  rewrite fn_lookup_insert in H. destruct (holding (f u)); [|done]. by rewrite Hx in H.
Qed.

(** A step that stores nothing. *)
Lemma weak_ticket_quiet m m' (f : nat -> st) u x q :
  weak_ticket_inv m f -> extends m m' -> m_log m' = m_log m ->
  line (newest m) (fun v => plain (f v)) q -> Z.of_nat u < 2 ^ 16 -> in_line (newest m) q u (plain x) -> know m' u x ->
  (holding (f u) = true -> holding x = true) -> weak_ticket_inv m' (<[u := x]> f).
Proof.
  intros H Hx El Hl Hid Hi Hk Hh.
  assert (newest m' = newest m) as En by (unfold newest, value_of, last_msg, latest; by rewrite El).
  apply (weak_ticket_update m m' f u x q); try done.
  - intros l i y. rewrite El. apply H.
  - rewrite En. by apply line_same.
  - left. unfold latest. by rewrite El.
  - intros Hf. unfold last_msg. rewrite El. eapply extends_handed; [done|done|]. apply (wt_free _ _ H). by eapply free_insert.
Qed.

Lemma weak_ticket_load o l t m m' z (f : nat -> st) u x q :
  weak_ticket_inv m f -> load o u l t m = Some (z, m') ->
  line (newest m) (fun v => plain (f v)) q -> Z.of_nat u < 2 ^ 16 -> in_line (newest m) q u (plain x) -> know m' u x ->
  (holding (f u) = true -> holding x = true) -> weak_ticket_inv m' (<[u := x]> f).
Proof.
  intros H Hl. eapply weak_ticket_quiet; [done|eapply extends_load; [apply H|done]|].
  by apply load_Some in Hl as (? & _ & _ & _ & ->).
Qed.

(** A ticket is taken. *)
Lemma weak_ticket_take m (f : nat -> st) u x q z :
  let m' := (rmw relaxed u tl (fun _ => z) m).2 in
  weak_ticket_inv m f -> z = u16 (value_of m tl + 1) ->
  line (newest m) (fun v => plain (f v)) q -> Z.of_nat u < 2 ^ 16 -> u ∉ q ->
  in_line (TicketLock.take (newest m)) (q ++ [u]) u (plain x) -> know m' u x ->
  holding (f u) = false -> weak_ticket_inv m' (<[u := x]> f).
Proof.
  intros m' H Hz Hl Hid Hq Hi Hk Hh. pose proof (wt_wf _ _ H) as W.
  assert (z = u16 (Z.of_nat (S (latest m tl)))) as Hz'.
  { rewrite Hz, numbered_value by (try apply H; by right). autorewrite with words. f_equal. lia. }
  assert (newest m' = TicketLock.take (newest m)) as En.
  { unfold newest, TicketLock.take, m', rmw. simpl. unfold value_of. rewrite !append_last, !append_latest by done. simpl.
    rewrite Hz. f_equal. lia. }
  apply (weak_ticket_update m m' f u x (q ++ [u])); try done.
  - by apply extends_rmw.
  - apply numbered_append; [done|apply H|done].
  - rewrite En. by apply line_take.
  - left. unfold m', rmw. simpl. by rewrite append_latest.
  - intros Hf. unfold m', rmw. simpl. rewrite append_last by done. simpl.
    eapply extends_handed; [done|by apply (extends_rmw relaxed u tl (fun _ => z))|].
    apply (wt_free _ _ H). eapply free_insert; [|exact Hf]. by rewrite Hh.
Qed.

(** ** Who enters *)

Lemma nobody_inside m (f : nat -> st) q :
  line (newest m) (fun v => plain (f v)) q -> (forall u, q !! 0%nat = Some u -> holding (f u) = false) ->
  forall v, holding (f v) = false.
Proof.
  intros Hl Hq v. destruct (holding (f v)) eqn:E; [|done]. rewrite <- E. apply Hq.
  eapply holding_first; [exact Hl|]. cbv beta. by rewrite map_standing_holding.
Qed.

(** The thread that reads its ticket reads the last store of [head_]. *)
Lemma weak_ticket_enter m (f : nat -> st) u tail g v t m' q :
  weak_ticket_inv m f -> f u = busy op_lock (LockLoad tail g v) -> Z.of_nat g - Z.of_nat v < 2 ^ 16 ->
  load acquire u hd t m = Some (tail, m') -> line (newest m) (fun v => plain (f v)) q ->
  q !! 0%nat = Some u /\ know m' u l_in.
Proof.
  intros H Hu Hw Hl Hline. pose proof (wt_wf _ _ H) as W. pose proof (load_wf _ _ _ _ _ _ _ W Hl) as W'.
  pose proof (wt_know _ _ H u) as Hv. rewrite Hu in Hv. simpl in Hv.
  pose proof (ln_line _ _ _ Hline u) as Hi. cbv beta in Hi. rewrite Hu in Hi. destruct Hi as (Et & Hg & Hq). simpl in Hg, Hq.
  pose proof Hl as (x & Ht & Hx & Hz & Em)%load_Some.
  rewrite (wt_numbered _ _ H hd t x) in Hz by auto. pose proof (log_latest _ _ _ _ W Hx) as Hlt.
  assert (Z.of_nat g = Z.of_nat t) as Eg by (apply ticket_eq; [congruence|lia]).
  assert (latest m hd = t) as El by lia. rewrite El in Hq. replace (_ - _) with 0 in Hq by lia.
  split; [done|]. split.
  - apply (load_synced data u hd t m tail m' x); [done..|]. rewrite <- El in Hx. apply latest_msg in Hx as ->; [|done].
    apply (wt_free _ _ H). eapply nobody_inside; [done|]. intros w Hw'.
    assert (w = u) as -> by (change (Z.to_nat 0) with 0%nat in Hq; congruence). by rewrite Hu.
  - pose proof (wf_view _ W' u hd) as Hk. rewrite Em in Hk |- *. unfold latest in *. simpl in *.
    rewrite fn_lookup_insert in *. pose proof (take_over_ge acquire (m_heads x) (<[hd := t]> (m_view m u)) hd) as Hge.
    rewrite fn_lookup_insert in Hge. simpl in *. lia.
Qed.

(** The compare-exchange of try_lock succeeds only if the lock is free. *)
Lemma weak_ticket_try m (f : nat -> st) u tail g q :
  weak_ticket_inv m f -> f u = busy op_try_lock (TryCas tail g) -> Z.of_nat (latest m tl) - Z.of_nat g < 2 ^ 16 ->
  value_of m tl = tail -> line (newest m) (fun v => plain (f v)) q -> q = [] /\ know m u l_in.
Proof.
  intros H Hu Hw Hv Hline. pose proof (wt_wf _ _ H) as W.
  pose proof (wt_know _ _ H u) as Hk. rewrite Hu in Hk. destruct Hk as [Hacq Hgv].
  pose proof (ln_line _ _ _ Hline u) as Hi. cbv beta in Hi. rewrite Hu in Hi. destruct Hi as (Hq & Et & Hg).
  assert (q = []) as -> by (eapply (line_empty (newest m)); [done|done|done|simpl; congruence]).
  split; [done|]. pose proof (ln_length _ _ _ Hline) as Hlen. simpl in Hlen, Hg.
  rewrite numbered_value in Hv by (try apply H; by right). rewrite Et in Hv.
  assert (Z.of_nat (latest m tl) = Z.of_nat g) by (apply ticket_eq; [done|lia]).
  assert (latest m hd = g) as El by lia. rewrite <- El in Hacq.
  split; [|pose proof (wf_view _ W u hd); simpl; lia].
  eapply acquired_synced; [done|done|by apply log_last|]. apply (wt_free _ _ H). by eapply nobody_inside.
Qed.

Lemma weak_ticket_unlock m (f : nat -> st) u head :
  weak_ticket_inv m f -> f u = busy op_unlock (UnlockStore head) ->
  weak_ticket_inv (store std release u hd (u16 (head + 1)) m) (<[u := l_out]> f).
Proof.
  intros H Hu. pose proof (wt_wf _ _ H) as W. destruct (wt_line _ _ H) as [q Hl].
  pose proof (wt_know _ _ H u) as Hk. rewrite Hu in Hk. destruct Hk as [Hsync Hview].
  pose proof (ln_line _ _ _ Hl u) as Hi. cbv beta in Hi. rewrite Hu in Hi. destruct Hi as [Hq ->]. simpl in Hq |- *.
  destruct q as [|w q]; [done|]. injection Hq as ->.
  set (m' := store std release u hd (u16 (value_of m hd + 1)) m).
  assert (newest m' = TicketLock.State (u16 (TicketLock.head_ (newest m) + 1)) (TicketLock.tail_ (newest m))
    (TicketLock.g_head (newest m) + 1) (TicketLock.g_tail (newest m))) as En.
  { unfold newest, m', store, value_of. simpl. rewrite !append_last, !append_latest by done. simpl. f_equal. lia. }
  apply (weak_ticket_update m m' f u l_out q); try done.
  - by apply extends_store.
  - apply numbered_append; [done|apply H|]. intros _. rewrite numbered_value by (try apply H; by left).
    autorewrite with words. f_equal. lia.
  - rewrite En. apply line_leave, Hl.
  - right. intros v Hv. destruct (holding (f v)) eqn:Eh; [|done].
    assert ((u :: q) !! 0%nat = Some v) as Ev; [|simpl in Ev; congruence].
    eapply holding_first; [exact Hl|]. cbv beta. by rewrite map_standing_holding.
  - intros _. by apply store_handed.
Qed.

(** ** Loads *)

Lemma load_number o u l t m z m' :
  wf m -> numbered m -> l = hd \/ l = tl -> load o u l t m = Some (z, m') ->
  z = u16 (Z.of_nat t) /\ (m_view m u l <= t <= latest m l)%nat.
Proof.
  intros W H Hl (x & Ht & Hx & -> & _)%load_Some. split; [by eapply H|]. split; [done|by eapply log_latest].
Qed.

Lemma load_know o u l t m z m' x : wf m -> load o u l t m = Some (z, m') -> know m u x -> know m' u x.
Proof.
  intros W Hl. apply know_extends; [by eapply extends_load|left]. by apply load_Some in Hl as (? & _ & _ & _ & ->).
Qed.

Lemma weak_ticket_step m (f : nat -> st) u op p c m' r :
  weak_ticket_inv m f -> f u = busy op p -> window m p = true -> step std u m p c = Some (m', r) ->
  weak_ticket_inv m' (<[u := resumed (L := weak_ticket_lock std) op r]> f).
Proof.
  intros H Hu Hw Hs. pose proof (wt_wf _ _ H) as W. destruct (wt_line _ _ H) as [q Hl].
  pose proof (ln_line _ _ _ Hl u) as Hi. cbv beta in Hi. rewrite Hu in Hi.
  pose proof (wt_know _ _ H u) as Hk. rewrite Hu in Hk.
  assert (Z.of_nat u < 2 ^ 16) as Hid by (apply (ln_ids _ _ _ Hl); cbv beta; by rewrite Hu).
  destruct op, p; try done; destruct c as [t|]; try done; cbn [step] in Hs.
  all: try (destruct (load _ u _ t m) as [[z m1]|] eqn:El; [|done]; cbn [mbind option_bind fst snd] in Hs; injection Hs as <- <-;
    edestruct load_number as [Ez Ht]; [exact W|apply H| |exact El|]; [by (left + right)|];
    eapply (weak_ticket_load _ _ t m m1 z f u _ q); [done|done|done|done|..]; rewrite ?Hu).
  - injection Hs as <- <-. apply (weak_ticket_take m f u _ q (u16 (value_of m tl + 1))); rewrite ?Hu; try done.
    + pose proof (ln_length _ _ _ Hl) as Hlen. simpl in Hlen. split; [apply numbered_value; [done|apply H|by right]|].
      simpl. split; [lia|]. replace (_ - _) with (Z.of_nat (length q)) by lia. by rewrite Nat2Z.id, list_lookup_middle.
    + apply (extends_rmw relaxed u tl); [done|done].
  - destruct (Z.eqb_spec tail z) as [<-|]; [|done]. apply Z.ltb_lt in Hw. by eapply weak_ticket_enter.
  - destruct (Z.eqb_spec tail z) as [<-|]; [|by eapply load_know]. apply Z.ltb_lt in Hw. by eapply weak_ticket_enter.
  - by destruct (tail =? z).
  - injection Hs as <- <-. apply (weak_ticket_quiet m m f u _ q); rewrite ?Hu; done.
  - simpl. split; [done|]. split; [done|lia].
  - by eapply load_acquired.
  - done.
  - destruct (Z.eqb_spec head z) as [<-|]; [done|]. by destruct Hi.
  - destruct (Z.eqb_spec head z) as [<-|]; [|done]. by eapply load_know.
  - done.
  - unfold compare_exchange in Hs. destruct (load relaxed u tl t m) as [[z m1]|] eqn:El; [|done]. simpl in Hs.
    destruct (z =? tail); [done|]. injection Hs as <- <-.
    eapply (weak_ticket_load _ _ t m m1 z f u _ q); try done; rewrite ?Hu; [|done]. by destruct Hi.
  - unfold compare_exchange in Hs. destruct (Z.eqb_spec (value_of m tl) tail) as [E|]; [|done].
    apply Z.ltb_lt in Hw. injection Hs as <- <-.
    destruct (weak_ticket_try m f u tail g q H Hu Hw E Hl) as [-> Hin]. rewrite <- E.
    apply (weak_ticket_take m f u _ [] (u16 (value_of m tl + 1))); rewrite ?Hu; try done; [apply not_elem_of_nil|].
    eapply know_extends; [by apply extends_rmw|left; unfold rmw; simpl; by rewrite append_latest|done].
  - destruct Hk as [_ Hk]. assert (t = latest m hd) as -> by lia. split; [done|].
    rewrite Ez. symmetry. apply numbered_value; [done|apply H|by left].
  - by eapply load_know.
  - done.
  - injection Hs as <- <-. by apply weak_ticket_unlock.
Qed.

Lemma weak_ticket_call m (f : nat -> st) u op p :
  weak_ticket_inv m f -> callable (f u) op = true -> Z.of_nat u < 2 ^ 16 -> enter op = Some p ->
  weak_ticket_inv m (<[u := busy op p]> f).
Proof.
  intros H Hc Hid He. destruct (wt_line _ _ H) as [q Hl]. pose proof (ln_line _ _ _ Hl u) as Hi. cbv beta in Hi.
  pose proof (wt_know _ _ H u) as Hk.
  apply (weak_ticket_quiet m m f u _ q); try done; try (by apply extends_refl, H);
    destruct (f u), op; simpl in *; by simplify_eq.
Qed.

Lemma weak_ticket_touch m (f : nat -> st) u : weak_ticket_inv m f -> f u = l_in -> weak_ticket_inv (touch u data m) f.
Proof.
  intros H Hu. pose proof (wt_wf _ _ H) as W. destruct (wt_line _ _ H) as [q Hl].
  assert (forall l, l <> data -> m_log (touch u data m) l = m_log m l) as El by (intros l Hn; simpl; by rewrite fn_lookup_insert_ne).
  assert (newest (touch u data m) = newest m) as En by (unfold newest, value_of, last_msg, latest; by rewrite !El).
  assert (forall v, holding (f v) = true -> v = u) as Hone.
  { intros v Hv. assert (q !! 0%nat = Some v /\ q !! 0%nat = Some u) as [? ?]; [|congruence].
    split; (eapply holding_first; [exact Hl|]); cbv beta; by rewrite map_standing_holding, ?Hu. }
  split; [by apply touch_wf|exists q; by rewrite En| | |].
  - apply numbered_append; [done|apply H|]. by intros [|].
  - intros v. pose proof (wt_know _ _ H v) as Hk. destruct (decide (v = u)) as [->|Hv].
    + rewrite Hu in *. destruct Hk as [_ Hk]. split; [by apply touch_synced|]. unfold latest. rewrite El by done.
      simpl. by rewrite fn_lookup_insert, fn_lookup_insert_ne.
    + destruct (holding (f v)) eqn:Eh; [by destruct Hv; apply Hone|].
      unfold know, acquired in *. rewrite !El by done. simpl. rewrite fn_lookup_insert_ne by done.
      by destruct (f v) as [| | |[] []].
  - intros Hf. specialize (Hf u). by rewrite Hu in Hf.
Qed.
End invariant.

#[export] Instance weak_ticket_laws std : LockLaws (weak_ticket_lock std).
Proof.
  refine (Build_LockLaws (weak_ticket_lock std) (fun u _ => Z.of_nat u <? 2 ^ 16) WeakTicket.window
            weak_ticket_inv _ _ _ _).
  - apply weak_ticket_init.
  - intros s f u op p H Hc Hm%Z.ltb_lt He. by apply weak_ticket_call.
  - intros s f u op p c s' r H Hu Hw Hs. exact (weak_ticket_step s f u op p c s' r H Hu Hw Hs).
  - intros s f u v H Hu Hv. destruct (wt_line _ _ H) as [q Hl]. pose proof (ln_line _ _ _ Hl u) as H1.
    pose proof (ln_line _ _ _ Hl v) as H2. cbv beta in *. rewrite Hu in H1.
    destruct Hv as [Hv|Hv]; rewrite Hv in H2; simpl in *; [congruence|done].
Defined.

#[export] Instance weak_ticket_ordered std : OrderedLock (weak_ticket_lock std).
Proof.
  split; [done|by intros; apply weak_ticket_touch|]. intros s f u H Hu.
  pose proof (wt_know _ _ H u) as Hk. rewrite Hu in Hk. apply Hk.
Qed.
