(* ===== verification/LockGuard.v ===== *)
(** * The lock guard (evenk/synch.h: class lock_guard)

    A guard over any lock.  A thread has at most one guard; without one it may
    also lock and unlock the mutex itself, which adopt_lock presupposes. *)

From stdpp Require Import prelude functions.
From S2P Require Import Prelude Lock Spinlock.
Local Open Scope Z_scope.

(** errc::operation_not_permitted and errc::resource_deadlock_would_occur. *)
Definition EPERM : Z := 1.
Definition EDEADLK : Z := 35.

(** The constructors, the methods and the destructor. *)
Inductive guard_op : Type :=
| g_make | g_adopt | g_defer | g_try_to_lock
| g_lock | g_try_lock | g_unlock | g_owns_lock
| g_destroy.

Inductive guard_result : Type :=
| g_done
| g_bool (b : bool)
| g_throw (err_num : Z).

Section guard.
Context {L : Lock}.

Inductive guard_pc : Type :=
| NoGuard (st : standing L)                (* uses the mutex without a guard, if at all *)
| Guarded (owns_lock_ : bool) (r : guard_result)
| InMutex (m : guard_op) (p : lock_pc).    (* in a method of the mutex, called by [m] *)

Inductive guard_choice : Type :=
| Bare (c : client_choice L)
| Do (m : guard_op)
| Tick (c : lock_choice).

(** The method of the mutex a guard operation calls. *)
Definition mutex_op (m : guard_op) : lock_op :=
  match m with
  | g_try_to_lock | g_try_lock => op_try_lock
  | g_unlock | g_destroy => op_unlock
  | _ => op_lock
  end.

(** The rest of the operation, after the mutex has returned [b]. *)
Definition mutex_return (m : guard_op) (b : bool) : guard_pc :=
  match m with
  | g_try_to_lock => Guarded b g_done
  | g_try_lock => Guarded b (g_bool b)
  | g_unlock => Guarded false g_done
  | g_destroy => NoGuard l_out
  | _ => Guarded true g_done
  end.

(** An operation of the guard, up to its call of the mutex. *)
Definition guard_call (p : guard_pc) (m : guard_op) : option guard_pc :=
  let call := q ← lock_enter (mutex_op m); Some (InMutex m q) in
  match p, m with
  | NoGuard l_out, (g_make | g_try_to_lock) => call
  | NoGuard l_out, g_defer => Some (Guarded false g_done)
  | NoGuard l_in, g_adopt => Some (Guarded true g_done)
  | Guarded owns_lock_ _, (g_lock | g_try_lock) =>
      if owns_lock_ then Some (Guarded owns_lock_ (g_throw EDEADLK)) else call
  | Guarded owns_lock_ _, g_unlock =>
      if negb owns_lock_ then Some (Guarded owns_lock_ (g_throw EPERM)) else call
  | Guarded owns_lock_ _, g_owns_lock => Some (Guarded owns_lock_ (g_bool owns_lock_))
  | Guarded owns_lock_ _, g_destroy => if owns_lock_ then call else Some (NoGuard l_out)
  | _, _ => None
  end.

Definition guard_standing (p : guard_pc) : standing L :=
  match p with
  | NoGuard st => st
  | Guarded owns_lock_ _ => if owns_lock_ then l_in else l_out
  | InMutex m p => l_busy (mutex_op m) p
  end.

Definition guard_step (u : nat) (l : lock_state) (p : guard_pc) (c : guard_choice) :
    option (lock_state * guard_pc) :=
  match p, c with
  | NoGuard st, Bare c => x ← client_step L u l st c; Some (x.1, NoGuard x.2)
  | InMutex m q, Tick c =>
      x ← lock_step u l q c;
      Some (x.1, match x.2 with inl q => InMutex m q | inr b => mutex_return m b end)
  | _, Do m => p' ← guard_call p m; Some (l, p')
  | _, _ => None
  end.

Definition guard_exec : pool lock_state guard_pc -> nat * guard_choice -> option (pool lock_state guard_pc) :=
  pool_exec guard_step.

Definition guard_start (s : pool lock_state guard_pc) : Prop :=
  exists n, s = Pool lock_init (replicate n (NoGuard l_out)).

(** ** The guard keeps the protocol of the mutex *)

Lemma guard_call_use p m p' :
  guard_call p m = Some p' ->
  guard_standing p' = guard_standing p \/
  exists op r, callable (guard_standing p) op = true /\ lock_enter op = Some r /\
    guard_standing p' = l_busy op r.
Proof.
  intros H. destruct p as [[]|[] r|], m; simpl in H; try done;
    (injection H as <-; by left) ||
    (right; simpl; destruct (lock_enter _) as [q|] eqn:E; [|done]; injection H as <-;
     match type of E with lock_enter ?op = _ => by exists op, q end).
Qed.

Lemma guard_lock_use u l p c l' p' :
  guard_step u l p c = Some (l', p') ->
  (l' = l /\ guard_standing p' = guard_standing p) \/
  (l' = l /\ exists op r, callable (guard_standing p) op = true /\
     lock_enter op = Some r /\ guard_standing p' = l_busy op r) \/
  (exists op r c' x, guard_standing p = l_busy op r /\
     lock_step u l r c' = Some (l', x) /\ guard_standing p' = resumed op x).
Proof.
  intros H. assert (forall m, guard_step u l p (Do m) = Some (l', p') ->
    l' = l /\ guard_call p m = Some p') as Hdo.
  { intros m Hm. assert (guard_step u l p (Do m) = x ← guard_call p m; Some (l, x)) as E by by destruct p.
    rewrite E in Hm. destruct (guard_call p m) as [x|]; [|done]. by injection Hm as <- <-. }
  destruct c as [c|m|c].
  - destruct p as [st| |]; try done. simpl in H.
    destruct (client_step L u l st c) as [[l1 st']|] eqn:E; [|done]. injection H as <- <-.
    apply client_step_cases in E as [(op & q & Hc & Hq & -> & ->)|(op & q & c' & r & -> & Hs & ->)].
    + right. left. split; [done|]. by exists op, q.
    + right. right. by exists op, q, c', r.
  - apply Hdo in H as [-> H]. destruct (guard_call_use p m p' H); auto.
  - destruct p as [st| |m q]; [by destruct st|done|]. simpl in H.
    destruct (lock_step u l q c) as [[l1 x]|] eqn:E; [|done]. injection H as <- <-.
    right. right. exists (mutex_op m), q, c, x. split; [done|]. split; [done|].
    destruct x as [q'|[]]; simpl; [done|by destruct m..].
Qed.

#[export] Instance guard_lock_user : LockUser guard_step :=
  {| lock_of l := l; standing_of := guard_standing; lock_use := guard_lock_use |}.

Context {LL : LockLaws L}.

Definition guard_reached : pool lock_state guard_pc -> Prop :=
  reachable_in guard_exec guard_start (fun s => user_covered guard_step s = true).

Lemma guard_ok s : guard_reached s -> user_ok guard_step s.
Proof.
  apply invariant_in_reachable. split.
  - intros ? [n ->] _. apply user_ok_start; [done|]. by intros u p [-> _]%lookup_replicate.
  - intros [l ps] [u c] s' Hw H He Hw'. pool_step He. by eapply user_ok_step.
Qed.

(** C26. A guard owns the mutex when owns_lock says so: of all threads at most one
    has a guard with owns_lock_ set, and then no other thread holds the mutex,
    with a guard or without. *)
Theorem guard_excludes s u v r p :
  guard_reached s -> pcs s !! u = Some (Guarded true r) -> pcs s !! v = Some p -> u <> v ->
  guard_standing p <> l_in /\ guard_standing p <> l_shared.
Proof.
  intros H%guard_ok Hu Hv Hne.
  split; intros E; apply Hne; eapply (user_once guard_step); eauto.
Qed.

End guard.

Arguments guard_pc L : clear implicits.
Arguments guard_choice L : clear implicits.

(** ** A run: a guard on a spin_lock, while another thread finds it taken *)

Definition guarded_run : list (nat * guard_choice spin_lock) :=
  [(0%nat, Do g_make); (0%nat, Tick (L := spin_lock) tt);
   (1%nat, Do g_try_to_lock); (1%nat, Tick (L := spin_lock) tt); (0%nat, Do g_lock)].

Definition guarded : pool (@lock_state spin_lock) (guard_pc spin_lock) :=
  Pool true [Guarded true (g_throw EDEADLK); Guarded false g_done].

Lemma guarded_reached : guard_reached guarded.
Proof.
  pose (covers := user_covered (L := spin_lock) (guard_step (L := spin_lock))).
  apply (run_in_reachable (guard_exec (L := spin_lock)) guard_start (fun s => covers s = true) covers
           (Pool (Sh := @lock_state spin_lock) false [NoGuard l_out; NoGuard l_out]) guarded_run).
  - done.
  - by exists 2%nat.
  - lazy. reflexivity.
Qed.

Lemma guard_excludes_witness :
  guard_reached guarded /\ guard_standing (L := spin_lock) (Guarded false g_done) <> l_in.
Proof.
  split; [exact guarded_reached|].
  apply (guard_excludes guarded 0 1 (g_throw EDEADLK) (Guarded false g_done) guarded_reached);
    [reflexivity|reflexivity|discriminate].
Defined.
