(* ===== verification/SharedTicket.v ===== *)
(** * The shared ticket lock (evenk/spinlock.h: shared_ticket_lock)

    Readers and writers draw tickets from one word: its low half counts
    exclusive tickets, its high half shared ones.  The model has the half width
    [h] as a parameter (16 in production, 4 with EVENK_SHARED_TICKET_TESTING).
    History counters that no step reads give the number of exclusive and shared
    tickets taken ([te], [ts]) and returned ([he], [hs]); program counters carry
    the counters they were read at. *)

From stdpp Require Import prelude functions.
From S2P Require Import Prelude Lock.
Local Open Scope Z_scope.

Module SharedTicketLock.
Record state : Type := State {
  head_ : Z; tail_ : Z;
  he : Z; hs : Z; te : Z; ts : Z;
}.

Inductive pc : Type :=
| LockFetchAdd
| LockLoad (tail ge gs : Z)
| LockBackoff (tail factor ge gs : Z)
| TryHead
| TryTail (head ge gs : Z)
| TryCas (tail ge gs : Z)
| UnlockLoad
| UnlockStore (head : Z)
| SharedFetchAdd
| SharedLoad (tail ge : Z)
| SharedBackoff (tail factor ge : Z)
| TrySharedHead
| TrySharedTail (head ge : Z)
| TrySharedCas (tail ge gs : Z)
| UnlockSharedFetchAdd.

Definition enter (op : lock_op) : option pc :=
  match op with
  | op_lock => Some LockFetchAdd
  | op_try_lock => Some TryHead
  | op_unlock => Some UnlockLoad
  | op_lock_shared => Some SharedFetchAdd
  | op_try_lock_shared => Some TrySharedHead
  | op_unlock_shared => Some UnlockSharedFetchAdd
  end.

Section width.
Context (h : Z).

Definition base (z : Z) : Z := wrap (2 * h) z.
Definition shared_step : Z := 2 ^ h.
Definition exclusive_mask : Z := shared_step - 1.
Definition exclusive_step : Z := 1.

Definition take (s : state) : state :=
  State (head_ s) (base (tail_ s + exclusive_step)) (he s) (hs s) (te s + 1) (ts s).
Definition take_shared (s : state) : state :=
  State (head_ s) (base (tail_ s + shared_step)) (he s) (hs s) (te s) (ts s + 1).

Definition step (u : nat) (s : state) (p : pc) (_ : unit) : option (state * (pc + bool)) :=
  match p with
  | LockFetchAdd => Some (take s, inl (LockLoad (tail_ s) (te s) (ts s)))
  | LockLoad tail ge gs =>
      Some (s, if tail =? head_ s then inr true
               else inl (LockBackoff tail (base (tail - head_ s)) ge gs))
  | LockBackoff tail _ ge gs => Some (s, inl (LockLoad tail ge gs))
  | TryHead => Some (s, inl (TryTail (head_ s) (he s) (hs s)))
  | TryTail head _ _ =>
      Some (s, if head =? tail_ s then inl (TryCas (tail_ s) (te s) (ts s)) else inr false)
  | TryCas tail _ _ =>
      Some (if tail_ s =? tail then (take s, inr true) else (s, inr false))
  | UnlockLoad => Some (s, inl (UnlockStore (head_ s)))
  | UnlockStore head =>
      Some (State (base (head + exclusive_step)) (tail_ s) (he s + 1) (hs s) (te s) (ts s), inr true)
  | SharedFetchAdd =>
      Some (take_shared s, inl (SharedLoad (Z.land (tail_ s) exclusive_mask) (te s)))
  | SharedLoad tail ge =>
      Some (s, if tail =? Z.land (head_ s) exclusive_mask then inr true
               else inl (SharedBackoff tail (base (tail - head_ s)) ge))
  | SharedBackoff tail _ ge => Some (s, inl (SharedLoad tail ge))
  | TrySharedHead => Some (s, inl (TrySharedTail (head_ s) (he s)))
  | TrySharedTail head _ =>
      Some (s, if Z.land head exclusive_mask =? Z.land (tail_ s) exclusive_mask
               then inl (TrySharedCas (tail_ s) (te s) (ts s)) else inr false)
  | TrySharedCas tail _ _ =>
      Some (if tail_ s =? tail then (take_shared s, inr true) else (s, inr false))
  | UnlockSharedFetchAdd =>
      Some (State (base (head_ s + shared_step)) (tail_ s) (he s) (hs s + 1) (te s) (ts s), inr true)
  end.

(** What the two counters add up to in the word. *)
Definition weight (e s : Z) : Z := e + 2 ^ h * s.

(** The words do not come full circle between the accesses of a try_lock or a
    try_lock_shared. *)
Definition window (s : state) (p : pc) : bool :=
  match p with
  | TryTail _ ge gs | TryCas _ ge gs | TrySharedCas _ ge gs =>
      weight (te s - ge) (ts s - gs) <? 2 ^ (2 * h)
  | TrySharedTail _ ge => te s - ge <? 2 ^ h
  | _ => true
  end.
End width.
End SharedTicketLock.

Definition shared_ticket_lock (h : Z) : Lock := {|
  lock_state := SharedTicketLock.state; lock_init := SharedTicketLock.State 0 0 0 0 0 0;
  lock_pc := SharedTicketLock.pc; lock_choice := unit;
  lock_enter := SharedTicketLock.enter; lock_step := SharedTicketLock.step h |}.

(** ** The line of threads *)

Inductive kind : Type := exclusive | shared_.

#[global] Instance kind_eq_dec : EqDecision kind.
Proof. solve_decision. Defined.

Fixpoint count (k : kind) (q : list (nat * kind)) : Z :=
  match q with
  | [] => 0
  | (_, k') :: q => (if decide (k = k') then 1 else 0) + count k q
  end.

Lemma count_app k q q' : count k (q ++ q') = count k q + count k q'.
Proof. induction q as [|[u k'] q IH]; simpl; lia. Qed.

Lemma count_nonneg k q : 0 <= count k q.
Proof. induction q as [|[u k'] q IH]; simpl; [lia|]. case_decide; lia. Qed.

Lemma count_length q : count exclusive q + count shared_ q = Z.of_nat (length q).
Proof.
  induction q as [|[u k] q IH]; simpl; [lia|]. destruct k; repeat case_decide; try done; lia.
Qed.

Lemma count_zero q u k : count k q = 0 -> (u, k) ∉ q.
Proof.
  induction q as [|[v k'] q IH]; simpl; intros H; [apply not_elem_of_nil|].
  pose proof (count_nonneg k q). intros [[= -> ->]|Hin]%elem_of_cons.
  - rewrite decide_True in H by done. lia.
  - revert Hin. apply IH. case_decide; lia.
Qed.

(** [(u, k)] stands behind [q1]. *)
Definition behind (q : list (nat * kind)) (u : nat) (k : kind) (q1 : list (nat * kind)) : Prop :=
  exists q2, q = q1 ++ (u, k) :: q2.

Section line.
Context (h : Z) (Hh : 0 < h).
Import SharedTicketLock.

Local Abbreviation st := (standing (shared_ticket_lock h)).

Definition in_line (s : state) (q : list (nat * kind)) (u : nat) (x : st) : Prop :=
  match x with
  | l_out | l_busy op_lock LockFetchAdd | l_busy op_try_lock TryHead
  | l_busy op_lock_shared SharedFetchAdd | l_busy op_try_lock_shared TrySharedHead => u ∉ q.*1
  | l_busy op_lock (LockLoad t ge gs) | l_busy op_lock (LockBackoff t _ ge gs) =>
      t = base h (weight h ge gs) /\
      exists q1, behind q u exclusive q1 /\ ge = he s + count exclusive q1 /\ gs = hs s + count shared_ q1
  | l_busy op_try_lock (TryTail t ge gs) | l_busy op_try_lock (TryCas t ge gs) =>
      (u ∉ q.*1) /\ t = base h (weight h ge gs) /\ ge <= he s /\ gs <= hs s
  | l_busy op_try_lock_shared (TrySharedCas t ge gs) =>
      (u ∉ q.*1) /\ t = base h (weight h ge gs) /\ ge <= he s /\ gs <= ts s
  | l_busy op_try_lock_shared (TrySharedTail t ge) =>
      (u ∉ q.*1) /\ Z.land t (exclusive_mask h) = ge mod 2 ^ h /\ ge <= he s
  | l_in | l_busy op_unlock UnlockLoad => behind q u exclusive []
  | l_busy op_unlock (UnlockStore t) => behind q u exclusive [] /\ t = head_ s
  | l_busy op_lock_shared (SharedLoad t ge) | l_busy op_lock_shared (SharedBackoff t _ ge) =>
      t = ge mod 2 ^ h /\ exists q1, behind q u shared_ q1 /\ ge = he s + count exclusive q1
  | l_shared | l_busy op_unlock_shared UnlockSharedFetchAdd =>
      exists q1, behind q u shared_ q1 /\ count exclusive q1 = 0
  | _ => False
  end.

Record line (s : state) (f : nat -> st) (q : list (nat * kind)) : Prop := {
  ln_head : head_ s = base h (weight h (he s) (hs s));
  ln_tail : tail_ s = base h (weight h (te s) (ts s));
  ln_exclusive : te s = he s + count exclusive q;
  ln_shared : ts s = hs s + count shared_ q;
  ln_nodup : NoDup q.*1;
  ln_ids u : f u <> l_out -> Z.of_nat u < 2 ^ h;
  ln_line u : in_line s q u (f u);
}.

(** *** Arithmetic of the words *)

Lemma half_pos : 0 < 2 ^ h.
Proof. apply Z.pow_pos_nonneg; lia. Qed.

Lemma square : 2 ^ (2 * h) = 2 ^ h * 2 ^ h.
Proof. rewrite <- Z.pow_add_r by lia. f_equal. lia. Qed.

Lemma land_weight e s : Z.land (base h (weight h e s)) (exclusive_mask h) = e mod 2 ^ h.
Proof.
  unfold exclusive_mask, shared_step, base, weight, wrap. pose proof half_pos.
  replace (2 ^ h - 1) with (Z.ones h) by (rewrite Z.ones_equiv; lia).
  rewrite Z.land_ones, square, Z.rem_mul_r, (Z.mul_comm (2 ^ h) (_ mod _)), Z_mod_plus_full, Z.mod_mod by lia.
  by rewrite (Z.mul_comm (2 ^ h) s), Z_mod_plus_full.
Qed.

Lemma weight_eq e s e1 s1 :
  base h (weight h (e + e1) (s + s1)) = base h (weight h e s) ->
  0 <= e1 -> 0 <= s1 -> weight h e1 s1 < 2 ^ (2 * h) -> e1 = 0 /\ s1 = 0.
Proof.
  unfold base, weight. intros E H1 H2 Hw. pose proof half_pos.
  assert (e + e1 + 2 ^ h * (s + s1) = e + 2 ^ h * s) as E' by (apply (wrap_inj (2 * h)); [lia|nia|done]).
  nia.
Qed.

Lemma weight_small e1 s1 : e1 < 2 ^ h -> s1 < 2 ^ h -> weight h e1 s1 < 2 ^ (2 * h).
Proof. unfold weight. rewrite square. nia. Qed.

Lemma residue_eq e e1 : (e + e1) mod 2 ^ h = e mod 2 ^ h -> 0 <= e1 < 2 ^ h -> e1 = 0.
Proof.
  intros E H. assert (e + e1 = e); [|lia]. apply (wrap_inj h); [lia|lia|done].
Qed.

(** *** How the line changes *)

Lemma behind_in q u k q1 : behind q u k q1 -> u ∈ q.*1.
Proof.
  intros [q2 ->]. rewrite fmap_app, elem_of_app. right. by left.
Qed.

Lemma shared_line_busy s f q u : line s f q -> u ∈ q.*1 -> f u <> l_out.
Proof. intros H Hu E. pose proof (ln_line _ _ _ H u) as Hl. by rewrite E in Hl. Qed.

Lemma shared_line_length s f q : line s f q -> Z.of_nat (length q) <= 2 ^ h.
Proof.
  intros H. assert (length q.*1 <= length (seq 0 (Z.to_nat (2 ^ h))))%nat as Hl.
  { apply submseteq_length, NoDup_submseteq; [apply H|]. intros u Hu. apply elem_of_seq.
    assert (Z.of_nat u < 2 ^ h) by (eapply ln_ids; [done|]; by eapply shared_line_busy). lia. }
  pose proof half_pos. rewrite length_fmap, length_seq in Hl. lia.
Qed.

(** Threads ahead of somebody are fewer than [2^h]. *)
Lemma behind_small s f q u k q1 k' : line s f q -> behind q u k q1 -> 0 <= count k' q1 < 2 ^ h.
Proof.
  intros H [q2 ->]. pose proof (shared_line_length _ _ _ H) as Hl. rewrite length_app in Hl. simpl in Hl.
  pose proof (count_length q1). pose proof (count_nonneg exclusive q1). pose proof (count_nonneg shared_ q1).
  destruct k'; lia.
Qed.

(** A thread has one place in the line. *)
Lemma behind_unique s f q u k q1 k' q1' :
  line s f q -> behind q u k q1 -> behind q u k' q1' -> k = k' /\ q1 = q1'.
Proof.
  intros H [q2 E] [q2' E']. pose proof (ln_nodup _ _ _ H) as Hn.
  assert (length q1 = length q1') as Hl.
  { apply (NoDup_lookup q.*1 _ _ u Hn); rewrite list_lookup_fmap.
    - by rewrite E, list_lookup_middle.
    - by rewrite E', list_lookup_middle. }
  rewrite E in E'. apply app_inj_1 in E' as [-> [= ->]]; done.
Qed.

(** Only the standing of [u] changes. *)
Lemma shared_line_same s f q u x :
  line s f q -> in_line s q u x -> (x <> l_out -> Z.of_nat u < 2 ^ h) ->
  line s (<[u := x]> f) q.
Proof.
  intros [H1 H2 H3 H4 H5 H6 H7] Hx Hu. split; try done; intros v;
    (destruct (decide (v = u)) as [->|]; [by rewrite fn_lookup_insert|
      rewrite fn_lookup_insert_ne by done; auto]).
Qed.

Lemma behind_snoc q u k q1 e : behind q u k q1 -> behind (q ++ [e]) u k q1.
Proof. intros [q2 ->]. exists (q2 ++ [e]). by rewrite <- app_assoc. Qed.

(** Thread [u] joins the line; the counters of returned tickets stay. *)
Lemma in_line_snoc s s' q u k v x :
  v <> u -> head_ s' = head_ s -> he s' = he s -> hs s' = hs s -> ts s <= ts s' ->
  in_line s q v x -> in_line s' (q ++ [(u, k)]) v x.
Proof.
  intros Hne Eh Ee Es Hts Hx.
  assert (v ∉ q.*1 -> v ∉ (q ++ [(u, k)]).*1) as Hnot.
  { rewrite fmap_app. intros Hv [?|?%list_elem_of_singleton]%elem_of_app; done. }
  destruct x as [| | |[] []]; simpl in *; rewrite ?Eh, ?Ee, ?Es; try done; auto.
  all: try (destruct Hx as [Hx1 (q1 & Hq1 & Hx2)]; split; [done|]; exists q1; split; [by apply behind_snoc|done]).
  all: try (destruct Hx as (q1 & Hq1 & Hx2); exists q1; split; [by apply behind_snoc|done]).
  all: try by apply behind_snoc.
  all: try (destruct_and!; split; [by auto|]; repeat split; try done; lia).
  all: destruct Hx as [Hx1 Hx2]; split; [by apply behind_snoc|done].
Qed.

Lemma NoDup_join (q : list (nat * kind)) u k : NoDup q.*1 -> u ∉ q.*1 -> NoDup (q ++ [(u, k)]).*1.
Proof.
  intros Hn Hu. rewrite fmap_app. apply NoDup_app. split; [done|]. split; [|apply NoDup_singleton].
  by intros v Hv ->%list_elem_of_singleton.
Qed.

Lemma shared_line_take s f q u x :
  line s f q -> u ∉ q.*1 -> Z.of_nat u < 2 ^ h -> in_line (take h s) (q ++ [(u, exclusive)]) u x ->
  line (take h s) (<[u := x]> f) (q ++ [(u, exclusive)]).
Proof.
  intros [H1 H2 H3 H4 H5 H6 H7] Hq Hu Hx. split; simpl; try done.
  - rewrite H2. unfold base, exclusive_step, weight. rewrite wrap_add_l by lia. f_equal. lia.
  - rewrite count_app. simpl. lia.
  - rewrite count_app. simpl. lia.
  - by apply NoDup_join.
  - intros v. destruct (decide (v = u)) as [->|]; [done|]. rewrite fn_lookup_insert_ne by done. auto.
  - intros v. destruct (decide (v = u)) as [->|Hne]; [by rewrite fn_lookup_insert|].
    rewrite fn_lookup_insert_ne by done. apply (in_line_snoc s); try done; simpl; lia.
Qed.

Lemma line_take_shared s f q u x :
  line s f q -> u ∉ q.*1 -> Z.of_nat u < 2 ^ h ->
  in_line (take_shared h s) (q ++ [(u, shared_)]) u x ->
  line (take_shared h s) (<[u := x]> f) (q ++ [(u, shared_)]).
Proof.
  intros [H1 H2 H3 H4 H5 H6 H7] Hq Hu Hx. split; simpl; try done.
  - rewrite H2. unfold base, shared_step, weight. rewrite wrap_add_l by lia. f_equal. lia.
  - rewrite count_app. simpl. lia.
  - rewrite count_app. simpl. lia.
  - by apply NoDup_join.
  - intros v. destruct (decide (v = u)) as [->|]; [done|]. rewrite fn_lookup_insert_ne by done. auto.
  - intros v. destruct (decide (v = u)) as [->|Hne]; [by rewrite fn_lookup_insert|].
    rewrite fn_lookup_insert_ne by done. apply (in_line_snoc s); try done; simpl; lia.
Qed.

(** The place of another thread once [(u, k)] has left from behind [q0]. *)
Lemma behind_leave q0 u k q2 v k' q1 :
  v <> u -> behind (q0 ++ (u, k) :: q2) v k' q1 ->
  (exists r, q0 = q1 ++ (v, k') :: r /\ behind (q0 ++ q2) v k' q1) \/
  (exists r, q1 = q0 ++ (u, k) :: r /\ behind (q0 ++ q2) v k' (q0 ++ r)).
Proof.
  intros Hne [q3 E]. apply app_eq_app in E as [r [[-> E]|[-> E]]].
  - destruct r as [|e r]; simpl in E.
    + by injection E as -> -> _.
    + injection E as <- E. left. exists r. split; [done|]. rewrite <- app_assoc. simpl. by eexists.
  - destruct r as [|e r]; simpl in E.
    + by injection E as -> -> _.
    + injection E as <- ->. right. exists r. split; [done|]. exists q3. by rewrite <- app_assoc.
Qed.

Lemma NoDup_leave (q0 : list (nat * kind)) u k q2 :
  NoDup (q0 ++ (u, k) :: q2).*1 -> NoDup (q0 ++ q2).*1 /\ u ∉ (q0 ++ q2).*1.
Proof.
  rewrite !fmap_app. simpl. intros Hn. apply NoDup_app in Hn as (H1 & H2 & H3).
  apply NoDup_cons in H3 as [H3 H4]. split.
  - apply NoDup_app. split; [done|]. split; [|done]. intros v Hv Hv'. apply (H2 v Hv). by right.
  - intros [Hin|?]%elem_of_app; [|done]. apply (H2 u Hin). by left.
Qed.

(** Those who stay when an exclusive holder leaves. *)
Lemma in_line_leave s q2 u v x :
  v <> u -> in_line s ((u, exclusive) :: q2) v x -> 
  let s' := State (base h (head_ s + exclusive_step)) (tail_ s) (he s + 1) (hs s) (te s) (ts s) in
  in_line s' q2 v x.
Proof.
  intros Hne Hx s'.
  assert (v ∉ (u :: q2.*1) -> v ∉ q2.*1) as Hnot by (intros Hv ?; apply Hv; by right).
  assert (forall k q1, behind ((u, exclusive) :: q2) v k q1 ->
    exists r, q1 = (u, exclusive) :: r /\ behind q2 v k r) as Hb.
  { intros k q1 Hq. destruct (behind_leave [] u exclusive q2 v k q1 Hne Hq) as [(r & E & _)|(r & -> & E)].
    - by destruct q1.
    - by exists r. }
  destruct x as [| | |[] []]; simpl in *; try done; auto.
  all: try (destruct Hx as [Hx1 (q1 & Hq1 & Hx2)]; split; [done|];
            destruct (Hb _ _ Hq1) as (r & -> & Hr); exists r; split; [done|]; simpl in Hx2; lia).
  all: try (destruct Hx as (q1 & Hq1 & Hx2); destruct (Hb _ _ Hq1) as (r & -> & Hr);
            simpl in Hx2; pose proof (count_nonneg exclusive r); lia).
  all: try (destruct_and!; split; [by auto|]; repeat split; try done; lia).
  all: try (destruct (Hb _ _ Hx) as (r & ? & _); done).
  all: destruct Hx as [Hx _]; destruct (Hb _ _ Hx) as (r & ? & _); done.
Qed.

(** Those who stay when a shared holder leaves. *)
Lemma in_line_leave_shared s q0 q2 u v x :
  v <> u -> count exclusive q0 = 0 -> hs s < ts s -> in_line s (q0 ++ (u, shared_) :: q2) v x ->
  let s' := State (base h (head_ s + shared_step h)) (tail_ s) (he s) (hs s + 1) (te s) (ts s) in
  in_line s' (q0 ++ q2) v x.
Proof.
  intros Hne H0 Hlt Hx s'.
  assert (v ∉ (q0 ++ (u, shared_) :: q2).*1 -> v ∉ (q0 ++ q2).*1) as Hnot.
  { rewrite !fmap_app. simpl. intros Hv [Hin|Hin]%elem_of_app; apply Hv, elem_of_app; [by left|].
    right. by right. }
  assert (forall q1, behind (q0 ++ (u, shared_) :: q2) v exclusive q1 ->
    exists r, behind (q0 ++ q2) v exclusive (q0 ++ r) /\ q1 = q0 ++ (u, shared_) :: r) as He.
  { intros q1 Hq. destruct (behind_leave _ _ _ _ _ _ _ Hne Hq) as [(r & -> & _)|(r & -> & E)]; [|eauto].
    exfalso. eapply (count_zero _ v exclusive H0). apply elem_of_app. right. by left. }
  assert (forall q1, behind (q0 ++ (u, shared_) :: q2) v shared_ q1 ->
    exists q1', behind (q0 ++ q2) v shared_ q1' /\ count exclusive q1' = count exclusive q1) as Hs.
  { intros q1 Hq. destruct (behind_leave _ _ _ _ _ _ _ Hne Hq) as [(r & -> & E)|(r & -> & E)]; [by eauto|].
    eexists. split; [exact E|]. rewrite !count_app. simpl. lia. }
  destruct x as [| | |[] []]; simpl in *; try done; auto.
  all: try (destruct Hx as [Hx1 (q1 & Hq1 & Hx2 & Hx3)]; split; [done|];
            destruct (He _ Hq1) as (r & Hr & ->); exists (q0 ++ r); split; [done|];
            rewrite !count_app in *; simpl in *; lia).
  all: try (destruct Hx as [Hx1 (q1 & Hq1 & Hx2)]; split; [done|];
            destruct (Hs _ Hq1) as (r & Hr & E); exists r; split; [done|lia]).
  all: try (destruct Hx as (q1 & Hq1 & Hx2); destruct (Hs _ Hq1) as (r & Hr & E);
            exists r; split; [done|lia]).
  all: try (destruct_and!; split; [by auto|]; repeat split; try done; lia).
  all: try (destruct (He _ Hx) as (r & _ & E); by destruct q0).
  all: destruct Hx as [Hx _]; destruct (He _ Hx) as (r & _ & E); by destruct q0.
Qed.

Lemma shared_line_leave s f u q2 :
  line s f ((u, exclusive) :: q2) ->
  line (State (base h (head_ s + exclusive_step)) (tail_ s) (he s + 1) (hs s) (te s) (ts s))
    (<[u := l_out]> f) q2.
Proof.
  intros [H1 H2 H3 H4 H5 H6 H7]. destruct (NoDup_leave [] u exclusive q2 H5) as [Hn Hu].
  split; simpl in *; try done; try lia.
  - rewrite H1. unfold base, exclusive_step, weight. rewrite wrap_add_l by lia. f_equal. lia.
  - intros v. fn_split; [done|]. auto.
  - intros v. destruct (decide (v = u)) as [->|Hne]; [by rewrite fn_lookup_insert|].
    rewrite fn_lookup_insert_ne by done. by apply (in_line_leave s q2 u).
Qed.

Lemma line_leave_shared s f q0 u q2 :
  line s f (q0 ++ (u, shared_) :: q2) -> count exclusive q0 = 0 ->
  line (State (base h (head_ s + shared_step h)) (tail_ s) (he s) (hs s + 1) (te s) (ts s))
    (<[u := l_out]> f) (q0 ++ q2).
Proof.
  intros [H1 H2 H3 H4 H5 H6 H7] H0. destruct (NoDup_leave q0 u shared_ q2 H5) as [Hn Hu].
  pose proof (count_nonneg shared_ q0). pose proof (count_nonneg shared_ q2).
  rewrite count_app in H3, H4. simpl in H3, H4.
  split; simpl; rewrite ?count_app; try done; try lia.
  - rewrite H1. unfold base, shared_step, weight. rewrite wrap_add_l by lia. f_equal. lia.
  - intros v. fn_split; [done|]. auto.
  - intros v. destruct (decide (v = u)) as [->|Hne]; [by rewrite fn_lookup_insert|].
    rewrite fn_lookup_insert_ne by done. apply (in_line_leave_shared s q0 q2 u); try done. lia.
Qed.

(** *** What the comparisons tell *)

(** An exclusive ticket equal to [head_] is the first in line. *)
Lemma shared_line_first s f q u t ge gs q1 :
  line s f q -> t = base h (weight h ge gs) -> behind q u exclusive q1 ->
  ge = he s + count exclusive q1 -> gs = hs s + count shared_ q1 -> t = head_ s ->
  behind q u exclusive [].
Proof.
  intros H -> Hb -> -> E. rewrite (ln_head _ _ _ H) in E.
  pose proof (behind_small s f q u exclusive q1 exclusive H Hb).
  pose proof (behind_small s f q u exclusive q1 shared_ H Hb).
  destruct (weight_eq _ _ _ _ E) as [E1 E2]; try lia; [apply weight_small; lia|].
  pose proof (count_length q1). destruct q1; [done|]. simpl in *. lia.
Qed.

(** A shared ticket whose low half is that of [head_] has no writer ahead. *)
Lemma line_readers s f q u ge q1 :
  line s f q -> behind q u shared_ q1 -> ge = he s + count exclusive q1 ->
  ge mod 2 ^ h = Z.land (head_ s) (exclusive_mask h) -> count exclusive q1 = 0.
Proof.
  intros H Hb -> E. rewrite (ln_head _ _ _ H), land_weight in E.
  apply residue_eq in E; [done|]. by eapply behind_small.
Qed.

(** A tail that try_lock has seen and that is still there: nobody is in line
    beyond what it saw returned. *)
Lemma line_still s f q ge gs :
  line s f q -> ge <= he s -> gs <= ts s -> weight h (te s - ge) (ts s - gs) < 2 ^ (2 * h) ->
  tail_ s = base h (weight h ge gs) -> te s = ge /\ ts s = gs.
Proof.
  intros H He Hs Hw E. rewrite (ln_tail _ _ _ H) in E.
  pose proof (ln_exclusive _ _ _ H). pose proof (count_nonneg exclusive q).
  replace (te s) with (ge + (te s - ge)) in E by lia.
  replace (ts s) with (gs + (ts s - gs)) in E by lia.
  destruct (weight_eq _ _ _ _ E); lia.
Qed.

Lemma line_none s f q : line s f q -> te s = he s -> ts s = hs s -> q = [].
Proof.
  intros H E1 E2. pose proof (ln_exclusive _ _ _ H). pose proof (ln_shared _ _ _ H).
  pose proof (count_length q). destruct q; [done|]. simpl in *. lia.
Qed.

(** *** The methods *)

Local Abbreviation resume := (resumed (L := shared_ticket_lock h)).

Lemma exclusive_step_line s f q u op p c s' r :
  op = op_lock \/ op = op_try_lock \/ op = op_unlock ->
  line s f q -> f u = l_busy op p -> window h s p = true -> step h u s p c = Some (s', r) ->
  exists q', line s' (<[u := resume op r]> f) q'.
Proof.
  intros Hop H Hu Hw Hs. pose proof (ln_line _ _ _ H u) as Hl. rewrite Hu in Hl.
  assert (Z.of_nat u < 2 ^ h) as Hid by (apply (ln_ids _ _ _ H); by rewrite Hu).
  pose proof (ln_exclusive _ _ _ H) as He. pose proof (ln_shared _ _ _ H) as Hsh.
  pose proof (count_nonneg exclusive q). pose proof (count_nonneg shared_ q).
  destruct op, p; simpl in Hl; try done; try (by destruct Hop as [?|[?|?]]);
    simpl in Hs, Hw; try apply Z.ltb_lt in Hw.
  - injection Hs as <- <-. exists (q ++ [(u, exclusive)]). apply shared_line_take; try done. simpl.
    split; [apply H|]. exists q. split; [by exists []|]. split; [apply H|apply H].
  - destruct Hl as (Ht & q1 & Hb & Hge & Hgs). exists q.
    destruct (Z.eqb_spec tail (head_ s)) as [E|E]; injection Hs as <- <-; apply shared_line_same; try done; simpl.
    + by eapply shared_line_first.
    + split; [done|]. by exists q1.
  - injection Hs as <- <-. exists q. by apply shared_line_same.
  - injection Hs as <- <-. exists q. apply shared_line_same; try done. simpl. split; [done|]. split; [apply H|lia].
  - destruct Hl as (Hq & Ht & Hge & Hgs). exists q.
    destruct (Z.eqb_spec head (tail_ s)) as [E|E]; injection Hs as <- <-; apply shared_line_same; try done; simpl.
    destruct (line_still s f q ge gs) as [E1 E2]; try done; [lia|congruence|].
    split; [done|]. split; [apply H|lia].
  - destruct Hl as (Hq & Ht & Hge & Hgs).
    destruct (Z.eqb_spec (tail_ s) tail) as [E|E]; injection Hs as <- <-; [|exists q; by apply shared_line_same].
    destruct (line_still s f q ge gs) as [E1 E2]; try done; [lia|congruence|].
    assert (q = []) as -> by (eapply line_none; [done|lia|lia]).
    exists ([] ++ [(u, exclusive)]). apply shared_line_take; try done. by exists [].
  - injection Hs as <- <-. exists q. by apply shared_line_same.
  - destruct Hl as [[q2 ->] ->]. injection Hs as <- <-. exists q2. by apply shared_line_leave.
Qed.

Lemma shared_step_line s f q u op p c s' r :
  op = op_lock_shared \/ op = op_try_lock_shared \/ op = op_unlock_shared ->
  line s f q -> f u = l_busy op p -> window h s p = true -> step h u s p c = Some (s', r) ->
  exists q', line s' (<[u := resume op r]> f) q'.
Proof.
  intros Hop H Hu Hw Hs. pose proof (ln_line _ _ _ H u) as Hl. rewrite Hu in Hl.
  assert (Z.of_nat u < 2 ^ h) as Hid by (apply (ln_ids _ _ _ H); by rewrite Hu).
  pose proof (ln_exclusive _ _ _ H) as He. pose proof (ln_shared _ _ _ H) as Hsh.
  pose proof (count_nonneg exclusive q). pose proof (count_nonneg shared_ q).
  destruct op, p; simpl in Hl; try done; try (by destruct Hop as [?|[?|?]]);
    simpl in Hs, Hw; try apply Z.ltb_lt in Hw.
  - injection Hs as <- <-. exists (q ++ [(u, shared_)]). apply line_take_shared; try done. simpl.
    rewrite (ln_tail _ _ _ H), land_weight. split; [done|]. exists q. split; [by exists []|done].
  - destruct Hl as (Ht & q1 & Hb & Hge). exists q.
    destruct (Z.eqb_spec tail (Z.land (head_ s) (exclusive_mask h))) as [E|E]; injection Hs as <- <-;
      apply shared_line_same; try done; simpl; [|split; [done|]; by exists q1].
    exists q1. split; [done|]. eapply line_readers; [done|done|done|congruence].
  - injection Hs as <- <-. exists q. by apply shared_line_same.
  - injection Hs as <- <-. exists q. apply shared_line_same; try done. simpl.
    rewrite (ln_head _ _ _ H), land_weight. by split.
  - destruct Hl as (Hq & Ht & Hge). exists q.
    destruct (Z.eqb_spec (Z.land head (exclusive_mask h)) (Z.land (tail_ s) (exclusive_mask h))) as [E|E];
      injection Hs as <- <-; apply shared_line_same; try done; simpl.
    rewrite Ht, (ln_tail _ _ _ H), land_weight in E.
    assert (te s - ge = 0).
    { apply (residue_eq ge); [|lia]. rewrite E. f_equal. lia. }
    split; [done|]. split; [apply H|lia].
  - destruct Hl as (Hq & Ht & Hge & Hgs).
    destruct (Z.eqb_spec (tail_ s) tail) as [E|E]; injection Hs as <- <-; [|exists q; by apply shared_line_same].
    destruct (line_still s f q ge gs) as [E1 E2]; try done; [congruence|].
    exists (q ++ [(u, shared_)]). apply line_take_shared; try done. simpl.
    exists q. split; [by exists []|lia].
  - destruct Hl as (q1 & [q2 ->] & Hq1). injection Hs as <- <-. exists (q1 ++ q2).
    by apply line_leave_shared.
Qed.

Lemma line_call s f q u op p :
  line s f q -> callable (f u) op = true -> Z.of_nat u < 2 ^ h -> enter op = Some p ->
  line s (<[u := l_busy (L := shared_ticket_lock h) op p]> f) q.
Proof.
  intros H Hc Hm He. apply shared_line_same; try done. pose proof (ln_line _ _ _ H u) as Hl.
  destruct (f u), op; simpl in *; by simplify_eq.
Qed.

Lemma shared_line_start : line (State 0 0 0 0 0 0) (fun _ => l_out) [].
Proof.
  split; simpl; try done; [by unfold weight, base, wrap; rewrite Z.mul_0_r..|
    apply NoDup_nil_2|]. intros u. apply not_elem_of_nil.
Qed.

(** A writer is first in line; a reader has no writer ahead. *)
Lemma line_excludes s f q u v :
  line s f q -> f u = l_in -> f v = l_in \/ f v = l_shared -> u = v.
Proof.
  intros H Hu Hv. pose proof (ln_line _ _ _ H u) as H1. pose proof (ln_line _ _ _ H v) as H2.
  rewrite Hu in H1. destruct H1 as [q1 Eq1].
  destruct Hv as [Hv|Hv]; rewrite Hv in H2; simpl in H2.
  - destruct H2 as [q2 Eq2]. simpl in *. congruence.
  - destruct H2 as (q2 & [q3 Eq3] & H0). rewrite Eq1 in Eq3. exfalso.
    destruct q2 as [|e q2]; [done|]. simpl in Eq3. injection Eq3 as <- _. simpl in H0.
    pose proof (count_nonneg exclusive q2). lia.
Qed.
End line.

#[export] Instance shared_ticket_lock_laws (h : Z) (Hh : 0 < h) : LockLaws (shared_ticket_lock h).
Proof.
  refine (Build_LockLaws (shared_ticket_lock h) (fun u _ => Z.of_nat u <? 2 ^ h)
            (SharedTicketLock.window h) (fun s f => exists q, line h s f q) _ _ _ _).
  - exists []. by apply shared_line_start.
  - intros s f u op p [q H] Hc Hm He. exists q. apply Z.ltb_lt in Hm. by apply line_call.
  - intros s f u op p c s' r [q H] Hu Hw Hs.
    destruct op; first [by apply (exclusive_step_line h Hh s f q u _ p c s' r); auto
                       |by apply (shared_step_line h Hh s f q u _ p c s' r); auto].
  - intros s f u v [q H]. by apply (line_excludes h s f q).
Defined.

(** ** Theorems *)

Section theorems.
Context (h : Z) (Hh : 0 < h).
Import SharedTicketLock.

Local Abbreviation L := (shared_ticket_lock h).
Local Abbreviation LL := (shared_ticket_lock_laws h Hh).

(** Runs with at most [2^h] threads, within the window of the try methods. *)
Definition reached : pool (@lock_state L) (standing L) -> Prop :=
  reachable_in (client_exec L) (client_start L) (fun s => covered L (LL := LL) s = true).

Lemma reached_line s : reached s ->
  exists f q, (forall u, f u = stand L (pcs s) u) /\ line h (Prelude.shared s) f q.
Proof.
  intros Hs. destruct (invariant_in_reachable _ _ _ _ _ (client_invariant L (LL := LL)) Hs) as (f & Hf & q & Hl).
  by exists f, q.
Qed.

(** The shared ticket lock excludes: a thread that holds it exclusively is
    alone, with up to [2^h] threads, as long as the words do not come full
    circle inside one try method. *)
Theorem shared_ticket_excludes s u v :
  reached s -> pcs s !! u = Some l_in ->
  pcs s !! v = Some l_in \/ pcs s !! v = Some l_shared -> u = v.
Proof. apply (client_excludes L (LL := LL)). Qed.

Definition holds (x : standing L) : bool :=
  match x with
  | l_in | l_shared | l_busy op_unlock _ | l_busy op_unlock_shared _ => true
  | _ => false
  end.

Definition waits (x : standing L) : bool :=
  match x with
  | l_busy op_lock (LockLoad _ _ _) | l_busy op_lock (LockBackoff _ _ _ _)
  | l_busy op_lock_shared (SharedLoad _ _) | l_busy op_lock_shared (SharedBackoff _ _ _) => true
  | _ => false
  end.

(** The next load of the thread lets it in. *)
Definition ready (s : state) (x : standing L) : bool :=
  match x with
  | l_busy op_lock (LockLoad t _ _) | l_busy op_lock (LockBackoff t _ _ _) => t =? head_ s
  | l_busy op_lock_shared (SharedLoad t _) | l_busy op_lock_shared (SharedBackoff t _ _) =>
      t =? Z.land (head_ s) (exclusive_mask h)
  | _ => false
  end.

Lemma waits_behind s q u x :
  in_line h s q u x -> waits x = true -> exists k q1, behind q u k q1.
Proof.
  destruct x as [| | |[] []]; simpl; try done.
  - intros (_ & q1 & Hb & _) _. eauto.
  - intros (_ & q1 & Hb & _) _. eauto.
  - intros (_ & q1 & Hb & _) _. eauto.
  - intros (_ & q1 & Hb & _) _. eauto.
Qed.

(** The first in line is let in, or holds the lock already. *)
Lemma first_ready s f q v k q2 :
  line h s f q -> q = (v, k) :: q2 -> holds (f v) = true \/ ready s (f v) = true.
Proof.
  intros H E. pose proof (ln_line _ _ _ _ H v) as Hl.
  assert (behind q v k []) as Hb by (by exists q2).
  assert (v ∈ q.*1) as Hin by by eapply behind_in.
  assert (forall k' q1, behind q v k' q1 -> q1 = []) as Hfirst.
  { intros k' q1 Hb'. by destruct (behind_unique h s f q v k [] k' q1 H Hb Hb') as [_ <-]. }
  pose proof (ln_head _ _ _ _ H) as Hhd.
  destruct (f v) as [| | |[] []]; simpl in *; try done; auto; try (by destruct Hl); right.
  1-2: destruct Hl as (-> & q1 & Hq & -> & ->); rewrite (Hfirst _ _ Hq); simpl;
    rewrite !Z.add_0_r, Hhd; apply Z.eqb_refl.
  1-2: destruct Hl as (-> & q1 & Hq & ->); rewrite (Hfirst _ _ Hq); simpl;
    rewrite Z.add_0_r, Hhd, land_weight by done; apply Z.eqb_refl.
Qed.

(** C29. No hand-over is lost: whenever nobody holds the shared ticket lock and
    some thread waits, the next load of one of the waiting threads lets it in. *)
Theorem shared_ticket_handover s u x :
  reached s -> forallb (fun x => negb (holds x)) (pcs s) = true ->
  pcs s !! u = Some x -> waits x = true ->
  exists v y, pcs s !! v = Some y /\ ready (Prelude.shared s) y = true.
Proof.
  intros Hs Hno Hu Hx. destruct (reached_line s Hs) as (f & q & Hf & Hl).
  assert (f u = x) as Hfu by (rewrite Hf; unfold stand; by rewrite Hu).
  destruct (waits_behind (Prelude.shared s) q u x) as (k & q1 & q2 & Hq);
    [rewrite <- Hfu; apply Hl|done|].
  destruct q as [|[v k'] q']; [by destruct q1|].
  assert (f v <> l_out) as Hv by (eapply shared_line_busy; [done|by left]).
  pose proof (first_ready _ f _ v k' q' Hl eq_refl) as Hr.
  rewrite Hf in Hv, Hr. unfold stand in Hv, Hr. destruct (pcs s !! v) as [y|] eqn:Ey; [|done].
  exists v, y. split; [done|]. simpl in Hr. destruct Hr as [Hr|]; [|done]. exfalso.
  rewrite forallb_forall in Hno. apply list_elem_of_lookup_2, list_elem_of_In, Hno in Ey. by rewrite Hr in Ey.
Qed.

Definition writes (x : standing L) : bool :=
  match x with
  | l_in | l_busy op_lock (LockLoad _ _ _) | l_busy op_lock (LockBackoff _ _ _ _)
  | l_busy op_unlock _ => true
  | _ => false
  end.

(** Without writers the line has no exclusive tickets. *)
Lemma no_writers s f q :
  (forall u, f u = stand L (pcs s) u) -> line h (Prelude.shared s) f q ->
  forallb (fun x => negb (writes x)) (pcs s) = true -> count exclusive q = 0.
Proof.
  intros Hf Hl Hno.
  assert (forall v k, (v, k) ∈ q -> k = shared_) as Hall.
  { intros v k Hv. destruct k; [exfalso|done].
    apply list_elem_of_split in Hv as (r1 & r2 & Er).
    assert (behind q v exclusive r1) as Hbv by by exists r2.
    pose proof (ln_line _ _ _ _ Hl v) as Hin.
    assert (f v <> l_out) as Hv by (eapply shared_line_busy; [done|by eapply behind_in]).
    rewrite Hf in Hv, Hin. unfold stand in Hv, Hin. destruct (pcs s !! v) as [y|] eqn:Ey; [|done].
    rewrite forallb_forall in Hno. apply list_elem_of_lookup_2, list_elem_of_In, Hno in Ey.
    assert (forall r, behind q v shared_ r -> False) as Hcon.
    { intros r Hr. by destruct (behind_unique h _ f q v exclusive r1 shared_ r Hl Hbv Hr) as [? _]. }
    pose proof (behind_in _ _ _ _ Hbv) as Hmem. simpl in Hin.
    destruct y as [| | |[] []]; simpl in *; try done; try (by destruct Hin as [? _]);
      [destruct Hin as (r & Hr & _)|destruct Hin as (_ & r & Hr & _)..|
       destruct Hin as (r & Hr & _)]; by eapply Hcon. }
  clear Hl. induction q as [|[v k] q IH]; simpl; [done|].
  rewrite (Hall v k) by by left. simpl. apply IH. intros v' k' Hin. apply (Hall v'). by right.
Qed.

(** Readers do not wait for readers: if no thread waits for or holds the
    lock exclusively, the next load of a thread in lock_shared lets it in. *)
Theorem readers_share s u t ge :
  reached s -> forallb (fun x => negb (writes x)) (pcs s) = true ->
  pcs s !! u = Some (l_busy (L := L) op_lock_shared (SharedLoad t ge)) ->
  client_exec L s (u, InLock L tt) = Some (Pool (Prelude.shared s) (<[u := l_shared]> (pcs s))).
Proof.
  intros Hs Hno Hu. destruct (reached_line s Hs) as (f & q & Hf & Hl).
  pose proof (no_writers s f q Hf Hl Hno) as Hq.
  pose proof (ln_line _ _ _ _ Hl u) as Hin. rewrite Hf in Hin. unfold stand in Hin. rewrite Hu in Hin.
  destruct Hin as (-> & q1 & [q2 ->] & ->). rewrite count_app in Hq. simpl in Hq.
  pose proof (count_nonneg exclusive q1). pose proof (count_nonneg exclusive q2).
  assert (count exclusive q1 = 0) as Hq1 by lia.
  unfold client_exec. destruct s as [sh ps]. eapply pool_exec_at; [exact Hu|]. simpl in *.
  by rewrite (ln_head _ _ _ _ Hl), land_weight, Hq1, Z.add_0_r, Z.eqb_refl.
Qed.
End theorems.

(** ** Concrete runs, with the production width *)

Local Abbreviation L16 := (shared_ticket_lock 16).
Local Abbreviation LL16 := (shared_ticket_lock_laws 16 eq_refl).

Definition go (u : nat) : nat * client_choice L16 := (u, InLock L16 tt).
Definition ask (u : nat) (op : lock_op) : nat * client_choice L16 := (u, Call L16 op).
Definition start3 : pool (@lock_state L16) (standing L16) :=
  Pool (@lock_init L16) [l_out; l_out; l_out].
Definition after_run (ls : list (nat * client_choice L16)) : pool (@lock_state L16) (standing L16) :=
  default start3 (run_in (client_exec L16) (covered L16 (LL := LL16)) start3 ls).

Lemma shared_run_reached ls :
  run_in (client_exec L16) (covered L16 (LL := LL16)) start3 ls = Some (after_run ls) ->
  reached 16 eq_refl (after_run ls).
Proof. intros H. eapply run_in_reachable; [|by exists 3%nat|exact H]. done. Qed.

(** A reader is in; a second reader has drawn its ticket. *)
Definition two_readers : list (nat * client_choice L16) :=
  [ask 0 op_lock_shared; go 0; go 0; ask 1 op_lock_shared; go 1].

(** The readers have left; a writer and a third reader wait in line. *)
Definition writer_waits : list (nat * client_choice L16) :=
  two_readers ++ [ask 2 op_lock; go 2; go 1; ask 0 op_unlock_shared; go 0; ask 1 op_unlock_shared; go 1].

Lemma shared_ticket_excludes_witness :
  pcs (after_run (writer_waits ++ [go 2])) !! 2%nat = Some l_in /\ 2%nat = 2%nat.
Proof.
  split; [reflexivity|].
  apply (shared_ticket_excludes 16 eq_refl (after_run (writer_waits ++ [go 2])) 2 2);
    [apply shared_run_reached; reflexivity|reflexivity|left; reflexivity].
Defined.

Lemma shared_ticket_handover_witness :
  exists v y, pcs (after_run writer_waits) !! v = Some y /\
    ready 16 (Prelude.shared (after_run writer_waits)) y = true.
Proof.
  apply (shared_ticket_handover 16 eq_refl (after_run writer_waits) 2
           (l_busy (L := L16) op_lock (SharedTicketLock.LockLoad (2 * 2 ^ 16) 0 2)));
    [apply shared_run_reached; reflexivity|reflexivity|reflexivity|reflexivity].
Defined.

Lemma readers_share_witness :
  client_exec L16 (after_run two_readers) (1%nat, InLock L16 tt)
  = Some (Pool (Prelude.shared (after_run two_readers)) (<[1%nat := l_shared]> (pcs (after_run two_readers)))).
Proof.
  apply (readers_share 16 eq_refl (after_run two_readers) 1 0 0);
    [apply shared_run_reached; reflexivity|reflexivity|reflexivity].
Defined.

(** The factor lock_shared hands to its back-off is taken from the masked tail
    and the unmasked head: with one reader gone and one writer ahead it is not 1
    but close to the largest word. *)
Lemma shared_backoff_factor_wrong :
  pcs <$> run (client_exec L16) start3
    [ask 0 op_lock_shared; go 0; go 0; ask 0 op_unlock_shared; go 0;
     ask 1 op_lock; go 1; go 1; ask 2 op_lock_shared; go 2; go 2]
  = Some [l_out; l_in;
          l_busy (L := L16) op_lock_shared (SharedTicketLock.SharedBackoff 1 (2 ^ 32 - 2 ^ 16 + 1) 1)].
Proof. reflexivity. Qed.
