(* ===== verification/SharedOrder.v ===== *)
(** * shared_ticket_lock and memory orders (evenk/spinlock.h: shared_ticket_lock)

    The lock over [Memory], with the orders of the source.  A writer has to know
    of all accesses before it, a reader of all writes: readers leave with a
    read-modify-write, so that the store a writer acquires is in the release
    sequences of all readers, and the stores a reader acquires are in the release
    sequence of the last writer.  Every store of [head_] and [tail_] adds one
    ticket; the history variables tell how many of them are exclusive. *)

From stdpp Require Import prelude functions.
From S2P Require Import Prelude Memory Lock SharedTicket LockOrder.
Local Open Scope Z_scope.

(** The location of the accesses of reader [u]. *)
Definition reads (u : nat) : nat := 3 + u.

Definition at_store (g : list Z) (i : nat) : Z := default 0 (g !! i).

Module WeakShared.
Import SharedTicketLock.

Definition hd : nat := 0.
Definition tl : nat := 1.

(** [g_he] and [g_te] are history: the exclusive tickets returned at each store of
    [head_], and taken at each store of [tail_]. *)
Record state : Type := State { mem : memory; g_he : list Z; g_te : list Z }.

Definition he_at (s : state) (i : nat) : Z := at_store (g_he s) i.
Definition hs_at (s : state) (i : nat) : Z := Z.of_nat i - he_at s i.
Definition te_at (s : state) (i : nat) : Z := at_store (g_te s) i.
Definition ts_at (s : state) (i : nat) : Z := Z.of_nat i - te_at s i.

(** The arguments [ge] and [gs] are history, as in [SharedTicketLock]; [v] is the
    store of [head_] the thread knew of when it took its ticket, and [i] the one
    it read. *)
Inductive pc : Type :=
| LockFetchAdd
| LockLoad (tail ge gs : Z) (v : nat)
| LockBackoff (tail factor ge gs : Z) (v : nat)
| TryHead
| TryTail (head ge gs : Z) (i : nat)
| TryCas (tail ge gs : Z) (i : nat)
| UnlockLoad
| UnlockStore (head : Z)
| SharedFetchAdd
| SharedLoad (tail ge : Z) (v : nat)
| SharedBackoff (tail factor ge : Z) (v : nat)
| TrySharedHead
| TrySharedTail (head ge : Z) (i : nat)
| TrySharedCas (tail ge gs : Z) (i : nat)
| UnlockSharedFetchAdd.

Definition enter (op : lock_op) : option pc :=
  match op with
  | op_lock => Some LockFetchAdd
  | op_try_lock => Some TryHead
  | op_unlock => Some UnlockLoad
  | op_lock_shared => Some SharedFetchAdd
  | op_try_lock_shared => Some TrySharedHead
  | op_unlock_shared => Some UnlockSharedFetchAdd
  end.

Section width.
Context (h : Z).

(** The tickets taken, exclusive and shared. *)
Definition te (s : state) : Z := te_at s (latest (mem s) tl).
Definition ts (s : state) : Z := ts_at s (latest (mem s) tl).
Definition he (s : state) : Z := he_at s (latest (mem s) hd).
Definition hs (s : state) : Z := hs_at s (latest (mem s) hd).

(** A store of [tail_], with [e] exclusive tickets more, or of [head_]. *)
Definition stored_tail (s : state) (m : memory) (e : Z) : state := State m (g_he s) (g_te s ++ [te s + e]).
Definition stored_head (s : state) (m : memory) (e : Z) : state := State m (g_he s ++ [he s + e]) (g_te s).
Definition with_mem (s : state) (m : memory) : state := State m (g_he s) (g_te s).

(** The choice is the store a load returns, also the one of a compare-exchange
    that fails. *)
Definition step (std : standard) (u : nat) (s : state) (p : pc) (c : option nat) : option (state * (pc + bool)) :=
  match p, c with
  | LockFetchAdd, None =>
      let x := rmw relaxed u tl (fun z => base h (z + exclusive_step)) (mem s) in
      Some (stored_tail s x.2 1, inl (LockLoad x.1 (te s) (ts s) (m_view (mem s) u hd)))
  | LockLoad tail ge gs v, Some t =>
      x ← load acquire u hd t (mem s);
      Some (with_mem s x.2, if tail =? x.1 then inr true else inl (LockBackoff tail (base h (tail - x.1)) ge gs v))
  | LockBackoff tail _ ge gs v, None => Some (s, inl (LockLoad tail ge gs v))
  | TryHead, Some t =>
      x ← load acquire u hd t (mem s);
      Some (with_mem s x.2, inl (TryTail x.1 (he_at s t) (hs_at s t) t))
  | TryTail head ge gs i, Some t =>
      x ← load relaxed u tl t (mem s);
      Some (with_mem s x.2, if head =? x.1 then inl (TryCas x.1 ge gs i) else inr false)
  | TryCas tail _ _ _, None =>
      '(_, ok, m) ← compare_exchange relaxed u tl tail (base h (tail + exclusive_step)) None (mem s);
      Some (stored_tail s m 1, inr ok)
  | TryCas tail _ _ _, Some t =>
      '(_, ok, m) ← compare_exchange relaxed u tl tail (base h (tail + exclusive_step)) (Some t) (mem s);
      Some (with_mem s m, inr ok)
  | UnlockLoad, Some t =>
      x ← load relaxed u hd t (mem s); Some (with_mem s x.2, inl (UnlockStore x.1))
  | UnlockStore head, None =>
      Some (stored_head s (store std release u hd (base h (head + exclusive_step)) (mem s)) 1, inr true)
  | SharedFetchAdd, None =>
      let x := rmw relaxed u tl (fun z => base h (z + shared_step h)) (mem s) in
      Some (stored_tail s x.2 0, inl (SharedLoad (Z.land x.1 (exclusive_mask h)) (te s) (m_view (mem s) u hd)))
  | SharedLoad tail ge v, Some t =>
      x ← load acquire u hd t (mem s);
      Some (with_mem s x.2, if tail =? Z.land x.1 (exclusive_mask h) then inr true
                            else inl (SharedBackoff tail (base h (tail - x.1)) ge v))
  | SharedBackoff tail _ ge v, None => Some (s, inl (SharedLoad tail ge v))
  | TrySharedHead, Some t =>
      x ← load acquire u hd t (mem s); Some (with_mem s x.2, inl (TrySharedTail x.1 (he_at s t) t))
  | TrySharedTail head ge i, Some t =>
      x ← load relaxed u tl t (mem s);
      Some (with_mem s x.2, if Z.land head (exclusive_mask h) =? Z.land x.1 (exclusive_mask h)
                            then inl (TrySharedCas x.1 (te_at s t) (ts_at s t) i) else inr false)
  | TrySharedCas tail _ _ _, None =>
      '(_, ok, m) ← compare_exchange relaxed u tl tail (base h (tail + shared_step h)) None (mem s);
      Some (stored_tail s m 0, inr ok)
  | TrySharedCas tail _ _ _, Some t =>
      '(_, ok, m) ← compare_exchange relaxed u tl tail (base h (tail + shared_step h)) (Some t) (mem s);
      Some (with_mem s m, inr ok)
  | UnlockSharedFetchAdd, None =>
      Some (stored_head s (rmw release u hd (fun z => base h (z + shared_step h)) (mem s)).2 0, inr true)
  | _, _ => None
  end.

(** The words a thread may compare with its ticket, or find in place of those it
    read, have not come full circle. *)
Definition window (s : state) (p : pc) : bool :=
  match p with
  | LockLoad _ ge gs v => weight h (ge - he_at s v) (gs - hs_at s v) <? 2 ^ (2 * h)
  | SharedLoad _ ge v => ge - he_at s v <? 2 ^ h
  | TryCas _ ge gs _ | TrySharedCas _ ge gs _ => weight h (te s - ge) (ts s - gs) <? 2 ^ (2 * h)
  | TrySharedTail _ ge _ => te s - ge <? 2 ^ h
  | _ => true
  end.
End width.
End WeakShared.

Definition weak_shared_lock (std : standard) (h : Z) : Lock := {|
  lock_state := WeakShared.state; lock_init := WeakShared.State memory_init [0] [0];
  lock_pc := WeakShared.pc; lock_choice := option nat;
  lock_enter := WeakShared.enter; lock_step := WeakShared.step h std |}.

(** ** Stores and tickets *)

Section counted.
Context (h : Z) (Hh : 0 < h).
Import SharedTicketLock.

(** The stores of a word show the tickets they count. *)
Record counted (log : list message) (g : list Z) : Prop := {
  cn_length : length g = length log;
  cn_value i x : log !! i = Some x -> m_value x = base h (weight h (at_store g i) (Z.of_nat i - at_store g i));
  cn_mono i j : (i <= j < length log)%nat ->
    at_store g i <= at_store g j /\ Z.of_nat i - at_store g i <= Z.of_nat j - at_store g j;
}.

Lemma counted_init : counted [Message 0 [(0%nat, fun _ => 0%nat)]] [0].
Proof.
  split; [done| |].
  - intros i x [-> <-]%list_lookup_singleton_Some. unfold base, weight, wrap, at_store. simpl. by rewrite Z.mul_0_r.
  - simpl. intros i j Hij. assert (i = 0%nat) as -> by lia. assert (j = 0%nat) as -> by lia. done.
Qed.

Lemma at_store_app g g' i : (i < length g)%nat -> at_store (g ++ g') i = at_store g i.
Proof. intros Hi. unfold at_store. by rewrite lookup_app_l. Qed.

Lemma at_store_snoc g e : at_store (g ++ [e]) (length g) = e.
Proof. unfold at_store. by rewrite list_lookup_middle. Qed.

Lemma counted_snoc log g x e :
  counted log g -> log <> [] -> e = 0 \/ e = 1 ->
  m_value x = base h (weight h (at_store g (pred (length log)) + e)
                        (Z.of_nat (length log) - (at_store g (pred (length log)) + e))) ->
  counted (log ++ [x]) (g ++ [at_store g (pred (length log)) + e]).
Proof.
  intros [H1 H2 H3] Hne He Hx. assert (0 < length log)%nat as Hpos by (destruct log; [done|simpl; lia]).
  set (z := at_store g (pred (length log)) + e) in *.
  assert (at_store (g ++ [z]) (length log) = z) as Elast by (rewrite <- H1; apply at_store_snoc).
  split.
  - rewrite !length_app. simpl. lia.
  - intros i y [[Hi Hy]|[-> <-]]%lookup_snoc_Some; [|by rewrite Elast].
    rewrite at_store_app by lia. by apply H2.
  - rewrite length_app. simpl. intros i j Hij.
    destruct (decide (j = length log)) as [->|Hj]; [|rewrite !at_store_app by lia; apply H3; lia].
    rewrite Elast. destruct (decide (i = length log)) as [->|Hi]; [rewrite Elast; lia|].
    rewrite at_store_app by lia. destruct (H3 i (pred (length log))); [lia|]. unfold z. lia.
Qed.
End counted.

Section invariant.
Import WeakShared.
Context {std : standard} (h : Z) (Hh : 0 < h).

Local Abbreviation st := (standing (weak_shared_lock std h)).
Local Abbreviation busy := (l_busy (L := weak_shared_lock std h)).

(** ** The lock without the orders *)

Definition newest (s : state) : SharedTicketLock.state :=
  SharedTicketLock.State (value_of (mem s) hd) (value_of (mem s) tl) (he s) (hs s) (te s) (ts s).

Definition plain_pc (p : pc) : SharedTicketLock.pc :=
  match p with
  | LockFetchAdd => SharedTicketLock.LockFetchAdd
  | LockLoad tail ge gs _ => SharedTicketLock.LockLoad tail ge gs
  | LockBackoff tail factor ge gs _ => SharedTicketLock.LockBackoff tail factor ge gs
  | TryHead => SharedTicketLock.TryHead
  | TryTail head ge gs _ => SharedTicketLock.TryTail head ge gs
  | TryCas tail ge gs _ => SharedTicketLock.TryCas tail ge gs
  | UnlockLoad => SharedTicketLock.UnlockLoad
  | UnlockStore head => SharedTicketLock.UnlockStore head
  | SharedFetchAdd => SharedTicketLock.SharedFetchAdd
  | SharedLoad tail ge _ => SharedTicketLock.SharedLoad tail ge
  | SharedBackoff tail factor ge _ => SharedTicketLock.SharedBackoff tail factor ge
  | TrySharedHead => SharedTicketLock.TrySharedHead
  | TrySharedTail head ge _ => SharedTicketLock.TrySharedTail head ge
  | TrySharedCas tail ge gs _ => SharedTicketLock.TrySharedCas tail ge gs
  | UnlockSharedFetchAdd => SharedTicketLock.UnlockSharedFetchAdd
  end.

Local Abbreviation plain := (map_standing (L := weak_shared_lock std h) (L' := shared_ticket_lock h) plain_pc).
Local Abbreviation in_line := (SharedTicket.in_line h).
Local Abbreviation line := (SharedTicket.line h).

(** ** What the threads know *)

Definition writing (x : st) : bool := match x with l_in | l_busy op_unlock _ => true | _ => false end.
Definition reading (x : st) : bool := match x with l_shared | l_busy op_unlock_shared _ => true | _ => false end.

Definition know (s : state) (u : nat) (x : st) : Prop :=
  match x with
  | l_in | l_busy op_unlock _ =>
      (forall d, atomic d = false -> synced d (mem s) u) /\ m_view (mem s) u hd = latest (mem s) hd
  | l_shared | l_busy op_unlock_shared _ => synced data (mem s) u
  | l_busy op_lock (LockLoad _ _ _ v) | l_busy op_lock (LockBackoff _ _ _ _ v)
  | l_busy op_lock_shared (SharedLoad _ _ v) | l_busy op_lock_shared (SharedBackoff _ _ _ v) =>
      (v <= m_view (mem s) u hd)%nat
  | l_busy op_try_lock (TryTail _ ge gs i) | l_busy op_try_lock (TryCas _ ge gs i) =>
      acquired hd (mem s) u i /\ (i <= m_view (mem s) u hd)%nat /\ ge = he_at s i /\ gs = hs_at s i
  | l_busy op_try_lock_shared (TrySharedTail _ ge i) => acquired hd (mem s) u i /\ ge = he_at s i
  | l_busy op_try_lock_shared (TrySharedCas _ ge _ i) => acquired hd (mem s) u i /\ ge <= he_at s i
  | _ => True
  end.

Record weak_shared_inv (s : state) (f : nat -> st) : Prop := {
  ws_wf : wf (mem s);
  ws_line : exists q, line (newest s) (fun u => plain (f u)) q;
  ws_head : counted h (m_log (mem s) hd) (g_he s);
  ws_tail : counted h (m_log (mem s) tl) (g_te s);
  ws_know u : know s u (f u);
  ws_own u : synced (reads u) (mem s) u;
  (** with no writer inside, all stores since the last one hand over the writes *)
  ws_writes :
    (forall u, writing (f u) = false) ->
    forall i x, m_log (mem s) hd !! i = Some x -> he_at s i = he s -> handed data (mem s) x;
  (** and the last one what readers did that are gone *)
  ws_reads :
    (forall u, writing (f u) = false) ->
    forall d, atomic d = false -> (forall u, d = reads u -> reading (f u) = false) -> handed d (mem s) (last_msg (mem s) hd);
}.

Lemma weak_shared_init : weak_shared_inv (State memory_init [0] [0]) (fun _ => l_out).
Proof.
  split; try done; [apply wf_init|exists []; by apply shared_line_start|apply counted_init|apply counted_init| |].
  - intros _ i x [-> <-]%list_lookup_singleton_Some _. exists (0%nat, fun _ => 0%nat). split; [by left|done].
  - intros _ d _ _. exists (0%nat, fun _ => 0%nat). split; [by left|done].
Qed.

Lemma he_at_grows s s' g i u :
  counted h (m_log (mem s) hd) (g_he s) -> g_he s' = g_he s ++ g -> acquired hd (mem s) u i -> he_at s' i = he_at s i.
Proof.
  intros Hc Eg (x & Hx%lookup_lt_Some & _). unfold he_at. rewrite Eg. apply at_store_app.
  rewrite (cn_length _ _ _ Hc). done.
Qed.

Lemma shared_know_extends s s' u x g :
  counted h (m_log (mem s) hd) (g_he s) -> extends (mem s) (mem s') -> g_he s' = g_he s ++ g ->
  latest (mem s') hd = latest (mem s) hd \/ writing x = false -> know s u x -> know s' u x.
Proof.
  intros Hc Hx Eg Hl. pose proof (ex_view _ _ Hx u hd) as Hv. pose proof (wf_view _ (ex_wf _ _ Hx) u hd) as Hk.
  assert (forall i, acquired hd (mem s) u i -> acquired hd (mem s') u i /\ he_at s' i = he_at s i) as Ha.
  { intros i Hi. split; [by eapply extends_acquired|by eapply he_at_grows]. }
  assert (writing x = true -> (forall d, atomic d = false -> synced d (mem s) u) /\ m_view (mem s) u hd = latest (mem s) hd ->
    (forall d, atomic d = false -> synced d (mem s') u) /\ m_view (mem s') u hd = latest (mem s') hd) as Hs.
  { intros Ex [Hs E]. split; [intros d Hd; apply (extends_synced d (mem s)); auto|]. destruct Hl as [Hl|Hl]; [lia|congruence]. }
  assert (synced data (mem s) u -> synced data (mem s') u) as Hd by (by eapply extends_synced).
  destruct x as [| | |[] []]; simpl; try done; auto; try lia.
  all: intros (Hi & Hrest); destruct (Ha _ Hi) as [Hi' Ei]; unfold hs_at in *; rewrite Ei; intuition lia.
Qed.

(** Nobody writes, or reads, after a step of [u]: nobody did before. *)
Lemma writing_before (f : nat -> st) u (x : st) :
  (writing (f u) = true -> writing x = true) -> (forall v, writing ((<[u := x]> f) v) = false) ->
  forall v, writing (f v) = false.
Proof.
  intros Hx H v. specialize (H v). destruct (decide (v = u)) as [->|]; [|by rewrite fn_lookup_insert_ne in H].
  rewrite fn_lookup_insert in H. destruct (writing (f u)); [|done]. by rewrite Hx in H.
Qed.

Lemma reading_before (f : nat -> st) u (x : st) d :
  (reading (f u) = true -> reading x = true) -> (forall v, d = reads v -> reading ((<[u := x]> f) v) = false) ->
  forall v, d = reads v -> reading (f v) = false.
Proof.
  intros Hx H v Ev. specialize (H v Ev). destruct (decide (v = u)) as [->|]; [|by rewrite fn_lookup_insert_ne in H].
  rewrite fn_lookup_insert in H. destruct (reading (f u)); [|done]. by rewrite Hx in H.
Qed.

Lemma shared_line_ext s (f g : nat -> standing (shared_ticket_lock h)) q :
  (forall u, f u = g u) -> line s f q -> line s g q.
Proof. intros E [H1 H2 H3 H4 H5 H6 H7]. split; try done; intros u; rewrite <- E; auto. Qed.

(** A step that stores nothing in [head_]. *)
Lemma weak_shared_update s s' (f : nat -> st) u x q :
  weak_shared_inv s f -> extends (mem s) (mem s') -> m_log (mem s') hd = m_log (mem s) hd -> g_he s' = g_he s ->
  counted h (m_log (mem s') tl) (g_te s') ->
  line (newest s') (<[u := plain x]> (fun v => plain (f v))) q -> know s' u x ->
  (writing (f u) = true -> writing x = true) -> (reading (f u) = true -> reading x = true) ->
  weak_shared_inv s' (<[u := x]> f).
Proof.
  intros H Hx El Eg Ht Hl Hk Hw Hr. assert (last_msg (mem s') hd = last_msg (mem s) hd) as Em by (unfold last_msg; by rewrite El).
  assert (latest (mem s') hd = latest (mem s) hd) as Et by (unfold latest; by rewrite El).
  split; [apply Hx| |by rewrite El, Eg; apply H|done| | | |].
  - exists q. eapply shared_line_ext; [|exact Hl]. intros v. symmetry. apply map_standing_insert.
  - intros v. destruct (decide (v = u)) as [->|Hv]; [by rewrite fn_lookup_insert|]. rewrite fn_lookup_insert_ne by done.
    eapply (shared_know_extends s s' v _ []); [apply H|done|by rewrite app_nil_r|by left|apply H].
  - intros v. eapply extends_synced; [done|done|apply H].
  - intros Hf i y Hy Hi. rewrite El in Hy. eapply extends_handed; [done|done|].
    eapply (ws_writes _ _ H); [by eapply writing_before|done|]. unfold he, he_at in *. by rewrite Eg, Et in Hi.
  - intros Hf d Hd Hrd. rewrite Em. eapply extends_handed; [done|done|].
    apply (ws_reads _ _ H); [by eapply writing_before|done|by eapply reading_before].
Qed.

(** Only the standing of [u] changes. *)
Lemma weak_shared_stay s (f : nat -> st) u x q :
  weak_shared_inv s f -> line (newest s) (fun v => plain (f v)) q -> Z.of_nat u < 2 ^ h ->
  in_line (newest s) q u (plain x) -> know s u x ->
  (writing (f u) = true -> writing x = true) -> (reading (f u) = true -> reading x = true) ->
  weak_shared_inv s (<[u := x]> f).
Proof.
  intros H Hl Hid Hi Hk Hw Hr.
  apply (weak_shared_update s s f u x q); try done; [apply extends_refl, H|apply H|by apply shared_line_same].
Qed.

(** A load. *)
Lemma weak_shared_quiet s m (f : nat -> st) u x q :
  weak_shared_inv s f -> extends (mem s) m -> m_log m = m_log (mem s) ->
  line (newest s) (fun v => plain (f v)) q -> Z.of_nat u < 2 ^ h -> in_line (newest s) q u (plain x) ->
  know (with_mem s m) u x ->
  (writing (f u) = true -> writing x = true) -> (reading (f u) = true -> reading x = true) ->
  weak_shared_inv (with_mem s m) (<[u := x]> f).
Proof.
  intros H Hx El Hl Hid Hi Hk Hw Hr.
  assert (newest (with_mem s m) = newest s) as En.
  { unfold newest, with_mem, he, hs, te, ts, he_at, hs_at, te_at, ts_at, value_of, last_msg, latest. simpl. by rewrite El. }
  apply (weak_shared_update s _ f u x q); simpl; rewrite ?El; try done.
  - unfold he_at. apply H.
  - rewrite En. by apply shared_line_same.
Qed.

(** The words are those of the counters. *)
Lemma word_value l g m :
  wf m -> counted h (m_log m l) g ->
  value_of m l = SharedTicketLock.base h (SharedTicketLock.weight h (at_store g (latest m l)) (Z.of_nat (latest m l) - at_store g (latest m l))).
Proof. intros W Hc. apply (cn_value _ _ _ Hc), log_last, W. Qed.

Lemma log_length m l : wf m -> length (m_log m l) = S (latest m l).
Proof. intros W. pose proof (wf_log _ W l). unfold latest. by destruct (m_log m l). Qed.

(** A store of [tail_]. *)
Lemma tail_store s (f : nat -> st) u z e :
  let m := (rmw relaxed u tl (fun _ => z) (mem s)).2 in
  weak_shared_inv s f -> e = 0 \/ e = 1 ->
  z = SharedTicketLock.base h (SharedTicketLock.weight h (te s + e) (ts s + 1 - e)) ->
  counted h (m_log m tl) (g_te (stored_tail s m e)) /\
  newest (stored_tail s m e)
  = SharedTicketLock.State (value_of (mem s) hd) z (he s) (hs s) (te s + e) (ts s + 1 - e).
Proof.
  intros m H He Hz. pose proof (ws_wf _ _ H) as W. pose proof (log_length (mem s) tl W) as Hlen.
  pose proof (cn_length _ _ _ (ws_tail _ _ H)) as Hg.
  assert (latest m tl = S (latest (mem s) tl)) as El by (unfold m, rmw; simpl; by rewrite append_latest).
  assert (te (stored_tail s m e) = te s + e) as Ete.
  { unfold te at 1, te_at. simpl. rewrite El, <- Hlen, <- Hg. apply at_store_snoc. }
  split.
  - unfold m, rmw. simpl. rewrite fn_lookup_insert. unfold te, te_at, latest.
    apply counted_snoc; [apply H|apply W|done|]. simpl. rewrite Hz.
    unfold ts, ts_at, te, te_at, latest. rewrite Hlen. simpl. do 2 f_equal. lia.
  - unfold newest. rewrite Ete.
    assert (ts (stored_tail s m e) = ts s + 1 - e) as ->.
    { change (Z.of_nat (latest m tl) - te (stored_tail s m e) = Z.of_nat (latest (mem s) tl) - te s + 1 - e). lia. }
    unfold he, hs, he_at, hs_at, m, rmw, value_of. simpl. rewrite !append_last, append_latest by done. done.
Qed.

Lemma tail_value s (f : nat -> st) :
  weak_shared_inv s f -> value_of (mem s) tl = SharedTicketLock.base h (SharedTicketLock.weight h (te s) (ts s)).
Proof. intros H. apply (word_value tl); apply H. Qed.

Lemma head_value s (f : nat -> st) :
  weak_shared_inv s f -> value_of (mem s) hd = SharedTicketLock.base h (SharedTicketLock.weight h (he s) (hs s)).
Proof. intros H. apply (word_value hd); apply H. Qed.

(** A ticket is taken. *)
Lemma weak_shared_take s (f : nat -> st) u x q z :
  let s' := stored_tail s (rmw relaxed u tl (fun _ => z) (mem s)).2 1 in
  weak_shared_inv s f -> z = SharedTicketLock.base h (value_of (mem s) tl + SharedTicketLock.exclusive_step) ->
  line (newest s) (fun v => plain (f v)) q -> Z.of_nat u < 2 ^ h -> u ∉ q.*1 ->
  in_line (SharedTicketLock.take h (newest s)) (q ++ [(u, exclusive)]) u (plain x) -> know s' u x ->
  writing (f u) = false -> reading (f u) = false -> weak_shared_inv s' (<[u := x]> f).
Proof.
  intros s' H Hz Hl Hid Hq Hi Hk Hw Hr. pose proof (ws_wf _ _ H) as W.
  destruct (tail_store s f u z 1) as [Hc En]; [done|by right| |].
  { rewrite Hz, (tail_value s f H). unfold SharedTicketLock.base, SharedTicketLock.exclusive_step, SharedTicketLock.weight.
    rewrite wrap_add_l by lia. f_equal. lia. }
  apply (weak_shared_update s s' f u x (q ++ [(u, exclusive)])); try done; [by apply extends_rmw| |congruence|congruence].
  fold s' in En. rewrite En. replace (SharedTicketLock.State _ _ _ _ _ _) with (SharedTicketLock.take h (newest s)).
  - by apply shared_line_take.
  - unfold SharedTicketLock.take, newest. simpl. f_equal; [done|lia].
Qed.

Lemma weak_shared_take_shared s (f : nat -> st) u x q z :
  let s' := stored_tail s (rmw relaxed u tl (fun _ => z) (mem s)).2 0 in
  weak_shared_inv s f -> z = SharedTicketLock.base h (value_of (mem s) tl + SharedTicketLock.shared_step h) ->
  line (newest s) (fun v => plain (f v)) q -> Z.of_nat u < 2 ^ h -> u ∉ q.*1 ->
  in_line (SharedTicketLock.take_shared h (newest s)) (q ++ [(u, shared_)]) u (plain x) -> know s' u x ->
  writing (f u) = false -> reading (f u) = false -> weak_shared_inv s' (<[u := x]> f).
Proof.
  intros s' H Hz Hl Hid Hq Hi Hk Hw Hr. pose proof (ws_wf _ _ H) as W.
  destruct (tail_store s f u z 0) as [Hc En]; [done|by left| |].
  { rewrite Hz, (tail_value s f H). unfold SharedTicketLock.base, SharedTicketLock.shared_step, SharedTicketLock.weight.
    rewrite wrap_add_l by lia. f_equal. lia. }
  apply (weak_shared_update s s' f u x (q ++ [(u, shared_)])); try done; [by apply extends_rmw| |congruence|congruence].
  fold s' in En. rewrite En. replace (SharedTicketLock.State _ _ _ _ _ _) with (SharedTicketLock.take_shared h (newest s)).
  - by apply line_take_shared.
  - unfold SharedTicketLock.take_shared, newest. simpl. f_equal; [done|lia|lia].
Qed.

(** ** Who enters *)

(** With a writer inside, the line begins with it. *)
Lemma writing_first s (f : nat -> st) q u :
  line (newest s) (fun v => plain (f v)) q -> writing (f u) = true -> behind q u exclusive [].
Proof.
  intros Hl Hu. pose proof (SharedTicket.ln_line _ _ _ _ Hl u) as Hi. cbv beta in Hi.
  destruct (f u) as [| | |[] []]; simpl in *; try done. by destruct Hi.
Qed.

Lemma reading_place s (f : nat -> st) q u :
  line (newest s) (fun v => plain (f v)) q -> reading (f u) = true -> exists q1, behind q u shared_ q1 /\ count exclusive q1 = 0.
Proof.
  intros Hl Hu. pose proof (SharedTicket.ln_line _ _ _ _ Hl u) as Hi. cbv beta in Hi.
  by destruct (f u) as [| | |[] []].
Qed.

(** A thread behind no writer: nobody writes. *)
Lemma no_writer s (f : nat -> st) q u k q1 :
  line (newest s) (fun v => plain (f v)) q -> behind q u k q1 -> count exclusive q1 = 0 -> writing (f u) = false ->
  forall v, writing (f v) = false.
Proof.
  intros Hl [q2 Eq] Hc Hu v. destruct (writing (f v)) eqn:Ev; [|done].
  destruct (writing_first s f q v Hl Ev) as [q3 Eq3]. rewrite Eq in Eq3.
  destruct q1 as [|[w k'] q1]; simpl in Eq3; injection Eq3 as -> ->; [congruence|].
  exfalso. simpl in Hc. pose proof (count_nonneg exclusive q1). lia.
Qed.

(** A thread that is first in line for itself: nobody reads either. *)
Lemma no_reader s (f : nat -> st) q u :
  line (newest s) (fun v => plain (f v)) q -> behind q u exclusive [] -> forall v, reading (f v) = false.
Proof.
  intros Hl [q2 Eq] v. destruct (reading (f v)) eqn:Ev; [|done].
  destruct (reading_place s f q v Hl Ev) as (q1 & [q3 Eq3] & Hc). rewrite Eq in Eq3.
  destruct q1 as [|e q1]; [done|]. injection Eq3 as <- _. exfalso. simpl in Hc. pose proof (count_nonneg exclusive q1). lia.
Qed.

Lemma load_counted o u l t m z m' g :
  wf m -> counted h (m_log m l) g -> load o u l t m = Some (z, m') ->
  z = SharedTicketLock.base h (SharedTicketLock.weight h (at_store g t) (Z.of_nat t - at_store g t)) /\
  (m_view m u l <= t <= latest m l)%nat.
Proof.
  intros W Hc (x & Ht & Hx & -> & _)%load_Some. split; [by apply (cn_value _ _ _ Hc)|]. split; [done|by eapply log_latest].
Qed.

(** The counters at the stores of [head_] grow. *)
Lemma head_mono s (f : nat -> st) i j :
  weak_shared_inv s f -> (i <= j <= latest (mem s) hd)%nat -> he_at s i <= he_at s j /\ hs_at s i <= hs_at s j.
Proof.
  intros H Hij. apply (cn_mono _ _ _ (ws_head _ _ H)). rewrite log_length by apply H. lia.
Qed.

Lemma head_last s i : he_at s i = he s -> hs_at s i = hs s -> i = latest (mem s) hd.
Proof. unfold hs, hs_at, he. lia. Qed.

Lemma weight_mono e s e' s' : e <= e' -> s <= s' -> SharedTicketLock.weight h e s <= SharedTicketLock.weight h e' s'.
Proof. intros. unfold SharedTicketLock.weight. pose proof (half_pos h Hh). nia. Qed.

(** The last store of [head_] hands over everything to a thread that is alone. *)
Lemma alone_synced s (f : nat -> st) u q m :
  weak_shared_inv s f -> line (newest s) (fun v => plain (f v)) q -> q = [] \/ behind q u exclusive [] ->
  writing (f u) = false -> extends (mem s) m -> acquired hd m u (latest (mem s) hd) -> m_log m hd = m_log (mem s) hd ->
  forall d, atomic d = false -> synced d m u.
Proof.
  intros H Hl Hq Hw Hx Ha El d Hd. pose proof (ws_wf _ _ H) as W.
  eapply acquired_synced; [apply Hx|done|rewrite El; by apply log_last|].
  eapply extends_handed; [done|done|]. apply (ws_reads _ _ H); [|done|].
  - destruct Hq as [-> |Hq]; [|by eapply no_writer]. intros v. destruct (writing (f v)) eqn:E; [|done].
    destruct (writing_first s f [] v Hl E) as [q2 ?]. by simplify_eq/=.
  - intros v _. destruct Hq as [-> |Hq]; [|by eapply no_reader]. destruct (reading (f v)) eqn:E; [|done].
    destruct (reading_place s f [] v Hl E) as (q1 & [q2 ?] & _). by destruct q1.
Qed.

Lemma weak_shared_enter s (f : nat -> st) u tail ge gs v t m q :
  weak_shared_inv s f -> f u = busy op_lock (LockLoad tail ge gs v) ->
  SharedTicketLock.weight h (ge - he_at s v) (gs - hs_at s v) < 2 ^ (2 * h) ->
  load acquire u hd t (mem s) = Some (tail, m) -> line (newest s) (fun v => plain (f v)) q ->
  behind q u exclusive [] /\ know (with_mem s m) u l_in.
Proof.
  intros H Hu Hw Hld Hl. pose proof (ws_wf _ _ H) as W. pose proof (load_wf _ _ _ _ _ _ _ W Hld) as W'.
  pose proof (ws_know _ _ H u) as Hv. rewrite Hu in Hv. simpl in Hv.
  pose proof (SharedTicket.ln_line _ _ _ _ Hl u) as Hi. cbv beta in Hi. rewrite Hu in Hi.
  destruct Hi as (Et & q1 & Hb & Hge & Hgs). simpl in Hge, Hgs.
  destruct (load_counted _ _ _ _ _ _ _ _ W (ws_head _ _ H) Hld) as [Ez Ht].
  fold (he_at s t) in Ez. fold (hs_at s t) in Ez.
  destruct (head_mono s f v t H) as [M1 M2]; [lia|]. destruct (head_mono s f t (latest (mem s) hd) H) as [M3 M4]; [lia|].
  fold (he s) in M3. fold (hs s) in M4. pose proof (count_nonneg exclusive q1). pose proof (count_nonneg shared_ q1).
  destruct (weight_eq h Hh (he_at s t) (hs_at s t) (ge - he_at s t) (gs - hs_at s t)) as [E1 E2]; try lia.
  { rewrite !Zplus_minus. congruence. }
  { eapply Z.le_lt_trans; [|exact Hw]. apply weight_mono; lia. }
  assert (q1 = []) as -> by (pose proof (count_length q1); destruct q1; [done|simpl in *; lia]).
  simpl in Hge, Hgs. assert (t = latest (mem s) hd) as -> by (apply head_last; lia). split; [done|].
  destruct (load_acquired _ _ _ _ _ _ Hld) as [Hacq Hview].
  split; [|pose proof (wf_view _ W' u hd); apply load_Some in Hld as (? & _ & _ & _ & ->); unfold latest in *; simpl in *; lia].
  apply (alone_synced s f u q m); try done; [by right|by rewrite Hu|by eapply extends_load|].
  by apply load_Some in Hld as (? & _ & _ & _ & ->).
Qed.

Lemma weak_shared_read s (f : nat -> st) u tail ge v t z m q :
  weak_shared_inv s f -> f u = busy op_lock_shared (SharedLoad tail ge v) -> ge - he_at s v < 2 ^ h ->
  load acquire u hd t (mem s) = Some (z, m) -> tail = Z.land z (SharedTicketLock.exclusive_mask h) ->
  line (newest s) (fun v => plain (f v)) q ->
  in_line (newest s) q u l_shared /\ synced data m u.
Proof.
  intros H Hu Hw Hld Htail Hl. pose proof (ws_wf _ _ H) as W.
  pose proof (ws_know _ _ H u) as Hv. rewrite Hu in Hv. simpl in Hv.
  pose proof (SharedTicket.ln_line _ _ _ _ Hl u) as Hi. cbv beta in Hi. rewrite Hu in Hi.
  destruct Hi as (Et & q1 & Hb & Hge). simpl in Hge.
  destruct (load_counted _ _ _ _ _ _ _ _ W (ws_head _ _ H) Hld) as [Ez Ht]. fold (he_at s t) in Ez.
  destruct (head_mono s f v t H) as [M1 _]; [lia|]. destruct (head_mono s f t (latest (mem s) hd) H) as [M3 _]; [lia|].
  fold (he s) in M3. pose proof (count_nonneg exclusive q1).
  rewrite Ez, land_weight, Et in Htail by done.
  assert (ge - he_at s t = 0). { apply (residue_eq h Hh (he_at s t)); [rewrite Zplus_minus; done|lia]. }
  assert (count exclusive q1 = 0) as Hc by lia. split; [by exists q1|].
  pose proof Hld as (x & _ & Hx & _ & _)%load_Some.
  apply (load_synced data u hd t (mem s) z m x); [done..|].
  apply (ws_writes _ _ H) with (i := t); [|done|lia]. eapply no_writer; [done|done|done|by rewrite Hu].
Qed.

Lemma weak_shared_try s (f : nat -> st) u tail ge gs i q :
  weak_shared_inv s f -> f u = busy op_try_lock (TryCas tail ge gs i) ->
  SharedTicketLock.weight h (te s - ge) (ts s - gs) < 2 ^ (2 * h) -> value_of (mem s) tl = tail ->
  line (newest s) (fun v => plain (f v)) q -> q = [] /\ know s u l_in.
Proof.
  intros H Hu Hw Hv Hl. pose proof (ws_wf _ _ H) as W.
  pose proof (ws_know _ _ H u) as Hk. rewrite Hu in Hk. destruct Hk as (Hacq & Hview & Ege & Egs).
  pose proof (SharedTicket.ln_line _ _ _ _ Hl u) as Hi. cbv beta in Hi. rewrite Hu in Hi. destruct Hi as (Hq & Et & Hge & Hgs).
  pose proof (SharedTicket.ln_exclusive _ _ _ _ Hl) as L1. pose proof (SharedTicket.ln_shared _ _ _ _ Hl) as L2.
  pose proof (count_nonneg exclusive q). pose proof (count_nonneg shared_ q). simpl in Hge, Hgs, L1, L2.
  destruct (line_still h Hh _ _ q ge gs Hl) as [E1 E2]; simpl; try done; [lia|congruence|]. simpl in E1, E2.
  assert (q = []) as -> by (eapply line_none; [done|simpl; lia|simpl; lia]). split; [done|].
  assert (i = latest (mem s) hd) as -> by (apply head_last; lia).
  split; [|pose proof (wf_view _ W u hd); lia].
  apply (alone_synced s f u []); try done; [by left|by rewrite Hu].
Qed.

Lemma weak_shared_try_shared s (f : nat -> st) u tail ge gs i q :
  weak_shared_inv s f -> f u = busy op_try_lock_shared (TrySharedCas tail ge gs i) ->
  SharedTicketLock.weight h (te s - ge) (ts s - gs) < 2 ^ (2 * h) -> value_of (mem s) tl = tail ->
  line (newest s) (fun v => plain (f v)) q -> count exclusive q = 0 /\ synced data (mem s) u.
Proof.
  intros H Hu Hw Hv Hl. pose proof (ws_wf _ _ H) as W.
  pose proof (ws_know _ _ H u) as Hk. rewrite Hu in Hk. destruct Hk as [Hacq Hge'].
  pose proof (SharedTicket.ln_line _ _ _ _ Hl u) as Hi. cbv beta in Hi. rewrite Hu in Hi. destruct Hi as (Hq & Et & Hge & Hgs).
  pose proof (SharedTicket.ln_exclusive _ _ _ _ Hl) as L1. pose proof (count_nonneg exclusive q). simpl in Hge, Hgs, L1.
  destruct (line_still h Hh _ _ q ge gs Hl) as [E1 E2]; simpl; try done; [congruence|]. simpl in E1.
  assert (count exclusive q = 0) as Hc by lia. split; [done|]. pose proof Hacq as (x & Hx & _).
  assert (i <= latest (mem s) hd)%nat as Hil by by eapply log_latest.
  destruct (head_mono s f i (latest (mem s) hd) H) as [M _]; [lia|]. fold (he s) in M.
  eapply acquired_synced; [done|done|done|]. apply (ws_writes _ _ H) with (i := i); [|done|lia].
  intros v. destruct (writing (f v)) eqn:E; [|done]. destruct (writing_first s f q v Hl E) as [q2 ->].
  simpl in Hc. pose proof (count_nonneg exclusive q2). lia.
Qed.

(** ** Stores of [head_] *)

Lemma head_store s (f : nat -> st) m z e :
  weak_shared_inv s f -> e = 0 \/ e = 1 ->
  m_log m tl = m_log (mem s) tl -> (exists x, m_log m hd = m_log (mem s) hd ++ [x] /\ m_value x = z) ->
  z = SharedTicketLock.base h (SharedTicketLock.weight h (he s + e) (hs s + 1 - e)) ->
  counted h (m_log m hd) (g_he (stored_head s m e)) /\
  newest (stored_head s m e)
  = SharedTicketLock.State z (value_of (mem s) tl) (he s + e) (hs s + 1 - e) (te s) (ts s) /\
  latest m hd = S (latest (mem s) hd) /\
  (forall i, (i <= latest (mem s) hd)%nat -> he_at (stored_head s m e) i = he_at s i) /\
  he (stored_head s m e) = he s + e.
Proof.
  intros H He Etl (x & Ehd & Ex) Hz. pose proof (ws_wf _ _ H) as W. pose proof (log_length (mem s) hd W) as Hlen.
  pose proof (cn_length _ _ _ (ws_head _ _ H)) as Hg.
  assert (latest m hd = S (latest (mem s) hd)) as El by (unfold latest; rewrite Ehd, length_app; simpl; lia).
  assert (he (stored_head s m e) = he s + e) as Ehe.
  { unfold he at 1, he_at. simpl. rewrite El, <- Hlen, <- Hg. apply at_store_snoc. }
  split_and!; try done.
  - rewrite Ehd. simpl. unfold he, he_at, latest. apply counted_snoc; [apply H|apply W|done|]. rewrite Ex, Hz.
    unfold hs, hs_at, he, he_at, latest. rewrite Hlen. simpl. do 2 f_equal. lia.
  - unfold newest. rewrite Ehe.
    assert (hs (stored_head s m e) = hs s + 1 - e) as ->.
    { change (Z.of_nat (latest m hd) - he (stored_head s m e) = Z.of_nat (latest (mem s) hd) - he s + 1 - e). lia. }
    unfold te, ts, te_at, ts_at, value_of, last_msg, latest. simpl. rewrite Ehd, Etl, last_snoc. simpl. by rewrite Ex.
  - intros i Hi. unfold he_at. simpl. apply at_store_app. lia.
Qed.

(** Common to both: the thread leaves, the last store is new. *)
Lemma weak_shared_leave s (f : nat -> st) u m z e q :
  weak_shared_inv s f -> e = 0 \/ e = 1 -> extends (mem s) m ->
  m_log m tl = m_log (mem s) tl -> (exists x, m_log m hd = m_log (mem s) hd ++ [x] /\ m_value x = z) ->
  z = SharedTicketLock.base h (SharedTicketLock.weight h (he s + e) (hs s + 1 - e)) ->
  line (SharedTicketLock.State z (value_of (mem s) tl) (he s + e) (hs s + 1 - e) (te s) (ts s))
    (<[u := l_out]> (fun v => plain (f v))) q ->
  (forall v, v <> u -> writing (f v) = false) -> (e = 0 -> writing (f u) = false) ->
  handed data m (last_msg m hd) ->
  (forall d, atomic d = false -> (forall v, d = reads v -> v <> u -> reading (f v) = false) -> handed d m (last_msg m hd)) ->
  weak_shared_inv (stored_head s m e) (<[u := l_out]> f).
Proof.
  intros H He Hx Etl Ehd Hz Hl Hw Hwu Hd Hr. pose proof (ex_wf _ _ Hx) as W'.
  destruct (head_store s f m z e H He Etl Ehd Hz) as (Hc & En & El & Ei & Ehe).
  split; [done| |done|by simpl; rewrite Etl; apply H| | | |].
  - exists q. rewrite En. eapply shared_line_ext; [|exact Hl]. intros v. symmetry.
    exact (map_standing_insert (L := weak_shared_lock std h) (L' := shared_ticket_lock h) plain_pc f u l_out v).
  - intros v. destruct (decide (v = u)) as [->|Hv]; [by rewrite fn_lookup_insert|]. rewrite fn_lookup_insert_ne by done.
    eapply (shared_know_extends s _ v _ [he s + e]); [apply H|done|done|right; by apply Hw|apply H].
  - intros v. eapply extends_synced; [done|done|apply H].
  - intros Hf i y Hy Hi. simpl in Hy. rewrite Ehe in Hi.
    assert (i <= latest m hd)%nat as Hle by by eapply log_latest.
    destruct (decide (i = latest m hd)) as [->|Hne]; [by apply latest_msg in Hy as ->|].
    rewrite Ei in Hi by lia. destruct (head_mono s f i (latest (mem s) hd) H) as [M _]; [lia|]. fold (he s) in M.
    assert (e = 0) as -> by (destruct He; [done|lia]). eapply extends_handed; [done|done|].
    apply (ws_writes _ _ H) with (i := i); [|destruct Ehd as (x & Ehd & _); rewrite Ehd in Hy|lia].
    + intros v. destruct (decide (v = u)) as [->|]; auto.
    + rewrite lookup_app_l in Hy; [done|]. rewrite log_length by apply H. lia.
  - intros Hf d Hd' Hrd. apply Hr; [done|]. intros v Ev Hv. specialize (Hrd v Ev). by rewrite fn_lookup_insert_ne in Hrd.
Qed.

Lemma weak_shared_unlock s (f : nat -> st) u head :
  weak_shared_inv s f -> f u = busy op_unlock (UnlockStore head) ->
  weak_shared_inv
    (stored_head s (store std release u hd (SharedTicketLock.base h (head + SharedTicketLock.exclusive_step)) (mem s)) 1)
    (<[u := l_out]> f).
Proof.
  intros H Hu. pose proof (ws_wf _ _ H) as W. destruct (ws_line _ _ H) as [q Hl].
  pose proof (ws_know _ _ H u) as Hk. rewrite Hu in Hk. destruct Hk as [Hsync Hview].
  pose proof (SharedTicket.ln_line _ _ _ _ Hl u) as Hi. cbv beta in Hi. rewrite Hu in Hi. destruct Hi as [[q2 ->] ->]. simpl.
  assert (forall v, v <> u -> writing (f v) = false) as Hw.
  { intros v Hv. destruct (writing (f v)) eqn:E; [|done]. destruct (writing_first s f _ v Hl E) as [q3 E3]. simpl in E3. congruence. }
  eapply (weak_shared_leave s f u _ _ 1 q2); [done|by right|by apply extends_store| | | | |done|done| |].
  - unfold store. simpl. by rewrite fn_lookup_insert_ne.
  - eexists. split; [|reflexivity]. unfold store. simpl. rewrite fn_lookup_insert. done.
  - simpl. rewrite (head_value s f H). unfold SharedTicketLock.base, SharedTicketLock.exclusive_step, SharedTicketLock.weight.
    rewrite wrap_add_l by lia. f_equal. lia.
  - pose proof (shared_line_leave h Hh _ _ _ _ Hl) as Hl'. simpl in Hl' |- *. by replace (hs s + 1 - 1) with (hs s) by lia.
  - apply store_handed; [done|done|by apply Hsync].
  - intros d Hd _. apply store_handed; [done|intros ->; done|by apply Hsync].
Qed.

Lemma weak_shared_unlock_shared s (f : nat -> st) u :
  weak_shared_inv s f -> f u = busy op_unlock_shared UnlockSharedFetchAdd ->
  weak_shared_inv
    (stored_head s (rmw release u hd (fun z => SharedTicketLock.base h (z + SharedTicketLock.shared_step h)) (mem s)).2 0)
    (<[u := l_out]> f).
Proof.
  intros H Hu. pose proof (ws_wf _ _ H) as W. destruct (ws_line _ _ H) as [q Hl].
  pose proof (ws_own _ _ H u) as Hown.
  pose proof (SharedTicket.ln_line _ _ _ _ Hl u) as Hi. cbv beta in Hi. rewrite Hu in Hi. destruct Hi as (q1 & [q2 ->] & Hc).
  assert (forall v, writing (f v) = false) as Hw.
  { eapply no_writer; [done|by eexists|done|by rewrite Hu]. }
  set (g := fun z => SharedTicketLock.base h (z + SharedTicketLock.shared_step h)).
  assert (extends (mem s) (rmw release u hd g (mem s)).2) as Hx by by apply extends_rmw.
  pose proof (rmw_heads release u hd g (mem s) W) as Hheads.
  eapply (weak_shared_leave s f u _ _ 0 (q1 ++ q2)); [done|by left|done| | | | |auto|done| |].
  - unfold rmw. simpl. by rewrite fn_lookup_insert_ne.
  - eexists. split; [|reflexivity]. unfold rmw. simpl. rewrite fn_lookup_insert. done.
  - unfold g. simpl. change (m_value (last_msg (mem s) hd)) with (value_of (mem s) hd).
    rewrite (head_value s f H). unfold SharedTicketLock.base, SharedTicketLock.shared_step, SharedTicketLock.weight.
    rewrite wrap_add_l by lia. f_equal. lia.
  - pose proof (line_leave_shared h Hh _ _ _ _ _ Hl Hc) as Hl'. simpl in Hl' |- *.
    replace (he s + 0) with (he s) by lia. by replace (hs s + 1 - 0) with (hs s + 1) by lia.
  - eapply handed_heads; [done|]. eapply extends_handed; [done|done|].
    apply (ws_writes _ _ H) with (i := latest (mem s) hd); [done|by apply log_last|done].
  - intros d Hd Hrd. destruct (decide (d = reads u)) as [->|Hne]; [by apply rmw_handed|].
    eapply handed_heads; [done|]. eapply extends_handed; [done|done|]. apply (ws_reads _ _ H); [done|done|].
    intros v Ev. apply Hrd; [done|]. by intros ->.
Qed.

(** ** The methods *)

Lemma weak_shared_load o l t z m s (f : nat -> st) u x q :
  weak_shared_inv s f -> load o u l t (mem s) = Some (z, m) ->
  line (newest s) (fun v => plain (f v)) q -> Z.of_nat u < 2 ^ h -> in_line (newest s) q u (plain x) ->
  know (with_mem s m) u x ->
  (writing (f u) = true -> writing x = true) -> (reading (f u) = true -> reading x = true) ->
  weak_shared_inv (with_mem s m) (<[u := x]> f).
Proof.
  intros H Hl. eapply weak_shared_quiet; [done|eapply extends_load; [apply H|done]|].
  by apply load_Some in Hl as (? & _ & _ & _ & ->).
Qed.

Lemma shared_load_know o l t z m s (f : nat -> st) u x :
  weak_shared_inv s f -> load o u l t (mem s) = Some (z, m) -> know s u x -> know (with_mem s m) u x.
Proof.
  intros H Hl. pose proof (extends_load _ _ _ _ _ _ _ (ws_wf _ _ H) Hl) as Hx.
  apply (shared_know_extends s (with_mem s m) u x []); [apply H|done|by rewrite app_nil_r|left].
  by apply load_Some in Hl as (? & _ & _ & _ & ->).
Qed.

(** A compare-exchange on [tail_]. *)
Lemma cas_cases u tail z c m x :
  compare_exchange relaxed u tl tail z c m = Some x ->
  (exists t z' m', c = Some t /\ load relaxed u tl t m = Some (z', m') /\ x = (z', false, m')) \/
  (c = None /\ value_of m tl = tail /\ x = (tail, true, (rmw relaxed u tl (fun _ => z) m).2)).
Proof.
  unfold compare_exchange. destruct c as [t|].
  - destruct (load relaxed u tl t m) as [[z' m']|] eqn:El; [|done]. simpl. destruct (z' =? tail); [done|].
    intros [= <-]. left. eauto 7.
  - destruct (Z.eqb_spec (value_of m tl) tail) as [E|]; [|done]. intros [= <-]. right. split; [done|]. split; [done|].
    unfold rmw. simpl. unfold value_of in E. by rewrite E.
Qed.

Lemma weak_exclusive_step s (f : nat -> st) u op p c s' r :
  op = op_lock \/ op = op_try_lock \/ op = op_unlock ->
  weak_shared_inv s f -> f u = busy op p -> window h s p = true -> step h std u s p c = Some (s', r) ->
  weak_shared_inv s' (<[u := resumed (L := weak_shared_lock std h) op r]> f).
Proof.
  intros Hop H Hu Hw Hs. pose proof (ws_wf _ _ H) as W. destruct (ws_line _ _ H) as [q Hl].
  pose proof (SharedTicket.ln_line _ _ _ _ Hl u) as Hi. cbv beta in Hi. rewrite Hu in Hi.
  pose proof (ws_know _ _ H u) as Hk. rewrite Hu in Hk.
  assert (Z.of_nat u < 2 ^ h) as Hid by (apply (SharedTicket.ln_ids _ _ _ _ Hl); cbv beta; by rewrite Hu).
  destruct op; try (by destruct Hop as [?|[?|?]]); destruct p; try (by destruct Hi); destruct c as [t|]; try done; cbn [step] in Hs.
  all: try (destruct (load _ u _ t (mem s)) as [[z m1]|] eqn:El; [|done]; cbn [mbind option_bind fst snd] in Hs; injection Hs as <- <-;
    eapply (weak_shared_load _ _ t z m1 s f u _ q); [done|done|done|done| | |by rewrite Hu|by rewrite Hu]).
  - injection Hs as <- <-.
    apply (weak_shared_take s f u _ q (SharedTicketLock.base h (value_of (mem s) tl + SharedTicketLock.exclusive_step)));
      rewrite ?Hu; try done; [|by apply (extends_rmw relaxed u tl)].
    split; [apply (tail_value s f H)|]. exists q. split; [by exists []|]. split; apply Hl.
  - destruct (Z.eqb_spec tail z) as [<-|]; [|done]. apply Z.ltb_lt in Hw. by eapply weak_shared_enter.
  - destruct (Z.eqb_spec tail z) as [<-|]; [|by eapply shared_load_know]. apply Z.ltb_lt in Hw. by eapply weak_shared_enter.
  - injection Hs as <- <-. apply (weak_shared_stay s f u _ q); rewrite ?Hu; done.
  - destruct (load_counted _ _ _ _ _ _ _ _ W (ws_head _ _ H) El) as [Ez Ht]. split; [done|]. split; [done|].
    apply (head_mono s f); [done|lia].
  - destruct (load_acquired _ _ _ _ _ _ El). done.
  - destruct (Z.eqb_spec head z) as [<-|]; [done|]. by destruct Hi.
  - destruct (Z.eqb_spec head z) as [<-|]; [|done]. by eapply (shared_load_know _ _ _ _ _ _ _ _ (busy op_try_lock (TryCas head ge gs i))).
  - destruct (compare_exchange relaxed u tl tail _ _ (mem s)) as [x|] eqn:Ec; [|done].
    apply cas_cases in Ec as [(t' & z' & m' & [= <-] & El & ->)|[? _]]; [|done]. injection Hs as <- <-.
    eapply (weak_shared_load _ _ t z' m' s f u _ q); rewrite ?Hu; try done. by destruct Hi.
  - destruct (compare_exchange relaxed u tl tail _ _ (mem s)) as [x|] eqn:Ec; [|done].
    apply cas_cases in Ec as [(t' & z' & m' & ? & _)|(_ & Ev & ->)]; [done|]. injection Hs as <- <-.
    apply Z.ltb_lt in Hw. destruct (weak_shared_try s f u tail ge gs i q H Hu Hw Ev Hl) as [-> Hin].
    apply (weak_shared_take s f u _ []); rewrite ?Hu; try done; [by rewrite Ev|apply not_elem_of_nil|by exists []|].
    eapply (shared_know_extends s _ u _ []); [apply H|by apply extends_rmw|by rewrite app_nil_r| |exact Hin].
    left. unfold rmw. simpl. by rewrite append_latest.
  - destruct Hk as [_ Hk]. destruct (load_counted _ _ _ _ _ _ _ _ W (ws_head _ _ H) El) as [Ez Ht].
    assert (t = latest (mem s) hd) as -> by lia. split; [done|]. rewrite Ez. symmetry. apply (head_value s f H).
  - by eapply (shared_load_know _ _ _ _ _ _ _ _ (busy op_unlock (UnlockStore z))).
  - injection Hs as <- <-. by apply weak_shared_unlock.
Qed.

(** The tail try_lock_shared accepts is not ahead of the head it read. *)
Lemma accepted_tail s (f : nat -> st) u head ge t z m :
  weak_shared_inv s f -> load relaxed u tl t (mem s) = Some (z, m) -> te s - ge < 2 ^ h ->
  Z.land head (SharedTicketLock.exclusive_mask h) = ge mod 2 ^ h ->
  Z.land head (SharedTicketLock.exclusive_mask h) = Z.land z (SharedTicketLock.exclusive_mask h) ->
  z = SharedTicketLock.base h (SharedTicketLock.weight h (te_at s t) (ts_at s t)) /\ te_at s t <= ge /\ ts_at s t <= ts s.
Proof.
  intros H El Hw Hh' E. destruct (load_counted _ _ _ _ _ _ _ _ (ws_wf _ _ H) (ws_tail _ _ H) El) as [Ez Ht].
  fold (te_at s t) in Ez. fold (ts_at s t) in Ez. split; [done|].
  destruct (cn_mono _ _ _ (ws_tail _ _ H) t (latest (mem s) tl)) as [M1 M2]; [rewrite log_length by apply H; lia|].
  fold (te_at s t) in M1, M2. fold (te_at s (latest (mem s) tl)) in M1, M2. fold (te s) in M1.
  split; [|exact M2]. rewrite Hh', Ez, land_weight in E by done.
  destruct (Z.le_gt_cases (te_at s t) ge); [done|].
  assert (te_at s t - ge = 0); [|lia]. apply (residue_eq h Hh ge); [rewrite Zplus_minus; done|lia].
Qed.

Lemma weak_reader_step s (f : nat -> st) u op p c s' r :
  op = op_lock_shared \/ op = op_try_lock_shared \/ op = op_unlock_shared ->
  weak_shared_inv s f -> f u = busy op p -> window h s p = true -> step h std u s p c = Some (s', r) ->
  weak_shared_inv s' (<[u := resumed (L := weak_shared_lock std h) op r]> f).
Proof.
  intros Hop H Hu Hw Hs. pose proof (ws_wf _ _ H) as W. destruct (ws_line _ _ H) as [q Hl].
  pose proof (SharedTicket.ln_line _ _ _ _ Hl u) as Hi. cbv beta in Hi. rewrite Hu in Hi.
  pose proof (ws_know _ _ H u) as Hk. rewrite Hu in Hk.
  assert (Z.of_nat u < 2 ^ h) as Hid by (apply (SharedTicket.ln_ids _ _ _ _ Hl); cbv beta; by rewrite Hu).
  destruct op; try (by destruct Hop as [?|[?|?]]); destruct p; try (by destruct Hi); destruct c as [t|]; try done; cbn [step] in Hs.
  all: try (destruct (load _ u _ t (mem s)) as [[z m1]|] eqn:El; [|done]; cbn [mbind option_bind fst snd] in Hs; injection Hs as <- <-;
    eapply (weak_shared_load _ _ t z m1 s f u _ q); [done|done|done|done| | |by rewrite Hu|by rewrite Hu]).
  - injection Hs as <- <-.
    apply (weak_shared_take_shared s f u _ q (SharedTicketLock.base h (value_of (mem s) tl + SharedTicketLock.shared_step h)));
      rewrite ?Hu; try done; [|by apply (extends_rmw relaxed u tl)].
    split; [|exists q; split; [by exists []|apply Hl]].
    simpl. change (m_value (last_msg (mem s) tl)) with (value_of (mem s) tl). by rewrite (tail_value s f H), land_weight.
  - destruct (Z.eqb_spec tail (Z.land z (SharedTicketLock.exclusive_mask h))) as [E|]; [|done].
    apply Z.ltb_lt in Hw. by eapply weak_shared_read.
  - destruct (Z.eqb_spec tail (Z.land z (SharedTicketLock.exclusive_mask h))) as [E|]; [|by eapply shared_load_know].
    apply Z.ltb_lt in Hw. by eapply (weak_shared_read s f u).
  - injection Hs as <- <-. apply (weak_shared_stay s f u _ q); rewrite ?Hu; done.
  - destruct (load_counted _ _ _ _ _ _ _ _ W (ws_head _ _ H) El) as [Ez Ht]. split; [done|].
    split; [by rewrite Ez, land_weight|]. apply (head_mono s f t (latest (mem s) hd) H). lia.
  - destruct (load_acquired _ _ _ _ _ _ El). done.
  - destruct Hi as (Hq & Eh & Hge). case_match eqn:E; [|done]. apply Z.eqb_eq in E. apply Z.ltb_lt in Hw.
    destruct (accepted_tail s f u head ge t z m1 H El Hw Eh E) as (Ez & M1 & M2). simpl in Hge |- *. split_and!; try done. lia.
  - destruct Hi as (Hq & Eh & Hge). case_match eqn:E; [|done]. apply Z.eqb_eq in E. apply Z.ltb_lt in Hw.
    destruct (accepted_tail s f u head ge t z m1 H El Hw Eh E) as (Ez & M1 & M2). destruct Hk as [Hacq Ege].
    eapply (shared_load_know _ _ _ _ _ _ f u (busy op_try_lock_shared (TrySharedCas z (te_at s t) (ts_at s t) i))); [done|done|].
    split; [done|]. lia.
  - destruct (compare_exchange relaxed u tl tail _ _ (mem s)) as [x|] eqn:Ec; [|done].
    apply cas_cases in Ec as [(t' & z' & m' & [= <-] & El & ->)|[? _]]; [|done]. injection Hs as <- <-.
    eapply (weak_shared_load _ _ t z' m' s f u _ q); rewrite ?Hu; try done. by destruct Hi.
  - destruct (compare_exchange relaxed u tl tail _ _ (mem s)) as [x|] eqn:Ec; [|done].
    apply cas_cases in Ec as [(t' & z' & m' & ? & _)|(_ & Ev & ->)]; [done|]. injection Hs as <- <-.
    apply Z.ltb_lt in Hw. destruct (weak_shared_try_shared s f u tail ge gs i q H Hu Hw Ev Hl) as [Hc Hsync].
    apply (weak_shared_take_shared s f u _ q); rewrite ?Hu; try done; [by rewrite Ev|by destruct Hi|exists q; by split; [exists []|]|].
    eapply extends_synced; [done|by apply extends_rmw|done].
  - injection Hs as <- <-. by apply weak_shared_unlock_shared.
Qed.

Lemma weak_shared_call s (f : nat -> st) u op p :
  weak_shared_inv s f -> callable (f u) op = true -> Z.of_nat u < 2 ^ h -> enter op = Some p ->
  weak_shared_inv s (<[u := busy op p]> f).
Proof.
  intros H Hc Hid He. destruct (ws_line _ _ H) as [q Hl]. pose proof (SharedTicket.ln_line _ _ _ _ Hl u) as Hi. cbv beta in Hi.
  pose proof (ws_know _ _ H u) as Hk.
  apply (weak_shared_stay s f u _ q); try done; destruct (f u), op; simpl in *; by simplify_eq.
Qed.

Lemma know_touch s u d v (x : st) :
  wf (mem s) -> hd <> d -> (writing x = true -> d = data /\ v = u) -> (reading x = true -> d <> data) ->
  know s v x -> know (with_mem s (touch u d (mem s))) v x.
Proof.
  intros W Hd Hw Hr Hk. set (m := touch u d (mem s)).
  assert (forall i, acquired hd (mem s) v i -> acquired hd m v i) as Ha by (intros; by apply touch_acquired).
  assert (m_view m v hd = m_view (mem s) v hd) as Ev by by apply touch_view.
  assert (latest m hd = latest (mem s) hd) as El by (unfold latest, m; by rewrite touch_log).
  assert (writing x = true -> (forall d, atomic d = false -> synced d (mem s) v) /\ m_view (mem s) v hd = latest (mem s) hd ->
    (forall d, atomic d = false -> synced d m v) /\ m_view m v hd = latest m hd) as Hs.
  { intros [-> ->]%Hw [Hs E]. rewrite Ev, E. split; [|done].
    intros d' Hd'. destruct (decide (d' = data)) as [->|]; [by apply touch_synced|apply touch_synced_ne; auto]. }
  assert (reading x = true -> synced data (mem s) v -> synced data m v) as Hs'.
  { intros Hx%Hr. apply touch_synced_ne; [done|congruence]. }
  destruct x as [| | |[] []]; simpl in *; try done; auto; try (by rewrite Ev); fold m; rewrite ?Ev; destruct_and?; auto.
Qed.

(** An access to the data, by a writer or a reader. *)
Lemma weak_shared_touch s (f : nat -> st) u d :
  weak_shared_inv s f -> (d = data /\ f u = l_in) \/ (d = reads u /\ f u = l_shared) ->
  weak_shared_inv (with_mem s (touch u d (mem s))) f.
Proof.
  intros H Hd. pose proof (ws_wf _ _ H) as W. destruct (ws_line _ _ H) as [q Hl].
  assert (hd <> d /\ tl <> d) as [D1 D2] by by destruct Hd as [[-> _]|[-> _]].
  assert (newest (with_mem s (touch u d (mem s))) = newest s) as En.
  { unfold newest, he, hs, te, ts, he_at, hs_at, te_at, ts_at, value_of, last_msg, latest.
    cbn [mem with_mem g_he g_te]. by rewrite !touch_log. }
  assert (forall v, writing (f v) = true -> d = data /\ v = u) as Hwr.
  { intros v Hv. destruct Hd as [[-> Hu]|[_ Hu]].
    - destruct (writing_first s f q v Hl Hv) as [q1 E1]. destruct (writing_first s f q u Hl) as [q2 E2]; [by rewrite Hu|].
      simpl in *. split; congruence.
    - destruct (reading_place s f q u Hl) as (q1 & Hb & Hc); [by rewrite Hu|].
      rewrite (no_writer s f q u _ q1 Hl Hb Hc) in Hv; [done|by rewrite Hu]. }
  assert (forall v, reading (f v) = true -> d <> data) as Hrd.
  { intros v Hv ->. destruct Hd as [[_ Hu]|[? _]]; [|done].
    rewrite (no_reader s f q u Hl) in Hv; [done|]. apply (writing_first s f q u Hl). by rewrite Hu. }
  split; [by apply touch_wf|exists q; by rewrite En|cbn [mem with_mem]; by rewrite touch_log; [apply H|]..| | | |].
  - intros v. apply know_touch; [done|done|apply Hwr|apply Hrd|apply H].
  - intros v. cbn [mem with_mem]. destruct (decide (d = reads v)) as [->|Hne].
    + destruct Hd as [[? _]|[E _]]; [done|]. unfold reads in E. assert (v = u) as -> by lia. by apply touch_synced.
    + apply touch_synced_ne; [done|congruence|apply H].
  - intros Hf i x Hx Hi. cbn [mem with_mem] in *. rewrite touch_log in Hx by done.
    destruct Hd as [[_ Hu]|[-> Hu]]; [specialize (Hf u); by rewrite Hu in Hf|].
    apply touch_handed_ne; [done|done|]. eapply (ws_writes _ _ H); [done|done|].
    unfold he in *. cbn [mem with_mem] in Hi. unfold latest in *. by rewrite touch_log in Hi.
  - intros Hf d' Hd' Hr. cbn [mem with_mem]. unfold last_msg. rewrite touch_log by done.
    destruct Hd as [[_ Hu]|[-> Hu]]; [specialize (Hf u); by rewrite Hu in Hf|].
    apply touch_handed_ne; [done|intros ->; specialize (Hr u eq_refl); by rewrite Hu in Hr|].
    by apply (ws_reads _ _ H).
Qed.
End invariant.

#[export] Instance weak_shared_laws std (h : Z) (Hh : 0 < h) : LockLaws (weak_shared_lock std h).
Proof.
  refine (Build_LockLaws (weak_shared_lock std h) (fun u _ => Z.of_nat u <? 2 ^ h) (WeakShared.window h)
            (weak_shared_inv h) _ _ _ _).
  - by apply weak_shared_init.
  - intros s f u op p H Hc Hm%Z.ltb_lt He. by apply weak_shared_call.
  - intros s f u op p c s' r H Hu Hw Hs.
    destruct op; first [by apply (weak_exclusive_step h Hh s f u _ p c s' r); auto
                       |by apply (weak_reader_step h Hh s f u _ p c s' r); auto].
  - intros s f u v H Hu Hv. destruct (ws_line _ _ _ H) as [q Hl].
    apply (line_excludes h _ _ q u v Hl); [by rewrite Hu|]. by destruct Hv as [-> | ->]; auto.
Defined.

(** ** Threads that access the data under the lock *)

Section guarded.
Context (std : standard) (h : Z) (Hh : 0 < h).
Import WeakShared.

Local Abbreviation L := (weak_shared_lock std h).
Local Abbreviation LL := (weak_shared_laws std h Hh).

(** A writer accesses the data, a reader reads it. *)
Definition shared_guarded_step (u : nat) (s : @lock_state L) (x : standing L) (c : guarded_choice L) :
    option (@lock_state L * standing L) :=
  match c, x with
  | Client _ c, _ => client_step L u s x c
  | Touch _, l_in => Some (with_mem s (touch u data (mem s)), l_in)
  | Touch _, l_shared => Some (with_mem s (touch u (reads u) (mem s)), l_shared)
  | Touch _, _ => None
  end.

Definition shared_guarded_exec : pool (@lock_state L) (standing L) -> nat * guarded_choice L ->
    option (pool (@lock_state L) (standing L)) := pool_exec shared_guarded_step.

Definition shared_guarded_reached : pool (@lock_state L) (standing L) -> Prop :=
  reachable_in shared_guarded_exec (client_start L) (fun s => covered (LL := LL) L s = true).

Lemma shared_guarded_inv s : shared_guarded_reached s -> client_inv (LL := LL) L s.
Proof.
  apply (invariant_in_reachable _ _ _ (client_inv (LL := LL) L)). destruct (client_invariant (LL := LL) L) as [H0 H1].
  split; [done|]. intros s0 [u c] s1 Hw Hi He Hw'. destruct c as [c|]; [by eapply (H1 s0 (u, c))|].
  pool_step He. destruct Hi as (f & Hf & Hi). assert (f u = p) as Hu by (rewrite Hf; unfold stand; by rewrite Hp).
  exists f. destruct p; try done; injection Ht as <- <-; simpl; rewrite list_insert_id by done.
  - split; [done|]. apply weak_shared_touch; auto.
  - split; [done|]. apply weak_shared_touch; auto.
Qed.

(** C8. In every run of shared_ticket_lock the windows cover, with the orders of the
    source: a writer inside is the only thread inside and knows of all accesses to
    the data, of the reads as well; a reader inside knows of all writes, and no
    writer is inside with it.  So no two conflicting accesses race. *)
Theorem shared_ticket_protects_data s u :
  shared_guarded_reached s ->
  (pcs s !! u = Some l_in ->
     (forall d, atomic d = false -> synced d (mem (shared s)) u) /\
     forall v, pcs s !! v = Some l_in \/ pcs s !! v = Some l_shared -> v = u) /\
  (pcs s !! u = Some l_shared ->
     synced data (mem (shared s)) u /\ forall v, pcs s !! v <> Some l_in).
Proof.
  intros (f & Hf & Hi)%shared_guarded_inv.
  assert (forall v x, pcs s !! v = Some x -> f v = x) as E by (intros v x Hv; rewrite Hf; unfold stand; by rewrite Hv).
  assert (forall v v' x, f v = l_in -> f v' = x -> x = l_in \/ x = l_shared -> v' = v) as Hex.
  { intros v v' x Hv Hv' Hx. symmetry. apply (lock_excludes (LockLaws := LL) (shared s) f v v'); [done|done|by rewrite Hv']. }
  pose proof (ws_know _ _ _ Hi u) as Hk. split; intros Hu%E; rewrite Hu in Hk; split; try apply Hk.
  - intros v [Hv%E|Hv%E]; eauto.
  - intros v Hv%E. specialize (Hex v u _ Hv Hu ltac:(auto)). congruence.
Qed.
End guarded.

(** ** A run *)

Local Abbreviation W16 := (weak_shared_lock cxx20 16).
Local Abbreviation WL16 := (weak_shared_laws cxx20 16 eq_refl).

(** Thread 0 writes, threads 1 and 2 read, and thread 3 writes; thread 1 reads the
    first store of [head_] before the last one. *)
Definition written_and_read : list (nat * guarded_choice W16) :=
  let call (u : nat) op := (u, Client W16 (Call W16 op)) in
  let go (u : nat) (c : option nat) := (u, Client W16 (InLock W16 c)) in
  let access (u : nat) := (u, Touch W16) in
  [call 0%nat op_lock; go 0%nat None; go 0%nat (Some 0%nat); access 0%nat; call 1%nat op_lock_shared; go 1%nat None;
   call 0%nat op_unlock; go 0%nat (Some 0%nat); go 0%nat None;
   go 1%nat (Some 0%nat); go 1%nat None; go 1%nat (Some 1%nat); access 1%nat;
   call 2%nat op_try_lock_shared; go 2%nat (Some 1%nat); go 2%nat (Some 2%nat); go 2%nat None; access 2%nat;
   call 3%nat op_lock; go 3%nat None;
   call 1%nat op_unlock_shared; go 1%nat None; call 2%nat op_unlock_shared; go 2%nat None;
   go 3%nat (Some 3%nat)].

Definition after_reads (ls : list (nat * guarded_choice W16)) : pool (@lock_state W16) (standing W16) :=
  default (Pool (@lock_init W16) (replicate 4 l_out))
    (run_in (shared_guarded_exec cxx20 16) (covered W16 (LL := WL16)) (Pool (@lock_init W16) (replicate 4 l_out)) ls).

Lemma after_reads_reached ls :
  bool_decide (is_Some (run_in (shared_guarded_exec cxx20 16) (covered W16 (LL := WL16)) (Pool (@lock_init W16) (replicate 4 l_out)) ls))
    = true ->
  shared_guarded_reached cxx20 16 eq_refl (after_reads ls).
Proof.
  unfold after_reads. destruct (run_in _ _ _ ls) eqn:E; [|done]. intros _.
  eapply run_in_reachable; [|by exists 4%nat|exact E]. done.
Qed.

Lemma after_reads_inside ls (u : nat) :
  (if pcs (after_reads ls) !! u is Some l_in then true else false) = true -> pcs (after_reads ls) !! u = Some l_in.
Proof. by destruct (pcs (after_reads ls) !! u) as [[]|]. Qed.

Lemma shared_ticket_protects_data_witness :
  pcs (after_reads written_and_read) !! 3%nat = Some l_in /\
  latest (WeakShared.mem (shared (after_reads written_and_read))) data = 1%nat /\
  latest (WeakShared.mem (shared (after_reads written_and_read))) (reads 2) = 1%nat /\
  synced data (WeakShared.mem (shared (after_reads written_and_read))) 3 /\
  synced (reads 2) (WeakShared.mem (shared (after_reads written_and_read))) 3.
Proof.
  assert (shared_guarded_reached cxx20 16 eq_refl (after_reads written_and_read)) as Hr
    by (apply after_reads_reached; vm_compute; reflexivity).
  assert (pcs (after_reads written_and_read) !! 3%nat = Some l_in) as H3
    by (apply after_reads_inside; vm_compute; reflexivity).
  destruct (shared_ticket_protects_data cxx20 16 eq_refl (after_reads written_and_read) 3 Hr) as [H _].
  destruct (H H3) as [Hs _]. split; [exact H3|]. split; [vm_compute; reflexivity|]. split; [vm_compute; reflexivity|].
  split; apply Hs; reflexivity.
Defined.
