(* ===== verification/FutexLock.v ===== *)
(** * The futex lock (evenk/synch.h: class futex_lock)

    The lock word is 0 (free), 1 (held) or 2 (held, and threads may sleep).
    Besides mutual exclusion the laws include that no wake-up is lost: as long
    as threads sleep, the word is 2 while somebody holds the lock, or somebody
    is on the way to wake a sleeper or to mark the word again. *)

From stdpp Require Import prelude functions.
From S2P Require Import Prelude Futex Lock.
Local Open Scope Z_scope.

Module FutexLock.
Record state : Type := State { word : Z; sleepers : list nat }.

Inductive pc : Type :=
(* lock *)
| LockCas
| LockBackoff (value : Z)
| LockExchange
| WaitEnter
| WaitSleep
| WaitExchange
(* try_lock *)
| TryCas
(* unlock *)
| UnlockSub
| UnlockStore
| UnlockWake.

(** What the environment decides: what the back-off returns, whether a sleeper
    is woken without reason, and whom the kernel wakes. *)
Inductive choice : Type :=
| Go
| Backoff (r : bool)
| Spurious
| Woken (l : list nat).

Definition enter (op : lock_op) : option pc :=
  match op with
  | op_lock => Some LockCas
  | op_try_lock => Some TryCas
  | op_unlock => Some UnlockSub
  | _ => None
  end.

(** A system call: sleep if the word is 2. *)
Definition sleep (u : nat) (s : state) : option state :=
  match futex_wait u (word s) 2 (sleepers s) with
  | Some q => Some (State (word s) q)
  | None => None
  end.

Definition step (u : nat) (s : state) (p : pc) (c : choice) : option (state * (pc + bool)) :=
  match p, c with
  | LockCas, Go =>
      if word s =? 0 then Some (State 1 (sleepers s), inr true)
      else Some (s, inl (LockBackoff (word s)))
  | LockBackoff value, Backoff r =>
      Some (s, inl (if r then (if value =? 2 then WaitEnter else LockExchange) else LockCas))
  | LockExchange, Go | WaitExchange, Go =>
      Some (State 2 (sleepers s), if word s =? 0 then inr true else inl WaitEnter)
  | WaitEnter, Go =>
      Some (match sleep u s with Some s' => (s', inl WaitSleep) | None => (s, inl WaitExchange) end)
  | WaitSleep, Go => if decide (u ∈ sleepers s) then None else Some (s, inl WaitExchange)
  | WaitSleep, Spurious => Some (State (word s) (without [u] (sleepers s)), inl WaitExchange)
  | TryCas, Go =>
      if word s =? 0 then Some (State 1 (sleepers s), inr true) else Some (s, inr false)
  | UnlockSub, Go =>
      Some (State (u32 (word s - 1)) (sleepers s), if word s =? 1 then inr true else inl UnlockStore)
  | UnlockStore, Go => Some (State 0 (sleepers s), inl UnlockWake)
  | UnlockWake, Woken l => q ← futex_wake 1 (sleepers s) l; Some (State (word s) q, inr true)
  | _, _ => None
  end.
End FutexLock.

Definition futex_lock : Lock := {|
  lock_state := FutexLock.state; lock_init := FutexLock.State 0 [];
  lock_pc := FutexLock.pc; lock_choice := FutexLock.choice;
  lock_enter := FutexLock.enter; lock_step := FutexLock.step |}.

Section invariant.
Import FutexLock.

Local Abbreviation st := (standing futex_lock).
Local Abbreviation busy := (l_busy (L := futex_lock)).

Definition holding (x : st) : bool :=
  match x with
  | l_in | l_busy op_unlock UnlockSub | l_busy op_unlock UnlockStore => true
  | _ => false
  end.

Definition good (x : st) : bool :=
  match x with
  | l_out | l_in => true
  | l_busy op_lock (LockCas | LockBackoff _ | LockExchange | WaitEnter | WaitSleep | WaitExchange) => true
  | l_busy op_try_lock TryCas => true
  | l_busy op_unlock (UnlockSub | UnlockStore | UnlockWake) => true
  | _ => false
  end.

(** The thread will wake a sleeper or mark the word for one. *)
Definition rouses (s : state) (u : nat) (x : st) : Prop :=
  match x with
  | l_busy op_unlock UnlockStore | l_busy op_unlock UnlockWake => True
  | l_busy op_lock WaitExchange => True
  | l_busy op_lock WaitSleep => u ∉ sleepers s
  | _ => False
  end.

Record futex_lock_inv (s : state) (f : nat -> st) : Prop := {
  fi_flag : flag_inv holding (negb (word s =? 0)) f;
  fi_word : 0 <= word s <= 2;
  fi_good u : good (f u) = true;
  fi_nodup : NoDup (sleepers s);
  fi_asleep u : u ∈ sleepers s -> f u = busy op_lock WaitSleep;
  (** while a thread is about to store 0, the word is not 0 *)
  fi_awake : sleepers s <> [] -> word s = 2 \/ exists u, rouses s u (f u);
}.

(** A step of [u] that leaves the sleepers alone. *)
Lemma inv_update s f u x w :
  futex_lock_inv s f -> good x = true -> 0 <= w <= 2 ->
  (f u = busy op_lock WaitSleep -> u ∉ sleepers s) ->
  (negb (w =? 0) = negb (word s =? 0) /\ holding x = holding (f u)) \/
  (negb (word s =? 0) = false /\ negb (w =? 0) = true /\ holding x = true) \/
  (negb (w =? 0) = false /\ holding (f u) = true /\ holding x = false) ->
  w = 2 \/ rouses s u x \/ (w = word s /\ ~ rouses s u (f u)) \/
    (word s <> 2 /\ ~ rouses s u (f u)) ->
  futex_lock_inv (State w (sleepers s)) (<[u := x]> f).
Proof.
  intros [H1 H2 H3 H4 H5 H6] Hg Hw Hu Hf Ha. split; simpl; try done.
  - by eapply flag_inv_update.
  - intros v. by fn_split.
  - intros v Hv. destruct (decide (v = u)) as [->|]; [|rewrite fn_lookup_insert_ne by done; auto].
    exfalso. by apply (Hu (H5 u Hv)).
  - intros Hs. destruct Ha as [->|[Ha|Ha]]; [by left|right; exists u; by rewrite fn_lookup_insert|].
    destruct (H6 Hs) as [E|[v Hv]].
    + destruct Ha as [[-> _]|[? _]]; [by left|done].
    + right. exists v. rewrite fn_lookup_insert_ne; [done|]. intros ->. by destruct Ha as [[_ ?]|[_ ?]].
Qed.

(** A thread goes to sleep: the word is 2. *)
Lemma inv_sleep s f u :
  futex_lock_inv s f -> f u = busy op_lock WaitEnter -> word s = 2 ->
  futex_lock_inv (State 2 (u :: sleepers s)) (<[u := busy op_lock WaitSleep]> f).
Proof.
  intros [H1 H2 H3 H4 H5 H6] Hu Hw. split; simpl; try done.
  - eapply flag_inv_update; [done|]. left. rewrite Hw, Hu. done.
  - intros v. by fn_split.
  - apply NoDup_cons. split; [|done]. intros Hin. apply H5 in Hin. congruence.
  - intros v [->|Hv]%elem_of_cons; [by rewrite fn_lookup_insert|].
    rewrite fn_lookup_insert_ne; [auto|]. intros ->. apply H5 in Hv. congruence.
  - by left.
Qed.

(** Sleepers leave the queue; each of them rouses. *)
Lemma inv_wake s f u x woken :
  futex_lock_inv s f -> good x = true -> holding x = holding (f u) ->
  (u ∉ sleepers s \/ u ∈ woken) ->
  woken ⊆ sleepers s -> (sleepers s <> [] -> woken <> [] \/ word s = 2) ->
  (u ∈ woken -> rouses (State (word s) (without woken (sleepers s))) u x) ->
  futex_lock_inv (State (word s) (without woken (sleepers s))) (<[u := x]> f).
Proof.
  intros [H1 H2 H3 H4 H5 H6] Hg Hh Hu Hsub Hne Hr. split; simpl; try done.
  - eapply flag_inv_update; [done|]. by left.
  - intros v. by fn_split.
  - by apply NoDup_without.
  - intros v [Hv Hnw]%elem_of_without. rewrite fn_lookup_insert_ne; [auto|].
    intros ->. by destruct Hu.
  - intros Hs. assert (sleepers s <> []) as Hs0 by (intros E; by rewrite E in Hs).
    destruct (Hne Hs0) as [Hw|]; [|by left]. right. destruct woken as [|v woken]; [done|].
    exists v. destruct (decide (v = u)) as [->|Hvu].
    + rewrite fn_lookup_insert. apply Hr. by left.
    + rewrite fn_lookup_insert_ne, (H5 v) by (try done; apply Hsub; by left). simpl.
      rewrite elem_of_without. intros [_ Hv]. apply Hv. by left.
Qed.

Lemma held_word s f u : futex_lock_inv s f -> holding (f u) = true -> word s <> 0.
Proof.
  intros H Hu E. destruct (fi_flag _ _ H) as [_ Hf]. rewrite E in Hf. simpl in Hf.
  assert (false = true) by (apply Hf; eauto). done.
Qed.

Lemma sleepers_elsewhere s f u op p :
  futex_lock_inv s f -> f u = busy op p -> p <> WaitSleep -> u ∉ sleepers s.
Proof. intros H Hu Hp Hin. apply (fi_asleep _ _ H) in Hin. congruence. Qed.

Lemma futex_lock_call s f u op p :
  futex_lock_inv s f -> callable (f u) op = true -> enter op = Some p ->
  futex_lock_inv s (<[u := busy op p]> f).
Proof.
  intros H Hc He. destruct s as [w q].
  apply (inv_update (State w q)); try done; [..|left; split; [done|]|right; right; left; split; [done|]].
  - destruct op; simpl in He; by simplify_eq.
  - apply H.
  - intros E. by rewrite E in Hc.
  - destruct (f u), op; simpl in *; by simplify_eq.
  - destruct (f u); simpl in *; [tauto..|by destruct op].
Qed.

Lemma futex_lock_step s f u op p c s' r :
  futex_lock_inv s f -> f u = busy op p -> step u s p c = Some (s', r) ->
  futex_lock_inv s' (<[u := resumed (L := futex_lock) op r]> f).
Proof.
  intros H Hu Hs. pose proof (fi_good _ _ H u) as Hg. rewrite Hu in Hg.
  pose proof (fi_word _ _ H) as Hw. pose proof (sleepers_elsewhere s f u op p H Hu) as Hnot.
  pose proof (held_word s f u H) as Hheld. rewrite Hu in Hheld.
  destruct s as [w q]. simpl in Hw, Hnot, Hheld.
  assert (forall x w', good x = true -> 0 <= w' <= 2 ->
    (p = WaitSleep -> u ∉ q) ->
    (negb (w' =? 0) = negb (w =? 0) /\ holding x = holding (busy op p)) \/
    (negb (w =? 0) = false /\ negb (w' =? 0) = true /\ holding x = true) \/
    (negb (w' =? 0) = false /\ holding (busy op p) = true /\ holding x = false) ->
    w' = 2 \/ rouses (State w q) u x \/ (w' = w /\ ~ rouses (State w q) u (busy op p)) \/
      (w <> 2 /\ ~ rouses (State w q) u (busy op p)) ->
    futex_lock_inv (State w' q) (<[u := x]> f)) as Hupd.
  { intros x w' H1 H2 H3 H4 H5. apply (inv_update (State w q)); rewrite ?Hu; try done. by intros [=]; auto. }
  assert (0 <> 2 /\ ~ False) as Hfree by (split; [lia|tauto]).
  destruct op, p; try done; destruct c; try done; simpl in Hs, Hg; unfold sleep in Hs; simpl in Hs.
  - destruct (Z.eqb_spec w 0) as [->|]; injection Hs as <- <-; apply Hupd; simpl; auto 7; lia.
  - injection Hs as <- <-. apply Hupd; simpl; try done; [by destruct r0, (value =? 2)|left|right; right; left].
    + split; [done|]. by destruct r0, (value =? 2).
    + by split; [|tauto].
  - injection Hs as <- <-. destruct (Z.eqb_spec w 0) as [->|]; apply Hupd; simpl; auto; try lia.
  - unfold futex_wait in Hs. case_decide as E; injection Hs as <- <-.
    + subst w. by apply (inv_sleep (State 2 q)).
    + apply Hupd; simpl; auto.
  - case_decide; [done|]. injection Hs as <- <-. apply Hupd; simpl; auto.
  - injection Hs as <- <-. destruct (decide (u ∈ q)) as [Hin|Hin].
    + apply (inv_wake (State w q) f u _ [u]); simpl; auto; try (by rewrite Hu); try done.
      * right. by left.
      * intros v ->%list_elem_of_singleton. done.
    + rewrite (without_none [u] q) by by intros x ->%list_elem_of_singleton.
      apply Hupd; simpl; auto.
  - injection Hs as <- <-. destruct (Z.eqb_spec w 0) as [->|]; apply Hupd; simpl; auto; try lia.
  - destruct (Z.eqb_spec w 0) as [->|]; injection Hs as <- <-; apply Hupd; simpl; auto 7; lia.
  - specialize (Hheld eq_refl).
    rewrite (wrap_small 32 (w - 1)) in Hs by lia.
    destruct (Z.eqb_spec w 1) as [->|]; injection Hs as <- <-; apply Hupd; simpl; auto; try lia.
  - injection Hs as <- <-. apply Hupd; simpl; auto; lia.
  - destruct (futex_wake 1 q l) as [q'|] eqn:Ew; [|done]. simpl in Hs. injection Hs as <- <-.
    apply futex_wake_Some in Ew as [Hcw ->].
    apply (inv_wake (State w q) f u _ l); simpl; auto; try (by rewrite Hu).
    + apply Hcw.
    + intros Hq. left. by apply (can_wake_nonempty 1 q l).
    + intros Hin. exfalso. by apply (Hnot ltac:(done)), Hcw.
Qed.

Lemma futex_lock_inv_start : futex_lock_inv (State 0 []) (fun _ => l_out).
Proof. split; simpl; try done; [by apply flag_inv_init|apply NoDup_nil_2|]. intros u Hu. by apply not_elem_of_nil in Hu. Qed.

(** Only the values of the standings matter. *)
Lemma futex_lock_inv_ext l f g :
  (forall u, f u = g u) -> futex_lock_inv l f -> futex_lock_inv l g.
Proof.
  intros E [[H1 H1'] H2 H3 H4 H5 H6]. split; try done.
  - split; [intros u v; rewrite <- !E; apply H1|]. rewrite H1'.
    split; intros [u Hu]; exists u; by rewrite E in * || rewrite <- E in *.
  - intros u. by rewrite <- E.
  - intros u. rewrite <- E. apply H5.
  - intros Hs. destruct (H6 Hs) as [?|[u Hu]]; [by left|right; exists u]. by rewrite <- E.
Qed.
End invariant.

#[export] Instance futex_lock_laws : LockLaws futex_lock.
Proof.
  refine (Build_LockLaws futex_lock (fun _ _ => true) (fun _ _ => true) futex_lock_inv _ _ _ _).
  - apply futex_lock_inv_start.
  - intros s f u op p H Hc _ He. by apply futex_lock_call.
  - intros s f u op p c s' r H Hu _ Hs. by eapply futex_lock_step.
  - intros s f u v H Hu Hv. pose proof (fi_good _ _ H v) as Hg.
    destruct Hv as [Hv|Hv]; rewrite Hv in Hg; [|done].
    apply (fl_once _ _ _ (fi_flag _ _ H)); by rewrite ?Hu, ?Hv.
Defined.

(** ** Theorems *)

Lemma futex_covered s : covered futex_lock s = true.
Proof. apply forallb_forall. intros u _. by destruct (pcs s !! u) as [[]|]. Qed.

Lemma futex_reachable_inv s :
  reachable (client_exec futex_lock) (client_start futex_lock) s ->
  exists f, (forall u, f u = stand futex_lock (pcs s) u) /\ futex_lock_inv (shared s) f.
Proof.
  intros Hs. refine (invariant_in_reachable _ _ _ _ s (client_invariant futex_lock) _).
  eapply reachable_in_weaken; [|exact Hs]. intros t _. apply futex_covered.
Qed.

(** futex_lock excludes, whatever back-offs return, whomever the kernel
    wakes, and with spurious wake-ups. *)
Theorem futex_lock_excludes : excludes futex_lock.
Proof. by apply (total_excludes futex_lock). Qed.

(** C10. futex_lock loses no wake-up: whenever a thread sleeps on the lock,
    either the lock is held with the word at 2, so that its unlock will wake
    somebody, or some thread is about to wake a sleeper or to set the word to 2
    again. *)
Theorem futex_lock_no_lost_wakeup s :
  reachable (client_exec futex_lock) (client_start futex_lock) s ->
  FutexLock.sleepers (shared s) <> [] ->
  exists u x, pcs s !! u = Some x /\
    ((holding x = true /\ FutexLock.word (shared s) = 2) \/ rouses (shared s) u x).
Proof.
  intros Hs Hq. destruct (futex_reachable_inv s Hs) as (f & Hf & H).
  assert (forall u x, f u = x -> x <> l_out -> pcs s !! u = Some x) as Hat.
  { intros u x E Hx. rewrite Hf in E. unfold stand in E.
    destruct (pcs s !! u) as [y|]; simpl in E; congruence. }
  destruct (fi_awake _ _ H Hq) as [Hw|[u Hu]].
  - destruct (fi_flag _ _ H) as [_ Hfl]. rewrite Hw in Hfl.
    destruct (proj1 Hfl eq_refl) as [u Hu]. exists u, (f u). split; [|by left].
    apply Hat; [done|]. intros E. by rewrite E in Hu.
  - exists u, (f u). split; [|by right]. apply Hat; [done|]. intros E. by rewrite E in Hu.
Qed.

(** Thread 1 sleeps while thread 0 is inside. *)
Definition contended : list (nat * client_choice futex_lock) :=
  let go c := InLock futex_lock c in
  [(0%nat, Call futex_lock op_lock); (0%nat, go FutexLock.Go);
   (1%nat, Call futex_lock op_lock); (1%nat, go FutexLock.Go); (1%nat, go (FutexLock.Backoff true));
   (1%nat, go FutexLock.Go); (1%nat, go FutexLock.Go)].

Definition contended_state : pool (@lock_state futex_lock) (standing futex_lock) :=
  Pool (FutexLock.State 2 [1%nat]) [l_in; l_busy (L := futex_lock) op_lock FutexLock.WaitSleep].

Lemma futex_lock_no_lost_wakeup_witness :
  exists u x, pcs contended_state !! u = Some x /\
    ((holding x = true /\ FutexLock.word (shared contended_state) = 2)
     \/ rouses (shared contended_state) u x).
Proof.
  apply (futex_lock_no_lost_wakeup contended_state); [|discriminate].
  apply (run_reachable _ _ (Pool (@lock_init futex_lock) [l_out; l_out]) contended);
    [by exists 2%nat|reflexivity].
Defined.
