(* ===== verification/FutexOrder.v ===== *)
(** * futex_lock and memory orders (evenk/synch.h: class futex_lock)

    futex_lock over [Memory], with the orders of the source.  An unlock with
    sleepers first subtracts 1, with release, and then stores 0, relaxed.  Up to
    C++17 the store is in the release sequence of the subtraction, and the next
    holder knows of the accesses of the last one; in C++20 it is not. *)

From stdpp Require Import prelude functions.
From S2P Require Import Prelude Futex Memory Lock FutexLock LockOrder.
Local Open Scope Z_scope.

Module WeakFutex.
Import FutexLock.

Record state : Type := State { mem : memory; sleepers : list nat }.

(** As in [FutexLock]; [Fail t] is a compare-exchange that finds another value in
    the store [t]. *)
Inductive choice : Type :=
| Go
| Fail (t : nat)
| Backoff (r : bool)
| Spurious
| Woken (l : list nat).

(** The compare-exchange of lock and try_lock; [k] gets the value it finds. *)
Definition try_enter (u : nat) (s : state) (t : option nat) (k : Z -> pc + bool) : option (state * (pc + bool)) :=
  '(z, ok, m) ← compare_exchange acquire u flag 0 1 t (mem s);
  Some (State m (sleepers s), if ok : bool then inr true else k z).

(** The exchange of lock. *)
Definition mark (u : nat) (s : state) : state * (pc + bool) :=
  let x := rmw acquire u flag (fun _ => 2) (mem s) in
  (State x.2 (sleepers s), if x.1 =? 0 then inr true else inl WaitEnter).

Definition step (std : standard) (u : nat) (s : state) (p : pc) (c : choice) : option (state * (pc + bool)) :=
  match p, c with
  | LockCas, Go => try_enter u s None (fun z => inl (LockBackoff z))
  | LockCas, Fail t => try_enter u s (Some t) (fun z => inl (LockBackoff z))
  | LockBackoff value, Backoff r =>
      Some (s, inl (if r then (if value =? 2 then WaitEnter else LockExchange) else LockCas))
  | LockExchange, Go | WaitExchange, Go => Some (mark u s)
  | WaitEnter, Go =>
      Some (match futex_wait u (value_of (mem s) flag) 2 (sleepers s) with
            | Some q => (State (mem s) q, inl WaitSleep)
            | None => (s, inl WaitExchange)
            end)
  | WaitSleep, Go => if decide (u ∈ sleepers s) then None else Some (s, inl WaitExchange)
  | WaitSleep, Spurious => Some (State (mem s) (without [u] (sleepers s)), inl WaitExchange)
  | TryCas, Go => try_enter u s None (fun _ => inr false)
  | TryCas, Fail t => try_enter u s (Some t) (fun _ => inr false)
  | UnlockSub, Go =>
      let x := rmw release u flag (fun z => u32 (z - 1)) (mem s) in
      Some (State x.2 (sleepers s), if x.1 =? 1 then inr true else inl UnlockStore)
  | UnlockStore, Go => Some (State (store std relaxed u flag 0 (mem s)) (sleepers s), inl UnlockWake)
  | UnlockWake, Woken l => q ← futex_wake 1 (sleepers s) l; Some (State (mem s) q, inr true)
  | _, _ => None
  end.
End WeakFutex.

Definition weak_futex_lock (std : standard) : Lock := {|
  lock_state := WeakFutex.state; lock_init := WeakFutex.State memory_init [];
  lock_pc := FutexLock.pc; lock_choice := WeakFutex.choice;
  lock_enter := FutexLock.enter; lock_step := WeakFutex.step std |}.

#[export] Instance weak_futex_memory std : MemoryLock (weak_futex_lock std) :=
  Build_MemoryLock (weak_futex_lock std) WeakFutex.mem
    (fun u s => WeakFutex.State (touch u data (WeakFutex.mem s)) (WeakFutex.sleepers s)).

Section invariant.
Import FutexLock.
Context {std : standard}.

Local Abbreviation st := (standing (weak_futex_lock std)).
Local Abbreviation wstate := WeakFutex.state.
Local Abbreviation busy := (l_busy (L := weak_futex_lock std)).

(** ** The lock without the orders *)

Definition newest (s : wstate) : FutexLock.state := State (value_of (WeakFutex.mem s) flag) (WeakFutex.sleepers s).

Local Abbreviation plain := (map_standing (L := weak_futex_lock std) (L' := futex_lock) (fun p => p)).

Lemma plain_resumed op r : plain (resumed op r) = resumed (L := futex_lock) op r.
Proof. rewrite map_standing_resumed. by destruct r. Qed.

(** A step is one of [FutexLock] on the newest values, or a compare-exchange that
    fails, perhaps with an old value. *)
Lemma weak_step_newest u s p c s' r :
  wf (WeakFutex.mem s) -> WeakFutex.step std u s p c = Some (s', r) ->
  (exists c', FutexLock.step u (newest s) p c' = Some (newest s', r)) \/
  (newest s' = newest s /\ ((p = LockCas /\ exists z, r = inl (LockBackoff z)) \/ (p = TryCas /\ r = inr false))).
Proof.
  intros H Hs. assert (forall t k, WeakFutex.try_enter u s t k = Some (s', r) ->
    (value_of (WeakFutex.mem s) flag = 0 /\ newest s' = State 1 (WeakFutex.sleepers s) /\ r = inr true) \/
    (newest s' = newest s /\ exists z, r = k z)) as Henter.
  { intros t k Ht. unfold WeakFutex.try_enter, compare_exchange in Ht. destruct t as [t|].
    - destruct (load relaxed u flag t (WeakFutex.mem s)) as [[z m]|] eqn:El; [|done]. simpl in Ht.
      destruct (z =? 0); [done|]. simpl in Ht. injection Ht as <- <-. right. split; [|eauto].
      apply load_Some in El as (x & _ & _ & _ & ->). done.
    - destruct (Z.eqb_spec (value_of (WeakFutex.mem s) flag) 0) as [E|]; [|done]. simpl in Ht. injection Ht as <- <-.
      left. split; [done|]. unfold newest, rmw. simpl. by rewrite append_value. }
  destruct p, c; try done; simpl in Hs.
  all: try (apply Henter in Hs as [(E & -> & ->)|[E [z ->]]];
    [left; exists Go; simpl; by rewrite E|right; split; [done|]; eauto]).
  - left. exists (Backoff r0). injection Hs as <- <-. done.
  - left. exists Go. injection Hs as <- <-. unfold newest, rmw. simpl. by rewrite append_value.
  - left. exists Go. simpl. unfold sleep, futex_wait in *. simpl. case_decide; by injection Hs as <- <-.
  - left. exists Go. simpl. case_decide; [done|]. by injection Hs as <- <-.
  - left. exists Spurious. by injection Hs as <- <-.
  - left. exists Go. injection Hs as <- <-. unfold newest, rmw. simpl. by rewrite append_value.
  - left. exists Go. injection Hs as <- <-. unfold newest, rmw. simpl. by rewrite append_value.
  - left. exists Go. injection Hs as <- <-. unfold newest, store. simpl. by rewrite append_value.
  - left. exists (Woken l). simpl. destruct (futex_wake 1 (WeakFutex.sleepers s) l); [|done]. by injection Hs as <- <-.
Qed.

(** ** What the threads know *)

(** The thread heads a release sequence, with all accesses to the data, that the
    last store is in. *)
Definition headed (m : memory) (u : nat) : Prop :=
  exists h, h ∈ m_heads (last_msg m flag) /\ h.1 = u /\ h.2 data = latest m data.

Definition own (m : memory) (u : nat) (x : st) : Prop :=
  match x with
  | l_in | l_busy op_unlock UnlockSub => synced data m u
  | l_busy op_unlock UnlockStore => headed m u
  | _ => True
  end.

Record futex_sync (m : memory) (f : nat -> st) : Prop := {
  fs_own u : own m u (f u);
  fs_free : value_of m flag = 0 -> handed data m (last_msg m flag);
}.

Lemma own_extends m m' u x :
  extends m m' -> m_heads (last_msg m flag) ⊆ m_heads (last_msg m' flag) -> own m u x -> own m' u x.
Proof.
  intros Hx Hh. assert (synced data m u -> synced data m' u) as Hs by by eapply extends_synced.
  assert (headed m u -> headed m' u) as Hd.
  { intros (h & ? & ? & E). exists h. rewrite (ex_data _ _ Hx data) by done. auto. }
  destruct x as [| | |[] []]; simpl; auto.
Qed.

Lemma futex_sync_update m m' (f : nat -> st) u x :
  futex_sync m f -> extends m m' ->
  m_heads (last_msg m flag) ⊆ m_heads (last_msg m' flag) \/ (forall v, v <> u -> holding (plain (f v)) = false) ->
  own m' u x -> (value_of m' flag = 0 -> handed data m' (last_msg m' flag)) -> futex_sync m' (<[u := x]> f).
Proof.
  intros [H1 H2] Hx Ho Hu Hv. split; [|done]. intros v. destruct (decide (v = u)) as [->|Hne]; [by rewrite fn_lookup_insert|].
  rewrite fn_lookup_insert_ne by done. destruct Ho as [Ho|Ho]; [by eapply own_extends|].
  specialize (Ho v Hne). by destruct (f v) as [| | |[] []].
Qed.

(** A step that leaves the memory alone. *)
Lemma futex_sync_stay m (f : nat -> st) u x :
  wf m -> futex_sync m f -> own m u x -> futex_sync m (<[u := x]> f).
Proof. intros W H Hu. eapply futex_sync_update; [done|by apply extends_refl|by left|done|apply H]. Qed.

Record weak_futex_inv (s : wstate) (f : nat -> st) : Prop := {
  wx_wf : wf (WeakFutex.mem s);
  wx_lock : futex_lock_inv (newest s) (fun u => plain (f u));
  wx_sync : futex_sync (WeakFutex.mem s) f;
}.

Lemma weak_futex_init : weak_futex_inv (WeakFutex.State memory_init []) (fun _ => l_out).
Proof.
  split; [apply wf_init|apply futex_lock_inv_start|]. split; [done|]. intros _.
  exists (0%nat, fun _ => 0%nat). split; [by left|done].
Qed.

(** The lock part of the invariant after a step. *)
Lemma weak_lock_step u s (f : nat -> st) op p c s' r :
  weak_futex_inv s f -> f u = l_busy op p -> WeakFutex.step std u s p c = Some (s', r) ->
  futex_lock_inv (newest s') (fun v => plain ((<[u := resumed (L := weak_futex_lock std) op r]> f) v)).
Proof.
  intros H Hu Hs. pose proof (wx_lock _ _ H) as Hi.
  eapply futex_lock_inv_ext; [intros v; symmetry; apply map_standing_insert|]. rewrite plain_resumed.
  set (g := fun v => plain (f v)) in *. assert (g u = l_busy (L := futex_lock) op p) as Hp by (unfold g; by rewrite Hu).
  destruct (weak_step_newest u s p c s' r (wx_wf _ _ H) Hs) as [[c' Hc']|[-> Hr]]; [by eapply futex_lock_step|].
  pose proof (fi_good _ _ Hi u) as Hg. rewrite Hp in Hg.
  apply (inv_update (newest s)); rewrite ?Hp; try done; destruct Hr as [[-> [z ->]]|[-> ->]], op; try done; try apply Hi;
    simpl; tauto.
Qed.

(** The enterer finds 0 in the last store. *)
Lemma enter_synced u s (f : nat -> st) g :
  weak_futex_inv s f -> value_of (WeakFutex.mem s) flag = 0 -> synced data (rmw acquire u flag g (WeakFutex.mem s)).2 u.
Proof. intros H E. apply rmw_synced; [apply H|done|]. by apply (fs_free _ _ (wx_sync _ _ H)). Qed.

Lemma sync_try_enter u s (f : nat -> st) op t k s' r :
  weak_futex_inv s f -> WeakFutex.try_enter u s t k = Some (s', r) -> op = op_lock \/ op = op_try_lock ->
  (forall z m, own m u (resumed (L := weak_futex_lock std) op (k z))) ->
  wf (WeakFutex.mem s') /\ futex_sync (WeakFutex.mem s') (<[u := resumed (L := weak_futex_lock std) op r]> f).
Proof.
  intros H Ht Hop Hk. pose proof (wx_wf _ _ H) as W. pose proof (wx_sync _ _ H) as Hy.
  unfold WeakFutex.try_enter, compare_exchange in Ht. destruct t as [t|].
  - destruct (load relaxed u flag t (WeakFutex.mem s)) as [[z m]|] eqn:El; [|done]. simpl in Ht.
    destruct (z =? 0); [done|]. simpl in Ht. injection Ht as <- <-. pose proof (extends_load _ _ _ _ _ _ _ W El) as Hx.
    split; [apply Hx|]. apply load_Some in El as (x & _ & _ & _ & ->). simpl in *.
    eapply futex_sync_update; [done|done|by left|apply Hk|].
    intros E. eapply extends_handed; [done|done|]. by apply (fs_free _ _ Hy).
  - destruct (Z.eqb_spec (value_of (WeakFutex.mem s) flag) 0) as [E|]; [|done].
    remember (rmw acquire u flag (fun _ => 1) (WeakFutex.mem s)) as x eqn:Ex. simpl in Ht. injection Ht as <- <-.
    cbn [WeakFutex.mem]. rewrite Ex. split; [by apply rmw_wf|].
    eapply futex_sync_update; [done|by apply extends_rmw|left; by apply rmw_heads| |].
    + destruct Hop as [-> | ->]; by eapply enter_synced.
    + unfold rmw. simpl. by rewrite append_value.
Qed.

(** The subtraction of unlock heads a release sequence with what the holder knows. *)
Lemma rmw_headed u g m : wf m -> synced data m u -> headed (rmw release u flag g m).2 u.
Proof.
  intros H Hs. exists (u, <[flag := S (latest m flag)]> (m_view m u)). unfold rmw. simpl.
  rewrite append_last, decide_True, append_latest, decide_False by done. simpl. rewrite fn_lookup_insert_ne by done.
  split; [by left|done].
Qed.

(** The store of unlock, by the head of the release sequence. *)
Lemma store_headed u m :
  std = cxx14 -> wf m -> headed m u ->
  handed data (store std relaxed u flag 0 m) (last_msg (store std relaxed u flag 0 m) flag).
Proof.
  intros -> H (h & Hh & Hu & Hd). exists h. unfold store.
  rewrite append_last, decide_True, append_latest, decide_False by done. simpl. split; [|done].
  by apply list_elem_of_filter.
Qed.

Lemma sync_mark u s (f : nat -> st) :
  weak_futex_inv s f ->
  let x := WeakFutex.mark u s in
  wf (WeakFutex.mem x.1) /\ futex_sync (WeakFutex.mem x.1) (<[u := resumed (L := weak_futex_lock std) op_lock x.2]> f).
Proof.
  intros H. pose proof (wx_wf _ _ H) as W. unfold WeakFutex.mark. cbn [fst snd WeakFutex.mem]. split; [by apply rmw_wf|].
  eapply futex_sync_update; [apply H|by apply extends_rmw|left; by apply rmw_heads| |unfold rmw; simpl; by rewrite append_value].
  change ((rmw acquire u flag (fun _ => 2) (WeakFutex.mem s)).1) with (value_of (WeakFutex.mem s) flag).
  destruct (Z.eqb_spec (value_of (WeakFutex.mem s) flag) 0); [by eapply enter_synced|done].
Qed.

Lemma sync_unlock_sub u s (f : nat -> st) :
  weak_futex_inv s f -> f u = busy op_unlock UnlockSub ->
  let x := rmw release u flag (fun z => u32 (z - 1)) (WeakFutex.mem s) in
  let r := if x.1 =? 1 then inr true else inl UnlockStore in
  wf x.2 /\ futex_sync x.2 (<[u := resumed (L := weak_futex_lock std) op_unlock r]> f).
Proof.
  intros H Hu x r. pose proof (wx_wf _ _ H) as W. pose proof (wx_sync _ _ H) as Hy.
  pose proof (fs_own _ _ Hy u) as Hown. rewrite Hu in Hown. split; [by apply rmw_wf|].
  eapply futex_sync_update; [done|by apply extends_rmw|left; by apply rmw_heads| |intros _; by apply rmw_handed].
  subst r. destruct (x.1 =? 1); [done|]. by apply rmw_headed.
Qed.

Lemma sync_unlock_store u s (f : nat -> st) :
  std = cxx14 -> weak_futex_inv s f -> f u = busy op_unlock UnlockStore ->
  let m := store std relaxed u flag 0 (WeakFutex.mem s) in
  wf m /\ futex_sync m (<[u := busy op_unlock UnlockWake]> f).
Proof.
  intros Hstd H Hu m. pose proof (wx_wf _ _ H) as W. pose proof (wx_sync _ _ H) as Hy.
  pose proof (fs_own _ _ Hy u) as Hown. rewrite Hu in Hown. split; [by apply store_wf|].
  eapply futex_sync_update; [done|by apply extends_store| |done|intros _; by apply store_headed].
  right. intros v Hv. destruct (holding (plain (f v))) eqn:Eh; [|done].
  destruct (fi_flag _ _ (wx_lock _ _ H)) as [Hone _]. destruct Hv. apply Hone; [done|]. by rewrite Hu.
Qed.

(** The memory part of the invariant after a step, with the release sequences of
    C++14. *)
Lemma weak_sync_step u s (f : nat -> st) op p c s' r :
  std = cxx14 -> weak_futex_inv s f -> f u = l_busy op p -> WeakFutex.step std u s p c = Some (s', r) ->
  wf (WeakFutex.mem s') /\ futex_sync (WeakFutex.mem s') (<[u := resumed (L := weak_futex_lock std) op r]> f).
Proof.
  intros Hstd H Hu Hs. pose proof (wx_wf _ _ H) as W. pose proof (wx_sync _ _ H) as Hy.
  pose proof (fi_good _ _ (wx_lock _ _ H) u) as Hg. cbv beta in Hg. rewrite Hu in Hg.
  assert (forall x, own (WeakFutex.mem s) u x ->
    wf (WeakFutex.mem s) /\ futex_sync (WeakFutex.mem s) (<[u := x]> f)) as Hstay.
  { intros x Hx. split; [done|by apply futex_sync_stay]. }
  destruct op, p; try done; destruct c; try done; cbn [WeakFutex.step] in Hs.
  all: try by eapply sync_try_enter; eauto.
  - injection Hs as <- <-. apply Hstay. by destruct r0, (value =? 2).
  - injection Hs as <- <-. by apply sync_mark.
  - unfold futex_wait in Hs. case_decide; injection Hs as <- <-; by apply Hstay.
  - case_decide; [done|]. injection Hs as <- <-. by apply Hstay.
  - injection Hs as <- <-. by apply Hstay.
  - injection Hs as <- <-. by apply sync_mark.
  - injection Hs as <- <-. by apply sync_unlock_sub.
  - injection Hs as <- <-. by apply sync_unlock_store.
  - destruct (futex_wake 1 (WeakFutex.sleepers s) l); [|done]. injection Hs as <- <-. by apply Hstay.
Qed.

Lemma weak_futex_call s (f : nat -> st) u op p :
  weak_futex_inv s f -> callable (f u) op = true -> enter op = Some p -> weak_futex_inv s (<[u := busy op p]> f).
Proof.
  intros [W Hi Hy] Hc He. split; [done| |].
  - eapply futex_lock_inv_ext; [intros v; symmetry; apply map_standing_insert|]. apply futex_lock_call; [done| |done].
    by destruct (f u).
  - apply futex_sync_stay; [done..|]. pose proof (fs_own _ _ Hy u) as Ho.
    destruct (f u), op; simpl in *; by simplify_eq.
Qed.

Lemma weak_futex_touch s (f : nat -> st) u :
  weak_futex_inv s f -> f u = l_in ->
  weak_futex_inv (WeakFutex.State (touch u data (WeakFutex.mem s)) (WeakFutex.sleepers s)) f.
Proof.
  intros [W Hi [H1 H2]] Hu. set (m := WeakFutex.mem s) in *.
  assert (last_msg (touch u data m) flag = last_msg m flag) as E by (unfold touch; by rewrite append_last, decide_False).
  destruct (fi_flag _ _ Hi) as [Hone Hflag].
  assert (value_of m flag <> 0) as Hv.
  { intros Ev. unfold newest in Hflag. fold m in Hflag. simpl in Hflag. rewrite Ev in Hflag.
    assert (false = true); [|done]. apply Hflag. exists u. by rewrite Hu. }
  split; [by apply touch_wf|unfold newest, value_of in *; simpl; fold m in Hi; by rewrite E|].
  split; simpl; [|unfold value_of; by rewrite E]. intros v. destruct (holding (plain (f v))) eqn:Eh.
  - assert (v = u) as -> by (apply Hone; [done|by rewrite Hu]). rewrite Hu. by apply touch_synced.
  - by destruct (f v) as [| | |[] []].
Qed.
End invariant.

#[export] Instance weak_futex_laws : LockLaws (weak_futex_lock cxx14).
Proof.
  refine (Build_LockLaws (weak_futex_lock cxx14) (fun _ _ => true) (fun _ _ => true) weak_futex_inv _ _ _ _).
  - apply weak_futex_init.
  - intros s f u op p H Hc _ He. by apply weak_futex_call.
  - intros s f u op p c s' r H Hu _ Hs. destruct (weak_sync_step u s f op p c s' r eq_refl H Hu Hs).
    split; [done|exact (weak_lock_step u s f op p c s' r H Hu Hs)|done].
  - intros s f u v H Hu Hv. pose proof (fi_good _ _ (wx_lock _ _ H) v) as Hg. cbv beta in Hg.
    destruct Hv as [Hv|Hv]; rewrite Hv in Hg; [|done].
    apply (fl_once _ _ _ (fi_flag _ _ (wx_lock _ _ H))); by rewrite ?Hu, ?Hv.
Defined.

#[export] Instance weak_futex_ordered : OrderedLock (weak_futex_lock cxx14).
Proof.
  split; [done|by intros; apply weak_futex_touch|]. intros s f u H Hu.
  pose proof (fs_own _ _ (wx_sync _ _ H) u) as Ho. by rewrite Hu in Ho.
Qed.

(** ** The release sequence of unlock *)

(** Thread 0 accesses the data and unlocks while thread 1 sleeps; thread 1 enters. *)
Definition handover (std : standard) : list (nat * guarded_choice (weak_futex_lock std)) :=
  let L := weak_futex_lock std in
  let call op := Client L (Call L op) in
  let go c := Client L (InLock L c) in
  [(0%nat, call op_lock); (0%nat, go WeakFutex.Go);
   (1%nat, call op_lock); (1%nat, go (WeakFutex.Fail 1)); (1%nat, go (WeakFutex.Backoff true));
   (1%nat, go WeakFutex.Go); (1%nat, go WeakFutex.Go);
   (0%nat, Touch L); (0%nat, call op_unlock);
   (0%nat, go WeakFutex.Go); (0%nat, go WeakFutex.Go); (0%nat, go (WeakFutex.Woken [1%nat]));
   (1%nat, go WeakFutex.Go); (1%nat, go WeakFutex.Go)].

Definition handover_end (std : standard) : option (pool WeakFutex.state (standing (weak_futex_lock std))) :=
  run (guarded_exec (weak_futex_lock std)) (Pool (WeakFutex.State memory_init []) [l_out; l_out]) (handover std).

(** Whether thread 1 is inside, the accesses it knows of, and the accesses there
    are. *)
Definition handover_seen (std : standard) : option (bool * nat * nat) :=
  s ← handover_end std;
  Some (match pcs s !! 1%nat with Some l_in => true | _ => false end,
        m_view (WeakFutex.mem (shared s)) 1%nat data, latest (WeakFutex.mem (shared s)) data).

Lemma handover_seen_14 : handover_seen cxx14 = Some (true, 1%nat, 1%nat).
Proof. reflexivity. Qed.

Lemma handover_seen_20 : handover_seen cxx20 = Some (true, 0%nat, 1%nat).
Proof. reflexivity. Qed.

Lemma handover_seen_Some std x :
  handover_seen std = Some (true, x, 1%nat) ->
  exists s, handover_end std = Some s /\ pcs s !! 1%nat = Some l_in /\
    (synced data (WeakFutex.mem (shared s)) 1 <-> x = 1%nat).
Proof.
  unfold handover_seen, synced. destruct (handover_end std) as [s|]; [|done]. simpl. intros H. exists s. split; [done|].
  destruct (pcs s !! 1%nat) as [[]|]; try done. injection H as -> ->. done.
Qed.

(** C35. In C++20 the store of 0 in unlock, which is relaxed, ends the release
    sequence of the subtraction: the thread that was woken is inside the lock and
    does not know of the access of the thread before it, so its own access races.
    With the release sequences before C++20 the same steps are in order. *)
Theorem futex_lock_unlock_races :
  (exists s, handover_end cxx20 = Some s /\ pcs s !! 1%nat = Some l_in /\ ~ synced data (WeakFutex.mem (shared s)) 1) /\
  (exists s, handover_end cxx14 = Some s /\ pcs s !! 1%nat = Some l_in /\ synced data (WeakFutex.mem (shared s)) 1).
Proof.
  destruct (handover_seen_Some _ _ handover_seen_20) as (s & Hs & Hp & Hn).
  destruct (handover_seen_Some _ _ handover_seen_14) as (s' & Hs' & Hp' & Hn').
  split; [exists s|exists s']; (split_and!; [done|done|]); [by intros ?%Hn|by apply Hn'].
Qed.
