(* ===== verification/OrderTheorems.v ===== *)
(** * What the locks promise to data accessed under them

    The theorem on the locks over [Memory], and a run of ticket_lock in which a
    waiting thread reads an old [head_] first. *)

From stdpp Require Import prelude functions.
From S2P Require Import Prelude Memory Lock Spinlock LockOrder TicketOrder FutexOrder.
Local Open Scope Z_scope.

(** C5. The locks protect what is accessed under them: in every run of any number of
    threads that lock, try and unlock, with loads that return old values and
    futex sleepers that wake for no reason, a thread inside is alone and knows of
    all accesses to the data by those inside before it.  This holds for spin_lock
    and tatas_lock, for ticket_lock with fewer than 2^16 threads and no load that
    is 2^16 tickets old, all with the release sequences of any standard, and for
    futex_lock with those up to C++17. *)
Theorem locks_protect_data std :
  protects (weak_spin_lock std) /\ protects (weak_tatas_lock std) /\
  protects (weak_ticket_lock std) /\ protects (weak_futex_lock cxx14).
Proof. split_and!; apply ordered_protects, _. Qed.

(** Thread 1 takes its ticket while thread 0 is inside, reads the first store of
    [head_], then the last one, and enters. *)
Definition late_reader : list (nat * guarded_choice (weak_ticket_lock cxx20)) :=
  let L := weak_ticket_lock cxx20 in
  let call u op := (u, Client L (Call L op)) in
  let go u (c : option nat) := (u, Client L (InLock L c)) in
  [call 0%nat op_lock; go 0%nat None; go 0%nat (Some 0%nat); (0%nat, Touch L);
   call 1%nat op_lock; go 1%nat None;
   call 0%nat op_unlock; go 0%nat (Some 0%nat); go 0%nat None;
   go 1%nat (Some 0%nat); go 1%nat None; go 1%nat (Some 1%nat); (1%nat, Touch L)].

Example late_reader_runs :
  (fun s => (pcs s !! 1%nat, latest (shared s) data)) <$>
    run (guarded_exec (weak_ticket_lock cxx20)) (Pool memory_init [l_out; l_out]) late_reader
  = Some (Some l_in, 2%nat).
Proof. reflexivity. Qed.
