(* ===== verification/LockTests.v ===== *)
(** * Programs that use the locks (tests/lock-bench.cc, tests/shared-lock-test.cc)

    The threads of the two test programs, over any lock with the laws: the
    counter of lock-bench, and the table of shared-lock-test.  What the tests
    check at their end, and on their way, holds in every run. *)

From stdpp Require Import prelude functions.
From S2P Require Import Prelude Futex Memory Lock Spinlock SharedTicket FutexLock LockOrder FutexOrder.
Local Open Scope Z_scope.

(** Sums over the threads: one that counts for the same, and the start. *)
Lemma total_same {P} (g g' : nat -> P -> Z) ps :
  (forall u p, ps !! u = Some p -> g u p = g' u p) -> total g 0 ps = total g' 0 ps.
Proof. intros H. apply Z.le_antisymm; apply total_le; intros u p Hp; simpl; rewrite (H _ _ Hp); lia. Qed.

Lemma total_const {P} (g : nat -> P -> Z) (z : Z) ps :
  (forall u p, ps !! u = Some p -> g u p = z) -> total g 0 ps = Z.of_nat (length ps) * z.
Proof.
  intros H. rewrite (total_same g (fun _ _ => z)) by done. clear H. generalize 0%nat as i.
  induction ps as [|p ps IH]; intros i; [simpl; lia|]. cbn [total length]. rewrite IH. lia.
Qed.

(** ** Methods without windows

    Neither program calls the try methods.  All runs of [n] threads are covered
    if the other methods never leave the windows of the laws. *)

Definition not_try (op : lock_op) : bool :=
  match op with op_try_lock | op_try_lock_shared => false | _ => true end.

Definition lock_total {L : Lock} {LL : LockLaws L} (n : nat) (ops : lock_op -> bool) : Prop :=
  (forall u op, (u < n)%nat -> lock_may u op = true) /\
  (forall s f u op p, lock_inv s f -> f u = l_busy op p -> ops op = true -> lock_window s p = true).

Lemma spin_total n : lock_total (L := spin_lock) n not_try.
Proof. done. Qed.
Lemma tatas_total n : lock_total (L := tatas_lock) n not_try.
Proof. done. Qed.
Lemma futex_total n : lock_total (L := futex_lock) n not_try.
Proof. done. Qed.

Lemma ticket_total n : Z.of_nat n <= 2 ^ 16 -> lock_total (L := ticket_lock) n not_try.
Proof.
  intros Hn. split.
  - intros u op Hu. apply Z.ltb_lt. lia.
  - intros s f u op p [q H] Hu Ho. pose proof (Spinlock.ln_line _ _ _ H u) as Hl. rewrite Hu in Hl.
    destruct op, p; try done; by destruct Hl.
Qed.

Lemma shared_total h (Hh : 0 < h) n :
  Z.of_nat n <= 2 ^ h -> lock_total (LL := shared_ticket_lock_laws h Hh) n not_try.
Proof.
  intros Hn. split.
  - intros u op Hu. apply Z.ltb_lt. lia.
  - intros s f u op p [q H] Hu Ho. pose proof (SharedTicket.ln_line _ _ _ _ H u) as Hl. rewrite Hu in Hl.
    destruct op, p; try done; by destruct Hl.
Qed.

(** ** lock-bench: spin *)

Module Bench.
Section bench.
Context {L : Lock} (rounds : Z).

Record state : Type := State { lock : lock_state; count : Z }.

Inductive pc : Type :=
| Loop (i : Z)                    (* the test of the loop *)
| Locking (i : Z) (p : lock_pc)
| Read (i : Z)                    (* ++count reads *)
| Write (i c : Z)                 (* and writes *)
| Unlock (i : Z)
| Unlocking (i : Z) (p : lock_pc)
| End.

Inductive choice : Type :=
| Go
| InLock (c : lock_choice).

Definition step (u : nat) (s : state) (p : pc) (c : choice) : option (state * pc) :=
  match p, c with
  | Loop i, Go =>
      if i <? rounds then q ← lock_enter op_lock; Some (s, Locking i q) else Some (s, End)
  | Locking i q, InLock c =>
      x ← lock_step u (lock s) q c;
      Some (State x.1 (count s), match x.2 with inl q => Locking i q | inr _ => Read i end)
  | Read i, Go => Some (s, Write i (count s))
  | Write i c, Go => Some (State (lock s) (c + 1), Unlock i)
  | Unlock i, Go => q ← lock_enter op_unlock; Some (s, Unlocking i q)
  | Unlocking i q, InLock c =>
      x ← lock_step u (lock s) q c;
      Some (State x.1 (count s), match x.2 with inl q => Unlocking i q | inr _ => Loop (i + 1) end)
  | _, _ => None
  end.

Definition exec : pool state pc -> nat * choice -> option (pool state pc) := pool_exec step.

Definition start (n : nat) (s : pool state pc) : Prop := s = Pool (State lock_init 0) (replicate n (Loop 0)).

Definition standing_of (p : pc) : standing L :=
  match p with
  | Loop _ | End => l_out
  | Locking _ p => l_busy op_lock p
  | Read _ | Write _ _ | Unlock _ => l_in
  | Unlocking _ p => l_busy op_unlock p
  end.

(** The increments of a thread. *)
Definition made (p : pc) : Z :=
  match p with
  | Loop i | Locking i _ | Read i | Write i _ => i
  | Unlock i | Unlocking i _ => i + 1
  | End => rounds
  end.

Lemma bench_lock_use u s p c s' p' :
  step u s p c = Some (s', p') ->
  (lock s' = lock s /\ standing_of p' = standing_of p) \/
  (lock s' = lock s /\ exists op r, callable (standing_of p) op = true /\
     lock_enter op = Some r /\ standing_of p' = l_busy op r) \/
  (exists op r c' x, standing_of p = l_busy op r /\
     lock_step u (lock s) r c' = Some (lock s', x) /\ standing_of p' = resumed op x).
Proof.
  destruct p as [i|i q|i|i k|i|i q|], c as [|c]; simpl; intros H; try done.
  - case_match; [|injection H as <- <-; auto]. destruct (lock_enter op_lock) as [r|] eqn:E; [|done].
    injection H as <- <-. right. left. split; [done|]. by exists op_lock, r.
  - destruct (lock_step u (lock s) q c) as [[l x]|] eqn:E; [|done]. injection H as <- <-.
    right. right. exists op_lock, q, c, x. by destruct x.
  - injection H as <- <-. auto.
  - injection H as <- <-. auto.
  - destruct (lock_enter op_unlock) as [r|] eqn:E; [|done].
    injection H as <- <-. right. left. split; [done|]. by exists op_unlock, r.
  - destruct (lock_step u (lock s) q c) as [[l x]|] eqn:E; [|done]. injection H as <- <-.
    right. right. exists op_unlock, q, c, x. by destruct x.
Qed.

#[export] Instance bench_user : LockUser step :=
  {| lock_of := lock; Lock.standing_of := standing_of; lock_use := bench_lock_use |}.

(** ** Every increment counts *)

Definition local_ok (s : state) (p : pc) : Prop :=
  match p with
  | Loop i => 0 <= i <= rounds
  | Locking i _ | Read i | Unlock i | Unlocking i _ => 0 <= i < rounds
  | Write i c => 0 <= i < rounds /\ c = count s
  | End => True
  end.

Record bench_inv {LL : LockLaws L} (s : pool state pc) : Prop := {
  bi_lock : user_ok step s;
  bi_count : count (shared s) = total (fun _ => made) 0 (pcs s);
  bi_local u p : pcs s !! u = Some p -> local_ok (shared s) p;
}.

(** What a step does to the counter. *)
Lemma bench_step_count u s p c s' p' :
  step u s p c = Some (s', p') -> local_ok s p ->
  count s' - count s = made p' - made p /\ local_ok s' p' /\ (count s' = count s \/ standing_of p = l_in).
Proof.
  destruct p as [i|i q|i|i k|i|i q|], c as [|c]; simpl; intros H Hl; try done.
  - case_match eqn:E; [|injection H as <- <-; simpl; split_and!; auto; lia].
    apply Z.ltb_lt in E. destruct (lock_enter op_lock) as [r|]; [|done]. injection H as <- <-. simpl. auto with lia.
  - destruct (lock_step u (lock s) q c) as [[l [q'|b]]|]; [| |done]; injection H as <- <-; simpl; auto with lia.
  - injection H as <- <-. simpl. auto with lia.
  - injection H as <- <-. destruct Hl as [? ->]. simpl. split_and!; auto; lia.
  - destruct (lock_enter op_unlock) as [r|]; [|done]. injection H as <- <-. simpl. auto with lia.
  - destruct (lock_step u (lock s) q c) as [[l [q'|b]]|]; [| |done]; injection H as <- <-; simpl; split_and!; auto; lia.
Qed.

Context {LL : LockLaws L}.

Definition reached (n : nat) : pool state pc -> Prop :=
  reachable_in exec (start n) (fun s => user_covered step s = true).

Lemma bench_start_inv n s : 0 <= rounds -> start n s -> bench_inv s.
Proof.
  intros Hr ->. split; simpl.
  - apply user_ok_start; [done|]. by intros u p [-> _]%lookup_replicate.
  - rewrite (total_const _ 0); [lia|]. by intros u p [-> _]%lookup_replicate.
  - intros u p [-> _]%lookup_replicate. simpl. lia.
Qed.

Lemma bench_invariant n s : 0 <= rounds -> reached n s -> bench_inv s /\ length (pcs s) = n.
Proof.
  intros Hr. apply (invariant_in_reachable _ _ _ (fun s => bench_inv s /\ length (pcs s) = n)). split.
  - intros s0 H0 _. split; [by eapply bench_start_inv|]. rewrite H0. apply length_replicate.
  - intros [sh ps] [u c] s' Hw [H Hlen] He Hw'. split; [|by rewrite (pool_exec_length _ _ _ _ He)].
    pool_step He. simpl in *. destruct (bench_step_count _ _ _ _ _ _ Ht (bi_local _ H u p Hp)) as (Hc & Hl & Hx).
    split; simpl.
    + eapply (user_ok_step step); [apply H|done..].
    + rewrite (total_insert _ _ _ _ p) by done. pose proof (bi_count _ H) as E. simpl in E. lia.
    + intros v q [(-> & -> & _)|[Hne Hv]]%insert_lookup_cases; [done|]. pose proof (bi_local _ H v q Hv) as Hq.
      destruct q; simpl in *; try done. destruct Hq as [? ->]. split; [done|]. destruct Hx as [?|Hin]; [done|].
      destruct Hne. eapply (user_once step); [apply H|exact Hv|exact Hp|done|auto].
Qed.

(** Before the end the counter has room, and at the end every increment was
    made. *)
Definition counts (n : nat) : Prop :=
  forall s, reachable exec (start n) s ->
    0 <= count (shared s) <= Z.of_nat n * rounds /\
    (Forall (fun p => p = End) (pcs s) -> count (shared s) = Z.of_nat n * rounds).

Lemma bench_counts n :
  0 <= rounds -> lock_total n not_try -> counts n.
Proof.
  intros Hr [Hmay Hwin] s Hs.
  destruct (bench_invariant n s Hr) as [H Hlen].
  { apply (user_total_covered step n not_try); [done|done| | |done].
    - intros [] op r E; simpl in E; try done; by injection E as <- _.
    - intros s0 H0. split; [by eapply bench_start_inv|]. rewrite H0. simpl. by rewrite length_replicate. }
  rewrite (bi_count _ H), <- Hlen. split.
  - assert (forall u p, pcs s !! u = Some p -> 0 <= made p <= rounds) as Hm.
    { intros u p Hp. pose proof (bi_local _ H u p Hp) as Hl. destruct p; simpl in *; lia. }
    rewrite <- (total_const (fun _ _ => rounds) rounds (pcs s)) by done.
    rewrite <- (total_zero (fun _ (_ : pc) => 0) 0 (pcs s)) by done.
    split; apply total_le; intros u p Hp; apply (Hm u p Hp).
  - intros He. apply total_const. intros u p Hp. by rewrite (Forall_lookup_1 _ _ _ _ He Hp).
Qed.
End bench.
Arguments state L : clear implicits.
Arguments pc L : clear implicits.
Arguments choice L : clear implicits.
End Bench.

(** ** shared-lock-test: thread_routine *)

Module TableTest.
Section table.
Context {L : Lock} (test_count : Z) (table_size : nat).

Record state : Type := State { table_lock : lock_state; table : list Z }.

Inductive pc : Type :=
| Loop (i : Z)                            (* the test of the loop *)
| LockingShared (i : Z) (p : lock_pc)
| First (i : Z)                           (* reads table[0] *)
| Compare (i value : Z) (j : nat)         (* reads table[j] *)
| UnlockShared (i : Z)
| UnlockingShared (i : Z) (p : lock_pc)
| Lock_ (i : Z)
| Locking (i : Z) (p : lock_pc)
| Read (i : Z) (j : nat)                  (* table[j].value++ reads *)
| Write (i : Z) (j : nat) (v : Z)         (* and writes *)
| Unlock (i : Z)
| Unlocking (i : Z) (p : lock_pc)
| Mismatch                                (* has returned from the comparison *)
| End.

Inductive choice : Type :=
| Go
| InLock (c : lock_choice).

(** One step inside a method of the lock. *)
Definition in_lock (u : nat) (s : state) (q : lock_pc) (c : lock_choice) (again : lock_pc -> pc) (next : pc) :
    option (state * pc) :=
  x ← lock_step u (table_lock s) q c;
  Some (State x.1 (table s), match x.2 with inl q => again q | inr _ => next end).

Definition step (u : nat) (s : state) (p : pc) (c : choice) : option (state * pc) :=
  match p, c with
  | Loop i, Go =>
      if i <=? test_count then q ← lock_enter op_lock_shared; Some (s, LockingShared i q) else Some (s, End)
  | LockingShared i q, InLock c => in_lock u s q c (LockingShared i) (First i)
  | First i, Go => v ← table s !! 0%nat; Some (s, Compare i v 1)
  | Compare i value j, Go =>
      if decide (j < table_size)%nat
      then v ← table s !! j; Some (s, if value =? v then Compare i value (S j) else Mismatch)
      else Some (s, UnlockShared i)
  | UnlockShared i, Go => q ← lock_enter op_unlock_shared; Some (s, UnlockingShared i q)
  | UnlockingShared i q, InLock c => in_lock u s q c (UnlockingShared i) (Lock_ i)
  | Lock_ i, Go => q ← lock_enter op_lock; Some (s, Locking i q)
  | Locking i q, InLock c => in_lock u s q c (Locking i) (Read i 0)
  | Read i j, Go =>
      if decide (j < table_size)%nat then v ← table s !! j; Some (s, Write i j v) else Some (s, Unlock i)
  | Write i j v, Go => Some (State (table_lock s) (<[j := v + 1]> (table s)), Read i (S j))
  | Unlock i, Go => q ← lock_enter op_unlock; Some (s, Unlocking i q)
  | Unlocking i q, InLock c => in_lock u s q c (Unlocking i) (Loop (i + 1))
  | _, _ => None
  end.

Definition exec : pool state pc -> nat * choice -> option (pool state pc) := pool_exec step.

Definition start (n : nat) (s : pool state pc) : Prop :=
  s = Pool (State lock_init (replicate table_size 0)) (replicate n (Loop 1)).

Definition standing_of (p : pc) : standing L :=
  match p with
  | Loop _ | Lock_ _ | End => l_out
  | LockingShared _ p => l_busy op_lock_shared p
  | First _ | Compare _ _ _ | UnlockShared _ | Mismatch => l_shared
  | UnlockingShared _ p => l_busy op_unlock_shared p
  | Locking _ p => l_busy op_lock p
  | Read _ _ | Write _ _ _ | Unlock _ => l_in
  | Unlocking _ p => l_busy op_unlock p
  end.

(** How often a thread has incremented entry [k]. *)
Definition made (k : nat) (p : pc) : Z :=
  match p with
  | Loop i | LockingShared i _ | First i | Compare i _ _ | UnlockShared i | UnlockingShared i _
  | Lock_ i | Locking i _ => i - 1
  | Read i j | Write i j _ => i - 1 + (if decide (k < j)%nat then 1 else 0)
  | Unlock i | Unlocking i _ => i
  | Mismatch => 0
  | End => test_count
  end.

Lemma table_lock_use u s p c s' p' :
  step u s p c = Some (s', p') ->
  (table_lock s' = table_lock s /\ standing_of p' = standing_of p) \/
  (table_lock s' = table_lock s /\ exists op r, callable (standing_of p) op = true /\
     lock_enter op = Some r /\ standing_of p' = l_busy op r) \/
  (exists op r c' x, standing_of p = l_busy op r /\
     lock_step u (table_lock s) r c' = Some (table_lock s', x) /\ standing_of p' = resumed op x).
Proof.
  intros H.
  assert (forall op q c again next, in_lock u s q c again next = Some (s', p') ->
    standing_of p = l_busy op q -> (forall q, standing_of (again q) = l_busy op q) ->
    (forall b, standing_of next = returned op b) ->
    exists op r c' x, standing_of p = l_busy op r /\
     lock_step u (table_lock s) r c' = Some (table_lock s', x) /\ standing_of p' = resumed op x) as Hin.
  { unfold in_lock. intros op q c1 again next Hx Hp Ha Hn.
    destruct (lock_step u (table_lock s) q c1) as [[l x]|] eqn:E; [|done]. injection Hx as <- <-.
    exists op, q, c1, x. split_and!; [done|done|]. destruct x; [apply Ha|apply Hn]. }
  assert (forall op f, (q ← lock_enter op; Some (s, f q)) = Some (s', p') ->
    callable (standing_of p) op = true -> (forall q, standing_of (f q) = l_busy op q) ->
    table_lock s' = table_lock s /\ exists op r, callable (standing_of p) op = true /\
     lock_enter op = Some r /\ standing_of p' = l_busy op r) as Hcall.
  { intros op f Hx Hc Hf. destruct (lock_enter op) as [r|] eqn:E; [|done]. injection Hx as <- <-. eauto 6. }
  destruct p, c; simpl in H; try done;
    try (right; right; eapply Hin; [exact H|done..]); try (right; left; eapply Hcall; [exact H|done..]).
  - case_match; [right; left; eapply Hcall; [exact H|done..]|injection H as <- <-; auto].
  - destruct (table s !! 0%nat); [|done]. injection H as <- <-. auto.
  - case_decide; [|injection H as <- <-; auto]. destruct (table s !! j); [|done]. injection H as <- <-.
    left. split; [done|]. by case_match.
  - case_decide; [|injection H as <- <-; auto]. destruct (table s !! j); [|done]. injection H as <- <-. auto.
  - injection H as <- <-. auto.
Qed.

#[export] Instance table_user : LockUser step :=
  {| lock_of := table_lock; Lock.standing_of := standing_of; lock_use := table_lock_use |}.

(** ** The entries are equal for the readers *)

Definition local_ok (s : state) (p : pc) : Prop :=
  match p with
  | Loop i => 1 <= i <= test_count + 1
  | LockingShared i _ | First i | UnlockShared i | UnlockingShared i _ | Lock_ i | Locking i _
  | Unlock i | Unlocking i _ => 1 <= i <= test_count
  | Compare i value _ => 1 <= i <= test_count /\ table s !! 0%nat = Some value
  | Read i j => 1 <= i <= test_count /\ (j <= table_size)%nat
  | Write i j v => 1 <= i <= test_count /\ (j < table_size)%nat /\ table s !! j = Some v
  | Mismatch => False
  | End => True
  end.

Record table_inv {LL : LockLaws L} (s : pool state pc) : Prop := {
  ti_lock : user_ok step s;
  ti_length : length (table (shared s)) = table_size;
  ti_table k : (k < table_size)%nat -> table (shared s) !! k = Some (total (fun _ => made k) 0 (pcs s));
  ti_local u p : pcs s !! u = Some p -> local_ok (shared s) p;
}.

(** The parts of a step that leave the table alone. *)
Lemma in_lock_keeps u s q c again next s' p' :
  in_lock u s q c again next = Some (s', p') -> table s' = table s /\ ((exists q, p' = again q) \/ p' = next).
Proof.
  unfold in_lock. destruct (lock_step u (table_lock s) q c) as [[l x]|]; [|done]. intros [= <- <-].
  split; [done|]. destruct x; eauto.
Qed.

Lemma local_ok_keeps s s' p : table s' = table s -> local_ok s p -> local_ok s' p.
Proof. intros E. destruct p; simpl; by rewrite ?E. Qed.

(** What a step does to the table: it moves along with what the thread has made. *)
Lemma table_step u s p c s' p' :
  step u s p c = Some (s', p') -> local_ok s p ->
  (forall k, standing_of p = l_shared -> (k < table_size)%nat -> table s !! k = table s !! 0%nat) ->
  local_ok s' p' /\ length (table s') = length (table s) /\ (table s' = table s \/ standing_of p = l_in) /\
  forall k v, (k < table_size)%nat -> table s !! k = Some v -> table s' !! k = Some (v + (made k p' - made k p)).
Proof.
  intros H Hl Hsh.
  assert (table s' = table s -> local_ok s p' -> (forall k, (k < table_size)%nat -> made k p' = made k p) ->
    local_ok s' p' /\ length (table s') = length (table s) /\ (table s' = table s \/ standing_of p = l_in) /\
    forall k v, (k < table_size)%nat -> table s !! k = Some v -> table s' !! k = Some (v + (made k p' - made k p))) as Hsame.
  { intros E Hl' Hm. rewrite !E. split_and!; [by eapply local_ok_keeps|done|auto|]. intros k v Hk Hv.
    rewrite Hm by done. rewrite Hv. f_equal. lia. }
  destruct p as [i|i q|i|i value j|i|i q|i|i q|i j|i j v|i|i q| |], c as [|c]; simpl in H, Hl; try done;
    try (apply in_lock_keeps in H as [E [[q' ->] | ->]]; apply Hsame; simpl; auto with lia; fail).
  - case_match eqn:E; [apply Z.leb_le in E|apply Z.leb_gt in E].
    + destruct (lock_enter op_lock_shared); [|done]. injection H as <- <-. apply Hsame; simpl; auto with lia.
    + injection H as <- <-. apply Hsame; simpl; auto with lia.
  - destruct (table s !! 0%nat) as [v|] eqn:E; [|done]. injection H as <- <-. apply Hsame; simpl; auto.
  - destruct Hl as [Hi Hv]. case_decide as Hj; [|injection H as <- <-; apply Hsame; simpl; auto].
    rewrite (Hsh j), Hv in H by done. simpl in H. rewrite Z.eqb_refl in H. injection H as <- <-. apply Hsame; simpl; auto.
  - destruct (lock_enter op_unlock_shared); [|done]. injection H as <- <-. apply Hsame; simpl; auto.
  - destruct (lock_enter op_lock); [|done]. injection H as <- <-. apply Hsame; simpl; auto.
  - destruct Hl as [Hi Hle]. case_decide as Hj.
    + destruct (table s !! j) as [v|] eqn:E; [|done]. injection H as <- <-. apply Hsame; simpl; auto.
    + injection H as <- <-. apply Hsame; simpl; auto. intros k Hk. rewrite decide_True by lia. lia.
  - destruct Hl as (Hi & Hj & Hv). injection H as <- <-. simpl. rewrite length_insert.
    split; [split; [done|lia]|]. split; [done|]. split; [auto|].
    intros k w Hk Hw. destruct (decide (k = j)) as [->|Hne].
    + rewrite list_lookup_insert_eq by by eapply lookup_lt_Some. rewrite decide_True, decide_False by lia.
      assert (w = v) as -> by congruence. f_equal. lia.
    + rewrite list_lookup_insert_ne by done. rewrite Hw. f_equal. repeat case_decide; lia.
  - destruct (lock_enter op_unlock); [|done]. injection H as <- <-. apply Hsame; simpl; auto.
Qed.

(** Only a writer inside has made different numbers of increments. *)
Lemma made_outside k p : standing_of p <> l_in -> made k p = made 0 p.
Proof. by destruct p. Qed.

Context {LL : LockLaws L}.

Definition reached (n : nat) : pool state pc -> Prop :=
  reachable_in exec (start n) (fun s => user_covered step s = true).

Lemma readers_equal s u p k :
  table_inv s -> pcs s !! u = Some p -> standing_of p = l_shared -> (k < table_size)%nat ->
  table (shared s) !! k = table (shared s) !! 0%nat.
Proof.
  intros H Hp Hsh Hk. rewrite !(ti_table _ H) by lia. f_equal. apply total_same. intros v q Hv.
  apply made_outside. intros Hq. assert (v = u) as -> by (eapply (user_once step); [apply H|exact Hv|exact Hp|done|auto]).
  congruence.
Qed.

Lemma table_start_inv n s : 0 <= test_count -> start n s -> table_inv s.
Proof.
  intros Hc ->. split; simpl.
  - apply user_ok_start; [done|]. by intros u p [-> _]%lookup_replicate.
  - apply length_replicate.
  - intros k Hk. rewrite (total_const _ 0); [|by intros u p [-> _]%lookup_replicate].
    apply lookup_replicate. split; [lia|done].
  - intros u p [-> _]%lookup_replicate. simpl. lia.
Qed.

Lemma table_invariant n s : 0 <= test_count -> reached n s -> table_inv s /\ length (pcs s) = n.
Proof.
  intros Hr. apply (invariant_in_reachable _ _ _ (fun s => table_inv s /\ length (pcs s) = n)). split.
  - intros s0 H0 _. split; [by eapply table_start_inv|]. rewrite H0. apply length_replicate.
  - intros [sh ps] [u c] s' Hw [H Hlen] He Hw'. split; [|by rewrite (pool_exec_length _ _ _ _ He)].
    pool_step He. simpl in *.
    destruct (table_step _ _ _ _ _ _ Ht (ti_local _ H u p Hp)) as (Hl & El & Hx & Ht').
    { intros k Hsh Hk. by apply (readers_equal _ u p k H). }
    split; simpl.
    + eapply (user_ok_step step); [apply H|done..].
    + rewrite El. apply H.
    + intros k Hk. rewrite (total_insert _ _ _ _ p) by done. rewrite (Ht' k _ Hk (ti_table _ H k Hk)). f_equal. simpl. lia.
    + intros v q [(-> & -> & _)|[Hne Hv]]%insert_lookup_cases; [done|]. pose proof (ti_local _ H v q Hv) as Hq.
      destruct Hx as [E|Hin]; [by eapply local_ok_keeps|].
      assert (standing_of q <> l_in /\ standing_of q <> l_shared) as [N1 N2].
      { split; intros E; apply Hne; symmetry;
          (eapply (user_once step); [apply H|exact Hp|exact Hv|done|first [by left|by right]]). }
      by destruct q.
Qed.

(** No reader finds a mismatch, the entries have room, and at the end every entry
    has been incremented by every thread in every round. *)
Definition passes (n : nat) : Prop :=
  forall s, reachable exec (start n) s ->
    (forall u, pcs s !! u <> Some Mismatch) /\
    Forall (fun v => 0 <= v <= Z.of_nat n * test_count) (table (shared s)) /\
    (Forall (fun p => p = End) (pcs s) -> table (shared s) = replicate table_size (Z.of_nat n * test_count)).

Lemma table_passes n : 0 <= test_count -> lock_total n not_try -> passes n.
Proof.
  intros Hr [Hmay Hwin] s Hs. destruct (table_invariant n s Hr) as [H Hlen].
  { apply (user_total_covered step n not_try); [done|done| | |done].
    - intros [] op r E; simpl in E; try done; by injection E as <- _.
    - intros s0 H0. split; [by eapply table_start_inv|]. rewrite H0. simpl. by rewrite length_replicate. }
  assert (forall k v, table (shared s) !! k = Some v -> v = total (fun _ => made k) 0 (pcs s)) as Ht.
  { intros k v Hv. rewrite (ti_table _ H) in Hv; [congruence|]. rewrite <- (ti_length _ H). by eapply lookup_lt_Some. }
  rewrite <- Hlen. split_and!.
  - intros u Hu. by apply (ti_local _ H) in Hu.
  - apply Forall_lookup. intros k v ->%Ht.
    assert (forall u p, pcs s !! u = Some p -> 0 <= made k p <= test_count) as Hm.
    { intros u p Hp. pose proof (ti_local _ H u p Hp) as Hl. destruct p; simpl in *; try case_decide; lia. }
    rewrite <- (total_const (fun _ _ => test_count) test_count (pcs s)) by done.
    rewrite <- (total_zero (fun _ (_ : pc) => 0) 0 (pcs s)) by done.
    split; apply total_le; intros u p Hp; apply (Hm u p Hp).
  - intros He. symmetry. apply replicate_as_elem_of. split; [apply H|]. intros v [k ->%Ht]%list_elem_of_lookup.
    apply total_const. intros u p Hp. by rewrite (Forall_lookup_1 _ _ _ _ He Hp).
Qed.
End table.
Arguments state L : clear implicits.
Arguments pc L : clear implicits.
Arguments choice L : clear implicits.
End TableTest.

(** ** Theorems *)

(** The constants of the programs. *)
Definition bench_rounds : Z := 100 * 1000.
Definition test_count : Z := 10 * 1000 * 1000.
Definition table_size : nat := 8.
Definition thread_num : nat := 8.

(** The counter of lock-bench is exact whatever the lock, with up to [2^16]
    threads: it never exceeds the number of increments the threads make, and is
    equal to it when they have ended. *)
Theorem lock_bench_counts n :
  Z.of_nat n <= 2 ^ 16 ->
  Bench.counts (L := spin_lock) bench_rounds n /\ Bench.counts (L := tatas_lock) bench_rounds n /\
  Bench.counts (L := ticket_lock) bench_rounds n /\ Bench.counts (L := futex_lock) bench_rounds n.
Proof.
  intros Hn. split_and!.
  - apply (Bench.bench_counts (L := spin_lock) (LL := spin_lock_laws) bench_rounds n); [done|by apply spin_total].
  - apply (Bench.bench_counts (L := tatas_lock) (LL := tatas_lock_laws) bench_rounds n); [done|by apply tatas_total].
  - apply (Bench.bench_counts (L := ticket_lock) (LL := ticket_lock_laws) bench_rounds n); [done|by apply ticket_total].
  - apply (Bench.bench_counts (L := futex_lock) (LL := futex_lock_laws) bench_rounds n); [done|by apply futex_total].
Qed.

(** C22. shared-lock-test passes, with the small words of its build: no reader finds
    two entries that differ, and when the threads have ended each entry is the
    number of their rounds. *)
Theorem shared_lock_test_passes : TableTest.passes (L := shared_ticket_lock 4) test_count table_size thread_num.
Proof. apply (TableTest.table_passes (L := shared_ticket_lock 4) (LL := shared_ticket_lock_laws 4 eq_refl) test_count table_size thread_num); [done|by apply shared_total]. Qed.

(** ** Runs to the end *)

(** Every thread in turn takes the step it can take. *)
Fixpoint play {St La} (exec : St -> La -> option St) (s : St) (ls : list La) : St :=
  match ls with [] => s | l :: ls => play exec (default s (exec s l)) ls end.

Lemma play_reachable {St La} (exec : St -> La -> option St) init s ls :
  reachable exec init s -> reachable exec init (play exec s ls).
Proof.
  revert s. induction ls as [|l ls IH]; intros s Hs; simpl; [done|]. apply IH.
  destruct (exec s l) as [s'|] eqn:E; simpl; [by eapply reach_step|done].
Qed.

(** Two threads, one round, a table of two entries. *)
Definition table_turns : list (nat * TableTest.choice (shared_ticket_lock 4)) :=
  mjoin (replicate 60 [(0%nat, TableTest.Go); (1%nat, TableTest.Go); (0%nat, TableTest.InLock (L := shared_ticket_lock 4) tt);
                       (1%nat, TableTest.InLock (L := shared_ticket_lock 4) tt)]).

Definition small_table : pool (TableTest.state (shared_ticket_lock 4)) (TableTest.pc (shared_ticket_lock 4)) :=
  play (TableTest.exec 1 2)
    (Pool (TableTest.State (L := shared_ticket_lock 4) lock_init [0; 0]) [TableTest.Loop 1; TableTest.Loop 1]) table_turns.

Example small_table_ends : pcs small_table = [TableTest.End; TableTest.End] /\ TableTest.table (shared small_table) = [2; 2].
Proof. by vm_compute. Qed.

(** Four threads, up to the first increment. *)
Definition bench_turns : list (nat * Bench.choice ticket_lock) :=
  mjoin (replicate 5 [(0%nat, Bench.Go); (1%nat, Bench.Go); (0%nat, Bench.InLock (L := ticket_lock) tt);
                      (1%nat, Bench.InLock (L := ticket_lock) tt)]).

Definition early_bench : pool (Bench.state ticket_lock) (Bench.pc ticket_lock) :=
  play (Bench.exec bench_rounds)
    (Pool (Bench.State (L := ticket_lock) lock_init 0) (replicate 4 (Bench.Loop 0))) bench_turns.

Lemma lock_bench_counts_witness :
  Bench.count (shared early_bench) = 1 /\ 0 <= Bench.count (shared early_bench) <= 4 * bench_rounds.
Proof.
  split; [vm_compute; reflexivity|].
  destruct (lock_bench_counts 4) as (_ & _ & H & _); [discriminate|].
  apply (H early_bench). apply play_reachable. apply reach_init; reflexivity.
Defined.
