(* ===== verification/CondVar.v ===== *)
(** * The futex condition variable (evenk/synch.h: class futex_cond_var)

    The condition variable together with the futex_lock its waiters hold: wait
    re-acquires the lock by marking its word, and notify_all moves the sleepers
    to the queue of the lock.  One lock, number 0, is used throughout; the
    threads also lock, unlock and notify as they like. *)

From stdpp Require Import prelude functions.
From S2P Require Import Prelude Futex Lock FutexLock.
Local Open Scope Z_scope.

Module CondVar.
Record state : Type := State {
  futex_ : Z;
  count_ : Z;
  owner_ : option nat;
  waiters : list nat;          (* the threads asleep on [futex_] *)
  lock : FutexLock.state;
  g_futex : Z;                 (* history: [futex_] without wrap-around *)
}.

Definition the_lock : nat := 0.

Definition init : state := State 0 0 None [] (FutexLock.State 0 []) 0.

(** The argument [g] of wait is history: the value without wrap-around. *)
Inductive pc : Type :=
| Client (x : standing futex_lock)
(* wait *)
| WaitOwner | WaitOwner2 | WaitStore | WaitCount | WaitLoad
| WaitUnlock (value g : Z) (p : FutexLock.pc)
| WaitEnter (value g : Z)
| WaitAsleep
| WaitUncount
| Relock (p : FutexLock.pc)
| Terminated
(* notify_one and notify_all, and how the caller stands with the lock *)
| NotifyAdd (all : bool) (x : standing futex_lock)
| NotifyLoad (all : bool) (x : standing futex_lock)
| NotifyWake (x : standing futex_lock)
| NotifyOwner (x : standing futex_lock)
| NotifyRequeue (x : standing futex_lock).

Inductive choice : Type :=
| Lk (c : client_choice futex_lock)   (* the caller uses the lock *)
| Wait
| Notify (all : bool)
| Go
| LockGo (c : FutexLock.choice)       (* a step of the lock on behalf of wait *)
| Spurious
| Woken (l : list nat)
| Moved (l m : list nat).

Definition set_lock (s : state) (l : FutexLock.state) : state :=
  State (futex_ s) (count_ s) (owner_ s) (waiters s) l (g_futex s).
Definition set_waiters (s : state) (q : list nat) : state :=
  State (futex_ s) (count_ s) (owner_ s) q (lock s) (g_futex s).
Definition set_count (s : state) (n : Z) : state :=
  State (futex_ s) n (owner_ s) (waiters s) (lock s) (g_futex s).
Definition set_owner (s : state) : state :=
  State (futex_ s) (count_ s) (Some the_lock) (waiters s) (lock s) (g_futex s).
Definition bump (s : state) : state :=
  State (u32 (futex_ s + 1)) (count_ s) (owner_ s) (waiters s) (lock s) (g_futex s + 1).

(** The largest [int]: how many threads notify_all moves at most. *)
Definition int_max : Z := 2 ^ 31 - 1.

Definition lock_go (u : nat) (s : state) (p : FutexLock.pc) (c : choice)
    (again : FutexLock.pc -> pc) (k : pc) : option (state * pc) :=
  match c with
  | LockGo c =>
      x ← FutexLock.step u (lock s) p c;
      Some (set_lock s x.1, match x.2 with inl p' => again p' | inr _ => k end)
  | _ => None
  end.

(** wait *)
Definition wait_step (u : nat) (s : state) (p : pc) (c : choice) : option (state * pc) :=
  match p, c with
  | WaitOwner, Go => Some (s, match owner_ s with None => WaitStore | Some _ => WaitOwner2 end)
  | WaitOwner2, Go =>
      Some (s, if decide (owner_ s <> Some the_lock) then Terminated else WaitStore)
  | WaitStore, Go => Some (set_owner s, WaitCount)
  | WaitCount, Go => Some (set_count s (u32 (count_ s + 1)), WaitLoad)
  | WaitLoad, Go => Some (s, WaitUnlock (futex_ s) (g_futex s) FutexLock.UnlockSub)
  | WaitUnlock value g p, c => lock_go u s p c (WaitUnlock value g) (WaitEnter value g)
  | WaitEnter value _, Go =>
      Some (match futex_wait u (futex_ s) value (waiters s) with
            | Some q => (set_waiters s q, WaitAsleep)
            | None => (s, WaitUncount)
            end)
  | WaitAsleep, Go =>
      if decide (u ∈ waiters s \/ u ∈ FutexLock.sleepers (lock s)) then None else Some (s, WaitUncount)
  | WaitAsleep, Spurious =>
      Some (set_lock (set_waiters s (without [u] (waiters s)))
              (FutexLock.State (FutexLock.word (lock s)) (without [u] (FutexLock.sleepers (lock s)))),
            WaitUncount)
  | WaitUncount, Go => Some (set_count s (u32 (count_ s - 1)), Relock FutexLock.WaitExchange)
  | Relock p, c => lock_go u s p c Relock (Client l_in)
  | _, _ => None
  end.

(** notify_one and notify_all *)
Definition notify_step (s : state) (p : pc) (c : choice) : option (state * pc) :=
  match p, c with
  | NotifyAdd all x, Go => Some (bump s, NotifyLoad all x)
  | NotifyLoad all x, Go =>
      Some (s, if count_ s =? 0 then Client x else if all then NotifyOwner x else NotifyWake x)
  | NotifyWake x, Woken l => q ← futex_wake 1 (waiters s) l; Some (set_waiters s q, Client x)
  | NotifyOwner x, Go =>
      Some (s, match owner_ s with Some _ => NotifyRequeue x | None => Client x end)
  | NotifyRequeue x, Moved l m =>
      q ← futex_requeue 1 int_max (waiters s) (FutexLock.sleepers (lock s)) l m;
      Some (set_lock (set_waiters s q.1) (FutexLock.State (FutexLock.word (lock s)) q.2), Client x)
  | _, _ => None
  end.

Definition step (u : nat) (s : state) (p : pc) (c : choice) : option (state * pc) :=
  match p with
  | Client x =>
      match c with
      | Lk c => y ← client_step futex_lock u (lock s) x c; Some (set_lock s y.1, Client y.2)
      | Wait => match x with l_in => Some (s, WaitOwner) | _ => None end
      | Notify all => match x with l_in | l_out => Some (s, NotifyAdd all x) | _ => None end
      | _ => None
      end
  | NotifyAdd _ _ | NotifyLoad _ _ | NotifyWake _ | NotifyOwner _ | NotifyRequeue _ => notify_step s p c
  | _ => wait_step u s p c
  end.

Definition exec : pool state pc -> nat * choice -> option (pool state pc) := pool_exec step.
Definition start (s : pool state pc) : Prop := exists n, s = Pool init (replicate n (Client l_out)).

(** How a thread stands with the lock: a sleeper that has left [waiters] is on
    its way back into the lock. *)
Definition standing_at (s : state) (u : nat) (p : pc) : standing futex_lock :=
  match p with
  | Client x | NotifyAdd _ x | NotifyLoad _ x | NotifyWake x | NotifyOwner x | NotifyRequeue x => x
  | WaitOwner | WaitOwner2 | WaitStore | WaitCount | WaitLoad | Terminated => l_in
  | WaitUnlock _ _ p => l_busy (L := futex_lock) op_unlock p
  | WaitEnter _ _ => l_out
  | WaitAsleep =>
      if decide (u ∈ waiters s) then l_out else l_busy (L := futex_lock) op_lock FutexLock.WaitSleep
  | WaitUncount => l_busy (L := futex_lock) op_lock FutexLock.WaitExchange
  | Relock p => l_busy (L := futex_lock) op_lock p
  end.
End CondVar.

Section invariant.
Import CondVar.

Local Abbreviation busy := (l_busy (L := futex_lock)).
Local Abbreviation pstate := (pool state pc).

(** ** The lock under the condition variable *)

(** A thread outside starts to re-acquire the lock. *)
Lemma inv_relock l f u :
  futex_lock_inv l f -> f u = l_out -> futex_lock_inv l (<[u := busy op_lock FutexLock.WaitExchange]> f).
Proof.
  intros H Hu. destruct l as [w q]. apply (inv_update (FutexLock.State w q)); simpl; rewrite ?Hu; try done; auto.
  apply H.
Qed.

(** Threads outside become sleepers of the lock ([moved]) or threads on the way
    to re-acquire it ([woken]). *)
Lemma inv_release l f g woken moved :
  futex_lock_inv l f -> NoDup moved ->
  (forall v, v ∈ woken ++ moved -> f v = l_out /\ g v = busy op_lock FutexLock.WaitSleep) ->
  (forall v, v ∉ woken ++ moved -> g v = f v) ->
  (forall v, v ∈ woken -> v ∉ moved) -> (moved <> [] -> woken <> []) ->
  futex_lock_inv (FutexLock.State (FutexLock.word l) (moved ++ FutexLock.sleepers l)) g.
Proof.
  intros [[H1 H1'] H2 H3 H4 H5 H6] Hnd Hin Hout Hdis Hne.
  assert (forall v, holding (g v) = holding (f v)) as Hh.
  { intros v. destruct (decide (v ∈ woken ++ moved)) as [Hv|Hv]; [|by rewrite Hout].
    by destruct (Hin v Hv) as [-> ->]. }
  assert (forall v, v ∈ FutexLock.sleepers l -> v ∉ woken ++ moved) as Hsl.
  { intros v Hv Hv'. destruct (Hin v Hv') as [E _]. rewrite (H5 v Hv) in E. done. }
  split; simpl; try done.
  - split; [intros u v; rewrite !Hh; apply H1|]. rewrite H1'. by setoid_rewrite Hh.
  - intros u. destruct (decide (u ∈ woken ++ moved)) as [Hv|Hv]; [|by rewrite Hout].
    by destruct (Hin u Hv) as [_ ->].
  - apply NoDup_app. split; [done|]. split; [|done]. intros v Hv Hv'.
    apply (Hsl v Hv'). apply elem_of_app. by right.
  - intros u [Hu|Hu]%elem_of_app; [apply Hin, elem_of_app; by right|]. rewrite Hout by auto. auto.
  - intros Hs. destruct woken as [|v woken].
    + destruct moved; [|by destruct Hne]. destruct (H6 Hs) as [?|[u Hu]]; [by left|]. right.
      exists u. by rewrite Hout by by apply not_elem_of_nil.
    + right. exists v. assert (v ∈ v :: woken) as Hv by by left.
      destruct (Hin v) as [E ->]; [apply elem_of_app; by left|]. simpl. rewrite elem_of_app.
      intros [Hv'|Hv']; [by apply (Hdis v Hv)|]. rewrite (H5 v Hv') in E. done.
Qed.

(** ** The invariant *)

Definition stand_of (s : pstate) (u : nat) : standing futex_lock :=
  match pcs s !! u with Some p => standing_at (shared s) u p | None => l_out end.

(** The threads that [count_] counts. *)
Definition counted (p : pc) : bool :=
  match p with
  | WaitLoad | WaitUnlock _ _ _ | WaitEnter _ _ | WaitAsleep | WaitUncount => true
  | _ => false
  end.

Definition counts (_ : nat) (p : pc) : Z := if counted p then 1 else 0.

(** The threads that know that the owner is set. *)
Definition owned (p : pc) : bool := match p with WaitOwner2 | WaitCount => true | _ => counted p end.

Definition value_ok (s : state) (p : pc) : Prop :=
  match p with
  | WaitUnlock v g _ | WaitEnter v g => v = u32 g /\ g <= g_futex s
  | _ => True
  end.

Record cv_inv (s : pstate) : Prop := {
  cv_lock : exists f, (forall u, f u = stand_of s u) /\ futex_lock_inv (lock (shared s)) f;
  cv_nodup : NoDup (waiters (shared s));
  cv_asleep u : u ∈ waiters (shared s) -> pcs s !! u = Some WaitAsleep;
  cv_count : count_ (shared s) = u32 (total counts 0 (pcs s));
  cv_owner : owner_ (shared s) = None \/ owner_ (shared s) = Some the_lock;
  cv_owned u p : pcs s !! u = Some p -> owned p = true -> owner_ (shared s) = Some the_lock;
  cv_futex : futex_ (shared s) = u32 (g_futex (shared s));
  cv_value u p : pcs s !! u = Some p -> value_ok (shared s) p;
}.

(** What the other members of the invariant need of a step of thread [u]. *)
Lemma cv_frame s ps u p s' p' :
  cv_inv (Pool s ps) -> ps !! u = Some p ->
  (exists f, (forall v, f v = stand_of (Pool s' (<[u := p']> ps)) v) /\ futex_lock_inv (lock s') f) ->
  NoDup (waiters s') -> (forall v, v <> u -> v ∈ waiters s' -> v ∈ waiters s) ->
  (u ∈ waiters s' -> p' = WaitAsleep) ->
  count_ s' = u32 (count_ s - counts u p + counts u p') ->
  owner_ s' = owner_ s \/ owner_ s' = Some the_lock ->
  (owned p' = true -> owner_ s' = Some the_lock) ->
  futex_ s' = u32 (g_futex s') -> g_futex s <= g_futex s' -> value_ok s' p' ->
  cv_inv (Pool s' (<[u := p']> ps)).
Proof.
  intros [H1 H2 H3 H4 H5 H6 H7 H8] Hp Hl Hnd Hw Hu Hc Ho Ho' Hf Hg Hv. simpl in *. split; simpl; try done.
  - intros v Hin. destruct (decide (v = u)) as [->|Hne].
    + rewrite Hu by done. by eapply insert_lookup_self.
    + rewrite list_lookup_insert_ne by done. auto.
  - rewrite Hc, H4, (total_insert _ _ _ _ _ _ Hp). simpl.
    rewrite <- (wrap_add_l 32 _ (counts u p')), wrap_sub_l, wrap_add_l by lia. done.
  - destruct Ho as [->| ->]; auto.
  - intros v pv [(-> & <- & _)|[_ Hpv]]%insert_lookup_cases Hov; [auto|].
    destruct Ho as [->| ->]; [|done]. by eapply H6.
  - intros v pv [(-> & <- & _)|[_ Hpv]]%insert_lookup_cases; [done|].
    pose proof (H8 v pv Hpv) as Hok. destruct pv; simpl in *; try done; split; try apply Hok; lia.
Qed.

(** The lock part, when only [u] changes its standing. *)
Lemma own_lock s ps u p s' p' :
  cv_inv (Pool s ps) -> ps !! u = Some p ->
  (forall v, v <> u -> v ∈ waiters s' <-> v ∈ waiters s) ->
  (forall f, futex_lock_inv (lock s) f -> f u = standing_at s u p ->
     futex_lock_inv (lock s') (<[u := standing_at s' u p']> f)) ->
  exists f, (forall v, f v = stand_of (Pool s' (<[u := p']> ps)) v) /\ futex_lock_inv (lock s') f.
Proof.
  intros H Hp Hw Hl. destruct (cv_lock _ H) as (f & Hf & Hi). simpl in *.
  exists (<[u := standing_at s' u p']> f). split.
  - intros v. unfold stand_of. simpl. destruct (decide (u = v)) as [<-|Hne].
    + rewrite fn_lookup_insert. by rewrite (insert_lookup_self _ _ _ _ Hp).
    + rewrite fn_lookup_insert_ne, list_lookup_insert_ne, Hf by done. unfold stand_of. simpl.
      destruct (ps !! v) as [[]|]; try done. simpl.
      destruct (Hw v ltac:(done)). repeat case_decide; tauto.
  - apply Hl; [done|]. rewrite Hf. unfold stand_of. simpl. by rewrite Hp.
Qed.

(** A step that changes no standing and leaves the lock and the waiters alone. *)
Lemma cv_plain s ps u p s' p' :
  cv_inv (Pool s ps) -> ps !! u = Some p ->
  lock s' = lock s -> waiters s' = waiters s -> u ∉ waiters s ->
  standing_at s' u p' = standing_at s u p ->
  count_ s' = u32 (count_ s - counts u p + counts u p') ->
  owner_ s' = owner_ s \/ owner_ s' = Some the_lock ->
  (owned p' = true -> owner_ s' = Some the_lock) ->
  futex_ s' = u32 (g_futex s') -> g_futex s <= g_futex s' -> value_ok s' p' ->
  cv_inv (Pool s' (<[u := p']> ps)).
Proof.
  intros H Hp El Ew Hu Es Hc Ho Ho' Hf Hg Hv. eapply cv_frame; eauto; rewrite ?Ew; try done.
  - eapply own_lock; eauto; [by rewrite Ew|]. intros f Hi Ef. rewrite El, Es, <- Ef.
    eapply futex_lock_inv_ext; [|exact Hi]. intros v.
    destruct (decide (u = v)) as [<-|]; [by rewrite fn_lookup_insert|by rewrite fn_lookup_insert_ne].
  - apply (cv_nodup _ H).
Qed.

Lemma not_waiting s ps u p : cv_inv (Pool s ps) -> ps !! u = Some p -> p <> WaitAsleep -> u ∉ waiters s.
Proof. intros H Hp Hne Hin. apply (cv_asleep _ H) in Hin. simpl in Hin. congruence. Qed.

Lemma count_same s ps (k : Z) : cv_inv (Pool s ps) -> k = 0 -> count_ s = u32 (count_ s + k).
Proof.
  intros H ->. rewrite Z.add_0_r. pose proof (cv_count _ H) as E. simpl in E. rewrite E.
  by rewrite wrap_wrap by lia.
Qed.

Lemma cv_client s ps u x c s' p' :
  cv_inv (Pool s ps) -> ps !! u = Some (Client x) -> step u s (Client x) c = Some (s', p') ->
  cv_inv (Pool s' (<[u := p']> ps)).
Proof.
  intros H Hp Hs. pose proof (not_waiting _ _ _ _ H Hp ltac:(done)) as Hu.
  pose proof (cv_futex _ H) as Hf. pose proof (cv_nodup _ H) as Hnd. simpl in Hf, Hnd.
  pose proof (count_same s ps 0 H eq_refl) as Hc.
  destruct c; try done; simpl in Hs.
  - destruct (client_step futex_lock u (lock s) x c) as [[l y]|] eqn:E; [|done]. injection Hs as <- <-.
    eapply cv_frame; eauto; simpl; try done.
    + eapply own_lock; eauto; try done. intros f Hi Ef. simpl in *.
      apply (client_step_cases futex_lock) in E as [(op & q & Hop & Hq & -> & ->)|(op & q & c' & r & -> & Hs & ->)].
      * apply futex_lock_call; try done. by rewrite Ef.
      * by eapply futex_lock_step.
    + by rewrite Z.sub_0_r.
  - destruct x; try done. injection Hs as <- <-. eapply cv_plain; eauto; simpl; auto; try done.
    by rewrite Z.sub_0_r.
  - destruct x; try done; injection Hs as <- <-; (eapply cv_plain; eauto; simpl; auto; try done);
      by rewrite Z.sub_0_r.
Qed.

(** A step of the lock on behalf of wait. *)
Lemma cv_lock_go s ps u p q op c again k s' p' :
  cv_inv (Pool s ps) -> ps !! u = Some p -> p <> WaitAsleep ->
  standing_at s u p = busy op q -> lock_go u s q c again k = Some (s', p') ->
  (forall q', again q' <> WaitAsleep) -> k <> WaitAsleep ->
  (forall s' q', standing_at s' u (again q') = busy op q') ->
  (forall s' b, standing_at s' u k = returned op b) ->
  counts u p' = counts u p -> (owned p' = true -> owned p = true) -> value_ok s p' ->
  cv_inv (Pool s' (<[u := p']> ps)).
Proof.
  intros H Hp Hne Hst Hs Ha Hk Hsa Hsk Hcnt Hown Hv.
  pose proof (not_waiting _ _ _ _ H Hp Hne) as Hu.
  destruct c as [| | | |c| | |]; try done. simpl in Hs.
  destruct (FutexLock.step u (lock s) q c) as [[l x]|] eqn:E; [|done]. injection Hs as <- <-.
  eapply cv_frame; eauto; simpl; try done.
  - eapply own_lock; eauto; try done. intros f Hi Ef. cbn [lock set_lock].
    assert (standing_at (set_lock s l) u (match x with inl q' => again q' | inr _ => k end)
            = resumed (L := futex_lock) op x) as -> by (destruct x; simpl; auto).
    eapply futex_lock_step; [done| |done]. by rewrite Ef.
  - apply (cv_nodup _ H).
  - rewrite Hcnt. replace (count_ s - counts u p + counts u p) with (count_ s + 0) by lia. by eapply count_same.
  - intros Ho. by apply (cv_owned _ H u p Hp), Hown.
  - apply (cv_futex _ H).
Qed.

(** wait, up to the system call. *)
Lemma cv_wait_begin s ps u p c s' p' :
  cv_inv (Pool s ps) -> ps !! u = Some p ->
  match p with WaitOwner | WaitOwner2 | WaitStore | WaitCount | WaitLoad | WaitUncount => true | _ => false end = true ->
  wait_step u s p c = Some (s', p') -> cv_inv (Pool s' (<[u := p']> ps)).
Proof.
  intros H Hp Hk Hs. assert (p <> WaitAsleep) as Hne by by intros ->.
  pose proof (not_waiting _ _ _ _ H Hp Hne) as Hu.
  pose proof (cv_futex _ H) as Hf. pose proof (cv_owned _ H u p Hp) as Ho. simpl in Hf, Ho.
  pose proof (fun k => count_same s ps k H) as Hc.
  destruct p, c; try done; simpl in Hs; injection Hs as <- <-.
  - destruct (cv_owner _ H) as [E|E]; simpl in E; rewrite E; eapply cv_plain; eauto; simpl; auto; try done;
      rewrite Z.sub_0_r; by apply Hc.
  - case_decide; (eapply cv_plain; eauto; simpl; auto; try done; rewrite Z.sub_0_r; by apply Hc).
  - eapply cv_plain; eauto; simpl; auto; try done; rewrite Z.sub_0_r; by apply Hc.
  - eapply cv_plain; eauto; simpl; auto; try done. unfold counts. simpl. f_equal. lia.
  - eapply cv_frame; eauto; simpl; auto; try done.
    + eapply own_lock; eauto; try done. intros f Hi Ef. apply futex_lock_call; [done| |done]. by rewrite Ef.
    + apply (cv_nodup _ H).
    + unfold counts. simpl. replace (count_ s - 1 + 1) with (count_ s + 0) by lia. by apply Hc.
  - eapply cv_plain; eauto; simpl; auto; try done. unfold counts. simpl. f_equal. lia.
Qed.

(** A step that only changes the standing of its own thread. *)
Ltac cv_own H Hp :=
  eapply cv_frame; [exact H|exact Hp|eapply own_lock; [exact H|exact Hp| |]|..]; simpl; eauto; try done.

(** The system call of wait, and what follows a sleep. *)
Lemma cv_wait_end s ps u p c s' p' :
  cv_inv (Pool s ps) -> ps !! u = Some p ->
  match p with WaitEnter _ _ | WaitAsleep => true | _ => false end = true ->
  wait_step u s p c = Some (s', p') -> cv_inv (Pool s' (<[u := p']> ps)).
Proof.
  intros H Hp Hk Hs. pose proof (cv_futex _ H) as Hf. pose proof (cv_nodup _ H) as Hnd.
  pose proof (cv_owned _ H u p Hp) as Ho. simpl in Hf, Hnd, Ho.
  assert (forall a b, counts u a = counts u b -> count_ s = u32 (count_ s - counts u a + counts u b)) as Hc.
  { intros a b E. rewrite E. replace (count_ s - counts u b + counts u b) with (count_ s + 0) by lia. by eapply count_same. }
  destruct p as [| | | | | | |value g| | | | | | | | |]; try done; destruct c; try done; simpl in Hs.
  - pose proof (not_waiting _ _ _ _ H Hp ltac:(done)) as Hu.
    unfold futex_wait in Hs. case_decide; injection Hs as <- <-.
    + cv_own H Hp.
      * intros v Hv. rewrite elem_of_cons. tauto.
      * intros f Hi Ef. rewrite decide_True by by left.
        eapply futex_lock_inv_ext; [|exact Hi]. intros v.
        destruct (decide (u = v)) as [<-|]; [by rewrite fn_lookup_insert|by rewrite fn_lookup_insert_ne].
      * by apply NoDup_cons.
      * intros v Hv. rewrite elem_of_cons. tauto.
    + cv_own H Hp. intros f Hi Ef. by apply inv_relock.
  - case_decide as Hd; [done|]. injection Hs as <- <-. cv_own H Hp; [|tauto].
    intros f Hi Ef. rewrite decide_False in Ef by tauto.
    eapply (futex_lock_step (lock s) f u op_lock FutexLock.WaitSleep FutexLock.Go _ (inl FutexLock.WaitExchange));
      [done..|]. simpl. rewrite decide_False by tauto. done.
  - injection Hs as <- <-. cv_own H Hp.
    + intros v Hv. rewrite elem_of_without, list_elem_of_singleton. tauto.
    + intros f Hi Ef. case_decide as Hd.
      * rewrite (without_none [u]); [destruct (lock s); by apply inv_relock|].
        intros x ->%list_elem_of_singleton Hx. apply (fi_asleep _ _ Hi) in Hx. congruence.
      * by eapply (futex_lock_step (lock s) f u op_lock FutexLock.WaitSleep FutexLock.Spurious _
             (inl FutexLock.WaitExchange)).
    + by apply NoDup_without.
    + intros v _ [? _]%elem_of_without. done.
    + intros [_ Hu]%elem_of_without. destruct Hu. by left.
Qed.

(** A wake-up or a requeue: [woken] and [moved] leave the waiters. *)
Lemma cv_release s ps u p s' p' woken moved :
  cv_inv (Pool s ps) -> ps !! u = Some p -> p <> WaitAsleep ->
  standing_at s' u p' = standing_at s u p ->
  woken ⊆ waiters s -> moved ⊆ without woken (waiters s) -> NoDup moved -> (moved <> [] -> woken <> []) ->
  (forall v, v ∈ waiters s' <-> v ∈ waiters s /\ v ∉ woken ++ moved) ->
  lock s' = FutexLock.State (FutexLock.word (lock s)) (moved ++ FutexLock.sleepers (lock s)) ->
  exists f, (forall v, f v = stand_of (Pool s' (<[u := p']> ps)) v) /\ futex_lock_inv (lock s') f.
Proof.
  intros H Hp Hne Est Hsub Hsub' Hnd Hwm Hw El. destruct (cv_lock _ H) as (f & Hf & Hi).
  eexists. split; [done|]. rewrite El.
  assert (forall v, v ∈ woken ++ moved -> v ∈ waiters s) as Hin.
  { intros v [Hv|Hv]%elem_of_app; [auto|]. by apply Hsub', elem_of_without in Hv as [? _]. }
  assert (forall v, v <> u -> stand_of (Pool s' (<[u := p']> ps)) v
                              = match ps !! v with Some q => standing_at s' v q | None => l_out end) as Hoth.
  { intros v Hv. unfold stand_of. simpl. by rewrite list_lookup_insert_ne. }
  eapply (inv_release (lock s) f); try done.
  - intros v Hv. pose proof (cv_asleep _ H v (Hin v Hv)) as Hpv. simpl in Hpv.
    assert (v <> u) as Hvu by (intros ->; congruence).
    rewrite Hoth, Hf by done. unfold stand_of. simpl. rewrite Hpv. simpl.
    rewrite decide_True by auto. rewrite decide_False; [done|]. rewrite Hw. tauto.
  - intros v Hv. rewrite Hf. destruct (decide (v = u)) as [->|Hvu].
    + unfold stand_of. simpl. by rewrite (insert_lookup_self _ _ _ _ Hp), Hp.
    + rewrite Hoth by done. unfold stand_of. simpl. destruct (ps !! v) as [[]|]; try done. simpl.
      pose proof (Hw v). repeat case_decide; tauto.
  - intros v Hv Hv'. by apply Hsub', elem_of_without in Hv' as [_ ?].
Qed.

Lemma cv_notify s ps u p c s' p' :
  cv_inv (Pool s ps) -> ps !! u = Some p -> notify_step s p c = Some (s', p') ->
  cv_inv (Pool s' (<[u := p']> ps)).
Proof.
  intros H Hp Hs. assert (p <> WaitAsleep) as Hne by by intros ->.
  pose proof (not_waiting _ _ _ _ H Hp Hne) as Hu.
  pose proof (cv_futex _ H) as Hf. pose proof (cv_nodup _ H) as Hnd. simpl in Hf, Hnd.
  pose proof (count_same s ps 0 H eq_refl) as Hc.
  assert (forall a b, counts u a = 0 -> counts u b = 0 ->
    count_ s = u32 (count_ s - counts u a + counts u b)) as Hc0 by (by intros a b -> ->; rewrite Z.sub_0_r).
  destruct p as [| | | | | | | | | | | |all x|all x|x|x|x]; try done; destruct c as [| | | | | |l|l m]; try done;
    simpl in Hs.
  - injection Hs as <- <-. eapply cv_plain; eauto; simpl; auto; try done; [|lia].
    rewrite Hf, wrap_add_l by lia. done.
  - injection Hs as <- <-. destruct (count_ s =? 0), all; eapply cv_plain; eauto; simpl; auto; try done.
  - destruct (futex_wake 1 (waiters s) l) as [q|] eqn:E; [|done]. injection Hs as <- <-.
    apply futex_wake_Some in E as [(Hl1 & Hl2 & _) ->]. eapply cv_frame; eauto; simpl; try done.
    + eapply (cv_release s ps u (NotifyWake x) (set_waiters s (without l (waiters s))) _ l []); eauto; try done.
      * by intros v ?%not_elem_of_nil.
      * apply NoDup_nil_2.
      * intros v. simpl. rewrite elem_of_without, app_nil_r. done.
      * simpl. by destruct (lock s).
    + by apply NoDup_without.
    + by intros v _ [? _]%elem_of_without.
    + by intros [? _]%elem_of_without.
  - injection Hs as <- <-. destruct (owner_ s); eapply cv_plain; eauto; simpl; auto; try done.
  - unfold futex_requeue in Hs.
    destruct (futex_wake 1 (waiters s) l) as [q|] eqn:E; [|done]. simpl in Hs.
    destruct (futex_wake int_max q m) as [q'|] eqn:E'; [|done]. simpl in Hs. injection Hs as <- <-.
    apply futex_wake_Some in E as [Hl ->]. apply futex_wake_Some in E' as [(Hm1 & Hm2 & _) ->].
    assert (forall v, v ∈ without m (without l (waiters s)) <-> v ∈ waiters s /\ v ∉ l ++ m) as Hw.
    { intros v. rewrite !elem_of_without, elem_of_app. tauto. }
    eapply cv_frame; eauto; simpl; try done.
    + eapply (cv_release s ps u (NotifyRequeue x)
        (set_lock (set_waiters s (without m (without l (waiters s))))
           (FutexLock.State (FutexLock.word (lock s)) (m ++ FutexLock.sleepers (lock s)))) _ l m); eauto; try done.
      * apply Hl.
      * intros Hm. apply (can_wake_nonempty 1 (waiters s)); [lia| |done].
        intros Eq. rewrite Eq in Hm2. destruct m as [|v m]; [done|].
        assert (v ∈ without l []) as [Hv _]%elem_of_without by (apply Hm2; by left).
        by apply not_elem_of_nil in Hv.
    + by apply NoDup_without, NoDup_without.
    + intros v _ Hv. by apply Hw in Hv as [? _].
    + intros Hv. by apply Hw in Hv as [? _].
Qed.

Ltac lock_go_result H :=
  simpl in H; unfold lock_go in H; repeat case_match; simplify_option_eq; repeat case_match; done.

Lemma cv_step s l s' : cv_inv s -> exec s l = Some s' -> cv_inv s'.
Proof.
  intros H He. destruct s as [s ps], l as [u c]. pool_step He. cbn [shared pcs] in *.
  destruct p; try done; try (by eapply cv_notify); try (by eapply cv_wait_begin); try (by eapply cv_wait_end).
  - by eapply cv_client.
  - pose proof (cv_value _ H u _ Hp) as Hv. 
    eapply (cv_lock_go s ps u _ p op_unlock c (WaitUnlock value g) (WaitEnter value g)); eauto; try done;
      lock_go_result Ht.
  - eapply (cv_lock_go s ps u _ p op_lock c Relock (Client l_in)); eauto; try done; lock_go_result Ht.
Qed.

(** ** Theorems *)

Definition cv_reached : pstate -> Prop := reachable exec start.

Lemma cv_inv_reached s : cv_reached s -> cv_inv s.
Proof.
  apply invariant_in_reachable. split; [|eauto using cv_step].
  intros ? [n ->] _. assert (forall u p, replicate n (Client l_out) !! u = Some p -> p = Client l_out) as Hp
    by (by intros u p [-> _]%lookup_replicate).
  split; simpl; try done.
  - exists (fun _ => l_out). split; [|apply futex_lock_inv_start]. intros u. unfold stand_of. simpl.
    destruct (replicate n _ !! u) as [p|] eqn:E; [|done]. by rewrite (Hp u p E).
  - apply NoDup_nil_2.
  - by intros u ?%not_elem_of_nil.
  - rewrite total_zero; [done|]. by intros u p ->%Hp.
  - by left.
  - by intros u p ->%Hp.
  - by intros u p ->%Hp.
Qed.

(** The lock excludes also when threads wait on the condition variable: a
    thread that returns from wait holds the lock alone. *)
Theorem cond_var_excludes s u v p q :
  cv_reached s -> pcs s !! u = Some p -> pcs s !! v = Some q -> u <> v ->
  standing_at (shared s) u p = l_in -> standing_at (shared s) v q <> l_in.
Proof.
  intros H%cv_inv_reached Hp Hq Hne Hu Hv. destruct (cv_lock _ H) as (f & Hf & Hi).
  apply Hne, (fl_once _ _ _ (fi_flag _ _ Hi)); rewrite Hf; unfold stand_of;
    [by rewrite Hp, Hu|by rewrite Hq, Hv].
Qed.

(** While threads sleep on the lock, somebody will wake one of them. *)
Lemma cv_rouser s :
  cv_inv s -> FutexLock.sleepers (lock (shared s)) <> [] ->
  exists u p, pcs s !! u = Some p /\
    ((holding (standing_at (shared s) u p) = true /\ FutexLock.word (lock (shared s)) = 2) \/
     rouses (lock (shared s)) u (standing_at (shared s) u p)).
Proof.
  intros H Hq. destruct (cv_lock _ H) as (f & Hf & Hi).
  assert (forall u, f u <> l_out -> exists p, pcs s !! u = Some p /\ f u = standing_at (shared s) u p) as Hat.
  { intros u Hu. rewrite Hf in *. unfold stand_of in *. destruct (pcs s !! u) as [p|]; [eauto|done]. }
  destruct (fi_awake _ _ Hi Hq) as [Hw|[u Hu]].
  - destruct (fi_flag _ _ Hi) as [_ Hfl]. rewrite Hw in Hfl.
    destruct (proj1 Hfl eq_refl) as [u Hu].
    destruct (Hat u) as (p & Hp & E); [intros E; by rewrite E in Hu|].
    exists u, p. rewrite <- E. auto.
  - destruct (Hat u) as (p & Hp & E); [intros E; by rewrite E in Hu|].
    exists u, p. rewrite <- E. auto.
Qed.

(** C19. No wake-up is lost in the queue of the lock either, the threads moved to
    it by notify_all included: while threads sleep there, somebody holds the
    lock with the word at 2, or somebody is about to wake a sleeper or to set
    the word to 2. *)
Theorem cond_var_no_lost_wakeup s :
  cv_reached s -> FutexLock.sleepers (lock (shared s)) <> [] ->
  exists u p, pcs s !! u = Some p /\
    ((holding (standing_at (shared s) u p) = true /\ FutexLock.word (lock (shared s)) = 2) \/
     rouses (lock (shared s)) u (standing_at (shared s) u p)).
Proof. intros H%cv_inv_reached. by apply cv_rouser. Qed.

Lemma counts_range i ps : 0 <= total counts i ps <= Z.of_nat (length ps).
Proof.
  revert i. induction ps as [|p ps IH]; intros i; simpl; [lia|]. specialize (IH (S i)).
  unfold counts at 1 3. destruct (counted p); lia.
Qed.

(** While a thread is in wait, past its registration, [count_] is not 0. *)
Lemma counted_count s v p :
  cv_inv s -> Z.of_nat (length (pcs s)) < 2 ^ 32 -> pcs s !! v = Some p -> counted p = true ->
  count_ (shared s) <> 0.
Proof.
  intros H Hlen Hv Hc.
  rewrite (cv_count _ H). pose proof (counts_range 0 (pcs s)) as Hr.
  rewrite wrap_small by lia. intros E0.
  pose proof (total_insert counts 0 (pcs s) v p (Client l_out) Hv) as Ht.
  pose proof (counts_range 0 (<[v := Client l_out]> (pcs s))) as Hr'.
  unfold counts in Ht at 3 4. simpl in Ht. rewrite Hc in Ht. lia.
Qed.

Lemma waiters_counted s :
  cv_inv s -> Z.of_nat (length (pcs s)) < 2 ^ 32 -> waiters (shared s) <> [] -> count_ (shared s) <> 0.
Proof.
  intros H Hlen Hw. destruct (waiters (shared s)) as [|v q] eqn:E; [done|].
  by eapply (counted_count s v); [..|apply (cv_asleep _ H v); rewrite E; by left|].
Qed.

Lemma waiters_owner s : cv_inv s -> waiters (shared s) <> [] -> owner_ (shared s) = Some the_lock.
Proof.
  intros H Hw. destruct (waiters (shared s)) as [|v q] eqn:E; [done|].
  pose proof (cv_asleep _ H v ltac:(rewrite E; by left)) as Hv. by apply (cv_owned _ H v _ Hv).
Qed.

Lemma waiters_length s : cv_inv s -> (length (waiters (shared s)) <= length (pcs s))%nat.
Proof.
  intros H. rewrite <- (length_seq (length (pcs s)) 0).
  apply submseteq_length, NoDup_submseteq; [apply (cv_nodup _ H)|].
  intros v Hv. apply elem_of_seq. apply (cv_asleep _ H), lookup_lt_Some in Hv. lia.
Qed.

(** The requeue of notify_all leaves nobody asleep on the condition variable. *)
Lemma requeue_all s l m q :
  cv_inv s -> Z.of_nat (length (pcs s)) <= int_max ->
  futex_requeue 1 int_max (waiters (shared s)) (FutexLock.sleepers (lock (shared s))) l m = Some q -> q.1 = [].
Proof.
  intros H Hlen Hq. pose proof (waiters_length s H) as Hwl. unfold futex_requeue in Hq.
  destruct (futex_wake 1 (waiters (shared s)) l) as [q1|] eqn:E; [|done]. simpl in Hq.
  destruct (futex_wake int_max q1 m) as [q2|] eqn:E'; [|done]. simpl in Hq. injection Hq as <-. simpl.
  apply futex_wake_Some in E as [Hl ->]. apply futex_wake_Some in E' as [Hm ->].
  apply (can_wake_all int_max); [|done].
  pose proof (length_filter (fun x => x ∉ l) (waiters (shared s))). unfold without. lia.
Qed.

(** A thread in notify_one ([all] false) or notify_all. *)
Definition in_notify (all : bool) (p : pc) : bool :=
  match p with
  | NotifyLoad all' _ => eqb all all'
  | NotifyWake _ => negb all
  | NotifyOwner _ | NotifyRequeue _ => all
  | _ => false
  end.

(** What the two notifications promise, with fewer than [2^31] threads: when
    one of them returns while threads sleep on the condition variable, it has
    just made one of them leave, and notify_all has made all of them leave. *)
Theorem cond_var_notify s u c s' all p x :
  cv_reached s -> Z.of_nat (length (pcs s)) <= int_max ->
  exec s (u, c) = Some s' -> pcs s !! u = Some p -> in_notify all p = true ->
  pcs s' !! u = Some (Client x) -> waiters (shared s) <> [] ->
  (exists v, v ∈ waiters (shared s) /\ v ∉ waiters (shared s')) /\
  (all = true -> waiters (shared s') = []).
Proof.
  intros H%cv_inv_reached Hlen He Hp Hin Hx Hw.
  pose proof (waiters_counted s H ltac:(unfold int_max in Hlen; lia) Hw) as Hc.
  pose proof (waiters_owner s H Hw) as Ho. destruct s as [s ps]. pool_step He. cbn [shared pcs] in *. rewrite Hp in Hp0. injection Hp0 as <-.
  rewrite (insert_lookup_self _ _ _ _ Hp) in Hx. injection Hx as ->.
  destruct p as [| | | | | | | | | | | |all' y|all' y|y|y|y]; try done; destruct c as [| | | | | |l|l m]; try done;
    simpl in Ht.
  - apply Z.eqb_neq in Hc. rewrite Hc in Ht. by destruct all'.
  - destruct (futex_wake 1 (waiters s) l) as [q|] eqn:E; [|done]. injection Ht as <- <-.
    apply futex_wake_Some in E as [Hl ->]. destruct all; [done|]. split; [|done].
    by apply (woken_leaves 1); [lia|..].
  - by rewrite Ho in Ht.
  - destruct (futex_requeue 1 int_max (waiters s) (FutexLock.sleepers (lock s)) l m) as [q|] eqn:E; [|done].
    simpl in Ht. injection Ht as <- <-. simpl.
    rewrite (requeue_all (Pool s ps) l m q H Hlen E). split; [|done].
    destruct (waiters s) as [|v w]; [done|]. exists v. split; [by left|apply not_elem_of_nil].
Qed.

(** A thread that has read [futex_] before a notification does not fall
    asleep after it, unless [2^32] notifications come in between. *)
Theorem cond_var_no_stale_sleep s u value g c s' :
  cv_reached s -> pcs s !! u = Some (WaitEnter value g) ->
  0 < g_futex (shared s) - g < 2 ^ 32 -> exec s (u, c) = Some s' -> u ∉ waiters (shared s').
Proof.
  intros H%cv_inv_reached Hp Hg He. pose proof (cv_value _ H u _ Hp) as [Ev _].
  pose proof (cv_futex _ H) as Ef. destruct s as [s ps]. pool_step He. cbn [shared pcs] in *.
  rewrite Hp in Hp0. injection Hp0 as <-. destruct c; try done. simpl in Ht. unfold futex_wait in Ht.
  rewrite decide_False in Ht.
  - injection Ht as <- <-. by eapply not_waiting.
  - rewrite Ef, Ev. intros E. apply wrap_inj in E; lia.
Qed.
End invariant.

(** ** Runs: two threads wait, the third notifies *)

Section examples.
Import CondVar.

Local Abbreviation busy := (l_busy (L := futex_lock)).

Definition takes_lock (u : nat) : list (nat * choice) :=
  [(u, Lk (Call futex_lock op_lock)); (u, Lk (InLock futex_lock FutexLock.Go))].

(** wait, up to the system call; [n] steps to check the owner. *)
Definition waits (u n : nat) : list (nat * choice) :=
  takes_lock u ++ (u, Wait) :: replicate (n + 3) (u, Go) ++ [(u, LockGo FutexLock.Go)].

Definition notifies (u n : nat) (all : bool) : list (nat * choice) :=
  takes_lock u ++ (u, Notify all) :: replicate n (u, Go).

Definition three : pool state pc := Pool init (replicate 3 (Client l_out)).

(** Threads 0 and 1 sleep, and thread 2 is about to requeue them. *)
Definition before_requeue : pool state pc :=
  Pool (State 1 2 (Some 0%nat) [1%nat; 0%nat] (FutexLock.State 1 []) 1)
       [WaitAsleep; WaitAsleep; NotifyRequeue l_in].

Definition after_requeue : pool state pc :=
  Pool (State 1 2 (Some 0%nat) [] (FutexLock.State 1 [1%nat]) 1)
       [WaitAsleep; WaitAsleep; Client l_in].

(** Thread 0 has read [futex_], and thread 1 has notified. *)
Definition overtaken : pool state pc :=
  Pool (State 1 1 (Some 0%nat) [] (FutexLock.State 1 []) 1)
       [WaitEnter 0 0; NotifyLoad false l_in; Client l_out].

Lemma three_run ls s : run exec three ls = Some s -> cv_reached s.
Proof. apply run_reachable. by exists 3%nat. Qed.

Lemma before_requeue_reached : cv_reached before_requeue.
Proof.
  apply (three_run (waits 0 1 ++ [(0%nat, Go)] ++ waits 1 2 ++ [(1%nat, Go)] ++ notifies 2 3 true)).
  reflexivity.
Qed.

Lemma requeue_step : exec before_requeue (2%nat, Moved [0%nat] [1%nat]) = Some after_requeue.
Proof. reflexivity. Qed.

Lemma after_requeue_reached : cv_reached after_requeue.
Proof. eapply reach_step; [apply before_requeue_reached|apply requeue_step|done]. Qed.

Lemma overtaken_reached : cv_reached overtaken.
Proof. apply (three_run (waits 0 1 ++ notifies 1 1 false)). reflexivity. Qed.

Lemma cond_var_excludes_witness :
  cv_reached after_requeue /\ standing_at (shared after_requeue) 0 WaitAsleep <> l_in.
Proof.
  split; [exact after_requeue_reached|].
  apply (cond_var_excludes after_requeue 2 0 (Client l_in) WaitAsleep after_requeue_reached);
    [reflexivity|reflexivity|discriminate|reflexivity].
Defined.

(** Thread 1 was moved to the queue of the lock, whose word is 1; thread 0 will
    set it to 2. *)
Lemma cond_var_no_lost_wakeup_witness :
  exists u p, pcs after_requeue !! u = Some p /\
    ((holding (standing_at (shared after_requeue) u p) = true /\
      FutexLock.word (lock (shared after_requeue)) = 2) \/
     rouses (lock (shared after_requeue)) u (standing_at (shared after_requeue) u p)).
Proof. apply (cond_var_no_lost_wakeup after_requeue after_requeue_reached). discriminate. Defined.

Lemma cond_var_notify_witness :
  waiters (shared before_requeue) = [1%nat; 0%nat] /\ waiters (shared after_requeue) = [].
Proof.
  split; [reflexivity|].
  apply (cond_var_notify before_requeue 2 (Moved [0%nat] [1%nat]) after_requeue true (NotifyRequeue l_in) l_in
           before_requeue_reached); [discriminate|exact requeue_step|reflexivity..|discriminate|reflexivity].
Defined.

Lemma cond_var_no_stale_sleep_witness :
  exists s', exec overtaken (0%nat, Go) = Some s' /\ 0%nat ∉ waiters (shared s').
Proof.
  eexists. split; [reflexivity|].
  apply (cond_var_no_stale_sleep overtaken 0 0 0 Go _ overtaken_reached); [reflexivity|split; reflexivity|reflexivity].
Defined.
End examples.
