(* ===== verification/SynchQueue.v ===== *)
(** * The lock-based queue (evenk/synch_queue.h: class synch_queue)

    The queue over any lock with [LockLaws] and a condition variable with its
    documented behaviour: wait enters the caller among the waiters before it
    releases the lock, notify_one removes one waiter if there is any, notify_all
    removes all, and a waiter may also leave without reason.  One access to a
    member is one step.  Storing a value may throw, without effect, and so may
    moving it out of the sequence, which leaves some other value behind.  The
    history variable [g_throws], which no step reads, counts the latter. *)

From stdpp Require Import prelude functions.
From S2P Require Import Prelude Futex Conqueue Lock.
Local Open Scope Z_scope.

Section synch_queue.
Context {V : Type} {L : Lock}.

Record queue : Type := Queue {
  closed_ : bool;
  lock_ : lock_state;
  cond_ : list nat;        (* the waiters *)
  queue_ : list V;
  g_throws : nat;
}.

Inductive outcome : Type :=
| Returned (st : queue_op_status)
| Popped (v : V)
| Flag (b : bool)
| Done
| Threw.                          (* an exception of the value *)

Inductive operation : Type :=
| sq_close | sq_is_closed | sq_is_empty
| sq_push (v : V)                 (* wait_push and try_push *)
| sq_wait_pop
| sq_try_pop
| sq_nonblocking_push (v : V)
| sq_nonblocking_pop.

(** The points of the critical sections. *)
Inductive crit : Type :=
| PushClosed | PushBack | PushNotify
| PopEmpty | PopClosed | PopFront | PopDrop (v : V)
| CondWait
| CloseSet | CloseNotify
| ReadClosed | ReadEmpty.

Inductive pc : Type :=
| Idle (o : option outcome)
| Acquire (op : operation) (p : lock_pc)
| Critical (op : operation) (c : crit)
| Release (r : outcome) (p : lock_pc)
| CondRelease (p : lock_pc)
| CondBlocked
| CondReacquire (p : lock_pc).

(** The queue before any operation, and the other operations of the class that
    touch no member or forward to these. *)
Definition synch_queue_init : queue := Queue false lock_init [] [] 0.
Definition sq_is_full (q : queue) : bool := false.
Definition sq_is_lock_free : bool := false.
Definition sq_basic_push (status : queue_op_status) : queue_op_status + unit :=
  if decide (status = success) then inr tt else inl status.
Definition sq_value_pop (status : queue_op_status) (v : V) : queue_op_status + V :=
  if decide (status = success) then inr v else inl status.

(** The move constructor swaps the sequences and copies the flag. *)
Definition move_from (other : queue) : queue * queue :=
  (Queue (closed_ other) lock_init [] (queue_ other) (g_throws other),
   Queue (closed_ other) (lock_ other) (cond_ other) [] (g_throws other)).

(** How the guard of an operation acquires the lock. *)
Definition acquire_op (op : operation) : lock_op :=
  match op with sq_nonblocking_push _ | sq_nonblocking_pop => op_try_lock | _ => op_lock end.

Definition critical_start (op : operation) : crit :=
  match op with
  | sq_close => CloseSet
  | sq_is_closed => ReadClosed
  | sq_is_empty => ReadEmpty
  | sq_push _ | sq_nonblocking_push _ => PushClosed
  | sq_wait_pop | sq_try_pop | sq_nonblocking_pop => PopEmpty
  end.

(** The value a push was called with. *)
Definition pushed (op : operation) : option V :=
  match op with sq_push v | sq_nonblocking_push v => Some v | _ => None end.

Inductive choice : Type :=
| Call (op : operation)
| InLock (c : lock_choice)
| Go
| Notify (l : list nat)
| Spurious
| Throw (junk : V).        (* what a move that throws leaves behind *)

Definition set_lock (q : queue) (l : lock_state) : queue := Queue (closed_ q) l (cond_ q) (queue_ q) (g_throws q).
Definition set_cond (q : queue) (w : list nat) : queue := Queue (closed_ q) (lock_ q) w (queue_ q) (g_throws q).
Definition set_queue (q : queue) (vs : list V) : queue := Queue (closed_ q) (lock_ q) (cond_ q) vs (g_throws q).
Definition set_closed (q : queue) : queue := Queue true (lock_ q) (cond_ q) (queue_ q) (g_throws q).
Definition set_front (q : queue) (vs : list V) : queue :=
  Queue (closed_ q) (lock_ q) (cond_ q) vs (S (g_throws q)).

(** The destructor of the guard. *)
Definition leave (r : outcome) : option pc := p ← lock_enter op_unlock; Some (Release r p).

(** One step inside a critical section: locked_push, locked_pop, close and the
    state operations. *)
Definition critical_step (u : nat) (q : queue) (op : operation) (k : crit) (c : choice) :
    option (queue * pc) :=
  let go k := Some (q, Critical op k) in
  let ret r := p ← leave r; Some (q, p) in
  match k, c with
  | PushClosed, Go => if closed_ q then ret (Returned closed) else go PushBack
  | PushBack, Go =>
      v ← pushed op; Some (set_queue q (queue_ q ++ [v]), Critical op PushNotify)
  | PushBack, Throw _ => ret Threw
  | PushNotify, Notify l =>
      if decide (can_wake 1 (cond_ q) l)
      then p ← leave (Returned success); Some (set_cond q (without l (cond_ q)), p) else None
  | PopEmpty, Go => go (match queue_ q with [] => PopClosed | _ => PopFront end)
  | PopClosed, Go =>
      if closed_ q then ret (Returned closed)
      else match op with sq_wait_pop => go CondWait | _ => ret (Returned empty) end
  | PopFront, Go => match queue_ q with v :: _ => go (PopDrop v) | [] => None end
  | PopFront, Throw junk =>
      match queue_ q with
      | _ :: vs => p ← leave Threw; Some (set_front q (junk :: vs), p)
      | [] => None
      end
  | PopDrop v, Go => p ← leave (Popped v); Some (set_queue q (drop 1 (queue_ q)), p)
  | CondWait, Go => p ← lock_enter op_unlock; Some (set_cond q (u :: cond_ q), CondRelease p)
  | CloseSet, Go => Some (set_closed q, Critical op CloseNotify)
  | CloseNotify, Go => p ← leave Done; Some (set_cond q [], p)
  | ReadClosed, Go => ret (Flag (closed_ q))
  | ReadEmpty, Go => ret (Flag (match queue_ q with [] => true | _ => false end))
  | _, _ => None
  end.

(** A step of a method of the lock. *)
Definition lock_call (u : nat) (q : queue) (p : lock_pc) (c : choice)
    (again : lock_pc -> pc) (k : bool -> pc) : option (queue * pc) :=
  match c with
  | InLock c =>
      x ← lock_step u (lock_ q) p c;
      Some (set_lock q x.1, match x.2 with inl p' => again p' | inr b => k b end)
  | _ => None
  end.

Definition sq_step (u : nat) (q : queue) (p : pc) (c : choice) : option (queue * pc) :=
  match p with
  | Idle _ =>
      match c with
      | Call op => p ← lock_enter (acquire_op op); Some (q, Acquire op p)
      | _ => None
      end
  | Acquire op p =>
      lock_call u q p c (Acquire op) (fun b =>
        match acquire_op op, b with
        | op_try_lock, false => Idle (Some (Returned busy))
        | _, _ => Critical op (critical_start op)
        end)
  | Critical op k => critical_step u q op k c
  | Release r p => lock_call u q p c (Release r) (fun _ => Idle (Some r))
  | CondRelease p => lock_call u q p c CondRelease (fun _ => CondBlocked)
  | CondBlocked =>
      match c with
      | Go => if decide (u ∈ cond_ q) then None
              else p ← lock_enter op_lock; Some (q, CondReacquire p)
      | Spurious => p ← lock_enter op_lock; Some (set_cond q (without [u] (cond_ q)), CondReacquire p)
      | _ => None
      end
  | CondReacquire p => lock_call u q p c CondReacquire (fun _ => Critical sq_wait_pop PopEmpty)
  end.

Definition sq_exec : pool queue pc -> nat * choice -> option (pool queue pc) := pool_exec sq_step.

Definition sq_start (s : pool queue pc) : Prop :=
  exists n, s = Pool synch_queue_init (replicate n (Idle None)).
End synch_queue.

Arguments queue V {L}.
Arguments pc V {L}.
Arguments choice V {L}.
Arguments outcome V : clear implicits.

(** ** The lock protects the members *)

Section protection.
Context {V : Type} {L : Lock} {LL : LockLaws L}.

Local Abbreviation state := (pool (queue V) (pc V)).

(** How a thread of the queue stands with the lock. *)
Definition lock_standing (p : pc V) : standing L :=
  match p with
  | Idle _ | CondBlocked => l_out
  | Acquire op p => l_busy (acquire_op op) p
  | Critical _ _ => l_in
  | Release _ p | CondRelease p => l_busy op_unlock p
  | CondReacquire p => l_busy op_lock p
  end.

(** What a step does to the lock: nothing, a call, or a step of a method. *)
Lemma sq_step_lock u (q q' : queue V) p p' c :
  sq_step u q p c = Some (q', p') ->
  (lock_ q' = lock_ q /\ lock_standing p' = lock_standing p) \/
  (lock_ q' = lock_ q /\ exists op r, callable (lock_standing p) op = true /\
     lock_enter op = Some r /\ lock_standing p' = l_busy op r) \/
  (exists op r c' x, lock_standing p = l_busy op r /\
     lock_step u (lock_ q) r c' = Some (lock_ q', x) /\ lock_standing p' = resumed op x).
Proof.
  intros H. destruct p as [o|op r|op k|o r|r| |r]; simpl in H.
  - destruct c; try done. destruct (lock_enter (acquire_op op)) as [r|] eqn:E; [|done].
    injection H as <- <-. right. left. split; [done|]. exists (acquire_op op), r.
    split; [by destruct op|]. split; [done|done].
  - destruct c; try done. simpl in H. destruct (lock_step u (lock_ q) r c) as [[l x]|] eqn:E; [|done].
    injection H as <- <-. right. right. exists (acquire_op op), r, c, x. split; [done|]. split; [done|].
    destruct x as [r'|[]]; simpl; [done|by destruct op..].
  - destruct k, c; try done; simpl in H; unfold leave in H;
      repeat (case_match || case_decide); simplify_option_eq; auto;
      right; left; (split; [done|]); exists op_unlock; eexists; (split; [done|]); (split; [done|done]).
  - destruct c; try done. simpl in H. destruct (lock_step u (lock_ q) r c) as [[l x]|] eqn:E; [|done].
    injection H as <- <-. right. right. exists op_unlock, r, c, x. split; [done|]. split; [done|].
    by destruct x.
  - destruct c; try done. simpl in H. destruct (lock_step u (lock_ q) r c) as [[l x]|] eqn:E; [|done].
    injection H as <- <-. right. right. exists op_unlock, r, c, x. split; [done|]. split; [done|].
    by destruct x.
  - destruct c; try done; [case_decide; [done|]|];
      (destruct (lock_enter op_lock) as [r|] eqn:E; [|done]); injection H as <- <-;
      right; left; (split; [done|]); exists op_lock, r; done.
  - destruct c; try done. simpl in H. destruct (lock_step u (lock_ q) r c) as [[l x]|] eqn:E; [|done].
    injection H as <- <-. right. right. exists op_lock, r, c, x. split; [done|]. split; [done|].
    by destruct x.
Qed.

#[export] Instance sq_lock_user : LockUser (sq_step (V := V) (L := L)) :=
  {| lock_of := lock_; standing_of := lock_standing; lock_use u q p c q' p' := sq_step_lock u q q' p p' c |}.

(** The runs the laws of the lock cover. *)
Definition sq_covered : state -> bool := user_covered sq_step.

Definition lock_ok : state -> Prop := user_ok sq_step.

Lemma lock_ok_step q ps u p q' p' c :
  lock_ok (Pool q ps) -> ps !! u = Some p -> sq_step u q p c = Some (q', p') ->
  sq_covered (Pool q ps) = true -> sq_covered (Pool q' (<[u := p']> ps)) = true ->
  lock_ok (Pool q' (<[u := p']> ps)).
Proof. apply user_ok_step. Qed.

(** At most one thread is in a critical section. *)
Lemma critical_once s u v op k op' k' :
  lock_ok s -> pcs s !! u = Some (Critical op k) -> pcs s !! v = Some (Critical op' k') -> u = v.
Proof. intros H Hu Hv. eapply (user_once sq_step); eauto. Qed.
End protection.

(** ** The invariant of the queue *)

Section invariant.
Context {V : Type} {L : Lock} {LL : LockLaws L}.

Local Abbreviation state := (pool (queue V) (pc V)).
Local Abbreviation exec := (sq_exec (V := V) (L := L)).

(** The operations a point of the critical sections belongs to. *)
Definition of_op (op : operation (V := V)) (k : crit (V := V)) : bool :=
  match k, op with
  | (PushClosed | PushBack | PushNotify), (sq_push _ | sq_nonblocking_push _)
  | (PopEmpty | PopClosed | PopFront | PopDrop _), (sq_wait_pop | sq_try_pop | sq_nonblocking_pop)
  | CondWait, sq_wait_pop
  | (CloseSet | CloseNotify), sq_close
  | ReadClosed, sq_is_closed
  | ReadEmpty, sq_is_empty => true
  | _, _ => false
  end.

(** What a thread knows at a point of its critical section. *)
Definition crit_ok (q : queue V) (op : operation) (k : crit) : Prop :=
  of_op op k = true /\
  match k with
  | PushBack => closed_ q = false
  | PopClosed => queue_ q = []
  | CondWait => queue_ q = [] /\ closed_ q = false
  | PopFront => queue_ q <> []
  | PopDrop v => head (queue_ q) = Some v
  | _ => True
  end.

(** Threads on the way to take an item, or to wake one that will. *)
Definition claim (w : list nat) (u : nat) (p : pc V) : Z :=
  match p with
  | Critical _ PushNotify | Critical _ PopEmpty | Critical _ PopFront | Critical _ (PopDrop _)
  | CondReacquire _ => 1
  | CondRelease _ | CondBlocked => if decide (u ∈ w) then 0 else 1
  | _ => 0
  end.

Definition waiting (p : pc V) : bool :=
  match p with CondRelease _ | CondBlocked => true | _ => false end.

Record sq_inv (s : state) : Prop := {
  si_lock : lock_ok s;
  si_crit u op k : pcs s !! u = Some (Critical op k) -> crit_ok (shared s) op k;
  si_cond u : u ∈ cond_ (shared s) -> exists p, pcs s !! u = Some p /\ waiting p = true;
  si_claims : cond_ (shared s) <> [] ->
    Z.of_nat (length (queue_ (shared s)))
    <= total (claim (cond_ (shared s))) 0 (pcs s) + Z.of_nat (g_throws (shared s));
  si_closed : closed_ (shared s) = true -> cond_ (shared s) <> [] ->
    exists u, pcs s !! u = Some (Critical sq_close CloseNotify);
}.

Lemma claim_nonneg w u p : 0 <= claim w u p.
Proof. destruct p as [| |? []| | | |]; simpl; repeat case_decide; lia. Qed.

Lemma claims_nonneg w i ps : 0 <= total (claim w) i ps.
Proof.
  revert i. induction ps as [|p ps IH]; intros i; simpl; [lia|].
  pose proof (claim_nonneg w i p). specialize (IH (S i)). lia.
Qed.

(** A step that leaves the flag, the waiters and the items alone. *)
Lemma sq_inv_quiet q ps u p q' p' c :
  sq_inv (Pool q ps) -> ps !! u = Some p -> sq_step u q p c = Some (q', p') ->
  sq_covered (Pool q ps) = true -> sq_covered (Pool q' (<[u := p']> ps)) = true ->
  closed_ q' = closed_ q -> cond_ q' = cond_ q -> queue_ q' = queue_ q -> g_throws q' = g_throws q ->
  (forall op k, p' = Critical op k -> crit_ok q op k) ->
  (waiting p = true -> waiting p' = true \/ u ∉ cond_ q) ->
  p <> Critical sq_close CloseNotify ->
  (cond_ q <> [] -> claim (cond_ q) u p <= claim (cond_ q) u p' \/ queue_ q = []) ->
  sq_inv (Pool q' (<[u := p']> ps)).
Proof.
  intros [H1 H2 H3 H4 H5] Hp Hs Hw Hw' E1 E2 E3 E4 Hc Hwt Hn Hcl. simpl in *.
  assert (forall op k, crit_ok q op k -> crit_ok q' op k) as Hok
    by (intros op k; unfold crit_ok; destruct k; by rewrite ?E1, ?E3).
  split; simpl; rewrite ?E1, ?E2, ?E3, ?E4.
  - by eapply lock_ok_step.
  - intros v op k [(-> & <- & _)|[Hne Hv]]%insert_lookup_cases; [by apply Hok, Hc|]. by eapply Hok, H2.
  - intros v Hv. destruct (H3 v Hv) as (pv & Hpv & Hwv). destruct (decide (v = u)) as [->|Hne].
    + exists p'. split; [by eapply insert_lookup_self|]. rewrite Hp in Hpv. injection Hpv as <-.
      by destruct (Hwt Hwv).
    + exists pv. by rewrite list_lookup_insert_ne.
  - intros Hne. rewrite (total_insert _ _ _ _ _ _ Hp). simpl. specialize (H4 Hne).
    destruct (Hcl Hne) as [?|Eq]; [lia|]. rewrite Eq. simpl.
    pose proof (claims_nonneg (cond_ q) 0 (<[u := p']> ps)) as Hpos.
    rewrite (total_insert _ _ _ _ _ _ Hp) in Hpos. simpl in Hpos. lia.
  - intros Ecl Hne. destruct (H5 Ecl Hne) as [v Hv]. exists v.
    rewrite list_lookup_insert_ne; [done|]. intros ->. congruence.
Qed.

(** A step of the thread in the critical section: nobody else is in one. *)
Lemma sq_inv_critical q ps u op k q' p' c :
  sq_inv (Pool q ps) -> ps !! u = Some (Critical op k) -> sq_step u q (Critical op k) c = Some (q', p') ->
  sq_covered (Pool q ps) = true -> sq_covered (Pool q' (<[u := p']> ps)) = true ->
  (forall op' k', p' = Critical op' k' -> crit_ok q' op' k') ->
  (forall v, v ∈ cond_ q' -> (v = u /\ waiting p' = true) \/ v ∈ cond_ q) ->
  (cond_ q' <> [] -> Z.of_nat (length (queue_ q'))
     <= total (claim (cond_ q')) 0 (<[u := p']> ps) + Z.of_nat (g_throws q')) ->
  (closed_ q' = true -> cond_ q' <> [] ->
     p' = Critical sq_close CloseNotify \/ (closed_ q = true /\ cond_ q <> [] /\ k <> CloseNotify)) ->
  sq_inv (Pool q' (<[u := p']> ps)).
Proof.
  intros [H1 H2 H3 H4 H5] Hp Hs Hw Hw' Hc Hcond Hcl Hclosed. simpl in *. split; simpl.
  - by eapply lock_ok_step.
  - intros v op' k' [(-> & <- & _)|[Hne Hv]]%insert_lookup_cases; [by apply Hc|].
    destruct Hne. by eapply (critical_once (Pool q ps)).
  - intros v Hv. destruct (Hcond v Hv) as [[-> Hw1]|Hin].
    + exists p'. split; [by eapply insert_lookup_self|done].
    + destruct (H3 v Hin) as (pv & Hpv & Hwv). exists pv. rewrite list_lookup_insert_ne; [done|].
      intros ->. rewrite Hp in Hpv. injection Hpv as <-. done.
  - done.
  - intros Ecl Hne. destruct (Hclosed Ecl Hne) as [->|(E & Hne0 & Hk)].
    + exists u. by eapply insert_lookup_self.
    + destruct (H5 E Hne0) as [v Hv]. exists v. rewrite list_lookup_insert_ne; [done|].
      intros ->. congruence.
Qed.

(** Waking one waiter makes it a claimant. *)
Lemma claims_wake q ps l :
  sq_inv (Pool q ps) -> can_wake 1 (cond_ q) l -> cond_ q <> [] ->
  total (claim (cond_ q)) 0 ps + 1 <= total (claim (without l (cond_ q))) 0 ps.
Proof.
  intros H Hl Hne. pose proof (can_wake_nonempty 1 (cond_ q) l ltac:(lia) Hne Hl) as Hl0.
  destruct l as [|v l]; [done|]. destruct Hl as (_ & Hsub & _).
  assert (v ∈ cond_ q) as Hv by (apply Hsub; by left).
  destruct (si_cond _ H v Hv) as (p & Hp & Hwp). simpl in Hp.
  assert (forall u x, claim (cond_ q) u x <= claim (without (v :: l) (cond_ q)) u x) as Hmono.
  { intros u x. destruct x as [| |? []| | | |]; simpl; repeat case_decide; try lia;
      destruct_or?; rewrite ?elem_of_without in *; tauto. }
  apply (total_lt _ _ 0 ps v p Hp); [|auto]. simpl.
  destruct p; try done; simpl; rewrite decide_True by done;
    (rewrite decide_False; [lia|]); rewrite elem_of_without; intros [_ Hv']; apply Hv'; by left.
Qed.

Lemma claims_without w ps (l : list nat) :
  total (claim w) 0 ps <= total (claim (without l w)) 0 ps.
Proof.
  apply total_le. intros u x _. destruct x as [| |? []| | | |]; simpl; repeat case_decide; try lia;
    rewrite ?elem_of_without in *; tauto.
Qed.

(** The steps of the critical sections that only read. *)
Definition reads (k : crit (V := V)) : bool :=
  match k with
  | PushClosed | PopEmpty | PopClosed | PopFront | ReadClosed | ReadEmpty => true
  | _ => false
  end.

Lemma critical_reads u q op k q' p' c :
  sq_step u q (Critical op k) c = Some (q', p') -> crit_ok q op k -> reads k = true -> c = Go ->
  q' = q /\ (forall op' k', p' = Critical op' k' -> crit_ok q op' k') /\
  (cond_ q <> [] -> claim (cond_ q) u (Critical op k) <= claim (cond_ q) u p' \/ queue_ q = []).
Proof.
  intros Hs [Ho Hk] Hr ->. destruct k; try done; simpl in Hs; unfold leave in Hs.
  - destruct (closed_ q) eqn:E; simplify_option_eq; split_and!; try done;
      (by intros op' k' [= <- <-]) || (left; simpl; lia).
  - destruct (queue_ q) eqn:E; injection Hs as <- <-; split_and!; try done;
      (by intros op' k' [= <- <-]; unfold crit_ok; rewrite E) || (auto; left; simpl; lia).
  - destruct (closed_ q) eqn:E; [|destruct op]; simplify_option_eq; split_and!; try done; auto;
      by intros op' k' [= <- <-].
  - destruct (queue_ q) eqn:E; [done|]. injection Hs as <- <-. split_and!; try done.
    + intros op' k' [= <- <-]. unfold crit_ok. by rewrite E.
    + left. simpl. lia.
  - simplify_option_eq. split_and!; try done. left. simpl. lia.
  - simplify_option_eq. split_and!; try done. left. simpl. lia.
Qed.

Lemma critical_inv q ps u op k q' p' c :
  sq_inv (Pool q ps) -> ps !! u = Some (Critical op k) -> sq_step u q (Critical op k) c = Some (q', p') ->
  sq_covered (Pool q ps) = true -> sq_covered (Pool q' (<[u := p']> ps)) = true ->
  sq_inv (Pool q' (<[u := p']> ps)).
Proof.
  intros H Hp Hs Hw Hw'. pose proof Hs as Hs0. pose proof (si_crit _ H u op k Hp) as Hk. simpl in Hk.
  pose proof (si_claims _ H) as Hcl. pose proof (si_closed _ H) as Hclosed. simpl in Hcl, Hclosed.
  assert (forall g, total g 0 (<[u := p']> ps) = total g 0 ps - g u (Critical op k) + g u p') as Htot
    by (intros g; exact (total_insert g 0 ps u _ p' Hp)).
  destruct k, c; try done; simpl in Hs0; unfold leave in Hs0.
  all: try (destruct (critical_reads _ _ _ _ _ _ _ Hs Hk eq_refl eq_refl) as (-> & Hok & Hc);
    by eapply (sq_inv_quiet q ps u)).
  - (* PushBack *) destruct (pushed op) as [v|]; [|done]. injection Hs0 as <- <-. eapply sq_inv_critical; eauto; simpl.
    + intros op' k' [= <- <-]. split; [|done]. destruct Hk as [Ho _]. by destruct op.
    + intros Hne. rewrite length_app, Htot. simpl. specialize (Hcl Hne). lia.
  - (* PushBack, throws *) destruct (lock_enter op_unlock) as [r|]; [|done]. injection Hs0 as <- <-.
    eapply sq_inv_critical; eauto; simpl; try done.
    intros Hne. rewrite Htot. simpl. specialize (Hcl Hne). lia.
  - (* PushNotify *) case_decide as Hl; [|done].
    destruct (lock_enter op_unlock) as [r|]; [|done]. injection Hs0 as <- <-.
    eapply sq_inv_critical; eauto; simpl; try done.
    + intros v [Hv _]%elem_of_without. by right.
    + intros Hne. rewrite Htot. simpl.
      assert (cond_ q <> []) as Hne0 by (intros E; by rewrite E in Hne).
      pose proof (claims_wake q ps l H Hl Hne0). specialize (Hcl Hne0). lia.
    + intros Ecl Hne. right. split; [done|]. split; [|done]. intros E. by rewrite E in Hne.
  - (* PopFront, throws *) destruct Hk as [_ Hk]. destruct (queue_ q) as [|v vs] eqn:Eq; [done|].
    destruct (lock_enter op_unlock) as [r|]; [|done]. injection Hs0 as <- <-.
    eapply sq_inv_critical; eauto; simpl; try done.
    intros Hne. rewrite Htot. specialize (Hcl Hne). simpl in *. lia.
  - (* PopDrop *) destruct (lock_enter op_unlock) as [r|]; [|done]. injection Hs0 as <- <-.
    eapply sq_inv_critical; eauto; simpl; try done.
    intros Hne. rewrite Htot. simpl. specialize (Hcl Hne).
    destruct Hk as [_ Hk]. destruct (queue_ q); [done|]. simpl in *. rewrite drop_0. lia.
  - (* CondWait *) destruct (lock_enter op_unlock) as [r|]; [|done]. injection Hs0 as <- <-.
    destruct Hk as (_ & Hk1 & Hk2). eapply sq_inv_critical; eauto; simpl; try done.
    + intros v [->|Hv]%elem_of_cons; [by left|by right].
    + intros _. rewrite Hk1. pose proof (claims_nonneg (u :: cond_ q) 0 (<[u := CondRelease r]> ps)). simpl. lia.
    + congruence.
  - (* CloseSet *) destruct op; try by destruct Hk. injection Hs0 as <- <-. eapply sq_inv_critical; eauto; simpl; auto.
    + by intros op' k' [= <- <-].
    + intros Hne. rewrite Htot. simpl. specialize (Hcl Hne). lia.
  - (* CloseNotify *) destruct (lock_enter op_unlock) as [r|]; [|done]. injection Hs0 as <- <-.
    eapply sq_inv_critical; eauto; simpl; try done.
    intros v Hv. by apply not_elem_of_nil in Hv.
Qed.

(** A waiter that leaves without having been notified. *)
Lemma spurious_inv q ps u q' p' :
  sq_inv (Pool q ps) -> ps !! u = Some CondBlocked -> sq_step u q CondBlocked Spurious = Some (q', p') ->
  sq_covered (Pool q ps) = true -> sq_covered (Pool q' (<[u := p']> ps)) = true ->
  sq_inv (Pool q' (<[u := p']> ps)).
Proof.
  intros H Hp Hs Hw Hw'. pose proof Hs as Hs0. simpl in Hs0.
  destruct (lock_enter op_lock) as [r|]; [|done]. injection Hs0 as <- <-.
  pose proof (si_lock _ H) as H1. destruct H as [_ H2 H3 H4 H5]. cbn [shared pcs] in *.
  assert (forall w, without [u] w <> [] -> w <> []) as Hne by (intros w Hn ->; by apply Hn).
  split; simpl.
  - by eapply lock_ok_step.
  - intros v op k [(-> & [=] & _)|[_ Hv]]%insert_lookup_cases. by apply (H2 v).
  - intros v [Hv Hvu]%elem_of_without. destruct (H3 v Hv) as (pv & Hpv & Hwv). exists pv.
    rewrite list_lookup_insert_ne; [done|]. intros ->. apply Hvu. by left.
  - intros Hn. rewrite (total_insert _ _ _ _ _ _ Hp). simpl. specialize (H4 (Hne _ Hn)).
    pose proof (claims_without (cond_ q) ps [u]). case_decide; lia.
  - intros Ecl Hn. destruct (H5 Ecl (Hne _ Hn)) as [v Hv]. exists v.
    rewrite list_lookup_insert_ne; [done|]. intros ->. congruence.
Qed.

Lemma critical_start_ok q op : crit_ok q op (critical_start op).
Proof. by destruct op. Qed.

(** Steps outside the critical sections. *)
Lemma outside_quiet u q p c q' p' :
  sq_step u q p c = Some (q', p') -> (forall op k, p <> Critical op k) -> c <> Spurious ->
  closed_ q' = closed_ q /\ cond_ q' = cond_ q /\ queue_ q' = queue_ q /\ g_throws q' = g_throws q /\
  (forall op k, p' = Critical op k -> crit_ok q op k) /\
  (waiting p = true -> waiting p' = true \/ u ∉ cond_ q) /\
  claim (cond_ q) u p <= claim (cond_ q) u p'.
Proof.
  intros Hs Hn Hc. destruct p as [o|op r|op k|o r|r| |r]; simpl in Hs; [..|by destruct (Hn op k)| | | |].
  - destruct c; try done. simplify_option_eq. split_and!; try done; simpl; lia.
  - destruct c; try done. simpl in Hs. simplify_option_eq. destruct H as [l [r'|b]]; simpl; [done|].
    split_and!; try done; [|by destruct op, b].
    intros op' k'. pose proof (critical_start_ok q op). by destruct op, b; simpl; intros [= <- <-].
  - destruct c; try done. simpl in Hs. simplify_option_eq. by destruct H as [l []].
  - destruct c; try done. simpl in Hs. destruct (lock_step u (lock_ q) r c) as [[l []]|]; [..|done];
      injection Hs as <- <-; split_and!; auto; done || (simpl; lia).
  - destruct c; try done. case_decide; [done|]. simplify_option_eq. split_and!; auto; done || (simpl; case_decide; lia).
  - destruct c; try done. simpl in Hs. simplify_option_eq. destruct H as [l []]; split_and!; try done.
    by intros op' k' [= <- <-].
Qed.

Lemma classify (p : pc V) :
  (exists op k, p = Critical op k) \/ (forall op k, p <> Critical op k).
Proof. destruct p; eauto. Qed.

Lemma is_spurious (c : choice V) : c = Spurious \/ c <> Spurious.
Proof. destruct c; auto. Qed.

Lemma sq_inv_step s l s' :
  sq_inv s -> sq_covered s = true -> sq_covered s' = true -> exec s l = Some s' -> sq_inv s'.
Proof.
  intros H Hw Hw' He. destruct s as [q ps], l as [u c]. pool_step He. cbn [shared pcs] in *.
  destruct (classify p) as [(op & k & ->)|Hn]; [by eapply critical_inv|].
  destruct (is_spurious c) as [->|Hc].
  - destruct p; try done; [by destruct c|by eapply spurious_inv].
  - destruct (outside_quiet _ _ _ _ _ _ Ht Hn Hc) as (? & ? & ? & ? & ? & ? & ?).
    eapply (sq_inv_quiet q ps u p); eauto.
Qed.
End invariant.

(** ** A sequential queue and the order of the operations *)

Section linearizable.
Context {V : Type} {L : Lock} {LL : LockLaws L}.

Local Abbreviation state := (pool (queue V) (pc V)).
Local Abbreviation exec := (sq_exec (V := V) (L := L)).

(** What an operation does to a queue nobody else uses: the flag and the items.
    A wait_pop has no result while the queue is open and empty. *)
Definition spec_apply (q : bool * list V) (op : operation (V := V)) :
    option (outcome V * (bool * list V)) :=
  match op with
  | sq_close => Some (Done, (true, q.2))
  | sq_is_closed => Some (Flag q.1, q)
  | sq_is_empty => Some (Flag (match q.2 with [] => true | _ => false end), q)
  | sq_push v | sq_nonblocking_push v =>
      Some (if q.1 then (Returned closed, q) else (Returned success, (false, q.2 ++ [v])))
  | sq_wait_pop | sq_try_pop | sq_nonblocking_pop =>
      match q.2 with
      | v :: vs => Some (Popped v, (q.1, vs))
      | [] => if q.1 then Some (Returned closed, q)
              else match op with sq_wait_pop => None | _ => Some (Returned empty, q) end
      end
  end.

(** Two operations that do not come to an end normally: a push whose value
    throws changes nothing, a pop whose value throws leaves another value at the
    front. *)
Definition spec_throw (q : bool * list V) (op : operation (V := V)) (q' : bool * list V) : Prop :=
  match op with
  | sq_push _ | sq_nonblocking_push _ => q.1 = false /\ q' = q
  | sq_wait_pop | sq_try_pop | sq_nonblocking_pop =>
      exists v vs junk, q.2 = v :: vs /\ q' = (q.1, junk :: vs)
  | _ => False
  end.

(** A non-blocking operation may also find the queue busy. *)
Definition spec_step (q : bool * list V) (op : operation) (r : outcome V) (q' : bool * list V) : Prop :=
  (acquire_op op = op_try_lock /\ r = Returned busy /\ q' = q) \/
  (r = Threw /\ spec_throw q op q') \/ spec_apply q op = Some (r, q').

(** What a step shows: an operation is called, or takes effect with a result. *)
Inductive entry : Type :=
| called (op : operation (V := V))
| took (op : operation (V := V)) (r : outcome V).

Definition entry_at (u : nat) (q : queue V) (p : pc V) (c : choice V) : option entry :=
  match p, c with
  | Idle _, Call op => Some (called op)
  | Acquire op r, InLock c =>
      match acquire_op op, lock_step u (lock_ q) r c with
      | op_try_lock, Some (_, inr false) => Some (took op (Returned busy))
      | _, _ => None
      end
  | Critical op PushClosed, Go => if closed_ q then Some (took op (Returned closed)) else None
  | Critical op PushBack, Go => Some (took op (Returned success))
  | Critical op PushBack, Throw _ | Critical op PopFront, Throw _ => Some (took op Threw)
  | Critical op PopClosed, Go =>
      if closed_ q then Some (took op (Returned closed))
      else match op with sq_wait_pop => None | _ => Some (took op (Returned empty)) end
  | Critical op (PopDrop v), Go => Some (took op (Popped v))
  | Critical op CloseSet, Go => Some (took op Done)
  | Critical op ReadClosed, Go => Some (took op (Flag (closed_ q)))
  | Critical op ReadEmpty, Go =>
      Some (took op (Flag (match queue_ q with [] => true | _ => false end)))
  | _, _ => None
  end.

Definition entry_of (s : state) (l : nat * choice V) : list (nat * entry) :=
  match pcs s !! l.1 with
  | Some p => (fun e => (l.1, e)) <$> option_list (entry_at l.1 (shared s) p l.2)
  | None => []
  end.

(** The runs the laws of the lock cover, with their logs. *)
Inductive sq_traced : list (nat * entry) -> state -> Prop :=
| sq_traced_start s : sq_start s -> sq_covered s = true -> sq_traced [] s
| sq_traced_step es s l s' :
    sq_traced es s -> exec s l = Some s' -> sq_covered s' = true ->
    sq_traced (es ++ entry_of s l) s'.

(** A sequence of effects the sequential queue can have. *)
Inductive accepts : list (nat * entry) -> bool * list V -> Prop :=
| accepts_nil : accepts [] (false, [])
| accepts_called es q u op : accepts es q -> accepts (es ++ [(u, called op)]) q
| accepts_took es q u op r q' :
    accepts es q -> spec_step q op r q' -> accepts (es ++ [(u, took op r)]) q'.

Definition calls_by (u : nat) (es : list (nat * entry)) : list operation :=
  omap (fun x => match x.2 with called op => if decide (x.1 = u) then Some op else None
                              | _ => None end) es.
Definition takes_by (u : nat) (es : list (nat * entry)) : list (operation * outcome V) :=
  omap (fun x => match x.2 with took op r => if decide (x.1 = u) then Some (op, r) else None
                              | _ => None end) es.

(** The operation a thread has called and that has not taken effect, and the
    result of one that has. *)
Definition pending (p : pc V) : option operation :=
  match p with
  | Acquire op _ => Some op
  | Critical _ PushNotify | Critical _ CloseNotify => None
  | Critical op _ => Some op
  | CondRelease _ | CondBlocked | CondReacquire _ => Some sq_wait_pop
  | Idle _ | Release _ _ => None
  end.

Definition outcome_of (p : pc V) : option (outcome V) :=
  match p with
  | Idle o => o
  | Release r _ => Some r
  | Critical _ PushNotify => Some (Returned success)
  | Critical _ CloseNotify => Some Done
  | _ => None
  end.

Definition sq_content (q : queue V) : bool * list V := (closed_ q, queue_ q).

(** One step: a call, an effect, or neither. *)
Lemma entry_step u q p c q' p' :
  sq_step u q p c = Some (q', p') -> (forall op k, p = Critical op k -> crit_ok q op k) ->
  match entry_at u q p c with
  | Some (called op) => sq_content q' = sq_content q /\ pending p = None /\ pending p' = Some op /\
      outcome_of p' = None
  | Some (took op r) => spec_step (sq_content q) op r (sq_content q') /\ pending p = Some op /\
      pending p' = None /\ outcome_of p' = Some r
  | None => sq_content q' = sq_content q /\ pending p' = pending p /\ outcome_of p' = outcome_of p
  end.
Proof.
  intros Hs Hok. unfold sq_content, spec_step.
  destruct p as [o|op r|op k|o r|r| |r]; simpl in Hs.
  - destruct c; try done. simpl. by simplify_option_eq.
  - destruct c; try done. simpl in *. destruct (lock_step u (lock_ q) r c) as [[l [r'|b]]|]; [..|done];
      injection Hs as <- <-; destruct op, b || destruct op; simpl; auto 7.
  - destruct (Hok op k eq_refl) as [Ho Hk]. destruct q as [cl l w vs].
    destruct k, c; try done; destruct op; try done; simpl in *; unfold leave in *;
      destruct_and?; subst; repeat case_match; simplify_option_eq; rewrite ?drop_0; auto 7;
      (split; [right; left; by eauto 7|done]).
  - destruct c; try done. simpl in *. by destruct (lock_step u (lock_ q) r c) as [[l []]|]; simplify_option_eq.
  - destruct c; try done. simpl in *. by destruct (lock_step u (lock_ q) r c) as [[l []]|]; simplify_option_eq.
  - destruct c; try done; simpl; [case_decide; [done|]|]; by simplify_option_eq.
  - destruct c; try done. simpl in *. by destruct (lock_step u (lock_ q) r c) as [[l []]|]; simplify_option_eq.
Qed.

(** ** The runs keep the invariant *)

Definition sq_reached : state -> Prop :=
  reachable_in exec sq_start (fun s => sq_covered s = true).

Lemma sq_traced_reached es s : sq_traced es s -> sq_reached s.
Proof. induction 1; [by apply reach_init|by eapply reach_step]. Qed.

Lemma sq_inv_start (s : state) : sq_start s -> sq_inv s.
Proof.
  intros [n ->]. split; simpl; try done.
  - apply user_ok_start; [done|]. by intros u p [-> _]%lookup_replicate.
  - by intros u op k [? _]%lookup_replicate.
  - by intros u Hu%not_elem_of_nil.
Qed.

Lemma sq_inv_reached s : sq_reached s -> sq_inv s.
Proof. apply invariant_in_reachable. split; eauto using sq_inv_start, sq_inv_step. Qed.

Lemma calls_by_app u es es' : calls_by u (es ++ es') = calls_by u es ++ calls_by u es'.
Proof. apply omap_app. Qed.

Lemma takes_by_app u es es' : takes_by u (es ++ es') = takes_by u es ++ takes_by u es'.
Proof. apply omap_app. Qed.

(** The log of a thread: every call took effect, but for the pending one. *)
Definition log_ok (es : list (nat * entry)) (u : nat) (p : pc V) : Prop :=
  calls_by u es = (takes_by u es).*1 ++ option_list (pending p) /\
  forall r, outcome_of p = Some r -> exists op, last (takes_by u es) = Some (op, r).

Lemma log_ok_other es u v e p : u <> v -> log_ok es v p -> log_ok (es ++ [(u, e)]) v p.
Proof.
  intros Hne H. unfold log_ok. rewrite calls_by_app, takes_by_app.
  destruct e; simpl; rewrite decide_False by done; by rewrite !app_nil_r.
Qed.

(** The log of a thread after its own step. *)
Lemma log_ok_self es u q p c q' p' :
  log_ok es u p -> sq_step u q p c = Some (q', p') ->
  (forall op k, p = Critical op k -> crit_ok q op k) ->
  log_ok (es ++ ((fun e => (u, e)) <$> option_list (entry_at u q p c))) u p'.
Proof.
  intros [Hc Hr] Hs Hok. pose proof (entry_step _ _ _ _ _ _ Hs Hok) as Hen.
  destruct (entry_at u q p c) as [[op|op r]|]; simpl; unfold log_ok;
    rewrite ?app_nil_r, ?calls_by_app, ?takes_by_app; simpl; rewrite ?decide_True by done.
  - destruct Hen as (_ & E & -> & ->). rewrite E in Hc. rewrite Hc, !app_nil_r. by split.
  - destruct Hen as (_ & E & -> & ->). rewrite E in Hc. rewrite app_nil_r, fmap_app, Hc. simpl.
    split; [by rewrite app_nil_r|]. intros r' [= <-]. exists op. apply last_snoc.
  - destruct Hen as (_ & -> & ->). by split.
Qed.

Lemma accepts_step es u q p c q' p' :
  accepts es (sq_content q) -> sq_step u q p c = Some (q', p') ->
  (forall op k, p = Critical op k -> crit_ok q op k) ->
  accepts (es ++ ((fun e => (u, e)) <$> option_list (entry_at u q p c))) (sq_content q').
Proof.
  intros Ha Hs Hok. pose proof (entry_step _ _ _ _ _ _ Hs Hok) as Hen.
  destruct (entry_at u q p c) as [[op|op r]|]; simpl.
  - destruct Hen as [-> _]. by apply accepts_called.
  - destruct Hen as [Hsp _]. by eapply accepts_took.
  - destruct Hen as [-> _]. by rewrite app_nil_r.
Qed.

Lemma sq_log es s :
  sq_traced es s -> accepts es (sq_content (shared s)) /\ forall u p, pcs s !! u = Some p -> log_ok es u p.
Proof.
  induction 1 as [s [n ->] Hw|es s [u c] s' Htr [IHa IHl] He Hw].
  - split; [constructor|]. intros u p [-> _]%lookup_replicate. by split.
  - pose proof (sq_inv_reached _ (sq_traced_reached _ _ Htr)) as Hinv.
    destruct s as [q ps]. pool_step He. unfold entry_of. cbn [shared pcs fst snd] in *. rewrite Hp.
    assert (forall op k, p = Critical op k -> crit_ok q op k) as Hok
      by (intros op k ->; by apply (si_crit _ Hinv u)).
    split; [by eapply accepts_step|]. intros v pv [(-> & -> & _)|[Hne Hv]]%insert_lookup_cases.
    + by eapply log_ok_self; [apply IHl| |].
    + destruct (entry_at u q p c) as [e|]; simpl; [|rewrite app_nil_r; by apply IHl].
      by apply log_ok_other; [|apply IHl].
Qed.

(** If every thread is idle or waits for an item, then no item is left, but for
    those of pops that threw, and the queue is open. *)
Lemma sq_quiescent s :
  sq_reached s -> cond_ (shared s) <> [] ->
  (forall u p, pcs s !! u = Some p -> (exists o, p = Idle o) \/ (p = CondBlocked /\ u ∈ cond_ (shared s))) ->
  (length (queue_ (shared s)) <= g_throws (shared s))%nat /\ closed_ (shared s) = false.
Proof.
  intros H Hne Hall. pose proof (sq_inv_reached _ H) as Hinv. split.
  - pose proof (si_claims _ Hinv Hne) as Hcl. apply Nat.nlt_ge. intros Hlt.
    destruct (total_pos (claim (cond_ (shared s))) 0 (pcs s)) as (u & p & Hp & Hg).
    + intros. apply claim_nonneg.
    + lia.
    + destruct (Hall u p Hp) as [[o ->]|[-> Hu]]; simpl in Hg; [lia|].
      rewrite decide_True in Hg by done. lia.
  - destruct (closed_ (shared s)) eqn:E; [|done].
    destruct (si_closed _ Hinv E Hne) as [u Hu]. by destruct (Hall u _ Hu) as [[o [=]]|[[=] _]].
Qed.

(** The log of a schedule. *)
Fixpoint sq_trace (s : state) (ls : list (nat * choice V)) : option (list (nat * entry) * state) :=
  if sq_covered s then
    match ls with
    | [] => Some ([], s)
    | l :: ls => s' ← exec s l; x ← sq_trace s' ls; Some (entry_of s l ++ x.1, x.2)
    end
  else None.

Lemma sq_trace_from es s ls es' s' :
  sq_traced es s -> sq_trace s ls = Some (es', s') -> sq_traced (es ++ es') s'.
Proof.
  revert es s es'. induction ls as [|l ls IH]; intros es s es' Ht H; simpl in H;
    destruct (sq_covered s); try done.
  - injection H as <- <-. by rewrite app_nil_r.
  - destruct (exec s l) as [s1|] eqn:He; [|done]. simpl in H.
    destruct (sq_trace s1 ls) as [[es1 s2]|] eqn:Hs; [|done]. simpl in H. injection H as <- <-.
    rewrite app_assoc. eapply IH; [|done]. eapply sq_traced_step; [done..|].
    destruct ls; simpl in Hs; by destruct (sq_covered s1).
Qed.

Lemma sq_trace_traced s ls es s' : sq_start s -> sq_trace s ls = Some (es, s') -> sq_traced es s'.
Proof.
  intros Hs Ht. apply (sq_trace_from [] s ls es s'); [|done]. constructor; [done|].
  destruct ls; simpl in Ht; by destruct (sq_covered s).
Qed.

(** ** Theorems *)

(** C3. A run of the queue over any lock that keeps the laws behaves like a
    sequential queue: in the order in which the operations take effect, their
    results are those of the sequential queue [spec_apply], or exceptions of the
    values with the effect of [spec_throw]; its flag and items
    are the members of the object; every thread's calls take effect in the
    order of the calls, each between its call and its return and none twice;
    and what a call returns is the result with which it took effect. *)
Theorem sq_linearizable es s :
  sq_traced es s ->
  accepts es (closed_ (shared s), queue_ (shared s)) /\
  forall u p, pcs s !! u = Some p ->
    calls_by u es = (takes_by u es).*1 ++ option_list (pending p) /\
    forall r, p = Idle (Some r) -> exists op, last (takes_by u es) = Some (op, r).
Proof.
  intros [Ha Hl]%sq_log. split; [done|]. intros u p Hp. destruct (Hl u p Hp) as [Hc Hr].
  split; [done|]. intros r ->. by apply Hr.
Qed.

(** The members are only used under the lock: while a thread is between its
    lock and its unlock no other thread is, and a step of another thread leaves
    the flag and the items alone and at most takes that thread itself out of the
    waiters (a spurious wake-up). *)
Theorem sq_exclusive s u op k v c s' :
  sq_reached s -> pcs s !! u = Some (Critical op k) -> v <> u ->
  sq_exec s (v, c) = Some s' ->
  (forall op' k', pcs s !! v <> Some (Critical op' k')) /\
  closed_ (shared s') = closed_ (shared s) /\ queue_ (shared s') = queue_ (shared s) /\
  (cond_ (shared s') = cond_ (shared s) \/ cond_ (shared s') = without [v] (cond_ (shared s))).
Proof.
  intros H%sq_inv_reached Hu Hne He. pose proof (si_lock _ H) as Hl.
  assert (forall op' k', pcs s !! v <> Some (Critical op' k')) as Hv.
  { intros op' k' Hv. apply Hne. by eapply critical_once. }
  split; [done|]. destruct s as [q ps]. pool_step He. cbn [shared pcs] in *.
  assert (forall op' k', p <> Critical op' k') as Hn by (intros op' k' ->; by eapply Hv).
  destruct (is_spurious c) as [->|Hc].
  - destruct p; try done; [by destruct (Hn op0 c)|]. simpl in Ht. simplify_option_eq. auto.
  - destruct (outside_quiet _ _ _ _ _ _ Ht Hn Hc) as (? & ? & ? & _). auto.
Qed.

(** C18. No wake-up is lost.  While threads wait on the condition variable, every
    item has a thread of its own on the way to take it or to wake somebody that
    will, but for one item for each pop that was left by an exception of the
    value; once the queue is closed, threads still wait only if the closing
    thread is about to wake them all.  So when every thread is idle or waits,
    and no pop has thrown, no item is left and the queue is open. *)
Theorem sq_no_lost_wakeup s :
  sq_reached s -> cond_ (shared s) <> [] ->
  Z.of_nat (length (queue_ (shared s)))
  <= total (claim (cond_ (shared s))) 0 (pcs s) + Z.of_nat (g_throws (shared s)) /\
  (closed_ (shared s) = true -> exists u, pcs s !! u = Some (Critical sq_close CloseNotify)) /\
  ((forall u p, pcs s !! u = Some p ->
      (exists o, p = Idle o) \/ (p = CondBlocked /\ u ∈ cond_ (shared s))) ->
   (length (queue_ (shared s)) <= g_throws (shared s))%nat /\ closed_ (shared s) = false).
Proof.
  intros H Hne. pose proof (sq_inv_reached _ H) as Hinv. split_and!; [by apply si_claims| |].
  - intros Hc. by apply si_closed.
  - by apply sq_quiescent.
Qed.

End linearizable.
