(* ===== verification/SqExamples.v ===== *)
(** * A run of the lock-based queue

    Two threads use a queue over a spin_lock: thread 0 waits for an item, and
    thread 1 pushes one and closes the queue. *)

From stdpp Require Import prelude functions.
From S2P Require Import Prelude Futex Conqueue Lock Spinlock SynchQueue.
Local Open Scope Z_scope.

Local Abbreviation state := (pool (queue Z (L := spin_lock)) (pc Z (L := spin_lock))).
Local Abbreviation choice := (choice Z (L := spin_lock)).

Definition sq_two : state := Pool synch_queue_init [Idle None; Idle None].

Lemma sq_two_start : sq_start sq_two.
Proof. by exists 2%nat. Qed.

Definition tick (u : nat) : nat * choice := (u, InLock (L := spin_lock) tt).

(** Thread 0 calls wait_pop and waits. *)
Definition sq_waits : list (nat * choice) :=
  [(0%nat, Call sq_wait_pop); tick 0; (0%nat, Go); (0%nat, Go); (0%nat, Go); tick 0].

(** Thread 1 pushes 7, up to the notification. *)
Definition sq_pushes : list (nat * choice) :=
  sq_waits ++ [(1%nat, Call (sq_push 7)); tick 1; (1%nat, Go); (1%nat, Go)].

(** Thread 0 is woken and takes the item, thread 1 closes the queue. *)
Definition sq_all : list (nat * choice) :=
  sq_pushes ++ [(1%nat, Notify [0%nat]); tick 1; (0%nat, Go); tick 0; (0%nat, Go); (0%nat, Go);
    (0%nat, Go); tick 0; (1%nat, Call sq_close); tick 1; (1%nat, Go); (1%nat, Go); tick 1].

Definition sq_log_all : list (nat * entry (V := Z)) :=
  [(0%nat, called sq_wait_pop); (1%nat, called (sq_push 7)); (1%nat, took (sq_push 7) (Returned success));
   (0%nat, took sq_wait_pop (Popped 7)); (1%nat, called sq_close); (1%nat, took sq_close Done)].

Definition sq_end : state :=
  Pool (Queue (L := spin_lock) true false [] [] 0) [Idle (Some (Popped 7)); Idle (Some Done)].

Definition sq_notifying : state :=
  Pool (Queue (L := spin_lock) false true [0%nat] [7] 0) [CondBlocked; Critical (sq_push 7) PushNotify].

Lemma sq_all_traced : sq_traced sq_log_all sq_end.
Proof. apply (sq_trace_traced sq_two sq_all); [apply sq_two_start|lazy; reflexivity]. Qed.

Lemma sq_notifying_reached : sq_reached sq_notifying.
Proof.
  eapply sq_traced_reached. apply (sq_trace_traced sq_two sq_pushes); [apply sq_two_start|lazy; reflexivity].
Qed.

(** The item that was pushed is what the waiting thread returns. *)
Lemma sq_linearizable_witness :
  sq_traced sq_log_all sq_end /\
  calls_by 0 sq_log_all = [sq_wait_pop] /\ takes_by 0 sq_log_all = [(sq_wait_pop, Popped 7)] /\
  exists op, last (takes_by 0 sq_log_all) = Some (op, Popped 7).
Proof.
  split; [exact sq_all_traced|]. split; [reflexivity|]. split; [reflexivity|].
  destruct (sq_linearizable sq_log_all sq_end sq_all_traced) as [_ H].
  apply (H 0%nat (Idle (Some (Popped 7)))); reflexivity.
Defined.

(** Thread 1 is in its critical section, and thread 0 leaves the wait. *)
Definition sq_woken : state :=
  Pool (Queue (L := spin_lock) false true [] [7] 0)
    [CondReacquire (L := spin_lock) SpinLock.LockTestAndSet; Critical (sq_push 7) PushNotify].

Lemma sq_exclusive_witness :
  sq_exec sq_notifying (0%nat, Spurious) = Some sq_woken /\
  queue_ (shared sq_woken) = queue_ (shared sq_notifying).
Proof.
  assert (sq_exec sq_notifying (0%nat, Spurious) = Some sq_woken) as He by (lazy; reflexivity).
  split; [exact He|].
  apply (sq_exclusive sq_notifying 1 (sq_push 7) PushNotify 0 Spurious sq_woken
           sq_notifying_reached eq_refl (Nat.neq_0_succ 0) He).
Defined.

(** One item, one waiter, and the thread that is about to notify. *)
Lemma sq_no_lost_wakeup_witness :
  cond_ (shared sq_notifying) = [0%nat] /\ queue_ (shared sq_notifying) = [7] /\
  1 <= total (claim (cond_ (shared sq_notifying))) 0 (pcs sq_notifying) + 0.
Proof.
  split; [reflexivity|]. split; [reflexivity|].
  apply (sq_no_lost_wakeup sq_notifying sq_notifying_reached). discriminate.
Defined.

(** ** A pop that throws

    Threads 0 and 1 wait; thread 2 pushes an item and wakes thread 0, whose move
    out of the queue throws.  The item stays, but nobody wakes thread 1 for it:
    all threads are idle or asleep although the queue is not empty. *)

Definition waits_by (u : nat) : list (nat * choice) :=
  [(u, Call sq_wait_pop); tick u; (u, Go); (u, Go); (u, Go); tick u].

Definition sq_throws : list (nat * choice) :=
  waits_by 0 ++ waits_by 1 ++
  [(2%nat, Call (sq_push 7)); tick 2; (2%nat, Go); (2%nat, Go); (2%nat, Notify [0%nat]); tick 2;
   (0%nat, Go); tick 0; (0%nat, Go); (0%nat, Throw 8); tick 0].

Lemma throwing_pop_strands_item :
  run sq_exec (Pool synch_queue_init [Idle None; Idle None; Idle None]) sq_throws
  = Some (Pool (Queue (L := spin_lock) false false [1%nat] [8] 1)
            [Idle (Some Threw); CondBlocked; Idle (Some (Returned success))]).
Proof. lazy. reflexivity. Qed.
