(* ===== verification/FutexQueue.v ===== *)
(** * The lock-based queue in its default configuration (evenk/synch_queue.h
    with futex_synch of evenk/synch.h)

    synch_queue over the classes futex_synch names: the futex_lock, held by a
    lock_guard, and the futex_cond_var.  The lock and the condition variable are
    those of [CondVar], step by step down to the system calls; the accesses to
    the members inside the critical sections are those of [SynchQueue]. *)

From stdpp Require Import prelude functions.
From S2P Require Import Prelude Futex Conqueue Lock FutexLock CondVar SynchQueue.
Local Open Scope Z_scope.

(** ** A mutex with its documented behaviour

    The lock the queue of [SynchQueue] is taken with as a specification: lock
    waits until nobody holds the mutex, and takes it in one step. *)

Module Mutex.
Inductive pc : Type := Lock | TryLock | Unlock.

Definition enter (op : lock_op) : option pc :=
  match op with
  | op_lock => Some Lock
  | op_try_lock => Some TryLock
  | op_unlock => Some Unlock
  | _ => None
  end.

Definition step (u : nat) (s : option nat) (p : pc) (_ : unit) : option (option nat * (pc + bool)) :=
  match p, s with
  | (Lock | TryLock), None => Some (Some u, inr true)
  | Lock, Some _ => None
  | TryLock, Some _ => Some (s, inr false)
  | Unlock, _ => Some (None, inr true)
  end.
End Mutex.

Definition mutex : Lock := {|
  lock_state := option nat; lock_init := None; lock_pc := Mutex.pc; lock_choice := unit;
  lock_enter := Mutex.enter; lock_step := Mutex.step |}.

(** The threads that hold the mutex. *)
Definition mutex_has (x : standing mutex) : bool :=
  match x with l_in | l_busy op_unlock _ => true | _ => false end.

Definition mutex_good (x : standing mutex) : bool :=
  match x with
  | l_out | l_in | l_busy op_lock Mutex.Lock | l_busy op_try_lock Mutex.TryLock
  | l_busy op_unlock Mutex.Unlock => true
  | _ => false
  end.

Definition mutex_inv (s : option nat) (f : nat -> standing mutex) : Prop :=
  forall u, (s = Some u <-> mutex_has (f u) = true) /\ mutex_good (f u) = true.

Lemma mutex_inv_call s f u op p :
  mutex_inv s f -> callable (f u) op = true -> Mutex.enter op = Some p ->
  mutex_inv s (<[u := l_busy (L := mutex) op p]> f).
Proof.
  intros H Hc He v. fn_split; [|apply H]. destruct (H u) as [Hu _].
  destruct op; simpl in He; simplify_eq; (split; [|done]); rewrite Hu; by destruct (f u).
Qed.

Lemma mutex_inv_step s f u op p c s' r :
  mutex_inv s f -> f u = l_busy (L := mutex) op p -> Mutex.step u s p c = Some (s', r) ->
  mutex_inv s' (<[u := resumed (L := mutex) op r]> f).
Proof.
  intros H Hu Hs v. destruct (H u) as [Hs1 Hg], (H v) as [Hs2 Hgv]. rewrite Hu in Hs1, Hg.
  destruct op, p; try done; destruct s as [w|]; simpl in Hs; simplify_eq; fn_split; simpl in *;
    split; try done; intuition congruence.
Qed.

#[export] Instance mutex_laws : LockLaws mutex.
Proof.
  refine (Build_LockLaws mutex (fun _ _ => true) (fun _ _ => true) mutex_inv _ _ _ _).
  - by intros u.
  - intros s f u op p H Hc _ He. by apply mutex_inv_call.
  - intros s f u op p c s' r H Hu _ Hs. by eapply mutex_inv_step.
  - intros s f u v H Hu Hv. destruct (H u) as [[_ H1] _], (H v) as [[_ H2] Hg].
    rewrite Hu in H1. destruct Hv as [Hv|Hv]; rewrite Hv in H2, Hg; [|done].
    specialize (H1 eq_refl). specialize (H2 eq_refl). congruence.
Defined.

(** ** The queue *)

Module FutexQueue.
Section futex_queue.
Context {V : Type}.

Record state : Type := State {
  closed_ : bool;
  cond_ : CondVar.state;       (* [cond_], with [lock_] *)
  queue_ : list V;
  g_throws : nat;              (* history, as in [SynchQueue] *)
}.

Inductive pc : Type :=
| Idle (o : option (outcome V))
| Acquire (op : operation (V := V)) (p : FutexLock.pc)
| Critical (op : operation (V := V)) (k : crit (V := V))
| Notifying (op : operation (V := V)) (p : CondVar.pc)   (* in notify_one or notify_all *)
| Waiting (p : CondVar.pc)                               (* in wait *)
| Release (r : outcome V) (p : FutexLock.pc).

Inductive choice : Type :=
| Call (op : operation (V := V))
| Go
| Throw (junk : V)
| InLock (c : FutexLock.choice)
| InCond (c : CondVar.choice).

Definition init : state := State false CondVar.init [] 0.

Definition set_cond (s : state) (c : CondVar.state) : state := State (closed_ s) c (queue_ s) (g_throws s).
Definition set_lock (s : state) (l : FutexLock.state) : state := set_cond s (CondVar.set_lock (cond_ s) l).

(** The members the critical sections access, as [SynchQueue] has them. *)
Definition members (s : state) : queue V (L := mutex) := Queue (L := mutex) (closed_ s) None [] (queue_ s) (g_throws s).
Definition set_members (s : state) (q : queue V (L := mutex)) : state :=
  State (SynchQueue.closed_ q) (cond_ s) (SynchQueue.queue_ q) (SynchQueue.g_throws q).

Definition member_choice (c : choice) : option (SynchQueue.choice V (L := mutex)) :=
  match c with
  | Go => Some SynchQueue.Go
  | Throw junk => Some (SynchQueue.Throw junk)
  | _ => None
  end.

(** Where a step of a critical section leads: on, or to the unlock. *)
Definition resume (p : SynchQueue.pc V (L := mutex)) : option pc :=
  match p with
  | SynchQueue.Critical op k => Some (Critical op k)
  | SynchQueue.Release r _ => x ← FutexLock.enter op_unlock; Some (Release r x)
  | _ => None
  end.

(** What the operation returns after its notification. *)
Definition notified (op : operation (V := V)) : outcome V :=
  match op with sq_close => Done | _ => Returned success end.

(** Where the guard's constructor leads. *)
Definition acquired (op : operation (V := V)) (b : bool) : pc :=
  match acquire_op op, b with
  | op_try_lock, false => Idle (Some (Returned busy))
  | _, _ => Critical op (critical_start op)
  end.

(** Where a step of wait leads: on in wait, or back to locked_pop. *)
Definition waited (p : CondVar.pc) : pc :=
  match p with CondVar.Client _ => Critical sq_wait_pop PopEmpty | p => Waiting p end.

Definition lock_call (u : nat) (s : state) (p : FutexLock.pc) (c : choice)
    (again : FutexLock.pc -> pc) (k : bool -> pc) : option (state * pc) :=
  match c with
  | InLock c =>
      x ← FutexLock.step u (CondVar.lock (cond_ s)) p c;
      Some (set_lock s x.1, match x.2 with inl p' => again p' | inr b => k b end)
  | _ => None
  end.

Definition critical_step (u : nat) (s : state) (op : operation) (k : crit) (c : choice) :
    option (state * pc) :=
  match k, c with
  | PushNotify, Go => Some (s, Notifying op (CondVar.NotifyAdd false l_in))
  | CloseNotify, Go => Some (s, Notifying op (CondVar.NotifyAdd true l_in))
  | CondWait, Go => Some (s, Waiting CondVar.WaitOwner)
  | _, _ =>
      c ← member_choice c;
      x ← SynchQueue.critical_step u (members s) op k c;
      p ← resume x.2;
      Some (set_members s x.1, p)
  end.

Definition step (u : nat) (s : state) (p : pc) (c : choice) : option (state * pc) :=
  match p with
  | Idle _ =>
      match c with
      | Call op => p ← FutexLock.enter (acquire_op op); Some (s, Acquire op p)
      | _ => None
      end
  | Acquire op p =>
      lock_call u s p c (Acquire op) (acquired op)
  | Critical op k => critical_step u s op k c
  | Notifying op p =>
      match p, c with
      | CondVar.Client _, Go => x ← FutexLock.enter op_unlock; Some (s, Release (notified op) x)
      | _, InCond c => x ← CondVar.notify_step (cond_ s) p c; Some (set_cond s x.1, Notifying op x.2)
      | _, _ => None
      end
  | Waiting p =>
      match c with
      | InCond c =>
          x ← CondVar.wait_step u (cond_ s) p c;
          Some (set_cond s x.1, waited x.2)
      | _ => None
      end
  | Release r p => lock_call u s p c (Release r) (fun _ => Idle (Some r))
  end.

Definition exec : pool state pc -> nat * choice -> option (pool state pc) := pool_exec step.

Definition start (s : pool state pc) : Prop := exists n, s = Pool init (replicate n (Idle None)).

(** What a step shows, as in [SynchQueue]. *)
Definition entry_at (u : nat) (s : state) (p : pc) (c : choice) : option (entry (V := V)) :=
  match p, c with
  | Idle _, Call op => Some (called op)
  | Acquire op p, InLock c =>
      match acquire_op op, FutexLock.step u (CondVar.lock (cond_ s)) p c with
      | op_try_lock, Some (_, inr false) => Some (took op (Returned busy))
      | _, _ => None
      end
  | Critical op k, c =>
      c ← member_choice c; SynchQueue.entry_at u (members s) (SynchQueue.Critical op k) c
  | _, _ => None
  end.

Definition entry_of (s : pool state pc) (l : nat * choice) : list (nat * entry (V := V)) :=
  match pcs s !! l.1 with
  | Some p => (fun e => (l.1, e)) <$> option_list (entry_at l.1 (shared s) p l.2)
  | None => []
  end.

(** How far a thread between its read of [futex_] and its system call may lag
    behind the notifications, and how many threads there may be. *)
Definition window (s : pool state pc) : bool :=
  (Z.of_nat (length (pcs s)) <=? CondVar.int_max) &&
  forallb (fun p => match p with
                    | Waiting (CondVar.WaitUnlock _ g _) | Waiting (CondVar.WaitEnter _ g) =>
                        CondVar.g_futex (cond_ (shared s)) - g <? 2 ^ 32
                    | _ => true
                    end) (pcs s).

(** The runs within the window, with their logs. *)
Inductive traced : list (nat * entry (V := V)) -> pool state pc -> Prop :=
| traced_start s : start s -> window s = true -> traced [] s
| traced_step es s l s' :
    traced es s -> exec s l = Some s' -> window s' = true -> traced (es ++ entry_of s l) s'.
End futex_queue.

Arguments state V : clear implicits.
Arguments pc V : clear implicits.
Arguments choice V : clear implicits.
End FutexQueue.
