(* ===== verification/FqRefine.v ===== *)
(** * The default configuration of the lock-based queue refines the documented one

    Every run of [FutexQueue] is a run of [SynchQueue] over a mutex and a
    condition variable with their documented behaviour, with the same log.  A
    thread counts as waiting from its read of [futex_] on, for as long as the
    system call would let it sleep, or does; a notification makes the threads
    that have not fallen asleep yet leave without reason, and wakes sleepers
    when it calls the kernel. *)

From stdpp Require Import prelude functions.
From S2P Require Import Prelude Futex Conqueue Lock FutexLock CondVar SynchQueue FutexQueue.
Local Open Scope Z_scope.

(** ** The condition variable under the queue *)

Section projection.
Import FutexQueue.
Context {V : Type}.

Local Abbreviation fstate := (pool (FutexQueue.state V) (FutexQueue.pc V)).
Local Abbreviation busy := (l_busy (L := futex_lock)).

(** How a thread of the queue stands with the condition variable and its lock. *)
Definition cv_pc (p : FutexQueue.pc V) : CondVar.pc :=
  match p with
  | Idle _ => CondVar.Client l_out
  | Acquire op x => CondVar.Client (busy (acquire_op op) x)
  | Critical _ _ => CondVar.Client l_in
  | Notifying _ p | Waiting p => p
  | Release _ x => CondVar.Client (busy op_unlock x)
  end.

Definition cv (s : fstate) : pool CondVar.state CondVar.pc := Pool (cond_ (shared s)) (cv_pc <$> pcs s).

(** The points of a notification called under the lock; [all] for notify_all. *)
Definition notify_shape (all : bool) (p : CondVar.pc) : bool :=
  match p with
  | CondVar.NotifyAdd all' l_in | CondVar.NotifyLoad all' l_in => eqb all all'
  | CondVar.NotifyWake l_in => negb all
  | CondVar.NotifyOwner l_in | CondVar.NotifyRequeue l_in => all
  | CondVar.Client l_in => true
  | _ => false
  end.

Definition is_close (op : operation (V := V)) : bool := match op with sq_close => true | _ => false end.

Definition shaped (p : FutexQueue.pc V) : bool :=
  match p with
  | Notifying op p => notify_shape (is_close op) p
  | Waiting (CondVar.Client _) => false
  | _ => true
  end.

(** A step inside a critical section stays there or leads to the unlock. *)
Lemma resume_cv q p :
  resume q = Some p ->
  (exists op k, q = SynchQueue.Critical op k /\ p = FutexQueue.Critical op k) \/
  (exists r x, q = SynchQueue.Release r x /\ p = FutexQueue.Release (V := V) r FutexLock.UnlockSub).
Proof. destruct q; simpl; intros [= <-]; eauto. Qed.

(** The steps of a critical section: a call on the condition variable, or an
    access to the members. *)
Lemma critical_cases u (s : FutexQueue.state V) op k c s' p' :
  FutexQueue.critical_step u s op k c = Some (s', p') ->
  (s' = s /\ c = Go /\
     ((k = PushNotify /\ p' = Notifying op (CondVar.NotifyAdd false l_in)) \/
      (k = CloseNotify /\ p' = Notifying op (CondVar.NotifyAdd true l_in)) \/
      (k = CondWait /\ p' = Waiting CondVar.WaitOwner))) \/
  (exists c' q p, member_choice c = Some c' /\ resume p = Some p' /\ s' = set_members s q /\
     SynchQueue.critical_step u (members s) op k c' = Some (q, p) /\
     k <> PushNotify /\ k <> CloseNotify /\ k <> CondWait).
Proof.
  intros H.
  assert (forall k', k = k' ->
    (c' ← member_choice c; x ← SynchQueue.critical_step u (members s) op k' c'; p ← resume x.2;
     Some (set_members s x.1, p)) = Some (s', p') ->
    exists c' q p, member_choice c = Some c' /\ resume p = Some p' /\ s' = set_members s q /\
      SynchQueue.critical_step u (members s) op k c' = Some (q, p)) as Hm.
  { intros k' -> Hk. destruct (member_choice c) as [c'|] eqn:Ec; [|done]. simpl in Hk.
    destruct (SynchQueue.critical_step u (members s) op k' c') as [[q p]|] eqn:E; [|done]. simpl in Hk.
    destruct (resume p) as [p2|] eqn:Er; [|done]. simpl in Hk. injection Hk as <- <-. eauto 8. }
  destruct k; simpl in H;
    try (right; destruct (Hm _ eq_refl H) as (c' & q & p & ? & ? & ? & ?); by exists c', q, p).
  all: destruct c; try done; injection H as <- <-; left; auto 7.
Qed.

Lemma notify_cases u (s : FutexQueue.state V) op p c s' p' :
  FutexQueue.step u s (Notifying op p) c = Some (s', p') ->
  (exists x, p = CondVar.Client x /\ c = Go /\ s' = s /\ p' = Release (notified op) FutexLock.UnlockSub) \/
  (exists c' k y, c = InCond c' /\ CondVar.notify_step (cond_ s) p c' = Some (k, y) /\
     s' = set_cond s k /\ p' = Notifying op y).
Proof.
  simpl. intros H. assert (forall c', (x ← CondVar.notify_step (cond_ s) p c'; Some (set_cond s x.1, Notifying op x.2))
    = Some (s', p') -> exists k y, CondVar.notify_step (cond_ s) p c' = Some (k, y) /\
      s' = set_cond s k /\ p' = Notifying op y) as Hn.
  { intros c' E. destruct (CondVar.notify_step (cond_ s) p c') as [[k y]|]; [|done].
    injection E as <- <-. eauto. }
  destruct c; try (by destruct p).
  - destruct p; try done. left. injection H as <- <-. eauto.
  - right. exists c. destruct (Hn c) as (k & y & ?); [by destruct p|]. by exists k, y.
Qed.

Lemma wait_cases u (s : FutexQueue.state V) p c s' p' :
  FutexQueue.step u s (Waiting p) c = Some (s', p') ->
  exists c' k y, c = InCond c' /\ CondVar.wait_step u (cond_ s) p c' = Some (k, y) /\
    s' = set_cond s k /\ p' = waited y.
Proof.
  simpl. destruct c; try done. destruct (CondVar.wait_step u (cond_ s) p c) as [[k y]|] eqn:E; [|done].
  intros [= <- <-]. by exists c, k, y.
Qed.

Lemma lock_cases u (s : FutexQueue.state V) p c again k s' p' :
  FutexQueue.lock_call u s p c again k = Some (s', p') ->
  exists c' l y, c = InLock c' /\ FutexLock.step u (CondVar.lock (cond_ s)) p c' = Some (l, y) /\
    s' = FutexQueue.set_lock s l /\ p' = match y with inl p' => again p' | inr b => k b end.
Proof.
  destruct c; try done. simpl. destruct (FutexLock.step u (CondVar.lock (cond_ s)) p c) as [[l y]|] eqn:E; [|done].
  intros [= <- <-]. by exists c, l, y.
Qed.

Lemma notify_step_step u s p c r : CondVar.notify_step s p c = Some r -> CondVar.step u s p c = Some r.
Proof. by destruct p. Qed.

Lemma wait_step_step u s p c r : CondVar.wait_step u s p c = Some r -> CondVar.step u s p c = Some r.
Proof. by destruct p. Qed.

(** wait returns with the lock. *)
Lemma wait_client u s p c s' x : CondVar.wait_step u s p c = Some (s', CondVar.Client x) -> x = l_in.
Proof.
  intros H. destruct p; simpl in H; try done; unfold CondVar.lock_go in H; destruct c; try done;
    repeat (case_match || case_decide); simplify_option_eq; repeat case_match; simplify_eq; done.
Qed.

Lemma set_lock_id (c : CondVar.state) : CondVar.set_lock c (CondVar.lock c) = c.
Proof. by destruct c. Qed.

Lemma unlock_call u (s : CondVar.state) :
  CondVar.step u s (CondVar.Client l_in) (CondVar.Lk (Lock.Call futex_lock op_unlock))
  = Some (s, CondVar.Client (busy op_unlock FutexLock.UnlockSub)).
Proof. simpl. by rewrite set_lock_id. Qed.

(** A step of the queue is a step of the condition variable, or none. *)
Lemma step_cv u (s : FutexQueue.state V) p c s' p' :
  FutexQueue.step u s p c = Some (s', p') -> shaped p = true ->
  (cond_ s' = cond_ s /\ cv_pc p' = cv_pc p) \/
  exists c', CondVar.step u (cond_ s) (cv_pc p) c' = Some (cond_ s', cv_pc p').
Proof.
  intros H Hs. destruct p as [o|op x|op k|op p|p|r x].
  - destruct c; try done. right. exists (CondVar.Lk (Lock.Call futex_lock (acquire_op op))).
    simpl. rewrite <- (set_lock_id (cond_ s')). destruct op; simpl in *; by simplify_eq.
  - apply lock_cases in H as (c' & l & y & -> & E & -> & ->).
    right. exists (CondVar.Lk (Lock.InLock futex_lock c')). simpl. rewrite E. simpl.
    destruct y as [y|[]]; [done|by destruct op..].
  - apply critical_cases in H as [(-> & _ & [[_ ->]|[[_ ->]|[_ ->]]])|(c' & q & p & _ & Hr & -> & _)].
    + right. by exists (CondVar.Notify false).
    + right. by exists (CondVar.Notify true).
    + right. by exists CondVar.Wait.
    + apply resume_cv in Hr as [(op' & k' & _ & ->)|(r & x & _ & ->)]; [by left|].
      right. eexists. apply unlock_call.
  - apply notify_cases in H as [(x & -> & _ & -> & ->)|(c' & k & y & _ & E & -> & ->)]; right.
    + simpl in Hs. destruct x; try done. eexists. apply unlock_call.
    + exists c'. by apply notify_step_step.
  - apply wait_cases in H as (c' & k & y & _ & E & -> & ->). right. exists c'.
    pose proof (wait_step_step _ _ _ _ _ E) as E'. destruct y; try done. by apply wait_client in E as ->.
  - apply lock_cases in H as (c' & l & y & -> & E & -> & ->).
    right. exists (CondVar.Lk (Lock.InLock futex_lock c')). simpl. rewrite E. by destruct y.
Qed.

Lemma shaped_step u (s : FutexQueue.state V) p c s' p' :
  FutexQueue.step u s p c = Some (s', p') -> shaped p = true ->
  (forall op k, p = Critical op k -> of_op op k = true) -> shaped p' = true.
Proof.
  intros H Hs Hop. destruct p as [o|op x|op k|op p|p|r x].
  - destruct c; try done. simpl in H. destruct op; simpl in *; by simplify_eq.
  - apply lock_cases in H as (c' & l & y & _ & _ & _ & ->). destruct y as [|[]]; [done|by destruct op..].
  - specialize (Hop _ _ eq_refl).
    apply critical_cases in H as [(-> & _ & [[-> ->]|[[-> ->]|[_ ->]]])|(c' & q & p & _ & Hr & -> & _)]; try done.
    + by destruct op.
    + by destruct op.
    + by apply resume_cv in Hr as [(op' & k' & _ & ->)|(r & x & _ & ->)].
  - apply notify_cases in H as [(x & -> & _ & -> & ->)|(c' & k & y & _ & E & -> & ->)]; [done|].
    simpl in *. destruct p as [| | | | | | | | | | | |all x|all x|x|x|x], c'; try done; destruct x; try done;
      simpl in E; break; repeat case_match; simplify_eq; by destruct (is_close op).
  - apply wait_cases in H as (c' & k & y & _ & E & -> & ->). by destruct y.
  - apply lock_cases in H as (c' & l & y & _ & _ & _ & ->). by destruct y.
Qed.
End projection.

(** ** The relation *)

Section relation.
Import FutexQueue.
Context {V : Type}.

Local Abbreviation fstate := (pool (FutexQueue.state V) (FutexQueue.pc V)).
Local Abbreviation astate := (pool (queue V (L := mutex)) (SynchQueue.pc V (L := mutex))).
Local Abbreviation busy := (l_busy (L := futex_lock)).

(** The points of unlock where the lock is still held. *)
Definition unreleased (x : FutexLock.pc) : bool := holding (busy op_unlock x).

Definition lock_point (op : operation (V := V)) : Mutex.pc :=
  match acquire_op op with op_try_lock => Mutex.TryLock | _ => Mutex.Lock end.

Definition notify_point (op : operation (V := V)) : crit (V := V) :=
  if is_close op then CloseNotify else PushNotify.

(** Where a thread of the queue is in the specification. *)
Definition pc_rel (p : FutexQueue.pc V) (q : SynchQueue.pc V (L := mutex)) : Prop :=
  match p with
  | Idle o => q = SynchQueue.Idle o
  | Acquire op _ => q = SynchQueue.Acquire (L := mutex) op (lock_point op)
  | Critical op k => q = SynchQueue.Critical op k
  | Notifying op (CondVar.Client _) => q = SynchQueue.Release (L := mutex) (notified op) Mutex.Unlock
  | Notifying op _ => q = SynchQueue.Critical op (notify_point op)
  | Release r x =>
      q = if unreleased x then SynchQueue.Release (L := mutex) r Mutex.Unlock else SynchQueue.Idle (Some r)
  | Waiting p =>
      match p with
      | CondVar.WaitOwner | CondVar.WaitOwner2 | CondVar.WaitStore | CondVar.WaitCount | CondVar.WaitLoad =>
          q = SynchQueue.Critical sq_wait_pop CondWait
      | CondVar.WaitUnlock _ _ x =>
          if unreleased x then q = CondRelease (L := mutex) Mutex.Unlock
          else q = CondBlocked \/ q = CondReacquire (L := mutex) Mutex.Lock
      | CondVar.WaitEnter _ _ | CondVar.WaitAsleep | CondVar.WaitUncount | CondVar.Relock _ =>
          q = CondBlocked \/ q = CondReacquire (L := mutex) Mutex.Lock
      | _ => False
      end
  end.

(** A thread between its read of [futex_] and its system call that the system
    call would let sleep. *)
Definition transit (s : FutexQueue.state V) (p : FutexQueue.pc V) : Prop :=
  match p with
  | Waiting (CondVar.WaitUnlock _ g _) | Waiting (CondVar.WaitEnter _ g) => g = CondVar.g_futex (cond_ s)
  | _ => False
  end.

Definition awaits (s : FutexQueue.state V) (v : nat) (p : FutexQueue.pc V) : Prop :=
  v ∈ CondVar.waiters (cond_ s) \/ transit s p.

(** A thread in a notification, after its update of [futex_]. *)
Definition past (p : FutexQueue.pc V) : bool :=
  match p with
  | Notifying _ (CondVar.NotifyLoad _ _ | CondVar.NotifyWake _ | CondVar.NotifyOwner _ | CondVar.NotifyRequeue _) => true
  | _ => false
  end.

Definition settled (s : FutexQueue.state V) (p : FutexQueue.pc V) : Prop :=
  match p with
  | Waiting (CondVar.WaitUnlock _ g x) => unreleased x = true -> g = CondVar.g_futex (cond_ s)
  | _ => True
  end.

Definition same_members (s : FutexQueue.state V) (q : queue V (L := mutex)) : Prop :=
  SynchQueue.closed_ q = closed_ s /\ SynchQueue.queue_ q = queue_ s /\ SynchQueue.g_throws q = g_throws s.

Record rel (c : fstate) (a : astate) : Prop := {
  r_members : same_members (shared c) (shared a);
  r_pc u p : pcs c !! u = Some p -> exists q, pcs a !! u = Some q /\ pc_rel p q;
  r_length : length (pcs c) = length (pcs a);
  r_shaped u p : pcs c !! u = Some p -> shaped p = true;
  r_nodup : NoDup (SynchQueue.cond_ (shared a));
  r_cond u p : pcs c !! u = Some p -> u ∈ SynchQueue.cond_ (shared a) <-> awaits (shared c) u p;
  r_quiet u v p p' : pcs c !! u = Some p -> past p = true -> pcs c !! v = Some p' -> ~ transit (shared c) p';
  r_settled u p : pcs c !! u = Some p -> settled (shared c) p;
}.

(** ** The specification's lock *)

Definition holds (p : FutexQueue.pc V) : bool := holding (CondVar.standing_at CondVar.init 0 (cv_pc p)).

Definition abs_holds (q : SynchQueue.pc V (L := mutex)) : bool := mutex_has (lock_standing q).

Lemma holding_standing s u p : holding (CondVar.standing_at s u p) = holding (CondVar.standing_at CondVar.init 0 p).
Proof. destruct p; try done. simpl. by repeat case_decide. Qed.

Lemma pc_rel_holds p q : pc_rel p q -> shaped p = true -> holds p = abs_holds q.
Proof.
  intros H Hs. destruct p as [o|op x|op k|op p|p|r x]; simpl in *.
  - by subst.
  - subst. by destruct op.
  - by subst.
  - by destruct p as [[]| | | | | | | | | | | |? []|? []|[]|[]|[]]; simpl in *; subst.
  - unfold holds, unreleased in *. destruct p as [| | | | | |? ? x| | | | | | | | | |]; simpl in *; try done; subst; try done;
      [|by destruct H; subst..].
    destruct x; simpl in *; subst; try done; by destruct H; subst.
  - unfold holds, unreleased in *. destruct x; by subst.
Qed.

Lemma abs_holder (a : astate) u :
  lock_ok a -> SynchQueue.lock_ (shared a) = Some u <-> exists q, pcs a !! u = Some q /\ abs_holds q = true.
Proof.
  intros (f & Hf & Hi). destruct (Hi u) as [Hu _].
  transitivity (mutex_has (f u) = true); [exact Hu|]. rewrite Hf. unfold user_stand.
  destruct (pcs a !! u) as [q|] eqn:E; simpl; (split; [|by intros (? & [= <-] & ?)]); [by exists q|done].
Qed.

Lemma holder c a u p :
  rel c a -> lock_ok a -> pcs c !! u = Some p -> holds p = true <-> SynchQueue.lock_ (shared a) = Some u.
Proof.
  intros H Hl Hp. rewrite (abs_holder a u Hl). destruct (r_pc _ _ H u p Hp) as (q & Hq & Hpq).
  rewrite (pc_rel_holds p q Hpq) by by eapply r_shaped. rewrite Hq.
  split; [by exists q|by intros (? & [= <-] & ?)].
Qed.

Lemma holder_once c a u v p p' :
  rel c a -> lock_ok a -> pcs c !! u = Some p -> pcs c !! v = Some p' ->
  holds p = true -> holds p' = true -> u = v.
Proof.
  intros H Hl Hp Hp' Hu Hv. apply (holder c a u p H Hl Hp) in Hu. apply (holder c a v p' H Hl Hp') in Hv.
  congruence.
Qed.

(** The word of the lock is 0 when nobody holds the specification's mutex. *)
Lemma word_free c a :
  rel c a -> lock_ok a -> cv_inv (cv c) ->
  FutexLock.word (CondVar.lock (cond_ (shared c))) = 0 <-> SynchQueue.lock_ (shared a) = None.
Proof.
  intros H Hl Hi. destruct (cv_lock _ Hi) as (f & Hf & Hinv). destruct (fi_flag _ _ Hinv) as [_ Hfl].
  simpl in Hfl. assert (forall u, holding (f u) = true <-> SynchQueue.lock_ (shared a) = Some u) as Hh.
  { intros u. rewrite Hf. unfold stand_of. simpl. rewrite list_lookup_fmap.
    destruct (pcs c !! u) as [p|] eqn:E; simpl.
    - rewrite holding_standing. by apply (holder c a).
    - split; [done|]. intros (q & Hq & _)%(abs_holder a u Hl).
      apply lookup_lt_Some in Hq. apply lookup_ge_None in E. pose proof (r_length _ _ H). lia. }
  destruct (Z.eqb_spec (FutexLock.word (CondVar.lock (cond_ (shared c)))) 0) as [->|Hw].
  - split; [|done]. intros _. destruct (SynchQueue.lock_ (shared a)) as [u|] eqn:E; [|done].
    simpl in Hfl. assert (false = true); [|done]. apply Hfl. exists u. by apply Hh.
  - split; [done|]. intros E. destruct (proj1 Hfl eq_refl) as [u Hu]. apply Hh in Hu. congruence.
Qed.

(** What a step of a method of the lock does: it goes on inside, takes the lock,
    finds it taken, releases it, or returns after a release. *)
Inductive lock_effect (w : Z) (op : lock_op) (x : FutexLock.pc) : FutexLock.pc + bool -> Prop :=
| le_stay x' : holding (busy op x') = holding (busy op x) -> lock_effect w op x (inl x')
| le_acquire : op <> op_unlock -> w = 0 -> lock_effect w op x (inr true)
| le_refuse : op = op_try_lock -> w <> 0 -> lock_effect w op x (inr false)
| le_release y :
    op = op_unlock -> unreleased x = true -> y = inr true \/ y = inl FutexLock.UnlockWake -> lock_effect w op x y
| le_woken : op = op_unlock -> unreleased x = false -> lock_effect w op x (inr true).

Lemma lock_step_effect u l op x c l' y :
  FutexLock.step u l x c = Some (l', y) -> good (busy op x) = true ->
  lock_effect (FutexLock.word l) op x y.
Proof.
  intros H Hg. destruct op, x; try done; destruct c; try done; simpl in H.
  all: try (destruct (Z.eqb_spec (FutexLock.word l) 0)); try (destruct (FutexLock.word l =? 1));
    repeat case_match; simplify_option_eq; repeat case_match; simplify_eq;
    try (by constructor); try (by apply le_release; auto).
  all: by destruct r, (value =? 2); constructor.
Qed.

(** ** What keeps the relation *)

Lemma rel_frame s ps q qs u p p' qp' s' q' :
  rel (Pool s ps) (Pool q qs) -> ps !! u = Some p ->
  same_members s' q' -> pc_rel p' qp' -> shaped p' = true -> NoDup (SynchQueue.cond_ q') ->
  (u ∈ SynchQueue.cond_ q' <-> awaits s' u p') ->
  (forall v pv, v <> u -> ps !! v = Some pv -> v ∈ SynchQueue.cond_ q' <-> awaits s' v pv) ->
  CondVar.g_futex (cond_ s') = CondVar.g_futex (cond_ s) ->
  (past p' = true -> forall v pv, v <> u -> ps !! v = Some pv -> ~ transit s pv) ->
  (transit s' p' -> forall v pv, v <> u -> ps !! v = Some pv -> past pv = false) ->
  settled s' p' ->
  rel (Pool s' (<[u := p']> ps)) (Pool q' (<[u := qp']> qs)).
Proof.
  intros [H1 H2 H3 H4 H5 H6 H7 H8] Hp Hm Hpc Hsh Hnd Hu Hv Hg Hpast Htr Hse. simpl in *.
  assert (forall pv, transit s' pv <-> transit s pv) as Ht by (intros pv; unfold transit; by rewrite Hg).
  assert (forall pv, settled s' pv <-> settled s pv) as Hst by (intros pv; unfold settled; by rewrite Hg).
  destruct (H2 u p Hp) as (qp & Hqp & _).
  split; simpl; try done.
  - intros v pv [(-> & <- & _)|[Hne Hpv]]%insert_lookup_cases.
    + exists qp'. split; [by eapply insert_lookup_self|done].
    + rewrite list_lookup_insert_ne by done. auto.
  - by rewrite !length_insert.
  - intros v pv [(-> & <- & _)|[Hne Hpv]]%insert_lookup_cases; eauto.
  - intros v pv [(-> & <- & _)|[Hne Hpv]]%insert_lookup_cases; auto.
  - intros v w pv pw [(-> & <- & _)|[Hne Hpv]]%insert_lookup_cases Hb
      [(-> & <- & _)|[Hne' Hpw]]%insert_lookup_cases.
    + intros Hx. by destruct pw as [| | |? []| |].
    + rewrite Ht. by eapply Hpast.
    + intros Hx. rewrite (Htr Hx v pv) in Hb by done. done.
    + rewrite Ht. by apply (H7 v w pv pw).
  - intros v pv [(-> & <- & _)|[Hne Hpv]]%insert_lookup_cases; [done|]. rewrite Hst. eauto.
Qed.

(** Both sides step; nobody starts or stops to wait. *)
Lemma rel_plain s ps q qs u p p' qp' s' q' :
  rel (Pool s ps) (Pool q qs) -> ps !! u = Some p ->
  same_members s' q' -> pc_rel p' qp' -> shaped p' = true ->
  SynchQueue.cond_ q' = SynchQueue.cond_ q -> CondVar.waiters (cond_ s') = CondVar.waiters (cond_ s) ->
  CondVar.g_futex (cond_ s') = CondVar.g_futex (cond_ s) ->
  (transit s' p' <-> transit s p) -> (past p' = true -> past p = true) -> settled s' p' ->
  rel (Pool s' (<[u := p']> ps)) (Pool q' (<[u := qp']> qs)).
Proof.
  intros H Hp Hm Hpc Hsh Ec Ew Eg Ht Hb Hse.
  assert (forall v pv, awaits s' v pv <-> v ∈ CondVar.waiters (cond_ s) \/ transit s' pv) as Ha
    by (intros; unfold awaits; by rewrite Ew).
  eapply rel_frame; eauto; rewrite ?Ec.
  - apply (r_nodup _ _ H).
  - rewrite (r_cond _ _ H u p Hp), Ha, Ht. done.
  - intros v pv _ Hpv. rewrite (r_cond _ _ H v pv Hpv), Ha. unfold awaits, transit. by rewrite Eg.
  - intros Hb' v pv _ Hpv. eapply (r_quiet _ _ H u v p pv); eauto.
  - intros Hx v pv _ Hpv. apply not_true_is_false. intros Hpv'.
    eapply (r_quiet _ _ H v u pv p); eauto. simpl. by apply Ht.
Qed.

(** Only the queue steps. *)
Lemma rel_stay s ps a u p p' s' :
  rel (Pool s ps) a -> ps !! u = Some p ->
  (forall q, pc_rel p q -> pc_rel p' q) -> shaped p' = true ->
  closed_ s' = closed_ s -> queue_ s' = queue_ s -> g_throws s' = g_throws s ->
  CondVar.waiters (cond_ s') = CondVar.waiters (cond_ s) ->
  CondVar.g_futex (cond_ s') = CondVar.g_futex (cond_ s) ->
  (transit s' p' <-> transit s p) -> (past p' = true -> past p = true) -> settled s' p' ->
  rel (Pool s' (<[u := p']> ps)) a.
Proof.
  intros H Hp Hpc Hsh E1 E2 E3 Ew Eg Ht Hb Hse. destruct a as [q qs].
  destruct (r_pc _ _ H u p Hp) as (qp & Hqp & Hr). simpl in Hqp.
  rewrite <- (list_insert_id qs u qp Hqp). eapply rel_plain; eauto.
  destruct (r_members _ _ H) as (M1 & M2 & M3). simpl in *. unfold same_members. by rewrite E1, E2, E3.
Qed.
End relation.
