(* ===== verification/FqSim.v ===== *)
(** * The simulation between [FutexQueue] and [SynchQueue]

    One step of the queue in its default configuration is matched by the steps
    of the specification that [FqRefine.rel] calls for: none, one, or a number of
    spurious wake-ups. *)

From stdpp Require Import prelude functions.
From S2P Require Import Prelude Futex Conqueue Lock FutexLock CondVar SynchQueue FutexQueue FqRefine.
Local Open Scope Z_scope.

Section simulation.
Import FutexQueue.
Context {V : Type}.

Local Abbreviation fstate := (pool (FutexQueue.state V) (FutexQueue.pc V)).
Local Abbreviation astate := (pool (queue V (L := mutex)) (SynchQueue.pc V (L := mutex))).
Local Abbreviation log := (list (nat * entry (V := V))).

Record ready (es : log) (c : fstate) (a : astate) : Prop := {
  rd_rel : rel c a;
  rd_cv : cv_inv (cv c);
  rd_traced : sq_traced es a;
}.

(** The specification can follow to [c'], showing [e]. *)
Definition simulated (es e : log) (c' : fstate) : Prop :=
  exists a', sq_traced (es ++ e) a' /\ rel c' a'.

Lemma mutex_covered (a : astate) : sq_covered a = true.
Proof. apply forallb_forall. intros u _. by destruct (user_stand sq_step (pcs a) u). Qed.

Lemma ready_inv es c a : ready es c a -> sq_inv a.
Proof. intros H. eapply sq_inv_reached, sq_traced_reached, (rd_traced _ _ _ H). Qed.

Lemma ready_lock es c a : ready es c a -> lock_ok a.
Proof. intros H%ready_inv. apply H. Qed.

Lemma cv_good c u p :
  cv_inv (cv c) -> pcs c !! u = Some p -> good (CondVar.standing_at (cond_ (shared c)) u (cv_pc (V := V) p)) = true.
Proof.
  intros H Hp. destruct (cv_lock _ H) as (f & Hf & Hi). pose proof (fi_good _ _ Hi u) as Hg.
  rewrite Hf in Hg. unfold stand_of in Hg. simpl in Hg. by rewrite list_lookup_fmap, Hp in Hg.
Qed.

(** Steps of the specification. *)
Lemma abs_step es q qs u qp c q' qp' :
  sq_traced es (Pool q qs) -> qs !! u = Some qp -> sq_step (V := V) (L := mutex) u q qp c = Some (q', qp') ->
  sq_traced (es ++ ((fun e => (u, e)) <$> option_list (SynchQueue.entry_at u q qp c))) (Pool q' (<[u := qp']> qs)).
Proof.
  intros H Hq Hs.
  pose proof (sq_traced_step es (Pool q qs) (u, c) (Pool q' (<[u := qp']> qs)) H) as Ht.
  unfold SynchQueue.entry_of in Ht. simpl in Ht. rewrite Hq in Ht. apply Ht; [|apply mutex_covered].
  by eapply pool_exec_at.
Qed.

Lemma abs_silent es q qs u qp c q' qp' :
  sq_traced es (Pool q qs) -> qs !! u = Some qp -> sq_step (V := V) (L := mutex) u q qp c = Some (q', qp') ->
  SynchQueue.entry_at u q qp c = None -> sq_traced es (Pool q' (<[u := qp']> qs)).
Proof.
  intros H Hq Hs E. pose proof (abs_step _ _ _ _ _ _ _ _ H Hq Hs) as Ht. rewrite E in Ht. simpl in Ht.
  by rewrite app_nil_r in Ht.
Qed.

(** Nothing to do, nothing to show. *)
Lemma sim_stay es c a c' : ready es c a -> rel c' a -> simulated es [] c'.
Proof. intros H Hr. exists a. rewrite app_nil_r. split; [apply H|done]. Qed.

(** ** Calls *)

Lemma sim_call es s ps a u o op :
  ready es (Pool s ps) a -> ps !! u = Some (Idle o) ->
  exists x, FutexLock.enter (acquire_op op) = Some x /\
    simulated es [(u, called op)] (Pool s (<[u := Acquire op x]> ps)).
Proof.
  intros H Hp. pose proof (rd_rel _ _ _ H) as Hr. destruct a as [q qs].
  destruct (r_pc _ _ Hr u _ Hp) as (qp & Hq & ->).
  assert (exists x, FutexLock.enter (acquire_op op) = Some x) as [x Hx] by (destruct op; eauto).
  exists x. split; [done|]. eexists. split.
  - apply (abs_step es q qs u (SynchQueue.Idle o) (SynchQueue.Call op) q
             (SynchQueue.Acquire (L := mutex) op (lock_point op))); [apply H|done|]. by destruct op.
  - eapply rel_plain; eauto; try done. apply (r_members _ _ Hr).
Qed.

(** ** The lock *)

(** Mutex and lock agree on who may take the lock. *)
Lemma lock_agrees es s ps a :
  ready es (Pool s ps) a ->
  FutexLock.word (CondVar.lock (cond_ s)) = 0 <-> SynchQueue.lock_ (shared a) = None.
Proof. intros H. apply (word_free (Pool s ps) a); [apply H|by eapply ready_lock|apply H]. Qed.

Lemma sim_acquire es s ps a u op x c l y :
  ready es (Pool s ps) a -> ps !! u = Some (Acquire op x) ->
  FutexLock.step u (CondVar.lock (cond_ s)) x c = Some (l, y) ->
  simulated es
    ((fun e => (u, e)) <$> option_list (FutexQueue.entry_at u s (Acquire op x) (InLock c)))
    (Pool (FutexQueue.set_lock s l)
       (<[u := match y with inl x' => Acquire op x' | inr b => acquired op b end]> ps)).
Proof.
  intros H Hp Hs. pose proof (rd_rel _ _ _ H) as Hr. pose proof (lock_agrees _ _ _ _ H) as Hw.
  pose proof (cv_good _ _ _ (rd_cv _ _ _ H) Hp) as Hg. cbn [cv_pc CondVar.standing_at] in Hg.
  pose proof (lock_step_effect _ _ _ _ _ _ _ Hs Hg) as He. destruct a as [q qs]. simpl in Hw.
  destruct (r_pc _ _ Hr u _ Hp) as (qp & Hq & ->). simpl. rewrite Hs.
  assert (acquire_op op <> op_unlock) as Hop by by destruct op.
  destruct He as [x' _|_ Hfree|Et Hfree|y Eop|Eop]; [..|done|done].
  - replace (match acquire_op op with op_try_lock => None | _ => None end) with (@None (entry (V := V))) by by destruct op.
    eapply sim_stay; [done|]. by eapply rel_stay.
  - apply Hw in Hfree.
    replace (match acquire_op op with op_try_lock => None | _ => None end) with (@None (entry (V := V))) by by destruct op.
    replace (acquired op true) with (Critical op (critical_start op)) by by destruct op.
    exists (Pool (SynchQueue.set_lock q (Some u)) (<[u := SynchQueue.Critical op (critical_start op)]> qs)). simpl.
    rewrite app_nil_r. split.
    + apply (abs_silent es q qs u (SynchQueue.Acquire (L := mutex) op (lock_point op)) (SynchQueue.InLock (L := mutex) tt));
        [apply H|done| |]; unfold lock_point; destruct op; simpl; by rewrite ?Hfree.
    + eapply rel_plain; eauto; try done. apply (r_members _ _ Hr).
  - unfold acquired. rewrite Et. assert (SynchQueue.lock_ q <> None) as Hl by tauto.
    destruct (SynchQueue.lock_ q) as [w|] eqn:El; [|done]. eexists. split.
    + replace (Some (took op (Returned busy))) with
        (SynchQueue.entry_at u q (SynchQueue.Acquire (L := mutex) op (lock_point op)) (SynchQueue.InLock (L := mutex) tt))
        by (unfold lock_point; simpl; by rewrite Et, El).
      apply (abs_step es q qs u _ _ (SynchQueue.set_lock q (Some w)) (SynchQueue.Idle (Some (Returned busy))));
        [apply H|done|]. unfold lock_point. rewrite Et. simpl. by rewrite El, Et.
    + eapply rel_plain; eauto; try done. apply (r_members _ _ Hr).
Qed.

(** ** The critical sections *)

(** The accesses to the members do not depend on the lock and the waiters. *)
Lemma critical_local u s (q : queue V (L := mutex)) op k c q1 qp :
  same_members s q -> k <> PushNotify -> k <> CloseNotify -> k <> CondWait ->
  SynchQueue.critical_step u (members s) op k c = Some (q1, qp) ->
  SynchQueue.critical_step u q op k c
  = Some (Queue (SynchQueue.closed_ q1) (SynchQueue.lock_ q) (SynchQueue.cond_ q) (SynchQueue.queue_ q1)
            (SynchQueue.g_throws q1), qp) /\
  (forall r x, qp = SynchQueue.Release r x -> x = Mutex.Unlock).
Proof.
  destruct s as [cl cd vs n], q as [cl' l w vs' n']. intros (E1 & E2 & E3) K1 K2 K3 Hs. simpl in *. subst.
  destruct k, c; try done; simpl in *; repeat case_match; simplify_option_eq; split; try done; by intros ? ? [= _ <-].
Qed.

Lemma sim_member es s ps a u op k c c' q1 qp p' :
  ready es (Pool s ps) a -> ps !! u = Some (Critical op k) -> member_choice c = Some c' ->
  k <> PushNotify -> k <> CloseNotify -> k <> CondWait ->
  SynchQueue.critical_step u (members s) op k c' = Some (q1, qp) -> resume qp = Some p' ->
  simulated es ((fun e => (u, e)) <$> option_list (FutexQueue.entry_at u s (Critical op k) c))
    (Pool (set_members s q1) (<[u := p']> ps)).
Proof.
  intros H Hp Hc K1 K2 K3 Hs Hrs. pose proof (rd_rel _ _ _ H) as Hr. destruct a as [q qs].
  destruct (r_pc _ _ Hr u _ Hp) as (qp0 & Hq & ->). pose proof (r_members _ _ Hr) as Hm. simpl in Hm, Hq.
  destruct (critical_local _ _ _ _ _ _ _ _ Hm K1 K2 K3 Hs) as [Hs' Hx].
  assert (FutexQueue.entry_at u s (Critical op k) c = SynchQueue.entry_at u q (SynchQueue.Critical op k) c') as ->.
  { simpl. destruct c; simplify_eq/=; destruct s, q; destruct Hm as (E1 & E2 & E3); simpl in *; by subst. }
  eexists. split; [by eapply abs_step; [apply H|..]|].
  apply resume_cv in Hrs as [(op' & k' & -> & ->)|(r & x & -> & ->)].
  - by eapply rel_plain.
  - rewrite (Hx r x eq_refl). by eapply rel_plain.
Qed.

(** ** The destructor of the guard *)

Lemma sim_release es s ps a u r x c l y :
  ready es (Pool s ps) a -> ps !! u = Some (Release r x) ->
  FutexLock.step u (CondVar.lock (cond_ s)) x c = Some (l, y) ->
  simulated es [] (Pool (FutexQueue.set_lock s l)
    (<[u := match y with inl x' => Release r x' | inr _ => Idle (Some r) end]> ps)).
Proof.
  intros H Hp Hs. pose proof (rd_rel _ _ _ H) as Hr.
  pose proof (cv_good _ _ _ (rd_cv _ _ _ H) Hp) as Hg. cbn [cv_pc CondVar.standing_at] in Hg.
  pose proof (lock_step_effect _ _ _ _ _ _ _ Hs Hg) as He.
  destruct He as [x' Hx|Hop _|Hop _|y _ Hx Hy|_ Hx]; try done.
  - eapply sim_stay; [done|]. eapply rel_stay; eauto; try done.
    simpl. unfold unreleased. by rewrite Hx.
  - destruct a as [q qs]. destruct (r_pc _ _ Hr u _ Hp) as (qp & Hq & Hpq). simpl in Hpq. rewrite Hx in Hpq. subst qp.
    exists (Pool (SynchQueue.set_lock q None) (<[u := SynchQueue.Idle (Some r)]> qs)). rewrite app_nil_r. split.
    + apply (abs_silent es q qs u (SynchQueue.Release (L := mutex) r Mutex.Unlock) (SynchQueue.InLock (L := mutex) tt));
        [apply H|done..].
    + eapply rel_plain; eauto; try done; try (by destruct Hy; subst). apply (r_members _ _ Hr).
  - eapply sim_stay; [done|]. eapply rel_stay; eauto; try done. simpl. by rewrite Hx.
Qed.

(** ** wait *)

Lemma not_transiting c a u p : rel c a -> pcs c !! u = Some p -> holds p = true -> lock_ok a ->
  forall v pv, v <> u -> pcs c !! v = Some pv -> past (V := V) pv = false.
Proof.
  intros H Hp Hh Hl v pv Hne Hv. apply not_true_is_false. intros Hb. apply Hne.
  eapply (holder_once c a v u pv p); eauto. pose proof (r_shaped _ _ H v pv Hv) as Hs.
  destruct pv as [| | |? []| |]; try done; simpl in *; by destruct x.
Qed.

(** The thread counts as waiting from here on. *)
Lemma sim_wait_load es s ps a u :
  ready es (Pool s ps) a -> ps !! u = Some (Waiting CondVar.WaitLoad) ->
  simulated es [] (Pool s (<[u := Waiting (CondVar.WaitUnlock (CondVar.futex_ (cond_ s)) (CondVar.g_futex (cond_ s))
                                             FutexLock.UnlockSub)]> ps)).
Proof.
  intros H Hp. pose proof (rd_rel _ _ _ H) as Hr. pose proof (ready_inv _ _ _ H) as Hi.
  pose proof (not_transiting _ _ _ _ Hr Hp eq_refl (ready_lock _ _ _ H)) as Hnp. destruct a as [q qs].
  destruct (r_pc _ _ Hr u _ Hp) as (qp & Hq & Hpq). simpl in Hpq, Hq. subst qp.
  assert (u ∉ SynchQueue.cond_ q) as Hu.
  { intros Hin. destruct (si_cond _ Hi u Hin) as (qp & Hq' & Hw). simpl in Hq'. rewrite Hq in Hq'. by injection Hq' as <-. }
  exists (Pool (SynchQueue.set_cond q (u :: SynchQueue.cond_ q)) (<[u := CondRelease (L := mutex) Mutex.Unlock]> qs)).
  rewrite app_nil_r. split.
  - by apply (abs_silent es q qs u (SynchQueue.Critical sq_wait_pop CondWait) SynchQueue.Go); [apply H|..].
  - eapply rel_frame; eauto; try done; simpl.
    + apply (r_members _ _ Hr).
    + apply NoDup_cons. split; [done|]. apply (r_nodup _ _ Hr).
    + split; [by right|by left].
    + intros v pv Hne Hv. rewrite elem_of_cons, <- (r_cond _ _ Hr v pv Hv). simpl. tauto.
Qed.

Lemma sim_wait_unlock es s ps a u value g x c l y :
  ready es (Pool s ps) a -> ps !! u = Some (Waiting (CondVar.WaitUnlock value g x)) ->
  FutexLock.step u (CondVar.lock (cond_ s)) x c = Some (l, y) ->
  simulated es [] (Pool (FutexQueue.set_lock s l)
    (<[u := Waiting (match y with inl x' => CondVar.WaitUnlock value g x' | inr _ => CondVar.WaitEnter value g end)]> ps)).
Proof.
  intros H Hp Hs. pose proof (rd_rel _ _ _ H) as Hr.
  pose proof (cv_good _ _ _ (rd_cv _ _ _ H) Hp) as Hg. cbn [cv_pc CondVar.standing_at] in Hg.
  pose proof (lock_step_effect _ _ _ _ _ _ _ Hs Hg) as He.
  pose proof (r_settled _ _ Hr u _ Hp) as Hse. simpl in Hse.
  destruct He as [x' Hx|Hop _|Hop _|y _ Hx Hy|_ Hx]; try done.
  - eapply sim_stay; [done|]. eapply rel_stay; eauto; try done; simpl; unfold unreleased in *; by rewrite Hx.
  - destruct a as [q qs]. destruct (r_pc _ _ Hr u _ Hp) as (qp & Hq & Hpq). simpl in Hpq. rewrite Hx in Hpq. subst qp.
    exists (Pool (SynchQueue.set_lock q None) (<[u := CondBlocked]> qs)). rewrite app_nil_r. split.
    + apply (abs_silent es q qs u (CondRelease (L := mutex) Mutex.Unlock) (SynchQueue.InLock (L := mutex) tt));
        [apply H|done..].
    + eapply rel_plain; eauto; try done; try (by destruct Hy; subst); [apply (r_members _ _ Hr)|].
      destruct Hy; subst; simpl; auto.
  - eapply sim_stay; [done|]. eapply rel_stay; eauto; try done. simpl. by rewrite Hx.
Qed.

(** The threads asleep on the condition variable are in wait. *)
Lemma waiter_asleep es c a u p :
  ready es c a -> pcs c !! u = Some p -> u ∈ CondVar.waiters (cond_ (shared c)) -> p = Waiting CondVar.WaitAsleep.
Proof.
  intros H Hp Hu. pose proof (cv_asleep _ (rd_cv _ _ _ H) u Hu) as E. simpl in E.
  rewrite list_lookup_fmap, Hp in E. injection E as E. pose proof (r_shaped _ _ (rd_rel _ _ _ H) u p Hp) as Hs.
  destruct p; simplify_eq/=; try done.
Qed.

(** A thread that counts as waiting is blocked in the specification. *)
Lemma cond_waiting es c a u qp :
  ready es c a -> pcs a !! u = Some qp -> u ∈ SynchQueue.cond_ (shared a) -> waiting qp = true.
Proof.
  intros H Hq Hu. destruct (si_cond _ (ready_inv _ _ _ H) u Hu) as (qp' & Hq' & Hw). by simplify_eq.
Qed.

(** A thread asleep on the condition variable waits in the specification. *)
Lemma waiter_blocked es c a u :
  ready es c a -> u ∈ CondVar.waiters (cond_ (shared c)) ->
  pcs a !! u = Some CondBlocked /\ u ∈ SynchQueue.cond_ (shared a).
Proof.
  intros H Hu. pose proof (rd_rel _ _ _ H) as Hr. pose proof (cv_asleep _ (rd_cv _ _ _ H) u Hu) as E. simpl in E.
  rewrite list_lookup_fmap in E. destruct (pcs c !! u) as [p|] eqn:Hp; [|done].
  assert (u ∈ SynchQueue.cond_ (shared a)) as Hin by (apply (r_cond _ _ Hr u p Hp); by left).
  pose proof (waiter_asleep _ _ _ _ _ H Hp Hu) as ->.
  destruct (r_pc _ _ Hr u _ Hp) as (q & Hq & Hpq). pose proof (cond_waiting _ _ _ _ _ H Hq Hin) as Hw.
  simpl in Hpq. by destruct Hpq as [-> | ->].
Qed.

Lemma sim_wait_enter es s ps a u value g s' y :
  ready es (Pool s ps) a -> ps !! u = Some (Waiting (CondVar.WaitEnter value g)) ->
  CondVar.g_futex (cond_ s) - g < 2 ^ 32 ->
  CondVar.wait_step u (cond_ s) (CondVar.WaitEnter value g) CondVar.Go = Some (s', y) ->
  simulated es [] (Pool (FutexQueue.set_cond s s') (<[u := Waiting y]> ps)).
Proof.
  intros H Hp Hg Hs. pose proof (rd_rel _ _ _ H) as Hr. pose proof (rd_cv _ _ _ H) as Hcv.
  assert (pcs (cv (Pool s ps)) !! u = Some (CondVar.WaitEnter value g)) as Hp'
    by (simpl; by rewrite list_lookup_fmap, Hp).
  pose proof (cv_value _ Hcv u _ Hp') as [-> Hle]. pose proof (cv_futex _ Hcv) as Ef. simpl in Hle, Ef.
  simpl in Hs. unfold futex_wait in Hs. rewrite Ef in Hs. eapply sim_stay; [done|].
  case_decide as E; injection Hs as <- <-.
  - apply wrap_inj in E; [|lia..]. destruct a as [q qs].
    destruct (r_pc _ _ Hr u _ Hp) as (qp & Hq & Hpq). simpl in Hq. rewrite <- (list_insert_id qs u qp Hq).
    eapply rel_frame; eauto; try done; simpl.
    + apply (r_members _ _ Hr).
    + apply (r_nodup _ _ Hr).
    + rewrite (r_cond _ _ Hr u _ Hp). unfold awaits. simpl. rewrite elem_of_cons. split; [intros _; left; by left|by right].
    + intros v pv Hne Hv. rewrite (r_cond _ _ Hr v pv Hv). unfold awaits, transit. simpl.
      rewrite elem_of_cons. tauto.
  - eapply rel_stay; eauto; try done. simpl. split; [done|]. by intros ->.
Qed.

Lemma sim_spurious es s ps a u s' y :
  ready es (Pool s ps) a -> ps !! u = Some (Waiting CondVar.WaitAsleep) ->
  CondVar.wait_step u (cond_ s) CondVar.WaitAsleep CondVar.Spurious = Some (s', y) ->
  simulated es [] (Pool (FutexQueue.set_cond s s') (<[u := Waiting y]> ps)).
Proof.
  intros H Hp Hs. pose proof (rd_rel _ _ _ H) as Hr. simpl in Hs. injection Hs as <- <-.
  destruct (decide (u ∈ CondVar.waiters (cond_ s))) as [Hu|Hu].
  - assert (u ∈ SynchQueue.cond_ (shared a)) as Hua by (apply (r_cond _ _ Hr u _ Hp); by left).
    destruct (r_pc _ _ Hr u _ Hp) as (qp & Hq & Hpq). pose proof (cond_waiting _ _ _ _ _ H Hq Hua) as Hw.
    simpl in Hpq. destruct Hpq as [-> | ->]; [|done]. destruct a as [q qs].
    exists (Pool (SynchQueue.set_cond q (without [u] (SynchQueue.cond_ q))) (<[u := CondReacquire (L := mutex) Mutex.Lock]> qs)).
    rewrite app_nil_r. split.
    + by apply (abs_silent es q qs u CondBlocked SynchQueue.Spurious); [apply H|..].
    + eapply rel_frame; eauto; try done; simpl.
      * apply (r_members _ _ Hr).
      * auto.
      * apply NoDup_without, (r_nodup _ _ Hr).
      * unfold awaits. simpl. rewrite !elem_of_without, list_elem_of_singleton. tauto.
      * intros v pv Hne Hv. rewrite elem_of_without, list_elem_of_singleton, (r_cond _ _ Hr v pv Hv).
        unfold awaits, transit. simpl. rewrite elem_of_without, list_elem_of_singleton. tauto.
  - eapply sim_stay; [done|]. eapply rel_stay; eauto; try done. simpl.
    apply without_none. by intros x ->%list_elem_of_singleton.
Qed.

Lemma sim_relock es s ps a u x c l y :
  ready es (Pool s ps) a -> ps !! u = Some (Waiting (CondVar.Relock x)) ->
  FutexLock.step u (CondVar.lock (cond_ s)) x c = Some (l, y) ->
  simulated es [] (Pool (FutexQueue.set_lock s l)
    (<[u := match y with inl x' => Waiting (CondVar.Relock x') | inr _ => Critical sq_wait_pop PopEmpty end]> ps)).
Proof.
  intros H Hp Hs. pose proof (rd_rel _ _ _ H) as Hr. pose proof (lock_agrees _ _ _ _ H) as Hw.
  pose proof (cv_good _ _ _ (rd_cv _ _ _ H) Hp) as Hg. cbn [cv_pc CondVar.standing_at] in Hg.
  pose proof (lock_step_effect _ _ _ _ _ _ _ Hs Hg) as He.
  destruct He as [x' Hx|_ Hf|Hop _|y Hop Hx Hy|Hop Hx]; try done.
  - eapply sim_stay; [done|]. by eapply rel_stay.
  - apply Hw in Hf. destruct a as [q qs]. simpl in Hf. destruct (r_pc _ _ Hr u _ Hp) as (qp & Hq & Hpq). simpl in Hq, Hpq.
    assert (u ∉ SynchQueue.cond_ q) as Hu.
    { intros Hin. apply (r_cond _ _ Hr u _ Hp) in Hin as [Hin|[]]. by apply (waiter_asleep _ _ _ _ _ H Hp) in Hin. }
    assert (exists qs0, sq_traced es (Pool q qs0) /\ qs0 !! u = Some (CondReacquire (L := mutex) Mutex.Lock) /\
      <[u := SynchQueue.Critical sq_wait_pop PopEmpty]> qs0 = <[u := SynchQueue.Critical sq_wait_pop PopEmpty]> qs)
      as (qs0 & Ht & Hq0 & E).
    { destruct Hpq as [-> | ->]; [|exists qs; by split; [apply H|]].
      exists (<[u := CondReacquire (L := mutex) Mutex.Lock]> qs).
      split; [|split; [by eapply insert_lookup_self|apply list_insert_insert_eq]].
      apply (abs_silent es q qs u CondBlocked SynchQueue.Go); [apply H|done| |done].
      simpl. by rewrite decide_False. }
    exists (Pool (SynchQueue.set_lock q (Some u)) (<[u := SynchQueue.Critical sq_wait_pop PopEmpty]> qs)).
    rewrite app_nil_r, <- E. split.
    + apply (abs_silent es q qs0 u _ (SynchQueue.InLock (L := mutex) tt) _ _ Ht Hq0); [|done]. simpl. by rewrite Hf.
    + rewrite E. eapply rel_plain; eauto; try done. apply (r_members _ _ Hr).
Qed.

Lemma sim_cond_wait es s ps a u p c s' y :
  ready es (Pool s ps) a -> window (Pool s ps) = true -> ps !! u = Some (Waiting p) ->
  CondVar.wait_step u (cond_ s) p c = Some (s', y) ->
  simulated es [] (Pool (FutexQueue.set_cond s s') (<[u := waited y]> ps)).
Proof.
  intros H Hw Hp Hs. pose proof (rd_rel _ _ _ H) as Hr.
  assert (pcs (cv (Pool s ps)) !! u = Some p) as Hp' by (simpl; by rewrite list_lookup_fmap, Hp).
  assert (CondVar.owner_ (cond_ s) = Some CondVar.the_lock \/ owned p = false) as Ho.
  { destruct (owned p) eqn:E; [|by right]. left. by apply (cv_owned _ (rd_cv _ _ _ H) u p). }
  destruct p as [| | | | | |value g x|value g| | |x| | | | | |]; simpl in Hs; try done;
    try (destruct c; try done; try (injection Hs as <- <-)).
  - eapply sim_stay; [done|]. eapply rel_stay; eauto; try done; by destruct (CondVar.owner_ (cond_ s)).
  - destruct Ho as [Ho|]; [|done]. rewrite decide_False by tauto.
    eapply sim_stay; [done|]. by eapply rel_stay.
  - eapply sim_stay; [done|]. by eapply rel_stay.
  - eapply sim_stay; [done|]. by eapply rel_stay.
  - replace (FutexQueue.set_cond s (cond_ s)) with s by by destruct s. by eapply sim_wait_load.
  - simpl in Hs. destruct (FutexLock.step u (CondVar.lock (cond_ s)) x c) as [[l r]|] eqn:E; [|done].
    injection Hs as <- <-. pose proof (sim_wait_unlock es s ps a u value g x c l r H Hp E) as Hsim. by destruct r.
  - assert (exists y', y = y' /\ waited (V := V) y = Waiting y') as (y' & <- & ->)
      by (exists y; unfold futex_wait in Hs; case_decide; by simplify_eq).
    eapply sim_wait_enter; eauto. apply andb_prop in Hw as [_ Hw]. rewrite forallb_forall in Hw.
    specialize (Hw _ (proj1 (list_elem_of_In _ _) (list_elem_of_lookup_2 _ _ _ Hp))). simpl in Hw. lia.
  - case_decide as Hd; [done|]. injection Hs as <- <-. eapply sim_stay; [done|]. by eapply rel_stay.
  - by eapply sim_spurious.
  - eapply sim_stay; [done|]. by eapply rel_stay.
  - simpl in Hs. destruct (FutexLock.step u (CondVar.lock (cond_ s)) x c) as [[l r]|] eqn:E; [|done].
    injection Hs as <- <-. pose proof (sim_relock es s ps a u x c l r H Hp E) as Hsim. by destruct r.
Qed.

(** ** Notifications *)

Lemma without_without l m q : without m (without l q) = without (l ++ m) q.
Proof.
  unfold without. rewrite list_filter_filter. apply list_filter_iff. intros x. rewrite elem_of_app. tauto.
Qed.

(** Waiters leave the specification's condition variable one by one. *)
Lemma spurious_all es q qs vs :
  sq_traced es (Pool q qs) -> NoDup vs -> (forall v, v ∈ vs -> qs !! v = Some CondBlocked) ->
  exists qs', sq_traced es (Pool (SynchQueue.set_cond q (without vs (SynchQueue.cond_ q))) qs') /\
    length qs' = length qs /\ (forall v, v ∈ vs -> qs' !! v = Some (CondReacquire (V := V) (L := mutex) Mutex.Lock)) /\
    (forall v, v ∉ vs -> qs' !! v = qs !! v).
Proof.
  revert q qs. induction vs as [|v vs IH]; intros q qs Ht Hnd Hvs.
  - exists qs. split; [|split_and!; [done|by intros v ?%not_elem_of_nil|done]].
    rewrite (without_none []) by by intros x ?%not_elem_of_nil. by destruct q.
  - apply NoDup_cons in Hnd as [Hv Hnd].
    destruct (IH (SynchQueue.set_cond q (without [v] (SynchQueue.cond_ q)))
                 (<[v := CondReacquire (L := mutex) Mutex.Lock]> qs)) as (qs' & Ht' & Hl & Hin & Hout); [|done|..].
    + apply (abs_silent es q qs v CondBlocked SynchQueue.Spurious); [done| |done|done]. apply Hvs. by left.
    + intros w Hw. rewrite list_lookup_insert_ne by by intros ->. apply Hvs. by right.
    + simpl in Ht'. rewrite without_without in Ht'. exists qs'.
      assert (qs !! v = Some CondBlocked) as Hqv by (apply Hvs; by left).
      split_and!; [done|by rewrite Hl, length_insert| |].
      * intros w [->|Hw]%elem_of_cons; [|auto]. rewrite Hout by done. by eapply insert_lookup_self.
      * intros w [Hne Hw]%not_elem_of_cons. rewrite Hout by done. by rewrite list_lookup_insert_ne.
Qed.

Lemma pc_rel_leave (p : FutexQueue.pc V) :
  pc_rel p CondBlocked -> pc_rel p (CondReacquire (L := mutex) Mutex.Lock).
Proof.
  destruct p as [| | |? p|p|? x]; simpl; try done.
  - by destruct p.
  - destruct p as [| | | | | |? ? x| | | | | | | | | |]; simpl; auto; try done. case_match; [done|auto].
  - by case_match.
Qed.

(** A thread that counts as waiting while another one holds the lock is blocked. *)
Lemma waits_blocked es c a u v p qv :
  ready es c a -> pcs c !! u = Some p -> holds p = true -> v <> u -> pcs a !! v = Some qv ->
  v ∈ SynchQueue.cond_ (shared a) -> qv = CondBlocked.
Proof.
  intros H Hp Hh Hne Hq Hv. pose proof (cond_waiting _ _ _ _ _ H Hq Hv) as Hw. destruct qv; try done.
  destruct Hne. apply (holder c a u p (rd_rel _ _ _ H) (ready_lock _ _ _ H) Hp) in Hh.
  assert (SynchQueue.lock_ (shared a) = Some v) as E; [|congruence].
  apply abs_holder; [by eapply ready_lock|]. by eexists.
Qed.

(** Nobody has read the value that the update of [futex_] writes. *)
Lemma bump_transit es s ps a v pv :
  ready es (Pool s ps) a -> ps !! v = Some pv -> ~ transit (FutexQueue.set_cond s (CondVar.bump (cond_ s))) pv.
Proof.
  intros H Hv Ht. assert (pcs (cv (Pool s ps)) !! v = Some (cv_pc pv)) as Hv'
    by (simpl; by rewrite list_lookup_fmap, Hv).
  pose proof (cv_value _ (rd_cv _ _ _ H) v _ Hv') as Hval. simpl in Hval.
  destruct pv as [| | | |[]|]; simpl in *; try done; lia.
Qed.

Lemma sim_notify_add es s ps a u op all :
  ready es (Pool s ps) a -> ps !! u = Some (Notifying op (CondVar.NotifyAdd all l_in)) ->
  simulated es [] (Pool (FutexQueue.set_cond s (CondVar.bump (cond_ s)))
                        (<[u := Notifying op (CondVar.NotifyLoad all l_in)]> ps)).
Proof.
  intros H Hp. pose proof (rd_rel _ _ _ H) as Hr. destruct a as [q qs].
  pose proof (fun v pv => bump_transit _ _ _ _ v pv H) as Hbt.
  set (vs := without (CondVar.waiters (cond_ s)) (SynchQueue.cond_ q)).
  destruct (r_pc _ _ Hr u _ Hp) as (qp & Hq & Hpq). simpl in Hq, Hpq.
  assert (u ∉ SynchQueue.cond_ q) as Hu.
  { intros Hin. pose proof (cond_waiting _ _ _ _ _ H Hq Hin) as Hw. by subst qp. }
  assert (forall v, v ∈ SynchQueue.cond_ q -> qs !! v = Some CondBlocked) as Hb.
  { intros v Hin. destruct (si_cond _ (ready_inv _ _ _ H) v Hin) as (qv & Hqv & _). rewrite <- (waits_blocked
      _ _ _ u v _ qv H Hp eq_refl ltac:(by intros ->) Hqv Hin). done. }
  destruct (spurious_all es q qs vs) as (qs' & Ht & Hl & Hin & Hout); [apply H|apply NoDup_without, (r_nodup _ _ Hr)|
    by intros v [? _]%elem_of_without; auto|].
  exists (Pool (SynchQueue.set_cond q (without vs (SynchQueue.cond_ q))) qs'). rewrite app_nil_r. split; [done|].
  assert (forall v, v ∈ without vs (SynchQueue.cond_ q) <-> v ∈ CondVar.waiters (cond_ s) /\ v ∈ SynchQueue.cond_ q) as Hc.
  { intros v. unfold vs. rewrite !elem_of_without. destruct (decide (v ∈ CondVar.waiters (cond_ s))); tauto. }
  split; simpl.
  - apply (r_members _ _ Hr).
  - intros v pv [(-> & -> & _)|[Hne Hv]]%insert_lookup_cases.
    + exists qp. rewrite Hout; [done|]. unfold vs. rewrite elem_of_without. tauto.
    + destruct (r_pc _ _ Hr v pv Hv) as (qv & Hqv & Hpv). simpl in Hqv.
      destruct (decide (v ∈ vs)) as [Hvs|Hvs]; [|rewrite Hout by done; eauto].
      exists (CondReacquire (L := mutex) Mutex.Lock). split; [auto|]. apply pc_rel_leave.
      apply elem_of_without in Hvs as [Hvs _]. rewrite (Hb v Hvs) in Hqv. by injection Hqv as <-.
  - rewrite length_insert, Hl. apply (r_length _ _ Hr).
  - intros v pv [(-> & -> & _)|[Hne Hv]]%insert_lookup_cases; [|by eapply (r_shaped _ _ Hr)].
    apply (r_shaped _ _ Hr u _ Hp).
  - apply NoDup_without, (r_nodup _ _ Hr).
  - intros v pv Hv. rewrite Hc. unfold awaits. simpl.
    apply insert_lookup_cases in Hv as [(-> & -> & _)|[Hne Hv]].
    + simpl. split; [tauto|]. intros [Hw|[]]. by apply (waiter_asleep _ _ _ _ _ H Hp) in Hw.
    + pose proof (r_cond _ _ Hr v pv Hv) as Hcv. simpl in Hcv. rewrite Hcv. unfold awaits.
      specialize (Hbt v pv Hv). simpl. tauto.
  - intros v w pv pw _ _ [(-> & -> & _)|[Hne Hw]]%insert_lookup_cases; [by intros []|by eapply Hbt].
  - intros v pv [(-> & -> & _)|[Hne Hv]]%insert_lookup_cases; [done|].
    destruct pv as [| | | |[]|]; try done. simpl. intros Hx. destruct Hne.
    by apply (holder_once _ _ v u _ _ Hr (ready_lock _ _ _ H) Hv Hp).
Qed.

(** After the update of [futex_] the waiters are the threads asleep in the kernel. *)
Lemma past_waiters es c a u p v :
  ready es c a -> pcs c !! u = Some p -> past p = true ->
  v ∈ SynchQueue.cond_ (shared a) <-> v ∈ CondVar.waiters (cond_ (shared c)).
Proof.
  intros H Hp Hb. pose proof (rd_rel _ _ _ H) as Hr. split; intros Hv.
  - destruct (si_cond _ (ready_inv _ _ _ H) v Hv) as (qv & Hqv & _).
    destruct (lookup_lt_is_Some_2 (pcs c) v) as [pv Hpv].
    { rewrite (r_length _ _ Hr). by eapply lookup_lt_Some. }
    apply (r_cond _ _ Hr v pv Hpv) in Hv as [Hv|Ht]; [done|].
    by destruct (r_quiet _ _ Hr u v p pv Hp Hb Hpv).
  - pose proof (cv_asleep _ (rd_cv _ _ _ H) v Hv) as E. simpl in E. rewrite list_lookup_fmap in E.
    destruct (pcs c !! v) as [pv|] eqn:Hpv; [|done]. apply (r_cond _ _ Hr v pv Hpv). by left.
Qed.

Lemma past_permutation es c a u p :
  ready es c a -> pcs c !! u = Some p -> past p = true ->
  SynchQueue.cond_ (shared a) ≡ₚ CondVar.waiters (cond_ (shared c)).
Proof.
  intros H Hp Hb. apply NoDup_Permutation.
  - apply (r_nodup _ _ (rd_rel _ _ _ H)).
  - apply (cv_nodup _ (rd_cv _ _ _ H)).
  - intros v. by eapply past_waiters.
Qed.

(** The notification takes effect in the specification. *)
Lemma sim_notified es s ps q qs u op p c s' w :
  ready es (Pool s ps) (Pool q qs) -> ps !! u = Some (Notifying op p) -> past (Notifying op p) = true ->
  SynchQueue.critical_step u q op (notify_point op) c
  = Some (SynchQueue.set_cond q w, SynchQueue.Release (L := mutex) (notified op) Mutex.Unlock) ->
  NoDup w -> (forall v, v ∈ w <-> v ∈ CondVar.waiters s') -> CondVar.g_futex s' = CondVar.g_futex (cond_ s) ->
  simulated es [] (Pool (FutexQueue.set_cond s s') (<[u := Notifying op (CondVar.Client l_in)]> ps)).
Proof.
  intros H Hp Hb Hs Hnd Hw Hg. pose proof (rd_rel _ _ _ H) as Hr.
  destruct (r_pc _ _ Hr u _ Hp) as (qp & Hq & Hpq). simpl in Hq.
  assert (qp = SynchQueue.Critical op (notify_point op)) as -> by by destruct p.
  eexists. rewrite app_nil_r. split.
  - apply (abs_silent es q qs u _ c _ _ (rd_traced _ _ _ H) Hq Hs). unfold notify_point. by destruct (is_close op), c.
  - eapply rel_frame; eauto; try done; simpl.
    + apply (r_members _ _ Hr).
    + rewrite Hw. unfold awaits. simpl. tauto.
    + intros v pv Hne Hv. rewrite Hw. unfold awaits. pose proof (r_quiet _ _ Hr u v _ pv Hp Hb Hv) as Hn.
      unfold transit in *. simpl in *. rewrite Hg. tauto.
Qed.

(** notify_one, or a notification that finds nobody. *)
Lemma sim_notify_nobody es s ps a u op p :
  ready es (Pool s ps) a -> ps !! u = Some (Notifying op p) -> past (Notifying op p) = true ->
  CondVar.waiters (cond_ s) = [] ->
  simulated es [] (Pool (FutexQueue.set_cond s (cond_ s)) (<[u := Notifying op (CondVar.Client l_in)]> ps)).
Proof.
  intros H Hp Hb Hw. pose proof (past_permutation _ _ _ _ _ H Hp Hb) as Hperm. destruct a as [q qs]. simpl in *.
  rewrite Hw in Hperm. apply Permutation_nil_r in Hperm.
  apply (sim_notified es s ps q qs u op p (if is_close op then SynchQueue.Go else SynchQueue.Notify []) (cond_ s) []); auto.
  - unfold notify_point. destruct op; simpl; rewrite ?decide_True; rewrite ?Hperm; try done;
      by apply (bool_decide_unpack _).
  - apply NoDup_nil_2.
  - by rewrite Hw.
Qed.

Lemma sim_notify_wake es s ps a u op l :
  ready es (Pool s ps) a -> ps !! u = Some (Notifying op (CondVar.NotifyWake l_in)) ->
  can_wake 1 (CondVar.waiters (cond_ s)) l ->
  simulated es [] (Pool (FutexQueue.set_cond s (CondVar.set_waiters (cond_ s) (without l (CondVar.waiters (cond_ s)))))
                        (<[u := Notifying op (CondVar.Client l_in)]> ps)).
Proof.
  intros H Hp (Hl1 & Hl2 & Hl3). pose proof (past_permutation _ _ _ _ _ H Hp eq_refl) as Hperm.
  pose proof (r_shaped _ _ (rd_rel _ _ _ H) u _ Hp) as Hsh. simpl in Hsh. destruct a as [q qs]. simpl in Hperm.
  apply (sim_notified es s ps q qs u op (CondVar.NotifyWake l_in) (SynchQueue.Notify l) _ (without l (SynchQueue.cond_ q)));
    try done.
  - assert (can_wake 1 (SynchQueue.cond_ q) l) as Hcw.
    { split_and!; [done| |by rewrite Hperm]. intros v Hv. rewrite Hperm. by apply Hl2. }
    unfold notify_point. destruct op; try done; simpl; by rewrite decide_True.
  - apply NoDup_without, (r_nodup _ _ (rd_rel _ _ _ H)).
  - intros v. simpl. rewrite !elem_of_without, Hperm. done.
Qed.

Lemma sim_notify es s ps a u op p c s' y :
  ready es (Pool s ps) a -> window (Pool s ps) = true -> ps !! u = Some (Notifying op p) ->
  CondVar.notify_step (cond_ s) p c = Some (s', y) ->
  simulated es [] (Pool (FutexQueue.set_cond s s') (<[u := Notifying op y]> ps)).
Proof.
  intros H Hw Hp Hs. pose proof (rd_rel _ _ _ H) as Hr. pose proof (r_shaped _ _ Hr u _ Hp) as Hsh. simpl in Hsh.
  assert (Z.of_nat (length ps) <= CondVar.int_max) as Hlen.
  { apply andb_prop in Hw as [Hw _]. simpl in Hw. by apply Z.leb_le in Hw. }
  assert (Z.of_nat (length (pcs (cv (Pool s ps)))) <= CondVar.int_max) as Hlen' by (simpl; by rewrite length_fmap).
  destruct p as [| | | | | | | | | | | |all x|all x|x|x|x]; try done; destruct c as [| | | | | |l|l m]; try done;
    destruct x; try done; simpl in Hs; try (injection Hs as <- <-).
  - by eapply sim_notify_add.
  - destruct (Z.eqb_spec (CondVar.count_ (cond_ s)) 0) as [E|E].
    + eapply sim_notify_nobody; eauto. destruct (CondVar.waiters (cond_ s)) eqn:Ew; [done|].
      destruct (waiters_counted _ (rd_cv _ _ _ H)); [unfold CondVar.int_max in *; lia|simpl; by rewrite Ew|done].
    + apply eqb_prop in Hsh as <-. eapply sim_stay; [done|].
      destruct (is_close op) eqn:Ec; (eapply rel_stay; eauto; try done; simpl; by rewrite Ec).
  - destruct (futex_wake 1 (CondVar.waiters (cond_ s)) l) as [w|] eqn:E; [|done]. injection Hs as <- <-.
    apply futex_wake_Some in E as [Hl ->]. by eapply sim_notify_wake.
  - destruct (CondVar.owner_ (cond_ s)) eqn:Eo.
    + eapply sim_stay; [done|]. by eapply rel_stay.
    + eapply sim_notify_nobody; eauto. destruct (CondVar.waiters (cond_ s)) eqn:Ew; [done|].
      pose proof (waiters_owner _ (rd_cv _ _ _ H)) as Ho. simpl in Ho. rewrite Ew, Eo in Ho. by specialize (Ho ltac:(done)).
  - destruct (futex_requeue 1 CondVar.int_max (CondVar.waiters (cond_ s)) (FutexLock.sleepers (CondVar.lock (cond_ s))) l m)
      as [w|] eqn:E; [|done]. simpl in Hs. injection Hs as <- <-. destruct a as [q qs].
    apply (sim_notified es s ps q qs u op (CondVar.NotifyRequeue l_in) SynchQueue.Go _ []); try done.
    + unfold notify_point. by destruct op.
    + apply NoDup_nil_2.
    + intros v. simpl. by rewrite (requeue_all _ l m w (rd_cv _ _ _ H) Hlen' E).
Qed.
End simulation.
