(* ===== verification/FqTheorems.v ===== *)
(** * What the queue in its default configuration promises

    The theorems about [FutexQueue]: every run is a run of the specification
    with the same log, so the queue is linearizable; and the program comes to a
    stop only when every thread has returned from its operations or waits for an
    item that is not there. *)

From stdpp Require Import prelude functions.
From S2P Require Import Prelude Futex Conqueue Lock FutexLock CondVar SynchQueue FutexQueue FqRefine FqSim.
Local Open Scope Z_scope.

Section theorems.
Import FutexQueue.
Context {V : Type}.

Local Abbreviation fstate := (pool (FutexQueue.state V) (FutexQueue.pc V)).
Local Abbreviation astate := (pool (queue V (L := mutex)) (SynchQueue.pc V (L := mutex))).
Local Abbreviation log := (list (nat * entry (V := V))).

(** ** Every run is simulated *)

Lemma fq_sim_step es (s : FutexQueue.state V) ps a u p c s' p' :
  ready es (Pool s ps) a -> window (Pool s ps) = true -> ps !! u = Some p ->
  FutexQueue.step u s p c = Some (s', p') ->
  simulated es ((fun e => (u, e)) <$> option_list (FutexQueue.entry_at u s p c)) (Pool s' (<[u := p']> ps)).
Proof.
  intros H Hw Hp Hs. pose proof (rd_rel _ _ _ H) as Hr. destruct p as [o|op x|op k|op p|p|r x].
  - destruct c as [op| | | |]; try done. simpl in Hs. destruct (sim_call es s ps a u o op H Hp) as (x & Hx & Hsim).
    rewrite Hx in Hs. by injection Hs as <- <-.
  - apply lock_cases in Hs as (c' & l & y & -> & E & -> & ->). by apply (sim_acquire es s ps a).
  - apply critical_cases in Hs as [(-> & -> & Hk)|(c' & q & qp & Hc & Hrs & -> & Hs & K1 & K2 & K3)];
      [|by eapply sim_member].
    pose proof (si_crit _ (ready_inv _ _ _ H) u op k) as Hok.
    destruct (r_pc _ _ Hr u _ Hp) as (qp & Hq & ->). specialize (Hok Hq). destruct Hok as [Hok _].
    assert (rel (Pool s (<[u := p']> ps)) a) as Hrel.
    { destruct Hk as [[-> ->]|[[-> ->]|[-> ->]]]; (eapply rel_stay; [exact Hr|exact Hp|..]; try done; by destruct op). }
    destruct Hk as [[-> _]|[[-> _]|[-> _]]]; by eapply sim_stay.
  - apply notify_cases in Hs as [(x & -> & -> & -> & ->)|(c' & k & y & -> & E & -> & ->)].
    + eapply sim_stay; [done|]. eapply rel_stay; [exact Hr|exact Hp|..]; done.
    + destruct p; by eapply sim_notify.
  - apply wait_cases in Hs as (c' & k & y & -> & E & -> & ->). by eapply sim_cond_wait.
  - apply lock_cases in Hs as (c' & l & y & -> & E & -> & ->). by eapply sim_release.
Qed.

(** The condition variable keeps its invariant under the queue. *)
Lemma cv_exec (c : fstate) u ch c' p :
  cv_inv (cv c) -> pcs c !! u = Some p -> shaped p = true -> FutexQueue.exec c (u, ch) = Some c' -> cv_inv (cv c').
Proof.
  intros H Hp Hs He. destruct c as [s ps]. pool_step He. cbn [shared pcs] in *. simplify_eq.
  unfold cv. simpl. rewrite list_fmap_insert.
  assert ((cv_pc <$> ps) !! u = Some (cv_pc p)) as Hp' by by rewrite list_lookup_fmap, Hp.
  destruct (step_cv _ _ _ _ _ _ Ht Hs) as [[-> ->]|[c' Hc]].
  - by rewrite list_insert_id.
  - eapply (cv_step (cv (Pool s ps)) (u, c')); [done|]. by eapply pool_exec_at.
Qed.

Lemma ready_step es (c : fstate) a l c' :
  ready es c a -> window c = true -> FutexQueue.exec c l = Some c' ->
  exists a', ready (es ++ FutexQueue.entry_of c l) c' a'.
Proof.
  intros H Hw He. destruct l as [u ch]. pose proof He as He'. destruct c as [s ps]. pool_step He'. cbn [shared pcs] in *.
  unfold FutexQueue.entry_of. simpl. rewrite Hp.
  destruct (fq_sim_step es s ps a u p ch sh' p' H Hw Hp Ht) as (a' & Htr & Hrel).
  exists a'. split; [done| |done]. eapply cv_exec; [apply H|exact Hp| |exact He]. by eapply (r_shaped _ _ (rd_rel _ _ _ H)).
Qed.

Lemma ready_start n :
  ready [] (Pool FutexQueue.init (replicate n (Idle (V := V) None)))
    (Pool synch_queue_init (replicate n (SynchQueue.Idle None))).
Proof.
  split.
  - assert (forall u p, replicate n (Idle (V := V) None) !! u = Some p -> (u < n)%nat /\ p = Idle None) as Hrep
      by (by intros u p [-> ?]%lookup_replicate).
    split; simpl; try done.
    + intros u p [Hu ->]%Hrep. exists (SynchQueue.Idle None). split; [by apply lookup_replicate_2|done].
    + by rewrite !length_replicate.
    + by intros u p [_ ->]%Hrep.
    + apply NoDup_nil_2.
    + intros u p [_ ->]%Hrep. unfold awaits. simpl. tauto.
    + by intros u v p p' [_ ->]%Hrep.
    + by intros u p [_ ->]%Hrep.
  - apply cv_inv_reached. unfold cv. simpl. rewrite fmap_replicate. apply reach_init; [by exists n|done].
  - constructor; [by exists n|apply mutex_covered].
Qed.

Lemma traced_ready es (c : fstate) : FutexQueue.traced es c -> exists a, ready es c a.
Proof.
  assert (forall es s, FutexQueue.traced (V := V) es s -> window s = true) as Hwin by by destruct 1.
  induction 1 as [s [n ->] Hw|es s l s' Htr [a IH] He Hw]; [|by eapply ready_step; [|by eapply Hwin|]].
  eexists. apply ready_start.
Qed.

(** ** Progress *)

(** A step a thread takes by itself: not a call, not a spurious wake-up, and not
    an exception of a value. *)
Definition wilful (c : FutexQueue.choice V) : bool :=
  match c with
  | Call _ | Throw _ | InLock FutexLock.Spurious | InCond CondVar.Spurious
  | InCond (CondVar.LockGo FutexLock.Spurious) => false
  | _ => true
  end.

(** A thread asleep in the kernel. *)
Definition asleep (s : FutexQueue.state V) (u : nat) (p : FutexQueue.pc V) : Prop :=
  match p with
  | Acquire _ FutexLock.WaitSleep | Waiting (CondVar.Relock FutexLock.WaitSleep) =>
      u ∈ FutexLock.sleepers (CondVar.lock (cond_ s))
  | Waiting CondVar.WaitAsleep =>
      u ∈ CondVar.waiters (cond_ s) \/ u ∈ FutexLock.sleepers (CondVar.lock (cond_ s))
  | _ => False
  end.

Lemma lock_progress u l x :
  NoDup (FutexLock.sleepers l) ->
  (x = FutexLock.WaitSleep /\ u ∈ FutexLock.sleepers l) \/
  exists c r, c <> FutexLock.Spurious /\ FutexLock.step u l x c = Some r.
Proof.
  intros Hnd. destruct x.
  - right. exists FutexLock.Go. simpl. case_match; by eexists.
  - right. exists (FutexLock.Backoff true). by eexists.
  - right. exists FutexLock.Go. by eexists.
  - right. exists FutexLock.Go. by eexists.
  - destruct (decide (u ∈ FutexLock.sleepers l)) as [?|Hu]; [by left|]. right.
    exists FutexLock.Go. simpl. rewrite decide_False by done. by eexists.
  - right. exists FutexLock.Go. by eexists.
  - right. exists FutexLock.Go. simpl. case_match; by eexists.
  - right. exists FutexLock.Go. by eexists.
  - right. exists FutexLock.Go. by eexists.
  - right. destruct (futex_wake_exists 1 (FutexLock.sleepers l)) as [w Hw]; [lia|done|].
    exists (FutexLock.Woken w). simpl. rewrite Hw. by eexists.
Qed.

Lemma critical_progress u (s : FutexQueue.state V) q op k :
  same_members s q -> crit_ok q op k -> exists r, FutexQueue.step u s (Critical op k) Go = Some r.
Proof.
  intros (E1 & E2 & E3) [Ho Hk]. destruct s as [cl cd vs n], q as [cl' l w vs' n']. simpl in *. subst.
  destruct k; simpl in *; destruct op; try done; repeat case_match; try done; by eexists.
Qed.

Lemma notify_progress (s : CondVar.state) all p :
  NoDup (CondVar.waiters s) -> notify_shape all p = true ->
  (exists x, p = CondVar.Client x) \/
  exists c r, wilful (InCond c) = true /\ CondVar.notify_step s p c = Some r.
Proof.
  intros Hnd Hs. destruct (futex_wake_exists 1 (CondVar.waiters s)) as [l Hl]; [lia|done|].
  destruct (futex_wake_exists CondVar.int_max (without l (CondVar.waiters s))) as [m Hm];
    [by apply Z.leb_le|by apply NoDup_without|].
  destruct p as [| | | | | | | | | | | |all' x|all' x|x|x|x]; try done.
  - eauto.
  - right. exists CondVar.Go. by eexists.
  - right. exists CondVar.Go. by eexists.
  - right. exists (CondVar.Woken l). simpl. rewrite Hl. by eexists.
  - right. exists CondVar.Go. by eexists.
  - right. exists (CondVar.Moved l m). simpl. unfold futex_requeue. rewrite Hl. simpl. rewrite Hm. by eexists.
Qed.

Lemma wait_progress u (s : FutexQueue.state V) p :
  NoDup (FutexLock.sleepers (CondVar.lock (cond_ s))) -> good (CondVar.standing_at (cond_ s) u p) = true ->
  (exists q, pc_rel (V := V) (Waiting p) q) ->
  asleep s u (Waiting p) \/ exists c r, wilful (InCond c) = true /\ CondVar.wait_step u (cond_ s) p c = Some r.
Proof.
  intros Hnd Hg [q Hq]. destruct p as [| | | | | |value g x|value g| | |x| | | | | |]; try done;
    try (right; exists CondVar.Go; by eexists).
  - destruct (lock_progress u (CondVar.lock (cond_ s)) x Hnd) as [[-> _]|(c & r & Hc & Hr)]; [done|].
    right. exists (CondVar.LockGo c). simpl. rewrite Hr. eexists. split; [by destruct c|done].
  - destruct (decide (u ∈ CondVar.waiters (cond_ s) \/ u ∈ FutexLock.sleepers (CondVar.lock (cond_ s)))) as [?|Hu];
      [by left|]. right. exists CondVar.Go. simpl. rewrite decide_False by done. by eexists.
  - destruct (lock_progress u (CondVar.lock (cond_ s)) x Hnd) as [[-> ?]|(c & r & Hc & Hr)]; [by left|].
    right. exists (CondVar.LockGo c). simpl. rewrite Hr. eexists. split; [by destruct c|done].
Qed.

Lemma lock_call_progress u (s : FutexQueue.state V) op x again k :
  NoDup (FutexLock.sleepers (CondVar.lock (cond_ s))) -> good (l_busy (L := futex_lock) op x) = true ->
  (x = FutexLock.WaitSleep /\ op = op_lock /\ u ∈ FutexLock.sleepers (CondVar.lock (cond_ s))) \/
  exists c r, wilful c = true /\ FutexQueue.lock_call u s x c again k = Some r.
Proof.
  intros Hnd Hg. destruct (lock_progress u (CondVar.lock (cond_ s)) x Hnd) as [[-> ?]|(c & r & Hc & Hr)].
  - left. by destruct op.
  - right. exists (InLock c). simpl. rewrite Hr. eexists. split; [by destruct c|done].
Qed.

(** A thread in an operation is asleep in the kernel or can go on. *)
Lemma progress es c a u p :
  ready es c a -> pcs c !! u = Some p ->
  (exists o, p = Idle o) \/ asleep (shared c) u p \/
  exists ch c', wilful ch = true /\ FutexQueue.exec c (u, ch) = Some c'.
Proof.
  intros H Hp. pose proof (rd_rel _ _ _ H) as Hr. pose proof (cv_good _ _ _ (rd_cv _ _ _ H) Hp) as Hg.
  destruct (cv_lock _ (rd_cv _ _ _ H)) as (f & _ & Hi). pose proof (fi_nodup _ _ Hi) as Hnd. simpl in Hnd.
  pose proof (cv_nodup _ (rd_cv _ _ _ H)) as Hnw. simpl in Hnw. destruct c as [s ps]. cbn [shared pcs] in *.
  assert ((exists o, p = Idle o) \/ asleep s u p \/ exists ch r, wilful ch = true /\ FutexQueue.step u s p ch = Some r)
    as [?|[?|(ch & [s' p'] & Hch & Hs)]]; [|by left|by right; left|right; right; exists ch; eauto using pool_exec_at].
  destruct (r_pc _ _ Hr u p Hp) as (q & Hq & Hpq). pose proof (r_shaped _ _ Hr u p Hp) as Hsh.
  destruct p as [o|op x|op k|op p|p|r x]; cbn [cv_pc CondVar.standing_at] in Hg.
  - eauto.
  - right. destruct (lock_call_progress u s (acquire_op op) x (Acquire op) (acquired op) Hnd Hg) as [(-> & _ & ?)|?]; auto.
  - right. right. exists Go. simpl in Hpq. subst q.
    destruct (critical_progress u s (shared a) op k (r_members _ _ Hr)) as [r Hs]; [|by exists r].
    by apply (si_crit _ (ready_inv _ _ _ H) u).
  - right. right. destruct (notify_progress (cond_ s) (is_close op) p Hnw Hsh) as [[x ->]|(c & r & Hc & Hs)].
    + exists Go. by eexists.
    + exists (InCond c). eexists. split; [done|]. simpl. rewrite Hs. by destruct p.
  - right. destruct (wait_progress u s p Hnd Hg) as [?|(c & r & Hc & Hs)]; [by exists q|by left|].
    right. exists (InCond c). eexists. split; [done|]. simpl. by rewrite Hs.
  - right. right.
    by destruct (lock_call_progress u s op_unlock x (Release r) (fun _ => Idle (Some r)) Hnd Hg) as [(_ & ? & _)|?].
Qed.

(** ** Theorems *)

(** The operation a thread has called and that has not taken effect. *)
Definition fq_pending (p : FutexQueue.pc V) : option (operation (V := V)) :=
  match p with
  | Acquire op _ => Some op
  | Critical _ PushNotify | Critical _ CloseNotify => None
  | Critical op _ => Some op
  | Waiting _ => Some sq_wait_pop
  | Idle _ | Notifying _ _ | Release _ _ => None
  end.

Lemma pc_rel_pending p q : pc_rel p q -> pending q = fq_pending p.
Proof.
  destruct p as [o|op x|op k|op p|p|r x]; simpl.
  - by intros ->.
  - by intros ->.
  - intros ->. by destruct k.
  - unfold notify_point. destruct p; intros ->; try done; by destruct (is_close op).
  - destruct p as [| | | | | |? ? x| | | | | | | | | |]; try done; try (by intros ->); try (by intros [-> | ->]).
    case_match; [by intros ->|by intros [-> | ->]].
  - intros ->. by case_match.
Qed.

(** C2. The synch_queue over futex_synch refines the queue over a mutex and a
    condition variable with their documented behaviour: for every run there is
    one of the specification with the same log, the same flag and items, and the
    same results; and whoever sleeps on the condition variable waits there. *)
Theorem futex_queue_refines es (s : fstate) :
  FutexQueue.traced es s ->
  exists a : astate, sq_traced es a /\
    SynchQueue.closed_ (shared a) = closed_ (shared s) /\ SynchQueue.queue_ (shared a) = queue_ (shared s) /\
    (forall u o, pcs s !! u = Some (Idle o) -> pcs a !! u = Some (SynchQueue.Idle o)) /\
    (forall u, u ∈ CondVar.waiters (cond_ (shared s)) ->
       pcs a !! u = Some CondBlocked /\ u ∈ SynchQueue.cond_ (shared a)).
Proof.
  intros [a H]%traced_ready. pose proof (rd_rel _ _ _ H) as Hr. exists a. destruct (r_members _ _ Hr) as (M1 & M2 & _).
  split_and!; [apply H|done|done| |].
  - intros u o Hp. by destruct (r_pc _ _ Hr u _ Hp) as (q & Hq & ->).
  - intros u Hu. by eapply waiter_blocked.
Qed.

(** The synch_queue over futex_synch is linearizable: in the order in which the
    operations take effect their results are those of the sequential queue, whose
    flag and items are the members of the object; every thread's calls take
    effect in the order of the calls and none twice; and what a call returns is
    the result with which it took effect. *)
Theorem futex_queue_linearizable es (s : fstate) :
  FutexQueue.traced es s ->
  accepts es (closed_ (shared s), queue_ (shared s)) /\
  forall u p, pcs s !! u = Some p ->
    calls_by u es = (takes_by u es).*1 ++ option_list (fq_pending p) /\
    forall r, p = Idle (Some r) -> exists op, last (takes_by u es) = Some (op, r).
Proof.
  intros [a H]%traced_ready. pose proof (rd_rel _ _ _ H) as Hr. destruct (sq_log _ _ (rd_traced _ _ _ H)) as [Ha Hl].
  destruct (r_members _ _ Hr) as (M1 & M2 & _). unfold sq_content in Ha. rewrite M1, M2 in Ha. split; [done|].
  intros u p Hp. destruct (r_pc _ _ Hr u p Hp) as (q & Hq & Hpq). destruct (Hl u q Hq) as [Hc Hout].
  rewrite <- (pc_rel_pending p q Hpq). split; [done|]. intros r ->. simpl in Hpq. subst q. by apply Hout.
Qed.

(** Threads that are idle or asleep in the kernel do not sleep on the lock. *)
Lemma nobody_on_lock es (c : fstate) a :
  ready es c a ->
  (forall u p, pcs c !! u = Some p -> (exists o, p = Idle o) \/ asleep (shared c) u p) ->
  FutexLock.sleepers (CondVar.lock (cond_ (shared c))) = [].
Proof.
  intros H Hall. pose proof (cv_rouser _ (rd_cv _ _ _ H)) as Hro. simpl in Hro.
  apply dec_stable. intros Hne. destruct (Hro Hne) as (u & p & Hp & Hu). rewrite list_lookup_fmap in Hp.
  destruct (pcs c !! u) as [p0|] eqn:E; [|done]. injection Hp as <-.
  destruct (Hall u p0 E) as [[o ->]|Has]; [by destruct Hu as [[]|]|].
  destruct p0 as [|op x| | |p|]; try done; simpl in Has.
  - destruct x; try done. simpl in Hu. destruct op, Hu as [[]|Hu]; try done.
  - destruct p as [| | | | | | | | | |x| | | | | |]; try done; simpl in Hu.
    + case_decide as Hd; [by destruct Hu as [[]|]|]. destruct Has as [?|?]; [done|].
      by destruct Hu as [[]|Hu].
    + destruct x; try done. by destruct Hu as [[]|Hu].
Qed.

(** When no thread can go on, every thread is idle or waits for an item. *)
Lemma ready_stuck es (s : fstate) a :
  ready es s a ->
  (forall u c, wilful c = true -> FutexQueue.exec s (u, c) = None) ->
  FutexLock.sleepers (CondVar.lock (cond_ (shared s))) = [] /\
  (forall u p, pcs s !! u = Some p ->
     (exists o, p = Idle o) \/ (p = Waiting CondVar.WaitAsleep /\ u ∈ CondVar.waiters (cond_ (shared s)))) /\
  (CondVar.waiters (cond_ (shared s)) <> [] ->
     (length (queue_ (shared s)) <= g_throws (shared s))%nat /\ closed_ (shared s) = false).
Proof.
  intros H Hstuck. pose proof (rd_rel _ _ _ H) as Hr.
  assert (forall u p, pcs s !! u = Some p -> (exists o, p = Idle o) \/ asleep (shared s) u p) as Hall.
  { intros u p Hp. destruct (progress _ _ _ _ _ H Hp) as [?|[?|(c & s' & Hc & He)]]; [by left|by right|].
    by rewrite Hstuck in He. }
  pose proof (nobody_on_lock _ _ _ H Hall) as Hno.
  assert (forall u p, pcs s !! u = Some p ->
    (exists o, p = Idle o) \/ (p = Waiting CondVar.WaitAsleep /\ u ∈ CondVar.waiters (cond_ (shared s)))) as Hall'.
  { intros u p Hp. destruct (Hall u p Hp) as [?|Has]; [by left|right].
    destruct p as [|op x| | |p|]; try done; simpl in Has; rewrite Hno in Has.
    - destruct x; try done. by apply not_elem_of_nil in Has.
    - destruct p as [| | | | | | | | | |x| | | | | |]; try done.
      + destruct Has as [?|Has]; [done|]. by apply not_elem_of_nil in Has.
      + destruct x; try done. by apply not_elem_of_nil in Has. }
  split_and!; [done|done|]. intros Hw. destruct (r_members _ _ Hr) as (M1 & M2 & M3). rewrite <- M1, <- M2, <- M3.
  apply (sq_quiescent a); [by eapply sq_traced_reached, H| |].
  - destruct (CondVar.waiters (cond_ (shared s))) as [|v w] eqn:Ew; [done|]. intros Ec.
    destruct (waiter_blocked _ _ _ v H) as [_ Hv]; [rewrite Ew; by left|]. rewrite Ec in Hv. by apply not_elem_of_nil in Hv.
  - intros u q Hq. destruct (lookup_lt_is_Some_2 (pcs s) u) as [p Hp].
    { rewrite (r_length _ _ Hr). by eapply lookup_lt_Some. }
    destruct (Hall' u p Hp) as [[o ->]|[-> Hu]].
    + destruct (r_pc _ _ Hr u _ Hp) as (q' & Hq' & ->). simplify_eq. eauto.
    + destruct (waiter_blocked _ _ _ u H Hu) as [Hq' Hin]. simplify_eq. auto.
Qed.

(** C7. The program cannot come to a stop by a lost wake-up, in the condition
    variable or in the lock: when no thread can go on by itself, nobody sleeps on
    the lock, every thread has returned from its operations or sleeps in
    wait_pop, and if somebody sleeps, the queue is open and, but for one item for
    every pop that an exception of the value has left, empty. *)
Theorem futex_queue_no_deadlock es (s : fstate) :
  FutexQueue.traced es s ->
  (forall u c, wilful c = true -> FutexQueue.exec s (u, c) = None) ->
  FutexLock.sleepers (CondVar.lock (cond_ (shared s))) = [] /\
  (forall u p, pcs s !! u = Some p ->
     (exists o, p = Idle o) \/ (p = Waiting CondVar.WaitAsleep /\ u ∈ CondVar.waiters (cond_ (shared s)))) /\
  (CondVar.waiters (cond_ (shared s)) <> [] ->
     (length (queue_ (shared s)) <= g_throws (shared s))%nat /\ closed_ (shared s) = false).
Proof. intros [a H]%traced_ready. by eapply ready_stuck. Qed.
End theorems.
