(* ===== verification/FqExamples.v ===== *)
(** * Runs of the lock-based queue over futex_synch

    Thread 0 waits for an item, and sleeps in the kernel; thread 1 pushes one and
    wakes it. *)

From stdpp Require Import prelude functions.
From S2P Require Import Prelude Futex Conqueue Lock FutexLock CondVar SynchQueue FutexQueue FqRefine FqSim FqTheorems.
Local Open Scope Z_scope.

Import FutexQueue.

Local Abbreviation fstate := (pool (FutexQueue.state Z) (FutexQueue.pc Z)).
Local Abbreviation schedule := (list (nat * FutexQueue.choice Z)).

(** The log of a schedule. *)
Fixpoint fq_trace (s : fstate) (ls : schedule) : option (list (nat * entry (V := Z)) * fstate) :=
  if window s then
    match ls with
    | [] => Some ([], s)
    | l :: ls => s' ← FutexQueue.exec s l; x ← fq_trace s' ls; Some (FutexQueue.entry_of s l ++ x.1, x.2)
    end
  else None.

Lemma fq_trace_from es s ls es' s' :
  FutexQueue.traced es s -> fq_trace s ls = Some (es', s') -> FutexQueue.traced (es ++ es') s'.
Proof.
  revert es s es'. induction ls as [|l ls IH]; intros es s es' Ht H; simpl in H; destruct (window s); try done.
  - injection H as <- <-. by rewrite app_nil_r.
  - destruct (FutexQueue.exec s l) as [s1|] eqn:He; [|done]. simpl in H.
    destruct (fq_trace s1 ls) as [[es1 s2]|] eqn:Hs; [|done]. simpl in H. injection H as <- <-.
    rewrite app_assoc. eapply IH; [|done]. eapply traced_step; [done..|].
    destruct ls; simpl in Hs; by destruct (window s1).
Qed.

Lemma fq_trace_traced s ls es s' :
  FutexQueue.start s -> fq_trace s ls = Some (es, s') -> FutexQueue.traced es s'.
Proof.
  intros Hs Ht. apply (fq_trace_from [] s ls es s'); [|done]. constructor; [done|].
  destruct ls; simpl in Ht; by destruct (window s).
Qed.

Definition fq_two : fstate := Pool init [Idle None; Idle None].

Lemma fq_two_start : FutexQueue.start fq_two.
Proof. by exists 2%nat. Qed.

Definition cv_go (u : nat) : nat * FutexQueue.choice Z := (u, InCond CondVar.Go).
Definition lk_go (u : nat) : nat * FutexQueue.choice Z := (u, InLock FutexLock.Go).

(** Thread 0 calls wait_pop and falls asleep. *)
Definition fq_waits : schedule :=
  [(0%nat, Call sq_wait_pop); lk_go 0; (0%nat, Go); (0%nat, Go); (0%nat, Go)] ++
  replicate 4 (cv_go 0) ++ [(0%nat, InCond (CondVar.LockGo FutexLock.Go)); cv_go 0].

(** Thread 1 pushes 7 and wakes thread 0, which takes the item. *)
Definition fq_all : schedule :=
  fq_waits ++
  [(1%nat, Call (sq_push 7)); lk_go 1; (1%nat, Go); (1%nat, Go); (1%nat, Go); cv_go 1; cv_go 1;
   (1%nat, InCond (CondVar.Woken [0%nat])); (1%nat, Go); lk_go 1;
   cv_go 0; cv_go 0; (0%nat, InCond (CondVar.LockGo FutexLock.Go)); (0%nat, Go); (0%nat, Go); (0%nat, Go); lk_go 0;
   lk_go 0; (0%nat, InLock (FutexLock.Woken []))].

Definition fq_asleep : fstate :=
  Pool (State false (CondVar.State 0 1 (Some 0%nat) [0%nat] (FutexLock.State 0 []) 0) [] 0)
    [Waiting CondVar.WaitAsleep; Idle None].

Definition fq_end : fstate :=
  Pool (State false (CondVar.State 1 0 (Some 0%nat) [] (FutexLock.State 0 []) 1) [] 0)
    [Idle (Some (Popped 7)); Idle (Some (Returned success))].

Definition fq_log : list (nat * entry (V := Z)) :=
  [(0%nat, called sq_wait_pop); (1%nat, called (sq_push 7)); (1%nat, took (sq_push 7) (Returned success));
   (0%nat, took sq_wait_pop (Popped 7))].

Lemma fq_asleep_traced : FutexQueue.traced [(0%nat, called sq_wait_pop)] fq_asleep.
Proof. apply (fq_trace_traced fq_two fq_waits); [apply fq_two_start|reflexivity]. Qed.

Lemma fq_end_traced : FutexQueue.traced fq_log fq_end.
Proof. apply (fq_trace_traced fq_two fq_all); [apply fq_two_start|reflexivity]. Qed.

Lemma futex_queue_refines_witness :
  exists a, sq_traced (L := mutex) fq_log a /\ pcs a !! 0%nat = Some (SynchQueue.Idle (Some (Popped 7))).
Proof.
  destruct (futex_queue_refines fq_log fq_end fq_end_traced) as (a & Ht & _ & _ & Hi & _).
  exists a. split; [exact Ht|]. apply Hi. reflexivity.
Defined.

Lemma futex_queue_linearizable_witness :
  accepts fq_log (false, []) /\ exists op, last (takes_by 0 fq_log) = Some (op, Popped 7).
Proof.
  destruct (futex_queue_linearizable fq_log fq_end fq_end_traced) as [Ha Hl]. split; [exact Ha|].
  apply (Hl 0%nat (Idle (Some (Popped 7)))); reflexivity.
Defined.

(** Nobody can go on: thread 0 sleeps, thread 1 is idle. *)
Lemma fq_asleep_stuck u c : wilful c = true -> FutexQueue.exec fq_asleep (u, c) = None.
Proof.
  intros Hc. destruct u as [|[|u]]; [| |done].
  - destruct c as [| | | |c]; try done. by destruct c.
  - by destruct c.
Qed.

Lemma futex_queue_no_deadlock_witness :
  CondVar.waiters (cond_ (shared fq_asleep)) = [0%nat] /\
  (length (queue_ (shared fq_asleep)) <= 0)%nat /\ closed_ (shared fq_asleep) = false.
Proof.
  split; [reflexivity|].
  destruct (futex_queue_no_deadlock _ fq_asleep fq_asleep_traced fq_asleep_stuck) as (_ & _ & H).
  apply H. discriminate.
Defined.
