(* ===== verification/SharedQueue.v ===== *)
(** * What a concurrent queue promises to its clients

    The interface between synch_queue and the components that share one between
    their threads, such as the thread pool.  A queue is shared state and a step
    function for the operations in progress; [SharedQueueLaws] states that an
    operation takes effect in one step between its call and its return, with the
    result the sequential queue [spec_apply] has, and [QueueProgress] that the
    operations come to a stop only in wait_pop on a queue that is open and
    empty.  synch_queue over any lock keeps the former, and in its default
    configuration both. *)

From stdpp Require Import prelude functions.
From S2P Require Import Prelude Futex Conqueue Lock FutexLock CondVar SynchQueue FutexQueue FqRefine FqSim FqTheorems.
Local Open Scope Z_scope.

Class SharedQueue (T : Type) : Type := {
  oq_state : Type;
  oq_pc : Type;
  oq_choice : Type;
  oq_init : oq_state;
  (** a thread outside the operations, with the result of its last one *)
  oq_idle : option (outcome T) -> oq_pc;
  oq_done : oq_pc -> option (option (outcome T));
  oq_call : operation (V := T) -> oq_choice;
  (** a step in which a value throws, and one in which it throws on its way out of
      the queue, which leaves a damaged value there *)
  oq_throwing : oq_choice -> bool;
  oq_losing : oq_pc -> oq_choice -> bool;
  oq_step : nat -> oq_state -> oq_pc -> oq_choice -> option (oq_state * oq_pc);
  (** the value that the thread is about to move-assign to its caller's variable *)
  oq_assigning : oq_state -> oq_pc -> option T;
}.

(** What a step of a thread from [p] to [p'] does to the content of the queue:
    nothing at a call and in a silent step; in one step of each operation, what
    the sequential queue does. *)
Inductive queue_effect {T : Type} (before : bool * list T) (pending : option (operation (V := T)))
    (out : option (outcome T)) (after : bool * list T) (pending' : option (operation (V := T)))
    (out' : option (outcome T)) : Prop :=
| qe_silent : after = before -> pending' = pending -> out' = out -> queue_effect before pending out after pending' out'
| qe_took op r :
    pending = Some op -> pending' = None -> out' = Some r ->
    (acquire_op op = op_try_lock /\ r = Returned busy /\ after = before) \/ spec_apply before op = Some (r, after) ->
    queue_effect before pending out after pending' out'.

(** A closed and empty queue stays so. *)
Lemma closed_stays {T} (c' : bool * list T) pe o pe' o' :
  queue_effect (true, []) pe o c' pe' o' -> c' = (true, []).
Proof.
  intros [->|op' r' _ _ _ [(_ & _ & ->)|Hs]]; [done..|]. destruct op'; simpl in Hs; by simplify_eq.
Qed.

Class SharedQueueLaws {T : Type} (Q : SharedQueue T) : Type := {
  oq_content : oq_state -> bool * list T;
  (** the operation that has not taken effect, and the result of one that has *)
  oq_pending : oq_pc -> option (operation (V := T));
  oq_outcome : oq_pc -> option (outcome T);
  (** the states the laws cover *)
  oq_window : pool oq_state oq_pc -> bool;
  oq_inv : pool oq_state oq_pc -> Prop;
  oq_done_idle p o : oq_done p = Some o <-> p = oq_idle o;
  oq_idle_clear o : oq_pending (oq_idle o) = None /\ oq_outcome (oq_idle o) = o;
  oq_content_init : oq_content oq_init = (false, []);
  oq_inv_start n : oq_inv (Pool oq_init (replicate n (oq_idle None)));
  oq_inv_step s u c s' :
    oq_inv s -> oq_window s = true -> (forall p, pcs s !! u = Some p -> oq_losing p c = false) ->
    pool_exec oq_step s (u, c) = Some s' -> oq_window s' = true -> oq_inv s';
  oq_losing_throwing p c : oq_throwing c = false -> oq_losing p c = false;
  oq_call_effect u s o op s' p' :
    oq_step u s (oq_idle o) (oq_call op) = Some (s', p') ->
    oq_content s' = oq_content s /\ oq_pending p' = Some op /\ oq_outcome p' = None /\ oq_done p' = None;
  oq_call_throwing op : oq_throwing (oq_call op) = false;
  oq_effect s u p c s' p' :
    oq_inv s -> pcs s !! u = Some p -> oq_done p = None -> oq_throwing c = false ->
    oq_step u (shared s) p c = Some (s', p') ->
    queue_effect (oq_content (shared s)) (oq_pending p) (oq_outcome p)
                 (oq_content s') (oq_pending p') (oq_outcome p');
  (** a push that throws leaves the queue as it was *)
  oq_threw s u p c s' p' :
    oq_inv s -> pcs s !! u = Some p -> oq_done p = None -> oq_throwing c = true -> oq_losing p c = false ->
    oq_step u (shared s) p c = Some (s', p') ->
    oq_content s' = oq_content (shared s) /\
    (exists op, oq_pending p = Some op /\ is_Some (pushed op)) /\
    oq_pending p' = None /\ oq_outcome p' = Some Threw;
}.

Class QueueProgress {T : Type} (Q : SharedQueue T) {QL : SharedQueueLaws Q} : Type := {
  (** a step a thread takes by itself: not a call, not a spurious wake-up, and not
      an exception *)
  oq_wilful : oq_choice -> bool;
  oq_wilful_throwing c : oq_wilful c = true -> oq_throwing c = false;
  oq_wilful_idle u s o c : oq_wilful c = true -> oq_step u s (oq_idle o) c = None;
  oq_call_enabled u s o op : exists r, oq_step u s (oq_idle o) (oq_call op) = Some r;
  oq_stuck s :
    oq_inv s ->
    (forall u c, oq_wilful c = true -> pool_exec oq_step s (u, c) = None) ->
    forall u p, pcs s !! u = Some p -> oq_done p = None ->
      oq_pending p = Some sq_wait_pop /\ oq_content (shared s) = (false, []);
}.

Definition is_pop {T : Type} (op : operation (V := T)) : bool :=
  match op with sq_wait_pop | sq_try_pop | sq_nonblocking_pop => true | _ => false end.

(** A value leaves the queue after it has been assigned to the caller's variable,
    while it is still the first of the queue. *)
Class QueueAssigns {T : Type} (Q : SharedQueue T) {QL : SharedQueueLaws Q} : Type := {
  (** the value that has been assigned and not removed *)
  oq_assigned : oq_pc -> option T;
  oq_assigning_first s u p t :
    oq_inv s -> pcs s !! u = Some p -> oq_assigning (shared s) p = Some t ->
    (exists b vs, oq_content (shared s) = (b, t :: vs)) /\
    exists op, oq_pending p = Some op /\ is_pop op = true;
  oq_assigned_idle o : oq_assigned (oq_idle o) = None;
  oq_assigned_call u s o op s' p' :
    oq_step u s (oq_idle o) (oq_call op) = Some (s', p') -> oq_assigned p' = None;
  oq_assigned_step u s p c s' p' t :
    oq_done p = None -> oq_step u s p c = Some (s', p') ->
    oq_assigned p' = Some t -> oq_assigning s p = Some t;
  oq_popped u s p c s' p' t :
    oq_done p = None -> oq_throwing c = false -> oq_step u s p c = Some (s', p') ->
    is_Some (oq_pending p) -> oq_pending p' = None -> oq_outcome p' = Some (Popped t) ->
    oq_assigned p = Some t;
}.

(** ** Components that use a queue

    A component has the queue in its state and, in every thread, a place in the
    queue.  If each of its steps is a step of the queue without an exception on the
    way out, or leaves the queue alone, the laws apply to the queue it uses. *)

Section clients.
Context {T : Type} {Q : SharedQueue T} {QL : SharedQueueLaws Q}.
Context {S P C : Type} (queue_of : S -> oq_state) (place : P -> oq_pc) (cstep : nat -> S -> P -> C -> option (S * P)).

Definition client_view (s : pool S P) : pool oq_state oq_pc := Pool (queue_of (shared s)) (place <$> pcs s).

Definition client_moves (u : nat) (s : S) (p : P) (s' : S) (p' : P) : Prop :=
  (queue_of s' = queue_of s /\ place p' = place p) \/
  exists c, oq_losing (place p) c = false /\ oq_step u (queue_of s) (place p) c = Some (queue_of s', place p').

Hypothesis client_steps : forall u s p c s' p', cstep u s p c = Some (s', p') -> client_moves u s p s' p'.

Lemma client_exec (s : pool S P) l s' :
  oq_inv (client_view s) -> oq_window (client_view s) = true -> pool_exec cstep s l = Some s' ->
  oq_window (client_view s') = true -> oq_inv (client_view s').
Proof.
  intros Hi Hw He Hw'. destruct s as [s ps], l as [u ch]. pool_step He. cbn [shared pcs] in *.
  unfold client_view in *. cbn [shared pcs] in *. rewrite list_fmap_insert in *.
  assert ((place <$> ps) !! u = Some (place p)) as Hp' by by rewrite list_lookup_fmap, Hp.
  destruct (client_steps _ _ _ _ _ _ Ht) as [[E1 E2]|(c' & Ec & Hs)].
  - rewrite E1, E2. by rewrite list_insert_id.
  - eapply (oq_inv_step (Pool (queue_of s) (place <$> ps)) u c'); try done; [|by eapply pool_exec_at].
    simpl. intros q. rewrite Hp'. by intros [= <-].
Qed.
End clients.

(** ** synch_queue over any lock *)

Section synch_queue.
Context {T : Type} {L : Lock} {LL : LockLaws L}.

Definition sq_throwing (c : SynchQueue.choice T (L := L)) : bool :=
  match c with SynchQueue.Throw _ => true | _ => false end.

Definition sq_losing (p : SynchQueue.pc T (L := L)) (c : SynchQueue.choice T (L := L)) : bool :=
  match p, c with SynchQueue.Critical _ PopFront, SynchQueue.Throw _ => true | _, _ => false end.

Definition synch_queue_shared : SharedQueue T := {|
  oq_state := queue T (L := L); oq_pc := SynchQueue.pc T (L := L); oq_choice := SynchQueue.choice T (L := L);
  oq_init := synch_queue_init;
  oq_idle := SynchQueue.Idle;
  oq_done p := match p with SynchQueue.Idle o => Some o | _ => None end;
  oq_call := SynchQueue.Call;
  oq_throwing := sq_throwing; oq_losing := sq_losing;
  oq_step := sq_step;
  oq_assigning q p := match p with SynchQueue.Critical _ PopFront => head (SynchQueue.queue_ q) | _ => None end |}.

(** A step that shows an effect is not a throw, or shows one. *)
Lemma entry_threw u (q : queue T (L := L)) p c op r :
  SynchQueue.entry_at u q p c = Some (took op r) -> sq_throwing c = false -> r <> Threw.
Proof.
  intros H Hc. destruct p as [| |op' k| | | |], c; try done; simpl in H; repeat case_match; simplify_eq; done.
Qed.

Lemma spec_step_effect (q q' : bool * list T) op r p p' o o' :
  spec_step q op r q' -> r <> Threw -> p = Some op -> p' = None -> o' = Some r -> queue_effect q p o q' p' o'.
Proof. intros [?|[[? _]|?]] Hr Hp Hp' Ho; [|done|]; eapply qe_took; eauto. Qed.

(** A push that throws, in its critical section. *)
Lemma push_throws u (q : queue T (L := L)) op k junk q' p' :
  SynchQueue.critical_step u q op k (SynchQueue.Throw junk) = Some (q', p') -> of_op op k = true -> k <> PopFront ->
  sq_content q' = sq_content q /\ (exists op', pending (SynchQueue.Critical (L := L) op k) = Some op' /\ is_Some (pushed op')) /\
  pending p' = None /\ outcome_of p' = Some Threw.
Proof.
  intros Hs Ho Hk. destruct k; try done. simpl in Hs. unfold leave in Hs.
  destruct (lock_enter op_unlock); [|done]. injection Hs as <- <-. split_and!; try done.
  exists op. split; [done|]. destruct op; try done; by eexists.
Qed.

Lemma sq_effect (s : pool (queue T (L := L)) (SynchQueue.pc T)) u p c s' p' :
  sq_inv s -> pcs s !! u = Some p -> (forall o, p <> SynchQueue.Idle o) -> sq_throwing c = false ->
  sq_step u (shared s) p c = Some (s', p') ->
  queue_effect (sq_content (shared s)) (pending p) (outcome_of p) (sq_content s') (pending p') (outcome_of p').
Proof.
  intros H Hp Hd Hc Hs. assert (forall op k, p = SynchQueue.Critical op k -> crit_ok (shared s) op k) as Hok
    by (intros op k ->; by apply (si_crit _ H u)).
  pose proof (entry_step _ _ _ _ _ _ Hs Hok) as He.
  destruct (SynchQueue.entry_at u (shared s) p c) as [[op|op r]|] eqn:E.
  - destruct p as [o| |op' k| | | |], c; try done; [by destruct (Hd o)|..]; simpl in E; repeat case_match; done.
  - destruct He as (Hsp & Hpe & Hpe' & Ho). eapply spec_step_effect; eauto using entry_threw.
  - destruct He as (-> & -> & ->). by apply qe_silent.
Qed.
End synch_queue.

#[export] Instance synch_queue_laws {T} {L : Lock} {LL : LockLaws L} : SharedQueueLaws (synch_queue_shared (T := T) (L := L)).
Proof.
  refine {| oq_content := sq_content : @oq_state _ synch_queue_shared -> _;
            oq_pending := pending : @oq_pc _ synch_queue_shared -> _;
            oq_outcome := outcome_of : @oq_pc _ synch_queue_shared -> _;
            oq_window := sq_covered : pool (@oq_state _ synch_queue_shared) (@oq_pc _ synch_queue_shared) -> _;
            oq_inv := sq_inv : pool (@oq_state _ synch_queue_shared) (@oq_pc _ synch_queue_shared) -> _ |}; simpl.
  - intros p o. by destruct p; split; intros; simplify_eq.
  - done.
  - done.
  - intros n. apply sq_inv_start. by exists n.
  - intros s u c s' H Hw _ He Hw'. by eapply sq_inv_step.
  - intros p c Hc. destruct p as [| |op []| | | |], c; done.
  - intros u s o op s' p' Hs. by destruct op; simplify_option_eq.
  - done.
  - intros s u p c s' p' H Hp Hd Hc Hs. apply (sq_effect s u p c); try done. by intros o ->.
  - intros s u p c s' p' H Hp Hd Hc Hl Hs. destruct c; try done. destruct p as [| |op k| | | |]; try done.
    pose proof (si_crit _ H u op k Hp) as [Ho _]. apply (push_throws u _ op k junk); by destruct k.
Defined.

(** *** The assignment of the value that is popped *)

Section assigns.
Context {T : Type} {L : Lock} {LL : LockLaws L}.

Definition assigned_at (k : crit (V := T)) : option T := match k with PopDrop v => Some v | _ => None end.

Definition sq_assigned (p : SynchQueue.pc T (L := L)) : option T :=
  match p with SynchQueue.Critical _ k => assigned_at k | _ => None end.

Lemma critical_assigned u (q : queue T (L := L)) op k c q' op' t :
  SynchQueue.critical_step u q op k c = Some (q', SynchQueue.Critical op' (PopDrop t)) ->
  k = PopFront /\ head (SynchQueue.queue_ q) = Some t.
Proof.
  intros H. destruct k, c; try done; simpl in H; unfold leave in H; repeat case_match; simplify_option_eq; done.
Qed.

Lemma critical_popped u (q : queue T (L := L)) op k c q' p' t :
  SynchQueue.critical_step u q op k c = Some (q', p') -> outcome_of p' = Some (Popped t) -> k = PopDrop t.
Proof.
  intros H Ho. destruct k, c; try done; simpl in H; unfold leave in H; repeat case_match; simplify_option_eq; done.
Qed.

(** Where a step of a method of the lock leads. *)
Lemma lock_call_to u (q : queue T (L := L)) x c again k q' p' :
  SynchQueue.lock_call u q x c again k = Some (q', p') -> (exists y, p' = again y) \/ exists b, p' = k b.
Proof.
  intros H. destruct c; try done. simpl in H. destruct (lock_step _ _ _ _) as [[l [y|b]]|]; [| |done];
    injection H as <- <-; eauto.
Qed.

Lemma pop_point q op : crit_ok (V := T) (L := L) q op PopFront -> is_pop op = true.
Proof. intros [H _]. by destruct op. Qed.
End assigns.

#[export] Instance synch_queue_assigns {T} {L : Lock} {LL : LockLaws L} : QueueAssigns (synch_queue_shared (T := T) (L := L)).
Proof.
  refine {| oq_assigned := sq_assigned : @oq_pc _ synch_queue_shared -> _ |}; simpl.
  - intros s u p t H Hp Ha. destruct p as [| |op []| | | |]; try done. unfold sq_content.
    destruct (SynchQueue.queue_ (shared s)) as [|v vs]; [done|]. injection Ha as ->. split; [eauto|].
    exists op. split; [done|]. by eapply pop_point, (si_crit _ H u).
  - done.
  - intros u s o op s' p' Hs. by destruct op; simplify_option_eq.
  - intros u s p c s' p' t Hd Hs Ha. destruct p as [|op x|op k|r x|x| |x]; [done|..]; simpl in Hs;
      try (apply lock_call_to in Hs as [[y ->]|[b ->]]); try done.
    + by destruct op, b.
    + destruct p' as [| |op' []| | | |]; try done. injection Ha as ->.
      by destruct (critical_assigned u s op k c s' op' t Hs) as [-> ?].
    + repeat case_match; simplify_option_eq; done.
  - intros u s p c s' p' t Hd Hc Hs Hpe Hpe' Ho. destruct p as [|op x|op k|r x|x| |x]; [done|..]; simpl in Hs;
      try (apply lock_call_to in Hs as [[y ->]|[b ->]]); try done; try (by destruct Hpe).
    + by destruct op, b.
    + by rewrite (critical_popped u s op k c s' p' t Hs Ho).
    + repeat case_match; simplify_option_eq; done.
Defined.

(** ** synch_queue in its default configuration *)

Section futex_queue.
Import FutexQueue.
Context {T : Type}.

Local Abbreviation fstate := (pool (FutexQueue.state T) (FutexQueue.pc T)).

Definition fq_throwing (c : FutexQueue.choice T) : bool := match c with Throw _ => true | _ => false end.

Definition fq_losing (p : FutexQueue.pc T) (c : FutexQueue.choice T) : bool :=
  match p, c with Critical _ PopFront, Throw _ => true | _, _ => false end.

Definition futex_queue_shared : SharedQueue T := {|
  oq_state := FutexQueue.state T; oq_pc := FutexQueue.pc T; oq_choice := FutexQueue.choice T;
  oq_init := FutexQueue.init;
  oq_idle := FutexQueue.Idle;
  oq_done p := match p with FutexQueue.Idle o => Some o | _ => None end;
  oq_call := FutexQueue.Call;
  oq_throwing := fq_throwing; oq_losing := fq_losing;
  oq_step := FutexQueue.step;
  oq_assigning q p := match p with FutexQueue.Critical _ PopFront => head (queue_ q) | _ => None end |}.

(** The result of an operation that has taken effect. *)
Definition fq_outcome (p : FutexQueue.pc T) : option (outcome T) :=
  match p with
  | Idle o => o
  | Release r _ => Some r
  | Critical _ PushNotify => Some (Returned success)
  | Critical _ CloseNotify => Some Done
  | Notifying op _ => Some (notified op)
  | _ => None
  end.

Definition fq_content (s : FutexQueue.state T) : bool * list T := (closed_ s, queue_ s).

(** An access to the members takes effect as in [SynchQueue]. *)
Lemma fq_member_effect u (s : FutexQueue.state T) q op k c c' q1 qp p' :
  same_members s q -> crit_ok q op k -> member_choice c = Some c' -> fq_throwing c = false ->
  SynchQueue.critical_step u (members s) op k c' = Some (q1, qp) -> resume qp = Some p' ->
  queue_effect (fq_content s) (fq_pending (Critical op k)) (fq_outcome (Critical op k))
    (fq_content (set_members s q1)) (fq_pending p') (fq_outcome p').
Proof.
  intros (E1 & E2 & _) Hk Hc Ht Hs Hr.
  assert (crit_ok (members s) op k) as Hk'.
  { destruct Hk as [Ho Hk]. split; [done|]. destruct k; simpl in *; by rewrite <- ?E1, <- ?E2. }
  pose proof (entry_step u (members s) (SynchQueue.Critical op k) c' q1 qp Hs) as He.
  assert (sq_throwing c' = false) as Ht' by (destruct c; simplify_eq/=; done).
  assert (pending (SynchQueue.Critical (L := mutex) op k) = fq_pending (Critical op k) /\
    outcome_of (SynchQueue.Critical (L := mutex) op k) = fq_outcome (Critical op k)) as [Ep Eo] by by destruct k.
  assert (pending qp = fq_pending p' /\ outcome_of qp = fq_outcome p') as [Ep' Eo'].
  { apply resume_cv in Hr as [(op' & k' & -> & ->)|(r & x & -> & ->)]; [by destruct k'|done]. }
  change (fq_content s) with (sq_content (members s)).
  change (fq_content (set_members s q1)) with (sq_content q1). rewrite <- Ep, <- Eo, <- Ep', <- Eo'.
  destruct (SynchQueue.entry_at u (members s) (SynchQueue.Critical op k) c') as [[op'|op' r]|] eqn:E.
  - destruct k, c'; try done; simpl in E; repeat case_match; done.
  - destruct He as (Hsp & Hpe & Hpe' & Ho); [by intros ? ? [= <- <-]|]. eapply spec_step_effect; eauto using entry_threw.
  - destruct He as (-> & -> & ->); [by intros ? ? [= <- <-]|]. by apply qe_silent.
Qed.

Lemma fq_push_throws u (s : FutexQueue.state T) op k junk s' p' :
  FutexQueue.critical_step u s op k (Throw junk) = Some (s', p') -> of_op op k = true ->
  fq_losing (Critical op k) (Throw junk) = false ->
  fq_content s' = fq_content s /\ (exists op', fq_pending (Critical op k) = Some op' /\ is_Some (pushed op')) /\
  fq_pending p' = None /\ fq_outcome p' = Some Threw.
Proof.
  intros Hs Ho Hl. assert (k <> PopFront) as Hk by by intros ->.
  apply critical_cases in Hs as [(_ & [=] & _)|(c' & q1 & qp & [= <-] & Hr & -> & Hs & _)].
  destruct (push_throws u (members s) op k junk q1 qp Hs Ho Hk) as (Hc & Hp & Hp' & Hout).
  split; [exact Hc|]. split; [by destruct k|].
  apply resume_cv in Hr as [(op' & k' & -> & ->)|(r & x & -> & ->)]; [by destruct k'|done].
Qed.

Lemma fq_effect es (s : fstate) a u p c s' p' :
  ready es s a -> pcs s !! u = Some p -> (forall o, p <> Idle o) -> fq_throwing c = false ->
  FutexQueue.step u (shared s) p c = Some (s', p') ->
  queue_effect (fq_content (shared s)) (fq_pending p) (fq_outcome p) (fq_content s') (fq_pending p') (fq_outcome p').
Proof.
  intros H Hp Hd Hc Hs. pose proof (rd_rel _ _ _ H) as Hr. destruct p as [o|op x|op k|op p|p|r x].
  - by destruct (Hd o).
  - apply lock_cases in Hs as (c' & l & y & -> & E & -> & ->).
    destruct y as [x'|b]; [by apply qe_silent|]. unfold acquired.
    destruct (acquire_op op) eqn:Eop, b; try (apply qe_silent; by destruct op).
    eapply qe_took; eauto; done.
  - pose proof (r_pc _ _ Hr u _ Hp) as (q & Hq & ->). pose proof (si_crit _ (ready_inv _ _ _ H) u op k Hq) as Hk.
    apply critical_cases in Hs as [(-> & -> & Hk')|(c' & q1 & qp & Hch & Hrs & -> & Hs & _)].
    + destruct Hk' as [[-> ->]|[[-> ->]|[-> ->]]]; apply qe_silent; try done; by destruct op, Hk.
    + eapply (fq_member_effect u (shared s)); eauto. apply (r_members _ _ Hr).
  - apply notify_cases in Hs as [(x & -> & -> & -> & ->)|(c' & k & y & -> & E & -> & ->)]; by apply qe_silent.
  - apply wait_cases in Hs as (c' & k & y & -> & E & -> & ->). apply qe_silent; [done|by destruct y..].
  - apply lock_cases in Hs as (c' & l & y & -> & E & -> & ->). apply qe_silent; [done|by destruct y..].
Qed.

(** No value has thrown. *)
Definition fq_inv (s : fstate) : Prop := (exists es a, ready es s a) /\ g_throws (shared s) = 0%nat.

Lemma fq_inv_start n : fq_inv (Pool FutexQueue.init (replicate n (Idle None))).
Proof. split; [|done]. eexists _, _. apply ready_start. Qed.

Lemma fq_throws_step u (s : FutexQueue.state T) p c s' p' :
  FutexQueue.step u s p c = Some (s', p') -> fq_losing p c = false -> g_throws s' = g_throws s.
Proof.
  intros Hs Hc. destruct p as [o|op x|op k|op p|p|r x].
  - destruct c; try done. simpl in Hs. by simplify_option_eq.
  - by apply lock_cases in Hs as (c' & l & y & -> & E & -> & ->).
  - apply critical_cases in Hs as [(-> & _)|(c' & q1 & qp & Hch & Hrs & -> & Hs & _)]; [done|].
    destruct c; try done; injection Hch as <-; simpl;
      destruct k; try done; simpl in Hs; unfold leave in Hs; repeat case_match; simplify_option_eq; done.
  - apply notify_cases in Hs as [(x & -> & -> & -> & ->)|(c' & k & y & -> & E & -> & ->)]; done.
  - by apply wait_cases in Hs as (c' & k & y & -> & E & -> & ->).
  - by apply lock_cases in Hs as (c' & l & y & -> & E & -> & ->).
Qed.

Lemma fq_inv_step (s : fstate) u c s' :
  fq_inv s -> window s = true -> (forall p, pcs s !! u = Some p -> fq_losing p c = false) ->
  FutexQueue.exec s (u, c) = Some s' -> fq_inv s'.
Proof.
  intros [(es & a & H) Hg] Hw Hc He. split.
  - destruct (ready_step es s a (u, c) s' H Hw He) as [a' H']. eauto.
  - pool_step He. simpl. by rewrite (fq_throws_step _ _ _ _ _ _ Ht (Hc _ Hp)).
Qed.

Lemma fq_stuck (s : fstate) u p :
  fq_inv s -> (forall u c, wilful c = true -> FutexQueue.exec s (u, c) = None) ->
  pcs s !! u = Some p -> (forall o, p <> Idle o) ->
  fq_pending p = Some sq_wait_pop /\ fq_content (shared s) = (false, []).
Proof.
  intros [(es & a & H) Hg] Hs Hp Hd. destruct (ready_stuck es s a H Hs) as (_ & Hall & Hw).
  destruct (Hall u p Hp) as [[o ->]|[-> Hu]]; [by destruct (Hd o)|]. split; [done|].
  destruct Hw as [Hl Hc]; [intros E; rewrite E in Hu; by apply not_elem_of_nil in Hu|].
  unfold fq_content. rewrite Hc. destruct (queue_ (shared s)); [done|]. simpl in Hl. lia.
Qed.
End futex_queue.

#[export] Instance futex_queue_laws {T} : SharedQueueLaws (futex_queue_shared (T := T)).
Proof.
  refine {| oq_content := fq_content : @oq_state _ futex_queue_shared -> _;
            oq_pending := fq_pending : @oq_pc _ futex_queue_shared -> _;
            oq_outcome := fq_outcome : @oq_pc _ futex_queue_shared -> _;
            oq_window := FutexQueue.window : pool (@oq_state _ futex_queue_shared) (@oq_pc _ futex_queue_shared) -> _;
            oq_inv := fq_inv : pool (@oq_state _ futex_queue_shared) (@oq_pc _ futex_queue_shared) -> _ |}; simpl.
  - intros p o. by destruct p; split; intros; simplify_eq.
  - done.
  - done.
  - apply fq_inv_start.
  - intros s u c s' H Hw Hc He _. by eapply fq_inv_step.
  - intros p c Hc. destruct p as [| |op []| | |], c; done.
  - intros u s o op s' p' Hs. by destruct op; simplify_option_eq.
  - done.
  - intros s u p c s' p' [(es & a & H) _] Hp Hd Hc Hs. eapply (fq_effect es s a u p c); try done. by intros o ->.
  - intros s u p c s' p' [(es & a & H) _] Hp Hd Hc Hl Hs. destruct c; try done. destruct p as [| |op k|op []| |]; try done.
    pose proof (r_pc _ _ (rd_rel _ _ _ H) u _ Hp) as (q & Hq & ->).
    pose proof (si_crit _ (ready_inv _ _ _ H) u op k Hq) as [Ho _].
    by apply (fq_push_throws u (shared s) op k junk).
Defined.

#[export] Instance futex_queue_progress {T} : QueueProgress (futex_queue_shared (T := T)).
Proof.
  refine {| oq_wilful := wilful : @oq_choice _ futex_queue_shared -> _ |}; simpl.
  - intros c Hc. by destruct c.
  - intros u s o c Hc. by destruct c.
  - intros u s o op. destruct op; by eexists.
  - intros s H Hs u p Hp Hd. apply (fq_stuck s u p H Hs Hp). by intros o ->.
Defined.

#[export] Instance futex_queue_assigns {T} : QueueAssigns (futex_queue_shared (T := T)).
Proof.
  refine {| oq_assigned := (fun p => match p with FutexQueue.Critical _ k => assigned_at k | _ => None end)
              : @oq_pc _ futex_queue_shared -> _ |}; simpl.
  - intros s u p t [(es & a & H) _] Hp Ha. destruct p as [| |op []| | |]; try done.
    split; [unfold fq_content; destruct (FutexQueue.queue_ (shared s)); [done|]; injection Ha as ->; eauto|].
    exists op. split; [done|]. pose proof (r_pc _ _ (rd_rel _ _ _ H) u _ Hp) as (q & Hq & ->).
    by eapply pop_point, (si_crit _ (ready_inv _ _ _ H) u).
  - done.
  - intros u s o op s' p' Hs. by destruct op; simplify_option_eq.
  - intros u s p c s' p' t Hd Hs Ha. destruct p as [o|op x|op k|op p|p|r x]; [done|..].
    + apply lock_cases in Hs as (c' & l & y & -> & E & -> & ->). destruct y as [|b]; [done|].
      unfold FutexQueue.acquired in Ha. destruct op, b; done.
    + apply critical_cases in Hs as [(-> & -> & Hk')|(c' & q1 & qp & Hch & Hrs & -> & Hs & _)].
      * by destruct Hk' as [[-> ->]|[[-> ->]|[-> ->]]].
      * apply resume_cv in Hrs as [(op' & k' & -> & ->)|(r & x & -> & ->)]; [|done].
        destruct k'; try done. injection Ha as ->. by destruct (critical_assigned _ _ _ _ _ _ _ _ Hs) as [-> ?].
    + apply notify_cases in Hs as [(x & -> & -> & -> & ->)|(c' & k & y & -> & E & -> & ->)]; done.
    + apply wait_cases in Hs as (c' & k & y & -> & E & -> & ->). by destruct y.
    + apply lock_cases in Hs as (c' & l & y & -> & E & -> & ->). by destruct y.
  - intros u s p c s' p' t Hd Hc Hs Hpe Hpe' Ho. destruct p as [o|op x|op k|op p|p|r x]; [done|..].
    + apply lock_cases in Hs as (c' & l & y & -> & E & -> & ->). destruct y as [|b]; [done|].
      unfold FutexQueue.acquired in Ho. destruct op, b; done.
    + apply critical_cases in Hs as [(-> & -> & Hk')|(c' & q1 & qp & Hch & Hrs & -> & Hs & _)].
      * destruct Hk' as [[-> ->]|[[-> ->]|[-> ->]]]; try done; by destruct op.
      * assert (outcome_of qp = Some (Popped t)) as Ho'.
        { rewrite <- Ho. apply resume_cv in Hrs as [(op' & k' & -> & ->)|(r & x & -> & ->)]; [by destruct k'|done]. }
        by rewrite (critical_popped _ _ _ _ _ _ _ _ Hs Ho').
    + by destruct Hpe.
    + apply wait_cases in Hs as (c' & k & y & -> & E & -> & ->). by destruct y.
    + by destruct Hpe.
Defined.
