(* ===== verification/QueueIter.v ===== *)
(** * The queue interface, its wrappers and iterators (evenk/conqueue.h)

    A queue nobody else uses, as an interface: every method takes the object and
    returns it with the result of the call.  The wrapper and the two handles
    forward to it; the iterators pop and push through a pointer that becomes
    null when the queue is closed. *)

From stdpp Require Import prelude.
From S2P Require Import Prelude Conqueue Lock SynchQueue.

(** ** queue_base *)

Class Queue (Q V : Type) : Type := {
  q_close : Q -> Q;
  q_is_closed : Q -> bool;
  q_is_empty : Q -> bool;
  q_is_full : Q -> bool;
  q_is_lock_free : Q -> bool;
  q_push : Q -> V -> Q * result queue_op_status unit;
  q_value_pop : Q -> Q * result queue_op_status V;
  q_wait_push : Q -> V -> Q * result queue_op_status queue_op_status;
  q_wait_pop : Q -> V -> Q * result queue_op_status (queue_op_status * V);
  q_try_push : Q -> V -> Q * result queue_op_status queue_op_status;
  q_try_pop : Q -> V -> Q * result queue_op_status (queue_op_status * V);
  q_nonblocking_push : Q -> V -> Q * result queue_op_status queue_op_status;
  q_nonblocking_pop : Q -> V -> Q * result queue_op_status (queue_op_status * V);
}.

(** ** queue_wrapper *)

Definition queue_wrapper {Q V} (queue_ : Queue Q V) : Queue Q V := {|
  q_close q := q_close q;
  q_is_closed q := q_is_closed q;
  q_is_empty q := q_is_empty q;
  q_is_full q := q_is_full q;
  q_is_lock_free q := q_is_lock_free q;
  q_push q v := q_push q v;
  q_value_pop q := q_value_pop q;
  q_wait_push q v := q_wait_push q v;
  q_wait_pop q v := q_wait_pop q v;
  q_try_push q v := q_try_push q v;
  q_try_pop q v := q_try_pop q v;
  q_nonblocking_push q v := q_nonblocking_push q v;
  q_nonblocking_pop q v := q_nonblocking_pop q v |}.

(** ** What a queue promises to a client that has it to itself

    [content] is the closed flag and the items, [room] whether a push fits. *)

Class QueueLaws (Q V : Type) {OQ : Queue Q V} : Type := {
  content : Q -> bool * list V;
  room : Q -> bool;
  law_close q : content (q_close q) = (true, (content q).2);
  law_is_closed q : q_is_closed q = (content q).1;
  law_wait_push q v vs :
    content q = (false, vs) ->
    if room q then exists q', q_wait_push q v = (q', Ok success) /\ content q' = (false, vs ++ [v])
    else (q_wait_push q v).2 = Blocked;
  law_wait_push_closed q v vs :
    content q = (true, vs) -> exists q', q_wait_push q v = (q', Ok closed) /\ content q' = (true, vs);
  law_wait_pop q w b v vs :
    content q = (b, v :: vs) -> exists q', q_wait_pop q w = (q', Ok (success, v)) /\ content q' = (b, vs);
  law_wait_pop_closed q w :
    content q = (true, []) -> exists q', q_wait_pop q w = (q', Ok (closed, w)) /\ content q' = (true, []);
  law_wait_pop_open q w : content q = (false, []) -> (q_wait_pop q w).2 = Blocked;
}.

Section iterators.
Context {Q V : Type} {OQ : Queue Q V}.

(** A pointer to a queue: the address of the queue, or null. *)
Definition pointer : Type := option nat.

(** A call through a pointer; [q] is the queue it points to. *)
Definition through {A : Type} (queue_ : pointer) (m : Q -> Q * result queue_op_status A) (q : Q) :
    Q * result queue_op_status A :=
  match queue_ with Some _ => m q | None => (q, Undefined) end.

(** ** queue_input_iterator *)

Record input_iterator : Type := InputIterator { in_queue : pointer; in_value : V }.

(** pop_value after wait_pop has returned [st] with [v] in [value_]. *)
Definition pop_returned (it : input_iterator) (st : queue_op_status) (v : V) : input_iterator :=
  InputIterator (if decide (st = closed) then None else in_queue it) v.

Definition pop_value (it : input_iterator) (q : Q) : Q * result queue_op_status input_iterator :=
  let r := through (in_queue it) (fun q => q_wait_pop q (in_value it)) q in
  (r.1, x ← r.2; Ok (pop_returned it x.1 x.2)).

(** The constructor from a queue, with the default value in place, and the
    default constructor. *)
Definition input_begin (addr : nat) (dflt : V) (q : Q) : Q * result queue_op_status input_iterator :=
  pop_value (InputIterator (Some addr) dflt) q.
Definition input_end (dflt : V) : input_iterator := InputIterator None dflt.

Definition input_next (it : input_iterator) (q : Q) : Q * result queue_op_status input_iterator :=
  pop_value it q.

(** Postfix: the copy is returned, the iterator moves on. *)
Definition input_postfix (it : input_iterator) (q : Q) :
    Q * result queue_op_status (input_iterator * input_iterator) :=
  let r := pop_value it q in (r.1, it' ← r.2; Ok (it, it')).

Definition input_deref (it : input_iterator) : V := in_value it.
Definition input_equal (it it' : input_iterator) : bool := bool_decide (in_queue it = in_queue it').
Definition input_differ (it it' : input_iterator) : bool := bool_decide (in_queue it <> in_queue it').

(** ** queue_output_iterator *)

Definition output_iterator : Type := pointer.
Definition output_begin (addr : nat) : output_iterator := Some addr.
Definition output_end : output_iterator := None.

(** Assignment after wait_push has returned [st]: the pointer is reset before the
    exception leaves. *)
Definition push_returned (it : output_iterator) (st : queue_op_status) :
    output_iterator * result queue_op_status unit :=
  if decide (st <> success) then (None, Raise st) else (it, Ok tt).

Definition output_assign (it : output_iterator) (q : Q) (v : V) :
    output_iterator * Q * result queue_op_status unit :=
  let r := through it (fun q => q_wait_push q v) q in
  match r.2 with
  | Ok st => let x := push_returned it st in (x.1, r.1, x.2)
  | Raise e => (it, r.1, Raise e)
  | Undefined => (it, r.1, Undefined)
  | Blocked => (it, r.1, Blocked)
  end.

Definition output_equal (it it' : output_iterator) : bool := bool_decide (it = it').
Definition output_differ (it it' : output_iterator) : bool := bool_decide (it <> it').

(** ** generic_queue_back and generic_queue_front

    The state operations are the same in both.  A handle is its pointer. *)

Definition handle_make (queue : pointer) : pointer := queue.
Definition back_end : output_iterator := output_end.
Definition front_end (dflt : V) : input_iterator := input_end dflt.

Definition back_push (queue_ : pointer) (q : Q) (v : V) := through queue_ (fun q => q_push q v) q.
Definition back_wait_push (queue_ : pointer) (q : Q) (v : V) := through queue_ (fun q => q_wait_push q v) q.
Definition back_try_push (queue_ : pointer) (q : Q) (v : V) := through queue_ (fun q => q_try_push q v) q.
Definition back_nonblocking_push (queue_ : pointer) (q : Q) (v : V) :=
  through queue_ (fun q => q_nonblocking_push q v) q.
Definition handle_close (queue_ : pointer) (q : Q) := through queue_ (fun q => (q_close q, Ok tt)) q.
Definition handle_is_closed (queue_ : pointer) (q : Q) := through queue_ (fun q => (q, Ok (q_is_closed q))) q.
Definition handle_is_empty (queue_ : pointer) (q : Q) := through queue_ (fun q => (q, Ok (q_is_empty q))) q.
Definition handle_is_full (queue_ : pointer) (q : Q) := through queue_ (fun q => (q, Ok (q_is_full q))) q.
Definition handle_is_lock_free (queue_ : pointer) (q : Q) := through queue_ (fun q => (q, Ok (q_is_lock_free q))) q.
Definition handle_has_queue (queue_ : pointer) : bool := bool_decide (queue_ <> None).

Definition front_value_pop (queue_ : pointer) (q : Q) := through queue_ q_value_pop q.
Definition front_wait_pop (queue_ : pointer) (q : Q) (v : V) := through queue_ (fun q => q_wait_pop q v) q.
Definition front_try_pop (queue_ : pointer) (q : Q) (v : V) := through queue_ (fun q => q_try_pop q v) q.
Definition front_nonblocking_pop (queue_ : pointer) (q : Q) (v : V) :=
  through queue_ (fun q => q_nonblocking_pop q v) q.

(** ** Clients of the iterators *)

(** The usual loop over an input iterator: what it visits, up to the end. *)
Fixpoint visit (fuel : nat) (it : input_iterator) (q : Q) :
    option (Q * result queue_op_status (list V)) :=
  match fuel with
  | O => None
  | S fuel =>
      if input_differ it (input_end (in_value it)) then
        let r := input_next it q in
        match r.2 with
        | Ok it' =>
            x ← visit fuel it' r.1;
            Some (x.1, vs ← x.2; Ok (input_deref it :: vs))
        | Raise e => Some (r.1, Raise e)
        | Undefined => Some (r.1, Undefined)
        | Blocked => Some (r.1, Blocked)
        end
      else Some (q, Ok [])
  end.

(** Writing a list through an output iterator. *)
Fixpoint write_all (it : output_iterator) (q : Q) (vs : list V) :
    output_iterator * Q * result queue_op_status unit :=
  match vs with
  | [] => (it, q, Ok tt)
  | v :: vs =>
      match output_assign it q v with
      | (it, q, Ok _) => write_all it q vs
      | r => r
      end
  end.

Context {LQ : QueueLaws Q V}.

Lemma pop_value_item addr q b v vs w :
  content q = (b, v :: vs) ->
  exists q', pop_value (InputIterator (Some addr) w) q = (q', Ok (InputIterator (Some addr) v)) /\ content q' = (b, vs).
Proof.
  intros (q' & Hq & Hc)%(law_wait_pop _ w). exists q'. unfold pop_value, through. simpl. by rewrite Hq.
Qed.

Lemma pop_value_closed addr q w :
  content q = (true, []) ->
  exists q', pop_value (InputIterator (Some addr) w) q = (q', Ok (InputIterator None w)) /\ content q' = (true, []).
Proof.
  intros (q' & Hq & Hc)%(law_wait_pop_closed _ w). exists q'. unfold pop_value, through. simpl. by rewrite Hq.
Qed.

Lemma visit_step addr fuel v q q1 it :
  pop_value (InputIterator (Some addr) v) q = (q1, Ok it) ->
  visit (S fuel) (InputIterator (Some addr) v) q
  = x ← visit fuel it q1; Some (x.1, vs ← x.2; Ok (v :: vs)).
Proof. intros H. cbn -[pop_value]. unfold input_next. by rewrite H. Qed.

(** From an iterator that holds [v], with [vs] left in a closed queue. *)
Lemma visit_closed addr q v vs :
  content q = (true, vs) ->
  exists q', visit (S (S (length vs))) (InputIterator (Some addr) v) q = Some (q', Ok (v :: vs)) /\
    content q' = (true, []).
Proof.
  revert q v. induction vs as [|w vs IH]; intros q v Hc.
  - destruct (pop_value_closed addr q v Hc) as (q' & Hp & Hc'). exists q'. split; [|done].
    by rewrite (visit_step _ _ _ _ _ _ Hp).
  - destruct (pop_value_item addr q true w vs v Hc) as (q1 & Hp & Hc1).
    destruct (IH q1 w Hc1) as (q' & Hv & Hc'). exists q'. split; [|done].
    cbn [length]. by rewrite (visit_step _ _ _ _ _ _ Hp), Hv.
Qed.

Lemma drain addr dflt q vs :
  content q = (true, vs) ->
  exists q1 it q2, input_begin addr dflt q = (q1, Ok it) /\
    visit (S (length vs)) it q1 = Some (q2, Ok vs) /\ content q2 = (true, []).
Proof.
  intros Hc. unfold input_begin. destruct vs as [|v vs].
  - destruct (pop_value_closed addr q dflt Hc) as (q' & Hp & Hc'). by exists q', (InputIterator None dflt), q'.
  - destruct (pop_value_item addr q true v vs dflt Hc) as (q1 & Hp & Hc1).
    destruct (visit_closed addr q1 v vs Hc1) as (q2 & Hv & Hc2). by exists q1, (InputIterator (Some addr) v), q2.
Qed.

Lemma write_all_open addr n q ws vs :
  (forall q', length (content q').2 < n -> room q' = true) ->
  content q = (false, ws) -> length ws + length vs <= n ->
  exists q', write_all (output_begin addr) q vs = (output_begin addr, q', Ok tt) /\ content q' = (false, ws ++ vs).
Proof.
  intros Hroom. revert q ws. induction vs as [|v vs IH]; intros q ws Hc Hn; simpl in *.
  - exists q. by rewrite app_nil_r.
  - pose proof (law_wait_push q v ws Hc) as Hp. rewrite Hroom in Hp by (rewrite Hc; simpl; lia).
    destruct Hp as (q1 & Hp & Hc1). unfold output_assign, through, output_begin. rewrite Hp. simpl.
    destruct (IH q1 (ws ++ [v]) Hc1) as (q2 & Hw & Hc2); [rewrite length_app; simpl; lia|].
    exists q2. by rewrite <- app_assoc in Hc2.
Qed.

(** C27. Through the iterators a queue is a channel for a list: what an output
    iterator writes into an empty open queue that has room for it is, once the
    queue is closed, exactly what an input iterator visits, in the same order,
    and the loop over the input iterator ends. *)
Theorem iterator_roundtrip addr n dflt q vs :
  (forall q', length (content q').2 < n -> room q' = true) ->
  content q = (false, []) -> length vs <= n ->
  exists q1 q2 it q3,
    write_all (output_begin addr) q vs = (output_begin addr, q1, Ok tt) /\
    input_begin addr dflt (q_close q1) = (q2, Ok it) /\
    visit (S (length vs)) it q2 = Some (q3, Ok vs) /\ content q3 = (true, []).
Proof.
  intros Hroom Hc Hn. destruct (write_all_open addr n q [] vs Hroom Hc Hn) as (q1 & Hw & Hc1).
  destruct (drain addr dflt (q_close q1) vs) as (q2 & it & q3 & ?); [by rewrite law_close, Hc1|].
  by exists q1, q2, it, q3.
Qed.

(** Writing through an output iterator to a closed queue raises closed,
    leaves the items alone, and turns the iterator into the end iterator,
    through which a further write is undefined. *)
Theorem output_closed addr q ws v w :
  content q = (true, ws) ->
  exists q', output_assign (output_begin addr) q v = (output_end, q', Raise closed) /\ content q' = (true, ws) /\
    (output_assign output_end q' w).2 = Undefined.
Proof.
  intros (q' & Hp & Hc)%(law_wait_push_closed _ v). exists q'.
  unfold output_assign, through, output_begin. by rewrite Hp.
Qed.
End iterators.

(** ** The lock-based queue behind the interface

    The lock-based queue in the hands of one client is the sequential queue its
    runs are refined to. *)

Section seq_queue.
Context {V : Type}.

Local Abbreviation seq := (bool * list V)%type.

(** One operation: what the call returns. *)
Definition seq_call (q : seq) (op : operation (V := V)) : seq * result queue_op_status (outcome V) :=
  match spec_apply q op with
  | Some (r, q') => (q', Ok r)
  | None => (q, Blocked)
  end.

Definition status_of (r : outcome V) : queue_op_status :=
  match r with Returned st => st | _ => success end.

Definition value_of (dflt : V) (r : outcome V) : V := match r with Popped v => v | _ => dflt end.

Definition seq_push (q : seq) (op : operation (V := V)) : seq * result queue_op_status queue_op_status :=
  let r := seq_call q op in (r.1, o ← r.2; Ok (status_of o)).

Definition seq_pop (q : seq) (op : operation (V := V)) (v : V) :
    seq * result queue_op_status (queue_op_status * V) :=
  let r := seq_call q op in (r.1, o ← r.2; Ok (status_of o, value_of v o)).

Definition seq_flag (q : seq) (op : operation (V := V)) : bool :=
  match (seq_call q op).2 with Ok (Flag b) => b | _ => false end.

(** The throwing operations. *)
Definition thrown {A : Type} (x : queue_op_status + A) : result queue_op_status A :=
  match x with inl st => Raise st | inr a => Ok a end.

#[export] Instance seq_queue (dflt : V) : Queue seq V := {|
  q_close q := (seq_call q sq_close).1;
  q_is_closed q := seq_flag q sq_is_closed;
  q_is_empty q := seq_flag q sq_is_empty;
  q_is_full q := false;
  q_is_lock_free q := sq_is_lock_free;
  q_push q v := let r := seq_push q (sq_push v) in (r.1, st ← r.2; thrown (sq_basic_push st));
  q_value_pop q := let r := seq_pop q sq_wait_pop dflt in (r.1, x ← r.2; thrown (sq_value_pop x.1 x.2));
  q_wait_push q v := seq_push q (sq_push v);
  q_wait_pop q v := seq_pop q sq_wait_pop v;
  q_try_push q v := seq_push q (sq_push v);
  q_try_pop q v := seq_pop q sq_try_pop v;
  q_nonblocking_push q v := seq_push q (sq_nonblocking_push v);
  q_nonblocking_pop q v := seq_pop q sq_nonblocking_pop v |}.

#[export] Instance seq_queue_laws (dflt : V) : @QueueLaws seq V (seq_queue dflt).
Proof.
  refine (@Build_QueueLaws seq V (seq_queue dflt) (fun q => q) (fun _ => true) _ _ _ _ _ _ _).
  - done.
  - done.
  - intros q v vs ->. by eexists.
  - intros q v vs ->. by eexists.
  - intros q w b v vs ->. by eexists.
  - intros q w ->. by eexists.
  - by intros q w ->.
Defined.
End seq_queue.

Lemma iterator_roundtrip_witness :
  exists q1 q2 it q3,
    write_all (OQ := seq_queue 0) (output_begin 5) (false, []) [3; 1; 2] = (output_begin 5, q1, Ok tt) /\
    input_begin (OQ := seq_queue 0) 5 0 (q_close (Queue := seq_queue 0) q1) = (q2, Ok it) /\
    visit (OQ := seq_queue 0) 4 it q2 = Some (q3, Ok [3; 1; 2]) /\
    content (QueueLaws := seq_queue_laws 0) q3 = (true, []).
Proof.
  apply (iterator_roundtrip (LQ := seq_queue_laws 0) 5 3 0 (false, []) [3; 1; 2]); [done|done|simpl; lia].
Defined.

Lemma output_closed_witness :
  exists q', output_assign (OQ := seq_queue 0) (output_begin 5) (true, [7]) 8 = (output_end, q', Raise closed) /\
    content (QueueLaws := seq_queue_laws 0) q' = (true, [7]) /\
    (output_assign (OQ := seq_queue 0) output_end q' 9).2 = Undefined.
Proof. apply (output_closed (LQ := seq_queue_laws 0) 5 (true, [7]) [7] 8 9). done. Defined.
