(* ===== verification/QueueStream.v ===== *)
(** * Iterators used by several threads (evenk/conqueue.h over a concurrent queue)

    Any number of threads with input and output iterators over one queue of the
    interface [SharedQueue]: output iterators write values into it, input
    iterators visit them, and any thread may close the queue, which is at [addr].  The operations of
    the queue are made of steps that interleave.  Values are copied and moved
    without exceptions. *)

From stdpp Require Import prelude functions.
From S2P Require Import Prelude Conqueue Lock SynchQueue SharedQueue QueueIter.
Local Open Scope Z_scope.

Module QueueStream.
Section stream.
Context {T : Type} {Q : SharedQueue T} {QL : SharedQueueLaws Q} (dflt : T) (addr : nat).

Record state : Type := State {
  queue : oq_state;
  g_in : list (nat * T);      (* history: the pushes and pops, as they take effect *)
  g_out : list (nat * T);
  written : list (nat * T);   (* history: what has been written and visited, and by whom *)
  visited : list (nat * T);
}.

(** Where a thread is, with [x] for the queue: without an iterator, with one, or
    in an operation. *)
Inductive pc : Type :=
| Out (x : oq_pc)
| Reading (it : input_iterator (V := T)) (x : oq_pc)
| Popping (it : input_iterator (V := T)) (x : oq_pc)    (* in pop_value *)
| Writing (it : output_iterator) (e : option queue_op_status) (x : oq_pc)  (* [e]: the exception of the last write *)
| Pushing (it : output_iterator) (v : T) (x : oq_pc)    (* in operator= *)
| Closing (x : oq_pc)
| Crashed (x : oq_pc).                                  (* called through a null pointer *)

Inductive choice : Type :=
| MakeInput | Next | MakeOutput | Write (v : T) | Drop | Close
| InQueue (c : oq_choice).

Definition at_queue (p : pc) : oq_pc :=
  match p with
  | Out x | Reading _ x | Popping _ x | Writing _ _ x | Pushing _ _ x | Closing x | Crashed x => x
  end.

(** The call of an operation of the queue. *)
Definition call (u : nat) (s : state) (x : oq_pc) (op : operation) (k : oq_pc -> pc) : option (state * pc) :=
  y ← oq_step u (queue s) x (oq_call op);
  Some (State y.1 (g_in s) (g_out s) (written s) (visited s), k y.2).

(** History: an operation that takes effect. *)
Definition note (u : nat) (s : state) (q : oq_state) (x y : oq_pc) : state :=
  match oq_pending x, oq_pending y, oq_outcome y with
  | Some (sq_push v), None, Some (Returned success) => State q (g_in s ++ [(u, v)]) (g_out s) (written s) (visited s)
  | Some _, None, Some (Popped v) => State q (g_in s) (g_out s ++ [(u, v)]) (written s) (visited s)
  | _, _, _ => State q (g_in s) (g_out s) (written s) (visited s)
  end.

Definition add_visited (s : state) (u : nat) (v : T) : state :=
  State (queue s) (g_in s) (g_out s) (written s) (visited s ++ [(u, v)]).
Definition add_written (s : state) (u : nat) (v : T) : state :=
  State (queue s) (g_in s) (g_out s) (written s ++ [(u, v)]) (visited s).

(** What the iterator does when the operation has returned. *)
Definition returned (u : nat) (s : state) (p : pc) (x : oq_pc) (r : outcome T) : option (state * pc) :=
  match p, r with
  | Popping it _, Popped v => Some (add_visited s u v, Reading (pop_returned it success v) x)
  | Popping it _, Returned st => Some (s, Reading (pop_returned it st (in_value it)) x)
  | Pushing it v _, Returned st =>
      match push_returned it st with
      | (it, Ok _) => Some (add_written s u v, Writing it None x)
      | (it, Raise e) => Some (s, Writing it (Some e) x)
      | _ => None
      end
  | Closing _, Done => Some (s, Out x)
  | _, _ => None
  end.

Definition with_queue (p : pc) (x : oq_pc) : pc :=
  match p with
  | Out _ => Out x
  | Reading it _ => Reading it x
  | Popping it _ => Popping it x
  | Writing it e _ => Writing it e x
  | Pushing it v _ => Pushing it v x
  | Closing _ => Closing x
  | Crashed _ => Crashed x
  end.

(** A step inside an operation of the queue. *)
Definition queue_step (u : nat) (s : state) (p : pc) (c : oq_choice) : option (state * pc) :=
  match oq_done (at_queue p) with
  | Some _ => None
  | None =>
      if oq_throwing c then None
      else y ← oq_step u (queue s) (at_queue p) c;
           let s' := note u s y.1 (at_queue p) y.2 in
           match oq_done y.2 with
           | Some (Some r) => returned u s' p y.2 r
           | _ => Some (s', with_queue p y.2)
           end
  end.

(** The constructors and operators of the iterators, and close. *)
Definition client_step (u : nat) (s : state) (p : pc) (c : choice) : option (state * pc) :=
  match p, c with
  | Out x, MakeInput => call u s x sq_wait_pop (Popping (InputIterator (Some addr) dflt))
  | Reading it x, Next =>
      match in_queue it with Some _ => call u s x sq_wait_pop (Popping it) | None => Some (s, Crashed x) end
  | Out x, MakeOutput => Some (s, Writing (output_begin addr) None x)
  | Writing it _ x, Write v =>
      match it with Some _ => call u s x (sq_push v) (Pushing it v) | None => Some (s, Crashed x) end
  | (Reading _ x | Writing _ _ x), Drop => Some (s, Out x)
  | Out x, Close => call u s x sq_close Closing
  | _, _ => None
  end.

Definition step (u : nat) (s : state) (p : pc) (c : choice) : option (state * pc) :=
  match c with
  | InQueue c => queue_step u s p c
  | _ => match oq_done (at_queue p) with Some _ => client_step u s p c | None => None end
  end.

Definition exec : pool state pc -> nat * choice -> option (pool state pc) := pool_exec step.

Definition init : state := State oq_init [] [] [] [].

Definition start (s : pool state pc) : Prop := exists n, s = Pool init (replicate n (Out (oq_idle None))).

(** The threads as the queue sees them. *)
Definition queue_view : pool state pc -> pool oq_state oq_pc := client_view queue at_queue.
End stream.

Arguments state T {Q}.
Arguments pc T {Q}.
Arguments choice T {Q}.
End QueueStream.

Section theorems.
Import QueueStream.
Context {T : Type} {Q : SharedQueue T} {QL : SharedQueueLaws Q} (dflt : T) (addr : nat).

Local Abbreviation state := (QueueStream.state T).
Local Abbreviation pc := (QueueStream.pc T).
Local Abbreviation pstate := (pool state pc).

Definition qs_reached : pstate -> Prop :=
  reachable_in (QueueStream.exec dflt addr) QueueStream.start (fun s => oq_window (queue_view s) = true).

(** What thread [u] has in a history. *)
Definition by_thread (u : nat) (l : list (nat * T)) : list T := (filter (fun x => x.1 = u) l).*2.

(** A value whose operation has taken effect and has not returned. *)
Definition landed (p : pc) : list T :=
  match p with
  | Pushing _ v x => match oq_pending x, oq_outcome x with None, Some (Returned success) => [v] | _, _ => [] end
  | _ => []
  end.
Definition fetched (p : pc) : list T :=
  match p with
  | Popping _ x => match oq_pending x, oq_outcome x with None, Some (Popped v) => [v] | _, _ => [] end
  | _ => []
  end.

(** Where a thread can be. *)
Definition placed (content : bool * list T) (p : pc) : Prop :=
  match p with
  | Popping it x =>
      is_Some (in_queue it) /\
      match oq_pending x, oq_outcome x with
      | Some op, _ => op = sq_wait_pop
      | None, Some (Popped _) => True
      | None, Some (Returned st) => st = closed /\ content = (true, [])
      | None, _ => False
      end
  | Pushing it v x =>
      is_Some it /\
      match oq_pending x, oq_outcome x with
      | Some op, _ => op = sq_push v
      | None, Some (Returned st) => st = success \/ st = closed
      | None, _ => False
      end
  | Closing x => match oq_pending x with Some op => op = sq_close | None => oq_outcome x = Some Done end
  | Reading it x => (exists o, x = oq_idle o) /\ (in_queue it = None -> content = (true, []))
  | Out x | Writing _ _ x | Crashed x => exists o, x = oq_idle o
  end.

Definition at_thread (ps : list pc) (u : nat) : pc := default (Out (oq_idle None)) (ps !! u).

Record stream_ok (s : pstate) : Prop := {
  so_queue : (g_in (shared s)).*2 = (g_out (shared s)).*2 ++ (oq_content (queue (shared s))).2;
  so_in u : by_thread u (g_in (shared s)) = by_thread u (written (shared s)) ++ landed (at_thread (pcs s) u);
  so_out u : by_thread u (g_out (shared s)) = by_thread u (visited (shared s)) ++ fetched (at_thread (pcs s) u);
  so_placed u p : pcs s !! u = Some p -> placed (oq_content (queue (shared s))) p;
}.

(** The share of a thread. *)
Definition by_one (u : nat) (l : list T) : list (nat * T) := (fun x => (u, x)) <$> l.

Lemma by_thread_add v u l i :
  by_thread v (l ++ by_one u i) = by_thread v l ++ (if decide (v = u) then i else []).
Proof.
  unfold by_thread, by_one. rewrite filter_app, fmap_app. f_equal. induction i as [|x i IH]; [by case_decide|].
  cbn [fmap list_fmap]. rewrite filter_cons. cbn [fst]. case_decide as E.
  - rewrite decide_True in * by done. cbn. by rewrite IH.
  - rewrite decide_False in * by done. done.
Qed.

Lemma by_one_values u l : (by_one u l).*2 = l.
Proof. unfold by_one. rewrite <- list_fmap_compose. apply list_fmap_id. Qed.

Lemma at_thread_insert ps u v p :
  (u < length ps)%nat -> at_thread (<[u := p]> ps) v = if decide (v = u) then p else at_thread ps v.
Proof.
  intros Hu. unfold at_thread. case_decide as E; [subst; by rewrite list_lookup_insert_eq|].
  by rewrite list_lookup_insert_ne.
Qed.

(** One thread goes from [p] to [p'] and the histories grow by its share. *)
Lemma ok_move s ps u p s' p' (i o w v : list T) :
  stream_ok (Pool s ps) -> ps !! u = Some p ->
  g_in s' = g_in s ++ by_one u i -> g_out s' = g_out s ++ by_one u o ->
  written s' = written s ++ by_one u w -> visited s' = visited s ++ by_one u v ->
  (oq_content (queue s)).2 ++ i = o ++ (oq_content (queue s')).2 ->
  landed p ++ i = w ++ landed p' -> fetched p ++ o = v ++ fetched p' ->
  (oq_content (queue s) = (true, []) -> oq_content (queue s') = (true, [])) ->
  placed (oq_content (queue s')) p' ->
  stream_ok (Pool s' (<[u := p']> ps)).
Proof.
  intros [H1 H2 H3 H4] Hp Ei Eo Ew Ev Hc Hl Hf Hst Hpl. cbn [shared pcs] in *.
  assert (u < length ps)%nat as Hu by by eapply lookup_lt_Some.
  assert (at_thread ps u = p) as Hat by (unfold at_thread; by rewrite Hp).
  split; cbn [shared pcs].
  - rewrite Ei, Eo, !fmap_app, !by_one_values, H1, <- !app_assoc. by f_equal.
  - intros x. rewrite Ei, Ew, !by_thread_add, at_thread_insert, H2 by done. case_decide as E.
    + subst x. rewrite Hat, <- !app_assoc. by f_equal.
    + by rewrite !app_nil_r.
  - intros x. rewrite Eo, Ev, !by_thread_add, at_thread_insert, H3 by done. case_decide as E.
    + subst x. rewrite Hat, <- !app_assoc. by f_equal.
    + by rewrite !app_nil_r.
  - intros x q [(-> & -> & _)|[_ Hq]]%insert_lookup_cases; [done|]. specialize (H4 x q Hq).
    destruct q; simpl in *; try done.
    + destruct H4. auto.
    + destruct H4 as [? H4]. split; [done|]. destruct (oq_pending x0), (oq_outcome x0) as [[]|]; try done.
      destruct H4. auto.
Qed.

Definition busy (p : pc) : bool :=
  match p with Popping _ _ | Pushing _ _ _ | Closing _ => true | _ => false end.

Lemma placed_busy c p : placed c p -> oq_done (at_queue p) = None -> busy p = true.
Proof.
  assert (forall x : oq_pc, (exists o, x = oq_idle o) -> oq_done x <> None) as Hidle.
  { intros x [o ->]. by rewrite (proj2 (oq_done_idle _ o) eq_refl). }
  intros Hp Hd. destruct p; try done; simpl in *; exfalso; eapply Hidle; try done. by destruct Hp.
Qed.

Lemma note_silent u s q x y :
  oq_pending y = oq_pending x -> note u s q x y = QueueStream.State q (g_in s) (g_out s) (written s) (visited s).
Proof. intros E. unfold note. rewrite E. by destruct (oq_pending x) as [[]|]. Qed.

(** The operation a thread is in takes effect. *)
Lemma ok_took s ps u p q' y op r :
  stream_ok (Pool s ps) -> ps !! u = Some p -> busy p = true ->
  (oq_content (queue s) = (true, []) -> oq_content q' = (true, [])) ->
  oq_pending (at_queue p) = Some op -> oq_pending y = None -> oq_outcome y = Some r ->
  (acquire_op op = op_try_lock /\ r = Returned Conqueue.busy /\ oq_content q' = oq_content (queue s)) \/
    spec_apply (oq_content (queue s)) op = Some (r, oq_content q') ->
  stream_ok (Pool (note u s q' (at_queue p) y) (<[u := with_queue p y]> ps)).
Proof.
  intros H Hp Hb Hst Ep Ep' Eo Hsp. pose proof (so_placed _ H u p Hp) as Hpl. unfold note. rewrite Ep, Ep', Eo.
  destruct (oq_content (queue s)) as [b vs] eqn:Ec.
  destruct p as [|?|it x| |it v x|x|]; try done; simpl in Hpl, Ep; rewrite Ep in Hpl.
  - destruct Hpl as [Hit ->]. destruct Hsp as [[[=] _]|Hsp]. simpl in Hsp.
    destruct vs as [|v vs]; [destruct b; [|done]|]; injection Hsp as <- Hc.
    + apply (ok_move s ps u (Popping it x) _ _ [] [] [] []); try done; simpl;
        by rewrite ?Ep, ?Ep', ?Eo, ?Ec, <- ?Hc, ?app_nil_r.
    + apply (ok_move s ps u (Popping it x) _ _ [] [v] [] []); try done; simpl;
        by rewrite ?Ep, ?Ep', ?Eo, ?Ec, <- ?Hc, ?app_nil_r.
  - destruct Hpl as [Hit ->]. destruct Hsp as [[[=] _]|Hsp]. simpl in Hsp. destruct b; injection Hsp as <- Hc.
    + apply (ok_move s ps u (Pushing it v x) _ _ [] [] [] []); try done; simpl;
        rewrite ?Ep, ?Ep', ?Eo, ?Ec, <- ?Hc, ?app_nil_r; try done; auto.
    + apply (ok_move s ps u (Pushing it v x) _ _ [v] [] [] []); try done; simpl;
        rewrite ?Ep, ?Ep', ?Eo, ?Ec, <- ?Hc, ?app_nil_r; try done; auto.
  - subst op. destruct Hsp as [[[=] _]|Hsp]. simpl in Hsp. injection Hsp as <- Hc.
    apply (ok_move s ps u (Closing x) _ _ [] [] [] []); try done; simpl;
      rewrite ?Ep, ?Ep', ?Eo, ?Ec, <- ?Hc, ?app_nil_r; try done. by intros [= -> ->].
Qed.

(** A step inside the queue: the operation takes effect, or does not. *)
Lemma ok_effect s ps u p q' y :
  stream_ok (Pool s ps) -> ps !! u = Some p -> busy p = true ->
  queue_effect (oq_content (queue s)) (oq_pending (at_queue p)) (oq_outcome (at_queue p))
               (oq_content q') (oq_pending y) (oq_outcome y) ->
  stream_ok (Pool (note u s q' (at_queue p) y) (<[u := with_queue p y]> ps)).
Proof.
  intros H Hp Hb Hq. pose proof (so_placed _ H u p Hp) as Hpl.
  assert (oq_content (queue s) = (true, []) -> oq_content q' = (true, [])) as Hst.
  { intros E. rewrite E in Hq. by apply closed_stays in Hq. }
  destruct Hq as [Ec Ep Eo|op r Ep Ep' Eo Hsp]; [|by eapply ok_took].
  rewrite note_silent by done. apply (ok_move s ps u p _ _ [] [] [] []); try done; simpl; rewrite ?app_nil_r; try done.
  - by rewrite Ec.
  - destruct p; simpl in *; by rewrite ?Ep, ?Eo.
  - destruct p; simpl in *; by rewrite ?Ep, ?Eo.
  - destruct p; try done; simpl in *; by rewrite ?Ep, ?Eo, ?Ec.
Qed.

(** The operation returns. *)
Lemma ok_return s ps u p r s' p' :
  stream_ok (Pool s (<[u := with_queue p (oq_idle (Some r))]> ps)) -> (u < length ps)%nat ->
  returned u s p (oq_idle (Some r)) r = Some (s', p') -> stream_ok (Pool s' (<[u := p']> ps)).
Proof.
  intros H Hu Hr. set (p1 := with_queue p (oq_idle (Some r))) in *. destruct (oq_idle_clear (Some r)) as [Ep Eo].
  assert (<[u := p1]> ps !! u = Some p1) as Hp by by apply list_lookup_insert_eq.
  pose proof (so_placed _ H u p1 Hp) as Hpl. rewrite <- (list_insert_insert_eq ps u p' p1).
  destruct p as [|?|it x| |it v x|x|]; try done; simpl in p1, Hpl, Hr; rewrite Ep, Eo in Hpl.
  - destruct Hpl as [Hit Hr']. destruct r as [st|v| | |]; try done.
    + destruct Hr' as [-> Hc]. injection Hr as <- <-.
      apply (ok_move s _ u p1 _ _ [] [] [] []); try done; simpl; rewrite ?Ep, ?Eo, ?app_nil_r; eauto.
    + injection Hr as <- <-.
      apply (ok_move s _ u p1 _ _ [] [] [] [v]); try done; simpl; rewrite ?Ep, ?Eo, ?app_nil_r; eauto.
      split; [eauto|]. destruct Hit as [? Hit]. by rewrite Hit.
  - destruct Hpl as [Hit Hr']. destruct r as [st|w| | |]; try done. destruct Hr' as [-> | ->]; simpl in Hr; injection Hr as <- <-.
    + apply (ok_move s _ u p1 _ _ [] [] [v] []); try done; simpl; rewrite ?Ep, ?Eo, ?app_nil_r; eauto.
    + apply (ok_move s _ u p1 _ _ [] [] [] []); try done; simpl; rewrite ?Ep, ?Eo, ?app_nil_r; eauto.
  - injection Hpl as ->. injection Hr as <- <-.
    apply (ok_move s _ u p1 _ _ [] [] [] []); try done; simpl; rewrite ?app_nil_r; eauto.
Qed.

Lemma ok_queue_step s ps u p c s' p' :
  stream_ok (Pool s ps) -> oq_inv (queue_view (Pool s ps)) -> ps !! u = Some p ->
  queue_step u s p c = Some (s', p') -> stream_ok (Pool s' (<[u := p']> ps)).
Proof.
  intros H Hi Hp Hs. unfold queue_step in Hs. destruct (oq_done (at_queue p)) as [|] eqn:Ed; [done|].
  destruct (oq_throwing c) eqn:Et; [done|].
  destruct (oq_step u (queue s) (at_queue p) c) as [[q' y]|] eqn:Es; [|done]. simpl in Hs.
  assert (stream_ok (Pool (note u s q' (at_queue p) y) (<[u := with_queue p y]> ps))) as H1.
  { apply ok_effect; try done; [by eapply placed_busy; [apply (so_placed _ H u)|]|].
    apply (oq_effect (queue_view (Pool s ps)) u (at_queue p) c q' y); try done.
    simpl. by rewrite list_lookup_fmap, Hp. }
  destruct (oq_done y) as [[r|]|] eqn:Ey; try (injection Hs as <- <-; done).
  apply oq_done_idle in Ey as ->. eapply ok_return; try done. by eapply lookup_lt_Some.
Qed.

Lemma ok_call s ps u p op k s' p' :
  stream_ok (Pool s ps) -> ps !! u = Some p -> (exists o, at_queue p = oq_idle o) -> busy p = false ->
  call u s (at_queue p) op k = Some (s', p') ->
  (forall x, oq_pending x = Some op -> landed (k x) = [] /\ fetched (k x) = [] /\ forall c, placed c (k x)) ->
  stream_ok (Pool s' (<[u := p']> ps)).
Proof.
  intros H Hp [o Ho] Hb Hc Hk. unfold call in Hc.
  destruct (oq_step u (queue s) (at_queue p) (oq_call op)) as [[q' y]|] eqn:Es; [|done]. injection Hc as <- <-.
  rewrite Ho in Es. destruct (oq_call_effect _ _ _ _ _ _ Es) as (Ec & Ep & _). destruct (Hk y Ep) as (E1 & E2 & E3).
  apply (ok_move s ps u p _ _ [] [] [] []); try done; simpl; rewrite ?app_nil_r, ?Ec, ?E1, ?E2; try done; by destruct p.
Qed.

Lemma ok_client_step s ps u p c s' p' :
  stream_ok (Pool s ps) -> ps !! u = Some p -> oq_done (at_queue p) <> None ->
  client_step dflt addr u s p c = Some (s', p') -> stream_ok (Pool s' (<[u := p']> ps)).
Proof.
  intros H Hp Hd Hs. destruct (oq_done (at_queue p)) as [o|] eqn:Ed; [|done]. apply oq_done_idle in Ed.
  assert (forall q, busy p = false -> busy q = false -> (s', p') = (s, q) -> at_queue q = at_queue p ->
    (forall it x, q <> Reading it x) -> stream_ok (Pool s' (<[u := p']> ps))) as Hstay.
  { intros q Hb Hq [= -> ->] Ea Hne. apply (ok_move s ps u p _ _ [] [] [] []); try done; rewrite ?app_nil_r; try done.
    - by destruct p, q.
    - by destruct p, q.
    - destruct q; simpl in *; try done; eauto; try (by eexists; rewrite Ea). by destruct (Hne it x). }
  assert (forall op k, busy p = false -> call u s (at_queue p) op k = Some (s', p') ->
    (forall x, oq_pending x = Some op -> landed (k x) = [] /\ fetched (k x) = [] /\ forall c, placed c (k x)) ->
    stream_ok (Pool s' (<[u := p']> ps))) as Hcall by (intros op k Hb Hc Hk; by eapply ok_call; eauto).
  destruct p as [x|it x| |it e x| | |], c; try done; simpl in Hs.
  - eapply Hcall; [done|exact Hs|]. intros y E. simpl. by rewrite E.
  - injection Hs as <- <-. by apply (Hstay (Writing (output_begin addr) None x)).
  - eapply Hcall; [done|exact Hs|]. intros y E. simpl. by rewrite E.
  - destruct (in_queue it) eqn:Ei; [|injection Hs as <- <-; by apply (Hstay (Crashed x))].
    eapply Hcall; [done|exact Hs|]. intros y E. simpl. by rewrite E.
  - injection Hs as <- <-. by apply (Hstay (Out x)).
  - destruct it; [|injection Hs as <- <-; by apply (Hstay (Crashed x))].
    eapply Hcall; [done|exact Hs|]. intros y E. simpl. by rewrite E.
  - injection Hs as <- <-. by apply (Hstay (Out x)).
Qed.

Lemma call_view u s x op k s' p' :
  call u s x op k = Some (s', p') -> (forall y, at_queue (k y) = y) ->
  exists c, oq_losing x c = false /\ oq_step u (queue s) x c = Some (queue s', at_queue p').
Proof.
  intros Hc Hk. exists (oq_call op). split; [apply oq_losing_throwing, oq_call_throwing|]. unfold call in Hc.
  destruct (oq_step u (queue s) x (oq_call op)) as [[q' y]|]; [|done]. injection Hc as <- <-. by rewrite Hk.
Qed.

Lemma note_queue u s q x y : queue (note u s q x y) = q.
Proof. unfold note. by repeat case_match. Qed.

Lemma stream_view u s p c s' p' :
  QueueStream.step dflt addr u s p c = Some (s', p') -> client_moves queue at_queue u s p s' p'.
Proof.
  intros Hs. assert (forall c, client_step dflt addr u s p c = Some (s', p') -> client_moves queue at_queue u s p s' p') as Hc.
  { intros c' Hc. destruct p, c'; try done; simpl in Hc; try (right; by eapply call_view).
    all: try (left; by injection Hc as <- <-).
    - destruct (in_queue it); [right; by eapply call_view|left; by injection Hc as <- <-].
    - destruct it; [right; by eapply call_view|left; by injection Hc as <- <-]. }
  destruct c as [| | | | | |c]; simpl in Hs; try (destruct (oq_done (at_queue p)); [by eapply Hc|done]).
  right. unfold queue_step in Hs. destruct (oq_done (at_queue p)); [done|]. destruct (oq_throwing c) eqn:Et; [done|].
  exists c. split; [by apply oq_losing_throwing|]. destruct (oq_step u (queue s) (at_queue p) c) as [[q' y]|]; [|done]. simpl in Hs.
  pose proof (note_queue u s q' (at_queue p) y) as Hq. remember (note u s q' (at_queue p) y) as s1 eqn:E. clear E.
  destruct (oq_done y) as [[r|]|]; [|injection Hs as <- <-; rewrite Hq; by destruct p..].
  destruct p; try done; destruct r; try done; simpl in Hs; unfold push_returned in Hs; repeat case_decide;
    injection Hs as <- <-; simpl; by rewrite Hq.
Qed.

Lemma stream_reached s : qs_reached s -> oq_inv (queue_view s) /\ stream_ok s.
Proof.
  apply (invariant_in_reachable _ _ _ (fun s => oq_inv (queue_view s) /\ stream_ok s)). split.
  - intros ? [n ->] _. unfold queue_view, client_view. simpl. rewrite fmap_replicate. split; [apply oq_inv_start|].
    assert (forall u, at_thread (replicate n (Out (oq_idle None))) u = Out (oq_idle None)) as Hat.
    { intros u. unfold at_thread. destruct (replicate _ _ !! u) eqn:E; [|done]. by apply lookup_replicate in E as [-> _]. }
    split; simpl; try (intros u; by rewrite Hat); [by rewrite oq_content_init|].
    intros u p Hp. apply lookup_replicate in Hp as [-> _]. simpl. eauto.
  - intros s0 l s1 Hw [Hi H] He Hw'. split.
    + eapply (client_exec queue at_queue (QueueStream.step dflt addr)); eauto using stream_view.
    + destruct s0 as [s0 ps], l as [u c]. pool_step He. cbn [shared pcs] in *.
      destruct c; simpl in Ht; try by eapply ok_queue_step.
      all: destruct (oq_done (at_queue p)) eqn:Ed; [|done]; eapply ok_client_step; eauto; by rewrite Ed.
Qed.

(** C17. Iterators over one queue pass every value on exactly once and in order,
    whatever the threads do: the values visited, in the order of the pops, are
    the first ones of those written, in the order of the pushes, and the queue
    holds the rest; and every thread's values are written and visited in the
    order of its own writes and visits, up to the one it is at. *)
Theorem stream_delivers s :
  qs_reached s ->
  (g_in (shared s)).*2 = (g_out (shared s)).*2 ++ (oq_content (queue (shared s))).2 /\
  forall u,
    by_thread u (g_in (shared s)) = by_thread u (written (shared s)) ++ landed (at_thread (pcs s) u) /\
    by_thread u (g_out (shared s)) = by_thread u (visited (shared s)) ++ fetched (at_thread (pcs s) u).
Proof. intros [_ [H1 H2 H3 _]]%stream_reached. auto. Qed.

Lemma by_thread_cons u v x l : by_thread u ((v, x) :: l) = (if decide (v = u) then [x] else []) ++ by_thread u l.
Proof. unfold by_thread. rewrite filter_cons. simpl. by case_decide. Qed.

Lemma by_thread_app u l k : by_thread u (l ++ k) = by_thread u l ++ by_thread u k.
Proof. unfold by_thread. by rewrite filter_app, fmap_app. Qed.

(** The first value of a thread. *)
Lemma by_thread_first u x l k :
  by_thread u l = x :: k -> exists a b, l = a ++ (u, x) :: b /\ by_thread u a = [].
Proof.
  induction l as [|[v y] l IH]; [done|]. rewrite by_thread_cons. case_decide as E; simpl.
  - intros [= -> _]. subst v. by exists [], l.
  - intros (a & b & -> & Ha)%IH. exists ((v, y) :: a), b. split; [done|].
    rewrite by_thread_cons, decide_False by done. done.
Qed.

(** Histories in which every thread has the same values are permutations. *)
Lemma by_thread_perm l l' : (forall u, by_thread u l = by_thread u l') -> l ≡ₚ l'.
Proof.
  revert l'. induction l as [|[u x] l IH]; intros l' H.
  - destruct l' as [|[u x] l']; [done|]. specialize (H u). rewrite by_thread_cons, decide_True in H; done.
  - pose proof (H u) as Hu. rewrite by_thread_cons, decide_True in Hu by done. symmetry in Hu.
    destruct (by_thread_first u x l' _ Hu) as (a & b & -> & Ha). rewrite <- Permutation_middle. constructor. apply IH.
    intros v. specialize (H v). rewrite by_thread_app, !by_thread_cons in *. case_decide as E; [|done].
    subst v. rewrite Ha in *. by injection H.
Qed.

(** C23. A stream comes to its end: once an input iterator has become equal to the
    end iterator and no thread is inside an operation, the values visited by all
    threads are exactly the values written by all threads. *)
Theorem stream_complete s u it x :
  qs_reached s -> pcs s !! u = Some (Reading it x) -> input_equal it (input_end dflt) = true ->
  (forall v p, pcs s !! v = Some p -> busy p = false) ->
  (visited (shared s)).*2 ≡ₚ (written (shared s)).*2 /\ oq_content (queue (shared s)) = (true, []).
Proof.
  intros [_ [H1 H2 H3 H4]]%stream_reached Hu Hit Hb. destruct (H4 u _ Hu) as [_ Hc].
  specialize (Hc ltac:(by apply bool_decide_eq_true in Hit)). split; [|done].
  assert (forall v, landed (at_thread (pcs s) v) = [] /\ fetched (at_thread (pcs s) v) = []) as He.
  { intros v. unfold at_thread. destruct (pcs s !! v) as [p|] eqn:E; [|done]. specialize (Hb v p E). by destruct p. }
  rewrite Hc, app_nil_r in H1.
  assert (g_in (shared s) ≡ₚ written (shared s)) as <-.
  { apply by_thread_perm. intros v. by rewrite H2, (proj1 (He v)), app_nil_r. }
  assert (g_out (shared s) ≡ₚ visited (shared s)) as <-; [|by rewrite H1].
  apply by_thread_perm. intros v. by rewrite H3, (proj2 (He v)), app_nil_r.
Qed.

(** An operation that returns lets its caller go on. *)
Lemma returned_some u s p r c :
  placed c (with_queue p (oq_idle (Some r))) -> busy p = true -> is_Some (returned u s p (oq_idle (Some r)) r).
Proof.
  destruct (oq_idle_clear (Some r)) as [Ep Eo]. intros H Hb. destruct p; try done; simpl in *; rewrite Ep, Eo in H.
  - destruct H as [_ H], r; try done; by eexists.
  - destruct H as [_ H], r; try done. destruct H as [-> | ->]; by eexists.
  - injection H as ->. by eexists.
Qed.

(** Over a queue that makes progress a thread is stuck in an operation only when
    it waits for a value in an open and empty queue. *)
Lemma stream_no_deadlock {QP : QueueProgress Q} s :
  qs_reached s -> (forall u c, oq_wilful c = true -> QueueStream.exec dflt addr s (u, InQueue c) = None) ->
  forall u p, pcs s !! u = Some p -> oq_done (at_queue p) = None ->
    (exists it x, p = Popping it x) /\ oq_content (queue (shared s)) = (false, []).
Proof.
  intros [Hi H]%stream_reached Hs u p Hp Hd.
  assert (forall v c, oq_wilful c = true -> pool_exec oq_step (queue_view s) (v, c) = None) as Hq.
  { intros v c Hc. destruct (pool_exec oq_step (queue_view s) (v, c)) as [s1|] eqn:E; [|done]. exfalso.
    pool_step E. simpl in Hp0, Ht. rewrite list_lookup_fmap in Hp0. destruct (pcs s !! v) as [p1|] eqn:Hp1; [|done].
    injection Hp0 as <-. destruct (oq_done (at_queue p1)) as [o|] eqn:Ed.
    { apply oq_done_idle in Ed. rewrite Ed in Ht. by rewrite oq_wilful_idle in Ht. }
    pose proof (oq_wilful_throwing c Hc) as Et. pose proof (placed_busy _ _ (so_placed _ H v p1 Hp1) Ed) as Hb.
    destruct s as [s ps]. cbn [shared pcs] in *.
    pose proof (ok_effect s ps v p1 sh' p' H Hp1 Hb (oq_effect _ v _ c _ _ Hi
      ltac:(simpl; by rewrite list_lookup_fmap, Hp1) Ed Et Ht)) as H1.
    assert (exists x, queue_step v s p1 c = Some x) as [[s2 p2] Hx].
    { unfold queue_step. rewrite Ed, Et. simpl in Ht. rewrite Ht. simpl.
      destruct (oq_done p') as [[r|]|] eqn:Ey; eauto. apply oq_done_idle in Ey as ->.
      eapply returned_some; [|done]. eapply (so_placed _ H1 v). apply list_lookup_insert_eq. by eapply lookup_lt_Some. }
    specialize (Hs v c Hc). unfold QueueStream.exec in Hs.
    by rewrite (pool_exec_at (QueueStream.step dflt addr) s ps v (InQueue c) p1 s2 p2 Hp1 Hx) in Hs. }
  destruct (oq_stuck (queue_view s) Hi Hq u (at_queue p)) as [Ep Hc]; [simpl; by rewrite list_lookup_fmap, Hp|done|].
  split; [|done]. pose proof (so_placed _ H u p Hp) as Hpl. pose proof (placed_busy _ _ Hpl Hd) as Hb.
  destruct p; try done; simpl in *; rewrite Ep in Hpl; [eauto|by destruct Hpl|done].
Qed.
End theorems.
