(* ===== verification/QsExamples.v ===== *)
(** * A run of two threads with iterators over synch_queue and futex_synch

    Thread 0 reads, and sleeps in the kernel until thread 1 writes a value; then
    thread 1 closes the queue and thread 0 finds the end. *)

From stdpp Require Import prelude functions.
From S2P Require Import Prelude Futex Conqueue Lock FutexLock CondVar SynchQueue FutexQueue FqRefine FqSim FqTheorems.
From S2P Require Import FqExamples SharedQueue QueueIter QueueStream.
Local Open Scope Z_scope.

Import QueueStream.

#[local] Existing Instance futex_queue_shared.

Local Abbreviation qstate := (pool (QueueStream.state Z) (QueueStream.pc Z)).
Local Abbreviation schedule := (list (nat * QueueStream.choice Z)).
Local Abbreviation place := (@oq_pc Z futex_queue_shared).

(** A step of the queue. *)
Definition qs_inside (l : nat * FutexQueue.choice Z) : nat * QueueStream.choice Z :=
  (l.1, InQueue (l.2 : @oq_choice Z futex_queue_shared)).

Definition qs_two : qstate := Pool QueueStream.init [Out (oq_idle None); Out (oq_idle None)].

Definition qs_window (s : qstate) : bool := oq_window (queue_view s).

Definition qs_writes : schedule :=
  (0%nat, MakeInput) :: (qs_inside <$> tail fq_waits) ++
  [(1%nat, MakeOutput); (1%nat, Write 7)] ++ (qs_inside <$> drop (S (length fq_waits)) fq_all).

Definition qs_ends : schedule :=
  qs_writes ++ [(1%nat, Drop); (1%nat, Close)] ++
  (qs_inside <$> [lk_go 1; (1%nat, FutexQueue.Go); (1%nat, FutexQueue.Go); cv_go 1; cv_go 1; (1%nat, FutexQueue.Go); lk_go 1]) ++
  [(0%nat, Next)] ++ (qs_inside <$> [lk_go 0; (0%nat, FutexQueue.Go); (0%nat, FutexQueue.Go); lk_go 0]).

Definition qs_written : qstate :=
  Pool (QueueStream.State (shared fq_end : @oq_state Z futex_queue_shared)
          [(1%nat, 7)] [(0%nat, 7)] [(1%nat, 7)] [(0%nat, 7)])
    [Reading (InputIterator (Some 5%nat) 7) (oq_idle (Some (Popped 7)));
     Writing (Some 5%nat) None (oq_idle (Some (Returned success)))].

Definition qs_ended : qstate :=
  Pool (QueueStream.State
          (FutexQueue.State true (CondVar.State 2 0 (Some 0%nat) [] (FutexLock.State 0 []) 2) [] 0
             : @oq_state Z futex_queue_shared)
          [(1%nat, 7)] [(0%nat, 7)] [(1%nat, 7)] [(0%nat, 7)])
    [Reading (InputIterator None 7) (oq_idle (Some (Returned closed))); Out (oq_idle (Some Done))].

Lemma qs_run_reached ls s : run_in (QueueStream.exec 0 5) qs_window qs_two ls = Some s -> qs_reached 0 5 s.
Proof. intros H. eapply run_in_reachable; [|by exists 2%nat|exact H]. done. Qed.

Lemma qs_written_reached : qs_reached 0 5 qs_written.
Proof. apply (qs_run_reached qs_writes). reflexivity. Qed.

Lemma qs_ended_reached : qs_reached 0 5 qs_ended.
Proof. apply (qs_run_reached qs_ends). reflexivity. Qed.

Lemma stream_delivers_witness :
  by_thread 0 (g_out (shared qs_written)) = [7] /\
  (g_in (shared qs_written)).*2 = (g_out (shared qs_written)).*2 ++ [].
Proof. split; [reflexivity|]. apply (stream_delivers 0 5 qs_written qs_written_reached). Defined.

Lemma stream_complete_witness :
  [7] ≡ₚ (written (shared qs_ended)).*2 /\ oq_content (queue (shared qs_ended)) = (true, []).
Proof.
  apply (stream_complete 0 5 qs_ended 0 (InputIterator None 7) (oq_idle (Some (Returned closed))) qs_ended_reached);
    [reflexivity|reflexivity|].
  intros v p Hp. destruct v as [|[|v]]; simpl in Hp; [..|done]; injection Hp as <-; reflexivity.
Defined.
