(* ===== verification/QueueBench.v ===== *)
(** * Producer and consumers (tests/queue-bench.cc)

    The benchmark of the queues over any queue of the interface [SharedQueue]:
    some threads consume and count, the main thread produces, closes the queue,
    joins the others and adds up their counts.  Strings are copied and moved
    without exceptions. *)

From stdpp Require Import prelude functions.
From S2P Require Import Prelude Futex Conqueue Lock SynchQueue SharedQueue.
Local Open Scope Z_scope.

Definition sum_counts (l : list Z) : Z := foldr Z.add 0 l.

Lemma sum_counts_insert l (u : nat) c c' : l !! u = Some c -> sum_counts (<[u := c']> l) = sum_counts l - c + c'.
Proof.
  revert u. induction l as [|x l IH]; intros [|u] H; simpl in *; try done; [injection H as ->; lia|].
  rewrite (IH u H). lia.
Qed.

Module QueueBench.
Section bench.
Context {T : Type} {Q : SharedQueue T} (data : T) (TOTAL : Z).

Record state : Type := State {
  queue : oq_state;
  counts : list Z;          (* of the consumers, threads 0, 1, ... *)
  ended : list bool;        (* the consumers a join does not wait for *)
}.

(** Where a thread is, with [x] for the queue. *)
Inductive pc : Type :=
| Consume (x : oq_pc)                  (* at the head of the loop in consume *)
| Popping (x : oq_pc)
| Consumed (x : oq_pc)                 (* has returned *)
| Produce (i : Z) (x : oq_pc)          (* at the head of the loop in produce *)
| Pushing (i : Z) (x : oq_pc)
| Thrown (x : oq_pc)                   (* push has thrown, which ends the program *)
| Closing (x : oq_pc)
| Join (k : nat) (x : oq_pc)
| Checked (total : Z) (x : oq_pc).

Inductive choice : Type :=
| Go
| InQueue (c : oq_choice).

Definition at_queue (p : pc) : oq_pc :=
  match p with
  | Consume x | Popping x | Consumed x | Produce _ x | Pushing _ x | Thrown x | Closing x | Join _ x | Checked _ x => x
  end.

Definition with_queue (p : pc) (x : oq_pc) : pc :=
  match p with
  | Consume _ => Consume x
  | Popping _ => Popping x
  | Consumed _ => Consumed x
  | Produce i _ => Produce i x
  | Pushing i _ => Pushing i x
  | Thrown _ => Thrown x
  | Closing _ => Closing x
  | Join k _ => Join k x
  | Checked t _ => Checked t x
  end.

Definition set_queue (s : state) (q : oq_state) : state := State q (counts s) (ended s).

Definition call (u : nat) (s : state) (x : oq_pc) (op : operation) (k : oq_pc -> pc) : option (state * pc) :=
  y ← oq_step u (queue s) x (oq_call op); Some (set_queue s y.1, k y.2).

(** What the thread does when an operation has returned. *)
Definition returned (u : nat) (s : state) (p : pc) (x : oq_pc) (r : outcome T) : option (state * pc) :=
  match p, r with
  | Popping _, Popped _ =>
      n ← counts s !! u; Some (State (queue s) (<[u := n + 1]> (counts s)) (ended s), Consume x)
  | Popping _, Returned _ => Some (State (queue s) (counts s) (<[u := true]> (ended s)), Consumed x)
  | Pushing i _, Returned success => Some (s, Produce (i + 1) x)
  | Pushing _ _, Returned _ => Some (s, Thrown x)
  | Closing _, Done => Some (s, Join 0 x)
  | _, _ => None
  end.

(** A step inside an operation of the queue. *)
Definition queue_step (u : nat) (s : state) (p : pc) (c : oq_choice) : option (state * pc) :=
  match oq_done (at_queue p) with
  | Some _ => None
  | None =>
      if oq_throwing c then None
      else y ← oq_step u (queue s) (at_queue p) c;
           match oq_done y.2 with
           | Some (Some r) => returned u (set_queue s y.1) p y.2 r
           | Some None => None
           | None => Some (set_queue s y.1, with_queue p y.2)
           end
  end.

(** The steps outside the queue. *)
Definition own_step (u : nat) (s : state) (p : pc) : option (state * pc) :=
  match p with
  | Consume x => call u s x sq_wait_pop Popping
  | Produce i x => if i <? TOTAL then call u s x (sq_push data) (Pushing i) else call u s x sq_close Closing
  | Join k x =>
      match ended s !! k with
      | Some true => Some (s, Join (S k) x)
      | Some false => None
      | None => Some (s, Checked (sum_counts (counts s)) x)
      end
  | _ => None
  end.

Definition step (u : nat) (s : state) (p : pc) (c : choice) : option (state * pc) :=
  match c with
  | Go => own_step u s p
  | InQueue c => queue_step u s p c
  end.

Definition exec : pool state pc -> nat * choice -> option (pool state pc) := pool_exec step.

(** [nthreads] consumers and the main thread. *)
Definition start (nthreads : nat) (s : pool state pc) : Prop :=
  s = Pool (State oq_init (replicate nthreads 0) (replicate nthreads false))
        (replicate nthreads (Consume (oq_idle None)) ++ [Produce 0 (oq_idle None)]).

Definition queue_view : pool state pc -> pool oq_state oq_pc := client_view queue at_queue.
End bench.
Arguments state T {Q}.
Arguments pc T {Q}.
Arguments choice T {Q}.
End QueueBench.

Section theorems.
Import QueueBench.
Context {T : Type} {Q : SharedQueue T} {QL : SharedQueueLaws Q} (data : T) (TOTAL : Z) (nthreads : nat).
Context (Htotal : 0 <= TOTAL) (Hthreads : (0 < nthreads)%nat).

Local Abbreviation state := (QueueBench.state T).
Local Abbreviation pc := (QueueBench.pc T).
Local Abbreviation pstate := (pool state pc).
Local Abbreviation content s := (oq_content (queue s)).

Definition qb_reached : pstate -> Prop :=
  reachable_in (QueueBench.exec data TOTAL) (QueueBench.start nthreads) (fun s => oq_window (queue_view s) = true).

(** A value that is out of the queue and not counted yet. *)
Definition fetched (p : pc) : Z :=
  match p with
  | Popping x => match oq_pending x, oq_outcome x with None, Some (Popped _) => 1 | _, _ => 0 end
  | _ => 0
  end.

(** The values the main thread has put into the queue. *)
Definition made (p : pc) : Z :=
  match p with
  | Produce i _ => i
  | Pushing i x => match oq_pending x with None => i + 1 | Some _ => i end
  | Closing _ | Join _ _ | Checked _ _ => TOTAL
  | _ => 0
  end.

(** Where a thread can be. *)
Definition consumer (s : state) (u : nat) (e : bool) : Prop :=
  (u < nthreads)%nat /\ ended s !! u = Some e /\ is_Some (counts s !! u).

Definition placed (s : state) (u : nat) (p : pc) : Prop :=
  match p with
  | Consume x => consumer s u false /\ exists o, x = oq_idle o
  | Popping x =>
      consumer s u false /\
      match oq_pending x, oq_outcome x with
      | Some op, _ => op = sq_wait_pop
      | None, Some (Popped _) => True
      | None, Some (Returned _) => content s = (true, [])
      | None, _ => False
      end
  | Consumed x => consumer s u true /\ content s = (true, []) /\ exists o, x = oq_idle o
  | Produce i x => u = nthreads /\ 0 <= i <= TOTAL /\ (content s).1 = false /\ exists o, x = oq_idle o
  | Pushing i x =>
      u = nthreads /\ 0 <= i < TOTAL /\ (content s).1 = false /\
      match oq_pending x with Some op => op = sq_push data | None => oq_outcome x = Some (Returned success) end
  | Closing x =>
      u = nthreads /\
      match oq_pending x with
      | Some op => op = sq_close /\ (content s).1 = false
      | None => oq_outcome x = Some Done /\ (content s).1 = true
      end
  | Join k x =>
      u = nthreads /\ (content s).1 = true /\ (forall j, (j < k)%nat -> ended s !! j = Some true) /\ exists o, x = oq_idle o
  | Checked t x => u = nthreads /\ t = TOTAL /\ (forall j, (j < nthreads)%nat -> ended s !! j = Some true) /\ exists o, x = oq_idle o
  | Thrown _ => False
  end.

Record bench_ok (s : pstate) : Prop := {
  bo_length : length (pcs s) = S nthreads;
  bo_ended : length (ended (shared s)) = nthreads;
  bo_main : exists p, pcs s !! nthreads = Some p /\
    Z.of_nat (length (content (shared s)).2) + total (fun _ => fetched) 0 (pcs s) + sum_counts (counts (shared s)) = made p;
  bo_placed u p : pcs s !! u = Some p -> placed (shared s) u p;
}.

(** What a step of thread [u] must leave as it is for the others. *)
Record stable (u : nat) (s s' : state) : Prop := {
  st_counts v : v <> u -> counts s' !! v = counts s !! v;
  st_ended v : v <> u -> ended s' !! v = ended s !! v;
  st_joined v : ended s !! v = Some true -> ended s' !! v = Some true;
  st_closed : content s = (true, []) -> content s' = (true, []);
  st_open : u <> nthreads -> (content s').1 = (content s).1;
}.

Lemma stable_placed u s s' v p : stable u s s' -> v <> u -> placed s v p -> placed s' v p.
Proof.
  intros H Hv. assert (forall e, consumer s v e -> consumer s' v e) as Hc.
  { intros e (? & ? & ?). unfold consumer. rewrite (st_counts _ _ _ H), (st_ended _ _ _ H); auto. }
  assert (v = nthreads -> (content s').1 = (content s).1) as Ho by (intros ->; apply H; congruence).
  pose proof (st_joined _ _ _ H) as Hj. pose proof (st_closed _ _ _ H) as Hcl.
  destruct p; simpl; intros Hp.
  - destruct Hp. auto.
  - destruct Hp as [? Hp]. split; [auto|]. destruct (oq_pending x), (oq_outcome x) as [[]|]; auto.
  - destruct Hp as (? & ? & ?). auto.
  - destruct Hp as (? & ? & ? & ?). rewrite Ho by done. auto.
  - destruct Hp as (? & ? & ? & ?). rewrite Ho by done. auto.
  - done.
  - destruct Hp as (? & Hp). rewrite Ho by done. auto.
  - destruct Hp as (? & ? & ? & ?). rewrite Ho by done. auto 6.
  - destruct Hp as (? & ? & ? & ?). auto 6.
Qed.

Lemma bench_move s ps u p s' p' :
  bench_ok (Pool s ps) -> ps !! u = Some p -> stable u s s' -> length (ended s') = nthreads ->
  Z.of_nat (length (content s').2) + fetched p' + sum_counts (counts s') - (if decide (u = nthreads) then made p' else 0) =
  Z.of_nat (length (content s).2) + fetched p + sum_counts (counts s) - (if decide (u = nthreads) then made p else 0) ->
  placed s' u p' -> bench_ok (Pool s' (<[u := p']> ps)).
Proof.
  intros [H1 H2 (pm & Hm & H3) H4] Hp Hst He Hb Hpl. simpl in *. split; simpl.
  - by rewrite length_insert.
  - done.
  - destruct (decide (u = nthreads)) as [->|Hne].
    + exists p'. rewrite Hp in Hm. injection Hm as ->. rewrite (total_insert _ _ _ _ pm) by done.
      split; [by eapply insert_lookup_self|]. lia.
    + exists pm. rewrite list_lookup_insert_ne by done. rewrite (total_insert _ _ _ _ p) by done. split; [done|]. lia.
  - intros v q [(-> & -> & _)|[Hne Hv]]%insert_lookup_cases; [done|]. eapply stable_placed; eauto.
Qed.

Definition busy (p : pc) : bool :=
  match p with Popping _ | Pushing _ _ | Closing _ => true | _ => false end.

Lemma bench_placed_busy s u p : placed s u p -> oq_done (at_queue p) = None -> busy p = true.
Proof.
  assert (forall x : oq_pc, (exists o, x = oq_idle o) -> oq_done x <> None) as Hidle.
  { intros x [o ->]. by rewrite (proj2 (oq_done_idle _ o) eq_refl). }
  intros Hp Hd. destruct p; try done; simpl in *; exfalso; eapply Hidle; try done; by destruct_and?.
Qed.

(** Thread [u] moves on in the queue, which changes from [content s] to [content s']. *)
Lemma stable_queue u s q' :
  (content s = (true, []) -> oq_content q' = (true, [])) -> (u <> nthreads -> (oq_content q').1 = (content s).1) ->
  stable u s (set_queue s q').
Proof. by split. Qed.

(** A step inside the queue: the operation takes effect, or does not. *)
Lemma bench_effect s ps u p q' y :
  bench_ok (Pool s ps) -> ps !! u = Some p -> busy p = true ->
  queue_effect (content s) (oq_pending (at_queue p)) (oq_outcome (at_queue p))
               (oq_content q') (oq_pending y) (oq_outcome y) ->
  bench_ok (Pool (set_queue s q') (<[u := with_queue p y]> ps)).
Proof.
  intros H Hp Hb Hq. pose proof (bo_placed _ H u p Hp) as Hpl. pose proof (bo_ended _ H) as He. simpl in Hpl, He.
  assert (content s = (true, []) -> oq_content q' = (true, [])) as Hst.
  { intros E. rewrite E in Hq. by apply closed_stays in Hq. }
  destruct Hq as [Ec Ep Eo|op r Ep Ep' Eo Hsp].
  { eapply bench_move; [done..| |done| |]; simpl; rewrite ?Ec.
    - apply stable_queue; [done|by rewrite Ec].
    - destruct p; simpl in *; by rewrite ?Ep, ?Eo.
    - destruct p; try done; simpl in *; by rewrite ?Ep, ?Eo, ?Ec. }
  destruct (content s) as [b vs] eqn:Ec. destruct p as [|x| | |i x| |x| |]; try done; simpl in Hpl, Ep; rewrite Ep in Hpl.
  - destruct Hpl as [Hcon ->]. destruct Hsp as [[[=] _]|Hsp]. simpl in Hsp.
    assert (u <> nthreads) as Hne by (destruct Hcon; lia).
    destruct vs as [|v vs]; [destruct b; [|done]|]; injection Hsp as <- Hc.
    + eapply bench_move; [done..| |done| |]; simpl; rewrite ?Ec, <- ?Hc, ?Ep, ?Ep', ?Eo; [|done|done].
      by apply stable_queue; rewrite ?Ec, <- ?Hc.
    + eapply bench_move; [done..| |done| |]; simpl; rewrite ?Ec, <- ?Hc, ?Ep, ?Ep', ?Eo; [|simpl; case_decide; lia|done].
      by apply stable_queue; rewrite ?Ec, <- ?Hc.
  - destruct Hpl as (-> & Hi & Hop & ->). rewrite Ec in Hop. simpl in Hop. subst b. destruct Hsp as [[[=] _]|Hsp]. injection Hsp as <- Hc.
    eapply bench_move; [done..| |done| |]; simpl; rewrite ?Ec, <- ?Hc, ?Ep, ?Ep', ?Eo; [| |done].
    + by apply stable_queue; rewrite ?Ec, <- ?Hc.
    + simpl. rewrite length_app. simpl. case_decide; lia.
  - destruct Hpl as (-> & -> & Hop). rewrite Ec in Hop. simpl in Hop. subst b. destruct Hsp as [[[=] _]|Hsp]. injection Hsp as <- Hc.
    eapply bench_move; [done..| |done| |]; simpl; rewrite ?Ec, <- ?Hc, ?Ep, ?Ep', ?Eo; [|done|done].
    by apply stable_queue; rewrite ?Ec, <- ?Hc.
Qed.

Lemma stable_refl u s : stable u s s.
Proof. by split. Qed.

(** The operation returns. *)
Lemma bench_return s ps u p r s' p' :
  bench_ok (Pool s (<[u := with_queue p (oq_idle (Some r))]> ps)) -> (u < length ps)%nat ->
  returned u s p (oq_idle (Some r)) r = Some (s', p') -> bench_ok (Pool s' (<[u := p']> ps)).
Proof.
  intros H Hu Hr. set (p1 := with_queue p (oq_idle (Some r))) in *. destruct (oq_idle_clear (Some r)) as [Ep Eo].
  assert (<[u := p1]> ps !! u = Some p1) as Hp by by apply list_lookup_insert_eq.
  pose proof (bo_placed _ H u p1 Hp) as Hpl. pose proof (bo_ended _ H) as He. rewrite <- (list_insert_insert_eq ps u p' p1).
  simpl in Hpl, He. destruct p as [|x| | |i x| |x| |]; try done; simpl in p1, Hpl, Hr; rewrite Ep, ?Eo in Hpl.
  - destruct Hpl as [(Hlt & Hend & n & Hn) Hpl]. destruct r as [st|v| | |]; try done.
    + injection Hr as <- <-. eapply bench_move; [done|done| | | |]; simpl.
      * split; simpl; try done; intros v Hv; [by rewrite list_lookup_insert_ne|].
        destruct (decide (v = u)) as [->|]; [apply list_lookup_insert_eq; lia|by rewrite list_lookup_insert_ne].
      * by rewrite length_insert.
      * rewrite Ep, Eo. case_decide; lia.
      * split_and!; [|done|eauto]. unfold consumer. simpl. rewrite Hn, list_lookup_insert_eq by lia. eauto.
    + rewrite Hn in Hr. injection Hr as <- <-. eapply bench_move; [done|done| |done| |]; simpl.
      * split; simpl; try done. intros w Hw. by rewrite list_lookup_insert_ne.
      * rewrite Ep, Eo, (sum_counts_insert _ _ n) by done. case_decide; lia.
      * split; [|eauto]. unfold consumer. simpl. rewrite list_lookup_insert_eq by by eapply lookup_lt_Some. eauto.
  - destruct Hpl as (-> & Hi & Hop & [= ->]). injection Hr as <- <-.
    eapply bench_move; [done|done|apply stable_refl|done| |]; simpl.
    + rewrite Ep. case_decide; lia.
    + split_and!; eauto; lia.
  - destruct Hpl as (-> & [= ->] & Hcl). injection Hr as <- <-.
    eapply bench_move; [done|done|apply stable_refl|done|done|]. simpl. split_and!; eauto. lia.
Qed.

Lemma bench_queue_step s ps u p c s' p' :
  bench_ok (Pool s ps) -> oq_inv (queue_view (Pool s ps)) -> ps !! u = Some p ->
  queue_step u s p c = Some (s', p') -> bench_ok (Pool s' (<[u := p']> ps)).
Proof.
  intros H Hi Hp Hs. unfold queue_step in Hs. destruct (oq_done (at_queue p)) as [|] eqn:Ed; [done|].
  destruct (oq_throwing c) eqn:Et; [done|].
  destruct (oq_step u (queue s) (at_queue p) c) as [[q' y]|] eqn:Es; [|done]. simpl in Hs.
  assert (bench_ok (Pool (set_queue s q') (<[u := with_queue p y]> ps))) as H1.
  { apply bench_effect; try done; [by eapply bench_placed_busy; [apply (bo_placed _ H u)|]|].
    apply (oq_effect (queue_view (Pool s ps)) u (at_queue p) c q' y); try done.
    simpl. by rewrite list_lookup_fmap, Hp. }
  destruct (oq_done y) as [[r|]|] eqn:Ey; [|done|by injection Hs as <- <-].
  apply oq_done_idle in Ey as ->. eapply bench_return; try done. by eapply lookup_lt_Some.
Qed.

(** The call of an operation. *)
Lemma bench_call s ps u p op k s' p' :
  bench_ok (Pool s ps) -> ps !! u = Some p -> (exists o, at_queue p = oq_idle o) -> fetched p = 0 ->
  call u s (at_queue p) op k = Some (s', p') ->
  (forall x, oq_pending x = Some op -> fetched (k x) = 0 /\ made (k x) = made p /\ placed s u (k x)) ->
  bench_ok (Pool s' (<[u := p']> ps)).
Proof.
  intros H Hp [o Ho] Hf Hc Hk. unfold call in Hc.
  destruct (oq_step u (queue s) (at_queue p) (oq_call op)) as [[q' y]|] eqn:Es; [|done]. injection Hc as <- <-.
  rewrite Ho in Es. destruct (oq_call_effect _ _ _ _ _ _ Es) as (Ec & Ep & _). destruct (Hk y Ep) as (E1 & E2 & E3).
  pose proof (bo_ended _ H) as He. simpl in He. assert (stable u s (set_queue s q')) as Hst by (by apply stable_queue; rewrite Ec).
  eapply bench_move; [done|done|done|done| |]; simpl; rewrite ?Ec, ?E1, ?E2, ?Hf; [done|].
  destruct (k y); simpl in *; by rewrite ?Ec.
Qed.

(** When all consumers have ended, all values are counted. *)
Lemma bench_all_counted s ps k x :
  bench_ok (Pool s ps) -> ps !! nthreads = Some (Join k x) -> (forall j, (j < nthreads)%nat -> ended s !! j = Some true) ->
  sum_counts (counts s) = TOTAL.
Proof.
  intros H Hm Hall.
  assert (forall u p, ps !! u = Some p -> fetched p = 0) as Hf.
  { intros u p Hp. destruct p; try done. pose proof (bo_placed _ H u _ Hp) as [(Hu & He & _) _]. simpl in He.
    rewrite Hall in He by done. done. }
  assert (content s = (true, [])) as Hc.
  { destruct (lookup_lt_is_Some_2 ps 0) as [p Hp]; [pose proof (bo_length _ H) as E; simpl in E; lia|].
    pose proof (bo_placed _ H 0%nat p Hp) as Hpl. specialize (Hall 0%nat Hthreads).
    destruct p; simpl in Hpl; destruct_and?; try lia; try done; unfold consumer in *; destruct_and?; congruence. }
  destruct (bo_main _ H) as (p & Hp & Hb). simpl in Hp, Hb. rewrite Hm in Hp. injection Hp as <-.
  rewrite total_zero, Hc in Hb by (intros u p Hp; by apply (Hf u)). simpl in Hb. lia.
Qed.

Lemma bench_own_step s ps u p s' p' :
  bench_ok (Pool s ps) -> ps !! u = Some p -> own_step data TOTAL u s p = Some (s', p') ->
  bench_ok (Pool s' (<[u := p']> ps)).
Proof.
  intros H Hp Hs. pose proof (bo_placed _ H u p Hp) as Hpl. pose proof (bo_ended _ H) as He. simpl in Hpl, He.
  destruct p as [x| | |i x| | | |k x|]; try done; simpl in Hs.
  - destruct Hpl as [Hc Hx]. eapply (bench_call s ps u (Consume x)); try done. intros y Ey. simpl. by rewrite Ey.
  - destruct Hpl as (-> & Hi & Ho & Hx). case_match eqn:E; [apply Z.ltb_lt in E|apply Z.ltb_ge in E];
      (eapply (bench_call s ps nthreads (Produce i x)); [done|done|done|done|done|]; intros y Ey; simpl; rewrite Ey).
    + split_and!; auto; lia.
    + split_and!; auto; lia.
  - destruct Hpl as (-> & Hcl & Hj & Hx). destruct (ended s !! k) as [[]|] eqn:Ek; [..|].
    + injection Hs as <- <-. eapply bench_move; [done|done|apply stable_refl|done|done|]. simpl. split_and!; auto.
      intros j Hjk. destruct (decide (j = k)) as [->|]; [done|]. apply Hj. lia.
    + done.
    + injection Hs as <- <-. apply lookup_ge_None in Ek.
      assert (forall j, (j < nthreads)%nat -> ended s !! j = Some true) as Hall by (intros; apply Hj; lia).
      eapply bench_move; [done|done|apply stable_refl|done|done|]. simpl. split_and!; auto. by eapply bench_all_counted.
Qed.

Lemma bench_view u s p c s' p' :
  QueueBench.step data TOTAL u s p c = Some (s', p') -> client_moves queue at_queue u s p s' p'.
Proof.
  assert (forall op k, call u s (at_queue p) op k = Some (s', p') -> (forall y, at_queue (k y) = y) ->
    client_moves queue at_queue u s p s' p') as Hcall.
  { intros op k Hc Hk. right. exists (oq_call op). split; [apply oq_losing_throwing, oq_call_throwing|]. unfold call in Hc.
    destruct (oq_step u (queue s) (at_queue p) (oq_call op)) as [[q' y]|]; [|done]. injection Hc as <- <-. by rewrite Hk. }
  intros Hs. destruct c as [|c]; simpl in Hs.
  - destruct p as [x| | |i x| | | |k x|]; try done; simpl in Hs; [by eapply Hcall|case_match; by eapply Hcall|].
    left. repeat case_match; try done; by injection Hs as <- <-.
  - right. unfold queue_step in Hs. destruct (oq_done (at_queue p)); [done|]. destruct (oq_throwing c) eqn:Et; [done|].
    exists c. split; [by apply oq_losing_throwing|]. destruct (oq_step u (queue s) (at_queue p) c) as [[q' y]|]; [|done]. simpl in Hs.
    destruct (oq_done y) as [[r|]|]; [|done|injection Hs as <- <-; by destruct p].
    destruct p, r as [[]| | | |]; try done; simpl in Hs; try (by injection Hs as <- <-).
    destruct (counts s !! u); [|done]. by injection Hs as <- <-.
Qed.

Lemma bench_start_ok s : QueueBench.start nthreads s -> oq_inv (queue_view s) /\ bench_ok s.
Proof.
  intros ->. split.
  - unfold queue_view, client_view. simpl. rewrite fmap_app, fmap_replicate. simpl.
    rewrite <- (replicate_S_end nthreads (oq_idle None)). apply oq_inv_start.
  - assert (forall u p, (replicate nthreads (Consume (oq_idle None)) ++ [Produce 0 (oq_idle None)]) !! u = Some p ->
      ((u < nthreads)%nat /\ p = Consume (oq_idle None)) \/ (u = nthreads /\ p = Produce 0 (oq_idle None))) as Hps.
    { intros u p [[-> ?]%lookup_replicate|[Hu Hp]]%lookup_app_Some; [auto|]. rewrite length_replicate in *.
      apply list_lookup_singleton_Some in Hp as [? <-]. right. split; [lia|done]. }
    split; simpl.
    + rewrite length_app, length_replicate. simpl. lia.
    + apply length_replicate.
    + exists (Produce 0 (oq_idle None)). rewrite lookup_app_r, length_replicate, Nat.sub_diag by (by rewrite length_replicate).
      split; [done|]. rewrite oq_content_init. simpl.
      rewrite total_zero; [|by intros u p [[_ ->]|[_ ->]]%Hps].
      assert (sum_counts (replicate nthreads 0) = 0) as ->; [|done]. clear. induction nthreads; simpl; lia.
    + intros u p [[Hu ->]|[-> ->]]%Hps; simpl.
      * split; [|eauto]. unfold consumer. simpl. rewrite !lookup_replicate_2 by done. eauto.
      * rewrite oq_content_init. split_and!; eauto; lia.
Qed.

(** A thread that waits for an operation is inside it. *)
Lemma bench_step_inside u s p c s' p' :
  placed s u p -> QueueBench.step data TOTAL u s p c = Some (s', p') -> busy p' = true -> oq_done (at_queue p') = None.
Proof.
  assert (forall op k, (exists o, at_queue p = oq_idle o) -> call u s (at_queue p) op k = Some (s', p') ->
    (forall y, at_queue (k y) = y) -> oq_done (at_queue p') = None) as Hcall.
  { intros op k [o Ho] Hc Hk. unfold call in Hc. rewrite Ho in Hc.
    destruct (oq_step u (queue s) (oq_idle o) (oq_call op)) as [[q' y]|] eqn:E; [|done]. injection Hc as <- <-.
    rewrite Hk. by destruct (oq_call_effect _ _ _ _ _ _ E) as (_ & _ & _ & ?). }
  intros Hpl Hs Hb. destruct c as [|c]; simpl in Hs.
  - destruct p as [x| | |i x| | | |k x|]; try done; simpl in *.
    + destruct Hpl. by eapply Hcall.
    + destruct_and?. case_match; by eapply Hcall.
    + repeat case_match; try done; by injection Hs as <- <-.
  - unfold queue_step in Hs. destruct (oq_done (at_queue p)); [done|]. destruct (oq_throwing c); [done|].
    destruct (oq_step u (queue s) (at_queue p) c) as [[q' y]|]; [|done]. simpl in Hs.
    destruct (oq_done y) as [[r|]|] eqn:Ey; [|done|injection Hs as <- <-; by destruct p].
    destruct p, r as [[]| | | |]; try done; simpl in Hs; try (by injection Hs as <- <-).
    destruct (counts s !! u); [|done]. by injection Hs as <- <-.
Qed.

Record bench_inv (s : pstate) : Prop := {
  bv_queue : oq_inv (queue_view s);
  bv_ok : bench_ok s;
  bv_inside u p : pcs s !! u = Some p -> busy p = true -> oq_done (at_queue p) = None;
}.

Lemma qb_invariant s : qb_reached s -> bench_inv s.
Proof.
  apply (invariant_in_reachable _ _ _ bench_inv). split.
  - intros s0 H0 _. destruct (bench_start_ok s0 H0). split; [done..|]. rewrite H0. simpl.
    by intros u p [[-> _]%lookup_replicate|[_ [_ <-]%list_lookup_singleton_Some]]%lookup_app_Some.
  - intros s0 l s1 Hw [Hi H Hin] He Hw'. split.
    + eapply (client_exec queue at_queue (QueueBench.step data TOTAL)); eauto using bench_view.
    + destruct s0 as [s0 ps], l as [u c]. pool_step He. cbn [shared pcs] in *.
      destruct c; [by eapply bench_own_step|by eapply bench_queue_step].
    + destruct s0 as [s0 ps], l as [u c]. pool_step He. cbn [shared pcs] in *.
      intros v q [(-> & -> & _)|[_ Hv]]%insert_lookup_cases; [|by eapply Hin].
      eapply bench_step_inside; [by apply (bo_placed _ H)|done].
Qed.

(** ** The benchmark comes to its end *)

Context {QP : QueueProgress Q}.

Definition qb_wilful (c : QueueBench.choice T) : bool := match c with Go => true | InQueue c => oq_wilful c end.

Definition qb_stuck (s : pstate) : Prop :=
  forall u c, qb_wilful c = true -> QueueBench.exec data TOTAL s (u, c) = None.

Lemma qb_stuck_step s u p c :
  qb_stuck s -> pcs s !! u = Some p -> qb_wilful c = true -> QueueBench.step data TOTAL u (shared s) p c = None.
Proof.
  intros Hs Hp Hc. specialize (Hs u c Hc). destruct (QueueBench.step _ _ u (shared s) p c) as [[s' p']|] eqn:E; [|done].
  destruct s as [s ps]. unfold QueueBench.exec in Hs. by rewrite (pool_exec_at _ s ps u c p s' p' Hp E) in Hs.
Qed.

(** An operation that returns lets its caller go on. *)
Lemma bench_returned s u p r :
  placed s u (with_queue p (oq_idle (Some r))) -> busy p = true -> is_Some (returned u s p (oq_idle (Some r)) r).
Proof.
  destruct (oq_idle_clear (Some r)) as [Ep Eo]. intros H Hb. destruct p; try done; simpl in *; rewrite Ep, ?Eo in H.
  - destruct H as [(_ & _ & n & Hn) H], r; try done; simpl; rewrite ?Hn; by eexists.
  - destruct H as (_ & _ & _ & [= ->]). by eexists.
  - destruct H as (_ & [= ->] & _). by eexists.
Qed.

Lemma qb_stuck_queue s :
  oq_inv (queue_view s) -> bench_ok s -> qb_stuck s ->
  forall u c, oq_wilful c = true -> pool_exec oq_step (queue_view s) (u, c) = None.
Proof.
  intros Hi H Hs u c Hc. destruct (pool_exec oq_step (queue_view s) (u, c)) as [s1|] eqn:E; [|done]. exfalso.
  pool_step E. simpl in Hp, Ht. rewrite list_lookup_fmap in Hp. destruct (pcs s !! u) as [p1|] eqn:Hp1; [|done].
  injection Hp as <-. destruct (oq_done (at_queue p1)) as [o|] eqn:Ed.
  { apply oq_done_idle in Ed. rewrite Ed in Ht. by rewrite oq_wilful_idle in Ht. }
  pose proof (oq_wilful_throwing c Hc) as Et. pose proof (bench_placed_busy _ _ _ (bo_placed _ H u p1 Hp1) Ed) as Hb.
  pose proof (qb_stuck_step s u p1 (InQueue c) Hs Hp1 Hc) as Hn. destruct s as [s ps]. cbn [shared pcs] in *.
  pose proof (bench_effect s ps u p1 sh' p' H Hp1 Hb (oq_effect _ u _ c _ _ Hi
    ltac:(simpl; by rewrite list_lookup_fmap, Hp1) Ed Et Ht)) as H1.
  assert (placed (set_queue s sh') u (with_queue p1 p')) as Hpl
    by (apply (bo_placed _ H1 u); by eapply insert_lookup_self).
  simpl in Hn. unfold queue_step in Hn. rewrite Ed, Et, Ht in Hn. simpl in Hn.
  destruct (oq_done p') as [[r|]|] eqn:Ey; [| |done]; apply oq_done_idle in Ey as ->.
  - destruct (bench_returned _ _ _ _ Hpl Hb) as [x Hx]. congruence.
  - destruct (oq_idle_clear (T := T) None) as [Ep Eo]. destruct p1; try done; simpl in Hpl; rewrite Ep, ?Eo in Hpl;
      by destruct_and?.
Qed.

(** A thread that is stuck waits for a value, or has come to its end. *)
Lemma qb_stuck_thread s u p :
  bench_inv s -> qb_stuck s -> pcs s !! u = Some p ->
  ((exists x, p = Popping x) /\ content (shared s) = (false, [])) \/ (exists x, p = Consumed x) \/
  (exists k x, p = Join k x /\ ended (shared s) !! k = Some false) \/ (exists x, p = Checked TOTAL x).
Proof.
  intros [Hi H Hin] Hs Hp. pose proof (bo_placed _ H u p Hp) as Hpl.
  pose proof (qb_stuck_step s u p Go Hs Hp eq_refl) as Hn.
  assert (forall op k, (exists o, at_queue p = oq_idle o) -> call u (shared s) (at_queue p) op k <> None) as Hcall.
  { intros op k [o ->]. unfold call. by destruct (oq_call_enabled u (queue (shared s)) o op) as [r ->]. }
  destruct (busy p) eqn:Hb.
  - specialize (Hin u p Hp Hb). destruct (oq_stuck (queue_view s) Hi (qb_stuck_queue s Hi H Hs) u (at_queue p)) as [Ep Hc];
      [simpl; by rewrite list_lookup_fmap, Hp|done|].
    destruct p; try done; simpl in *; rewrite Ep in Hpl; [eauto|by destruct_and?..].
  - destruct p as [x| |x|i x| | | |k x|t x]; try done; simpl in *; eauto.
    + destruct Hpl as [_ Hx]. by destruct (Hcall sq_wait_pop Popping Hx).
    + destruct Hpl as (_ & _ & _ & Hx). exfalso. case_match; by eapply Hcall.
    + destruct (ended (shared s) !! k) as [[]|] eqn:Ek; try done. eauto 8.
    + destruct Hpl as (_ & -> & _). eauto.
Qed.

(** C21. queue-bench never fails: push never throws, the total the main thread adds up
    is TOTAL whenever it has one, and the program comes to a stop only when all
    consumers have returned and the main thread has the total. *)
Theorem queue_bench_total s :
  qb_reached s ->
  (forall u p, pcs s !! u = Some p ->
     (forall x, p <> Thrown x) /\ forall t x, p = Checked t x -> t = TOTAL) /\
  (qb_stuck s ->
     (exists x, pcs s !! nthreads = Some (Checked TOTAL x)) /\
     forall u, (u < nthreads)%nat -> exists x, pcs s !! u = Some (Consumed x)).
Proof.
  intros Hr%qb_invariant. pose proof (bv_ok _ Hr) as H. split.
  { intros u p Hp. pose proof (bo_placed _ H u p Hp) as Hpl. split; [by intros x ->|]. intros t x ->. by destruct Hpl as (_ & -> & _). }
  intros Hs. destruct (bo_main _ H) as (p & Hp & _). pose proof (bo_placed _ H _ p Hp) as Hpl.
  assert (forall u, (u < nthreads)%nat -> (content (shared s)).1 = true -> exists x, pcs s !! u = Some (Consumed x)) as Hcon.
  { intros u Hu Hcl. destruct (lookup_lt_is_Some_2 (pcs s) u) as [q Hq]; [rewrite (bo_length _ H); lia|].
    pose proof (bo_placed _ H u q Hq) as Hpq.
    destruct (qb_stuck_thread s u q Hr Hs Hq) as [[_ Hc]|[[x ->]|[(k & x & -> & _)|[x ->]]]]; [by rewrite Hc in Hcl|eauto|..];
      simpl in Hpq; destruct_and?; lia. }
  destruct (qb_stuck_thread s nthreads p Hr Hs Hp) as [[[x ->] _]|[[x ->]|[(k & x & -> & Hk)|[x ->]]]].
  - destruct Hpl as [[? _] _]. lia.
  - destruct Hpl as [[? _] _]. lia.
  - exfalso. destruct Hpl as (_ & Hcl & _). pose proof (lookup_lt_Some _ _ _ Hk) as Hlt. rewrite (bo_ended _ H) in Hlt.
    destruct (Hcon k Hlt Hcl) as [y Hy]. destruct (bo_placed _ H k _ Hy) as [(_ & He & _) _]. congruence.
  - split; [eauto|]. intros u Hu. apply Hcon; [done|]. destruct Hpl as (_ & _ & Hall & _).
    destruct (lookup_lt_is_Some_2 (pcs s) u) as [q Hq]; [rewrite (bo_length _ H); lia|].
    pose proof (bo_placed _ H u q Hq) as Hpq. specialize (Hall u Hu).
    destruct q; simpl in Hpq; unfold consumer in Hpq; destruct_and?; try lia; try congruence.
    match goal with E : content (shared s) = _ |- _ => by rewrite E end.
Qed.
End theorems.
