(* ===== verification/QbExamples.v ===== *)
(** * A run of queue-bench over synch_queue and futex_synch

    Thread 0 consumes, and sleeps in the kernel until thread 1, the main thread,
    has produced the only value; the main thread closes the queue, joins the
    consumer and has the total. *)

From stdpp Require Import prelude functions.
From S2P Require Import Prelude Futex Conqueue Lock FutexLock CondVar SynchQueue FutexQueue FqRefine FqSim FqTheorems.
From S2P Require Import FqExamples SharedQueue QueueBench.
Local Open Scope Z_scope.

Import QueueBench.

#[local] Existing Instance futex_queue_shared.

Local Abbreviation qstate := (pool (QueueBench.state Z) (QueueBench.pc Z)).
Local Abbreviation schedule := (list (nat * QueueBench.choice Z)).

Definition qb_inside (l : nat * FutexQueue.choice Z) : nat * QueueBench.choice Z :=
  (l.1, InQueue (l.2 : @oq_choice Z futex_queue_shared)).

Definition qb_two : qstate :=
  Pool (QueueBench.State oq_init [0] [false]) [Consume (oq_idle None); Produce 0 (oq_idle None)].

Definition qb_window (s : qstate) : bool := oq_window (queue_view s).

Definition qb_all : schedule :=
  (0%nat, Go) :: (qb_inside <$> tail fq_waits) ++
  (1%nat, Go) :: (qb_inside <$> drop (S (length fq_waits)) fq_all) ++
  (1%nat, Go) ::
  (qb_inside <$> [lk_go 1; (1%nat, FutexQueue.Go); (1%nat, FutexQueue.Go); cv_go 1; cv_go 1; (1%nat, FutexQueue.Go); lk_go 1]) ++
  (0%nat, Go) :: (qb_inside <$> [lk_go 0; (0%nat, FutexQueue.Go); (0%nat, FutexQueue.Go); lk_go 0]) ++
  [(1%nat, Go); (1%nat, Go)].

Definition qb_end : qstate :=
  Pool (QueueBench.State
          (FutexQueue.State true (CondVar.State 2 0 (Some 0%nat) [] (FutexLock.State 0 []) 2) [] 0
             : @oq_state Z futex_queue_shared)
          [1] [true])
    [Consumed (oq_idle (Some (Returned closed))); Checked 1 (oq_idle (Some Done))].

Lemma qb_end_reached : qb_reached 7 1 1 qb_end.
Proof.
  apply (run_in_reachable _ _ (fun s => oq_window (queue_view s) = true) qb_window qb_two qb_all); [done|reflexivity|].
  reflexivity.
Qed.

Lemma qb_end_stuck : qb_stuck 7 1 qb_end.
Proof. intros u c Hc. by destruct u as [|[|u]], c. Qed.

Lemma queue_bench_total_witness :
  (exists x, pcs qb_end !! 1%nat = Some (Checked 1 x)) /\ exists x, pcs qb_end !! 0%nat = Some (Consumed x).
Proof.
  assert (0 <= 1) as H1 by discriminate. assert (0 < 1)%nat as H2 by apply Nat.lt_0_1.
  destruct (queue_bench_total 7 1 1 H1 H2 qb_end qb_end_reached) as [_ H].
  destruct (H qb_end_stuck) as [Hm Hc]. split; [exact Hm|]. apply (Hc 0%nat H2).
Defined.
