(* ===== verification/Task.v ===== *)
(** * Tasks (evenk/task.h)

    A task keeps a callable target: in its own memory if the target fits, else
    in a block of an allocator.  The target types are parameters: a target has a
    size, and invoking it gives a result and possibly changes it; moving it gives
    the same target.  The heap maps the address of a block to the allocator it
    came from and to the target in it. *)

From stdpp Require Import prelude gmap.
From S2P Require Import Prelude.
Local Open Scope Z_scope.

(** ** The size of the reserved memory *)

Section memory_size.
Context (fptr_size fptr_align : Z).

(** [std::size_t] has 64 bits. *)
Definition task_memory_size (size : Z) : Z :=
  let size := Z.land (wrap 64 (size + fptr_align - 1)) (wrap 64 (Z.lnot (fptr_align - 1))) in
  Z.max size fptr_size.
End memory_size.

(** ** Targets *)

Inductive task_error : Type := bad_function_call | bad_alloc | target_error (n : Z).

Section task.
Context {C R A : Type} `{EqDecision A} (default_alloc : A).
Context (sizeof : C -> Z) (call : C -> result task_error R * C).
Context (memory_size : Z).

Local Abbreviation heap := (gmap nat (A * option C)).

(** The reserved bytes: no target, a target, or the pointer to a block. *)
Inductive memory : Type :=
| Raw
| Inline (c : C)
| Pointer (a : option nat).

(** [invoke_] and [helper_] point to functions instantiated at a target type,
    of which only the size matters. *)
Inductive invoke_type : Type := invalid_invoke | invoke (size : Z).

Record task : Type := Task {
  memory_ : memory;
  invoke_ : invoke_type;
  helper_ : option Z;
  alloc_ : A;
}.

(** task_adapter: a target that fits is stored inline. *)
Definition small (size : Z) : bool := size <=? memory_size.

(** task_adapter_small.  get: the target, if there is one; set: the target is
    written in place; move: the new and the old memory. *)
Definition small_get (m : memory) : option C := match m with Inline c => Some c | _ => None end.
Definition small_set (c : C) : memory := Inline c.
Definition small_move (other : memory) : option (memory * memory) :=
  match other with Inline c => Some (Inline c, Raw) | _ => None end.

(** task_adapter_large.  allocate: [oom], the allocator is out of memory;
    deallocate: undefined unless the block is one of the allocator. *)
Definition large_get (h : heap) (m : memory) : option C :=
  match m with Pointer (Some a) => x ← h !! a; x.2 | _ => None end.
Definition large_set (h : heap) (m : memory) (c : C) : heap :=
  match m with Pointer (Some a) => alter (fun x => (x.1, Some c)) a h | _ => h end.
Definition large_move (other : memory) : option (memory * memory) :=
  match other with Pointer a => Some (Pointer a, Pointer None) | _ => None end.
Definition large_allocate (h : heap) (alloc : A) (oom : bool) : heap * result task_error memory :=
  if oom then (h, Raise bad_alloc)
  else let a := fresh (dom h) in (<[a := (alloc, None)]> h, Ok (Pointer (Some a))).
Definition large_deallocate (h : heap) (m : memory) (alloc : A) : result task_error heap :=
  match m with
  | Pointer (Some a) =>
      match h !! a with
      | Some (alloc', _) => if decide (alloc' = alloc) then Ok (delete a h) else Undefined
      | None => Undefined
      end
  | _ => Undefined
  end.

(** The adapter of a target of the given size. *)
Definition adapter_get (size : Z) (h : heap) (m : memory) : option C :=
  if small size then small_get m else large_get h m.
Definition adapter_set (size : Z) (h : heap) (m : memory) (c : C) : heap * memory :=
  if small size then (h, small_set c) else (large_set h m c, m).
Definition adapter_move (size : Z) (other : memory) : option (memory * memory) :=
  if small size then small_move other else large_move other.
Definition adapter_allocate (size : Z) (h : heap) (alloc : A) (oom : bool) : heap * result task_error memory :=
  if small size then (h, Ok Raw) else large_allocate h alloc oom.
Definition adapter_deallocate (size : Z) (h : heap) (m : memory) (alloc : A) : result task_error heap :=
  if small size then Ok h else large_deallocate h m alloc.

(** ** task *)

Definition task_empty : task := Task Raw invalid_invoke None default_alloc.

Definition task_bool (t : task) : bool := match helper_ t with Some _ => true | None => false end.

(** Construction from a target.  [throws]: the constructor of the target raises. *)
Definition task_make (h : heap) (c : C) (alloc : A) (oom throws : bool) : heap * result task_error task :=
  let size := sizeof c in
  match adapter_allocate size h alloc oom with
  | (h, Ok m) =>
      if throws then (h, Raise (target_error 0))
      else let x := adapter_set size h m c in (x.1, Ok (Task x.2 (invoke size) (Some size) alloc))
  | (h, Raise e) => (h, Raise e)
  | (h, _) => (h, Undefined)
  end.

(** helper with one task: destroy the target, release its block. *)
Definition helper_destroy (size : Z) (h : heap) (this_task : task) : result task_error heap :=
  match adapter_get size h (memory_ this_task) with
  | Some _ => adapter_deallocate size h (memory_ this_task) (alloc_ this_task)
  | None => Undefined
  end.

(** helper with two tasks: the memory of both after the move. *)
Definition helper_move (size : Z) (other_task : task) : result task_error (memory * memory) :=
  match adapter_move size (memory_ other_task) with
  | Some x => Ok x
  | None => Undefined
  end.

(** The destructor. *)
Definition task_destroy (h : heap) (t : task) : result task_error heap :=
  match helper_ t with
  | None => Ok h
  | Some size => helper_destroy size h t
  end.

(** The move constructor: the new task and what is left of the old one. *)
Definition task_move (other : task) : result task_error (task * task) :=
  match helper_ other with
  | None => Undefined
  | Some size =>
      '(m, m') ← helper_move size other;
      Ok (Task m (invoke_ other) (Some size) default_alloc,
          Task m' invalid_invoke None (alloc_ other))
  end.

(** The call operator. *)
Definition task_invoke (h : heap) (t : task) : heap * task * result task_error R :=
  match invoke_ t with
  | invalid_invoke => (h, t, Raise bad_function_call)
  | invoke size =>
      match adapter_get size h (memory_ t) with
      | Some c =>
          let r := call c in
          let x := adapter_set size h (memory_ t) r.2 in
          (x.1, Task x.2 (invoke_ t) (helper_ t) (alloc_ t), r.1)
      | None => (h, t, Undefined)
      end
  end.

(** Move assignment and swap call each other: [std::swap] moves into a temporary
    and assigns twice, and assignment swaps.  [None]: out of fuel. *)
Fixpoint task_assign (fuel : nat) (h : heap) (this other : task) :
    option (result task_error (heap * task * task)) :=
  match fuel with
  | O => None
  | S fuel =>
      match task_move other with
      | Ok (tmp, other) =>
          x ← task_swap fuel h tmp this;
          Some ('(h, tmp, this) ← x; h ← task_destroy h tmp; Ok (h, this, other))
      | _ => Some Undefined
      end
  end
with task_swap (fuel : nat) (h : heap) (a b : task) :
    option (result task_error (heap * task * task)) :=
  match fuel with
  | O => None
  | S fuel =>
      match task_move a with
      | Ok (tmp, a) =>
          x ← task_assign fuel h a b;
          match x with
          | Ok (h, a, b) =>
              y ← task_assign fuel h b tmp;
              Some ('(h, b, tmp) ← y; h ← task_destroy h tmp; Ok (h, a, b))
          | _ => Some Undefined
          end
      | _ => Some Undefined
      end
  end.

(** ** trivial_task *)

Record trivial_task : Type := TrivialTask { tt_memory : memory; tt_invoke : option Z }.

Definition trivial_empty : trivial_task := TrivialTask Raw None.

(** A target that does not fit does not compile. *)
Definition trivial_make (c : C) : option trivial_task :=
  if small (sizeof c) then Some (TrivialTask (Inline c) (Some (sizeof c))) else None.

Definition trivial_swap (a b : trivial_task) : trivial_task * trivial_task := (b, a).

(** The move constructor: the new task and what is left of the old one. *)
Definition trivial_move (other : trivial_task) : trivial_task * trivial_task :=
  let x := trivial_swap other trivial_empty in (x.2, x.1).

Definition trivial_assign (this other : trivial_task) : trivial_task * trivial_task :=
  let x := trivial_move other in
  let y := trivial_swap x.1 this in
  (y.2, x.2).

Definition trivial_bool (t : trivial_task) : bool := match tt_invoke t with Some _ => true | None => false end.

Definition trivial_invoke (t : trivial_task) : trivial_task * result task_error R :=
  match tt_invoke t, tt_memory t with
  | Some size, Inline c => let r := call c in (TrivialTask (Inline r.2) (tt_invoke t), r.1)
  | _, _ => (t, Undefined)
  end.

(** ** Construction *)

Lemma task_make_eq h c alloc oom throws :
  task_make h c alloc oom throws =
  if small (sizeof c) then
    if throws then (h, Raise (target_error 0))
    else (h, Ok (Task (Inline c) (invoke (sizeof c)) (Some (sizeof c)) alloc))
  else if oom then (h, Raise bad_alloc)
  else
    let a := fresh (dom h) in
    if throws then (<[a := (alloc, None)]> h, Raise (target_error 0))
    else (<[a := (alloc, Some c)]> h, Ok (Task (Pointer (Some a)) (invoke (sizeof c)) (Some (sizeof c)) alloc)).
Proof.
  unfold task_make, adapter_allocate, large_allocate, adapter_set. destruct (small (sizeof c)), oom, throws; try done.
  simpl. by rewrite alter_insert_eq.
Qed.

(** ** Assignment *)

Lemma assign_swap_ends n : forall h a b,
  (task_assign n h a b = None \/ task_assign n h a b = Some Undefined) /\
  (task_swap n h a b = None \/ task_swap n h a b = Some Undefined).
Proof.
  induction n as [|n IH]; intros h a b; [by split; left|]. split; simpl.
  - destruct (task_move b) as [[tmp b']|e| |]; auto.
    destruct (IH h tmp a) as [_ [->| ->]]; auto.
  - destruct (task_move a) as [[tmp a']|e| |]; auto.
    destruct (IH h a' b) as [[->| ->] _]; auto.
Qed.

(** Whether [this = std::move(other)] returns, within the fuel. *)
Definition assign_returns (fuel : nat) (h : heap) (this other : task) : bool :=
  match task_assign fuel h this other with Some (Ok _) => true | _ => false end.

Lemma assign_returns_false fuel h this other : assign_returns fuel h this other = false.
Proof. unfold assign_returns. by destruct (assign_swap_ends fuel h this other) as [[->| ->] _]. Qed.

(** C40. Move assignment and swap of tasks never return: whatever the tasks hold,
    each assignment swaps and each swap assigns, until a move from an empty task
    calls through the null helper. *)
Theorem task_assign_never_returns fuel h this other :
  task_assign fuel h this other = None \/ task_assign fuel h this other = Some Undefined.
Proof. apply assign_swap_ends. Qed.

(** The block of a large target that came from another allocator is released to
    the default one, once the task has been moved. *)
Lemma task_move_forgets_allocator c alloc :
  alloc <> default_alloc -> small (sizeof c) = false ->
  exists h t t' t'', task_make ∅ c alloc false false = (h, Ok t) /\ task_move t = Ok (t', t'') /\
    task_destroy h t = Ok ∅ /\ task_destroy h t' = Undefined.
Proof.
  intros Ha Hs. rewrite task_make_eq, Hs. eexists _, _, _, _. split; [done|].
  unfold task_move, task_destroy, helper_move, helper_destroy, adapter_move, adapter_get, adapter_deallocate. simpl. rewrite Hs.
  split; [done|]. simpl. rewrite Hs, lookup_insert_eq. simpl. rewrite decide_True by done.
  split; [f_equal; by rewrite delete_insert_id|]. by rewrite decide_False.
Qed.

(** A target whose constructor raises leaves its block behind. *)
Lemma task_make_leaks c alloc :
  small (sizeof c) = false ->
  exists h, task_make ∅ c alloc false true = (h, Raise (target_error 0)) /\ h <> ∅.
Proof.
  intros Hs. rewrite task_make_eq, Hs. eexists. split; [done|]. apply insert_non_empty.
Qed.

(** ** The tasks of a program

    Tasks live at [id]s; a program makes, moves, invokes and destroys them, with
    any allocator and any targets, as long as nothing undefined has happened.
    [g_leaked] is history: the blocks left by constructors that threw. *)

Record world : Type := World { w_heap : heap; w_tasks : gmap nat task; g_leaked : gset nat }.

Inductive task_op : Type :=
| t_make (id : nat) (c : C) (alloc : A) (oom throws : bool)
| t_move (src dst : nat)
| t_invoke (id : nat)
| t_destroy (id : nat).

Definition world_step (w : world) (op : task_op) : option (world * result task_error (option R)) :=
  let h := w_heap w in
  let ts := w_tasks w in
  match op with
  | t_make id c alloc oom throws =>
      match ts !! id with
      | Some _ => None
      | None =>
          let x := task_make h c alloc oom throws in
          Some (match x.2 with
                | Ok t => World x.1 (<[id := t]> ts) (g_leaked w)
                | _ => World x.1 ts (g_leaked w ∪ (dom x.1 ∖ dom h))
                end, t ← x.2; Ok None)
      end
  | t_move src dst =>
      match ts !! src, ts !! dst with
      | Some t, None =>
          Some (match task_move t with
                | Ok (t', t'') => (World h (<[dst := t']> (<[src := t'']> ts)) (g_leaked w), Ok None)
                | Raise e => (w, Raise e)
                | Undefined => (w, Undefined)
                | Blocked => (w, Blocked)
                end)
      | _, _ => None
      end
  | t_invoke id =>
      t ← ts !! id;
      let x := task_invoke h t in
      Some (World x.1.1 (<[id := x.1.2]> ts) (g_leaked w), r ← x.2; Ok (Some r))
  | t_destroy id =>
      t ← ts !! id;
      Some (match task_destroy h t with
            | Ok h' => (World h' (delete id ts) (g_leaked w), Ok None)
            | Raise e => (w, Raise e)
            | Undefined => (w, Undefined)
            | Blocked => (w, Blocked)
            end)
  end.

(** What the program sees: every task is empty, or a box with a target.  A box
    knows the size of the type of its target, the allocator of the block in which
    a large target is, and its own allocator. *)
Record box : Type := Box { b_target : C; b_size : Z; b_block : option A; b_alloc : A }.

Definition make_box (c : C) (alloc : A) : box :=
  Box c (sizeof c) (if small (sizeof c) then None else Some alloc) alloc.

(** The block can be released: it came from the allocator of the box. *)
Definition releasable (b : box) : bool :=
  match b_block b with Some alloc => bool_decide (alloc = b_alloc b) | None => true end.

Definition spec_op (g : gmap nat (option box)) (op : task_op) :
    option (gmap nat (option box) * result task_error (option R)) :=
  match op with
  | t_make id c alloc oom throws =>
      match g !! id with
      | Some _ => None
      | None => Some (if negb (small (sizeof c)) && oom then (g, Raise bad_alloc)
                      else if throws then (g, Raise (target_error 0))
                      else (<[id := Some (make_box c alloc)]> g, Ok None))
      end
  | t_move src dst =>
      match g !! src, g !! dst with
      | Some (Some b), None =>
          Some (<[dst := Some (Box (b_target b) (b_size b) (b_block b) default_alloc)]> (<[src := None]> g), Ok None)
      | Some None, None => Some (g, Undefined)
      | _, _ => None
      end
  | t_invoke id =>
      x ← g !! id;
      Some (match x with
            | None => (g, Raise bad_function_call)
            | Some b =>
                let r := call (b_target b) in
                (<[id := Some (Box r.2 (b_size b) (b_block b) (b_alloc b))]> g, y ← r.1; Ok (Some y))
            end)
  | t_destroy id =>
      x ← g !! id;
      Some (match x with
            | Some b => if releasable b then (delete id g, Ok None) else (g, Undefined)
            | None => (delete id g, Ok None)
            end)
  end.

Definition box_of (h : heap) (t : task) : option box :=
  size ← helper_ t;
  c ← adapter_get size h (memory_ t);
  Some (Box c size
          (if small size then None
           else match memory_ t with Pointer (Some a) => fst <$> h !! a | _ => None end) (alloc_ t)).

Definition boxes (w : world) : gmap nat (option box) := box_of (w_heap w) <$> w_tasks w.

(** The block a task owns. *)
Definition block_of (t : task) : option nat :=
  match helper_ t, memory_ t with
  | Some size, Pointer a => if small size then None else a
  | _, _ => None
  end.

(** A task is empty, or full with its target where it belongs. *)
Definition task_ok (h : heap) (t : task) : Prop :=
  (helper_ t = None /\ invoke_ t = invalid_invoke) \/
  exists size, helper_ t = Some size /\ invoke_ t = invoke size /\
    if small size then exists c, memory_ t = Inline c
    else exists a alloc c, memory_ t = Pointer (Some a) /\ h !! a = Some (alloc, Some c).

Record world_ok (w : world) : Prop := {
  wo_tasks id t : w_tasks w !! id = Some t -> task_ok (w_heap w) t;
  wo_unique i j t t' a :
    w_tasks w !! i = Some t -> w_tasks w !! j = Some t' ->
    block_of t = Some a -> block_of t' = Some a -> i = j;
  wo_owned a alloc c : w_heap w !! a = Some (alloc, Some c) -> exists id t, w_tasks w !! id = Some t /\ block_of t = Some a;
  wo_leaked a : a ∈ g_leaked w <-> exists alloc, w_heap w !! a = Some (alloc, None);
}.

(** Heaps that agree on the block of a task are the same to it. *)
Lemma task_ok_agree h h' t :
  task_ok h t -> (forall a, block_of t = Some a -> h' !! a = h !! a) ->
  task_ok h' t /\ box_of h' t = box_of h t.
Proof.
  intros Ht Ha. unfold task_ok, box_of, block_of, adapter_get in *.
  destruct Ht as [[E1 E2]|(size & E1 & E2 & Hm)]; rewrite E1 in *; [auto|].
  simpl. destruct (small size) eqn:Es.
  - split; [|done]. right. exists size. by rewrite Es.
  - destruct Hm as (a & alloc & c & Em & Eh). rewrite Em in *. simpl. rewrite (Ha a eq_refl), Eh. split; [|done].
    right. exists size. rewrite Es. split_and!; try done. exists a, alloc, c. rewrite Ha by done. done.
Qed.

Lemma block_in_heap h t a :
  task_ok h t -> block_of t = Some a -> exists alloc c, h !! a = Some (alloc, Some c).
Proof.
  unfold task_ok, block_of. intros [[-> _]|(size & -> & _ & Hm)] Hb; [done|].
  destruct (small size); [destruct Hm as [c E]; by rewrite E in Hb|].
  destruct Hm as (a' & alloc & c & E & Hh). rewrite E in Hb. injection Hb as ->. eauto.
Qed.

Lemma lookup_boxes h ts g id : boxes (World h ts g) !! id = box_of h <$> ts !! id.
Proof. apply lookup_fmap. Qed.

(** One task changes, with its block. *)
Lemma world_update h ts g id t' h' :
  world_ok (World h ts g) -> task_ok h' t' ->
  (forall j t a, j <> id -> ts !! j = Some t -> block_of t = Some a -> h' !! a = h !! a) ->
  (forall a, block_of t' = Some a -> h !! a = None \/ exists t0, ts !! id = Some t0 /\ block_of t0 = Some a) ->
  (forall a alloc c, h' !! a = Some (alloc, Some c) -> block_of t' = Some a \/
     (h !! a = Some (alloc, Some c) /\ forall t0, ts !! id = Some t0 -> block_of t0 <> Some a)) ->
  (forall a alloc, h' !! a = Some (alloc, None) <-> h !! a = Some (alloc, None)) ->
  world_ok (World h' (<[id := t']> ts) g) /\
  boxes (World h' (<[id := t']> ts) g) = <[id := box_of h' t']> (boxes (World h ts g)).
Proof.
  intros [H1 H2 H3 H4] Ht Hag Hown Hheap Hleak. simpl in *.
  assert (forall j t, j <> id -> ts !! j = Some t -> task_ok h' t /\ box_of h' t = box_of h t) as Hoth.
  { intros j t Hj Htj. apply task_ok_agree; [by eapply H1|]. intros a. by eapply Hag. }
  assert (forall j t a, j <> id -> ts !! j = Some t -> block_of t = Some a -> block_of t' <> Some a) as Hsep.
  { intros j t a Hj Htj Hb Hb'. destruct (Hown a Hb') as [Hn|(t0 & Ht0 & Hb0)].
    - destruct (block_in_heap h t a (H1 j t Htj) Hb) as (? & ? & ?). congruence.
    - apply Hj. by eapply H2. }
  split; [split; simpl|].
  - intros j t [[-> ->]|[Hj Htj]]%lookup_insert_Some; [done|]. by eapply Hoth.
  - intros j k t t2 a [[-> ->]|[Hj Htj]]%lookup_insert_Some [[-> ->]|[Hk Htk]]%lookup_insert_Some Hb Hb2;
      [done|by destruct (Hsep k t2 a)|by destruct (Hsep j t a)|by eapply H2].
  - intros a alloc c Hx. destruct (Hheap a alloc c Hx) as [Hb|[Hx0 Hn]].
    + exists id, t'. by rewrite lookup_insert_eq.
    + destruct (H3 a alloc c Hx0) as (j & t & Htj & Hb). exists j, t. split; [|done].
      rewrite lookup_insert_ne; [done|]. intros ->. by apply (Hn t).
  - intros a. rewrite H4. by setoid_rewrite Hleak.
  - unfold boxes. simpl. rewrite fmap_insert. apply map_eq. intros j.
    destruct (decide (j = id)) as [->|Hj]; [by rewrite !lookup_insert_eq|].
    rewrite !lookup_insert_ne, !lookup_fmap by done.
    destruct (ts !! j) as [t|] eqn:Htj; [|done]. simpl. f_equal. by eapply Hoth.
Qed.

(** A constructor that throws leaves a block. *)
Lemma world_leak h ts g a alloc :
  world_ok (World h ts g) -> h !! a = None ->
  world_ok (World (<[a := (alloc, None)]> h) ts (g ∪ {[a]})) /\
  boxes (World (<[a := (alloc, None)]> h) ts (g ∪ {[a]})) = boxes (World h ts g).
Proof.
  intros [H1 H2 H3 H4] Ha. simpl in *.
  assert (forall j t, ts !! j = Some t ->
    task_ok (<[a := (alloc, None)]> h) t /\ box_of (<[a := (alloc, None)]> h) t = box_of h t) as Hoth.
  { intros j t Htj. apply task_ok_agree; [by eapply H1|]. intros b Hb. rewrite lookup_insert_ne; [done|].
    intros <-. destruct (block_in_heap h t a (H1 j t Htj) Hb) as (? & ? & ?). congruence. }
  split; [split; simpl|].
  - intros j t Htj. by eapply Hoth.
  - apply H2.
  - intros b al c [[_ [=]]|[_ Hb]]%lookup_insert_Some. by eapply H3.
  - intros b. rewrite elem_of_union, elem_of_singleton, H4. split.
    + intros [[al Hb]| ->]; [exists al; rewrite lookup_insert_ne; [done|congruence]|exists alloc; apply lookup_insert_eq].
    + intros [al [[<- _]|[_ Hb]]%lookup_insert_Some]; eauto.
  - unfold boxes. apply map_eq. intros j. simpl. rewrite !lookup_fmap.
    destruct (ts !! j) as [t|] eqn:Htj; [|done]. simpl. f_equal. by eapply Hoth.
Qed.

(** What a step of the program does is what the boxes say. *)
Definition step_ok (w : world) (op : task_op) : Prop :=
  match world_step w op with
  | Some (w', r) => world_ok w' /\ spec_op (boxes w) op = Some (boxes w', r)
  | None => spec_op (boxes w) op = None
  end.

Lemma make_step h ts g id c alloc oom throws :
  world_ok (World h ts g) -> step_ok (World h ts g) (t_make id c alloc oom throws).
Proof.
  intros H. unfold step_ok. simpl. rewrite lookup_boxes.
  destruct (ts !! id) as [t|] eqn:Hid; [done|]. simpl. rewrite task_make_eq. unfold make_box.
  assert (g ∪ (dom h ∖ dom h) = g) as Hd by by rewrite difference_diag_L, union_empty_r_L.
  destruct (small (sizeof c)) eqn:Es; simpl.
  - destruct throws; simpl; [by rewrite Hd|].
    destruct (world_update h ts g id (Task (Inline c) (invoke (sizeof c)) (Some (sizeof c)) alloc) h H) as [Hok E]; try done.
    + right. exists (sizeof c). rewrite Es. eauto 6.
    + intros a al x Hx. right. split; [done|]. congruence.
    + split; [done|]. rewrite E. unfold box_of, adapter_get. simpl. by rewrite Es.
  - destruct oom; simpl; [by rewrite Hd|]. set (a := fresh (dom h)).
    assert (h !! a = None) as Ha by apply not_elem_of_dom, is_fresh.
    destruct throws; simpl.
    + destruct (world_leak h ts g a alloc H Ha) as [Hok E].
      assert (g ∪ (dom (<[a := (alloc, None)]> h) ∖ dom h) = g ∪ {[a]}) as ->.
      { apply not_elem_of_dom in Ha. rewrite dom_insert_L. f_equal. apply set_eq. intros b.
        rewrite elem_of_difference, elem_of_union, elem_of_singleton. split; [tauto|]. intros ->. auto. }
      split; [done|]. by rewrite E.
    + destruct (world_update h ts g id (Task (Pointer (Some a)) (invoke (sizeof c)) (Some (sizeof c)) alloc)
                  (<[a := (alloc, Some c)]> h) H) as [Hok E].
      * right. exists (sizeof c). rewrite Es. split_and!; try done. exists a, alloc, c. by rewrite lookup_insert_eq.
      * intros j t b Hj Htj Hb. rewrite lookup_insert_ne; [done|]. intros <-.
        destruct (block_in_heap h t a (wo_tasks _ H j t Htj) Hb) as (? & ? & ?). simpl in *. congruence.
      * intros b. unfold block_of. simpl. rewrite Es. intros [= <-]. by left.
      * intros b al x. unfold block_of. simpl. rewrite Es.
        intros [[-> _]|[Hb Hx]]%lookup_insert_Some; [by left|right]. split; [done|]. congruence.
      * intros b al. destruct (decide (b = a)) as [->|Hne]; [rewrite lookup_insert_eq, Ha; split; congruence|].
        by rewrite lookup_insert_ne.
      * split; [done|]. rewrite E. unfold box_of, adapter_get. simpl. by rewrite Es, lookup_insert_eq.
Qed.

Lemma invoke_step h ts g id : world_ok (World h ts g) -> step_ok (World h ts g) (t_invoke id).
Proof.
  intros H. unfold step_ok. simpl. rewrite lookup_boxes.
  destruct (ts !! id) as [t|] eqn:Hid; [|done]. simpl.
  destruct (wo_tasks _ H id t Hid) as [[E1 E2]|(size & E1 & E2 & Hm)]; unfold task_invoke, box_of; rewrite E1, E2; simpl in *.
  - rewrite insert_id by done. done.
  - unfold adapter_get, adapter_set, small_set. destruct (small size) eqn:Es.
    + destruct Hm as [c Em]. rewrite Em. simpl.
      destruct (world_update h ts g id (Task (Inline (call c).2) (invoke size) (Some size) (alloc_ t)) h H) as [Hok E]; try done.
      * right. exists size. rewrite Es. eauto 6.
      * intros a al x Hx. right. split; [done|]. intros t0 Ht0. rewrite Hid in Ht0. injection Ht0 as <-.
        unfold block_of. by rewrite E1, Em.
      * split; [done|]. rewrite E. unfold box_of, adapter_get. simpl. by rewrite Es.
    + destruct Hm as (a & alloc & c & Em & Eh). rewrite Em. simpl. rewrite Eh. simpl.
      assert (block_of t = Some a) as Hb by (unfold block_of; by rewrite E1, Em, Es).
      assert (forall k, block_of (Task (Pointer (Some a)) (invoke size) (Some size) k) = Some a) as Hb'
        by (intros k; unfold block_of; simpl; by rewrite Es).
      destruct (world_update h ts g id (Task (Pointer (Some a)) (invoke size) (Some size) (alloc_ t))
                  (alter (fun x => (x.1, Some (call c).2)) a h) H) as [Hok E].
      * right. exists size. rewrite Es. split_and!; try done. exists a, alloc, (call c).2.
        by rewrite lookup_alter_eq, Eh.
      * intros j t0 b Hj Htj Hbj. rewrite lookup_alter_ne; [done|]. intros <-. apply Hj. by eapply (wo_unique _ H).
      * intros b. rewrite Hb'. intros [= <-]. right. eauto.
      * intros b al x. rewrite Hb'. destruct (decide (b = a)) as [->|Hne]; [by left|].
        rewrite lookup_alter_ne by done. intros Hx. right. split; [done|].
        intros t0 Ht0. rewrite Hid in Ht0. injection Ht0 as <-. rewrite Hb. congruence.
      * intros b al. destruct (decide (b = a)) as [->|Hne]; [rewrite lookup_alter_eq, Eh; split; done|].
        by rewrite lookup_alter_ne.
      * split; [done|]. rewrite E. unfold box_of, adapter_get. simpl. by rewrite Es, lookup_alter_eq, Eh.
Qed.

(** The move of a full task: the target stays where it is, with the other task. *)
Lemma full_move h t size :
  helper_ t = Some size -> invoke_ t = invoke size -> task_ok h t ->
  exists m' b, task_move t = Ok (Task (memory_ t) (invoke size) (Some size) default_alloc, Task m' invalid_invoke None (alloc_ t)) /\
    box_of h t = Some b /\
    box_of h (Task (memory_ t) (invoke size) (Some size) default_alloc) =
      Some (Box (b_target b) (b_size b) (b_block b) default_alloc).
Proof.
  intros E1 E2 [[? _]|(size' & E1' & _ & Hm)]; [congruence|]. rewrite E1 in E1'. injection E1' as <-.
  unfold task_move, helper_move, adapter_move, box_of, adapter_get. rewrite E1, E2. simpl. destruct (small size).
  - destruct Hm as [c ->]. simpl. eauto.
  - destruct Hm as (a & alloc & c & -> & Eh). simpl. rewrite Eh. simpl. eauto.
Qed.

(** Assigning a full task to an empty one comes to a call through the null helper. *)
Lemma assign_to_empty n h t size :
  helper_ t = Some size -> invoke_ t = invoke size -> task_ok h t ->
  task_assign (3 + n) h task_empty t = Some Undefined.
Proof.
  intros E1 E2 Ht. destruct (full_move h t size E1 E2 Ht) as (m & _ & Hmv & _). cbn -[task_move]. rewrite Hmv.
  destruct (full_move h (Task (memory_ t) (invoke size) (Some size) default_alloc) size eq_refl eq_refl)
    as (m' & _ & Hmv' & _).
  - right. exists size. split_and!; try done. destruct Ht as [[? _]|(size' & E1' & _ & Hm)]; [congruence|].
    rewrite E1 in E1'. by injection E1' as <-.
  - by rewrite Hmv'.
Qed.

Lemma move_step h ts g src dst : world_ok (World h ts g) -> step_ok (World h ts g) (t_move src dst).
Proof.
  intros H. unfold step_ok. simpl. rewrite !lookup_boxes.
  destruct (ts !! src) as [t|] eqn:Hsrc; [|done]. simpl. destruct (ts !! dst) as [|] eqn:Hdst.
  { simpl. by destruct (box_of h t). }
  pose proof (wo_tasks _ H src t Hsrc) as Ht. simpl in Ht. pose proof Ht as Ht'.
  destruct Ht' as [[E1 _]|(size & E1 & E2 & _)]; [unfold task_move, box_of; by rewrite E1|].
  destruct (full_move h t size E1 E2 Ht) as (m' & b & Hmv & Hb & Hb').
  set (t' := Task (memory_ t) (invoke size) (Some size) default_alloc) in *.
  set (t'' := Task m' invalid_invoke None (alloc_ t)) in *. rewrite Hmv, Hb. simpl.
  assert (task_ok h t' /\ block_of t' = block_of t) as (Hok' & Hbl).
  { split; [|unfold block_of; by rewrite E1]. right. exists size. split_and!; try done.
    destruct Ht as [[? _]|(size' & E1' & _ & Hm)]; [congruence|]. rewrite E1 in E1'. by injection E1' as <-. }
  split.
  - split; simpl.
    + intros j tj [[-> <-]|[Hj [[-> <-]|[Hj' Htj]]%lookup_insert_Some]]%lookup_insert_Some;
        [done|by left|by apply (wo_tasks _ H j)].
    + intros j k tj tk a [[-> <-]|[Hj [[-> <-]|[Hj' Htj]]%lookup_insert_Some]]%lookup_insert_Some
        [[-> <-]|[Hk [[-> <-]|[Hk' Htk]]%lookup_insert_Some]]%lookup_insert_Some Ba Bb; try done.
      * rewrite Hbl in Ba. destruct Hk'. by eapply (wo_unique _ H).
      * rewrite Hbl in Bb. destruct Hj'. by eapply (wo_unique _ H).
      * by eapply (wo_unique _ H).
    + intros a al x Hx. destruct (wo_owned _ H a al x Hx) as (j & tj & Htj & Bj). simpl in Htj.
      destruct (decide (j = src)) as [->|Hne].
      * exists dst, t'. rewrite lookup_insert_eq, Hbl. split; [done|]. congruence.
      * exists j, tj. split; [|done]. rewrite !lookup_insert_ne; try done. intros <-. congruence.
    + apply (wo_leaked _ H).
  - unfold boxes. simpl. by rewrite !fmap_insert, Hb'.
Qed.

(** A task goes, with its block. *)
Lemma world_delete h ts g id t h' :
  world_ok (World h ts g) -> ts !! id = Some t ->
  (forall a, h' !! a = if decide (block_of t = Some a) then None else h !! a) ->
  world_ok (World h' (delete id ts) g) /\
  boxes (World h' (delete id ts) g) = delete id (boxes (World h ts g)).
Proof.
  intros [H1 H2 H3 H4] Hid Hh. simpl in *.
  assert (forall j tj, j <> id -> ts !! j = Some tj -> task_ok h' tj /\ box_of h' tj = box_of h tj) as Hoth.
  { intros j tj Hj Htj. apply task_ok_agree; [by eapply H1|]. intros a Hb. rewrite Hh, decide_False; [done|].
    intros Hb'. apply Hj. by eapply H2. }
  split; [split; simpl|].
  - intros j tj [Hj Htj]%lookup_delete_Some. by eapply Hoth.
  - intros j k tj tk a [_ Htj]%lookup_delete_Some [_ Htk]%lookup_delete_Some. by eapply H2.
  - intros a al x. rewrite Hh. case_decide as Hb; [done|]. intros Hx.
    destruct (H3 a al x Hx) as (j & tj & Htj & Hbj). exists j, tj. split; [|done].
    apply lookup_delete_Some. split; [|done]. intros <-. congruence.
  - intros a. rewrite H4, Hh. case_decide as Hb; [|done].
    destruct (block_in_heap h t a (H1 id t Hid) Hb) as (al & c & E). rewrite E. split; intros [? ?]; done.
  - unfold boxes. simpl. rewrite fmap_delete. apply map_eq. intros j.
    destruct (decide (j = id)) as [->|Hj]; [by rewrite !lookup_delete_eq|].
    rewrite !lookup_delete_ne, !lookup_fmap by done.
    destruct (ts !! j) as [tj|] eqn:Htj; [|done]. simpl. f_equal. by eapply Hoth.
Qed.

(** The destructor of a task: undefined, or the task's block is gone. *)
Lemma destroy_cases h t :
  task_ok h t ->
  match box_of h t with
  | Some b =>
      if releasable b then exists h', task_destroy h t = Ok h' /\
        forall a, h' !! a = if decide (block_of t = Some a) then None else h !! a
      else task_destroy h t = Undefined
  | None => task_destroy h t = Ok h /\ block_of t = None
  end.
Proof.
  unfold task_destroy, helper_destroy, adapter_get, adapter_deallocate, block_of, box_of.
  intros [[-> _]|(size & -> & _ & Hm)]; [done|]. simpl. unfold adapter_get. destruct (small size).
  - destruct Hm as [c ->]. simpl. by exists h.
  - destruct Hm as (a & alloc & c & -> & Eh). simpl. rewrite Eh. simpl. unfold releasable. simpl.
    destruct (decide (alloc = alloc_ t)) as [E|E]; [rewrite bool_decide_true by done|by rewrite bool_decide_false].
    exists (delete a h). split; [done|]. intros b.
    destruct (decide (a = b)) as [->|]; [by rewrite lookup_delete_eq, decide_True|].
    rewrite lookup_delete_ne, decide_False by congruence. done.
Qed.

Lemma destroy_step h ts g id : world_ok (World h ts g) -> step_ok (World h ts g) (t_destroy id).
Proof.
  intros H. unfold step_ok. simpl. rewrite lookup_boxes.
  destruct (ts !! id) as [t|] eqn:Hid; [|done]. simpl.
  pose proof (destroy_cases h t (wo_tasks _ H id t Hid)) as Hd. destruct (box_of h t) as [b|] eqn:Eb; simpl.
  - destruct (releasable b); [|by rewrite Hd]. destruct Hd as (h' & -> & Hh).
    destruct (world_delete h ts g id t h' H Hid Hh) as [Hok ->]. done.
  - destruct Hd as [-> Hb]. destruct (world_delete h ts g id t h H Hid) as [Hok ->]; [|done].
    intros a. by rewrite Hb.
Qed.

(** ** Theorems *)

(** A program that does nothing undefined and calls no target that does not return. *)
Definition world_exec (w : world) (op : task_op) : option world :=
  match world_step w op with
  | Some (w', (Ok _ | Raise _)) => Some w'
  | _ => None
  end.
Definition world_reached : world -> Prop := reachable world_exec (fun w => w = World ∅ ∅ ∅).

Lemma world_step_ok w op : world_ok w -> step_ok w op.
Proof.
  destruct w as [h ts], op; [apply make_step|apply move_step|apply invoke_step|apply destroy_step].
Qed.

Lemma world_reached_ok w : world_reached w -> world_ok w.
Proof.
  apply invariant_in_reachable. split.
  - intros ? -> _. split; simpl.
    + by intros id t ?%lookup_empty_Some.
    + by intros i j t t' a ?%lookup_empty_Some.
    + by intros a al x ?%lookup_empty_Some.
    + intros a. split; [set_solver|]. by intros [? ?%lookup_empty_Some].
  - intros w' op w'' _ Hok He _. pose proof (world_step_ok w' op Hok) as Hs. unfold world_exec, step_ok in *.
    destruct (world_step w' op) as [[w1 [| | |]]|]; try done; injection He as <-; apply Hs.
Qed.

(** C15. To the program a task is a box for one target: in every state reached without
    undefined behaviour, making (with any allocator, out of memory or with a
    constructor that throws), moving, invoking and destroying tasks succeeds, fails
    or is undefined exactly as the map [spec_op] from tasks to boxes says, wherever
    the targets are stored and however often they have moved.  Undefined is a move
    from an empty task, the destruction of a large target whose block came from
    another allocator than the box has, which is the default one after a move, and
    what a target does itself. *)
Theorem task_refines w op :
  world_reached w ->
  spec_op (boxes w) op = (fun x => (boxes x.1, x.2)) <$> world_step w op.
Proof.
  intros H%world_reached_ok. pose proof (world_step_ok w op H) as Hs. unfold step_ok in Hs.
  destruct (world_step w op) as [[w' r]|]; [|done]. by destruct Hs as [_ ->].
Qed.

(** C28. Blocks are not shared, and leaked only by constructors that throw: in every
    state reached without undefined behaviour a block of the heap either belongs to
    exactly one task or was left by the constructor of a target that threw, never
    both; when all tasks are gone only the latter remain. *)
Theorem task_blocks_owned w :
  world_reached w ->
  (forall a, is_Some (w_heap w !! a) <->
     (exists id t, w_tasks w !! id = Some t /\ block_of t = Some a) \/ a ∈ g_leaked w) /\
  (forall id t a, w_tasks w !! id = Some t -> block_of t = Some a -> a ∉ g_leaked w) /\
  (forall i j t t' a, w_tasks w !! i = Some t -> w_tasks w !! j = Some t' ->
     block_of t = Some a -> block_of t' = Some a -> i = j) /\
  (w_tasks w = ∅ -> dom (w_heap w) = g_leaked w).
Proof.
  intros H%world_reached_ok.
  assert (forall a, is_Some (w_heap w !! a) <->
    (exists id t, w_tasks w !! id = Some t /\ block_of t = Some a) \/ a ∈ g_leaked w) as Hall.
  { intros a. split.
    - intros [[al [c|]] Hx]; [left; by eapply (wo_owned _ H)|right]. apply (wo_leaked _ H). eauto.
    - intros [(id & t & Ht & Hb)|[al Ha]%(wo_leaked _ H)]; [|by eexists].
      destruct (block_in_heap _ _ _ (wo_tasks _ H id t Ht) Hb) as (? & ? & ?). by eexists. }
  split_and!.
  - done.
  - intros id t a Ht Hb [al Ha]%(wo_leaked _ H).
    destruct (block_in_heap _ _ _ (wo_tasks _ H id t Ht) Hb) as (? & ? & ?). congruence.
  - apply (wo_unique _ H).
  - intros E. apply set_eq. intros a. rewrite elem_of_dom, Hall, E. split; [|by right].
    intros [(id & t & ?%lookup_empty_Some & _)|?]; done.
Qed.
End task.

(** ** The size of the reserved memory *)

Lemma land_round x k : 0 <= k < 64 -> 0 <= x < 2 ^ 64 ->
  Z.land x (wrap 64 (Z.lnot (2 ^ k - 1))) = x / 2 ^ k * 2 ^ k.
Proof.
  intros Hk Hx. unfold wrap. rewrite <- !Z.land_ones by lia.
  replace (2 ^ k - 1) with (Z.ones k) by (rewrite Z.ones_equiv; lia).
  rewrite Z.land_comm, <- Z.land_assoc, (Z.land_comm (Z.ones 64)), Z.land_ones, Z.mod_small by lia.
  rewrite Z.land_comm, <- Z.ldiff_land, Z.ldiff_ones_r by lia.
  by rewrite Z.shiftl_mul_pow2, Z.shiftr_div_pow2 by lia.
Qed.

(** The reserved size is the requested one rounded up to the alignment of a
    function pointer, and never less than a function pointer. *)
Theorem task_memory_size_spec fptr_size k size :
  0 <= k < 64 -> 0 < fptr_size < 2 ^ 64 -> (2 ^ k | fptr_size) -> 0 <= size <= 2 ^ 64 - 2 ^ k ->
  let r := task_memory_size fptr_size (2 ^ k) size in
  size <= r /\ fptr_size <= r /\ (2 ^ k | r) /\ r < Z.max (size + 2 ^ k) (fptr_size + 1).
Proof.
  intros Hk Hf Hd Hs. pose proof (Z.pow_pos_nonneg 2 k ltac:(lia) ltac:(lia)) as Hp.
  unfold task_memory_size. rewrite (wrap_small 64) by lia. rewrite land_round by lia.
  pose proof (Z.div_mod (size + 2 ^ k - 1) (2 ^ k) ltac:(lia)).
  pose proof (Z.mod_pos_bound (size + 2 ^ k - 1) (2 ^ k) Hp).
  set (y := (size + 2 ^ k - 1) / 2 ^ k * 2 ^ k). assert (size <= y < size + 2 ^ k) as Hy by lia.
  split; [lia|]. split; [lia|]. split; [|lia].
  destruct (Z.max_spec y fptr_size) as [[_ ->]|[_ ->]]; [done|]. apply Z.divide_factor_r.
Qed.

Lemma task_memory_size_spec_witness :
  task_memory_size 8 8 24 = 24 /\ task_memory_size 8 8 25 = 32 /\
  25 <= task_memory_size 8 8 25 /\ 8 <= task_memory_size 8 8 25 /\ (8 | task_memory_size 8 8 25).
Proof.
  split; [reflexivity|]. split; [reflexivity|].
  destruct (task_memory_size_spec 8 3 25) as (H1 & H2 & H3 & _); [lia|lia|exists 1; reflexivity|lia|].
  split; [exact H1|]. split; [exact H2|exact H3].
Defined.

(** ** A run: a large target, moved, invoked and destroyed *)

Section example.
Local Abbreviation target := (Z * Z)%type.

(** A target with its size and the number it returns. *)
Definition example_call (c : target) : result task_error Z * target := (Ok c.2, c).

Local Abbreviation world1 := (world (C := target) (A := bool)).

(** The default allocator is [false]: one task with a large target is made, and
    moved; another one is made with the allocator [true], and the constructor of
    a third target throws. *)
Definition example_ops : list (task_op (C := target) (A := bool)) :=
  [t_make 0 (64, 5) false false false; t_move 0 1; t_make 2 (64, 6) true false false; t_make 3 (64, 7) false false true].

Definition example_world : world1 :=
  default (World ∅ ∅ ∅) (run (world_exec false fst example_call 8) (World ∅ ∅ ∅) example_ops).

Lemma example_reached : world_reached false fst example_call 8 example_world.
Proof. apply (run_reachable _ _ (World ∅ ∅ ∅) example_ops); [done|]. vm_compute. reflexivity. Qed.

(** The moved task runs the target, the old one raises and cannot be moved; the
    task with the other allocator can be destroyed, but not after a move. *)
Lemma task_refines_witness :
  (snd <$> spec_op false fst example_call 8 (boxes 8 example_world) (t_invoke 1)) = Some (Ok (Some 5)) /\
  (snd <$> spec_op false fst example_call 8 (boxes 8 example_world) (t_invoke 0)) = Some (Raise bad_function_call) /\
  (snd <$> spec_op false fst example_call 8 (boxes 8 example_world) (t_move 0 4)) = Some Undefined /\
  (snd <$> spec_op false fst example_call 8 (boxes 8 example_world) (t_destroy 2)) = Some (Ok None).
Proof.
  split_and!; rewrite (task_refines false fst example_call 8 example_world _ example_reached); vm_compute; reflexivity.
Defined.

Lemma task_blocks_owned_witness :
  size (w_heap example_world) = 3%nat /\ size (g_leaked example_world) = 1%nat /\
  forall a, is_Some (w_heap example_world !! a) <->
    (exists id t, w_tasks example_world !! id = Some t /\ block_of 8 t = Some a) \/ a ∈ g_leaked example_world.
Proof.
  split; [vm_compute; reflexivity|]. split; [vm_compute; reflexivity|].
  apply (task_blocks_owned false fst example_call 8 example_world example_reached).
Defined.
End example.
