(* ===== verification/Basic.v ===== *)
(** * Basics (evenk/basic.h) and threads (evenk/thread.h)

    Error reporting, aligned allocation and the affinity of a thread.  The C
    library and the kernel are parameters: posix_memalign, and the calls that
    set and get the affinity mask of a thread. *)

From stdpp Require Import prelude.
From S2P Require Import Prelude.
Local Open Scope Z_scope.

(** ** basic.h *)

Inductive std_error : Type := system_error (err_num : Z) | bad_alloc_error.

Definition throw_system_error {A : Type} (err_num : Z) : result std_error A := Raise (system_error err_num).

Definition cache_line_size : Z := 64.

Section allocation.
(** posix_memalign: the error number and the block. *)
Context {Ptr : Type} (posix_memalign : Z -> Z -> Z * Ptr).

Definition aligned_alloc (alignment size : Z) : result std_error Ptr :=
  let r := posix_memalign alignment size in
  if decide (r.1 <> 0) then Raise bad_alloc_error else Ok r.2.

Definition cache_aligned_alloc (size : Z) : result std_error Ptr := aligned_alloc cache_line_size size.
End allocation.

(** ** thread.h *)

Definition EINVAL : Z := 22.
Definition CPU_SETSIZE : Z := 1024.

(** A thread object: the thread it stands for, if any. *)
Record thread : Type := Thread { native_handle : option nat }.

Definition joinable (t : thread) : bool := match native_handle t with Some _ => true | None => false end.

(** The moves swap; assignment leaves the old thread of the target in the source. *)
Definition thread_swap (a b : thread) : thread * thread := (b, a).
Definition thread_move (other : thread) : thread * thread := thread_swap (Thread None) other.
Definition thread_assign (this other : thread) : thread * thread := thread_swap this other.

(** A [cpu_set_t]: [CPU_SETSIZE] bits. *)
Abbreviation cpu_set := (list bool).
Definition cpu_bit (m : list bool) (cpu : Z) : bool := default false (m !! Z.to_nat cpu).
Definition cpu_zero : cpu_set := replicate (Z.to_nat CPU_SETSIZE) false.
Definition CPU_SET (cpu : Z) (m : cpu_set) : cpu_set := <[Z.to_nat cpu := true]> m.

(** The loop of the setter, from [cpu] on. *)
Fixpoint cpu_fill (cpuset : list bool) (fuel : nat) (cpu cpu_num : Z) (m : cpu_set) : cpu_set :=
  match fuel with
  | O => m
  | S fuel =>
      if cpu <? cpu_num
      then cpu_fill cpuset fuel (cpu + 1) cpu_num (if cpu_bit cpuset cpu then CPU_SET cpu m else m)
      else m
  end.

(** The loop of the getter. *)
Fixpoint cpu_read (m : cpu_set) (fuel : nat) (cpu cpu_num : Z) (cpuset : list bool) : list bool :=
  match fuel with
  | O => cpuset
  | S fuel =>
      if cpu <? cpu_num then cpu_read m fuel (cpu + 1) cpu_num (cpuset ++ [cpu_bit m cpu]) else cpuset
  end.

Definition clamp (n : Z) : Z := if decide (n > CPU_SETSIZE) then CPU_SETSIZE else n.

Section affinity.
(** The kernel: the masks of the threads, and the two calls. *)
Context {K : Type}.
Context (pthread_setaffinity_np : K -> nat -> cpu_set -> Z * K).
Context (pthread_getaffinity_np : K -> nat -> Z * cpu_set).
Context (hardware_concurrency : Z).

Definition set_affinity (k : K) (t : thread) (cpuset : list bool) : K * result std_error unit :=
  match native_handle t with
  | None => (k, throw_system_error EINVAL)
  | Some handle =>
      let cpu_num := clamp (to_signed 32 (wrap 32 (Z.of_nat (length cpuset)))) in
      let native_cpuset := cpu_fill cpuset (Z.to_nat CPU_SETSIZE) 0 cpu_num cpu_zero in
      let r := pthread_setaffinity_np k handle native_cpuset in
      (r.2, if decide (r.1 <> 0) then throw_system_error r.1 else Ok tt)
  end.

Definition get_affinity (k : K) (t : thread) : result std_error (list bool) :=
  match native_handle t with
  | None => throw_system_error EINVAL
  | Some handle =>
      let cpu_num := clamp (to_signed 32 (wrap 32 hardware_concurrency)) in
      let r := pthread_getaffinity_np k handle in
      if decide (r.1 <> 0) then throw_system_error r.1
      else Ok (cpu_read r.2 (Z.to_nat CPU_SETSIZE) 0 cpu_num [])
  end.
End affinity.

(** Where the platform has no affinity calls. *)
Definition set_affinity_missing (t : thread) : result std_error unit :=
  if joinable t then Ok tt else throw_system_error EINVAL.
Definition get_affinity_missing (t : thread) : result std_error (list bool) :=
  if joinable t then Ok [] else throw_system_error EINVAL.

(** ** The loops *)

Lemma cpu_bit_set m cpu cpu' :
  0 <= cpu < Z.of_nat (length m) -> 0 <= cpu' ->
  cpu_bit (CPU_SET cpu m) cpu' = if decide (cpu = cpu') then true else cpu_bit m cpu'.
Proof.
  intros H H'. unfold cpu_bit, CPU_SET. case_decide as E.
  - subst. rewrite list_lookup_insert_eq by lia. done.
  - rewrite list_lookup_insert_ne by lia. done.
Qed.

Lemma cpu_fill_spec cpuset fuel cpu n m i :
  0 <= cpu -> n <= Z.of_nat (length m) -> n - cpu <= Z.of_nat fuel -> 0 <= i ->
  cpu_bit (cpu_fill cpuset fuel cpu n m) i
  = if decide (cpu <= i < n) then cpu_bit cpuset i || cpu_bit m i else cpu_bit m i.
Proof.
  revert cpu m. induction fuel as [|fuel IH]; intros cpu m Hc Hn Hf Hi; simpl.
  - rewrite decide_False by lia. done.
  - destruct (Z.ltb_spec cpu n).
    + rewrite IH; try lia; [|destruct (cpu_bit cpuset cpu); unfold CPU_SET; rewrite ?length_insert; lia].
      assert (cpu_bit (if cpu_bit cpuset cpu then CPU_SET cpu m else m) i
              = if decide (cpu = i) then cpu_bit cpuset cpu || cpu_bit m i else cpu_bit m i) as ->.
      { destruct (cpu_bit cpuset cpu); [rewrite cpu_bit_set by lia|]; by destruct (decide (cpu = i)). }
      clear IH. destruct (decide (cpu = i)) as [->|].
      * rewrite decide_False, decide_True by lia. done.
      * repeat case_decide; done || lia.
    + rewrite decide_False by lia. done.
Qed.

Lemma cpu_read_spec m fuel cpu n l :
  0 <= cpu -> n - cpu <= Z.of_nat fuel ->
  cpu_read m fuel cpu n l = l ++ ((fun i => cpu_bit m (cpu + Z.of_nat i)) <$> seq 0 (Z.to_nat (n - cpu))).
Proof.
  revert cpu l. induction fuel as [|fuel IH]; intros cpu l Hc Hf; simpl.
  - replace (Z.to_nat (n - cpu)) with 0%nat by lia. by rewrite app_nil_r.
  - destruct (Z.ltb_spec cpu n).
    + rewrite IH by lia. rewrite <- app_assoc. f_equal.
      replace (Z.to_nat (n - cpu)) with (S (Z.to_nat (n - (cpu + 1)))) by lia. simpl.
      rewrite Z.add_0_r. f_equal. rewrite <- fmap_S_seq, <- list_fmap_compose.
      apply list_fmap_ext. intros j x _. simpl. f_equal. lia.
    + replace (Z.to_nat (n - cpu)) with 0%nat by lia. by rewrite app_nil_r.
Qed.

(** ** Theorems *)

Lemma clamp_signed n : 0 <= n < 2 ^ 31 -> clamp (to_signed 32 (wrap 32 n)) = Z.min n CPU_SETSIZE.
Proof.
  intros Hn. rewrite to_signed_wrap by lia. unfold clamp, CPU_SETSIZE. case_decide; lia.
Qed.

Lemma cpu_zero_bit i : cpu_bit cpu_zero i = false.
Proof.
  unfold cpu_bit, cpu_zero. destruct (replicate _ false !! Z.to_nat i) as [b|] eqn:E; [|done].
  by apply lookup_replicate in E as [-> _].
Qed.

Lemma cpu_bit_beyond m i : Z.of_nat (length m) <= i -> cpu_bit m i = false.
Proof. intros H. unfold cpu_bit. by rewrite lookup_ge_None_2 by lia. Qed.

(** The mask the setter hands to the kernel. *)
Lemma native_mask cpuset i :
  Z.of_nat (length cpuset) < 2 ^ 31 -> 0 <= i < CPU_SETSIZE ->
  cpu_bit (cpu_fill cpuset (Z.to_nat CPU_SETSIZE) 0
             (clamp (to_signed 32 (wrap 32 (Z.of_nat (length cpuset))))) cpu_zero) i = cpu_bit cpuset i.
Proof.
  intros Hl Hi. rewrite clamp_signed by lia.
  rewrite cpu_fill_spec; [|lia|unfold cpu_zero; rewrite length_replicate; lia|lia|lia].
  rewrite cpu_zero_bit, orb_false_r. case_decide; [done|]. rewrite cpu_bit_beyond; [done|lia].
Qed.

(** C33. What affinity reads back after it has been set: for every CPU the
    getter reports, whether it was requested and the system allows it; sets
    longer or shorter than the number of CPUs, or than a [cpu_set_t], are cut
    and padded.  The kernel is assumed to keep the requested CPUs it allows. *)
Theorem affinity_roundtrip {K} set_np get_np hardware_concurrency (allowed : Z -> bool)
    (k k' : K) (t : thread) cpuset :
  (forall k handle m k1, set_np k handle m = (0, k1) ->
     exists m', get_np k1 handle = (0, m') /\
       forall cpu, 0 <= cpu < CPU_SETSIZE -> cpu_bit m' cpu = cpu_bit m cpu && allowed cpu) ->
  Z.of_nat (length cpuset) < 2 ^ 31 -> 0 <= hardware_concurrency < 2 ^ 31 ->
  set_affinity set_np k t cpuset = (k', Ok tt) ->
  get_affinity get_np hardware_concurrency k' t
  = Ok ((fun i => cpu_bit cpuset (Z.of_nat i) && allowed (Z.of_nat i))
          <$> seq 0 (Z.to_nat (Z.min hardware_concurrency CPU_SETSIZE))).
Proof.
  intros Hk Hl Hh Hs. pose proof (fun i => native_mask cpuset i Hl) as Hmask.
  unfold set_affinity, get_affinity in *. destruct (native_handle t) as [handle|]; [|done].
  revert Hs Hmask. generalize (cpu_fill cpuset (Z.to_nat CPU_SETSIZE) 0
    (clamp (to_signed 32 (wrap 32 (Z.of_nat (length cpuset))))) cpu_zero) as m. intros m Hs Hmask.
  destruct (set_np k handle m) as [rc k1] eqn:E. cbn [fst snd] in Hs. case_decide as Hrc; [done|].
  injection Hs as ->. assert (rc = 0) as -> by lia.
  destruct (Hk _ _ _ _ E) as (m' & -> & Hm). cbn [fst snd]. rewrite decide_False by lia. f_equal.
  rewrite clamp_signed, cpu_read_spec by (unfold CPU_SETSIZE; lia). rewrite Z.sub_0_r.
  apply list_fmap_ext. intros j i [-> Hi]%lookup_seq.
  rewrite Z.add_0_l, Hm, Hmask by (unfold CPU_SETSIZE in *; lia). done.
Qed.

Lemma affinity_roundtrip_witness :
  get_affinity (fun (k : cpu_set) _ => (0, k)) 4
    (cpu_fill [true; false; true] (Z.to_nat CPU_SETSIZE) 0 3 cpu_zero) (Thread (Some 1%nat))
  = Ok [true; false; true; false].
Proof.
  apply (affinity_roundtrip (fun _ _ m => (0, m)) (fun k _ => (0, k)) 4 (fun _ => true) cpu_zero
    (cpu_fill [true; false; true] (Z.to_nat CPU_SETSIZE) 0 3 cpu_zero) (Thread (Some 1%nat)) [true; false; true]).
  - intros k handle m k1 [= <-]. exists m. split; [reflexivity|]. intros cpu _. rewrite andb_true_r. reflexivity.
  - reflexivity.
  - split; [discriminate|reflexivity].
  - reflexivity.
Defined.
