(* ===== verification/Posix.v ===== *)
(** * POSIX mutex and condition variable (evenk/synch.h: posix_mutex, posix_cond_var)

    The wrappers over the pthread library.  The library is a parameter: what a
    call does to the mutex and the number it returns.  A call of
    [pthread_mutex_lock] that has to wait has no result yet. *)

From stdpp Require Import prelude.
From S2P Require Import Prelude Basic.
Local Open Scope Z_scope.

(** How a method ends: a [noexcept] method that throws terminates the program. *)
Inductive ending (A : Type) : Type :=
| Returns (a : A)
| Throws (e : std_error)
| Terminates.
Arguments Returns {A} _.
Arguments Throws {A} _.
Arguments Terminates {A}.

Definition ends {A : Type} (r : result std_error A) : ending A :=
  match r with Ok a => Returns a | Raise e => Throws e | _ => Terminates end.
Definition noexcept {A : Type} (x : ending A) : ending A :=
  match x with Throws _ => Terminates | x => x end.

Module Posix.
Section posix.
(** The mutexes, the condition variables, and the calls on behalf of a thread. *)
Context {M C : Type}.
Context (pthread_mutex_lock : nat -> M -> option (Z * M)).
Context (pthread_mutex_trylock pthread_mutex_unlock : nat -> M -> Z * M).
Context (pthread_cond_wait : nat -> C -> M -> option (Z * C * M)).
Context (pthread_cond_signal pthread_cond_broadcast : C -> Z * C).

Definition lock (u : nat) (mutex_ : M) : option (M * ending unit) :=
  r ← pthread_mutex_lock u mutex_;
  Some (r.2, if decide (r.1 <> 0) then ends (throw_system_error r.1) else Returns tt).

Definition try_lock (u : nat) (mutex_ : M) : M * ending bool :=
  let r := pthread_mutex_trylock u mutex_ in (r.2, Returns (bool_decide (r.1 = 0))).

(** The number [pthread_mutex_unlock] returns is ignored. *)
Definition unlock (u : nat) (mutex_ : M) : M * ending unit :=
  ((pthread_mutex_unlock u mutex_).2, Returns tt).

Definition wait (u : nat) (cond_ : C) (mutex_ : M) : option (C * M * ending unit) :=
  r ← pthread_cond_wait u cond_ mutex_;
  Some (r.1.2, r.2,
        noexcept (if decide (r.1.1 <> 0) then ends (throw_system_error r.1.1) else Returns tt)).

Definition notify_one (cond_ : C) : C * ending unit := ((pthread_cond_signal cond_).2, Returns tt).
Definition notify_all (cond_ : C) : C * ending unit := ((pthread_cond_broadcast cond_).2, Returns tt).

(** ** Threads that use the mutex *)

Inductive pc : Type := Out | In | Locking.
Inductive choice : Type := CallLock | CallTry | CallUnlock | Go.

Definition step (u : nat) (m : M) (p : pc) (c : choice) : option (M * pc) :=
  match p, c with
  | Out, CallLock => Some (m, Locking)
  | Locking, Go =>
      r ← lock u m;
      Some (r.1, match r.2 with Returns _ => In | _ => Out end)
  | Out, CallTry =>
      let r := try_lock u m in
      Some (r.1, match r.2 with Returns true => In | _ => Out end)
  | In, CallUnlock => Some ((unlock u m).1, Out)
  | _, _ => None
  end.

Definition exec : pool M pc -> nat * choice -> option (pool M pc) := pool_exec step.

(** What the standard says of a mutex of the default type: [owner m] is the
    thread that has locked it. *)
Context (owner : M -> option nat) (fresh : M).
Hypothesis fresh_free : owner fresh = None.
Hypothesis lock_ok : forall u m rc m', pthread_mutex_lock u m = Some (rc, m') ->
  (rc = 0 -> owner m = None /\ owner m' = Some u) /\ (rc <> 0 -> owner m' = owner m).
Hypothesis trylock_ok : forall u m rc m', pthread_mutex_trylock u m = (rc, m') ->
  (rc = 0 -> owner m = None /\ owner m' = Some u) /\ (rc <> 0 -> owner m' = owner m).
Hypothesis unlock_ok : forall u m, owner m = Some u -> owner (pthread_mutex_unlock u m).2 = None.

Definition start (s : pool M pc) : Prop := exists n, s = Pool fresh (replicate n Out).

(** The owner is the thread that is inside. *)
Definition owned (s : pool M pc) : Prop := forall u, pcs s !! u = Some In -> owner (shared s) = Some u.

Lemma owned_step s l s' : owned s -> exec s l = Some s' -> owned s'.
Proof.
  intros H He. destruct l as [u c], s as [m ps]. pool_step He. simpl in Hp, Ht.
  assert (forall m1 q, (q = In -> owner m1 = Some u) ->
    owner m1 = owner m \/ owner m = None \/ owner m = Some u ->
    owned (Pool m1 (<[u := q]> ps))) as Hupd.
  { intros m1 q Hq Hm v Hv. apply insert_lookup_cases in Hv as [(-> & <- & _)|[Hne Hv]]; [by apply Hq|].
    pose proof (H v Hv) as Ho. simpl in *. destruct Hm as [Hm|[Hm|Hm]]; congruence. }
  destruct p, c; simpl in Ht; try done.
  - injection Ht as <- <-. apply Hupd; auto. done.
  - unfold try_lock in Ht. destruct (pthread_mutex_trylock u m) as [rc m1] eqn:E. simpl in Ht.
    destruct (trylock_ok u m rc m1 E) as [H0 H1]. injection Ht as <- <-.
    destruct (decide (rc = 0)) as [->|Hrc]; apply Hupd; simpl; intros; try tauto.
    by rewrite bool_decide_eq_false_2 in *.
  - injection Ht as <- <-. apply Hupd; [done|]. right; right. by apply (H u).
  - unfold lock in Ht. destruct (pthread_mutex_lock u m) as [[rc m1]|] eqn:E; [|done]. simpl in Ht.
    destruct (lock_ok u m rc m1 E) as [H0 H1]. injection Ht as <- <-.
    destruct (decide (rc = 0)) as [->|Hrc]; apply Hupd; simpl; intros; try tauto.
    by rewrite decide_True in *.
Qed.

(** posix_mutex excludes: a lock that returns normally, or a try_lock that
    returns true, leaves no other thread inside. *)
Lemma posix_mutex_excludes s u v :
  reachable exec start s -> pcs s !! u = Some In -> pcs s !! v = Some In -> u = v.
Proof.
  intros Hr Hu Hv. assert (owned s) as Ho.
  { clear Hu Hv. induction Hr as [s [n ->] _|s l s' _ IH He _]; [|by eapply owned_step].
    intros w Hw. by apply lookup_replicate in Hw as [? _]. }
  pose proof (Ho u Hu). pose proof (Ho v Hv). congruence.
Qed.

(** wait cannot report an error: it is declared [noexcept], so the throw in it
    ends the program. *)
Lemma posix_wait_terminates u c m rc c' m' :
  pthread_cond_wait u c m = Some (rc, c', m') -> rc <> 0 -> wait u c m = Some (c', m', Terminates).
Proof. intros E Hrc. unfold wait. rewrite E. simpl. by rewrite decide_True. Qed.
End posix.
End Posix.
