(* ===== verification/ThreadPool.v ===== *)
(** * The thread pool (evenk/thread_pool.h)

    Worker threads and client threads over a queue of tasks.  The queue is the
    sequential queue a queue class is refined to, each operation one step; the
    join lock is a mutex with its documented behaviour; joining a thread waits
    until it has finished.  The destructor destroys the queue with the derived
    part of the object first, and then stops and waits; what ends the program (a
    task that throws, a call of a pure virtual function, a use of the destroyed
    queue, a task whose move assignment does not return) is recorded in [fate].

    wait_pop move-assigns the task it takes to the variable of the worker before
    it removes the task from the queue.  Whether the assignment returns is a
    parameter, [assigns]: the theorems hold whatever it is, and evenk::task, the
    task type of the pool, has an assignment that never returns (PoolTask.v). *)

From stdpp Require Import prelude.
From S2P Require Import Prelude Conqueue Lock SynchQueue.
Local Open Scope Z_scope.

Module ThreadPool.
Section thread_pool.
Context {T : Type} (assigns : T -> bool).

Definition stop_flag : Z := 1.
Definition wait_flag : Z := 2.

Inductive accident : Type :=
| TaskThrew                   (* an exception leaves the function of a thread *)
| PureVirtual                 (* the destructor of the base calls shutdown *)
| UseAfterDestroy
| TaskAssign.                 (* the move assignment of a task does not return *)

Record state : Type := State {
  queue_ : bool * list T;
  flags_ : Z;
  join_lock_ : option nat;
  join_done_ : bool;
  gone : bool;                (* the derived part, with [queue_], is destroyed *)
  finished : list nat;        (* the threads that have returned from work *)
  fate : option accident;
  (* history *)
  submitted : list T;
  executed : list T;
  shutdowns : Z;
}.

Inductive outcome : Type :=
| Stopped                     (* stop has returned *)
| Waited                      (* wait has returned *)
| Destroyed                   (* the destructor has returned *)
| Submitted
| Refused (st : queue_op_status)
| SubmitThrew.                (* an exception has left submit *)

(** What follows a close: the return of stop, the rest of wait (in the
    destructor, or not), or the wait of the destructor. *)
Inductive after : Type := AStop | AWait (d : bool) | ADestroy.

Inductive pc : Type :=
(* a worker, in work *)
| WCheck | WPop | WRun (t : T) | WDone
(* a client *)
| CIdle (o : option outcome)
| CClose (flag : Z) (k : after)
| CShutdown (k : after)
| CLock (d : bool) | CTest (d : bool) | CJoin (d : bool) (i : nat) | CSetDone (d : bool) | CUnlock (d : bool).

(** [SubmitThrow]: making the task, or room for it in the queue, throws. *)
Inductive choice : Type := Go | Throw | Stop | Wait | Destroy | Submit (t : T) | SubmitThrow.

Definition set_queue (s : state) (q : bool * list T) : state :=
  State q (flags_ s) (join_lock_ s) (join_done_ s) (gone s) (finished s) (fate s) (submitted s) (executed s) (shutdowns s).
Definition set_flags (s : state) (f : Z) : state :=
  State (queue_ s) f (join_lock_ s) (join_done_ s) (gone s) (finished s) (fate s) (submitted s) (executed s) (shutdowns s).
Definition set_lock (s : state) (l : option nat) : state :=
  State (queue_ s) (flags_ s) l (join_done_ s) (gone s) (finished s) (fate s) (submitted s) (executed s) (shutdowns s).
Definition set_done (s : state) : state :=
  State (queue_ s) (flags_ s) (join_lock_ s) true (gone s) (finished s) (fate s) (submitted s) (executed s) (shutdowns s).
Definition set_gone (s : state) : state :=
  State (queue_ s) (flags_ s) (join_lock_ s) (join_done_ s) true (finished s) (fate s) (submitted s) (executed s) (shutdowns s).
Definition set_finished (s : state) (u : nat) : state :=
  State (queue_ s) (flags_ s) (join_lock_ s) (join_done_ s) (gone s) (u :: finished s) (fate s) (submitted s) (executed s) (shutdowns s).
Definition set_fate (s : state) (a : accident) : state :=
  State (queue_ s) (flags_ s) (join_lock_ s) (join_done_ s) (gone s) (finished s) (Some a) (submitted s) (executed s) (shutdowns s).
Definition add_submitted (s : state) (t : T) : state :=
  State (queue_ s) (flags_ s) (join_lock_ s) (join_done_ s) (gone s) (finished s) (fate s) (submitted s ++ [t]) (executed s) (shutdowns s).
Definition add_executed (s : state) (t : T) : state :=
  State (queue_ s) (flags_ s) (join_lock_ s) (join_done_ s) (gone s) (finished s) (fate s) (submitted s) (executed s ++ [t]) (shutdowns s).
Definition add_shutdown (s : state) : state :=
  State (queue_ s) (flags_ s) (join_lock_ s) (join_done_ s) (gone s) (finished s) (fate s) (submitted s) (executed s) (shutdowns s + 1).

Definition is_stopped (s : state) : bool := negb (Z.land (flags_ s) stop_flag =? 0).

(** A step that needs the derived part of the object. *)
Definition with_derived (s : state) (p : pc) (a : accident) (k : option (state * pc)) : option (state * pc) :=
  if gone s then Some (set_fate s a, p) else k.

(** work *)
Definition work_step (u : nat) (s : state) (p : pc) (c : choice) : option (state * pc) :=
  match p, c with
  | WCheck, Go => Some (if is_stopped s then (set_finished s u, WDone) else (s, WPop))
  | WPop, Go =>
      with_derived s p UseAfterDestroy
        match spec_apply (queue_ s) sq_wait_pop with
        | Some (Popped t, q) =>
            Some (if assigns t then (set_queue s q, WRun t) else (set_fate s TaskAssign, p))
        | Some (Returned st, q) =>
            Some (if decide (st = closed) then (set_finished (set_queue s q) u, WDone)
                  else (set_queue s q, WCheck))
        | _ => None
        end
  | WRun t, Go => Some (add_executed s t, WCheck)
  | WRun t, Throw => Some (set_fate s TaskThrew, WRun t)
  | _, _ => None
  end.

(** What follows close in stop, in wait and in the destructor. *)
Definition after_close (k : after) : pc :=
  match k with
  | AStop => CIdle (Some Stopped)
  | AWait d => CLock d
  | ADestroy => CClose wait_flag (AWait true)
  end.

(** shutdown: close the queue. *)
Definition shutdown (s : state) : state :=
  match spec_apply (queue_ s) sq_close with
  | Some (_, q) => add_shutdown (set_queue s q)
  | None => s
  end.

(** close, and the rest of stop and wait; [size] is [pool_.size()]. *)
Definition close_step (size u : nat) (s : state) (p : pc) : option (state * pc) :=
  match p with
  | CClose flag k =>
      Some (set_flags s (Z.lor (flags_ s) flag),
            if flags_ s =? 0 then CShutdown k else after_close k)
  | CShutdown k => with_derived s p PureVirtual (Some (shutdown s, after_close k))
  | CLock d => match join_lock_ s with None => Some (set_lock s (Some u), CTest d) | Some _ => None end
  | CTest d => Some (s, if join_done_ s then CUnlock d else CJoin d 0)
  | CJoin d i =>
      if (i <? size)%nat then (if decide (i ∈ finished s) then Some (s, CJoin d (S i)) else None)
      else Some (s, CSetDone d)
  | CSetDone d => Some (set_done s, CUnlock d)
  | CUnlock d => Some (set_lock s None, CIdle (Some (if d then Destroyed else Waited)))
  | _ => None
  end.

(** submit *)
Definition submit (s : state) (t : T) : option (state * pc) :=
  match spec_apply (queue_ s) (sq_push t) with
  | Some (Returned st, q) =>
      Some (match sq_basic_push st with
            | inr _ => (add_submitted (set_queue s q) t, CIdle (Some Submitted))
            | inl st => (set_queue s q, CIdle (Some (Refused st)))
            end)
  | _ => None
  end.

(** The calls of a client.  The destructor first destroys the derived part. *)
Definition call_step (s : state) (p : pc) (c : choice) : option (state * pc) :=
  match c with
  | Go | Throw => None
  | _ =>
      with_derived s p UseAfterDestroy
        match c with
        | Stop => Some (s, CClose stop_flag AStop)
        | Wait => Some (s, CClose wait_flag (AWait false))
        | Destroy => Some (set_gone s, CClose stop_flag ADestroy)
        | Submit t => submit s t
        | SubmitThrow => Some (s, CIdle (Some SubmitThrew))
        | _ => None
        end
  end.

Definition step (size u : nat) (s : state) (p : pc) (c : choice) : option (state * pc) :=
  match fate s with
  | Some _ => None
  | None =>
      match p with
      | WCheck | WPop | WRun _ | WDone => work_step u s p c
      | CIdle _ => call_step s p c
      | _ => match c with Go => close_step size u s p | _ => None end
      end
  end.

Definition init : state := State (false, []) 0 None false false [] None [] [] 0.

(** The errors of activate: an active pool, and a system that cannot start a
    thread. *)
Inductive error : Type := AlreadyActive | NoThread.

(** activate: an active pool refuses, else up to [size] threads start in work,
    as many as the system can start ([can]).  Also [pool_] after the call. *)
Definition activate (pool_ : list pc) (can size : nat) : list pc * result error unit :=
  if decide (length pool_ <> 0%nat) then (pool_, Raise AlreadyActive)
  else if (size <=? can)%nat then (replicate size WCheck, Ok tt) else (replicate can WCheck, Raise NoThread).

(** The constructor: when activate throws, the queue and the base are destroyed
    again, and the destructor of the base stops the pool. *)
Definition construct (can size : nat) : state * list pc :=
  match activate [] can size with
  | (ws, Ok _) => (init, ws)
  | (ws, _) => (if flags_ init =? 0 then set_fate (set_gone init) PureVirtual else set_gone init, ws)
  end.

(** size and operator[]; an index out of range is undefined. *)
Definition pool_size (pool_ : list pc) : nat := length pool_.
Definition pool_at (pool_ : list pc) (index : nat) : result error pc :=
  match pool_ !! index with Some t => Ok t | None => Undefined end.

Definition exec (size : nat) : pool state pc -> nat * choice -> option (pool state pc) :=
  pool_exec (step size).

(** A pool after its construction, with [n] client threads. *)
Definition start (size : nat) (s : pool state pc) : Prop :=
  exists n can, (size <= can)%nat /\
    s = Pool (construct can size).1 ((construct can size).2 ++ replicate n (CIdle None)).
End thread_pool.

Arguments state T : clear implicits.
Arguments pc T : clear implicits.
Arguments choice T : clear implicits.
End ThreadPool.

(** ** Invariants *)

Section invariants.
Import ThreadPool.
Context {T : Type} (assigns : T -> bool) (size : nat).

Local Abbreviation pstate := (pool (ThreadPool.state T) (ThreadPool.pc T)).
Local Abbreviation exec := (ThreadPool.exec assigns size).

(** Where the program can end. *)
Definition accidental (s : state T) (p : pc T) (a : accident) : Prop :=
  match a, p with
  | TaskThrew, WRun _ => True
  | PureVirtual, CShutdown _ => gone s = true
  | UseAfterDestroy, WPop | UseAfterDestroy, CIdle _ => gone s = true
  | TaskAssign, WPop => exists b t vs, queue_ s = (b, t :: vs) /\ assigns t = false
  | _, _ => False
  end.

(** The steps, rule by rule. *)
Inductive moves (u : nat) (s : state T) : pc T -> state T -> pc T -> Prop :=
| m_stopped : is_stopped s = true -> moves u s WCheck (set_finished s u) WDone
| m_check : is_stopped s = false -> moves u s WCheck s WPop
| m_pop b t vs : queue_ s = (b, t :: vs) -> assigns t = true -> moves u s WPop (set_queue s (b, vs)) (WRun t)
| m_closed : queue_ s = (true, []) -> moves u s WPop (set_finished s u) WDone
| m_run t : moves u s (WRun t) (add_executed s t) WCheck
| m_close_first flag k :
    flags_ s = 0 -> moves u s (CClose flag k) (set_flags s flag) (CShutdown k)
| m_close flag k :
    flags_ s <> 0 -> moves u s (CClose flag k) (set_flags s (Z.lor (flags_ s) flag)) (after_close k)
| m_shutdown k b vs :
    queue_ s = (b, vs) -> gone s = false ->
    moves u s (CShutdown k) (add_shutdown (set_queue s (true, vs))) (after_close k)
| m_lock d : join_lock_ s = None -> moves u s (CLock d) (set_lock s (Some u)) (CTest d)
| m_test_done d : join_done_ s = true -> moves u s (CTest d) s (CUnlock d)
| m_test d : join_done_ s = false -> moves u s (CTest d) s (CJoin d 0)
| m_join d i : (i < size)%nat -> i ∈ finished s -> moves u s (CJoin d i) s (CJoin d (S i))
| m_joined d i : (size <= i)%nat -> moves u s (CJoin d i) s (CSetDone d)
| m_set_done d : moves u s (CSetDone d) (set_done s) (CUnlock d)
| m_unlock d : moves u s (CUnlock d) (set_lock s None) (CIdle (Some (if d then Destroyed else Waited)))
| m_stop o : gone s = false -> moves u s (CIdle o) s (CClose stop_flag AStop)
| m_wait o : gone s = false -> moves u s (CIdle o) s (CClose wait_flag (AWait false))
| m_destroy o : gone s = false -> moves u s (CIdle o) (set_gone s) (CClose stop_flag ADestroy)
| m_submit o t vs :
    queue_ s = (false, vs) ->
    moves u s (CIdle o) (add_submitted (set_queue s (false, vs ++ [t])) t) (CIdle (Some Submitted))
| m_threw o : moves u s (CIdle o) s (CIdle (Some SubmitThrew))
| m_refuse o vs : queue_ s = (true, vs) -> moves u s (CIdle o) s (CIdle (Some (Refused closed)))
| m_accident p a : accidental s p a -> moves u s p (set_fate s a) p.

Lemma set_queue_id (s : state T) : set_queue s (queue_ s) = s.
Proof. by destruct s. Qed.

Lemma step_moves u s p c s' p' : step assigns size u s p c = Some (s', p') -> moves u s p s' p'.
Proof.
  intros H. pose proof (set_queue_id s) as Hid. unfold step in H. destruct (fate s); [done|].
  destruct p, c; try done; simpl in H; unfold call_step, with_derived, submit, shutdown in H; simpl in H;
    try (destruct (gone s) eqn:Eg; [injection H as <- <-; by apply m_accident|]).
  - destruct (is_stopped s) eqn:E; injection H as <- <-; by constructor.
  - destruct (queue_ s) as [b [|t vs]] eqn:E; simpl in H.
    + destruct b; [|done]. simpl in H. injection H as <- <-. rewrite Hid. by constructor.
    + destruct (assigns t) eqn:Ea; injection H as <- <-; [by econstructor|]. apply m_accident. by exists b, t, vs.
  - injection H as <- <-. by constructor.
  - injection H as <- <-. by apply m_accident.
  - injection H as <- <-. by constructor.
  - injection H as <- <-. by constructor.
  - injection H as <- <-. by constructor.
  - destruct (queue_ s) as [[] vs] eqn:E; simpl in H; injection H as <- <-.
    + rewrite Hid. by econstructor.
    + by constructor.
  - injection H as <- <-. by constructor.
  - destruct (Z.eqb_spec (flags_ s) 0) as [E|E]; injection H as <- <-; [|by constructor].
    rewrite E, Z.lor_0_l. by constructor.
  - injection H as <- <-. destruct (queue_ s) as [b vs] eqn:E. by econstructor.
  - destruct (join_lock_ s) eqn:E; [done|]. injection H as <- <-. by constructor.
  - destruct (join_done_ s) eqn:E; injection H as <- <-; by constructor.
  - destruct (Nat.ltb_spec i size); [case_decide; [|done]|]; injection H as <- <-; by constructor.
  - injection H as <- <-. constructor.
  - injection H as <- <-. constructor.
Qed.

(** One step of a pool, as a rule. *)
Ltac tp_step He :=
  match type of He with ThreadPool.exec _ _ ?s ?l = _ => destruct s as [s ps], l as [u c] end;
  pool_step He; cbn [shared pcs] in *;
  match goal with Ht : step _ _ _ _ _ _ = Some _ |- _ => apply step_moves in Ht end.

Definition worker (p : ThreadPool.pc T) : bool :=
  match p with WCheck | WPop | WRun _ | WDone => true | _ => false end.

(** The first [size] threads are the workers. *)
Definition roles (s : pstate) : Prop :=
  (size <= length (pcs s))%nat /\
  forall u p, pcs s !! u = Some p -> worker p = bool_decide (u < size)%nat.

Lemma roles_step s l s' : roles s -> exec s l = Some s' -> roles s'.
Proof.
  intros [Hlen H] He. pose proof (pool_exec_length _ _ _ _ He) as Hl. split; [by rewrite Hl|].
  tp_step He. intros v q [(-> & -> & _)|[_ Hv]]%insert_lookup_cases; [|by apply H].
  rewrite <- (H u p Hp). destruct Ht; try done; by destruct k.
Qed.

(** Threads about to close the queue. *)
Definition closing (_ : nat) (p : ThreadPool.pc T) : Z := match p with CShutdown _ => 1 | _ => 0 end.

Definition shutdown_ok (s : pstate) : Prop :=
  0 <= flags_ (shared s) /\
  (forall u flag joins, pcs s !! u = Some (CClose flag joins) -> 0 < flag) /\
  shutdowns (shared s) + total closing 0 (pcs s) = (if flags_ (shared s) =? 0 then 0 else 1) /\
  (shutdowns (shared s) = if (queue_ (shared s)).1 then 1 else 0).

Lemma flag_lor a b : 0 <= a -> 0 < b -> Z.lor a b <> 0 /\ 0 <= Z.lor a b.
Proof.
  intros Ha Hb. split; [|apply Z.lor_nonneg; lia]. rewrite Z.lor_eq_0_iff. lia.
Qed.

Lemma closing_nonneg i ps : 0 <= total closing i ps.
Proof.
  revert i. induction ps as [|p ps IH]; intros i; simpl; [lia|]. specialize (IH (S i)).
  destruct p; simpl; lia.
Qed.

(** A thread about to close the queue is the first. *)
Lemma closing_first s u joins :
  shutdown_ok s -> pcs s !! u = Some (CShutdown joins) -> shutdowns (shared s) = 0.
Proof.
  intros (_ & _ & H3 & H4) Hp. pose proof (closing_nonneg 0 (<[u := CLock false]> (pcs s))) as H.
  rewrite (total_insert _ _ _ _ _ _ Hp) in H. simpl in H.
  destruct (flags_ (shared s) =? 0), (queue_ (shared s)).1; lia.
Qed.

Lemma shutdown_step s l s' : shutdown_ok s -> exec s l = Some s' -> shutdown_ok s'.
Proof.
  intros Hok He. pose proof Hok as (H1 & H2 & H3 & H4). tp_step He. unfold shutdown_ok. cbn [shared pcs].
  rewrite (total_insert _ _ _ _ _ _ Hp). pose proof (fun j => closing_first _ u j Hok) as Hfirst.
  pose proof (fun f j E => H2 u f j (eq_trans Hp (f_equal Some E))) as Hf.
  assert (forall k, closing (0 + u) (after_close (T := T) k) = 0) as Ha by by intros [].
  assert ((forall f j, p' = CClose f j -> 0 < f) ->
    forall v f j, <[u := p']> ps !! v = Some (CClose f j) -> 0 < f) as H2'.
  { intros Hp' v f j [(_ & E & _)|[_ Hv]]%insert_lookup_cases; [by eapply Hp'|by eapply H2]. }
  destruct Ht; simpl in *; rewrite ?Ha; split_and!; try done; try lia;
    try (apply H2'; intros f j E; try destruct k; simpl in E; by simplify_eq).
  - by rewrite H in H4.
  - specialize (Hf _ _ eq_refl). lia.
  - rewrite H in H3. specialize (Hf _ _ eq_refl). simpl in H3. destruct (Z.eqb_spec flag 0); lia.
  - by apply flag_lor, (Hf _ _ eq_refl).
  - destruct (flag_lor (flags_ s) flag H1 (Hf _ _ eq_refl)) as [Hn _].
    apply Z.eqb_neq in H, Hn. rewrite Hn. rewrite H in H3. lia.
  - by rewrite (Hfirst k).
  - by rewrite H in H4.
  - apply H2'. intros f j ->. by eapply H2.
Qed.

(** ** The tasks *)

(** The tasks that run. *)
Definition running (ps : list (pc T)) : list T := ps ≫= fun p => match p with WRun t => [t] | _ => [] end.

Lemma running_insert ps u p p' :
  ps !! u = Some p -> running (<[u := p']> ps) ++ running [p] ≡ₚ running ps ++ running [p'].
Proof.
  intros Hp. unfold running. simpl. rewrite !app_nil_r.
  exact (bind_insert (fun p => match p with WRun t => [t] | _ => [] end) ps u p p' Hp).
Qed.

Lemma running_nil ps : (forall u p t, ps !! u = Some p -> p <> WRun t) -> running ps = [].
Proof.
  induction ps as [|p ps IH]; intros H; [done|].
  change (running (p :: ps)) with (match p with WRun t => [t] | _ => [] end ++ running ps).
  rewrite IH by (intros u q t Hq; apply (H (S u) q t Hq)). rewrite app_nil_r.
  destruct p; try done. by destruct (H 0%nat (WRun t) t).
Qed.

Definition flow_ok (s : pstate) : Prop :=
  submitted (shared s) ≡ₚ executed (shared s) ++ running (pcs s) ++ (queue_ (shared s)).2.

Lemma flow_step s l s' : flow_ok s -> exec s l = Some s' -> flow_ok s'.
Proof.
  intros H He. unfold flow_ok in *. tp_step He. pose proof (running_insert ps u p p' Hp) as Hr.
  destruct Ht; simpl in *; try destruct k; simpl in *; rewrite ?app_nil_r in Hr; try (by rewrite Hr).
  1: rewrite H, H0, Hr; simpl; solve_Permutation.
  1: rewrite H, <- Hr; solve_Permutation.
  1-3: by rewrite Hr, H, H0.
  - rewrite Hr, H, H0. simpl. solve_Permutation.
  - by rewrite list_insert_id.
Qed.

(** The tasks that workers have got are among those that can be assigned. *)
Definition assigned_ok (s : pstate) : Prop :=
  Forall (fun t => assigns t = true) (executed (shared s) ++ running (pcs s)).

Lemma assigned_step s l s' : assigned_ok s -> exec s l = Some s' -> assigned_ok s'.
Proof.
  intros H He. unfold assigned_ok in *. rewrite !Forall_app in *. destruct H as [H1 H2].
  tp_step He. pose proof (running_insert ps u p p' Hp) as Hr.
  assert (Forall (fun t => assigns t = true) (running [p']) -> Forall (fun t => assigns t = true) (running (<[u := p']> ps))) as Hins.
  { intros Hp'. assert (Forall (fun t => assigns t = true) (running ps ++ running [p'])) as Ha by by apply Forall_app.
    rewrite <- Hr in Ha. by apply Forall_app in Ha as [? _]. }
  assert (Forall (fun t => assigns t = true) (running [p])) as Hold.
  { rewrite Forall_forall in *. intros t Ht'. apply H2. unfold running in *. apply list_elem_of_bind in Ht' as (q & Hq & Hin).
    apply list_elem_of_singleton in Hin as ->. apply list_elem_of_bind. exists p. split; [done|by eapply list_elem_of_lookup_2]. }
  destruct Ht; simpl in *; try destruct k; simpl in *; split; try done; try (by apply Hins); try (by apply Hins; simpl; auto).
  by apply Forall_app.
Qed.

(** ** The end of the workers *)

(** What a client in wait knows. *)
Definition joined (s : state T) (p : pc T) : Prop :=
  match p with
  | CJoin _ i => forall j, (j < i)%nat -> j ∈ finished s
  | CSetDone _ => forall j, (j < size)%nat -> j ∈ finished s
  | CUnlock _ | CIdle (Some Waited) | CIdle (Some Destroyed) => join_done_ s = true
  | _ => True
  end.

Record ends_ok (s : pstate) : Prop := {
  eo_finished u : u ∈ finished (shared s) <-> pcs s !! u = Some WDone;
  eo_exit : finished (shared s) <> [] -> is_stopped (shared s) = true \/ queue_ (shared s) = (true, []);
  eo_joined u p : pcs s !! u = Some p -> joined (shared s) p;
  eo_done : join_done_ (shared s) = true -> forall j, (j < size)%nat -> j ∈ finished (shared s);
}.

(** What a step does not undo. *)
Lemma moves_monotone u s p s' p' :
  moves u s p s' p' ->
  finished s ⊆ finished s' /\ (join_done_ s = true -> join_done_ s' = true) /\
  (is_stopped s = true -> is_stopped s' = true) /\ (queue_ s = (true, []) -> queue_ s' = (true, [])).
Proof.
  assert (forall a b, negb (Z.land a stop_flag =? 0) = true -> negb (Z.land (Z.lor a b) stop_flag =? 0) = true) as Hlor.
  { intros a b Ha. rewrite negb_true_iff, Z.eqb_neq in *. rewrite Z.land_lor_distr_l, Z.lor_eq_0_iff. tauto. }
  destruct 1; split_and!; simpl; try done; try (intros E; congruence).
  - by intros v Hv; right.
  - by intros v Hv; right.
  - unfold is_stopped. simpl. rewrite H. done.
  - apply Hlor.
Qed.

(** A worker that finishes has seen the stop flag or the end of the tasks. *)
Lemma moves_finish u s p s' p' :
  moves u s p s' p' ->
  (finished s' = finished s /\ p <> WDone /\ p' <> WDone) \/
  (finished s' = u :: finished s /\ p' = WDone /\ (is_stopped s' = true \/ queue_ s' = (true, []))).
Proof.
  destruct 1; simpl; auto; try (by left; destruct k as [|[]|]).
  left. split; [done|]. by split; intros ->; destruct a.
Qed.

Lemma moves_joined u s p s' p' :
  (join_done_ s = true -> forall j, (j < size)%nat -> j ∈ finished s) ->
  joined s p -> moves u s p s' p' ->
  joined s' p' /\ (join_done_ s' = true -> join_done_ s = true \/ forall j, (j < size)%nat -> j ∈ finished s).
Proof.
  intros Hd Hj. destruct 1; simpl in *; auto; try (by destruct k; auto).
  - split; [|auto]. lia.
  - split; [|auto]. intros j Hj'. destruct (decide (j = i)) as [->|]; [done|]. apply Hj. lia.
  - split; [|auto]. intros j Hj'. apply Hj. lia.
  - split; [|auto]. by destruct d.
Qed.

Lemma joined_mono s s' p :
  finished s ⊆ finished s' -> (join_done_ s = true -> join_done_ s' = true) -> joined s p -> joined s' p.
Proof. intros Hf Hd. destruct p as [| | | |[[]|]| | | | | | |]; simpl; auto. Qed.

Lemma ends_step s l s' : ends_ok s -> exec s l = Some s' -> ends_ok s'.
Proof.
  intros [H1 H2 H3 H4] He. tp_step He.
  destruct (moves_monotone _ _ _ _ _ Ht) as (M1 & M2 & M3 & M4).
  destruct (moves_joined _ _ _ _ _ H4 (H3 u p Hp) Ht) as [J1 J2].
  pose proof (moves_finish _ _ _ _ _ Ht) as F. split; simpl.
  - intros v. destruct (decide (v = u)) as [->|Hne].
    + rewrite (insert_lookup_self _ _ _ _ Hp). destruct F as [(E & Hn & Hn')|(E & -> & _)]; rewrite E.
      * rewrite H1. split; congruence.
      * split; [done|]. intros _. by left.
    + rewrite list_lookup_insert_ne by done. rewrite <- H1. destruct F as [[<- _]|(E & _)]; [done|].
      rewrite E, elem_of_cons. split; [by intros [->|]|by right].
  - intros Hne. destruct F as [[E _]|(_ & _ & F)]; [|done]. rewrite E in Hne. destruct (H2 Hne); auto.
  - intros v q [(-> & -> & _)|[_ Hv]]%insert_lookup_cases; [done|]. by eapply joined_mono; [..|by eapply H3].
  - intros Hd j Hj. apply M1. destruct (J2 Hd); auto.
Qed.

(** ** The flags and the lock of the join *)

(** A client that has passed its update of [flags_]. *)
Definition flagged (p : pc T) : bool :=
  match p with
  | CShutdown _ | CLock _ | CTest _ | CJoin _ _ | CSetDone _ | CUnlock _ | CClose _ (AWait true) => true
  | _ => false
  end.

(** A step never clears the flags. *)
Lemma moves_flags u s p s' p' :
  moves u s p s' p' -> 0 <= flags_ s -> (forall f k, p = CClose f k -> 0 < f) ->
  (flags_ s <> 0 -> flags_ s' <> 0) /\ (flagged p' = true -> flagged p = true \/ flags_ s' <> 0).
Proof.
  intros Ht H0 Hf. destruct Ht; simpl; try (split; [done|]; auto; by try destruct k as [|[]|]).
  - specialize (Hf _ _ eq_refl). split; [lia|]. right. lia.
  - destruct (flag_lor (flags_ s) flag H0 (Hf _ _ eq_refl)) as [Hn _]. auto.
Qed.

Lemma moves_set_done u s p s' p' :
  moves u s p s' p' -> join_done_ s' = join_done_ s \/ exists d, p = CSetDone d.
Proof. destruct 1; (by left) || (right; by exists d). Qed.

(** A client between the lock and the unlock of wait. *)
Definition in_join (p : pc T) : bool :=
  match p with CTest _ | CJoin _ _ | CSetDone _ | CUnlock _ => true | _ => false end.

Record clients_ok (s : pstate) : Prop := {
  co_flagged u p : pcs s !! u = Some p -> flagged p = true -> flags_ (shared s) <> 0;
  co_joined : join_done_ (shared s) = true -> flags_ (shared s) <> 0;
  co_lock v : join_lock_ (shared s) = Some v -> exists p, pcs s !! v = Some p /\ in_join p = true;
}.

Lemma moves_lock u s p s' p' :
  moves u s p s' p' ->
  (join_lock_ s' = join_lock_ s /\ (in_join p = true -> in_join p' = true)) \/
  join_lock_ s' = None \/ (join_lock_ s' = Some u /\ in_join p' = true).
Proof. destruct 1; simpl; auto; left; by split. Qed.

Lemma clients_step s l s' : clients_ok s -> shutdown_ok s -> exec s l = Some s' -> clients_ok s'.
Proof.
  intros [H1 H2 H3] (F1 & F2 & _) He. tp_step He.
  destruct (moves_flags _ _ _ _ _ Ht F1 (fun f k E => F2 u f k (eq_trans Hp (f_equal Some E)))) as [M1 M2].
  split; simpl.
  - intros v pv [(-> & -> & _)|[_ Hv]]%insert_lookup_cases Hfl; [|by eapply M1, H1].
    destruct (M2 Hfl); [by eapply M1, H1|done].
  - intros Hj. apply M1. destruct (moves_set_done _ _ _ _ _ Ht) as [E|[d ->]]; [apply H2; congruence|by apply (H1 u _ Hp)].
  - intros v Hv. destruct (moves_lock _ _ _ _ _ Ht) as [[E Hin]|[E|[E Hin]]]; [|congruence|].
    + rewrite E in Hv. destruct (H3 v Hv) as (pv & Hpv & Hj). destruct (decide (v = u)) as [->|Hne].
      * exists p'. split; [by eapply insert_lookup_self|]. apply Hin. congruence.
      * exists pv. by rewrite list_lookup_insert_ne.
    + assert (v = u) as -> by congruence. exists p'. split; [by eapply insert_lookup_self|done].
Qed.

(** ** Theorems *)

Definition pool_reached : pstate -> Prop := reachable exec (start size).

Record pool_inv (s : pstate) : Prop := {
  pi_roles : roles s;
  pi_shutdown : shutdown_ok s;
  pi_flow : flow_ok s;
  pi_assigned : assigned_ok s;
  pi_ends : ends_ok s;
  pi_clients : clients_ok s;
}.

Lemma construct_ok can n : (n <= can)%nat -> construct (T := T) can n = (init, replicate n WCheck).
Proof. intros H. apply Nat.leb_le in H. unfold construct, activate. simpl. by rewrite H. Qed.

Lemma pool_inv_start s : start size s -> pool_inv s.
Proof.
  intros (n & can & Hcan & ->). rewrite (construct_ok can size Hcan). simpl.
  assert (forall u p, (replicate size (WCheck (T := T)) ++ replicate n (CIdle None)) !! u = Some p ->
    ((u < size)%nat /\ p = WCheck) \/ ((size <= u)%nat /\ p = CIdle None)) as Hpc.
  { intros u p [Hp|[Hlen Hp]]%lookup_app_Some; apply lookup_replicate in Hp as [-> Hu].
    - by left.
    - rewrite length_replicate in Hlen. by right. }
  split; [split|split_and!| | |split|split]; simpl; try done.
  - rewrite length_app, length_replicate. lia.
  - intros u p [[Hu ->]|[Hu ->]]%Hpc; simpl; symmetry; [by apply bool_decide_eq_true|apply bool_decide_eq_false; lia].
  - intros u flag joins Hu. by destruct (Hpc u _ Hu) as [[_ ?]|[_ ?]].
  - rewrite total_zero; [done|]. by intros u p [[_ ->]|[_ ->]]%Hpc.
  - unfold flow_ok. simpl. rewrite running_nil; [done|]. by intros u p t [[_ ->]|[_ ->]]%Hpc.
  - unfold assigned_ok. simpl. rewrite running_nil; [done|]. by intros u p t [[_ ->]|[_ ->]]%Hpc.
  - intros u. split; [by intros ?%not_elem_of_nil|]. intros Hu. by destruct (Hpc u _ Hu) as [[_ ?]|[_ ?]].
  - intros u p Hu. by destruct (Hpc u _ Hu) as [[_ ->]|[_ ->]].
  - intros u p Hu. by destruct (Hpc u _ Hu) as [[_ ->]|[_ ->]].
Qed.

Lemma pool_inv_step s l s' : pool_inv s -> exec s l = Some s' -> pool_inv s'.
Proof.
  intros [H1 H2 H3 H4 H5 H6] He.
  split; [by eapply roles_step|by eapply shutdown_step|by eapply flow_step|by eapply assigned_step|by eapply ends_step|by eapply clients_step].
Qed.

Lemma pool_inv_reached s : pool_reached s -> pool_inv s.
Proof.
  apply invariant_in_reachable. split; [intros; by apply pool_inv_start|eauto using pool_inv_step].
Qed.

(** Every task that submit has accepted is run exactly once, is running, or is
    still queued; those that run or have run can be assigned. *)
Theorem pool_exactly_once s :
  pool_reached s ->
  submitted (shared s) ≡ₚ executed (shared s) ++ running (pcs s) ++ (queue_ (shared s)).2 /\
  Forall (fun t => assigns t = true) (executed (shared s) ++ running (pcs s)).
Proof. intros H%pool_inv_reached. split; apply H. Qed.

(** All workers have finished: no task runs. *)
Lemma finished_idle s :
  pool_inv s -> (forall j, (j < size)%nat -> j ∈ finished (shared s)) -> running (pcs s) = [].
Proof.
  intros [[_ Hr] _ _ _ He _] Hall. apply running_nil. intros u p t Hp ->.
  pose proof (Hr u _ Hp) as Hw. simpl in Hw. symmetry in Hw. apply bool_decide_eq_true in Hw.
  pose proof (proj1 (eo_finished _ He u) (Hall u Hw)). congruence.
Qed.

Lemma wait_complete s u :
  (0 < size)%nat -> pool_inv s -> pcs s !! u = Some (CIdle (Some Waited)) ->
  is_stopped (shared s) = false ->
  submitted (shared s) ≡ₚ executed (shared s) /\ queue_ (shared s) = (true, []).
Proof.
  intros Hsize H Hu Hst. pose proof (pi_ends _ H) as He.
  pose proof (eo_joined _ He u _ Hu) as Hd. simpl in Hd. pose proof (eo_done _ He Hd) as Hall.
  pose proof (pi_flow _ H) as Hf. unfold flow_ok in Hf. rewrite (finished_idle s H Hall) in Hf.
  destruct (eo_exit _ He) as [E|E].
  - specialize (Hall 0%nat Hsize). intros E. rewrite E in Hall. by apply not_elem_of_nil in Hall.
  - congruence.
  - rewrite E in Hf. split; [|done]. by rewrite !app_nil_r in Hf.
Qed.

(** wait completes the work: when it has returned in a pool with workers that
    nobody has stopped, every accepted task has been run exactly once, nothing is
    queued, and no further task is accepted. *)
Theorem pool_wait_complete s u :
  (0 < size)%nat -> pool_reached s -> pcs s !! u = Some (CIdle (Some Waited)) ->
  is_stopped (shared s) = false ->
  submitted (shared s) ≡ₚ executed (shared s) /\ queue_ (shared s) = (true, []).
Proof. intros Hsize H%pool_inv_reached. by apply wait_complete. Qed.

(** While the flags are set and the queue is open, somebody is about to close it. *)
Lemma closing_exists s :
  shutdown_ok s -> flags_ (shared s) <> 0 -> (queue_ (shared s)).1 = false ->
  exists u k, pcs s !! u = Some (CShutdown k).
Proof.
  intros (_ & _ & H3 & H4) Hf Hc. apply Z.eqb_neq in Hf. rewrite Hf, H4, Hc in H3.
  destruct (total_pos closing 0 (pcs s)) as (u & p & Hp & Hg); [by intros u [] _|lia|].
  destruct p; simpl in Hg; try lia. eauto.
Qed.

(** However many threads call stop and wait, shutdown is called once: the
    queue is closed by the first, and only after a flag has been set. *)
Theorem pool_shutdown_once s :
  pool_reached s ->
  0 <= shutdowns (shared s) <= 1 /\
  (shutdowns (shared s) = 1 <-> (queue_ (shared s)).1 = true) /\
  ((queue_ (shared s)).1 = true -> flags_ (shared s) <> 0) /\
  (flags_ (shared s) <> 0 ->
     (queue_ (shared s)).1 = true \/ exists u joins, pcs s !! u = Some (CShutdown joins)).
Proof.
  intros H%pool_inv_reached. destruct (pi_shutdown _ H) as (_ & _ & H3 & H4).
  pose proof (closing_nonneg 0 (pcs s)) as Hn. rewrite H4 in *. destruct (queue_ (shared s)).1 eqn:Ec.
  - split; [lia|]. split; [done|]. split; [|auto]. intros _ E. rewrite E in H3. simpl in H3. lia.
  - split; [lia|]. split; [done|]. split; [done|]. intros Hf. right.
    apply (closing_exists s); [apply H|done..].
Qed.

(** How much the workers still have to do on a closed queue. *)
Definition weight (_ : nat) (p : pc T) : Z :=
  match p with WCheck => 2 | WPop => 1 | WRun _ => 3 | _ => 0 end.

Definition workload (s : pstate) : Z :=
  total weight 0 (pcs s) + 3 * Z.of_nat (length (queue_ (shared s)).2).

Lemma weight_nonneg i ps : 0 <= total weight i ps.
Proof.
  revert i. induction ps as [|p ps IH]; intros i; simpl; [lia|]. specialize (IH (S i)).
  destruct p; simpl; lia.
Qed.

(** C30. Once the queue is closed the workers come to an end, unless the program
    does (a task that throws or whose move assignment does not return, the pure
    virtual call of the destructor, a use of the destroyed queue): while the
    program has not ended, a worker that has not finished is never blocked; each
    step of a worker lowers the workload or ends the program, and no step of any
    thread raises it or opens the queue again. *)
Theorem pool_drains s u p :
  (queue_ (shared s)).1 = true -> pcs s !! u = Some p ->
  (worker p = true -> p <> WDone -> fate (shared s) = None -> exists s', exec s (u, Go) = Some s') /\
  (forall c s', exec s (u, c) = Some s' ->
     (queue_ (shared s')).1 = true /\ 0 <= workload s' <= workload s /\
     (worker p = true -> workload s' < workload s \/ fate (shared s') <> None)).
Proof.
  intros Hc Hp. split.
  - intros Hw Hd Hf. destruct s as [s ps]. cbn [shared pcs] in *.
    assert (exists s' p', step assigns size u s p Go = Some (s', p')) as (s' & p' & Hs); [|eauto using pool_exec_at].
    unfold step. rewrite Hf. destruct p; try done; simpl; unfold with_derived.
    + destruct (is_stopped s); eauto.
    + destruct (gone s), (queue_ s) as [[] [|t vs]]; simpl in *; try done; eauto. destruct (assigns t); eauto.
    + eauto.
  - intros c s' He. destruct s as [s ps]. pool_step He. cbn [shared pcs] in *.
    apply step_moves in Ht. rewrite Hp in Hp0. injection Hp0 as <-.
    assert (0 <= workload (Pool sh' (<[u := p']> ps))) as H0
      by (pose proof (weight_nonneg 0 (<[u := p']> ps)); unfold workload; simpl; lia).
    unfold workload in *. cbn [shared pcs] in *. rewrite (total_insert _ _ _ _ _ _ Hp) in *.
    destruct Ht; simpl in *; try destruct k; simpl in *; rewrite ?H, ?H1 in *; simpl in *; try done; split; try done;
      split; try lia; auto.
Qed.

(** ** The destructor *)

(** A thread may destroy the pool after somebody has waited for it, when nobody
    else is inside, and nobody may use it afterwards. *)
Definition quiet_client (p : pc T) : bool :=
  match p with CIdle _ => true | _ => worker p end.

Definition orderly (s : pstate) (l : nat * choice T) : bool :=
  match l.2 with
  | Destroy => join_done_ (shared s) && negb (gone (shared s)) && forallb quiet_client (pcs s)
  | Stop | Wait | Submit _ | SubmitThrow => negb (gone (shared s))
  | _ => true
  end.

Definition orderly_exec (s : pstate) (l : nat * choice T) : option pstate :=
  if orderly s l then exec s l else None.

(** The threads of a pool that is being destroyed: workers, idle clients and the
    thread in the destructor, which does not call shutdown. *)
Definition destroying (p : pc T) : bool :=
  match p with
  | CIdle _ | CClose _ ADestroy | CClose _ (AWait true)
  | CLock true | CTest true | CJoin true _ | CSetDone true | CUnlock true => true
  | _ => worker p
  end.

Record destroy_ok (s : pstate) : Prop := {
  do_inv : pool_inv s;
  do_done : gone (shared s) = true -> join_done_ (shared s) = true;
  do_gone u p : gone (shared s) = true -> pcs s !! u = Some p -> destroying p = true;
  do_fate : fate (shared s) = None \/ fate (shared s) = Some TaskThrew \/ fate (shared s) = Some TaskAssign;
}.

(** After the workers have been joined nobody takes a task. *)
Lemma joined_workers s u p :
  pool_inv s -> join_done_ (shared s) = true -> pcs s !! u = Some p -> worker p = true -> p = WDone.
Proof.
  intros [[_ Hr] _ _ _ He _] Hd Hp Hw. rewrite (Hr u p Hp) in Hw. apply bool_decide_eq_true in Hw.
  pose proof (proj1 (eo_finished _ He u) (eo_done _ He Hd u Hw)). congruence.
Qed.

(** The derived part, the join and the end of the program. *)
Lemma moves_gone u s p s' p' :
  moves u s p s' p' ->
  (gone s' = gone s \/ (gone s = false /\ (exists o, p = CIdle o) /\ p' = CClose stop_flag ADestroy)) /\
  (fate s' = fate s \/ exists a, fate s' = Some a /\ accidental s p a).
Proof. destruct 1; (split; [by left|]) || (split; [right; by eauto|]); (by left) || (right; by exists a). Qed.

Lemma moves_destroying u s p s' p' :
  moves u s p s' p' -> gone s = true -> destroying p = true -> flags_ s <> 0 -> destroying p' = true.
Proof. destruct 1; intros Hg Hd Hf; try done; try congruence; by destruct k as [|[]|]. Qed.

(** Calls that keep the order: none after the destruction, which comes after the
    join and finds nobody inside. *)
Lemma orderly_call s u c o s' p' :
  orderly s (u, c) = true -> step assigns size u (shared s) (CIdle o) c = Some (s', p') ->
  gone (shared s) = false /\
  (p' = CClose stop_flag ADestroy ->
     join_done_ (shared s) = true /\ forall v q, pcs s !! v = Some q -> quiet_client q = true).
Proof.
  intros Ho Hs. unfold step in Hs. destruct (fate (shared s)); [done|]. unfold orderly in Ho.
  assert (gone (shared s) = false) as Hg.
  { destruct c; try done; destruct (gone (shared s)); try done. simpl in Ho. by rewrite andb_false_r in Ho. }
  split; [done|]. intros ->. simpl in Hs. unfold call_step, with_derived, submit in Hs. rewrite Hg in Hs.
  destruct c; try done.
  - simpl in Ho. rewrite Hg in Ho. apply andb_prop in Ho as [Ho Hq]. split; [by destruct (join_done_ (shared s))|].
    intros v q Hv. rewrite forallb_forall in Hq. apply Hq, list_elem_of_In. by eapply list_elem_of_lookup_2.
  - by repeat (case_match; simplify_option_eq).
Qed.

Lemma pool_destroy_step s l s' : destroy_ok s -> orderly_exec s l = Some s' -> destroy_ok s'.
Proof.
  intros [H1 H4 H5 H6] He. unfold orderly_exec in He. destruct (orderly s l) eqn:Ho; [|done].
  pose proof (pool_inv_step _ _ _ H1 He) as Hinv. pose proof (co_joined _ (pi_clients _ H1)) as H3.
  destruct s as [s ps], l as [u c]. pool_step He. cbn [shared pcs] in *.
  pose proof (fun o E => orderly_call (Pool s ps) u c o _ _ Ho (eq_trans (f_equal (fun q => step assigns size u s q c) (eq_sym E)) Ht)) as Hcall.
  apply step_moves in Ht. simpl in Hcall.
  destruct (moves_gone _ _ _ _ _ Ht) as [G1 G2].
  assert (join_done_ s = true -> join_done_ sh' = true) as Hmono by apply (moves_monotone _ _ _ _ _ Ht).
  split; simpl; try done.
  - intros Hg. apply Hmono. destruct G1 as [E|(E & [o ->] & ->)]; [apply H4; congruence|]. by apply (Hcall o).
  - intros v pv Hg. destruct G1 as [E|(E & [o ->] & ->)].
    + rewrite E in Hg. intros [(-> & -> & _)|[_ Hv]]%insert_lookup_cases; [|by eapply H5].
      eapply moves_destroying; eauto.
    + destruct (Hcall o eq_refl) as [_ Hq]. destruct (Hq eq_refl) as [_ Hq'].
      intros [(-> & -> & _)|[_ Hv]]%insert_lookup_cases; [done|]. specialize (Hq' v pv Hv). by destruct pv.
  - destruct G2 as [->|(a & -> & Ha)]; [done|]. destruct a; [by auto|exfalso..|by auto].
    + destruct p; try done. simpl in Ha. by specialize (H5 u _ Ha Hp).
    + destruct p; try done; simpl in Ha.
      * by pose proof (joined_workers _ u _ H1 (H4 Ha) Hp eq_refl).
      * destruct (Hcall o eq_refl). congruence.
Qed.

(** The destructor is safe in a pool somebody has waited for, when nobody is
    inside and nobody uses it afterwards: the program ends only by a task that
    throws or cannot be assigned, and once the queue is destroyed all workers have returned and only
    the thread in the destructor still uses the object. *)
Theorem pool_destroy_safe s :
  reachable orderly_exec (start size) s ->
  (fate (shared s) = None \/ fate (shared s) = Some TaskThrew \/ fate (shared s) = Some TaskAssign) /\
  (gone (shared s) = true -> forall u p, pcs s !! u = Some p ->
     p = WDone \/ (worker p = false /\ destroying p = true)).
Proof.
  intros H. assert (destroy_ok s) as Hok.
  { revert H. apply invariant_in_reachable. split; [|eauto using pool_destroy_step].
    intros s0 Hs _. pose proof (pool_inv_start s0 Hs) as Hi. destruct Hs as (n & can & Hcan & ->).
    rewrite (construct_ok can size Hcan) in *. simpl in *. split; simpl; auto; done. }
  split; [apply Hok|]. intros Hg u p Hp. destruct (worker p) eqn:Ew.
  - left. eapply joined_workers; [apply Hok|by eapply do_done|exact Hp|exact Ew].
  - right. split; [done|]. by eapply (do_gone _ Hok).
Qed.

(** The thread that destroys a pool nobody has stopped: it is before the flags,
    or before shutdown, and the first to set a flag. *)
Definition doomed (u : nat) (s : pstate) : Prop :=
  gone (shared s) = true /\
  (forall v q, v <> u -> pcs s !! v = Some q -> quiet_client q = true) /\
  (pcs s !! u = Some (CClose stop_flag ADestroy) /\ flags_ (shared s) = 0 \/
   pcs s !! u = Some (CShutdown ADestroy)).

(** After its end the program does nothing. *)
Lemma ended_run s a ls s' : fate (shared s) = Some a -> run exec s ls = Some s' -> s' = s.
Proof.
  intros Hf. destruct ls as [|[v c] ls]; simpl; [congruence|]. intros Hr.
  destruct (exec s (v, c)) as [s1|] eqn:He; [|done]. pool_step He. unfold step in Ht. by rewrite Hf in Ht.
Qed.

Lemma moves_quiet u s p s' p' :
  moves u s p s' p' -> gone s = true -> quiet_client p = true ->
  gone s' = true /\ (quiet_client p' = true /\ flags_ s' = flags_ s \/ gone s = false).
Proof. destruct 1; intros Hg Hq; try done; auto. Qed.

(** The steps the thread in the destructor has taken, and what they did. *)
Definition own_steps (u : nat) (ls : list (nat * choice T)) : nat := length (filter (fun l => l.1 = u) ls).

Lemma doomed_step u s l s' :
  doomed u s -> exec s l = Some s' ->
  doomed u s' /\
  (l.1 = u -> fate (shared s') = Some PureVirtual /\ pcs s' !! u = pcs s !! u \/
     (pcs s !! u = Some (CClose stop_flag ADestroy) /\ pcs s' !! u = Some (CShutdown ADestroy))) /\
  (l.1 <> u -> pcs s' !! u = pcs s !! u).
Proof.
  intros (Hg & Hq & Hu) He. destruct s as [s ps], l as [v c]. pool_step He. cbn [shared pcs fst] in *.
  destruct (decide (v = u)) as [->|Hv].
  - assert (forall q v' q', v' <> u -> <[u := q]> ps !! v' = Some q' -> quiet_client q' = true) as Hq'
      by (intros q v' q' Hne Hl; rewrite list_lookup_insert_ne in Hl by done; by eapply Hq).
    unfold step in Ht. destruct (fate s); [done|]. rewrite (insert_lookup_self ps u p' p Hp).
    destruct Hu as [[Hu Hf]|Hu]; rewrite Hp in Hu; injection Hu as ->; destruct c; try done; simpl in Ht.
    + rewrite Hf in Ht. injection Ht as <- <-. split; [|split; [by right|done]].
      split; [done|]. split; [by apply Hq'|]. right. simpl. by eapply insert_lookup_self.
    + unfold with_derived in Ht. rewrite Hg in Ht. injection Ht as <- <-. split; [|split; [by left|done]].
      split; [done|]. split; [by apply Hq'|]. right. simpl. by eapply insert_lookup_self.
  - apply step_moves in Ht. destruct (moves_quiet _ _ _ _ _ Ht Hg (Hq v p Hv Hp)) as [Hg' [[Hp' Hf]|?]]; [|congruence].
    rewrite (list_lookup_insert_ne ps v u p') by done. split; [|done]. split; [done|]. split.
    + intros x q Hx [(-> & -> & _)|[_ Hl]]%insert_lookup_cases; [done|by eapply Hq].
    + simpl. rewrite (list_lookup_insert_ne ps v u p') by done. by rewrite Hf.
Qed.

(** The program ends with its second step. *)
Lemma doomed_run u ls s s' :
  doomed u s -> run exec s ls = Some s' ->
  doomed u s' /\
  (2 <= own_steps u ls -> fate (shared s') = Some PureVirtual)%nat /\
  (1 <= own_steps u ls -> fate (shared s') = Some PureVirtual \/ pcs s' !! u = Some (CShutdown ADestroy))%nat /\
  (pcs s !! u = Some (CShutdown ADestroy) ->
     pcs s' !! u = Some (CShutdown ADestroy) /\ (1 <= own_steps u ls -> fate (shared s') = Some PureVirtual))%nat.
Proof.
  revert s. induction ls as [|l ls IH]; intros s Hd Hr; simpl in Hr.
  { injection Hr as <-. split; [done|]. unfold own_steps. simpl. split; [lia|]. split; [lia|]. intros ?. split; [done|lia]. }
  destruct (exec s l) as [s1|] eqn:He; [|done]. simpl in Hr.
  destruct (doomed_step u s l s1 Hd He) as (Hd1 & Hown & Hother). destruct (IH s1 Hd1 Hr) as (Hd' & H2 & H1 & H0).
  split; [done|]. unfold own_steps in *. rewrite filter_cons. destruct (decide (l.1 = u)) as [E|E]; simpl.
  - destruct (Hown E) as [Hf|[Hc Hc1]].
    + destruct Hf as [Hf E1]. assert (s' = s1) as -> by by eapply ended_run.
      split; [done|]. split; [by left|]. rewrite E1. done.
    + destruct (H0 Hc1) as [Hs' Hf']. split; [intros Hn; apply Hf'; lia|]. split; [by right|]. rewrite Hc. done.
  - rewrite (Hother E) in *. auto.
Qed.

(** C38. Destroying a pool before anybody has called stop or wait ends the program:
    if nobody else is inside stop or wait, then whatever the threads do afterwards
    the destructor never returns and is never blocked, and its second step is the
    call of the pure virtual shutdown in the destructor of the base, unless
    another thread has ended the program before (a worker or a client that uses
    the destroyed queue, a task that throws). *)
Theorem pool_destroy_aborts s u o ls s' :
  fate (shared s) = None -> gone (shared s) = false -> flags_ (shared s) = 0 ->
  pcs s !! u = Some (CIdle o) -> (forall v q, pcs s !! v = Some q -> quiet_client q = true) ->
  run exec s ((u, Destroy) :: ls) = Some s' ->
  pcs s' !! u <> Some (CIdle (Some Destroyed)) /\
  (fate (shared s') = None -> exists s'', exec s' (u, Go) = Some s'') /\
  (2 <= own_steps u ls -> fate (shared s') = Some PureVirtual)%nat.
Proof.
  intros Hf Hg Hfl Hp Hq Hr. simpl in Hr. destruct s as [s ps]. cbn [shared pcs] in *.
  assert (exec (Pool s ps) (u, Destroy) = Some (Pool (set_gone s) (<[u := CClose stop_flag ADestroy]> ps))) as He.
  { eapply pool_exec_at; [exact Hp|]. unfold step. rewrite Hf. simpl. unfold call_step, with_derived. by rewrite Hg. }
  rewrite He in Hr.
  cbn [mbind option_bind] in Hr.
  destruct (doomed_run u ls (Pool (set_gone s) (<[u := CClose stop_flag ADestroy]> ps)) s') as (Hd & H2 & _); [|done|].
  { split; [done|]. simpl. split.
    - intros v q Hv Hl. rewrite list_lookup_insert_ne in Hl by done. by eapply Hq.
    - left. split; [|done]. by eapply insert_lookup_self. }
  destruct Hd as (Hg' & _ & Hu). split; [destruct Hu as [[-> _]| ->]; done|]. split; [|done].
  intros Hf'. destruct s' as [s' ps']. cbn [shared pcs] in *.
  destruct Hu as [[Hu _]|Hu]; eexists; (eapply pool_exec_at; [exact Hu|]); unfold step; rewrite Hf'; simpl;
    unfold with_derived; rewrite ?Hg'; done.
Qed.
End invariants.

(** ** A run: two workers, two tasks, and a client that waits *)

Section example.
Import ThreadPool.

Local Abbreviation pstate := (pool (state Z) (pc Z)).

(** Tasks that can be assigned. *)
Definition assign_all (_ : Z) : bool := true.

Definition go (us : list nat) : list (nat * choice Z) := (fun u => (u, Go)) <$> us.

(** The tasks are queued, worker 0 runs one, and the client has closed the queue. *)
Definition begun : list (nat * choice Z) :=
  [(2%nat, Submit 7); (2%nat, Submit 8)] ++ go [0%nat; 0%nat] ++ (2%nat, Wait) :: go [2%nat; 2%nat].

Definition completed : list (nat * choice Z) :=
  begun ++ go ([0; 1; 1; 1; 1; 1; 0; 0] ++ [2; 2; 2; 2; 2; 2; 2])%nat.

Definition pool2 : pstate := Pool init [WCheck; WCheck; CIdle None].

Definition begun_state : pstate :=
  Pool (State (true, [8]) 2 None false false [] None [7; 8] [] 1) [WRun 7; WCheck; CLock false].

Definition completed_state : pstate :=
  Pool (State (true, []) 2 None true false [0%nat; 1%nat] None [7; 8] [7; 8] 1)
    [WDone; WDone; CIdle (Some Waited)].

Lemma pool2_run ls s : run (exec assign_all 2) pool2 ls = Some s -> pool_reached assign_all 2 s.
Proof. apply run_reachable. exists 1%nat, 2%nat. by split. Qed.

Lemma begun_reached : pool_reached assign_all 2 begun_state.
Proof. apply (pool2_run begun). reflexivity. Qed.

Lemma completed_reached : pool_reached assign_all 2 completed_state.
Proof. apply (pool2_run completed). reflexivity. Qed.

Lemma pool_exactly_once_witness :
  submitted (shared begun_state) = [7; 8] /\
  submitted (shared begun_state)
  ≡ₚ executed (shared begun_state) ++ running (pcs begun_state) ++ (queue_ (shared begun_state)).2.
Proof. split; [reflexivity|]. apply (pool_exactly_once assign_all 2 begun_state begun_reached). Defined.

Lemma pool_wait_complete_witness :
  submitted (shared completed_state) ≡ₚ executed (shared completed_state) /\
  queue_ (shared completed_state) = (true, []).
Proof.
  apply (pool_wait_complete assign_all 2 completed_state 2); [lia|exact completed_reached|reflexivity|reflexivity].
Defined.

Lemma pool_shutdown_once_witness :
  shutdowns (shared completed_state) = 1 <-> (queue_ (shared completed_state)).1 = true.
Proof. apply (pool_shutdown_once assign_all 2 completed_state completed_reached). Defined.

Lemma pool_drains_witness :
  exists s', exec assign_all 2 begun_state (0%nat, Go) = Some s' /\ workload s' < workload begun_state.
Proof.
  destruct (pool_drains assign_all 2 begun_state 0 (WRun 7)) as [H1 H2]; [reflexivity|reflexivity|].
  destruct H1 as [s' Hs']; [reflexivity|discriminate|reflexivity|]. exists s'. split; [exact Hs'|].
  destruct (H2 Go s' Hs') as (_ & _ & [H|H]); [reflexivity|exact H|].
  exfalso. apply H. injection Hs' as <-. reflexivity.
Defined.

(** The client destroys the pool after it has waited. *)
Definition destroyed : list (nat * choice Z) := completed ++ (2%nat, Destroy) :: go [2; 2; 2; 2; 2]%nat.

Definition destroyed_state : pstate :=
  Pool (State (true, []) 3 None true true [0%nat; 1%nat] None [7; 8] [7; 8] 1)
    [WDone; WDone; CIdle (Some Destroyed)].

Lemma pool_destroy_safe_witness :
  gone (shared destroyed_state) = true /\
  (fate (shared destroyed_state) = None \/ fate (shared destroyed_state) = Some TaskThrew \/
   fate (shared destroyed_state) = Some TaskAssign).
Proof.
  split; [reflexivity|]. apply (pool_destroy_safe assign_all 2 destroyed_state).
  apply (run_reachable _ _ pool2 destroyed); [exists 1%nat, 2%nat; by split|reflexivity].
Defined.

(** A pool of two workers, destroyed at once; a worker looks at the flags in
    between. *)
Lemma pool_destroy_aborts_witness :
  exists s', run (exec assign_all 2) pool2 ((2%nat, Destroy) :: go [2; 0; 2]%nat) = Some s' /\
    fate (shared s') = Some PureVirtual.
Proof.
  eexists. split; [reflexivity|].
  refine (proj2 (proj2 (pool_destroy_aborts assign_all 2 pool2 2 None (go [2; 0; 2]%nat) _ _ _ _ _ _ _)) _);
    try reflexivity.
  intros v q Hq. destruct v as [|[|[|v]]]; simpl in Hq; [injection Hq as <-; reflexivity..|done].
Defined.

(** A task that cannot be assigned ends the program when a worker takes it. *)
Lemma unassignable_ends :
  exists s, run (exec (fun _ => false) 2) pool2 ((2%nat, Submit 7) :: go [0; 0]%nat) = Some s /\
    fate (shared s) = Some TaskAssign /\ executed (shared s) = [].
Proof. eexists. split; [reflexivity|]. by split. Qed.
End example.
