(* ===== verification/PoolQueue.v ===== *)
(** * The thread pool over a concurrent queue (evenk/thread_pool.h)

    [ThreadPool] takes every operation on the queue of tasks as one step.  Here
    the pool runs over a queue of the interface [SharedQueue], whose operations
    are made of steps that interleave with those of the other threads, such as
    synch_queue with the futex lock and condition variable.  Every run of it is
    simulated by one of [ThreadPool], so that its theorems carry over.  The pool
    is not destroyed.  A submit may throw; the move assignment of a task is
    noexcept, and whether it returns is a parameter, as in [ThreadPool]. *)

From stdpp Require Import prelude functions.
From S2P Require Import Prelude Conqueue Lock SynchQueue SharedQueue ThreadPool.
Local Open Scope Z_scope.

Module PoolQueue.
Section pool_queue.
Import ThreadPool.
Context {T : Type} {Q : SharedQueue T} (assigns : T -> bool).

(** The queue, and the other members and history; the queue that [base] has
    is not used. *)
Record state : Type := State { queue : oq_state; base : ThreadPool.state T }.

(** Where a thread is in the pool and, with [x], in the queue. *)
Inductive pc : Type :=
| At (p : ThreadPool.pc T) (x : oq_pc)
| Submitting (t : T) (x : oq_pc).

Inductive choice : Type :=
| Own (c : ThreadPool.choice T)
| InQueue (c : oq_choice).

Definition set_base (s : state) (b : ThreadPool.state T) : state := State (queue s) b.

(** The call of an operation of the queue. *)
Definition call (u : nat) (s : state) (x : oq_pc) (op : operation) (k : oq_pc -> pc) : option (state * pc) :=
  y ← oq_step u (queue s) x (oq_call op); Some (State y.1 (base s), k y.2).

(** A step outside the queue. *)
Definition own_step (size u : nat) (s : state) (p : ThreadPool.pc T) (x : oq_pc) (c : ThreadPool.choice T) :
    option (state * pc) :=
  match p, c with
  | WPop, Go => call u s x sq_wait_pop (At WPop)
  | CShutdown k, Go => call u s x sq_close (At (CShutdown k))
  | CIdle _, Submit t => call u s x (sq_push t) (Submitting t)
  | CIdle _, Destroy => None
  | _, _ => y ← ThreadPool.step assigns size u (base s) p c; Some (set_base s y.1, At y.2 x)
  end.

(** What follows the return of wait_pop in work and of close in shutdown. *)
Definition returned (u : nat) (p : ThreadPool.pc T) (s : state) (x : oq_pc) (r : SynchQueue.outcome T) : option (state * pc) :=
  match p, r with
  | WPop, Popped t => Some (s, At (WRun t) x)
  | WPop, Returned st =>
      Some (if decide (st = closed) then (set_base s (set_finished (base s) u), At WDone x) else (s, At WCheck x))
  | CShutdown k, Done => Some (set_base s (add_shutdown (base s)), At (after_close k) x)
  | _, _ => None
  end.

(** What follows the return of push in submit. *)
Definition submit_returned (t : T) (s : state) (x : oq_pc) (r : SynchQueue.outcome T) : option (state * pc) :=
  match r with
  | Returned st =>
      Some (match sq_basic_push st with
            | inr _ => (set_base s (add_submitted (base s) t), At (CIdle (Some Submitted)) x)
            | inl st => (s, At (CIdle (Some (Refused st))) x)
            end)
  | Threw => Some (s, At (CIdle (Some SubmitThrew)) x)
  | _ => None
  end.

(** Whether the thread can go on: it is not about to assign a task whose move
    assignment does not return. *)
Definition assignable (s : state) (x : oq_pc) : bool :=
  match oq_assigning (queue s) x with Some t => assigns t | None => true end.

(** A step inside an operation of the queue; the program ends in an assignment
    that does not return. *)
Definition queue_step (u : nat) (s : state) (x : oq_pc) (c : oq_choice) (again : oq_pc -> pc)
    (k : state -> oq_pc -> SynchQueue.outcome T -> option (state * pc)) : option (state * pc) :=
  match oq_done x with
  | Some _ => None
  | None =>
      if oq_losing x c then None
      else y ← oq_step u (queue s) x c;
           if assignable s x then
             match oq_done y.2 with
             | Some (Some r) => k (State y.1 (base s)) y.2 r
             | _ => Some (State y.1 (base s), again y.2)
             end
           else Some (set_base s (set_fate (base s) TaskAssign), again x)
  end.

Definition step (size u : nat) (s : state) (p : pc) (c : choice) : option (state * pc) :=
  match fate (base s) with
  | Some _ => None
  | None =>
      match p, c with
      | At p x, Own c => match oq_done x with Some _ => own_step size u s p x c | None => None end
      | At p x, InQueue c => queue_step u s x c (At p) (returned u p)
      | Submitting t x, InQueue c => queue_step u s x c (Submitting t) (submit_returned t)
      | Submitting _ _, Own _ => None
      end
  end.

Definition exec (size : nat) : pool state pc -> nat * choice -> option (pool state pc) := pool_exec (step size).

Definition start (size : nat) (s : pool state pc) : Prop :=
  exists n, s = Pool (State oq_init ThreadPool.init)
                  ((fun p => At p (oq_idle None)) <$> (replicate size WCheck ++ replicate n (CIdle None))).

Definition at_queue (p : pc) : oq_pc := match p with At _ x | Submitting _ x => x end.

(** The threads as the queue sees them. *)
Definition queue_view : pool state pc -> pool oq_state oq_pc := client_view queue at_queue.
End pool_queue.

Arguments state T {Q}.
Arguments pc T {Q}.
Arguments choice T {Q}.
End PoolQueue.

(** ** The simulation *)

Section simulation.
Import ThreadPool PoolQueue.
Context {T : Type} {Q : SharedQueue T} {QL : SharedQueueLaws Q} {QA : QueueAssigns Q} (assigns : T -> bool) (size : nat).

Local Abbreviation cstate := (pool (PoolQueue.state T) (PoolQueue.pc T)).
Local Abbreviation astate := (pool (ThreadPool.state T) (ThreadPool.pc T)).

(** Where a thread inside an operation of the queue is in [ThreadPool]: there the
    operation is over once it has taken effect here. *)
Definition at_busy (p : PoolQueue.pc T) (a : ThreadPool.pc T) : Prop :=
  match p with
  | At p x =>
      match p, oq_pending x, oq_outcome x with
      | WPop, Some op, _ => op = sq_wait_pop /\ a = WPop
      | WPop, None, Some (Popped t) => a = WRun t
      | WPop, None, Some (Returned st) => st = closed /\ a = WDone
      | CShutdown k, Some op, _ => op = sq_close /\ a = CShutdown k
      | CShutdown k, None, Some Done => a = after_close k
      | _, _, _ => False
      end
  | Submitting t x =>
      match oq_pending x, oq_outcome x with
      | Some op, _ => op = sq_push t /\ exists o, a = CIdle o
      | None, Some (Returned st) =>
          a = CIdle (Some (if decide (st = success) then Submitted else Refused st))
      | None, Some Threw => a = CIdle (Some SubmitThrew)
      | _, _ => False
      end
  end.

Definition at_rel (p : PoolQueue.pc T) (a : ThreadPool.pc T) : Prop :=
  match oq_done (at_queue p) with
  | Some _ => p = At a (at_queue p)
  | None => at_busy p a
  end.

(** A task whose submit has put it into the queue and has not returned. *)
Definition landed (p : PoolQueue.pc T) : list T :=
  match p with
  | Submitting t x =>
      match oq_pending x, oq_outcome x with None, Some (Returned success) => [t] | _, _ => [] end
  | _ => []
  end.

Definition landing (ps : list (PoolQueue.pc T)) : list T := ps ≫= landed.

Record base_rel (s : PoolQueue.state T) (land : list T) (a : ThreadPool.state T) : Prop := {
  br_queue : queue_ a = oq_content (queue s);
  br_flags : flags_ a = flags_ (base s);
  br_lock : join_lock_ a = join_lock_ (base s);
  br_done : join_done_ a = join_done_ (base s);
  br_gone : gone a = false /\ gone (base s) = false;
  br_fate : fate a = fate (base s);
  br_finished : finished (base s) ⊆ finished a;
  br_executed : executed a = executed (base s);
  br_submitted : submitted a ≡ₚ submitted (base s) ++ land;
}.

Record pool_rel (c : cstate) (a : astate) : Prop := {
  pr_base : base_rel (shared c) (landing (pcs c)) (shared a);
  pr_pc u p : pcs c !! u = Some p -> exists q, pcs a !! u = Some q /\ at_rel p q;
  pr_length : length (pcs a) = length (pcs c);
  pr_assigned u p t : pcs c !! u = Some p -> oq_assigned (at_queue p) = Some t -> assigns t = true;
  pr_reached : pool_reached assigns size a;
}.

(** The thread goes on inside the queue. *)
Definition with_queue (p : PoolQueue.pc T) (x : oq_pc) : PoolQueue.pc T :=
  match p with At p _ => At p x | Submitting t _ => Submitting t x end.

Lemma landing_insert ps u p p' :
  ps !! u = Some p -> landing (<[u := p']> ps) ++ landed p ≡ₚ landing ps ++ landed p'.
Proof. apply bind_insert. Qed.

(** A step that leaves the landing tasks alone. *)
Lemma landing_same ps u p p' :
  ps !! u = Some p -> landed p' = landed p -> landing (<[u := p']> ps) ≡ₚ landing ps.
Proof.
  intros Hp E. pose proof (landing_insert ps u p p' Hp) as H. rewrite E in H. by apply Permutation_app_inv_r in H.
Qed.

Lemma base_rel_land s l l' a : base_rel s l a -> l' ≡ₚ l -> base_rel s l' a.
Proof. intros [] E. split; try done. by rewrite E. Qed.

(** [ThreadPool] can follow with at most one step. *)
Definition follows (A : ThreadPool.state T) (qs : list (ThreadPool.pc T)) (u : nat)
    (A' : ThreadPool.state T) (a' : ThreadPool.pc T) : Prop :=
  (A' = A /\ qs !! u = Some a') \/ exists c, ThreadPool.exec assigns size (Pool A qs) (u, c) = Some (Pool A' (<[u := a']> qs)).

(** The operation takes effect. *)
Lemma sim_took s l A qs u p y q' a op r :
  base_rel s l A -> fate (base s) = None -> qs !! u = Some a -> at_busy p a ->
  oq_pending (at_queue p) = Some op -> oq_pending y = None -> oq_outcome y = Some r ->
  (acquire_op op = op_try_lock /\ r = Returned busy /\ oq_content q' = oq_content (queue s)) \/
    spec_apply (oq_content (queue s)) op = Some (r, oq_content q') ->
  (forall t, r = Popped t -> assigns t = true) ->
  exists A' a', follows A qs u A' a' /\ at_busy (with_queue p y) a' /\
    base_rel (State q' (base s)) (l ++ landed (with_queue p y)) A'.
Proof.
  intros [H1 H2 H3 H4 [H5 H5'] H6 H7 H8 H9] Hf Hq Hb Hpe Hpe' Ho Hsp Has. rewrite Hf in H6.
  assert (forall c A' a', ThreadPool.step assigns size u A a c = Some (A', a') -> follows A qs u A' a') as Hgo.
  { intros c A' a' Hs. right. exists c. by apply (pool_exec_at (ThreadPool.step assigns size) A qs u c a). }
  destruct p as [p x|t x]; simpl in Hpe, Hb |- *; rewrite Hpe in Hb; rewrite Hpe', Ho.
  - assert (l ++ [] = l) as -> by apply app_nil_r.
    destruct p; try done; destruct Hb as [-> ->]; destruct Hsp as [[[=] _]|Hsp]; simpl in Hsp.
    + destruct (oq_content (queue s)) as [b [|t vs]] eqn:Eq; simpl in Hsp; [destruct b; [|done]|]; simplify_eq.
      * exists (set_finished (set_queue A (true, [])) u), WDone. split_and!; [|done|done|].
        -- apply (Hgo Go). unfold ThreadPool.step. rewrite H6. simpl. unfold with_derived. by rewrite H5, H1.
        -- split; simpl; try done; try congruence. intros v Hv. right. auto.
      * exists (set_queue A (b, vs)), (WRun t). split_and!; [|done|].
        -- apply (Hgo Go). unfold ThreadPool.step. rewrite H6. simpl. unfold with_derived. rewrite H5, H1. simpl.
           by rewrite (Has t eq_refl).
        -- split; simpl; try done; congruence.
    + simplify_eq. exists (shutdown A), (after_close k). split_and!; [|done|].
      * apply (Hgo Go). unfold ThreadPool.step. rewrite H6. simpl. unfold with_derived. by rewrite H5.
      * split; simpl; try done; congruence.
  - destruct Hb as [-> [o ->]]. destruct Hsp as [[[=] _]|Hsp]. simpl in Hsp.
    destruct (oq_content (queue s)) as [[] vs] eqn:Eq; simpl in Hsp; simplify_eq.
    + exists (set_queue A (true, vs)), (CIdle (Some (Refused closed))). split_and!; [|done|].
      * apply (Hgo (Submit t)). unfold ThreadPool.step. rewrite H6. simpl. unfold call_step, with_derived.
        rewrite H5. unfold submit. by rewrite H1.
      * rewrite app_nil_r. split; simpl; try done; congruence.
    + exists (add_submitted (set_queue A (false, vs ++ [t])) t), (CIdle (Some Submitted)). split_and!; [|done|].
      * apply (Hgo (Submit t)). unfold ThreadPool.step. rewrite H6. simpl. unfold call_step, with_derived.
        rewrite H5. unfold submit. by rewrite H1.
      * split; simpl; try done; try congruence. rewrite H9. by rewrite app_assoc.
Qed.

(** A push throws. *)
Lemma sim_threw s l A qs u p y q' a op :
  base_rel s l A -> fate (base s) = None -> qs !! u = Some a -> at_busy p a ->
  oq_pending (at_queue p) = Some op -> is_Some (pushed op) -> oq_pending y = None -> oq_outcome y = Some Threw ->
  oq_content q' = oq_content (queue s) ->
  exists A' a', follows A qs u A' a' /\ at_busy (with_queue p y) a' /\
    base_rel (State q' (base s)) (l ++ landed (with_queue p y)) A'.
Proof.
  intros [H1 H2 H3 H4 [H5 H5'] H6 H7 H8 H9] Hf Hq Hb Hpe Hpu Hpe' Ho Hc. rewrite Hf in H6.
  destruct p as [p x|t x]; simpl in Hpe, Hb |- *; rewrite Hpe in Hb; rewrite Hpe', Ho.
  - exfalso. destruct p; try done; destruct Hb as [-> _]; by destruct Hpu.
  - destruct Hb as [_ [o ->]]. exists A, (CIdle (Some SubmitThrew)). split_and!; [|done|].
    + right. exists SubmitThrow. apply (pool_exec_at (ThreadPool.step assigns size) A qs u SubmitThrow (CIdle o)); [done|].
      unfold ThreadPool.step. rewrite H6. simpl. unfold call_step, with_derived. by rewrite H5.
    + rewrite app_nil_r. split; simpl; try done; congruence.
Qed.

(** The operation returns, after it has taken effect. *)
Definition return_of (u : nat) (p : PoolQueue.pc T) :
    PoolQueue.state T -> oq_pc -> SynchQueue.outcome T -> option (PoolQueue.state T * PoolQueue.pc T) :=
  match p with At p _ => returned u p | Submitting t _ => submit_returned t end.

Lemma sim_return s ps A u p r a s' p' :
  let p1 := with_queue p (oq_idle (Some r)) in
  (u < length ps)%nat -> base_rel s (landing (<[u := p1]> ps)) A -> at_busy p1 a ->
  (a = WDone -> u ∈ finished A) -> return_of u p s (oq_idle (Some r)) r = Some (s', p') ->
  base_rel s' (landing (<[u := p']> ps)) A /\ at_rel p' a /\ at_queue p' = oq_idle (Some r) /\
  queue s' = queue s.
Proof.
  intros p1 Hu Hb Ha Hd Hr. destruct (oq_idle_clear (Some r)) as [Ep Eo].
  assert (oq_done (oq_idle (Some r)) = Some (Some r)) as Edn by by apply oq_done_idle.
  assert (landing (<[u := p']> ps) ++ landed p1 ≡ₚ landing (<[u := p1]> ps) ++ landed p') as Hl.
  { rewrite <- (list_insert_insert_eq ps u p' p1). apply landing_insert. by apply list_lookup_insert_eq. }
  assert (landed p1 = landed p' -> landing (<[u := p']> ps) ≡ₚ landing (<[u := p1]> ps)) as Hl'.
  { intros E. rewrite E in Hl. by apply Permutation_app_inv_r in Hl. }
  assert (forall a0, p' = At a0 (oq_idle (Some r)) -> a = a0 -> at_rel p' a) as Hat.
  { intros a0 -> ->. unfold at_rel. simpl. by rewrite Edn. }
  unfold p1 in *. destruct p as [p x|t x]; simpl in Ha, Hr, Hl; rewrite Ep, Eo in Ha.
  - destruct p; try done; simpl in Hr.
    + destruct r; try done; [|].
      * destruct Ha as [-> ->]. rewrite decide_True in Hr by done. injection Hr as <- <-.
        split_and!; [|by eapply Hat|done|done]. eapply base_rel_land; [|by apply Hl'].
        destruct Hb as [H1 H2 H3 H4 [H5 H5'] H6 H7 H8 H9]. split; try done. simpl.
        intros v [->|Hv]%elem_of_cons; auto.
      * injection Hr as <- <-. split_and!; [|by eapply Hat|done|done]. eapply base_rel_land; [done|by apply Hl'].
    + destruct r; try done. injection Hr as <- <-. split_and!; [|by eapply Hat|done|done].
      eapply base_rel_land; [|by apply Hl']. by destruct Hb as [H1 H2 H3 H4 [H5 H5'] H6 H7 H8 H9].
  - destruct r as [st| | | |]; try done; simpl in Hr; [|injection Hr as <- <-; split_and!; [|by eapply Hat|done|done];
      eapply base_rel_land; [done|]; apply Hl'; simpl; by rewrite Ep, Eo].
    unfold sq_basic_push in Hr. rewrite Ep, Eo in Hl. case_decide as Hst.
    + subst st. injection Hr as <- <-. split_and!; [|by eapply Hat|done|done]. simpl in Hl. rewrite app_nil_r in Hl.
      destruct Hb as [H1 H2 H3 H4 [H5 H5'] H6 H7 H8 H9]. split; try done. simpl.
      rewrite H9, <- Hl. solve_Permutation.
    + injection Hr as <- <-. split_and!; [|by eapply Hat|done|done].
      eapply base_rel_land; [done|]. apply Hl'. simpl. rewrite Ep, Eo. by destruct st.
Qed.

(** The relation after a step that [ThreadPool] has followed. *)
Lemma rel_follows s ps A qs u p s' p' A' a' :
  pool_rel (Pool s ps) (Pool A qs) -> ps !! u = Some p -> follows A qs u A' a' ->
  base_rel s' (landing (<[u := p']> ps)) A' -> at_rel p' a' ->
  (forall t, oq_assigned (at_queue p') = Some t -> assigns t = true) ->
  pool_rel (Pool s' (<[u := p']> ps)) (Pool A' (<[u := a']> qs)).
Proof.
  intros [H1 H2 H3 H5 H4] Hp Hf Hb Ha Has. simpl in *. destruct (H2 u p Hp) as (a & Hq & _). split; simpl; try done.
  - intros v pv [(-> & -> & _)|[Hne Hv]]%insert_lookup_cases.
    + exists a'. split; [by eapply insert_lookup_self|done].
    + rewrite list_lookup_insert_ne by done. auto.
  - by rewrite !length_insert.
  - intros v pv t [(-> & -> & _)|[Hne Hv]]%insert_lookup_cases; [apply Has|by eapply H5].
  - destruct Hf as [[-> Hq']|[c He]]; [by rewrite list_insert_id|]. by eapply reach_step.
Qed.

(** In [ThreadPool] a worker that is done has finished. *)
Lemma follows_finished A qs u A' a' :
  pool_reached assigns size (Pool A qs) -> (u < length qs)%nat -> follows A qs u A' a' -> a' = WDone -> u ∈ finished A'.
Proof.
  intros Hr Hu Hf ->. destruct Hf as [[-> Hq]|[c He]].
  - by apply (eo_finished _ _ (pi_ends _ _ _ (pool_inv_reached _ _ _ Hr))).
  - assert (pool_reached assigns size (Pool A' (<[u := WDone]> qs))) as Hr' by by eapply reach_step.
    apply (eo_finished _ _ (pi_ends _ _ _ (pool_inv_reached _ _ _ Hr'))). simpl. by apply list_lookup_insert_eq.
Qed.

(** A step inside an operation of the queue, before its return. *)
Lemma sim_effect s ps A qs u p c a q' y :
  pool_rel (Pool s ps) (Pool A qs) -> oq_inv (queue_view (Pool s ps)) -> ps !! u = Some p -> qs !! u = Some a ->
  fate (base s) = None -> at_busy p a -> oq_done (at_queue p) = None -> oq_losing (at_queue p) c = false ->
  oq_step u (queue s) (at_queue p) c = Some (q', y) ->
  exists A' a', follows A qs u A' a' /\ at_busy (with_queue p y) a' /\
    base_rel (State q' (base s)) (landing (<[u := with_queue p y]> ps)) A'.
Proof.
  intros H Hi Hp Hq Hf Ha Ed Et Es. pose proof (pr_base _ _ H) as Hb. simpl in Hb.
  assert (pcs (queue_view (Pool s ps)) !! u = Some (at_queue p)) as Hp' by (simpl; by rewrite list_lookup_fmap, Hp).
  pose proof (landing_insert ps u p (with_queue p y) Hp) as Hl.
  assert (forall op, oq_pending (at_queue p) = Some op -> landed p = []) as Hno
    by (intros op E; destruct p; simpl in *; [done|by rewrite E]).
  destruct (oq_throwing c) eqn:Ec'.
  { destruct (oq_threw (queue_view (Pool s ps)) u (at_queue p) c q' y Hi Hp' Ed Ec' Et Es) as (Ec & (op & Epe & Hpu) & Epe' & Eo).
    destruct (sim_threw s (landing ps) A qs u p y q' a op) as (A' & a' & Hfo & Hab & Hbr); try done.
    exists A', a'. split_and!; [done|done|]. eapply base_rel_land; [exact Hbr|]. by rewrite (Hno op Epe), app_nil_r in Hl. }
  pose proof (oq_effect (queue_view (Pool s ps)) u (at_queue p) c q' y Hi Hp' Ed Ec' Es) as He. simpl in He.
  destruct He as [Ec Epe Eo|op r Epe Epe' Eo Hsp].
  - exists A, a. split_and!; [by left| |].
    + destruct p; simpl in *; by rewrite Epe, Eo.
    + eapply base_rel_land; [|apply landing_same with p; [done|]].
      * destruct Hb as [H1 H2 H3 H4 H5 H6 H7 H8 H9]. split; try done. simpl. congruence.
      * destruct p; simpl in *; [done|]. by rewrite Epe, Eo.
  - destruct (sim_took s (landing ps) A qs u p y q' a op r) as (A' & a' & Hfo & Hab & Hbr); try done.
    + intros t ->. eapply (pr_assigned _ _ H u p t Hp). by eapply oq_popped; eauto.
    + exists A', a'. split_and!; [done|done|]. eapply base_rel_land; [exact Hbr|]. by rewrite (Hno op Epe), app_nil_r in Hl.
Qed.

(** The assignment of a task that does not return ends the program in both. *)
Lemma sim_ends s ps a u p :
  pool_rel (Pool s ps) a -> oq_inv (queue_view (Pool s ps)) -> ps !! u = Some p -> fate (base s) = None ->
  oq_done (at_queue p) = None -> assignable assigns s (at_queue p) = false ->
  exists a', pool_rel (Pool (set_base s (set_fate (base s) TaskAssign)) (<[u := p]> ps)) a'.
Proof.
  intros H Hi Hp Hf Ed Has. destruct a as [A qs]. unfold assignable in Has.
  destruct (oq_assigning (queue s) (at_queue p)) as [t|] eqn:Ea; [|done].
  destruct (pr_pc _ _ H u p Hp) as (a & Hq & Ha). unfold at_rel in Ha. simpl in Hq. rewrite Ed in Ha.
  assert (pcs (queue_view (Pool s ps)) !! u = Some (at_queue p)) as Hp' by (simpl; by rewrite list_lookup_fmap, Hp).
  destruct (oq_assigning_first _ u _ t Hi Hp' Ea) as ((b & vs & Ec) & op & Epe & Hop). simpl in Ec.
  assert (exists x, p = At WPop x) as [x ->].
  { destruct p as [p x|t' x]; simpl in Ha, Epe; rewrite Epe in Ha.
    - destruct p; try done; [by exists x|]. by destruct Ha as [-> _].
    - by destruct Ha as [-> _]. }
  simpl in Ha, Epe. rewrite Epe in Ha. destruct Ha as [-> ->].
  pose proof (pr_base _ _ H) as [H1 H2 H3 H4 [H5 H5'] H6 H7 H8 H9]. simpl in *. rewrite Hf in H6.
  exists (Pool (set_fate A TaskAssign) (<[u := WPop]> qs)). eapply rel_follows; [done|done| | | |].
  - right. exists Go. apply (pool_exec_at (ThreadPool.step assigns size) A qs u Go WPop); [done|].
    unfold ThreadPool.step. rewrite H6. simpl. unfold with_derived. rewrite H5, H1, Ec. simpl. by rewrite Has.
  - rewrite list_insert_id by done. by split.
  - unfold at_rel. simpl. by rewrite Ed, Epe.
  - intros t'. eapply (pr_assigned _ _ H u _ t' Hp).
Qed.

(** An operation that goes back to the start of its caller has a result. *)
Lemma busy_none p a : ~ at_busy (with_queue p (oq_idle None)) a.
Proof.
  destruct (oq_idle_clear (T := T) None) as [Ep Eo]. intros Hab.
  destruct p as [[] |]; simpl in Hab; try done; by rewrite Ep, Eo in Hab.
Qed.

Lemma sim_queue s ps a u p c s' p' :
  pool_rel (Pool s ps) a -> oq_inv (queue_view (Pool s ps)) -> ps !! u = Some p -> fate (base s) = None ->
  queue_step assigns u s (at_queue p) c (with_queue p) (return_of u p) = Some (s', p') ->
  exists a', pool_rel (Pool s' (<[u := p']> ps)) a'.
Proof.
  intros H Hi Hp Hf Hs. destruct a as [A qs].
  destruct (pr_pc _ _ H u p Hp) as (a & Hq & Ha). simpl in Hq. unfold at_rel in Ha. unfold queue_step in Hs.
  destruct (oq_done (at_queue p)) as [|] eqn:Ed; [done|]. destruct (oq_losing (at_queue p) c) eqn:Et; [done|].
  destruct (oq_step u (queue s) (at_queue p) c) as [[q' y]|] eqn:Es; [|done]. simpl in Hs.
  destruct (assignable assigns s (at_queue p)) eqn:Eas.
  2: { injection Hs as <- <-. assert (with_queue p (at_queue p) = p) as -> by by destruct p. by eapply sim_ends. }
  assert (forall t, oq_assigned y = Some t -> assigns t = true) as Has.
  { intros t Hy. unfold assignable in Eas. by rewrite (oq_assigned_step u (queue s) (at_queue p) c q' y t Ed Es Hy) in Eas. }
  destruct (sim_effect s ps A qs u p c a q' y H Hi Hp Hq Hf Ha Ed Et Es) as (A' & a' & Hfo & Hab & Hbr).
  assert (u < length ps)%nat as Hu by by eapply lookup_lt_Some.
  exists (Pool A' (<[u := a']> qs)).
  destruct (oq_done y) as [[r|]|] eqn:Ey.
  - apply oq_done_idle in Ey as ->.
    destruct (sim_return (State q' (base s)) ps A' u p r a' s' p') as (Hbr' & Har & Haq & _); try done.
    + apply (follows_finished A qs u A' a'); [apply (pr_reached _ _ H)| |done].
      pose proof (pr_length _ _ H) as E. simpl in E. by rewrite E.
    + eapply rel_follows; eauto. rewrite Haq. by intros t; rewrite oq_assigned_idle.
  - apply oq_done_idle in Ey as ->. by apply busy_none in Hab.
  - injection Hs as <- <-. assert (at_queue (with_queue p y) = y) as Hy by by destruct p.
    eapply rel_follows; eauto; [unfold at_rel|]; rewrite Hy; [by rewrite Ey|done].
Qed.

(** The steps that do not use the queue. *)
Definition apart (p : ThreadPool.pc T) (c : ThreadPool.choice T) : bool :=
  match p, c with
  | WPop, Go | CShutdown _, Go | CIdle _, Submit _ | CIdle _, Destroy => false
  | _, _ => true
  end.

Lemma sim_base s l A u p c b' p' :
  base_rel s l A -> apart p c = true -> ThreadPool.step assigns size u (base s) p c = Some (b', p') ->
  exists A', ThreadPool.step assigns size u A p c = Some (A', p') /\ base_rel (set_base s b') l A'.
Proof.
  intros [H1 H2 H3 H4 [H5 H5'] H6 H7 H8 H9] Ha Hs. unfold ThreadPool.step in *. rewrite H6.
  destruct (fate (base s)) eqn:Hf; [done|].
  destruct p, c; try done; simpl in *; unfold call_step, with_derived in *; rewrite ?H5, ?H5' in *; simpl in *;
    unfold is_stopped in *; rewrite ?H2, ?H3, ?H4.
  all: try (simplify_eq; eexists; split; [done|]; split; simpl; try done; congruence).
  - destruct (negb (Z.land (flags_ (base s)) stop_flag =? 0)); simplify_eq; (eexists; split; [done|]);
      split; simpl; try done; try congruence. intros v [->|Hv]%elem_of_cons; [by left|right; auto].
  - destruct (join_lock_ (base s)); [done|]. simplify_eq. eexists. split; [done|]. split; simpl; try done; congruence.
  - destruct (i <? size)%nat.
    + case_decide as Hd; [|done]. simplify_eq. rewrite decide_True by auto. eexists. split; [done|]. split; simpl; try done; congruence.
    + simplify_eq. eexists. split; [done|]. split; simpl; try done; congruence.
Qed.

(** A step outside the queue, or the call of one of its operations. *)
Lemma sim_own s ps a u p x o c s' p' :
  pool_rel (Pool s ps) a -> ps !! u = Some (At p x) -> oq_done x = Some o ->
  own_step assigns size u s p x c = Some (s', p') -> exists a', pool_rel (Pool s' (<[u := p']> ps)) a'.
Proof.
  intros H Hp Hd Hs. destruct a as [A qs]. pose proof (pr_base _ _ H) as Hb. simpl in Hb.
  destruct (pr_pc _ _ H u _ Hp) as (a & Hq & Ha). unfold at_rel in Ha. simpl in Ha, Hq. rewrite Hd in Ha.
  injection Ha as <-. apply oq_done_idle in Hd as ->.
  assert (forall op k, call u s (oq_idle o) op k = Some (s', p') ->
    (forall y, at_queue (k y) = y) -> (forall y, oq_pending y = Some op -> landed (k y) = [] /\ at_busy (k y) p) ->
    exists a', pool_rel (Pool s' (<[u := p']> ps)) a') as Hcall.
  { intros op k Hc Hk Hat. unfold call in Hc.
    destruct (oq_step u (queue s) (oq_idle o) (oq_call op)) as [[q' y]|] eqn:Es; [|done]. injection Hc as <- <-.
    destruct (oq_call_effect _ _ _ _ _ _ Es) as (Ec & Epe & Eo & Ed). destruct (Hat y Epe) as [Hl Hab].
    exists (Pool A (<[u := p]> qs)). eapply rel_follows; [done|done|by left| | |].
    - eapply base_rel_land; [|by apply landing_same with (At p (oq_idle o))].
      destruct Hb as [H1 H2 H3 H4 H5 H6 H7 H8 H9]. split; try done. simpl. congruence.
    - unfold at_rel. by rewrite Hk, Ed.
    - rewrite Hk. intros t. by rewrite (oq_assigned_call _ _ _ _ _ _ Es). }
  assert (apart p c = true -> exists a', pool_rel (Pool s' (<[u := p']> ps)) a') as Hbase.
  { intros Hap. assert (exists b' p0, ThreadPool.step assigns size u (base s) p c = Some (b', p0) /\
      s' = set_base s b' /\ p' = At p0 (oq_idle o)) as (b' & p0 & Hs' & -> & ->).
    { assert (own_step assigns size u s p (oq_idle o) c
        = (y ← ThreadPool.step assigns size u (base s) p c; Some (set_base s y.1, At y.2 (oq_idle o)))) as E by by destruct p, c.
      rewrite E in Hs. destruct (ThreadPool.step assigns size u (base s) p c) as [[b' p0]|]; [|done].
      injection Hs as <- <-. eauto. }
    destruct (sim_base s _ A u p c b' p0 Hb Hap Hs') as (A' & HA & Hbr).
    exists (Pool A' (<[u := p0]> qs)). eapply rel_follows; [done|done| | | |].
    - right. exists c. by apply (pool_exec_at (ThreadPool.step assigns size) A qs u c p).
    - eapply base_rel_land; [done|]. by apply landing_same with (At p (oq_idle o)).
    - unfold at_rel. simpl. by rewrite (proj2 (oq_done_idle _ o) eq_refl).
    - intros t. simpl. by rewrite oq_assigned_idle. }
  destruct p, c; try (by apply Hbase); try done; simpl in Hs.
  - eapply Hcall; [done|done|]. intros y E. simpl. by rewrite E.
  - eapply Hcall; [done|done|]. intros y E. simpl. rewrite E. eauto.
  - eapply Hcall; [done|done|]. intros y E. simpl. by rewrite E.
Qed.

(** ** The queue under the pool *)

(** A step inside an operation of the queue: one of the queue, or the end of the
    program. *)
Lemma queue_step_cases u s x c again k s' p' :
  queue_step assigns u s x c again k = Some (s', p') ->
  (s' = set_base s (set_fate (base s) TaskAssign) /\ p' = again x) \/
  exists q' y, oq_losing x c = false /\ oq_step u (queue s) x c = Some (q', y) /\
    match oq_done y with
    | Some (Some r) => k (State q' (base s)) y r = Some (s', p')
    | _ => s' = State q' (base s) /\ p' = again y
    end.
Proof.
  unfold queue_step. intros H. destruct (oq_done x); [done|]. destruct (oq_losing x c); [done|].
  destruct (oq_step u (queue s) x c) as [[q' y]|]; [|done]. simpl in H.
  destruct (assignable assigns s x); [right; exists q', y|left; by simplify_eq].
  do 2 (split; [done|]). destruct (oq_done y) as [[r|]|]; by simplify_eq.
Qed.

(** A step of the pool is a step of the queue without an exception on the way
    out, or none. *)
Lemma step_view u s p c s' p' :
  PoolQueue.step assigns size u s p c = Some (s', p') -> client_moves queue at_queue u s p s' p'.
Proof.
  intros Hs. unfold PoolQueue.step in Hs. destruct (fate (base s)); [done|].
  assert (forall op k, call u s (at_queue p) op k = Some (s', p') -> (forall y, at_queue (k y) = y) ->
    client_moves queue at_queue u s p s' p') as Hcall.
  { intros op k Hc Hk. right. exists (oq_call op). split; [apply oq_losing_throwing, oq_call_throwing|]. unfold call in Hc.
    destruct (oq_step u (queue s) (at_queue p) (oq_call op)) as [[q' y]|]; [|done]. injection Hc as <- <-. by rewrite Hk. }
  assert (forall again k c0, queue_step assigns u s (at_queue p) c0 again k = Some (s', p') ->
    (forall y, at_queue (again y) = y) ->
    (forall s1 y r, k s1 y r = Some (s', p') -> queue s' = queue s1 /\ at_queue p' = y) ->
    client_moves queue at_queue u s p s' p') as Hqs.
  { intros again k c0 Hc Ha Hk. apply queue_step_cases in Hc as [[-> ->]|(q' & y & Hl & Hstep & Hy)];
      [left; split; [done|apply Ha]|]. right. exists c0. split; [done|]. rewrite Hstep.
    destruct (oq_done y) as [[r|]|]; [|by destruct Hy as [-> ->]; rewrite Ha..].
    by destruct (Hk _ _ _ Hy) as [-> ->]. }
  destruct p as [p x|t x], c as [c|c]; try done.
  - destruct (oq_done x); [|done].
    destruct p, c; simpl in Hs; try done; try (by eapply Hcall); left; by simplify_option_eq.
  - eapply Hqs; [done|done|]. intros s1 y r Hr.
    destruct p, r; simpl in Hr; repeat case_decide; by simplify_eq.
  - eapply Hqs; [done|done|]. intros s1 y r Hr. unfold submit_returned in Hr.
    destruct r; simplify_eq/=; repeat case_match; by simplify_eq.
Qed.

Definition pq_reached : cstate -> Prop :=
  reachable_in (PoolQueue.exec assigns size) (PoolQueue.start size) (fun s => oq_window (queue_view s) = true).

Lemma view_exec (c : cstate) l c' :
  oq_inv (queue_view c) -> oq_window (queue_view c) = true -> PoolQueue.exec assigns size c l = Some c' ->
  oq_window (queue_view c') = true -> oq_inv (queue_view c').
Proof.
  apply (client_exec queue at_queue (PoolQueue.step assigns size)). apply step_view.
Qed.

Lemma pq_start_rel s : PoolQueue.start size s -> oq_inv (queue_view s) /\ exists a, pool_rel s a.
Proof.
  intros [n ->]. set (ps := replicate size WCheck ++ replicate n (CIdle None)). split.
  - unfold queue_view, client_view. simpl. rewrite <- list_fmap_compose.
    assert (forall l : list (ThreadPool.pc T),
      at_queue ∘ (fun p => At p (oq_idle None)) <$> l = replicate (length l) (oq_idle None)) as ->
      by (induction l as [|p l IH]; [done|]; cbn; f_equal; exact IH).
    apply oq_inv_start.
  - exists (Pool ThreadPool.init ps). split; simpl.
    + assert (forall l : list (ThreadPool.pc T), landing ((fun p => At p (oq_idle None)) <$> l) = []) as ->
        by by induction l.
      split; try done. symmetry. apply oq_content_init.
    + intros u p Hp. rewrite list_lookup_fmap in Hp. destruct (ps !! u) as [a|]; [|done]. injection Hp as <-.
      exists a. split; [done|]. unfold at_rel. simpl. by rewrite (proj2 (oq_done_idle _ None) eq_refl).
    + by rewrite length_fmap.
    + intros u p t Hp. rewrite list_lookup_fmap in Hp. destruct (ps !! u); [|done]. injection Hp as <-. simpl.
      by rewrite oq_assigned_idle.
    + apply reach_init; [|done]. exists n, size. split; [done|]. by rewrite construct_ok.
Qed.

Lemma pq_simulated s : pq_reached s -> oq_inv (queue_view s) /\ exists a, pool_rel s a.
Proof.
  apply (invariant_in_reachable _ _ _ (fun s => oq_inv (queue_view s) /\ exists a, pool_rel s a)). split; [intros; by apply pq_start_rel|].
  intros c l c' Hw [Hi [a H]] He Hw'. split; [by eapply view_exec|].
  destruct c as [s0 ps], l as [u ch]. pool_step He. cbn [shared pcs] in *. unfold PoolQueue.step in Ht.
  destruct (fate (base s0)) eqn:Hf; [done|]. destruct p as [p x|t x], ch as [ch|ch]; try done.
  - destruct (oq_done x) eqn:Hd; [|done]. by eapply sim_own.
  - by eapply (sim_queue s0 ps a u (At p x)).
  - by eapply (sim_queue s0 ps a u (Submitting t x)).
Qed.

(** ** Theorems *)

(** The task a worker has taken and not finished. *)
Definition taken (p : PoolQueue.pc T) : list T :=
  match p with
  | At (WRun t) _ => [t]
  | At WPop x =>
      match oq_done x, oq_pending x, oq_outcome x with None, None, Some (Popped t) => [t] | _, _, _ => [] end
  | _ => []
  end.

Lemma taken_running ps qs :
  length qs = length ps -> (forall u p, ps !! u = Some p -> exists a, qs !! u = Some a /\ at_rel p a) ->
  running qs = ps ≫= taken.
Proof.
  revert qs. induction ps as [|p ps IH]; intros [|a qs] Hl H; try done.
  change (running (a :: qs)) with (match a with WRun t => [t] | _ => [] end ++ running qs). simpl.
  rewrite (IH qs); [|by injection Hl|intros u q Hq; by apply (H (S u))]. f_equal.
  destruct (H 0%nat p eq_refl) as (b & [= <-] & Ha). unfold at_rel in Ha.
  destruct (oq_done (at_queue p)) eqn:Ed.
  - rewrite Ha. destruct a; try done. simpl. by rewrite Ed.
  - destruct p as [p x|t x]; simpl in *.
    + destruct p as [| | | | | |k| | | | |]; try done; rewrite ?Ed.
      * by destruct (oq_pending x), (oq_outcome x) as [[]|]; destruct_and?; subst.
      * destruct (oq_pending x), (oq_outcome x) as [[]|]; destruct_and?; subst; try done; by destruct k.
    + destruct (oq_pending x); [by destruct Ha as [_ [? ->]]|]. destruct (oq_outcome x) as [[]|]; try done; by subst.
Qed.

(** The flow of the tasks. *)
Lemma pq_flow s :
  pq_reached s ->
  submitted (base (shared s)) ++ landing (pcs s)
  ≡ₚ executed (base (shared s)) ++ (pcs s ≫= taken) ++ (oq_content (queue (shared s))).2 /\
  Forall (fun t => assigns t = true) (executed (base (shared s)) ++ (pcs s ≫= taken)).
Proof.
  intros [_ [a H]]%pq_simulated. destruct (pr_base _ _ H) as [H1 _ _ _ _ _ _ H8 H9].
  pose proof (pool_inv_reached _ _ _ (pr_reached _ _ H)) as Hinv.
  pose proof (pi_flow _ _ _ Hinv) as Hf. pose proof (pi_assigned _ _ _ Hinv) as Has. unfold flow_ok, assigned_ok in *.
  rewrite <- (taken_running (pcs s) (pcs a) (pr_length _ _ H) (pr_pc _ _ H)), <- H8, <- H1. split; [|done].
  by rewrite <- H9.
Qed.

Lemma pq_waited s u x :
  (0 < size)%nat -> pq_reached s -> pcs s !! u = Some (At (CIdle (Some Waited)) x) ->
  is_stopped (base (shared s)) = false ->
  submitted (base (shared s)) ++ landing (pcs s) ≡ₚ executed (base (shared s)) /\
  oq_content (queue (shared s)) = (true, []).
Proof.
  intros Hsize [_ [a H]]%pq_simulated Hu Hst. destruct (pr_base _ _ H) as [H1 H2 _ _ _ _ _ H8 H9].
  destruct (pr_pc _ _ H u _ Hu) as (q & Hq & Ha). unfold at_rel in Ha. simpl in Ha.
  destruct (oq_done x); [|done]. injection Ha as <-.
  destruct (wait_complete assigns size a u Hsize (pool_inv_reached _ _ _ (pr_reached _ _ H)) Hq) as [Hs Hc].
  - unfold is_stopped in *. by rewrite H2.
  - rewrite <- H9, <- H8, <- H1. done.
Qed.

(** C11. The pool over a concurrent queue runs no task twice and loses none,
    whatever the move assignment of its task type does: the tasks whose submit has
    put them into the queue are those that have been run, those that workers have
    taken, and those in the queue, each as often as it was submitted; and the tasks
    that have been run or taken are among those whose assignment returns. *)
Theorem pool_queue_exactly_once s :
  pq_reached s ->
  submitted (base (shared s)) ++ landing (pcs s)
  ≡ₚ executed (base (shared s)) ++ (pcs s ≫= taken) ++ (oq_content (queue (shared s))).2 /\
  Forall (fun t => assigns t = true) (executed (base (shared s)) ++ (pcs s ≫= taken)).
Proof. apply pq_flow. Qed.

(** C20. wait completes the work also over a concurrent queue: when it has returned in
    a pool with workers that nobody has stopped, every task that submit has put
    into the queue has been run exactly once, and the queue is closed and empty.
    (With tasks whose move assignment does not return the program ends instead,
    unless no task was submitted.) *)
Theorem pool_queue_wait_complete s u x :
  (0 < size)%nat -> pq_reached s -> pcs s !! u = Some (At (CIdle (Some Waited)) x) ->
  is_stopped (base (shared s)) = false ->
  submitted (base (shared s)) ++ landing (pcs s) ≡ₚ executed (base (shared s)) /\
  oq_content (queue (shared s)) = (true, []).
Proof. apply pq_waited. Qed.

(** ** Progress *)

(** A worker that is done has finished. *)
Definition done_ok (s : cstate) : Prop :=
  forall u x, pcs s !! u = Some (At WDone x) -> u ∈ finished (base (shared s)).

Lemma done_own u s p x c s' p' :
  own_step assigns size u s p x c = Some (s', p') ->
  finished (base s) ⊆ finished (base s') /\ (forall y, p' = At WDone y -> u ∈ finished (base s')).
Proof.
  intros Hs.
  assert (forall op k, call u s x op k = Some (s', p') -> (forall y z, k y <> At WDone z) ->
    finished (base s) ⊆ finished (base s') /\ (forall y, p' = At WDone y -> u ∈ finished (base s'))) as Hcall.
  { intros op k Hc Hk. unfold call in Hc. destruct (oq_step u (queue s) x (oq_call op)) as [[q' y]|]; [|done].
    injection Hc as <- <-. split; [done|]. intros z E. by destruct (Hk y z). }
  assert ((y ← ThreadPool.step assigns size u (base s) p c; Some (set_base s y.1, At y.2 x)) = Some (s', p') ->
    finished (base s) ⊆ finished (base s') /\ (forall y, p' = At WDone y -> u ∈ finished (base s'))) as Hbase.
  { intros E. destruct (ThreadPool.step assigns size u (base s) p c) as [[b' p0]|] eqn:Es; [|done]. injection E as <- <-.
    apply step_moves in Es. split; [apply (moves_monotone _ _ _ _ _ _ _ Es)|]. intros y [= -> _].
    destruct (moves_finish _ _ _ _ _ _ _ Es) as [(_ & _ & ?)|(E & _)]; [done|]. simpl. rewrite E. by left. }
  destruct p, c; simpl in Hs; try (by apply Hbase); try done; by eapply Hcall.
Qed.

Lemma done_step u s p c s' p' :
  PoolQueue.step assigns size u s p c = Some (s', p') ->
  finished (base s) ⊆ finished (base s') /\
  (forall y, p' = At WDone y -> u ∈ finished (base s') \/ exists x, p = At WDone x).
Proof.
  intros Hs. unfold PoolQueue.step in Hs. destruct (fate (base s)); [done|].
  destruct p as [p x|t x], c as [c|c]; try done.
  - destruct (oq_done x); [|done]. destruct (done_own _ _ _ _ _ _ _ Hs) as [H1 H2]. split; [done|]. eauto.
  - apply queue_step_cases in Hs as [[-> ->]|(q' & y & _ & _ & Hs)]; [split; [done|]; intros z [= -> _]; eauto|].
    destruct (oq_done y) as [[r|]|]; [|destruct Hs as [-> ->]; split; [done|]; intros z [= -> _]; eauto..].
    destruct p, r; simpl in Hs; try done; repeat case_decide; simplify_eq; simpl; (split; [set_solver|]);
      intros z E; try (by destruct k); simplify_eq. left. by left.
  - apply queue_step_cases in Hs as [[-> ->]|(q' & y & _ & _ & Hs)]; [by split|].
    destruct (oq_done y) as [[r|]|]; [|destruct Hs as [-> ->]; by split..].
    destruct r; simpl in Hs; try done; repeat case_match; by simplify_eq.
Qed.

Lemma done_reached s : pq_reached s -> done_ok s.
Proof.
  apply (invariant_in_reachable _ _ _ done_ok). split.
  - intros ? [n ->] _ u x Hu. simpl in Hu. rewrite list_lookup_fmap in Hu.
    destruct ((replicate size WCheck ++ replicate n (CIdle None)) !! u) as [p|] eqn:E; [|done]. injection Hu as -> _.
    apply list_elem_of_lookup_2, elem_of_app in E as [E|E]; by apply elem_of_replicate in E as [? _].
  - intros c l c' _ H He _. destruct c as [s0 ps], l as [u ch]. pool_step He. cbn [shared pcs] in *.
    destruct (done_step _ _ _ _ _ _ Ht) as [H1 H2]. intros v y [(-> & E & _)|[_ Hv]]%insert_lookup_cases; simpl.
    + destruct (H2 y (eq_sym E)) as [?|[x ->]]; [done|]. apply H1. by apply (H u x).
    + apply H1. by apply (H v y).
Qed.

(** An operation that returns lets its caller go on. *)
Lemma return_some u p s r a :
  at_busy (with_queue p (oq_idle (Some r))) a -> is_Some (return_of u p s (oq_idle (Some r)) r).
Proof.
  destruct (oq_idle_clear (Some r)) as [Ep Eo]. destruct p as [p x|t x]; simpl; rewrite Ep, Eo.
  - destruct p; try done; simpl; destruct r; try done; intros _; repeat case_decide; by eexists.
  - by destruct r.
Qed.
End simulation.

Section progress.
Import ThreadPool PoolQueue.
Context {T : Type} {Q : SharedQueue T} {QL : SharedQueueLaws Q} {QA : QueueAssigns Q} {QP : QueueProgress Q}.
Context (assigns : T -> bool) (size : nat).

Local Abbreviation cstate := (pool (PoolQueue.state T) (PoolQueue.pc T)).

(** A step a thread takes by itself: not a call of a client, not a task that
    throws, and not a spurious wake-up. *)
Definition pq_wilful (c : PoolQueue.choice T) : bool :=
  match c with Own Go => true | Own _ => false | InQueue c => oq_wilful c end.

Definition stuck (s : cstate) : Prop := forall u c, pq_wilful c = true -> PoolQueue.exec assigns size s (u, c) = None.

Lemma stuck_step s u p c : stuck s -> pcs s !! u = Some p -> pq_wilful c = true ->
  PoolQueue.step assigns size u (shared s) p c = None.
Proof.
  intros H Hp Hc. specialize (H u c Hc). destruct s as [s ps]. simpl in *. unfold PoolQueue.exec in H.
  destruct (PoolQueue.step assigns size u s p c) as [[s' p']|] eqn:E; [|done].
  by rewrite (pool_exec_at (PoolQueue.step assigns size) s ps u c p s' p' Hp E) in H.
Qed.

(** When the pool is stuck so is the queue. *)
Lemma stuck_queue s a :
  pool_rel assigns size s a -> oq_inv (queue_view s) -> fate (base (shared s)) = None -> stuck s ->
  forall u c, oq_wilful c = true -> pool_exec oq_step (queue_view s) (u, c) = None.
Proof.
  intros H Hi Hf Hs u c Hc. destruct (pool_exec oq_step (queue_view s) (u, c)) as [v|] eqn:E; [|done].
  pool_step E. simpl in Hp, Ht. rewrite list_lookup_fmap in Hp. destruct (pcs s !! u) as [p0|] eqn:Hp0; [|done].
  injection Hp as <-. destruct (oq_done (at_queue p0)) as [o|] eqn:Ed.
  { apply oq_done_idle in Ed. rewrite Ed in Ht. by rewrite oq_wilful_idle in Ht. }
  assert (queue_step assigns u (shared s) (at_queue p0) c (with_queue p0) (return_of u p0) = None) as Hn.
  { pose proof (stuck_step s u p0 (InQueue c) Hs Hp0 Hc) as Hn. unfold PoolQueue.step in Hn. rewrite Hf in Hn.
    by destruct p0. }
  pose proof (oq_wilful_throwing c Hc) as Et. unfold queue_step in Hn.
  rewrite Ed, (oq_losing_throwing _ _ Et), Ht in Hn. simpl in Hn. destruct (assignable assigns (shared s) (at_queue p0)); [|done].
  destruct s as [s0 ps], a as [A qs]. simpl in *.
  destruct (pr_pc _ _ _ _ H u p0 Hp0) as (a & Hq & Ha). unfold at_rel in Ha. rewrite Ed in Ha.
  destruct (sim_effect assigns size s0 ps A qs u p0 c a sh' p' H Hi Hp0 Hq Hf Ha Ed (oq_losing_throwing _ _ Et) Ht) as (A' & a' & _ & Hab & _).
  destruct (oq_done p') as [[r|]|] eqn:Ey; try done. apply oq_done_idle in Ey as ->.
  destruct (return_some u p0 (State sh' (base s0)) r a' Hab) as [x Hx]. by rewrite Hx in Hn.
Qed.

(** A thread of a stuck pool: it waits for a task, it is done or idle, or it
    waits for the lock of the join or for a worker. *)
Lemma stuck_cases s a u p :
  pool_rel assigns size s a -> oq_inv (queue_view s) -> fate (base (shared s)) = None -> stuck s ->
  pcs s !! u = Some p ->
  (exists x, p = At WPop x /\ oq_done x = None /\ oq_pending x = Some sq_wait_pop /\
     oq_content (queue (shared s)) = (false, [])) \/
  exists p0 x o, p = At p0 x /\ oq_done x = Some o /\ pcs a !! u = Some p0 /\
    match p0 with
    | WDone | CIdle _ => True
    | CLock _ => exists v, join_lock_ (base (shared s)) = Some v
    | CJoin _ i => (i < size)%nat /\ i ∉ finished (base (shared s))
    | _ => False
    end.
Proof.
  intros H Hi Hf Hs Hp. destruct (pr_pc _ _ _ _ H u p Hp) as (a0 & Hq & Ha). unfold at_rel in Ha.
  destruct (oq_done (at_queue p)) as [o|] eqn:Ed.
  - right. exists a0, (at_queue p), o. split_and!; try done.
    pose proof (stuck_step s u p (Own Go) Hs Hp eq_refl) as Hn. unfold PoolQueue.step in Hn. rewrite Hf in Hn.
    rewrite Ha in Hn. rewrite Ed in Hn. apply oq_done_idle in Ed. rewrite Ed in Hn.
    assert (forall op, call u (shared s) (oq_idle o) op (At a0) <> None) as Hcall.
    { intros op. unfold call. destruct (oq_call_enabled u (queue (shared s)) o op) as [y ->]. done. }
    destruct a0; simpl in Hn; unfold ThreadPool.step in Hn; rewrite ?Hf in Hn; simpl in Hn; try done.
    + by apply Hcall in Hn.
    + by apply Hcall in Hn.
    + destruct (join_lock_ (base (shared s))); [eauto|done].
    + destruct (Nat.ltb_spec i size); [|done]. case_decide; done.
  - left. assert (pcs (queue_view s) !! u = Some (at_queue p)) as Hp' by (simpl; by rewrite list_lookup_fmap, Hp).
    destruct (oq_stuck (queue_view s) Hi (stuck_queue s a H Hi Hf Hs) u _ Hp' Ed) as [Epe Ec].
    destruct p as [p x|t x]; simpl in *; rewrite Epe in Ha; [|by destruct Ha].
    destruct p; try done; [by exists x|by destruct Ha].
Qed.

(** While the queue of a stuck pool is open nobody has called stop or wait. *)
Lemma stuck_open s a :
  pool_rel assigns size s a -> oq_inv (queue_view s) -> fate (base (shared s)) = None -> stuck s ->
  (oq_content (queue (shared s))).1 = false -> flags_ (base (shared s)) = 0.
Proof.
  intros H Hi Hf Hs Ho. destruct (pr_base _ _ _ _ H) as [B1 B2 _ _ _ _ _ _ _].
  pose proof (pool_inv_reached _ _ _ (pr_reached _ _ _ _ H)) as Hinv.
  apply dec_stable. intros Hfl. destruct (closing_exists a) as (w & k & Hw); [apply Hinv|congruence..|].
  destruct (lookup_lt_is_Some_2 (pcs s) w) as [p Hp].
  { rewrite <- (pr_length _ _ _ _ H). by eapply lookup_lt_Some. }
  destruct (stuck_cases s a w p H Hi Hf Hs Hp) as [(x & -> & Ed & Epe & _)|(p0 & x & o & _ & _ & Hw' & Hc)].
  - destruct (pr_pc _ _ _ _ H w _ Hp) as (q & Hq & Ha). unfold at_rel in Ha. simpl in Ha. rewrite Ed, Epe in Ha.
    destruct Ha as [_ ->]. congruence.
  - rewrite Hw in Hw'. by injection Hw' as <-.
Qed.

(** Nobody in a stuck pool waits for a worker. *)
Lemma stuck_join s a v d i x :
  pool_rel assigns size s a -> oq_inv (queue_view s) -> done_ok s -> fate (base (shared s)) = None -> stuck s ->
  pcs s !! v = Some (At (CJoin d i) x) -> False.
Proof.
  intros H Hi Hdn Hf Hs Hv. pose proof (pool_inv_reached _ _ _ (pr_reached _ _ _ _ H)) as Hinv.
  destruct (pr_base _ _ _ _ H) as [_ B2 _ _ _ _ _ _ _].
  destruct (stuck_cases s a v _ H Hi Hf Hs Hv) as [(? & [=] & _)|(p0 & x' & o & [= <- <-] & _ & Ha & Hin & Hni)].
  destruct (pi_roles _ _ _ Hinv) as [Hlen Hrole]. rewrite (pr_length _ _ _ _ H) in Hlen.
  destruct (lookup_lt_is_Some_2 (pcs s) i ltac:(lia)) as [p Hp].
  destruct (stuck_cases s a i p H Hi Hf Hs Hp) as [(y & -> & _ & _ & Ho)|(q & y & o' & -> & _ & Hq & Hc)].
  - apply (co_flagged _ (pi_clients _ _ _ Hinv) v _ Ha eq_refl). rewrite B2. apply (stuck_open s a); try done.
    by rewrite Ho.
  - pose proof (Hrole i q Hq) as Hw. rewrite bool_decide_true in Hw by done. destruct q; try done.
    by apply Hni, (Hdn i y).
Qed.

(** C12. The pool over a queue that makes progress comes to a stop only when nothing
    is left to do, or when the program has ended (by a task that throws or whose
    move assignment does not return): when it has not, and no thread can go on by
    itself, every client has returned
    from its calls; every worker is done or waits for a task; and if one waits,
    the queue is open and empty and nobody has called stop or wait. *)
Theorem pool_queue_no_deadlock s :
  pq_reached assigns size s -> fate (base (shared s)) = None -> stuck s ->
  (forall u p, pcs s !! u = Some p ->
     (exists o x, p = At (CIdle o) x) \/ (exists x, p = At WDone x) \/
     exists x, p = At WPop x /\ oq_pending x = Some sq_wait_pop) /\
  (forall u x, pcs s !! u = Some (At WPop x) ->
     oq_content (queue (shared s)) = (false, []) /\ flags_ (base (shared s)) = 0).
Proof.
  intros Hr Hf Hs. pose proof (done_reached _ _ _ Hr) as Hdn. destruct (pq_simulated _ _ _ Hr) as [Hi [a H]].
  pose proof (pool_inv_reached _ _ _ (pr_reached _ _ _ _ H)) as Hinv. split.
  - intros u p Hp. destruct (stuck_cases s a u p H Hi Hf Hs Hp) as [(x & -> & _ & ? & _)|(q & x & o & -> & _ & Hq & Hc)];
      [eauto 6|]. destruct q; try done; [eauto|eauto| |]; exfalso.
    + destruct Hc as [v Hv]. rewrite <- (br_lock _ _ _ (pr_base _ _ _ _ H)) in Hv.
      destruct (co_lock _ (pi_clients _ _ _ Hinv) v Hv) as (pv & Hpv & Hj).
      destruct (lookup_lt_is_Some_2 (pcs s) v) as [p Hpv'].
      { rewrite <- (pr_length _ _ _ _ H). by eapply lookup_lt_Some. }
      destruct (stuck_cases s a v p H Hi Hf Hs Hpv') as [(y & -> & Ed & Epe & _)|(q & y & o' & -> & _ & Hq' & Hc)].
      * destruct (pr_pc _ _ _ _ H v _ Hpv') as (q & Hq' & Ha). unfold at_rel in Ha. simpl in Ha. rewrite Ed, Epe in Ha.
        destruct Ha as [_ ->]. by simplify_eq.
      * rewrite Hpv in Hq'. injection Hq' as <-. destruct pv; try done. by eapply stuck_join.
    + by eapply stuck_join.
  - intros u x Hp.
    destruct (stuck_cases s a u _ H Hi Hf Hs Hp) as [(y & _ & _ & _ & Ho)|(q & y & o & [= <- <-] & _ & _ & [])].
    split; [done|]. apply (stuck_open s a); try done. by rewrite Ho.
Qed.
End progress.
