(* ===== verification/PqExamples.v ===== *)
(** * A run of the thread pool over synch_queue and futex_synch

    A worker waits for a task, and sleeps in the kernel; the client submits one,
    and waits for the pool. *)

From stdpp Require Import prelude functions.
From S2P Require Import Prelude Futex Conqueue Lock FutexLock CondVar SynchQueue FutexQueue FqRefine FqSim FqTheorems.
From S2P Require Import FqExamples SharedQueue ThreadPool PoolQueue.
Local Open Scope Z_scope.

Import ThreadPool PoolQueue.

#[local] Existing Instance futex_queue_shared.

Local Abbreviation pqstate := (pool (PoolQueue.state Z) (PoolQueue.pc Z)).
Local Abbreviation schedule := (list (nat * PoolQueue.choice Z)).

Definition own (u : nat) : nat * PoolQueue.choice Z := (u, Own Go).

(** A step of the queue. *)
Definition inside (l : nat * FutexQueue.choice Z) : nat * PoolQueue.choice Z :=
  (l.1, InQueue (l.2 : @oq_choice Z futex_queue_shared)).

Definition pq_one : pqstate :=
  Pool (PoolQueue.State oq_init ThreadPool.init) [At WCheck (oq_idle None); At (CIdle None) (oq_idle None)].

Lemma pq_one_start : PoolQueue.start 1 pq_one.
Proof. by exists 1%nat. Qed.

Definition pq_window (s : pqstate) : bool := oq_window (queue_view s).

(** The worker falls asleep in wait_pop. *)
Definition pq_waits : schedule := own 0 :: own 0 :: (inside <$> tail fq_waits).

(** The client submits 7, and the worker takes and runs it. *)
Definition pq_submits : schedule :=
  pq_waits ++ (1%nat, Own (Submit 7)) :: (inside <$> drop (S (length fq_waits)) fq_all).

(** The client calls wait, which closes the queue; the worker finds it closed. *)
Definition pq_wait : schedule :=
  pq_submits ++ [own 0; (1%nat, Own Wait); own 1; own 1] ++
  (inside <$> [lk_go 1; (1%nat, FutexQueue.Go); (1%nat, FutexQueue.Go); cv_go 1; cv_go 1; (1%nat, FutexQueue.Go); lk_go 1]) ++
  [own 0; own 0] ++
  (inside <$> [lk_go 0; (0%nat, FutexQueue.Go); (0%nat, FutexQueue.Go); lk_go 0]) ++
  replicate 6 (own 1).

Definition pq_asleep : pqstate :=
  Pool (PoolQueue.State (shared fq_asleep : @oq_state Z futex_queue_shared) ThreadPool.init)
    [At WPop (FutexQueue.Waiting CondVar.WaitAsleep : @oq_pc Z futex_queue_shared); At (CIdle None) (oq_idle None)].

Definition pq_taken : pqstate :=
  Pool (PoolQueue.State (shared fq_end : @oq_state Z futex_queue_shared) (add_submitted ThreadPool.init 7))
    [At (WRun 7) (oq_idle (Some (Popped 7))); At (CIdle (Some Submitted)) (oq_idle (Some (Returned success)))].

Definition pq_end : pqstate :=
  Pool (PoolQueue.State
          (FutexQueue.State true (CondVar.State 2 0 (Some 0%nat) [] (FutexLock.State 0 []) 2) [] 0
             : @oq_state Z futex_queue_shared)
          (ThreadPool.State (false, []) wait_flag None true false [0%nat] None [7] [7] 1))
    [At WDone (oq_idle (Some (Returned closed))); At (CIdle (Some Waited)) (oq_idle (Some Done))].

Lemma pq_run_reached ls s : run_in (PoolQueue.exec assign_all 1) pq_window pq_one ls = Some s -> pq_reached assign_all 1 s.
Proof. intros H. eapply run_in_reachable; [|apply pq_one_start|exact H]. done. Qed.

Lemma pq_asleep_reached : pq_reached assign_all 1 pq_asleep.
Proof. apply (pq_run_reached pq_waits). reflexivity. Qed.

Lemma pq_taken_reached : pq_reached assign_all 1 pq_taken.
Proof. apply (pq_run_reached pq_submits). reflexivity. Qed.

Lemma pq_end_reached : pq_reached assign_all 1 pq_end.
Proof. apply (pq_run_reached pq_wait). reflexivity. Qed.

(** The task is with the worker. *)
Lemma pool_queue_exactly_once_witness :
  submitted (base (shared pq_taken)) = [7] /\ [7] ≡ₚ [] ++ (pcs pq_taken ≫= taken) ++ [].
Proof. split; [reflexivity|]. exact (proj1 (pool_queue_exactly_once assign_all 1 pq_taken pq_taken_reached)). Defined.

(** The client has returned from wait: the task has run. *)
Lemma pool_queue_wait_complete_witness :
  pcs pq_end !! 1%nat = Some (At (CIdle (Some Waited)) (oq_idle (Some Done))) /\ [7] ≡ₚ executed (base (shared pq_end)).
Proof.
  split; [reflexivity|].
  apply (pool_queue_wait_complete assign_all 1 pq_end 1 (oq_idle (Some Done)) (Nat.lt_0_succ 0) pq_end_reached eq_refl eq_refl).
Defined.

(** With a task that cannot be assigned the program ends inside wait_pop, with the
    task still in the queue. *)
Definition pq_assigning : schedule :=
  pq_waits ++ (1%nat, Own (Submit 7)) :: (inside <$> drop (S (length fq_waits)) (take (length fq_all - 4) fq_all)).

Lemma pq_unassignable_ends :
  (fun s : pqstate => (fate (base (shared s)), executed (base (shared s)), oq_content (queue (shared s)))) <$>
    run_in (PoolQueue.exec (fun _ => false) 1) pq_window pq_one pq_assigning
  = Some (Some TaskAssign, [], (false, [7])).
Proof. reflexivity. Qed.

(** Nobody can go on: the worker sleeps, the client is idle. *)
Lemma pq_asleep_stuck : PoolQueue.stuck assign_all 1 pq_asleep.
Proof.
  intros u c Hc. destruct u as [|[|u]]; [| |done].
  - destruct c as [c|c]; [done|]. destruct c as [| | | |c]; try done. by destruct c.
  - destruct c as [c|c]; [by destruct c|done].
Qed.

Lemma pool_queue_no_deadlock_witness :
  oq_content (queue (shared pq_asleep)) = (false, []) /\ flags_ (base (shared pq_asleep)) = 0.
Proof.
  destruct (pool_queue_no_deadlock assign_all 1 pq_asleep pq_asleep_reached eq_refl pq_asleep_stuck) as [_ H].
  apply (H 0%nat (FutexQueue.Waiting CondVar.WaitAsleep)). reflexivity.
Defined.
