(* ===== verification/PoolTask.v ===== *)
(** * The thread pool with its task type (evenk/thread_pool.h, evenk/task.h)

    The theorems on the pool hold for any task type, whatever its move assignment
    does.  The pool of the source is declared with [task], whose move assignment
    never returns.  Here the two are put together: wait_pop assigns the task it
    takes to the empty task of the worker. *)

From stdpp Require Import prelude gmap.
From S2P Require Import Prelude Futex Conqueue Lock FutexLock CondVar SynchQueue FutexQueue SharedQueue.
From S2P Require Import Task ThreadPool PoolQueue.
Local Open Scope Z_scope.

Section pool_task.
Import ThreadPool PoolQueue.
Context {C A : Type} `{EqDecision A} (default_alloc : A) (memory_size : Z).

Local Abbreviation task := (task (C := C) (A := A)).

Context {Q : SharedQueue task} {QL : SharedQueueLaws Q} {QA : QueueAssigns Q}.

(** Whether the assignment of [t] to the variable of a worker returns, in the heap
    [h] and within the fuel. *)
Definition task_assigns (fuel : nat) (h : gmap nat (A * option C)) (t : task) : bool :=
  assign_returns default_alloc memory_size fuel h (task_empty default_alloc) t.

Lemma task_assigns_none fuel h (l : list task) : Forall (fun t => task_assigns fuel h t = true) l -> l = [].
Proof.
  destruct l as [|t l]; [done|]. intros Hl%Forall_inv. unfold task_assigns in Hl.
  by rewrite assign_returns_false in Hl.
Qed.

(** C37. The pool of the source runs no task: whatever is submitted, no task has been
    run or taken by a worker in any state reached; a worker whose wait_pop finds a
    task ends the program in the move assignment; and when wait has returned in a
    pool with workers that nobody has stopped, nothing had been submitted. *)
Theorem pool_runs_no_task fuel h size s :
  pq_reached (task_assigns fuel h) size s ->
  executed (base (shared s)) = [] /\ (pcs s ≫= taken) = [] /\
  (forall u p t c s', pcs s !! u = Some p -> oq_assigning (queue (shared s)) (at_queue p) = Some t ->
     PoolQueue.exec (task_assigns fuel h) size s (u, InQueue c) = Some s' ->
     fate (base (shared s')) = Some TaskAssign) /\
  (forall u x, (0 < size)%nat -> pcs s !! u = Some (At (CIdle (Some Waited)) x) ->
     is_stopped (base (shared s)) = false -> submitted (base (shared s)) = []).
Proof.
  intros Hs. destruct (pq_flow _ _ _ Hs) as [_ Has%task_assigns_none]. apply app_nil in Has as [He Ht].
  split; [done|]. split; [done|]. split.
  - intros u p t c s' Hp Ha Hx. destruct s as [s ps]. pool_step Hx. cbn [shared pcs] in *. simplify_eq.
    unfold PoolQueue.step in Ht0. destruct (fate (base s)); [done|].
    assert (assignable (task_assigns fuel h) s (at_queue p) = false) as E.
    { unfold assignable. rewrite Ha. apply assign_returns_false. }
    destruct p as [p x|t' x]; simpl in Ha, E, Ht0; unfold queue_step in Ht0; destruct (oq_done x); try done;
      destruct (oq_losing x c); try done; destruct (oq_step u (queue s) x c); try done; simpl in Ht0;
      rewrite E in Ht0; by injection Ht0 as <- <-.
  - intros u x Hsize Hu Hst. destruct (pq_waited _ _ _ _ _ Hsize Hs Hu Hst) as [Hf _].
    rewrite He in Hf. apply Permutation_nil_r in Hf. by apply app_nil in Hf as [? _].
Qed.
End pool_task.

(** ** A run: a worker takes the one task that was submitted *)

Section example.
Import ThreadPool PoolQueue.

Local Abbreviation etask := (Task.task (C := Z) (A := unit)).
#[local] Existing Instance futex_queue_shared.

(** A task whose target 5 is in its own memory. *)
Definition example_task : etask := Task (Inline 5) (invoke 8) (Some 8) tt.

Definition step_in (u : nat) (c : FutexQueue.choice etask) : nat * PoolQueue.choice etask :=
  (u, InQueue (c : @oq_choice etask futex_queue_shared)).

Definition pt_start : pool (PoolQueue.state etask) (PoolQueue.pc etask) :=
  Pool (PoolQueue.State oq_init ThreadPool.init) [At WCheck (oq_idle None); At (CIdle None) (oq_idle None)].

(** The client submits the task; the worker comes to the assignment. *)
Definition pt_assigns : list (nat * PoolQueue.choice etask) :=
  (1%nat, Own (Submit example_task)) ::
  (step_in 1%nat <$> [FutexQueue.InLock FutexLock.Go; FutexQueue.Go; FutexQueue.Go; FutexQueue.Go;
     FutexQueue.InCond CondVar.Go; FutexQueue.InCond CondVar.Go; FutexQueue.Go; FutexQueue.InLock FutexLock.Go]) ++
  [(0%nat, Own Go); (0%nat, Own Go)] ++ (step_in 0%nat <$> [FutexQueue.InLock FutexLock.Go; FutexQueue.Go]).

Local Abbreviation exec := (PoolQueue.exec (task_assigns tt 8 3 ∅) 1).

Definition pt_window (s : pool (PoolQueue.state etask) (PoolQueue.pc etask)) : bool := oq_window (queue_view s).

Definition pt_assigning : pool (PoolQueue.state etask) (PoolQueue.pc etask) :=
  Pool (PoolQueue.State
          (FutexQueue.State false (CondVar.State 1 0 None [] (FutexLock.State 1 []) 1) [example_task] 0
             : @oq_state etask futex_queue_shared)
          (add_submitted ThreadPool.init example_task))
    [At WPop (FutexQueue.Critical sq_wait_pop PopFront : @oq_pc etask futex_queue_shared);
     At (CIdle (Some Submitted)) (oq_idle (Some (Returned success)))].

Lemma pt_run_reached ls s : run_in exec pt_window pt_start ls = Some s -> pq_reached (task_assigns tt 8 3 ∅) 1 s.
Proof. intros H. eapply run_in_reachable; [|by exists 1%nat|exact H]. done. Qed.

Lemma pt_assigning_reached : pq_reached (task_assigns tt 8 3 ∅) 1 pt_assigning.
Proof. apply (pt_run_reached pt_assigns). reflexivity. Qed.

Definition pt_ended : pool (PoolQueue.state etask) (PoolQueue.pc etask) :=
  Pool (set_base (shared pt_assigning) (set_fate (add_submitted ThreadPool.init example_task) TaskAssign))
    (pcs pt_assigning).

Lemma pt_ends : exec pt_assigning (step_in 0%nat FutexQueue.Go) = Some pt_ended.
Proof. reflexivity. Qed.

Lemma pool_runs_no_task_witness :
  submitted (base (shared pt_assigning)) = [example_task] /\ executed (base (shared pt_assigning)) = [] /\
  fate (base (shared pt_ended)) = Some TaskAssign.
Proof.
  split; [reflexivity|].
  destruct (pool_runs_no_task tt 8 3 ∅ 1 pt_assigning pt_assigning_reached) as (He & _ & Hf & _).
  split; [exact He|].
  apply (Hf 0%nat (At WPop (FutexQueue.Critical sq_wait_pop PopFront : @oq_pc etask futex_queue_shared))
           example_task FutexQueue.Go pt_ended eq_refl eq_refl pt_ends).
Defined.
End example.
